(* ===== verification/_CoqProject ===== *)
-Q . S2P
Prelude.v
Util.v
Runtime.v
Graph.v
Ident.v
Scope.v
Ast.v
Units.v
Wire.v
Deps.v
Inst.v
Translate.v
Generate.v
Exec.v
Resume.v
Incremental.v
Deliver.v
Emit.v
RoundTrip.v
Replay.v
Suspend.v
Outgoing.v
CodeGen.v
Nodes.v
ScopePass.v
UnitScopePass.v
IdPass.v
TransformPass.v
Evolve.v
Resolve.v
Settle.v
Compile.v
Regex.v
Scanner.v
Scanning.v
Grammar.v
Precedence.v
ReadBack.v
Lalr.v
LrCorrect.v
Yacc.v
Specs.v
Embed.v
Values.v
Source.v
SpecRead.v
OnDemand.v
SpecMeans.v
