(* ===== verification/Prelude.v ===== *)
(** * Diffingo: a verification library

    Diffingo compiles specifications of message formats into C++ parsers and serializers.  A
    specification declares _units_ (sequences of fields, variables and properties) and
    _instantiations_, which name the items of a unit an application needs; the compiler
    generates a compact unit for each instantiation, in which everything else is merged into
    opaque bytes, and code that calls a small runtime library.

    ** The parts of the program and where they are modelled

    - [Prelude] (this file): outcomes of C++ calls, machine integers, automation, shared lemmas.
    - [Util]: [src/src/util/util.cc], [util.h].  Strings are Rocq strings of 8-bit characters;
      [Module Strings] has splitting, joining and trimming, [Numbers] hashing and number
      conversion, [Escapes] the escape sequences, [Paths] and [Identifiers] the rest.
    - [Runtime]: [src/src/runtime].  [Module Memory] is a partial map from addresses to bytes,
      [UnitArea] the bump allocator, [ParserState] the stack and instruction pointer of a
      parser, [Parsing] and [Serializing] the primitives generated code calls, [DataType] the
      lists of a unit.
    - [Graph]: [src/src/spec/ast/node.h], [node.cpp], [visitor.h].  [Module Node] is a heap of
      nodes and of the cells that copies of a [node_ptr] share; [Module Visitor] is the visiting
      protocol over an arbitrary visit method.
    - [Ident]: identifiers, locations, attributes and attribute maps ([id.h], [id.cpp],
      [location.h], [location.cpp], [attribute.h], [attribute.cpp] of [src/src/spec/ast]).
    - [Scope]: [src/src/spec/ast/scope.h], [scope.cpp], as a store of scopes, their shared data
      and the shared lists of values.
    - [Ast]: the types, constants, constructors and expressions of [src/src/spec/ast/type],
      [constant], [ctor] and [expression], with their types, clones, static lengths and the
      numbering of labels.
    - [Units]: [src/src/spec/ast/type/unit.h], [unit.cpp]: units, items and fields, their
      queries, lengths and clones.
    - [Wire]: an abstract specification of the size a piece of a unit takes in a message (a
      switch takes the case of a label, its default or nothing), with the kinds of messages the
      theorems distinguish ([messages]), and the theorems that the lengths and clones of [Units]
      agree with it.
    - [Deps]: [src/src/generation/preprocessing/instantiation_dependency_resolver.cpp]: the
      walk that records which item refers to which ([Module Deps]) and the closure of an
      instantiation under these dependencies, with its abstract specification ([Module
      Closure]), a stack-free account of what an expression refers to ([Module Accesses]), and that
      what lengths read is always needed ([Module LengthReads]).
    - [Inst]: [src/src/generation/preprocessing/instantiation_type_generator.cpp]: the compact
      unit of an instantiation.
    - [Translate]: [src/src/generation/output/type_translator.cpp],
      [expression_translator.cpp], [translator.cpp]: the C++ text of types and expressions, and
      a reader for that text ([Module Cpp]).
    - [Generate]: [src/src/generation/parsing/parser_generator.cpp],
      [serializing/serializer_generator.cpp] and the unit classes of [output/code_generator.cpp]:
      the parse and serialize functions as code with labels and switches, and their text.
    - [Exec]: the execution of a generated parse function over the runtime: its frame, the
      layout of unit classes, computed gotos and calls.
    - [Resume], [Incremental]: what a call that is repeated with more data does; [Incremental]
      ties the shape the proofs need to what [Generate] makes.  [Deliver]: what such a parser can
      do with a part of a message, and that it is done when the message is there.
    - [Emit]: the execution of a generated serialize function.  [Suspend], [Outgoing]: for
      serializers what [Resume] and [Incremental] are for parsers; the code of an instruction
      [repeats], and code made of such instructions [suspends].
    - [RoundTrip], [Replay]: the code of the two generators for the same unit, related by [trip]:
      what the serializer makes of a unit the parser made.
    - [CodeGen]: the rest of [src/src/generation/output/code_generator.cpp] and the classes and
      files of [src/externals/libkode] it fills.
    - [Nodes]: the nodes as the passes over a module see them: a heap of objects with the
      members the passes use, the state of a pass and a state monad, the traversal of
      [visitor.h] over a heap that changes.
    - [ScopePass], [UnitScopePass], [IdPass], [TransformPass]: the passes of
      [src/src/generation/preprocessing] that build scopes and resolve identifiers and
      transforms, with the names of their visit methods.
    - [Evolve]: weakest preconditions for that monad, traversals that change the heap, and
      what resolution changes; [Resolve]: the theorems about [IdResolver]; [Settle]: the
      passes keep the values of scopes resolved.
    - [Compile]: [src/src/generation/compiler.cpp]: the sequence of passes and the driver with
      its includes.
    - [Regex], [Scanner]: [src/src/spec/parser/scanner.ll] and [driver.cpp]: patterns with their
      languages and the longest match; tokens, rules and start conditions, a call of the scanner,
      the driver.  [Scanning]: what the scanner does with a text.
    - [Grammar]: the rules of expressions of [src/src/spec/parser/parser.yy] as derivation trees
      with their tokens and semantic actions, and the shift-reduce automaton with the conflicts
      as the declared precedences resolve them.  [Precedence]: which trees it finds; [ReadBack]:
      expressions as texts, and what the operators the grammar derives compute.
    - [Lalr], [LrCorrect]: what bison does with a grammar: the LALR(1) table with the conflicts
      resolved as bison resolves them, the automaton that runs on it, a validator for tables, and
      that the automaton of a valid table ends and finds exactly the trees the table allows.
    - [Yacc]: all 225 rules of [src/src/spec/parser/parser.yy], with the types of their symbols
      and their semantic actions over the state of the driver; its table is computed.  [Specs]: the
      parser of specifications, as [LrCorrect] says, and the types of its values.
    - [OnDemand]: [Driver::parse] of [src/src/spec/parser/driver.cpp]: the parser takes tokens from
      the scanner one by one and switches its mode at regular expressions.
    - [Source]: specifications as they are written, with their tokens and with what they declare.
      [Embed], [SpecRead]: the table reads the tokens of expressions and of declarations as trees;
      [Values], [SpecMeans]: what the semantic actions make of these trees.

    ** How the parts interact

    [Deps] and [Inst] are the core of the compiler: [Inst.instantiate] resolves the
    dependencies of the requested items ([Deps.resolve_dependencies]), which walks over the
    unit and its expressions, and compacts the unit with the lengths and clones of [Units].
    [Wire] is the interface between them: the theorems of [Inst] are stated and proved against
    the relation [wire] and the class [LengthSemantics] of meanings of length expressions, and
    the theorems of [Wire] discharge what they need of [Units].  In the same way the
    classes [IntParser] and [IntSerializer] of [Runtime] state what the generated code may rely
    on, for the sixteen integer codecs at once.  [Generate] makes code for the units of [Units]
    with the texts of [Translate]; [Exec] runs it over the memory, unit area and parser state of
    [Runtime]; [Incremental] composes the two.  [Emit], [Outgoing] and [Replay] do the same for
    serializers, and [Replay] puts a parser in front of one.  [Compile] runs the passes over one heap of
    [Nodes] and one store of [Scope]; the passes on instantiations, which [Deps] and [Inst]
    have on the trees of [Units], are parameters there.  [ReadBack] puts the scanner in front of the
    expression parser, whose trees are the expressions of [Ast] that [Translate] and [Exec] take.
    [OnDemand] puts the scanner below the parser of whole specifications, whose actions build the
    units of [Units] and the declarations around them; [SpecMeans] uses the expressions of [Grammar]
    inside them.  The parser is still a parameter of the driver in [Compile], which works on the
    graph of [Nodes].

    ** What the theorems show

    - Instantiations: every requested field is in the compact unit, not demoted to a field for
      parsing only; exactly the needed variables stay, and every field a length reads by name; in
      the messages [flat_labels_taken] (every switch takes a case by a label, as copied switches
      have no default; no bit fields; constant lengths in embedded units; below 2^31 bytes) fields
      keep their offsets and messages their size.  The dependency iteration terminates and
      computes the least closure; the recorded dependencies are the accesses of the expressions.
    - Lengths: static lengths and length expressions are the sizes in messages below 2^31 bytes
      (the range of the [int] that holds the length of a switch case) without bit fields in which
      every switch takes a case; length expressions also want constant lengths in embedded units.
    - Runtime: the integer codecs are inverse to each other, have the value their name says and
      are repeatable when data is missing; copying and allocation stay within their buffers,
      blocks do not overlap; the parser stack refines a stack of frames.
    - Generated parsers: a parser that is called again whenever more data has arrived ends like
      one that starts anew with all of it; however often it is suspended, if it returns it has
      written only into the unit area, its stack entry and its frame, and read only what there is
      (positions are not kept in the buffer by the model; a move by 2^63 or more is undefined
      behaviour); it is done at the latest when the last byte of
      a message it can read has arrived; the text of an expression means the expression; the
      generated file has exactly the classes of the units.
    - Generated serializers: a serializer that is called again with more room, whenever its buffer
      was full, ends like one that had the room; it writes only into the output, the scalar
      members of the unit, its stack entry and its frame (for units that are [flushable], without
      [$$] where a resumed call would read it).  For a unit whose expressions look back only and
      whose conversions lose nothing ([ordered]) it writes the bytes that were parsed, if the code
      of its variables leaves them as they are.
    - Specifications: the scanner reads every written token back; the expression parser finds
      exactly the derivation trees the precedences allow, and every expression can be written so
      that it is read back; the derived comparisons compute what they say.  The parser of whole
      specifications ends on every text, driving the scanner, finds exactly the trees bison's table
      allows, gives its actions values of the declared types, and makes of a specification that is
      written as the grammar can read it what the specification declares.
    - Passes: the walk of identifier resolution visits finitely many nodes of every graph although
      it changes it (a list type that contains itself overflows the stack in one of these visits),
      keeps the kind of node behind every pointer (fields, variables and properties are kinds of
      their own), and code is only generated from modules with nothing left to resolve, when no
      file declares an alias; transforms separate the two types of an item.  Aliases, includes and
      transforms have flaws that theorems exhibit.
    - AST: traversals visit every reachable node once on any graph, recursive child queries
      decide reachability, visits that return restore the visitor's state, replaced nodes are seen through
      all pointers; identifiers, attribute maps and scopes behave as the maps they stand for.
    - Utilities: splitting and joining and escaping round-trip; conversions are total.
    - Where the code does not do what it means to, the theorem states what it does.

    ** Conventions

    A C++ call is a function into [outcome]: it returns, throws, aborts (a failed assertion or
    undefined behaviour) or, where recursion is not structural, has not finished within its
    fuel.  Integers are [Z] with explicit wrap-around ([uwrap], [swrap]) where the width
    matters.  Fuel: one unit per iteration of the dependency loop, of which [resolve_fuel]
    is proved to be enough; the depth of unit nesting in [unit_len], [unit_expr],
    [process_unit] and [compact_unit] (the code recurses without bound on units that contain
    themselves); the number of nodes for traversals of a graph, the length of the string for
    string loops, the length of the input for a call of the scanner and three times the number of
    tokens for the expression parser, and the length of the path for scopes, each proved to be
    enough; for the parser of specifications a potential of the states and the symbols that every
    step lowers ([Validation.height], [cost]), so that the fuel is linear in the number of tokens
    or, on demand, in the length of the text ([demand_fuel]); the construction of its table runs on
    constants (3000 and 2000) and its result is validated; for
    [IdResolver] the number of cells plus what the lambdas and unknown fields can add
    ([id_resolution_terminates]).  Recursion of the code that has no end (parents of scopes,
    lists of lists that contain themselves, nested switches) runs on more fuel than there are
    objects and then aborts, as the stack overflows.

    ** What is not modelled

    The code flex and bison generate is taken to do what their manuals say: [Regex] and [Lalr]
    are models of the two programs, not of their output.  Its class of locations and [strtod] are
    parameters.  [Grammar], the expression parser on its own, leaves out [IF], list comprehensions,
    [FIND], [CAST], sizes and regular expressions, which [Yacc] has; the specifications of [Source]
    have no switches, enumerations, bit sets, bit fields, tuple types or regular expressions.  Option parsing and
    the printing of files; list and vector fields in generated code, which the generators do not
    support; textual rendering of nodes and log messages; other vendored code.
    [std::set] in the visitor is a set of the nodes the pointers hold when it is searched.
    Conditions of fields are not part of sizes or of generated code, as
    in the code.  Of the vendored utf8proc library, the two functions the escapes call are
    translated from [src/externals/utf8proc/utf8proc.c]. *)

From Stdlib Require Export Ascii.
From stdpp Require Export base list gmap strings pretty numbers.
From stdpp Require Export options.
From Stdlib Require Export ZArith Lia.

(** ** Scope and notations of the development *)

Declare Scope dgo_scope.
Delimit Scope dgo_scope with dgo.
Open Scope dgo_scope.

(** ** Outcomes

    A C++ call returns normally, throws, aborts the process (a failed
    [assert], [abort()], or behaviour the language leaves undefined), or, for a
    model that runs on fuel, has not finished yet. *)
Inductive exn :=
  | StdRuntimeError (msg : string)
  | AstRuntimeError (msg : string)
  | AstInternalError (msg : string).

Inductive outcome (A : Type) :=
  | Ret (a : A)
  | Throw (e : exn)
  | Abort (why : string)
  | NoFuel.
Arguments Ret {A} _.
Arguments Throw {A} _.
Arguments Abort {A} _.
Arguments NoFuel {A}.

#[export] Instance outcome_ret : MRet outcome := @Ret.
#[export] Instance outcome_bind : MBind outcome := λ A B f m,
  match m with
  | Ret a => f a
  | Throw e => Throw e
  | Abort w => Abort w
  | NoFuel => NoFuel
  end.
#[export] Instance outcome_fmap : FMap outcome := λ A B f m,
  match m with
  | Ret a => Ret (f a)
  | Throw e => Throw e
  | Abort w => Abort w
  | NoFuel => NoFuel
  end.

(** ** Machine integers

    [uwrap w z] is [z] reduced to a [w]-bit unsigned integer, [swrap w z] the
    two's-complement [w]-bit signed integer with the same bits. *)
Definition uwrap (w z : Z) : Z := z mod 2 ^ w.
Definition swrap (w z : Z) : Z :=
  let u := uwrap w z in if (u <? 2 ^ (w - 1))%Z then u else (u - 2 ^ w)%Z.

(** ** Automation *)

Create HintDb dgo.

(** [case_bool] destructs the first boolean test it finds. *)
Ltac case_bool :=
  match goal with
  | |- context [if ?b then _ else _] => destruct b eqn:?
  | H : context [if ?b then _ else _] |- _ => destruct b eqn:?
  end.

(** [bool_to_prop] turns boolean (in)equalities of the context into propositions. *)
Ltac bool_to_prop :=
  repeat match goal with
  | H : (_ && _)%bool = true |- _ => apply andb_prop in H; destruct H
  | H : (_ || _)%bool = false |- _ => apply orb_false_elim in H; destruct H
  | H : negb _ = true |- _ => apply negb_true_iff in H
  | H : negb _ = false |- _ => apply negb_false_iff in H
  | H : (_ <? _)%Z = true |- _ => apply Z.ltb_lt in H
  | H : (_ <? _)%Z = false |- _ => apply Z.ltb_ge in H
  | H : (_ <=? _)%Z = true |- _ => apply Z.leb_le in H
  | H : (_ <=? _)%Z = false |- _ => apply Z.leb_gt in H
  | H : (_ =? _)%Z = true |- _ => apply Z.eqb_eq in H
  | H : (_ =? _)%Z = false |- _ => apply Z.eqb_neq in H
  | H : (_ <? _)%nat = true |- _ => apply Nat.ltb_lt in H
  | H : (_ <? _)%nat = false |- _ => apply Nat.ltb_ge in H
  | H : (_ =? _)%nat = true |- _ => apply Nat.eqb_eq in H
  | H : (_ =? _)%nat = false |- _ => apply Nat.eqb_neq in H
  | H : String.eqb _ _ = true |- _ => apply String.eqb_eq in H
  | H : String.eqb _ _ = false |- _ => apply String.eqb_neq in H
  | H : bool_decide _ = true |- _ => apply bool_decide_eq_true in H
  | H : bool_decide _ = false |- _ => apply bool_decide_eq_false in H
  end.

(** [destruct_Ret H] runs through the monadic steps of [H : m ≫= f = Ret r]. *)
Ltac destruct_Ret H :=
  repeat match type of H with
  | mbind _ ?m = Ret _ =>
      let E := fresh "E" in destruct m as [?| | |] eqn:E; try done; cbn [mbind outcome_bind] in H
  | outcome_bind _ _ _ ?m = Ret _ =>
      let E := fresh "E" in destruct m as [?| | |] eqn:E; try done; cbn [mbind outcome_bind] in H
  | (match ?p with (x, y) => _ end) = Ret _ => is_var p; destruct p; cbn [mbind outcome_bind] in H
  end.

(** ** Machine-integer lemmas *)

Lemma uwrap_range w z : (0 ≤ w)%Z → (0 ≤ uwrap w z < 2 ^ w)%Z.
Proof. intros. unfold uwrap. apply Z.mod_pos_bound. lia. Qed.

Lemma uwrap_small w z : (0 ≤ z < 2 ^ w)%Z → uwrap w z = z.
Proof. intros. unfold uwrap. by apply Z.mod_small. Qed.

Lemma uwrap_idemp w z : uwrap w (uwrap w z) = uwrap w z.
Proof. unfold uwrap. apply Z.mod_mod_divide. apply Z.divide_refl. Qed.

Lemma swrap_range w z : (0 < w)%Z → (- 2 ^ (w - 1) ≤ swrap w z < 2 ^ (w - 1))%Z.
Proof.
  intros Hw. pose proof (uwrap_range w z ltac:(lia)) as Hr. unfold swrap; cbv zeta.
  assert (2 ^ w = 2 * 2 ^ (w - 1))%Z.
  { rewrite <- Z.pow_succ_r by lia. f_equal; lia. }
  destruct (Z.ltb_spec (uwrap w z) (2 ^ (w - 1))); lia.
Qed.

Lemma uwrap_swrap w z : uwrap w (swrap w z) = uwrap w z.
Proof.
  unfold swrap; cbv zeta. destruct (_ <? _)%Z.
  - apply uwrap_idemp.
  - rewrite <- (uwrap_idemp w z) at 2. generalize (uwrap w z); intros u. unfold uwrap.
    replace (u - 2 ^ w)%Z with (u + (-1) * 2 ^ w)%Z by lia. apply Z_mod_plus_full.
Qed.

Lemma swrap_small w z :
  (0 < w)%Z → (- 2 ^ (w - 1) ≤ z < 2 ^ (w - 1))%Z → swrap w z = z.
Proof.
  intros Hw Hz.
  assert (Hp : (2 ^ w = 2 * 2 ^ (w - 1))%Z).
  { rewrite <- Z.pow_succ_r by lia. f_equal; lia. }
  unfold swrap; cbv zeta. unfold uwrap.
  destruct (Z_lt_ge_dec z 0).
  - replace (z mod 2 ^ w)%Z with (z + 2 ^ w)%Z.
    + destruct (Z.ltb_spec (z + 2 ^ w) (2 ^ (w - 1))); lia.
    + symmetry. rewrite <- (Z_mod_plus_full z 1 (2 ^ w)).
      rewrite Z.mul_1_l. apply Z.mod_small. lia.
  - rewrite Z.mod_small by lia.
    destruct (Z.ltb_spec z (2 ^ (w - 1))); lia.
Qed.

(** ** List lemmas *)

Lemma Forall_filter_keep {A} (P Q : A → Prop) `{∀ x, Decision (Q x)} l :
  Forall P l → Forall P (filter Q l).
Proof.
  rewrite !list.Forall_forall. intros H' x Hx. apply H'.
  by apply list_elem_of_filter in Hx as [_ ?].
Qed.

#[export] Hint Resolve uwrap_range swrap_range : dgo.
Create Rewrite HintDb dgo.
#[export] Hint Rewrite uwrap_idemp uwrap_swrap : dgo.

(** Membership in a closed list. *)
Ltac elem_dec := match goal with |- ?P => apply (bool_decide_unpack P); vm_compute; exact I end.
