(* ===== verification/Util.v ===== *)
(** * String utilities ([src/src/util/util.h], [src/src/util/util.cc])

    [std::string] is Rocq's [string]; a position that [find] reports as [npos]
    is [None].  A loop that the source writes with [while] runs on fuel and
    returns [None] ([NoFuel] where it can also throw) when the fuel is spent;
    the theorems give the fuel that is always enough, and say where no fuel is.

    Module [Chars] has the [<cctype>] classes of the "C" locale, [Strings] the
    string functions, [Numbers] the number conversions, [Escapes] the escape
    sequences with the two [utf8proc] calls they make, [Paths] the path
    functions and [Identifiers] [toIdentifier]. *)

From S2P Require Import Prelude.

(** ** [<cctype>] and [std::string] primitives *)

Module Chars.

(** The unsigned code of a byte, and its value as a (signed) [char]. *)
Definition code (c : ascii) : Z := Z.of_nat (nat_of_ascii c).
Definition schar (c : ascii) : Z := if (code c <? 128)%Z then code c else (code c - 256)%Z.
Definition chr (z : Z) : ascii := ascii_of_nat (Z.to_nat (z mod 256)).

Definition between (lo hi : Z) (c : ascii) : bool := ((lo <=? code c) && (code c <=? hi))%Z%bool.
Definition isdigit (c : ascii) : bool := between 48 57 c.
Definition isupper (c : ascii) : bool := between 65 90 c.
Definition islower (c : ascii) : bool := between 97 122 c.
Definition isalnum (c : ascii) : bool := isdigit c || isupper c || islower c.
Definition isspace (c : ascii) : bool := between 9 13 c || between 32 32 c.
Definition isprint (c : ascii) : bool := between 32 126 c.
Definition tolower (c : ascii) : ascii := if isupper c then chr (code c + 32) else c.
Definition toupper (c : ascii) : ascii := if islower c then chr (code c - 32) else c.

End Chars.
Import Chars.

Module Strings.

Fixpoint str_take (n : nat) (s : string) : string :=
  match n, s with
  | S n, String c s => String c (str_take n s)
  | _, _ => EmptyString
  end.

Fixpoint str_drop (n : nat) (s : string) : string :=
  match n, s with
  | S n, String _ s => str_drop n s
  | _, _ => s
  end.

Fixpoint str_map (f : ascii → ascii) (s : string) : string :=
  match s with
  | EmptyString => EmptyString
  | String c s => String (f c) (str_map f s)
  end.

Fixpoint str_forall (p : ascii → bool) (s : string) : bool :=
  match s with
  | EmptyString => true
  | String c s => p c && str_forall p s
  end.

(** [s.find(needle)]: the leftmost occurrence. *)
Fixpoint str_find (needle s : string) : option nat :=
  if String.prefix needle s then Some 0 else
  match s with
  | EmptyString => None
  | String _ s => S <$> str_find needle s
  end.

(** [s.rfind(needle)]: the rightmost occurrence. *)
Fixpoint str_rfind (needle s : string) : option nat :=
  match s with
  | EmptyString => if String.prefix needle s then Some 0 else None
  | String _ s' =>
      match str_rfind needle s' with
      | Some i => Some (S i)
      | None => if String.prefix needle s then Some 0 else None
      end
  end.

(** [strsplit]: the [while (true)] loop, one unit of fuel per iteration. *)
Fixpoint strsplit_loop (fuel : nat) (s delim : string) : option (list string) :=
  match fuel with
  | O => None
  | S fuel =>
      match str_find delim s with
      | None => Some [s]
      | Some p =>
          l ← strsplit_loop fuel (str_drop (p + String.length delim) s) delim;
          Some (str_take p s :: l)
      end
  end.
Definition strsplit (s delim : string) : option (list string) :=
  strsplit_loop (S (String.length s)) s delim.

(** [strjoin], over a list, a set or a pair of iterators: the three overloads
    have the same loop over the elements in order. *)
Fixpoint strjoin_loop (first : bool) (l : list string) (delim result : string) : string :=
  match l with
  | [] => result
  | x :: l =>
      let result := if first then result else (result +:+ delim)%string in
      strjoin_loop false l delim (result +:+ x)
  end.
Definition strjoin (l : list string) (delim : string) : string :=
  strjoin_loop true l delim "".

(** [strreplace]: replaces the leftmost occurrence until there is none. *)
Fixpoint strreplace_loop (fuel : nat) (r o n : string) : option string :=
  match fuel with
  | O => None
  | S fuel =>
      match str_find o r with
      | None => Some r
      | Some i =>
          strreplace_loop fuel
            (str_take i r +:+ n +:+ str_drop (i + String.length o) r)%string o n
      end
  end.

Definition strtolower (s : string) : string := str_map tolower s.
Definition strtoupper (s : string) : string := str_map toupper s.

(** [strtrim]: erases up to the first non-space, then after the last one. *)
Fixpoint drop_spaces (s : string) : string :=
  match s with
  | EmptyString => EmptyString
  | String c s' => if isspace c then drop_spaces s' else s
  end.
Fixpoint drop_trailing_spaces (s : string) : string :=
  match s with
  | EmptyString => EmptyString
  | String c s' =>
      match drop_trailing_spaces s' with
      | EmptyString => if isspace c then EmptyString else String c EmptyString
      | t => String c t
      end
  end.
Definition strtrim (s : string) : string := drop_trailing_spaces (drop_spaces s).

Definition startsWith (s prefix : string) : bool :=
  bool_decide (str_find prefix s = Some 0).

Definition endsWith (s suffix : string) : bool :=
  match str_rfind suffix s with
  | None => false
  | Some i => i =? (String.length s - String.length suffix)
  end.

(** [zip2]. *)
Fixpoint zip2 {A B} (lhs : list A) (rhs : list B) : list (A * B) :=
  match lhs, rhs with
  | a :: lhs, b :: rhs => (a, b) :: zip2 lhs rhs
  | _, _ => []
  end.

End Strings.
Import Strings.

Module Numbers.

(** [hash]: [h = (h << 5) - h + ( uint64_t )*data++] on 64 bits; [*data] is a
    [char], so a byte above 127 is sign-extended. *)
Fixpoint hash_loop (s : string) (h : Z) : Z :=
  match s with
  | EmptyString => h
  | String c s => hash_loop s (uwrap 64 (uwrap 64 (Z.shiftl h 5) - h + uwrap 64 (schar c)))
  end.
Definition hash (s : string) : Z := hash_loop s 0.

Definition dig : string :=
  "0123456789abcdefghijklmnopqrstuvwxyzABCDEFGHIJKLMNOPQRSTUVWXYZ".
Definition digit_char (d : Z) : ascii :=
  default "000"%char (String.get (Z.to_nat d) dig).

(** [uitoa_n]: the [do ... while] loop; [s.size() < n - 1] compares a [size_t]
    with an [int] converted to 64 unsigned bits. *)
Fixpoint uitoa_loop (fuel : nat) (value base n : Z) (s : string) : option string :=
  match fuel with
  | O => None
  | S fuel =>
      let s := (s +:+ String (digit_char (value mod base)) "")%string in
      let value := (value / base)%Z in
      if (negb (value =? 0) &&
          ((n <? 0) || (Z.of_nat (String.length s) <? uwrap 64 (n - 1))))%Z%bool
      then uitoa_loop fuel value base n s
      else Some s
  end.
Definition uitoa_n (fuel : nat) (value base n : Z) : outcome string :=
  if (Z.of_nat (String.length dig) <? base)%Z
  then Abort "assert(base <= strlen(dig))"
  else if (base <=? 0)%Z then Abort "value % base"
  else match uitoa_loop fuel value base n "" with Some s => Ret s | None => NoFuel end.

(** [atoi_n<T>]: [k] is the distance [e - s]; [wrap] is the conversion to [T].
    Reading at the end of the string yields its terminating NUL.  Returns the
    value and the distance left to [e]. *)
Definition atoi_digit (base : Z) (c : ascii) : option Z :=
  if isdigit c then Some (schar c - 48)%Z
  else if ((97 <=? schar c) && (schar c <? 97 - 10 + base))%Z%bool
  then Some (schar c - 97 + 10)%Z
  else if ((65 <=? schar c) && (schar c <? 65 - 10 + base))%Z%bool
  then Some (schar c - 65 + 10)%Z
  else None.

Definition head_char (s : string) : ascii :=
  match s with EmptyString => "000"%char | String c _ => c end.

Fixpoint atoi_loop (wrap : Z → Z) (base : Z) (k : nat) (s : string) (n : Z) (first : bool)
    : outcome (Z * nat * string) :=
  match k with
  | O => Ret (n, O, s)
  | S k' =>
      match atoi_digit base (head_char s) with
      | Some d => atoi_loop wrap base k' (str_drop 1 s) (wrap (n * base + d)%Z) false
      | None =>
          if first then Throw (StdRuntimeError "cannot decode number")
          else Ret (n, k, s)
      end
  end.
Definition atoi_n (wrap : Z → Z) (base : Z) (k : nat) (s : string)
    : outcome (Z * nat * string) :=
  if ((0 <? k) && Ascii.eqb (head_char s) "-")%bool then
    '(n, r, s) ← atoi_loop wrap base (k - 1) (str_drop 1 s) 0 true;
    Ret (wrap (- n)%Z, r, s)
  else atoi_loop wrap base k s 0 true.

End Numbers.
Import Numbers.

Module Escapes.

(** [fmt("%0<w>x", z)]: at least [w] lower-case hexadecimal digits. *)
Definition hex_char (d : Z) : ascii :=
  default "000"%char (String.get (Z.to_nat d) "0123456789abcdef").
Fixpoint hex_digits (n : nat) (z : Z) : string :=
  match n with
  | O => ""
  | S n => (hex_digits n (z / 16) +:+ String (hex_char (z mod 16)) "")%string
  end.

(** [utf8proc_encode_char]: the bytes written; none is the length 0. *)
Definition utf8proc_encode_char (uc : Z) : string :=
  if (uc <? 0)%Z then ""
  else if (uc <? 0x80)%Z then String (chr uc) ""
  else if (uc <? 0x800)%Z then
    String (chr (0xC0 + Z.shiftr uc 6)) (String (chr (0x80 + Z.land uc 0x3F)) "")
  else if (uc =? 0xFFFF)%Z then String (chr 0xFF) ""
  else if (uc =? 0xFFFE)%Z then String (chr 0xFE) ""
  else if (uc <? 0x10000)%Z then
    String (chr (0xE0 + Z.shiftr uc 12)) (String (chr (0x80 + Z.land (Z.shiftr uc 6) 0x3F))
      (String (chr (0x80 + Z.land uc 0x3F)) ""))
  else if (uc <? 0x110000)%Z then
    String (chr (0xF0 + Z.shiftr uc 18)) (String (chr (0x80 + Z.land (Z.shiftr uc 12) 0x3F))
      (String (chr (0x80 + Z.land (Z.shiftr uc 6) 0x3F))
        (String (chr (0x80 + Z.land uc 0x3F)) "")))
  else "".

(** The table [utf8proc_utf8class]. *)
Definition utf8proc_utf8class (b : Z) : Z :=
  if (b <? 128)%Z then 1 else if (b <? 192)%Z then 0 else if (b <? 224)%Z then 2
  else if (b <? 240)%Z then 3 else if (b <? 248)%Z then 4 else 0.

(** [utf8proc_iterate(str, strlen, &cp)]: [Some (length, cp)], or [None] for
    [UTF8PROC_ERROR_INVALIDUTF8]; only called with [strlen > 0]. *)
Definition utf8proc_iterate (s : string) : option (nat * Z) :=
  let at_ (i : nat) := code (default "000"%char (String.get i s)) in
  let b0 := at_ 0%nat in let b1 := at_ 1%nat in let b2 := at_ 2%nat in let b3 := at_ 3%nat in
  let length := Z.to_nat (utf8proc_utf8class b0) in
  let cont i := (Z.land (at_ i) 0xC0 =? 0x80)%Z in
  if length =? 0 then None
  else if String.length s <? length then None
  else if negb (forallb cont (seq 1 (length - 1))) then None
  else
    let uc :=
      match length with
      | 1 => b0
      | 2 =>
          let uc := (Z.shiftl (Z.land b0 0x1F) 6 + Z.land b1 0x3F)%Z in
          if (uc <? 0x80)%Z then (-1)%Z else uc
      | 3 =>
          let uc := (Z.shiftl (Z.land b0 0x0F) 12 + Z.shiftl (Z.land b1 0x3F) 6
                     + Z.land b2 0x3F)%Z in
          if ((uc <? 0x800) || ((0xD800 <=? uc) && (uc <? 0xE000))
              || ((0xFDD0 <=? uc) && (uc <? 0xFDF0)))%Z%bool then (-1)%Z else uc
      | _ =>
          let uc := (Z.shiftl (Z.land b0 0x07) 18 + Z.shiftl (Z.land b1 0x3F) 12
                     + Z.shiftl (Z.land b2 0x3F) 6 + Z.land b3 0x3F)%Z in
          if ((uc <? 0x10000) || (0x110000 <=? uc))%Z%bool then (-1)%Z else uc
      end in
    if ((uc <? 0) || (0xFFFE <=? Z.land uc 0xFFFF))%Z%bool then None else Some (length, uc).

(** The [\x], [\u] and [\U] cases of [expandEscapes]: decode [k] hexadecimal
    digits with [atoi_n], then turn the value into bytes with [enc], which
    fails on the length 0. *)
Definition expand_hex (wrap : Z → Z) (k : nat) (enc : Z → string) (s : string)
    : outcome (string * string) :=
  '(val, gap, s) ← atoi_n wrap 16 k s;
  if negb (gap =? 0) then Throw (StdRuntimeError "cannot decode character")
  else match enc val with
       | EmptyString => Throw (StdRuntimeError "cannot encode unicode code point")
       | d => Ret (d, s)
       end.

(** One escape sequence, after its backslash: the bytes and the rest. *)
Definition expand_one (s : string) : outcome (string * string) :=
  match s with
  | EmptyString => Throw (StdRuntimeError "broken escape sequence")
  | String c s =>
      if Ascii.eqb c "\" then Ret ("\"%string, s)
      else if Ascii.eqb c "034" then Ret (String "034" "", s)
      else if Ascii.eqb c "n" then Ret (String "010" "", s)
      else if Ascii.eqb c "r" then Ret (String "013" "", s)
      else if Ascii.eqb c "t" then Ret (String "009" "", s)
      else if Ascii.eqb c "u" then expand_hex (swrap 32) 4 utf8proc_encode_char s
      else if Ascii.eqb c "U" then expand_hex (swrap 32) 8 utf8proc_encode_char s
      else if Ascii.eqb c "x" then expand_hex (swrap 8) 2 (λ v, String (chr v) "") s
      else Throw (StdRuntimeError "unknown escape sequence")
  end.

Fixpoint expand_loop (fuel : nat) (s d : string) : outcome string :=
  match fuel with
  | O => NoFuel
  | S fuel =>
      match s with
      | EmptyString => Ret d
      | String c s =>
          if negb (Ascii.eqb c "\") then expand_loop fuel s (d +:+ String c "")
          else
            '(e, s) ← expand_one s;
            expand_loop fuel s (d +:+ e)
      end
  end.
Definition expandEscapes (s : string) : outcome string :=
  expand_loop (S (String.length s)) s "".

(** One iteration of [escapeUTF8], on the code point [cp]. *)
Definition escape_cp (cp : Z) : string :=
  if (cp =? 92)%Z then "\\"
  else if (cp =? 34)%Z then String "\" (String "034" "")
  else if (cp =? 10)%Z then "\n"
  else if (cp =? 13)%Z then "\r"
  else if (cp =? 9)%Z then "\t"
  else if (65536 <=? cp)%Z then "\U" +:+ hex_digits 8 cp
  else if negb (isprint (chr cp)) then "\u" +:+ hex_digits 4 cp
  else String (chr cp) "".

Fixpoint escapeUTF8_loop (fuel : nat) (s esc : string) : option string :=
  match fuel with
  | O => None
  | S fuel =>
      match s with
      | EmptyString => Some esc
      | _ =>
          match utf8proc_iterate s with
          | None => Some (esc +:+ "<illegal UTF8 sequence>")%string
          | Some (n, cp) => escapeUTF8_loop fuel (str_drop n s) (esc +:+ escape_cp cp)
          end
      end
  end.
Definition escapeUTF8 (s : string) : option string :=
  escapeUTF8_loop (S (String.length s)) s "".

(** One iteration of [escapeBytes]. *)
Definition escape_byte (p : ascii) : string :=
  if Ascii.eqb p "\" then "\\"
  else if Ascii.eqb p "034" then String "\" (String "034" "")
  else if Ascii.eqb p "010" then "\n"
  else if Ascii.eqb p "013" then "\r"
  else if Ascii.eqb p "009" then "\t"
  else if isprint p then String p ""
  else "\x" +:+ hex_digits 2 (code p).
Fixpoint escapeBytes (s : string) : string :=
  match s with
  | EmptyString => ""
  | String c s => escape_byte c +:+ escapeBytes s
  end.

End Escapes.
Import Escapes.

Module Paths.

(** [while (endsWith(p, "/")) p = p.substr(0, p.size() - 1)]. *)
Fixpoint strip_slashes (fuel : nat) (p : string) : string :=
  match fuel with
  | O => p
  | S fuel =>
      if endsWith p "/" then strip_slashes fuel (str_take (String.length p - 1) p) else p
  end.

Definition pathJoin (p1 p2 : string) : string :=
  if startsWith p2 "/" then p2
  else (strip_slashes (S (String.length p1)) p1 +:+ "/" +:+ p2)%string.

Definition dirname (path : string) : string :=
  match str_rfind "/" path with
  | None => ""
  | Some i =>
      let dir := str_take i path in
      strip_slashes (S (String.length path)) path
  end.

Definition basename (path : string) : string :=
  match str_rfind "/" path with
  | None => path
  | Some i => str_drop (i + 1) path
  end.

(** [findInPaths]; [pathIsFile] is the [stat] of the file system. *)
Definition findInPaths (pathIsFile : string → bool) (file : string) (paths : list string)
    : string :=
  if startsWith file "/" then (if pathIsFile file then file else "")
  else default "" (list_find (λ p, pathIsFile p) (map (λ d, pathJoin d file) paths) ≫= λ x, Some x.2).

End Paths.
Import Paths.

Module Identifiers.

(** The chain of [strreplace] calls of [toIdentifier], in order. *)
Definition id_replacements : list (string * string) :=
  [ ("::", "_"); ("<", "_"); (">", "_"); (",", "_"); (".", "_"); (" ", "_");
    ("-", "_"); ("'", "_"); (String "034" "", "_"); ("__", "_") ].

(** Enough fuel for each replacement: see [strreplace_terminates]. *)
Definition replace_all (r : string) (on : string * string) : option string :=
  strreplace_loop (S (String.length r)) r on.1 on.2.

Fixpoint strip_underscores (fuel : nat) (p : string) : string :=
  match fuel with
  | O => p
  | S fuel =>
      if endsWith p "_" then strip_underscores fuel (str_take (String.length p - 1) p) else p
  end.

(** The loop that spells the remaining characters; [hex[c >> 4]] with a
    negative [char] reads outside the table. *)
Fixpoint spell (s : string) : outcome string :=
  match s with
  | EmptyString => Ret ""
  | String c s =>
      if (isalnum c || Ascii.eqb c "_")%bool then r ← spell s; Ret (String c r)
      else if (schar c <? 0)%Z then Abort "hex[c >> 4]"
      else
        r ← spell s;
        Ret (String "x" (String (hex_char (Z.shiftr (code c) 4))
               (String (hex_char (code c mod 15)) r)))
  end.

Definition toIdentifier (s : string) (ensure_non_keyword : bool) : outcome string :=
  if String.eqb s "" then Ret s else
  match foldl (λ r on, r ≫= λ r, replace_all r on) (Some s) id_replacements with
  | None => NoFuel
  | Some normalized =>
      ns ← spell (strip_underscores (S (String.length normalized)) normalized);
      match replace_all ns ("__", "_") with
      | None => NoFuel
      | Some ns =>
          let ns := if isdigit (head_char ns) then ("_" +:+ ns)%string else ns in
          Ret (if ensure_non_keyword then (ns +:+ "_")%string else ns)
      end
  end.

End Identifiers.
Import Identifiers.

(** ** Lemmas on the string primitives *)

Module StringLemmas.

Lemma append_nil_r s : (s +:+ "")%string = s.
Proof. induction s as [|c s IH]; [done|]. change (String c (s +:+ "") = String c s). by rewrite IH. Qed.

Lemma append_assoc s t u : ((s +:+ t) +:+ u)%string = (s +:+ (t +:+ u))%string.
Proof. induction s as [|c s IH]; [done|]. change (String c ((s +:+ t) +:+ u) = String c (s +:+ (t +:+ u))). by rewrite IH. Qed.

Lemma append_cons c s t : (String c s +:+ t)%string = String c (s +:+ t).
Proof. done. Qed.

Lemma length_append s t : String.length (s +:+ t) = String.length s + String.length t.
Proof. induction s as [|c s IH]; [done|]. rewrite append_cons. simpl. by rewrite IH. Qed.

Lemma length_nil s : String.length s = 0 ↔ s = "".
Proof. by destruct s. Qed.

Lemma take_drop n s : (str_take n s +:+ str_drop n s)%string = s.
Proof.
  revert n; induction s as [|c s IH]; intros [|n]; simpl; try done.
  rewrite append_cons. by rewrite IH.
Qed.

Lemma length_take n s : n ≤ String.length s → String.length (str_take n s) = n.
Proof. revert n; induction s as [|c s IH]; intros [|n] H; simpl in *; try lia. rewrite IH; lia. Qed.

Lemma length_drop n s : String.length (str_drop n s) = String.length s - n.
Proof. revert n; induction s as [|c s IH]; intros [|n]; simpl; try lia. by rewrite IH. Qed.

Lemma drop_add n m s : str_drop (n + m) s = str_drop m (str_drop n s).
Proof. revert n; induction s as [|c s IH]; intros [|n]; simpl; try done. by destruct m. Qed.

Lemma drop_app_length s t : str_drop (String.length s) (s +:+ t) = t.
Proof. by induction s. Qed.

Lemma take_app_length s t : str_take (String.length s) (s +:+ t) = s.
Proof. induction s as [|c s IH]; [by destruct t|]. rewrite append_cons. simpl. by rewrite IH. Qed.

Lemma prefix_cons a b p s :
  String.prefix (String a p) (String b s) = if ascii_dec a b then String.prefix p s else false.
Proof. done. Qed.

Lemma prefix_spec p s : String.prefix p s = true ↔ ∃ t, s = (p +:+ t)%string.
Proof.
  revert s; induction p as [|a p IH]; intros s; simpl.
  { split; [by exists s | intros _; by destruct s]. }
  destruct s as [|b s]; [split; [done | intros [t Ht]; done]|].
  rewrite prefix_cons. destruct (ascii_dec a b) as [->|Hne].
  - rewrite IH. split; intros [t Ht].
    + exists t. rewrite append_cons. by rewrite Ht.
    + exists t. rewrite append_cons in Ht. by simplify_eq.
  - split; [done|]. intros [t Ht]. rewrite append_cons in Ht. by simplify_eq.
Qed.

Lemma prefix_app p t : String.prefix p (p +:+ t) = true.
Proof. apply prefix_spec. eauto. Qed.

Lemma prefix_take p s : String.prefix p s = true → str_take (String.length p) s = p.
Proof. intros [t ->]%prefix_spec. apply take_app_length. Qed.

Lemma find_Some p s i :
  str_find p s = Some i →
  i + String.length p ≤ String.length s ∧
  s = (str_take i s +:+ p +:+ str_drop (i + String.length p) s)%string.
Proof.
  revert i; induction s as [|c s IH]; intros i; cbn [str_find].
  - destruct (String.prefix p "") eqn:Hp; [|done]. intros [= <-].
    apply prefix_spec in Hp as [t Ht]. destruct p; [|done]. done.
  - destruct (String.prefix p (String c s)) eqn:Hp.
    + intros [= <-]. apply prefix_spec in Hp as [t Ht]. rewrite Ht, length_append.
      split; [simpl; lia|]. simpl. by rewrite drop_app_length.
    + destruct (str_find p s) as [j|] eqn:Hf; [|done]. intros [= <-].
      destruct (IH j eq_refl) as [Hl Hs]. simpl. split; [lia|].
      rewrite append_cons. by rewrite <- Hs.
Qed.

Lemma find_None_drop p s n : str_find p s = None → str_find p (str_drop n s) = None.
Proof.
  revert n; induction s as [|c s IH]; intros [|n] H; try done.
  cbn [str_drop]. apply IH. cbn [str_find] in H. destruct (String.prefix _ _); [done|].
  by destruct (str_find p s).
Qed.

Lemma find_None_iff p s :
  str_find p s = None ↔ ∀ a b, s ≠ (a +:+ p +:+ b)%string.
Proof.
  split.
  - revert s. intros s H a b ->. apply (find_None_drop _ _ (String.length a)) in H.
    rewrite drop_app_length in H. destruct (p +:+ b)%string as [|c t] eqn:E; cbn [str_find] in H;
      rewrite <- E, prefix_app in H; done.
  - intros H. destruct (str_find p s) as [i|] eqn:Hf; [|done].
    apply find_Some in Hf as [_ Hs]. by apply H in Hs.
Qed.

(** No occurrence of the needle starts before the position [find] reports. *)
Lemma find_leftmost p s i :
  str_find p s = Some i →
  ∀ a b, s = (a +:+ p +:+ b)%string → i ≤ String.length a.
Proof.
  revert i; induction s as [|c s IH]; intros i Hf a b Hs; cbn [str_find] in Hf.
  - destruct (String.prefix _ _); simplify_eq. lia.
  - destruct (String.prefix p (String c s)) eqn:Hp; [simplify_eq; lia|].
    destruct (str_find p s) as [j|] eqn:Hj; [|done]. injection Hf as <-.
    destruct a as [|d a].
    + rewrite Hs in Hp. change ("" +:+ p +:+ b)%string with (p +:+ b)%string in Hp.
      by rewrite prefix_app in Hp.
    + rewrite append_cons in Hs. injection Hs as <- Hs. pose proof (IH j eq_refl a b Hs). simpl. lia.
Qed.

Lemma find_take_None p s i :
  p ≠ "" → str_find p s = Some i → str_find p (str_take i s) = None.
Proof.
  intros Hp Hf. apply find_None_iff. intros a b Hs.
  pose proof (find_Some _ _ _ Hf) as [Hl Hdec].
  assert (i ≤ String.length a).
  { apply (find_leftmost p s i Hf a (b +:+ p +:+ str_drop (i + String.length p) s)%string).
    rewrite Hdec at 1. by rewrite Hs, !append_assoc. }
  apply (f_equal String.length) in Hs. rewrite !length_append, length_take in Hs by lia.
  destruct p; [done | simpl in *; lia].
Qed.

Lemma rfind_Some p s i :
  str_rfind p s = Some i →
  i + String.length p ≤ String.length s ∧
  s = (str_take i s +:+ p +:+ str_drop (i + String.length p) s)%string.
Proof.
  assert (H0 : ∀ s, String.prefix p s = true → 0 + String.length p ≤ String.length s ∧
    s = (str_take 0 s +:+ p +:+ str_drop (0 + String.length p) s)%string).
  { intros s' [t ->]%prefix_spec. rewrite length_append. split; [lia|].
    simpl. rewrite drop_app_length. by destruct (p +:+ t)%string. }
  revert i; induction s as [|c s IH]; intros i; cbn [str_rfind].
  - destruct (String.prefix p "") eqn:Hp; [|done]. intros [= <-]. by apply H0.
  - destruct (str_rfind p s) as [j|] eqn:Hf.
    + intros [= <-]. destruct (IH j eq_refl) as [Hl Hs]. simpl. split; [lia|].
      rewrite append_cons. by rewrite <- Hs.
    + destruct (String.prefix p (String c s)) eqn:Hp; [|done]. intros [= <-]. by apply H0.
Qed.

(** No occurrence of the needle starts after the position [rfind] reports. *)
Lemma rfind_rightmost p s a b :
  s = (a +:+ p +:+ b)%string → ∃ i, str_rfind p s = Some i ∧ String.length a ≤ i.
Proof.
  revert s; induction a as [|c a IH]; intros s ->.
  - change ("" +:+ p +:+ b)%string with (p +:+ b)%string.
    pose proof (prefix_app p b) as Hp.
    destruct (p +:+ b)%string as [|d t]; cbn [str_rfind].
    + rewrite Hp. exists 0. simpl. split; [done|lia].
    + destruct (str_rfind p t) as [i|]; [exists (S i)|rewrite Hp; exists 0]; simpl; split; done || lia.
  - rewrite append_cons. destruct (IH _ eq_refl) as (i & Hi & Hl). cbn [str_rfind].
    rewrite Hi. exists (S i). simpl. split; [done|lia].
Qed.

Lemma forall_app P s t : str_forall P (s +:+ t) = str_forall P s && str_forall P t.
Proof.
  induction s as [|c s IH]; [done|]. rewrite append_cons. simpl. by rewrite IH, andb_assoc.
Qed.

Lemma forall_take P n s : str_forall P s = true → str_forall P (str_take n s) = true.
Proof.
  intros H. rewrite <- (take_drop n s), forall_app in H. by apply andb_prop in H as [? _].
Qed.

Lemma forall_drop P n s : str_forall P s = true → str_forall P (str_drop n s) = true.
Proof.
  intros H. rewrite <- (take_drop n s), forall_app in H. by apply andb_prop in H as [_ ?].
Qed.

Lemma forall_impl (P Q : ascii → bool) s :
  (∀ c, P c = true → Q c = true) → str_forall P s = true → str_forall Q s = true.
Proof.
  intros HPQ. induction s as [|c s IH]; simpl; [done|].
  intros [? ?]%andb_prop. rewrite HPQ, IH by done. done.
Qed.

Lemma app_inj_length a b c d :
  String.length a = String.length c → (a +:+ b = c +:+ d)%string → a = c ∧ b = d.
Proof.
  revert c; induction a as [|x a IH]; intros [|y c]; simpl; try lia; try done.
  intros Hl. rewrite !append_cons. intros [= -> He]. apply IH in He as [-> ->]; [done|lia].
Qed.

End StringLemmas.
Import StringLemmas.

#[export] Hint Rewrite append_nil_r append_assoc length_append take_drop length_drop : dgo.
#[export] Hint Resolve forall_take forall_drop : dgo.

(** ** Splitting and joining *)

Module SplitJoin.

Lemma strjoin_loop_acc l d r : strjoin_loop false l d r = (r +:+ strjoin_loop false l d "")%string.
Proof.
  revert r; induction l as [|x l IH]; intros r; simpl; [by rewrite append_nil_r|].
  rewrite IH, (IH (("" +:+ d) +:+ x)%string).
  change ("" +:+ d)%string with d. by rewrite !append_assoc.
Qed.

Lemma strjoin_cons x y l d : strjoin (x :: y :: l) d = (x +:+ d +:+ strjoin (y :: l) d)%string.
Proof.
  unfold strjoin; simpl. rewrite strjoin_loop_acc, (strjoin_loop_acc l d (_ +:+ y)%string).
  change ("" +:+ x)%string with x. change ("" +:+ y)%string with y.
  by rewrite !append_assoc.
Qed.

Lemma strjoin_singleton x d : strjoin [x] d = x.
Proof. done. Qed.

Lemma strsplit_loop_ok fuel s d :
  d ≠ "" → String.length s < fuel →
  ∃ x l, strsplit_loop fuel s d = Some (x :: l) ∧ strjoin (x :: l) d = s ∧
         Forall (λ y, str_find d y = None) (x :: l).
Proof.
  intros Hd. revert s; induction fuel as [|fuel IH]; intros s Hf; [lia|].
  cbn [strsplit_loop]. destruct (str_find d s) as [p|] eqn:Hp.
  - pose proof (find_Some _ _ _ Hp) as [Hl Hs].
    assert (0 < String.length d) by (destruct d; [done | simpl; lia]).
    destruct (IH (str_drop (p + String.length d) s)) as (x & l & -> & Hj & Hfr).
    { rewrite length_drop. lia. }
    exists (str_take p s), (x :: l). split; [done|]. split.
    + rewrite strjoin_cons, Hj. by rewrite <- Hs.
    + constructor; [by apply find_take_None | done].
  - exists s, []. split; [done|]. split; [done|]. by constructor.
Qed.

(** A string whose characters all differ from the needle's first one does not contain it, and
    the leftmost occurrence in [x ++ needle ++ t] is the one after [x]. *)
Definition free_of (c : ascii) (s : string) : bool := str_forall (λ x, negb (Ascii.eqb x c)) s.

Lemma find_free c d x : free_of c x = true → str_find (String c d) x = None.
Proof.
  unfold free_of. induction x as [|a x IH]; cbn [str_find str_forall]; [done|].
  intros [Ha Hx]%andb_prop. rewrite prefix_cons, IH by done.
  destruct (ascii_dec c a) as [->|]; [|done]. by rewrite Ascii.eqb_refl in Ha.
Qed.

Lemma find_free_app c d x t :
  free_of c x = true →
  str_find (String c d) (x +:+ String c d +:+ t) = Some (String.length x).
Proof.
  unfold free_of. induction x as [|a x IH]; cbn [str_forall].
  - intros _. change ("" +:+ String c d +:+ t)%string with (String c d +:+ t)%string.
    pose proof (prefix_app (String c d) t) as H. rewrite append_cons in *. cbn [str_find].
    by rewrite H.
  - intros [Ha Hx]%andb_prop. rewrite append_cons. cbn [str_find]. rewrite prefix_cons, IH by done.
    destruct (ascii_dec c a) as [->|]; [|done]. by rewrite Ascii.eqb_refl in Ha.
Qed.

Lemma strsplit_loop_join fuel c d x l :
  Forall (λ y, free_of c y = true) (x :: l) →
  String.length (strjoin (x :: l) (String c d)) < fuel →
  strsplit_loop fuel (strjoin (x :: l) (String c d)) (String c d) = Some (x :: l).
Proof.
  revert x l; induction fuel as [|fuel IH]; intros x l Hfr Hlen; [lia|].
  apply Forall_cons_iff in Hfr as [Hx Hl]. cbn [strsplit_loop].
  destruct l as [|y l].
  - rewrite strjoin_singleton. by rewrite find_free.
  - rewrite strjoin_cons in *. rewrite !length_append in Hlen. rewrite find_free_app by done.
    rewrite drop_add, drop_app_length, drop_app_length, take_app_length, IH; [done..|].
    simpl in Hlen. lia.
Qed.

(** A delimiter that is found at 0 and has length 0 makes no progress. *)
Lemma strsplit_loop_empty fuel s : strsplit_loop fuel s "" = None.
Proof.
  induction fuel as [|fuel IH]; [done|]. cbn [strsplit_loop].
  assert (str_find "" s = Some 0) as -> by by destruct s.
  change (str_drop (0 + String.length "") s) with s. by rewrite IH.
Qed.

(** [strsplit] with a non-empty delimiter terminates; joining the pieces gives the string
    back and no piece contains the delimiter. *)
Theorem strsplit_strjoin s delim :
  delim ≠ "" →
  ∃ l, strsplit s delim = Some l ∧ l ≠ [] ∧ strjoin l delim = s ∧
       Forall (λ x, str_find delim x = None) l.
Proof.
  intros Hd. destruct (strsplit_loop_ok (S (String.length s)) s delim Hd) as (x & l & ? & ? & ?);
    [lia|]. by exists (x :: l).
Qed.

(** Conversely, splitting a joined list gives the list back, when no piece contains the
    delimiter's first character (as for identifier paths and [::]). *)
Theorem strjoin_strsplit c delim l :
  l ≠ [] → Forall (λ x, free_of c x = true) l →
  strsplit (strjoin l (String c delim)) (String c delim) = Some l.
Proof. destruct l as [|x l]; [done|]. intros _ Hf. apply strsplit_loop_join; [done|lia]. Qed.

End SplitJoin.
Import SplitJoin.

(** ** Replacing and identifiers *)

Module ReplaceLemmas.

(** [strreplace] terminates when a measure decreases at every replacement. *)
Lemma strreplace_measure (m : string → nat) o n fuel r :
  (∀ a b, m (a +:+ n +:+ b)%string < m (a +:+ o +:+ b)%string) → m r < fuel →
  ∃ r', strreplace_loop fuel r o n = Some r' ∧ str_find o r' = None ∧
        ∀ P, str_forall P n = true → str_forall P r = true → str_forall P r' = true.
Proof.
  intros Hm. revert r; induction fuel as [|fuel IH]; intros r Hf; [lia|].
  cbn [strreplace_loop]. destruct (str_find o r) as [i|] eqn:Hi; [|by exists r].
  apply find_Some in Hi as [_ Hr]. set (a := str_take i r) in *. set (b := str_drop _ r) in *.
  destruct (IH (a +:+ n +:+ b)%string) as (r' & -> & Hnone & HP).
  { pose proof (Hm a b). rewrite Hr in Hf. lia. }
  exists r'. repeat split; [done|]. intros P Hn Hr'. apply HP; [done|].
  rewrite Hr, !forall_app in Hr'. apply andb_prop in Hr' as [? [_ ?]%andb_prop].
  rewrite !forall_app. by rewrite H, Hn, H0.
Qed.

Fixpoint count_char (c : ascii) (s : string) : nat :=
  match s with
  | EmptyString => 0
  | String a s => (if Ascii.eqb a c then 1 else 0) + count_char c s
  end.

Lemma count_char_app c s t : count_char c (s +:+ t) = count_char c s + count_char c t.
Proof. induction s as [|a s IH]; [done|]. rewrite append_cons. simpl. rewrite IH. lia. Qed.

Lemma count_char_length c s : count_char c s ≤ String.length s.
Proof. induction s as [|a s IH]; simpl; [lia|]. destruct (Ascii.eqb a c); lia. Qed.

(** The replacements of [toIdentifier] shrink the string or remove one character. *)
Definition shrinks (on : string * string) : bool :=
  (String.length on.2 <? String.length on.1) ||
  match on.1 with String c EmptyString => count_char c on.2 =? 0 | _ => false end.

Lemma replace_all_ok r on :
  shrinks on = true →
  ∃ r', replace_all r on = Some r' ∧ str_find on.1 r' = None ∧
        ∀ P, str_forall P on.2 = true → str_forall P r = true → str_forall P r' = true.
Proof.
  destruct on as [o n]. unfold shrinks, replace_all; cbn [fst snd]. intros [Hl|Hc]%orb_prop.
  - apply Nat.ltb_lt in Hl. apply (strreplace_measure String.length); [|lia].
    intros a b. rewrite !length_append. lia.
  - destruct o as [|c [|]]; try done. apply Nat.eqb_eq in Hc.
    apply (strreplace_measure (count_char c)).
    + intros a b. rewrite !count_char_app. simpl. rewrite Ascii.eqb_refl. lia.
    + pose proof (count_char_length c r). lia.
Qed.

Lemma replacements_ok l r :
  forallb shrinks l = true →
  ∃ r', foldl (λ r on, r ≫= λ r, replace_all r on) (Some r) l = Some r' ∧
        ∀ P, forallb (λ on, str_forall P on.2) l = true →
             str_forall P r = true → str_forall P r' = true.
Proof.
  revert r; induction l as [|on l IH]; intros r; [by exists r|].
  cbn [forallb foldl]. intros [Hon Hl]%andb_prop.
  destruct (replace_all_ok r on Hon) as (r1 & E & _ & H1).
  change (Some r ≫= λ r, replace_all r on) with (replace_all r on). rewrite E.
  destruct (IH r1 Hl) as (r2 & -> & H2). exists r2. split; [done|].
  intros P [? ?]%andb_prop ?. auto.
Qed.

Definition ascii7 (c : ascii) : bool := (code c <? 128)%Z.
Definition id_char (c : ascii) : bool := isalnum c || Ascii.eqb c "_".

Lemma hex_char_id d : (0 ≤ d < 16)%Z → id_char (hex_char d) = true.
Proof.
  intros H.
  assert (∀ n, n < 16 → id_char (hex_char (Z.of_nat n)) = true) as Hn.
  { do 16 (intros [|n]; [reflexivity|]; revert n). intros n; lia. }
  rewrite <- (Z2Nat.id d) by lia. apply Hn. lia.
Qed.

Lemma spell_ok s :
  str_forall ascii7 s = true → ∃ r, spell s = Ret r ∧ str_forall id_char r = true.
Proof.
  induction s as [|c s IH]; [by exists EmptyString|]. cbn [str_forall spell].
  intros [Hc Hs]%andb_prop. destruct (IH Hs) as (r & -> & Hr). cbn [mbind outcome_bind].
  fold (id_char c). destruct (id_char c) eqn:Hid.
  { exists (String c r). split; [done|]. simpl. by rewrite Hid. }
  unfold ascii7 in Hc. unfold schar. rewrite Hc. apply Z.ltb_lt in Hc.
  assert (0 ≤ code c)%Z by (unfold code; lia).
  replace (code c <? 0)%Z with false by (symmetry; apply Z.ltb_ge; lia).
  eexists. split; [done|]. cbn [str_forall].
  rewrite Z.shiftr_div_pow2 by lia.
  rewrite !hex_char_id, Hr; [done| |].
  - pose proof (Z.mod_pos_bound (code c) 15). lia.
  - split; [apply Z.div_pos; lia | apply Z.div_lt_upper_bound; lia].
Qed.

Lemma strip_underscores_forall P fuel s :
  str_forall P s = true → str_forall P (strip_underscores fuel s) = true.
Proof.
  revert s; induction fuel as [|fuel IH]; intros s H; [done|].
  cbn [strip_underscores]. case_bool; auto with dgo.
Qed.

End ReplaceLemmas.
Import ReplaceLemmas.

(** [toIdentifier] terminates on every string of 7-bit characters and returns a C
    identifier: letters, digits and underscores, not starting with a digit. *)
Theorem toIdentifier_valid s kw :
  str_forall ascii7 s = true →
  ∃ r, toIdentifier s kw = Ret r ∧ str_forall id_char r = true ∧ isdigit (head_char r) = false.
Proof.
  intros Hs. unfold toIdentifier. destruct (String.eqb s "") eqn:He.
  { apply String.eqb_eq in He as ->. by exists EmptyString. }
  destruct (replacements_ok id_replacements s eq_refl) as (n & -> & Hn).
  destruct (spell_ok (strip_underscores (S (String.length n)) n)) as (r & -> & Hr).
  { apply strip_underscores_forall, (Hn ascii7); [reflexivity|done]. }
  cbn [mbind outcome_bind].
  destruct (replace_all_ok r ("__", "_") eq_refl) as (r' & -> & _ & Hr').
  specialize (Hr' id_char eq_refl Hr).
  set (r2 := if isdigit (head_char r') then ("_" +:+ r')%string else r').
  assert (str_forall id_char r2 = true ∧ isdigit (head_char r2) = false) as [H1 H2].
  { subst r2. destruct (isdigit (head_char r')) eqn:Hd; [|done]. by rewrite forall_app, Hr'. }
  destruct kw; eexists; (split; [done|]); [|done].
  rewrite forall_app, H1. split; [done|]. by destruct r2.
Qed.

(** ** Escape sequences *)

Module EscapeLemmas.

Lemma expand_escape_byte fuel c rest d :
  expand_loop (S fuel) (escape_byte c +:+ rest) d = expand_loop fuel rest (d +:+ String c "").
Proof. destruct c as [[] [] [] [] [] [] [] []]; reflexivity. Qed.

Lemma length_escape_byte c : 1 ≤ String.length (escape_byte c).
Proof. destruct c as [[] [] [] [] [] [] [] []]; vm_compute; lia. Qed.

Lemma length_escapeBytes s : String.length s ≤ String.length (escapeBytes s).
Proof.
  induction s as [|c s IH]; simpl; [lia|]. rewrite length_append.
  pose proof (length_escape_byte c). lia.
Qed.

Lemma expand_escapeBytes fuel s d :
  String.length s < fuel → expand_loop fuel (escapeBytes s) d = Ret (d +:+ s)%string.
Proof.
  revert s d; induction fuel as [|fuel IH]; intros s d Hf; [lia|].
  destruct s as [|c s]; [by simpl; rewrite append_nil_r|].
  cbn [escapeBytes]. rewrite expand_escape_byte, IH by (simpl in Hf; lia).
  by rewrite append_assoc.
Qed.

End EscapeLemmas.
Import EscapeLemmas.

(** Every byte string escaped by [escapeBytes] is restored by [expandEscapes], as the
    header promises. *)
Theorem expandEscapes_escapeBytes s : expandEscapes (escapeBytes s) = Ret s.
Proof.
  unfold expandEscapes. rewrite expand_escapeBytes; [done|].
  pose proof (length_escapeBytes s). lia.
Qed.

(** [escapeUTF8] does not keep that promise: U+0141 (bytes C5 81) is truncated to a
    printable [char], "A", before it is tested, so it is not restored. *)
Theorem escapeUTF8_not_revertible :
  ∃ s, escapeUTF8 s = Some "A"%string ∧ expandEscapes "A" = Ret "A"%string ∧ s ≠ "A"%string.
Proof. by exists (String (chr 0xC5) (String (chr 0x81) "")). Qed.

(** ** Hashing and number formatting *)

Module NumberLemmas.

(** The polynomial [hash] computes, without wrap-around. *)
Fixpoint horner (s : string) (h : Z) : Z :=
  match s with
  | EmptyString => h
  | String c s => horner s (31 * h + schar c)%Z
  end.

Lemma horner_wrap s h h' :
  uwrap 64 h = uwrap 64 h' → uwrap 64 (horner s h) = uwrap 64 (horner s h').
Proof.
  revert h h'; induction s as [|c s IH]; intros h h' E; [done|]. apply IH.
  unfold uwrap in *. rewrite Z.add_mod, Z.mul_mod, E by lia.
  by rewrite <- Z.mul_mod, <- Z.add_mod by lia.
Qed.

Lemma hash_step h c :
  uwrap 64 (uwrap 64 (Z.shiftl h 5) - h + uwrap 64 (schar c)) = uwrap 64 (31 * h + schar c).
Proof.
  unfold uwrap. rewrite Z.shiftl_mul_pow2 by lia.
  rewrite Z.add_mod, Zminus_mod, !Z.mod_mod by lia.
  rewrite <- Zminus_mod, <- Z.add_mod by lia. f_equal. lia.
Qed.

Lemma hash_loop_horner s h :
  uwrap 64 h = h → hash_loop s h = uwrap 64 (horner s h).
Proof.
  revert h; induction s as [|c s IH]; intros h Hh; [done|].
  cbn [hash_loop horner]. rewrite hash_step, IH by apply uwrap_idemp.
  apply horner_wrap, uwrap_idemp.
Qed.

(** The number a little-endian digit string stands for. *)
Fixpoint index_of (c : ascii) (s : string) : option Z :=
  match s with
  | EmptyString => None
  | String a s => if Ascii.eqb a c then Some 0%Z else Z.succ <$> index_of c s
  end.
Fixpoint le_value (base : Z) (s : string) : option Z :=
  match s with
  | EmptyString => Some 0%Z
  | String c s => d ← index_of c dig; v ← le_value base s; Some (d + base * v)%Z
  end.

Lemma index_of_digit d : (0 ≤ d < 62)%Z → index_of (digit_char d) dig = Some d.
Proof.
  intros H.
  assert (∀ n, n < 62 → index_of (digit_char (Z.of_nat n)) dig = Some (Z.of_nat n)) as Hn.
  { do 62 (intros [|n]; [reflexivity|]; revert n). intros n; lia. }
  rewrite <- (Z2Nat.id d) by lia. apply Hn. lia.
Qed.

Lemma uitoa_loop_value fuel value base acc :
  (2 ≤ base ≤ 62)%Z → (0 ≤ value < 2 ^ Z.of_nat fuel)%Z → fuel ≠ 0 →
  ∃ s, uitoa_loop fuel value base (-1) acc = Some (acc +:+ s)%string ∧ le_value base s = Some value.
Proof.
  intros Hb. revert value acc; induction fuel as [|fuel IH]; intros value acc Hv Hf; [done|].
  cbn [uitoa_loop]. pose proof (Z.mod_pos_bound value base ltac:(lia)) as Hm.
  pose proof (Z.div_mod value base ltac:(lia)) as Hdm.
  destruct (Z.eqb_spec (value / base) 0) as [H0|H0]; cbn [negb andb].
  - eexists. split; [done|]. cbn [le_value]. rewrite index_of_digit by lia. cbn.
    f_equal. lia.
  - rewrite (proj2 (Z.ltb_lt _ _)) by lia. cbn [orb].
    assert (value / base < 2 ^ Z.of_nat fuel)%Z.
    { apply Z.div_lt_upper_bound; [lia|]. rewrite Nat2Z.inj_succ, Z.pow_succ_r in Hv by lia. nia. }
    assert (0 ≤ value / base)%Z by (apply Z.div_pos; lia).
    assert (fuel ≠ 0). { intros ->. simpl in *. lia. }
    destruct (IH (value / base)%Z (acc +:+ String (digit_char (value mod base)) "")%string)
      as (s & -> & Hs); [lia|done|].
    eexists. split; [by rewrite append_assoc|]. rewrite append_cons. cbn [le_value].
    rewrite index_of_digit by lia. change (("" +:+ s)%string) with s. rewrite Hs. cbn. f_equal. lia.
Qed.

End NumberLemmas.
Import NumberLemmas.

(** [hash] is the base-31 polynomial of the string's (signed) characters, modulo 2^64. *)
Theorem hash_polynomial s : hash s = uwrap 64 (horner s 0).
Proof. by apply hash_loop_horner. Qed.

(** [uitoa_n] without a length limit terminates within 64 iterations on every 64-bit value
    and returns its digits in the given base, the least significant digit first. *)
Theorem uitoa_n_digits value base :
  (2 ≤ base ≤ 62)%Z → (0 ≤ value < 2 ^ 64)%Z →
  ∃ s, uitoa_n 64 value base (-1) = Ret s ∧ le_value base s = Some value.
Proof.
  intros Hb Hv. unfold uitoa_n.
  rewrite (proj2 (Z.ltb_ge _ _)) by (cbn; lia). rewrite (proj2 (Z.leb_gt _ _)) by lia.
  destruct (uitoa_loop_value 64 value base "" Hb Hv ltac:(lia)) as (s & -> & Hs).
  by exists s.
Qed.

(** ** Prefixes, suffixes and paths *)

Module PathLemmas.

Lemma startsWith_spec s p : startsWith s p = true ↔ ∃ t, s = (p +:+ t)%string.
Proof.
  unfold startsWith. rewrite bool_decide_eq_true. rewrite <- prefix_spec. split.
  - intros H%find_Some. apply prefix_spec. destruct H as [_ H]. simpl in H. eauto.
  - intros H. destruct s; cbn [str_find]; by rewrite H.
Qed.

Lemma endsWith_spec s p : endsWith s p = true ↔ ∃ t, s = (t +:+ p)%string.
Proof.
  unfold endsWith. split.
  - destruct (str_rfind p s) as [i|] eqn:Hi; [|done]. intros Heq%Nat.eqb_eq.
    apply rfind_Some in Hi as [Hl Hs]. exists (str_take i s).
    rewrite Hs at 1. f_equal. rewrite <- (append_nil_r p) at 3. f_equal.
    apply length_nil. rewrite length_drop. lia.
  - intros [t Ht]. destruct (rfind_rightmost p s t "") as (i & Hi & Hge).
    { by rewrite append_nil_r. }
    rewrite Hi. apply rfind_Some in Hi as [Hl _]. apply Nat.eqb_eq.
    rewrite Ht, length_append in *. lia.
Qed.

Lemma take_app_exact s t n : n = String.length s → str_take n (s +:+ t) = s.
Proof. intros ->. apply take_app_length. Qed.

(** Stripping removes exactly the trailing slashes. *)
Lemma strip_slashes_spec fuel p :
  String.length p < fuel →
  endsWith (strip_slashes fuel p) "/" = false ∧
  ∃ t, p = (strip_slashes fuel p +:+ t)%string ∧ str_forall (Ascii.eqb "/") t = true.
Proof.
  revert p; induction fuel as [|fuel IH]; intros p Hf; [lia|]. cbn [strip_slashes].
  destruct (endsWith p "/") eqn:He.
  - apply endsWith_spec in He as [q ->]. rewrite length_append in *. simpl in Hf.
    rewrite take_app_exact by (simpl; lia).
    destruct (IH q ltac:(lia)) as [H1 (t & Ht & H2)]. split; [done|].
    exists (t +:+ "/")%string. rewrite forall_app, H2. split; [|done].
    by rewrite <- append_assoc, <- Ht.
  - split; [done|]. exists EmptyString. by rewrite append_nil_r.
Qed.

End PathLemmas.
Import PathLemmas.

(** [startsWith] and [endsWith] decide the prefix and suffix relations. *)
Theorem startsWith_endsWith_spec s p :
  (startsWith s p = true ↔ ∃ t, s = (p +:+ t)%string) ∧
  (endsWith s p = true ↔ ∃ t, s = (t +:+ p)%string).
Proof. split; [apply startsWith_spec | apply endsWith_spec]. Qed.

(** [dirname] of a path with a slash is the whole path without its trailing slashes: the
    directory part it computes is not used. *)
Theorem dirname_keeps_basename p :
  str_rfind "/" p ≠ None → endsWith p "/" = false → dirname p = p.
Proof.
  intros Hr He. unfold dirname. destruct (str_rfind "/" p); [|done].
  cbn [strip_slashes]. by rewrite He.
Qed.

(** ** Instances *)

Lemma strsplit_strjoin_witness :
  ∃ l, strsplit "a::b" "::" = Some l ∧ l ≠ [] ∧ strjoin l "::" = "a::b"%string ∧
       Forall (λ x, str_find "::" x = None) l.
Proof. apply (SplitJoin.strsplit_strjoin "a::b" "::"). discriminate. Defined.

Lemma strjoin_strsplit_witness :
  strsplit (strjoin ["http"%string; "request"%string] "::") "::" = Some ["http"%string; "request"%string].
Proof.
  apply (SplitJoin.strjoin_strsplit ":" ":" ["http"%string; "request"%string]);
    [discriminate|repeat constructor].
Defined.

Lemma toIdentifier_valid_witness :
  ∃ r, toIdentifier "9-lives_!" true = Ret r ∧ str_forall id_char r = true ∧
       isdigit (head_char r) = false.
Proof. apply (toIdentifier_valid "9-lives_!" true). reflexivity. Defined.

Lemma uitoa_n_digits_witness :
  ∃ s, uitoa_n 64 1234 10 (-1) = Ret s ∧ le_value 10 s = Some 1234%Z.
Proof. apply (uitoa_n_digits 1234 10); lia. Defined.

Lemma dirname_keeps_basename_witness : dirname "/usr/lib" = "/usr/lib"%string.
Proof. apply (dirname_keeps_basename "/usr/lib"); [discriminate|reflexivity]. Defined.
