(* ===== verification/Runtime.v ===== *)
(** * The runtime library ([src/src/runtime])

    The code Diffingo generates is linked with this runtime: the memory area units are
    allocated in ([unit/unit_area.h]), the stack of a suspended parser
    ([parsing/parser_state.h]) and the primitive parse and serialize functions
    ([parsing/util.h], [serializing/util.h]).

    Memory is a finite map from addresses to bytes; reading or writing an
    address outside it is undefined behaviour, [Abort].  Pointers and [size_t]
    are 64 bits wide.  The functions take a [char**] position: the model passes
    the position and returns the new one, that is, the variable that holds it is
    not part of the buffers.  The machine is little-endian, the only case the
    headers compile for. *)

From S2P Require Import Prelude Util.
From Stdlib Require Import Sorting.Sorted.
Import Util.Chars.

Local Open Scope Z_scope.

(** ** Memory *)

Module Memory.

Abbreviation mem := (gmap Z ascii).

Fixpoint load_bytes (n : nat) (m : mem) (p : Z) : option (list ascii) :=
  match n with
  | O => Some []
  | S n => b ← m !! p; l ← load_bytes n m (p + 1); Some (b :: l)
  end.

Fixpoint store_bytes (bs : list ascii) (m : mem) (p : Z) : option mem :=
  match bs with
  | [] => Some m
  | b :: bs => _ ← m !! p; store_bytes bs (<[p := b]> m) (p + 1)
  end.

Definition access {A} (o : option A) : outcome A :=
  match o with Some a => Ret a | None => Abort "invalid memory access" end.

(** [memcpy] of overlapping ranges is undefined. *)
Definition memcpy (m : mem) (dest src len : Z) : outcome mem :=
  if (len =? 0) then Ret m
  else if ((dest <? src + len) && (src <? dest + len))%bool then Abort "memcpy: overlap"
  else
    bs ← access (load_bytes (Z.to_nat len) m src);
    access (store_bytes bs m dest).

(** Integers of the fixed-width types, little-endian in memory. *)
Record int_type := { sizeof : nat; is_signed : bool }.
Definition uint8_t := {| sizeof := 1; is_signed := false |}.
Definition uint16_t := {| sizeof := 2; is_signed := false |}.
Definition uint32_t := {| sizeof := 4; is_signed := false |}.
Definition uint64_t := {| sizeof := 8; is_signed := false |}.
Definition int8_t := {| sizeof := 1; is_signed := true |}.
Definition int16_t := {| sizeof := 2; is_signed := true |}.
Definition int32_t := {| sizeof := 4; is_signed := true |}.
Definition int64_t := {| sizeof := 8; is_signed := true |}.

Definition width (T : int_type) : Z := 8 * Z.of_nat (sizeof T).

Fixpoint le_decode (bs : list ascii) : Z :=
  match bs with [] => 0 | b :: bs => code b + 256 * le_decode bs end.
Fixpoint le_encode (n : nat) (v : Z) : list ascii :=
  match n with O => [] | S n => chr v :: le_encode n (v / 256) end.

(** The conversion to [T], and reading and writing an object of type [T]. *)
Definition convert (T : int_type) (v : Z) : Z :=
  if is_signed T then swrap (width T) v else uwrap (width T) v.
Definition read (T : int_type) (m : mem) (p : Z) : outcome Z :=
  bs ← access (load_bytes (sizeof T) m p); Ret (convert T (le_decode bs)).
Definition write (T : int_type) (m : mem) (p v : Z) : outcome mem :=
  access (store_bytes (le_encode (sizeof T) (uwrap (width T) v)) m p).

(** [bswap_16], [bswap_32] and [bswap_64] reverse the bytes of an unsigned
    argument of [n] bytes. *)
Definition bswap (n : nat) (v : Z) : Z :=
  le_decode (rev (le_encode n (uwrap (8 * Z.of_nat n) v))).

End Memory.
Import Memory.

(** ** [unit::UnitArea] *)

Module UnitArea.

Record UnitArea := mkUnitArea {
  this : Z;            (* address of the object *)
  nextAllocPos_ : Z;
  size_ : Z }.

(** The size of the object itself: a pointer and a [size_t]. *)
Definition sizeof_this : Z := 16.

Definition contents (a : UnitArea) : Z := this a + sizeof_this.
Definition newUnitArea (addr bufferSize : Z) : UnitArea :=
  mkUnitArea addr (addr + sizeof_this) (uwrap 64 (bufferSize - sizeof_this)).
Definition area_size (a : UnitArea) : Z := size_ a.
Definition allocated (a : UnitArea) : Z := uwrap 64 (nextAllocPos_ a - contents a).
Definition area_space (a : UnitArea) : Z := uwrap 64 (area_size a - allocated a).
Definition nextPos (a : UnitArea) : Z := nextAllocPos_ a.

(** [allocate(size, pos)]: the new area and [*pos] when it returns true. *)
Definition allocate (size : Z) (a : UnitArea) : option (Z * UnitArea) :=
  if area_space a <? size then None
  else Some (nextAllocPos_ a, mkUnitArea (this a) (nextAllocPos_ a + size) (size_ a)).

(** [allocate<ItemT>(item)]. *)
Definition allocate_item (sizeof_item : Z) (a : UnitArea) : option (Z * UnitArea) :=
  allocate sizeof_item a.

Definition moveNextPos (_size : Z) (a : UnitArea) : outcome UnitArea :=
  let a := mkUnitArea (this a) (uwrap 64 (nextAllocPos_ a + _size)) (size_ a) in
  if area_space a <=? area_size a then Ret a else Abort "assert(space() <= size())".

Definition area_reset (a : UnitArea) : UnitArea := mkUnitArea (this a) (contents a) (size_ a).

End UnitArea.

(** ** [parsing::ParserState] *)

Module ParserState.

Record ParserState := mkParserState {
  stack_ : Z;
  stack_size_ : Z;
  stack_top_ : Z;
  instruction_ : Z;
  stream_pos_ : Z }.

Definition newParserState (stack stack_size : Z) : ParserState :=
  mkParserState stack stack_size stack 0 0.
Definition set_top (top : Z) (s : ParserState) : ParserState :=
  mkParserState (stack_ s) (stack_size_ s) top (instruction_ s) (stream_pos_ s).
Definition set_instruction (i : Z) (s : ParserState) : ParserState :=
  mkParserState (stack_ s) (stack_size_ s) (stack_top_ s) i (stream_pos_ s).
Definition set_stream_pos (p : Z) (s : ParserState) : ParserState :=
  mkParserState (stack_ s) (stack_size_ s) (stack_top_ s) (instruction_ s) p.

Definition stack_space (s : ParserState) : Z :=
  uwrap 64 (stack_size_ s - (stack_top_ s - stack_ s)).

(** [push(t)]; [t] is given by its object representation. *)
Definition push (t : list ascii) (s : ParserState) (m : mem) : outcome (ParserState * mem) :=
  let sz := Z.of_nat (length t) in
  if stack_space s >? sz then
    m ← access (store_bytes t m (stack_top_ s));
    Ret (set_top (stack_top_ s + sz) s, m)
  else Abort "assert(space() > sizeof(t))".

(** [push<T>()]: reserves the object and returns its address. *)
Definition push_reserve (sz : nat) (s : ParserState) : outcome (Z * ParserState) :=
  if stack_space s >? Z.of_nat sz then Ret (stack_top_ s, set_top (stack_top_ s + Z.of_nat sz) s)
  else Abort "assert(space() > sizeof(T))".

Definition has_object (sz : nat) (s : ParserState) : bool :=
  stack_space s <=? uwrap 64 (stack_size_ s - Z.of_nat sz).

Definition peek (sz : nat) (s : ParserState) : outcome Z :=
  if has_object sz s then Ret (stack_top_ s - Z.of_nat sz)
  else Abort "assert(space() <= stack_size_ - sizeof(T))".

Definition peekCopy (sz : nat) (s : ParserState) (m : mem) : outcome (list ascii) :=
  p ← peek sz s; access (load_bytes sz m p).

Definition pop (sz : nat) (s : ParserState) : outcome ParserState :=
  if has_object sz s then Ret (set_top (stack_top_ s - Z.of_nat sz) s)
  else Abort "assert(space() <= stack_size_ - sizeof(T))".

Definition popAndGet (sz : nat) (s : ParserState) (m : mem)
    : outcome (list ascii * ParserState) :=
  s ← pop sz s; t ← access (load_bytes sz m (stack_top_ s)); Ret (t, s).

(** A [void*] on the stack. *)
Definition returnToInstruction (s : ParserState) (m : mem) : outcome ParserState :=
  '(t, s) ← popAndGet 8 s m; Ret (set_instruction (le_decode t) s).
Definition callInstruction (call return_to : Z) (s : ParserState) (m : mem)
    : outcome (ParserState * mem) :=
  '(s, m) ← push (le_encode 8 return_to) s m; Ret (set_instruction call s, m).
Definition advanceToInstruction (new_instr : Z) (s : ParserState) : ParserState :=
  set_instruction new_instr s.
Definition instruction (s : ParserState) : Z := instruction_ s.
Definition state_reset (s : ParserState) : ParserState :=
  mkParserState (stack_ s) (stack_size_ s) (stack_ s) 0 0.

End ParserState.

(** ** [parsing::util] *)

Module Parsing.

Inductive ParseResult := DONE | NEXT | OUT_OF_DATA | AREA_FULL.

(** A primitive parser: memory, position, end of the buffer, destination; the
    result, the new position and the new memory. *)
Definition parser := mem → Z → Z → Z → outcome (ParseResult * Z * mem).

(** [in_buf_end - *pos_ptr < sizeof(T)]: [ptrdiff_t] against [size_t]. *)
Definition short_of (n : Z) (pos in_buf_end : Z) : bool :=
  uwrap 64 (swrap 64 (in_buf_end - pos)) <? n.

Definition copyAtomicType (T : int_type) : parser := λ m pos in_buf_end parse_dest,
  if short_of (Z.of_nat (sizeof T)) pos in_buf_end then Ret (OUT_OF_DATA, pos, m)
  else
    v ← read T m pos;
    m ← write T m parse_dest v;
    Ret (DONE, pos + Z.of_nat (sizeof T), m).

(** The body shared by the big-endian functions of more than one byte. *)
Definition copySwapped (T : int_type) : parser := λ m pos in_buf_end parse_dest,
  if short_of (Z.of_nat (sizeof T)) pos in_buf_end then Ret (OUT_OF_DATA, pos, m)
  else
    v ← read T m pos;
    m ← write T m parse_dest (bswap (sizeof T) v);
    Ret (DONE, pos + Z.of_nat (sizeof T), m).

(** [in_buf_end - *pos_ptr < static_cast<ssize_t>(len)]: both signed. *)
Definition short_of_len (len : Z) (pos in_buf_end : Z) : bool :=
  swrap 64 (in_buf_end - pos) <? swrap 64 len.

Definition copyBytes (m : mem) (pos in_buf_end parse_dest len : Z)
    : outcome (ParseResult * Z * mem) :=
  if short_of_len len pos in_buf_end then Ret (OUT_OF_DATA, pos, m)
  else
    m ← memcpy m parse_dest pos len;
    Ret (DONE, uwrap 64 (pos + len), m).

Definition advance (pos in_buf_end len : Z) : ParseResult * Z :=
  if short_of_len len pos in_buf_end then (OUT_OF_DATA, pos)
  else (DONE, uwrap 64 (pos + len)).

(** Also returns [*parse_dest], unchanged ([dest0]) on failure, and the area. *)
Definition allocateCopyBytes (m : mem) (pos in_buf_end dest0 len : Z) (area : UnitArea.UnitArea)
    : outcome (ParseResult * Z * Z * UnitArea.UnitArea * mem) :=
  if short_of_len len pos in_buf_end then Ret (OUT_OF_DATA, pos, dest0, area, m)
  else
    match UnitArea.allocate len area with
    | None => Ret (AREA_FULL, pos, dest0, area, m)
    | Some (parse_dest, area) =>
        m ← memcpy m parse_dest pos len;
        Ret (DONE, uwrap 64 (pos + len), parse_dest, area, m)
    end.

Definition parseInt8_unsigned_big : parser := copyAtomicType uint8_t.
Definition parseInt16_unsigned_big : parser := copySwapped uint16_t.
Definition parseInt32_unsigned_big : parser := copySwapped uint32_t.
Definition parseInt64_unsigned_big : parser := copySwapped uint64_t.
Definition parseInt8_unsigned_little : parser := copyAtomicType uint8_t.
Definition parseInt16_unsigned_little : parser := copyAtomicType uint16_t.
Definition parseInt32_unsigned_little : parser := copyAtomicType uint32_t.
Definition parseInt64_unsigned_little : parser := copyAtomicType uint64_t.
Definition parseInt8_signed_big : parser := copyAtomicType int8_t.
Definition parseInt16_signed_big : parser := copySwapped int16_t.
Definition parseInt32_signed_big : parser := copySwapped int32_t.
Definition parseInt64_signed_big : parser := copySwapped int64_t.
Definition parseInt8_signed_little : parser := copyAtomicType int8_t.
Definition parseInt16_signed_little : parser := copyAtomicType int16_t.
Definition parseInt32_signed_little : parser := copyAtomicType int32_t.
Definition parseInt64_signed_little : parser := copyAtomicType int64_t.

End Parsing.

(** ** [serializing::util] *)

Module Serializing.

Inductive SerializeResult := DONE | NEXT | OUT_BUF_FULL.

(** A primitive serializer: memory, source, position, end of the buffer. *)
Definition serializer := mem → Z → Z → Z → outcome (SerializeResult * Z * mem).

Definition copyAtomicType_out (T : int_type) : serializer := λ m serialize_src pos out_buf_end,
  if Parsing.short_of (Z.of_nat (sizeof T)) pos out_buf_end then Ret (OUT_BUF_FULL, pos, m)
  else
    v ← read T m serialize_src;
    m ← write T m pos v;
    Ret (DONE, pos + Z.of_nat (sizeof T), m).

Definition copySwapped_out (T : int_type) : serializer := λ m serialize_src pos out_buf_end,
  if Parsing.short_of (Z.of_nat (sizeof T)) pos out_buf_end then Ret (OUT_BUF_FULL, pos, m)
  else
    v ← read T m serialize_src;
    m ← write T m pos (bswap (sizeof T) v);
    Ret (DONE, pos + Z.of_nat (sizeof T), m).

Definition copyBytes_out (m : mem) (serialize_src len pos out_buf_end : Z)
    : outcome (SerializeResult * Z * mem) :=
  if Parsing.short_of_len len pos out_buf_end then Ret (OUT_BUF_FULL, pos, m)
  else
    m ← memcpy m pos serialize_src len;
    Ret (DONE, uwrap 64 (pos + len), m).

Definition serializeInt8_unsigned_big : serializer := copyAtomicType_out uint8_t.
Definition serializeInt16_unsigned_big : serializer := copySwapped_out uint16_t.
Definition serializeInt32_unsigned_big : serializer := copySwapped_out uint32_t.
Definition serializeInt64_unsigned_big : serializer := copySwapped_out uint64_t.
Definition serializeInt8_unsigned_little : serializer := copyAtomicType_out uint8_t.
Definition serializeInt16_unsigned_little : serializer := copyAtomicType_out uint16_t.
Definition serializeInt32_unsigned_little : serializer := copyAtomicType_out uint32_t.
Definition serializeInt64_unsigned_little : serializer := copyAtomicType_out uint64_t.
Definition serializeInt8_signed_big : serializer := copyAtomicType_out int8_t.
Definition serializeInt16_signed_big : serializer := copySwapped_out int16_t.
Definition serializeInt32_signed_big : serializer := copySwapped_out int32_t.
Definition serializeInt64_signed_big : serializer := copySwapped_out int64_t.
Definition serializeInt8_signed_little : serializer := copyAtomicType_out int8_t.
Definition serializeInt16_signed_little : serializer := copyAtomicType_out int16_t.
Definition serializeInt32_signed_little : serializer := copyAtomicType_out int32_t.
Definition serializeInt64_signed_little : serializer := copyAtomicType_out int64_t.

End Serializing.

(** ** The containers of [unit/data_type.h] *)

Module DataType.

(** [mutable_list<ItemT, MaxSize>]: [add] does not check the bound; writing past
    the array is undefined.  [items_] holds [MaxSize] elements. *)
Record mutable_list (A : Type) := mkMutableList { len_ : nat; items_ : list A }.
Arguments mkMutableList {A} _ _.
Arguments len_ {A} _.
Arguments items_ {A} _.

Definition add {A} (item : A) (l : mutable_list A) : outcome (mutable_list A) :=
  if (len_ l <? length (items_ l))%nat
  then Ret (mkMutableList (S (len_ l)) (<[len_ l := item]> (items_ l)))
  else Abort "items_[len_++]".

Definition elements {A} (l : mutable_list A) : list A := take (len_ l) (items_ l).

End DataType.

(** ** Lemmas on memory and on the integer encoding *)

Module MemoryLemmas.

Lemma code_range c : 0 ≤ code c < 256.
Proof. unfold code. pose proof (nat_ascii_bounded c). lia. Qed.

Lemma chr_code c : chr (code c) = c.
Proof.
  unfold chr. rewrite Z.mod_small by apply code_range. unfold code.
  rewrite Nat2Z.id. apply ascii_nat_embedding.
Qed.

Lemma code_chr z : code (chr z) = z mod 256.
Proof.
  unfold chr, code. pose proof (Z.mod_pos_bound z 256 ltac:(lia)).
  rewrite nat_ascii_embedding by lia. rewrite Z2Nat.id; lia.
Qed.

Lemma length_le_encode n v : length (le_encode n v) = n.
Proof. revert v; induction n as [|n IH]; intros v; simpl; [done|]. by rewrite IH. Qed.

Lemma le_encode_decode bs : le_encode (length bs) (le_decode bs) = bs.
Proof.
  induction bs as [|b bs IH]; simpl; [done|]. pose proof (code_range b) as Hb. f_equal.
  - rewrite <- (chr_code b) at 2. unfold chr. by rewrite Z.mul_comm, Z_mod_plus_full.
  - replace ((code b + 256 * le_decode bs) / 256) with (le_decode bs); [done|].
    rewrite Z.mul_comm, Z_div_plus_full by lia. rewrite Z.div_small; lia.
Qed.

Lemma le_decode_range bs : 0 ≤ le_decode bs < 2 ^ (8 * Z.of_nat (length bs)).
Proof.
  induction bs as [|b bs IH]; [simpl; lia|]. pose proof (code_range b).
  cbn [le_decode length]. rewrite Nat2Z.inj_succ.
  replace (8 * Z.succ (Z.of_nat (length bs))) with (8 + 8 * Z.of_nat (length bs)) by lia.
  rewrite Z.pow_add_r by lia. change (2 ^ 8) with 256. lia.
Qed.

Lemma le_decode_encode n v : le_decode (le_encode n v) = uwrap (8 * Z.of_nat n) v.
Proof.
  revert v; induction n as [|n IH]; intros v; cbn [le_encode le_decode].
  { unfold uwrap. simpl. by rewrite Z.mod_1_r. }
  rewrite code_chr, IH. unfold uwrap. rewrite Nat2Z.inj_succ.
  replace (8 * Z.succ (Z.of_nat n)) with (8 + 8 * Z.of_nat n) by lia.
  rewrite Z.pow_add_r by lia. change (2 ^ 8) with 256.
  rewrite Z.rem_mul_r; [lia|lia|]. apply Z.pow_pos_nonneg; lia.
Qed.

Lemma uwrap_decode bs : uwrap (8 * Z.of_nat (length bs)) (le_decode bs) = le_decode bs.
Proof. apply uwrap_small, le_decode_range. Qed.

(** Writing back what was read restores the bytes, whatever the signedness. *)
Lemma encode_convert T bs :
  length bs = sizeof T →
  le_encode (sizeof T) (uwrap (width T) (convert T (le_decode bs))) = bs.
Proof.
  intros Hl. unfold convert. assert (uwrap (width T) (le_decode bs) = le_decode bs) as E.
  { unfold width. rewrite <- Hl. apply uwrap_decode. }
  destruct (is_signed T); [rewrite uwrap_swrap|rewrite uwrap_idemp];
    rewrite E, <- Hl; apply le_encode_decode.
Qed.

Lemma encode_bswap T bs :
  length bs = sizeof T →
  le_encode (sizeof T) (uwrap (width T) (bswap (sizeof T) (convert T (le_decode bs)))) = rev bs.
Proof.
  intros Hl. unfold bswap. fold (width T). rewrite encode_convert by done.
  unfold width. rewrite <- Hl, <- (length_rev bs), uwrap_decode. apply le_encode_decode.
Qed.

Lemma length_load n m p bs : load_bytes n m p = Some bs → length bs = n.
Proof.
  revert p bs; induction n as [|n IH]; intros p bs; simpl; [by intros [= <-]|].
  destruct (m !! p); [|done]; simpl. destruct (load_bytes n m (p + 1)) eqn:E; [|done].
  simpl. intros [= <-]. simpl. f_equal. by eapply IH.
Qed.

Lemma load_lookup n m p bs i :
  load_bytes n m p = Some bs → (i < n)%nat → m !! (p + Z.of_nat i) = bs !! i.
Proof.
  revert p bs i; induction n as [|n IH]; intros p bs i; simpl; [lia|].
  destruct (m !! p) as [b|] eqn:Hb; [|done]; simpl.
  destruct (load_bytes n m (p + 1)) eqn:E; [|done]; simpl. intros [= <-] Hi.
  destruct i as [|i]; simpl; [by rewrite Z.add_0_r|].
  rewrite <- (IH _ _ i E) by lia. f_equal. lia.
Qed.

Lemma load_ext n m m' p :
  (∀ i, (i < n)%nat → m !! (p + Z.of_nat i) = m' !! (p + Z.of_nat i)) →
  load_bytes n m p = load_bytes n m' p.
Proof.
  revert p; induction n as [|n IH]; intros p H; simpl; [done|].
  pose proof (H O ltac:(lia)) as H0. rewrite Z.add_0_r in H0. rewrite H0.
  rewrite (IH (p + 1)); [done|]. intros i Hi. pose proof (H (S i) ltac:(lia)).
  by replace (p + 1 + Z.of_nat i) with (p + Z.of_nat (S i)) by lia.
Qed.

Lemma load_is_Some n m p :
  is_Some (load_bytes n m p) ↔ ∀ i, (i < n)%nat → is_Some (m !! (p + Z.of_nat i)).
Proof.
  split.
  - intros [bs H] i Hi. rewrite (load_lookup _ _ _ _ _ H Hi).
    apply lookup_lt_is_Some. by rewrite (length_load _ _ _ _ H).
  - revert p; induction n as [|n IH]; intros p H; simpl; [done|].
    destruct (H O ltac:(lia)) as [b Hb]. rewrite Z.add_0_r in Hb. rewrite Hb. simpl.
    destruct (IH (p + 1)) as [l Hl]; [|rewrite Hl; done].
    intros i Hi. destruct (H (S i) ltac:(lia)) as [c Hc]. exists c.
    by replace (p + 1 + Z.of_nat i) with (p + Z.of_nat (S i)) by lia.
Qed.

Definition outside (a p : Z) (n : nat) : Prop := a < p ∨ p + Z.of_nat n ≤ a.

Lemma store_frame bs m p m' a :
  store_bytes bs m p = Some m' → outside a p (length bs) → m' !! a = m !! a.
Proof.
  revert m p; induction bs as [|b bs IH]; intros m p; simpl; [by intros [= <-]|].
  destruct (m !! p); [|done]; simpl. intros H Ho. unfold outside in *.
  rewrite (IH _ _ H) by (simpl in *; lia). rewrite lookup_insert_ne by (simpl in *; lia). done.
Qed.

Lemma load_store bs m p m' :
  store_bytes bs m p = Some m' → load_bytes (length bs) m' p = Some bs.
Proof.
  revert m p; induction bs as [|b bs IH]; intros m p; simpl; [done|].
  destruct (m !! p); [|done]; simpl. intros H.
  rewrite (store_frame _ _ _ _ p H), lookup_insert_eq by (unfold outside; lia). simpl.
  by rewrite (IH _ _ H).
Qed.

Lemma load_store_frame bs m p m' n q :
  store_bytes bs m p = Some m' →
  q + Z.of_nat n ≤ p ∨ p + Z.of_nat (length bs) ≤ q →
  load_bytes n m' q = load_bytes n m q.
Proof.
  intros H Ho. apply load_ext. intros i Hi. apply (store_frame _ _ _ _ _ H).
  unfold outside. lia.
Qed.

Lemma store_is_Some bs m p :
  is_Some (load_bytes (length bs) m p) → is_Some (store_bytes bs m p).
Proof.
  revert m p; induction bs as [|b bs IH]; intros m p Hl; simpl; [done|].
  pose proof (proj1 (load_is_Some _ _ _) Hl) as H.
  destruct (H O ltac:(simpl; lia)) as [x Hx]. rewrite Z.add_0_r in Hx. rewrite Hx. simpl.
  apply IH, load_is_Some. intros i Hi.
  destruct (H (S i) ltac:(simpl; lia)) as [y Hy]. rewrite lookup_insert_ne by lia.
  exists y. by replace (p + 1 + Z.of_nat i) with (p + Z.of_nat (S i)) by lia.
Qed.

Lemma store_dom bs m p m' : store_bytes bs m p = Some m' → ∀ a, is_Some (m' !! a) ↔ is_Some (m !! a).
Proof.
  revert m p; induction bs as [|b bs IH]; intros m p; simpl; [by intros [= <-]|].
  destruct (m !! p) eqn:Hp; [|done]; simpl. intros H x. rewrite (IH _ _ H x).
  destruct (decide (p = x)) as [->|]; [|by rewrite lookup_insert_ne].
  rewrite lookup_insert_eq, Hp. split; intros _; eauto.
Qed.

End MemoryLemmas.
Import MemoryLemmas.

(** ** The integer codecs

    [IntParser n order f] is what the generated parsers rely on: [f] copies [n] bytes of the
    stream to the destination, in the given order, or reports [OUT_OF_DATA] and changes
    nothing.  [IntSerializer] is its counterpart. *)

Class IntParser (n : nat) (order : list ascii → list ascii) (f : Parsing.parser) : Prop :=
  parser_spec m pos e dest :
    f m pos e dest =
      if Parsing.short_of (Z.of_nat n) pos e then Ret (Parsing.OUT_OF_DATA, pos, m)
      else
        bs ← access (load_bytes n m pos);
        m ← access (store_bytes (order bs) m dest);
        Ret (Parsing.DONE, pos + Z.of_nat n, m).

Class IntSerializer (n : nat) (order : list ascii → list ascii) (g : Serializing.serializer)
    : Prop :=
  serializer_spec m src pos e :
    g m src pos e =
      if Parsing.short_of (Z.of_nat n) pos e then Ret (Serializing.OUT_BUF_FULL, pos, m)
      else
        bs ← access (load_bytes n m src);
        m ← access (store_bytes (order bs) m pos);
        Ret (Serializing.DONE, pos + Z.of_nat n, m).

(** Byte orders: a permutation of the positions that is its own inverse. *)
Class ByteOrder (order : list ascii → list ascii) : Prop := {
  order_length bs : length (order bs) = length bs;
  order_inv bs : order (order bs) = bs }.

#[export] Instance little_order : ByteOrder id.
Proof. done. Qed.
#[export] Instance big_order : ByteOrder (@rev ascii).
Proof. split; intros; [apply length_rev | apply rev_involutive]. Qed.

Ltac unfold_codec T :=
  intros m pos e dest; unfold read, write;
  destruct (Parsing.short_of _ _ _); [done|];
  match goal with |- context [load_bytes ?n ?m ?p] =>
    destruct (load_bytes n m p) as [bs|] eqn:Hl; [|done];
    cbn [access mbind outcome_bind];
    pose proof (length_load _ _ _ _ Hl) as Hlen
  end.

#[export] Instance copyAtomicType_parser T : IntParser (sizeof T) id (Parsing.copyAtomicType T).
Proof. unfold Parsing.copyAtomicType. unfold_codec T. by rewrite encode_convert. Qed.

#[export] Instance copySwapped_parser T : IntParser (sizeof T) (@rev _) (Parsing.copySwapped T).
Proof. unfold Parsing.copySwapped. unfold_codec T. by rewrite encode_bswap. Qed.

#[export] Instance copyAtomicType_serializer T :
  IntSerializer (sizeof T) id (Serializing.copyAtomicType_out T).
Proof. unfold Serializing.copyAtomicType_out. unfold_codec T. by rewrite encode_convert. Qed.

#[export] Instance copySwapped_serializer T :
  IntSerializer (sizeof T) (@rev _) (Serializing.copySwapped_out T).
Proof. unfold Serializing.copySwapped_out. unfold_codec T. by rewrite encode_bswap. Qed.

Section Codec.
  Context (n : nat) (order : list ascii → list ascii) `{!ByteOrder order}.
  Context (f : Parsing.parser) `{!IntParser n order f}.
  Context (g : Serializing.serializer) `{!IntSerializer n order g}.

(** The buffer between [pos] and [e] is an address range. *)
Definition buffer (pos e : Z) : Prop := 0 ≤ e - pos < 2 ^ 63.

Lemma short_of_spec k pos e : buffer pos e → Parsing.short_of k pos e = (e - pos <? k).
Proof.
  intros [? ?]. unfold Parsing.short_of. by rewrite uwrap_swrap, uwrap_small by lia.
Qed.

Lemma parser_short m pos e dest :
  buffer pos e → e - pos < Z.of_nat n → f m pos e dest = Ret (Parsing.OUT_OF_DATA, pos, m).
Proof using IntParser0.
  intros Hb Hs. rewrite parser_spec, short_of_spec by done. by rewrite (proj2 (Z.ltb_lt _ _)).
Qed.

Lemma serializer_short m src pos e :
  buffer pos e → e - pos < Z.of_nat n → g m src pos e = Ret (Serializing.OUT_BUF_FULL, pos, m).
Proof using IntSerializer0.
  intros Hb Hs. rewrite serializer_spec, short_of_spec by done. by rewrite (proj2 (Z.ltb_lt _ _)).
Qed.

Lemma parser_done m pos e dest bs :
  buffer pos e → Z.of_nat n ≤ e - pos → load_bytes n m pos = Some bs →
  is_Some (load_bytes n m dest) →
  ∃ m', f m pos e dest = Ret (Parsing.DONE, pos + Z.of_nat n, m') ∧
        load_bytes n m' dest = Some (order bs) ∧
        ∀ a, outside a dest n → m' !! a = m !! a.
Proof using ByteOrder0 IntParser0.
  intros Hb Hs Hl Hd. rewrite parser_spec, short_of_spec by done.
  rewrite (proj2 (Z.ltb_ge _ _)) by done. rewrite Hl; cbn [access mbind outcome_bind].
  assert (length (order bs) = n) as Hlen.
  { rewrite order_length. by eapply length_load. }
  destruct (store_is_Some (order bs) m dest) as [m' Hm]; [by rewrite Hlen|].
  exists m'. rewrite Hm. split; [done|]. split.
  - rewrite <- Hlen. by apply load_store with m.
  - intros a Ha. apply (store_frame _ _ _ _ _ Hm). by rewrite Hlen.
Qed.

Lemma serializer_done m src pos e bs :
  buffer pos e → Z.of_nat n ≤ e - pos → load_bytes n m src = Some bs →
  is_Some (load_bytes n m pos) →
  ∃ m', g m src pos e = Ret (Serializing.DONE, pos + Z.of_nat n, m') ∧
        load_bytes n m' pos = Some (order bs) ∧
        (∀ a, outside a pos n → m' !! a = m !! a) ∧
        (∀ a, is_Some (m' !! a) ↔ is_Some (m !! a)).
Proof using ByteOrder0 IntSerializer0.
  intros Hb Hs Hl Hd. rewrite serializer_spec, short_of_spec by done.
  rewrite (proj2 (Z.ltb_ge _ _)) by done. rewrite Hl; cbn [access mbind outcome_bind].
  assert (length (order bs) = n) as Hlen.
  { rewrite order_length. by eapply length_load. }
  destruct (store_is_Some (order bs) m pos) as [m' Hm]; [by rewrite Hlen|].
  exists m'. rewrite Hm. split; [done|]. repeat split.
  - rewrite <- Hlen. by apply load_store with m.
  - intros a Ha. apply (store_frame _ _ _ _ _ Hm). by rewrite Hlen.
  - by apply (store_dom _ _ _ _ Hm).
  - by apply (store_dom _ _ _ _ Hm).
Qed.

Lemma codec_roundtrip m src pos e dest bs :
  buffer pos e → Z.of_nat n ≤ e - pos → load_bytes n m src = Some bs →
  is_Some (load_bytes n m pos) → is_Some (load_bytes n m dest) →
  ∃ m1 m2,
    g m src pos e = Ret (Serializing.DONE, pos + Z.of_nat n, m1) ∧
    f m1 pos e dest = Ret (Parsing.DONE, pos + Z.of_nat n, m2) ∧
    load_bytes n m2 dest = Some bs ∧
    ∀ a, outside a pos n → outside a dest n → m2 !! a = m !! a.
Proof using ByteOrder0 IntParser0 IntSerializer0.
  intros Hb Hs Hl Hp Hd.
  destruct (serializer_done m src pos e bs) as (m1 & H1 & Hl1 & Hf1 & Hdom); [done..|].
  destruct (parser_done m1 pos e dest (order bs)) as (m2 & H2 & Hl2 & Hf2); [done..| |].
  { apply load_is_Some. intros i Hi. apply Hdom. by apply load_is_Some with n. }
  exists m1, m2. rewrite order_inv in Hl2. repeat split; [done..|].
  intros a Ha1 Ha2. by rewrite Hf2, Hf1.
Qed.
End Codec.

(** The sixteen pairs of functions the generators choose from, by type and byte order. *)
Record codec := mkCodec {
  c_type : int_type;
  c_big : bool;
  c_parse : Parsing.parser;
  c_serialize : Serializing.serializer }.

Definition int_codecs : list codec :=
  [ mkCodec uint8_t true Parsing.parseInt8_unsigned_big Serializing.serializeInt8_unsigned_big;
    mkCodec uint16_t true Parsing.parseInt16_unsigned_big Serializing.serializeInt16_unsigned_big;
    mkCodec uint32_t true Parsing.parseInt32_unsigned_big Serializing.serializeInt32_unsigned_big;
    mkCodec uint64_t true Parsing.parseInt64_unsigned_big Serializing.serializeInt64_unsigned_big;
    mkCodec uint8_t false Parsing.parseInt8_unsigned_little Serializing.serializeInt8_unsigned_little;
    mkCodec uint16_t false Parsing.parseInt16_unsigned_little Serializing.serializeInt16_unsigned_little;
    mkCodec uint32_t false Parsing.parseInt32_unsigned_little Serializing.serializeInt32_unsigned_little;
    mkCodec uint64_t false Parsing.parseInt64_unsigned_little Serializing.serializeInt64_unsigned_little;
    mkCodec int8_t true Parsing.parseInt8_signed_big Serializing.serializeInt8_signed_big;
    mkCodec int16_t true Parsing.parseInt16_signed_big Serializing.serializeInt16_signed_big;
    mkCodec int32_t true Parsing.parseInt32_signed_big Serializing.serializeInt32_signed_big;
    mkCodec int64_t true Parsing.parseInt64_signed_big Serializing.serializeInt64_signed_big;
    mkCodec int8_t false Parsing.parseInt8_signed_little Serializing.serializeInt8_signed_little;
    mkCodec int16_t false Parsing.parseInt16_signed_little Serializing.serializeInt16_signed_little;
    mkCodec int32_t false Parsing.parseInt32_signed_little Serializing.serializeInt32_signed_little;
    mkCodec int64_t false Parsing.parseInt64_signed_little Serializing.serializeInt64_signed_little ].

(** The order in which a codec lays out the bytes of its type. *)
Definition c_order (c : codec) : list ascii → list ascii := if c_big c then @rev _ else id.

Lemma rev_1 : ∀ bs : list ascii, length bs = 1%nat → rev bs = bs.
Proof. by intros [|? [|]]. Qed.

#[export] Instance c_order_ok c : ByteOrder (c_order c).
Proof. unfold c_order. destruct (c_big c); apply _. Qed.

(** One byte has only one order. *)
Lemma parser_one_byte f : IntParser 1 id f → IntParser 1 (@rev _) f.
Proof.
  intros H m pos e dest. rewrite (H m pos e dest). case_bool; [done|].
  destruct (load_bytes 1 m pos) as [bs|] eqn:Hl; [|done]. cbn [access mbind outcome_bind].
  by rewrite rev_1 by (by eapply length_load).
Qed.

Lemma serializer_one_byte f : IntSerializer 1 id f → IntSerializer 1 (@rev _) f.
Proof.
  intros H m src pos e. rewrite (H m src pos e). case_bool; [done|].
  destruct (load_bytes 1 m src) as [bs|] eqn:Hl; [|done]. cbn [access mbind outcome_bind].
  by rewrite rev_1 by (by eapply length_load).
Qed.

Lemma int_codecs_ok c :
  c ∈ int_codecs →
  IntParser (sizeof (c_type c)) (c_order c) (c_parse c) ∧
  IntSerializer (sizeof (c_type c)) (c_order c) (c_serialize c).
Proof.
  assert (Forall (λ c, IntParser (sizeof (c_type c)) (c_order c) (c_parse c) ∧
    IntSerializer (sizeof (c_type c)) (c_order c) (c_serialize c)) int_codecs) as H.
  2: { intros Hc. rewrite list.Forall_forall in H. by apply H. }
  unfold int_codecs. repeat (apply list.Forall_cons; split); [..|apply list.Forall_nil; done].
  all: cbn [c_type c_parse c_serialize sizeof]; split; first
    [ apply (copyAtomicType_parser _) | apply (copyAtomicType_serializer _)
    | apply (copySwapped_parser _) | apply (copySwapped_serializer _)
    | apply parser_one_byte, (copyAtomicType_parser uint8_t)
    | apply parser_one_byte, (copyAtomicType_parser int8_t)
    | apply serializer_one_byte, (copyAtomicType_serializer uint8_t)
    | apply serializer_one_byte, (copyAtomicType_serializer int8_t) ].
Qed.

(** C17: For each of the sixteen integer codecs: serializing an object into a buffer with enough
    room and parsing it back from there restores the object byte for byte, both calls advance
    the position by the object's size, and no other memory changes. *)
Theorem int_codec_roundtrip c m src pos e dest bs :
  c ∈ int_codecs →
  let n := sizeof (c_type c) in
  buffer pos e → Z.of_nat n ≤ e - pos → load_bytes n m src = Some bs →
  is_Some (load_bytes n m pos) → is_Some (load_bytes n m dest) →
  ∃ m1 m2,
    c_serialize c m src pos e = Ret (Serializing.DONE, pos + Z.of_nat n, m1) ∧
    c_parse c m1 pos e dest = Ret (Parsing.DONE, pos + Z.of_nat n, m2) ∧
    load_bytes n m2 dest = Some bs ∧
    ∀ a, outside a pos n → outside a dest n → m2 !! a = m !! a.
Proof.
  intros [Hp Hs]%int_codecs_ok n. by eapply codec_roundtrip; [apply _|..].
Qed.

(** C38: The value a codec parses: the object at the destination is the [n] stream bytes read
    as a big- or little-endian integer of the codec's width and signedness. *)
Theorem int_codec_value c m pos e dest bs :
  c ∈ int_codecs →
  let n := sizeof (c_type c) in
  buffer pos e → Z.of_nat n ≤ e - pos → load_bytes n m pos = Some bs →
  is_Some (load_bytes n m dest) →
  ∃ m', c_parse c m pos e dest = Ret (Parsing.DONE, pos + Z.of_nat n, m') ∧
        read (c_type c) m' dest =
          Ret (convert (c_type c) (le_decode (if c_big c then rev bs else bs))).
Proof.
  intros [Hp Hs]%int_codecs_ok n Hb Hn Hl Hd.
  edestruct (parser_done n (c_order c) (c_parse c) m pos e dest bs) as (m' & H1 & H2 & _);
    [done..|].
  exists m'. split; [done|]. unfold read. fold n. rewrite H2. cbn [access mbind outcome_bind].
  unfold c_order. by destruct (c_big c).
Qed.

(** C39: When the rest of the buffer is too short for the object, every integer parser reports
    [OUT_OF_DATA] and every serializer [OUT_BUF_FULL], and neither moves the position nor
    writes memory: the call can be repeated with more data. *)
Theorem int_codec_short c m pos e p :
  c ∈ int_codecs → buffer pos e → e - pos < Z.of_nat (sizeof (c_type c)) →
  c_parse c m pos e p = Ret (Parsing.OUT_OF_DATA, pos, m) ∧
  c_serialize c m p pos e = Ret (Serializing.OUT_BUF_FULL, pos, m).
Proof.
  intros [Hp Hs]%int_codecs_ok Hb Hn. split.
  - by eapply parser_short.
  - by eapply serializer_short.
Qed.

(** ** Byte ranges *)

Module BytesLemmas.

Lemma short_of_len_spec len pos e :
  buffer pos e → 0 ≤ len < 2 ^ 63 → Parsing.short_of_len len pos e = (e - pos <? len).
Proof.
  unfold buffer, Parsing.short_of_len. intros. by rewrite !swrap_small by lia.
Qed.

Lemma short_of_len_huge len pos e :
  buffer pos e → 2 ^ 63 ≤ len < 2 ^ 64 → Parsing.short_of_len len pos e = false.
Proof.
  unfold buffer, Parsing.short_of_len. intros. rewrite (swrap_small 64 (e - pos)) by lia.
  apply Z.ltb_ge. unfold swrap; cbv zeta. rewrite uwrap_small by lia.
  destruct (Z.ltb_spec len (2 ^ (64 - 1))); lia.
Qed.

Definition disjoint_ranges (p q len : Z) : Prop := p + len ≤ q ∨ q + len ≤ p.

Lemma memcpy_ok m dest src len bs :
  0 ≤ len → disjoint_ranges dest src len →
  load_bytes (Z.to_nat len) m src = Some bs → is_Some (load_bytes (Z.to_nat len) m dest) →
  ∃ m', memcpy m dest src len = Ret m' ∧ load_bytes (Z.to_nat len) m' dest = Some bs ∧
        ∀ a, outside a dest (Z.to_nat len) → m' !! a = m !! a.
Proof.
  intros Hlen Hd Hl Hdest. unfold memcpy. destruct (Z.eqb_spec len 0) as [->|Hne].
  { exists m. split; [done|]. split; [by simpl in *|done]. }
  replace ((dest <? src + len) && (src <? dest + len))%bool with false.
  2: { symmetry. apply andb_false_iff. unfold disjoint_ranges in Hd. rewrite !Z.ltb_ge. lia. }
  rewrite Hl; cbn [access mbind outcome_bind]. pose proof (length_load _ _ _ _ Hl) as Hbs.
  destruct (store_is_Some bs m dest) as [m' Hm]; [by rewrite Hbs|].
  exists m'. rewrite Hm. split; [done|]. rewrite <- Hbs. split.
  - by apply load_store with m.
  - intros a. by apply store_frame.
Qed.

End BytesLemmas.
Import BytesLemmas.

(** C34: [copyBytes] with a length below 2^63 (a longer one passes the signed comparison): copies
    exactly the next [len] bytes of the stream when they are available and otherwise reports
    [OUT_OF_DATA] without any effect.  Source and destination do not overlap. *)
Theorem copyBytes_spec m pos e dest len :
  buffer pos e → 0 ≤ pos → e < 2 ^ 64 → 0 ≤ len < 2 ^ 63 → disjoint_ranges dest pos len →
  (∀ a, pos ≤ a < e → is_Some (m !! a)) → is_Some (load_bytes (Z.to_nat len) m dest) →
  if e - pos <? len then Parsing.copyBytes m pos e dest len = Ret (Parsing.OUT_OF_DATA, pos, m)
  else ∃ m', Parsing.copyBytes m pos e dest len = Ret (Parsing.DONE, pos + len, m') ∧
             load_bytes (Z.to_nat len) m' dest = load_bytes (Z.to_nat len) m pos ∧
             ∀ a, outside a dest (Z.to_nat len) → m' !! a = m !! a.
Proof.
  intros Hb Hp He Hlen Hdis Hbuf Hdest. unfold Parsing.copyBytes.
  rewrite short_of_len_spec by done. destruct (Z.ltb_spec (e - pos) len) as [Hs|Hs]; [done|].
  assert (is_Some (load_bytes (Z.to_nat len) m pos)) as [bs Hbs].
  { apply load_is_Some. intros i Hi. apply Hbuf. lia. }
  destruct (memcpy_ok m dest pos len bs) as (m' & -> & Hl & Hf); [lia|done..|].
  exists m'. cbn [mbind outcome_bind]. rewrite uwrap_small by lia. by rewrite Hbs, Hl.
Qed.

(** The bounds check of [advance] (and of [copyBytes]) converts [len] to a signed type: a
    length of 2^63 or more passes it, whatever is left in the buffer, and moves the position
    backwards. *)
Theorem advance_huge_len pos e len :
  buffer pos e → 0 ≤ pos < 2 ^ 64 → 2 ^ 63 ≤ len < 2 ^ 64 → 2 ^ 64 - len ≤ pos →
  Parsing.advance pos e len = (Parsing.DONE, pos - (2 ^ 64 - len)).
Proof.
  intros Hb Hp Hl Hlp. unfold Parsing.advance. rewrite short_of_len_huge by done. f_equal.
  unfold uwrap. symmetry. apply Z.mod_unique with 1; lia.
Qed.

(** ** [UnitArea]: a bump allocator *)

Module UnitAreaLemmas.
Import UnitArea.

(** The area lies inside the address space and the next position inside the area. *)
Definition area_wf (a : UnitArea) : Prop :=
  0 ≤ this a ∧ 0 ≤ size_ a ∧ contents a + size_ a < 2 ^ 64 ∧
  contents a ≤ nextAllocPos_ a ≤ contents a + size_ a.

Lemma area_space_wf a :
  area_wf a → area_space a = contents a + size_ a - nextAllocPos_ a.
Proof.
  unfold area_wf, area_space, area_size, allocated, contents, sizeof_this. intros.
  rewrite (uwrap_small 64 (nextAllocPos_ a - _)) by lia. rewrite uwrap_small; lia.
Qed.

Lemma allocate_wf n a p a' :
  0 ≤ n → area_wf a → allocate n a = Some (p, a') →
  area_wf a' ∧ this a' = this a ∧ size_ a' = size_ a ∧
  p = nextAllocPos_ a ∧ nextAllocPos_ a' = p + n.
Proof.
  intros Hn Hw. unfold allocate. rewrite area_space_wf by done.
  destruct (Z.ltb_spec (contents a + size_ a - nextAllocPos_ a) n); [done|].
  intros [= <- <-]. unfold area_wf, contents in *; cbn [this nextAllocPos_ size_]. lia.
Qed.

(** Allocating a list of sizes, until one does not fit. *)
Fixpoint allocate_list (sizes : list Z) (a : UnitArea) : list (Z * Z) * UnitArea :=
  match sizes with
  | [] => ([], a)
  | n :: sizes =>
      match allocate n a with
      | None => ([], a)
      | Some (p, a) => let '(bs, a) := allocate_list sizes a in ((p, n) :: bs, a)
      end
  end.

Definition block_in (lo hi : Z) (b : Z * Z) : Prop := lo ≤ b.1 ∧ b.1 + b.2 ≤ hi.
Definition blocks_disjoint (b c : Z * Z) : Prop := b.1 + b.2 ≤ c.1.

Lemma allocate_list_ok sizes a bs a' :
  Forall (λ n, 0 ≤ n) sizes → area_wf a → allocate_list sizes a = (bs, a') →
  area_wf a' ∧ contents a' = contents a ∧ size_ a' = size_ a ∧
  nextAllocPos_ a ≤ nextAllocPos_ a' ∧
  Forall (block_in (nextAllocPos_ a) (nextAllocPos_ a')) bs ∧
  StronglySorted blocks_disjoint bs.
Proof.
  revert a bs a'; induction sizes as [|n sizes IH]; intros a bs a' Hs Hw; simpl.
  { intros [= <- <-]. repeat split; try constructor; apply Hw || done || lia. }
  apply Forall_cons_iff in Hs as [Hn Hs].
  destruct (allocate n a) as [[p a1]|] eqn:Ha.
  2: { intros [= <- <-]. repeat split; try constructor; apply Hw || done || lia. }
  destruct (allocate_wf _ _ _ _ Hn Hw Ha) as (Hw1 & Ht1 & Hsz1 & -> & Hn1).
  destruct (allocate_list sizes a1) as [bs1 a2] eqn:El. intros [= <- <-].
  destruct (IH _ _ _ Hs Hw1 El) as (Hw2 & Hc2 & Hsz2 & Hle & Hin & Hsort).
  split; [done|]. split; [unfold contents in *; lia|]. split; [lia|]. split; [lia|].
  split.
  - constructor; [unfold block_in; simpl; lia|].
    eapply Forall_impl; [|exact Hin]. unfold block_in. intros [q k]; simpl; lia.
  - constructor; [done|]. eapply Forall_impl; [|exact Hin].
    unfold block_in, blocks_disjoint. intros [q k]; simpl; lia.
Qed.

End UnitAreaLemmas.

Section UnitAreaTheorems.
Import UnitArea UnitAreaLemmas.

(** [allocate] on a well-formed area returns the next free block exactly when it fits in
    the remaining space, and keeps the area well-formed. *)
Theorem allocate_spec n a :
  area_wf a → 0 ≤ n →
  if contents a + size_ a - nextAllocPos_ a <? n then allocate n a = None
  else ∃ a', allocate n a = Some (nextAllocPos_ a, a') ∧ area_wf a' ∧
             area_space a' = area_space a - n.
Proof.
  intros Hw Hn. pose proof (area_space_wf a Hw) as Hsp. rewrite <- Hsp.
  destruct (allocate n a) as [[p a']|] eqn:Ha.
  - pose proof Ha as Ha'. unfold allocate in Ha'. destruct (area_space a <? n); [done|].
    destruct (allocate_wf _ _ _ _ Hn Hw Ha) as (Hw' & Ht & Hsz & -> & Hnx).
    exists a'. repeat split; try done; try apply Hw'.
    rewrite (area_space_wf a' Hw'), Hsp. unfold contents. lia.
  - unfold allocate in Ha. by destruct (area_space a <? n).
Qed.

(** C33: All blocks handed out by a sequence of allocations lie inside the area's contents and
    do not overlap. *)
Theorem allocations_disjoint addr bufferSize sizes bs a' :
  0 ≤ addr → 16 ≤ bufferSize → addr + bufferSize < 2 ^ 64 → Forall (λ n, 0 ≤ n) sizes →
  allocate_list sizes (newUnitArea addr bufferSize) = (bs, a') →
  Forall (block_in (addr + 16) (addr + bufferSize)) bs ∧
  StronglySorted blocks_disjoint bs.
Proof.
  intros Ha Hb Hab Hs Hl.
  assert (size_ (newUnitArea addr bufferSize) = bufferSize - 16) as Hsz.
  { simpl. unfold sizeof_this. apply uwrap_small. lia. }
  destruct (allocate_list_ok sizes (newUnitArea addr bufferSize) bs a')
    as (Hw & Hc & Hsz' & _ & Hin & Hsort); [done| |done|].
  { unfold area_wf. rewrite Hsz. unfold contents, sizeof_this; simpl; unfold sizeof_this. lia. }
  split; [|done]. eapply Forall_impl; [|exact Hin].
  destruct Hw as (_ & _ & _ & _ & Hnx). rewrite Hc, Hsz', Hsz in Hnx.
  unfold contents, block_in, newUnitArea, sizeof_this in *; simpl in *. intros [q k]; simpl. lia.
Qed.

(** A buffer smaller than the area's own header makes the size wrap around: the area
    believes it has almost the whole address space, and every small allocation succeeds. *)
Theorem small_buffer_wraps addr bufferSize n :
  0 ≤ bufferSize < 16 → 0 ≤ n < 2 ^ 63 →
  allocate n (newUnitArea addr bufferSize) =
    Some (addr + 16, mkUnitArea addr (addr + 16 + n) (2 ^ 64 - 16 + bufferSize)).
Proof.
  intros Hb Hn. unfold allocate, newUnitArea, area_space, area_size, allocated, contents, sizeof_this.
  cbn [this nextAllocPos_ size_].
  assert (uwrap 64 (bufferSize - 16) = 2 ^ 64 - 16 + bufferSize) as ->.
  { unfold uwrap. symmetry. apply Z.mod_unique with (-1); lia. }
  rewrite Z.sub_diag, (uwrap_small 64 0), Z.sub_0_r, uwrap_small by lia.
  by rewrite (proj2 (Z.ltb_ge _ _)) by lia.
Qed.

(** C35: [allocateCopyBytes] is safe for every 64-bit length: it either reports [OUT_OF_DATA] or
    [AREA_FULL] without effect, or allocates the next block of the area and fills it with the
    next [len] bytes of the stream. *)
Theorem allocateCopyBytes_spec m pos e dest0 len a :
  buffer pos e → 0 ≤ pos → e < 2 ^ 64 → 0 ≤ len < 2 ^ 64 → area_wf a → size_ a < 2 ^ 63 →
  (∀ x, pos ≤ x < e → is_Some (m !! x)) →
  (∀ x, contents a ≤ x < contents a + size_ a → is_Some (m !! x)) →
  e ≤ contents a ∨ contents a + size_ a ≤ pos →
  if (len <? 2 ^ 63) && (e - pos <? len) then
    Parsing.allocateCopyBytes m pos e dest0 len a = Ret (Parsing.OUT_OF_DATA, pos, dest0, a, m)
  else if contents a + size_ a - nextAllocPos_ a <? len then
    Parsing.allocateCopyBytes m pos e dest0 len a = Ret (Parsing.AREA_FULL, pos, dest0, a, m)
  else ∃ a' m',
    Parsing.allocateCopyBytes m pos e dest0 len a
      = Ret (Parsing.DONE, pos + len, nextAllocPos_ a, a', m') ∧
    allocate len a = Some (nextAllocPos_ a, a') ∧
    load_bytes (Z.to_nat len) m' (nextAllocPos_ a) = load_bytes (Z.to_nat len) m pos ∧
    ∀ x, outside x (nextAllocPos_ a) (Z.to_nat len) → m' !! x = m !! x.
Proof.
  intros Hb Hp He Hlen Hw Hsz Hbuf Harea Hdis. unfold Parsing.allocateCopyBytes.
  pose proof (area_space_wf a Hw) as Hsp. destruct (Hw) as (? & ? & ? & ? & ?).
  assert (Parsing.short_of_len len pos e = ((len <? 2 ^ 63) && (e - pos <? len))%bool) as ->.
  { destruct (Z.ltb_spec len (2 ^ 63)); cbn [andb].
    - apply short_of_len_spec; [done|lia].
    - apply short_of_len_huge; [done|lia]. }
  destruct ((len <? 2 ^ 63) && (e - pos <? len))%bool eqn:Hc; [done|].
  destruct (allocate len a) as [[p a']|] eqn:Ha; unfold allocate in Ha; rewrite Hsp in Ha.
  2: { by destruct (contents a + size_ a - nextAllocPos_ a <? len). }
  destruct (Z.ltb_spec (contents a + size_ a - nextAllocPos_ a) len) as [|Hfit]; [done|].
  injection Ha as <- <-.
  assert (len ≤ e - pos).
  { apply andb_false_iff in Hc as [Hc|Hc]; apply Z.ltb_ge in Hc; lia. }
  assert (is_Some (load_bytes (Z.to_nat len) m pos)) as [bs Hbs].
  { apply load_is_Some. intros i Hi. apply Hbuf. lia. }
  destruct (memcpy_ok m (nextAllocPos_ a) pos len bs) as (m' & -> & Hl & Hf); [lia| |done| |].
  { unfold disjoint_ranges. lia. }
  { apply load_is_Some. intros i Hi. apply Harea. lia. }
  eexists _, m'. cbn [mbind outcome_bind]. rewrite uwrap_small by lia. by rewrite Hbs, Hl.
Qed.
End UnitAreaTheorems.

(** ** [ParserState]: a stack of objects in memory *)

Module ParserStateLemmas.
Import ParserState.

(** The state represents a list of frames, the top one first: the bytes between [stack_] and
    [stack_top_] are the frames, the oldest at the bottom. *)
Definition stack_bytes (frames : list (list ascii)) : list ascii := concat (rev frames).

Record stack_rep (s : ParserState) (m : mem) (frames : list (list ascii)) : Prop := {
  rep_bounds : 0 ≤ stack_ s ∧ 0 ≤ stack_size_ s ∧ stack_ s + stack_size_ s < 2 ^ 64;
  rep_top : stack_top_ s = stack_ s + Z.of_nat (length (stack_bytes frames));
  rep_fits : Z.of_nat (length (stack_bytes frames)) ≤ stack_size_ s;
  rep_mapped : ∀ x, stack_ s ≤ x < stack_ s + stack_size_ s → is_Some (m !! x);
  rep_bytes : load_bytes (length (stack_bytes frames)) m (stack_ s) = Some (stack_bytes frames) }.

Lemma stack_bytes_cons f fs : stack_bytes (f :: fs) = stack_bytes fs ++ f.
Proof. unfold stack_bytes. simpl. rewrite concat_app. simpl. by rewrite app_nil_r. Qed.

Lemma stack_space_rep s m fs :
  stack_rep s m fs → stack_space s = stack_size_ s - Z.of_nat (length (stack_bytes fs)).
Proof.
  intros [Hb Ht Hf _ _]. unfold stack_space. rewrite uwrap_small; lia.
Qed.

Lemma has_object_rep s m fs sz :
  stack_rep s m fs → Z.of_nat sz ≤ stack_size_ s →
  has_object sz s = (Z.of_nat sz <=? Z.of_nat (length (stack_bytes fs))).
Proof.
  intros Hr Hs. unfold has_object. rewrite (stack_space_rep _ _ _ Hr).
  destruct Hr as [Hb _ Hf _ _]. rewrite uwrap_small by lia.
  destruct (Z.leb_spec (Z.of_nat sz) (Z.of_nat (length (stack_bytes fs)))).
  - apply Z.leb_le. lia.
  - apply Z.leb_gt. lia.
Qed.

Lemma load_app n k m p l1 l2 :
  length l1 = n → load_bytes (n + k) m p = Some (l1 ++ l2) ↔
  load_bytes n m p = Some l1 ∧ load_bytes k m (p + Z.of_nat n) = Some l2.
Proof.
  revert n p; induction l1 as [|b l1 IH]; intros n p <-; simpl.
  - rewrite Z.add_0_r. naive_solver.
  - destruct (m !! p) as [c|]; simpl; [|naive_solver].
    specialize (IH (length l1) (p + 1) eq_refl).
    replace (p + Z.of_nat (S (length l1))) with (p + 1 + Z.of_nat (length l1)) by lia.
    destruct (load_bytes (length l1 + k) m (p + 1)) as [x|];
      destruct (load_bytes (length l1) m (p + 1)) as [y|]; simpl in *; naive_solver.
Qed.

Lemma push_rep s m fs t :
  stack_rep s m fs →
  Z.of_nat (length (stack_bytes fs)) + Z.of_nat (length t) < stack_size_ s →
  ∃ s' m', push t s m = Ret (s', m') ∧ stack_rep s' m' (t :: fs) ∧
           instruction_ s' = instruction_ s ∧ stream_pos_ s' = stream_pos_ s ∧
           ∀ x, outside x (stack_ s) (Z.to_nat (stack_size_ s)) → m' !! x = m !! x.
Proof.
  intros Hr Hfit. unfold push. rewrite (stack_space_rep _ _ _ Hr).
  destruct (Hr) as [Hb Ht Hf Hm Hl]. rewrite (proj2 (Z.gtb_lt _ _)) by lia.
  destruct (store_is_Some t m (stack_top_ s)) as [m' Hm'].
  { apply load_is_Some. intros i Hi. apply Hm. lia. }
  rewrite Hm'. cbn [access mbind outcome_bind]. eexists _, m'. split; [done|].
  split; [|repeat split; intros x Hx; apply (store_frame _ _ _ _ _ Hm'); unfold outside in *; lia].
  split; simpl; [done|..]; rewrite ?stack_bytes_cons, ?length_app.
  - lia.
  - lia.
  - intros x Hx. apply (store_dom _ _ _ _ Hm'). by apply Hm.
  - apply load_app; [done|]. rewrite <- Ht. split; [|by eapply load_store].
    rewrite (load_store_frame _ _ _ _ _ _ Hm') by lia. done.
Qed.

Lemma popAndGet_rep s m t fs :
  stack_rep s m (t :: fs) →
  ∃ s', popAndGet (length t) s m = Ret (t, s') ∧ stack_rep s' m fs ∧
        instruction_ s' = instruction_ s ∧ stream_pos_ s' = stream_pos_ s.
Proof.
  intros Hr. unfold popAndGet, pop.
  assert (Hlen : length (stack_bytes (t :: fs)) = (length (stack_bytes fs) + length t)%nat).
  { by rewrite stack_bytes_cons, length_app. }
  destruct (Hr) as [Hb Ht Hf Hm Hl]. rewrite Hlen in Hf, Ht.
  rewrite (has_object_rep _ _ _ _ Hr) by lia. rewrite Hlen, (proj2 (Z.leb_le _ _)) by lia.
  cbn [mbind outcome_bind]. rewrite Hlen, stack_bytes_cons in Hl.
  apply load_app in Hl as [Hl1 Hl2]; [|done]. cbn [set_top stack_top_].
  replace (stack_top_ s - Z.of_nat (length t))
    with (stack_ s + Z.of_nat (length (stack_bytes fs))) by lia.
  rewrite Hl2. cbn [access mbind outcome_bind]. eexists. split; [done|].
  split; [|done]. split; simpl; try done; lia.
Qed.

End ParserStateLemmas.

Section ParserStateTheorems.
Import ParserState ParserStateLemmas.

(** C29: Refinement of the abstract stack by [push]: on a state that represents [frames], and
    with at least one byte left over, [push] represents [t :: frames] and changes no memory
    outside the stack. *)
Theorem push_refines s m frames t :
  stack_rep s m frames →
  Z.of_nat (length (stack_bytes frames)) + Z.of_nat (length t) < stack_size_ s →
  ∃ s' m', push t s m = Ret (s', m') ∧ stack_rep s' m' (t :: frames) ∧
           ∀ x, outside x (stack_ s) (Z.to_nat (stack_size_ s)) → m' !! x = m !! x.
Proof.
  intros Hr Hf. destruct (push_rep _ _ _ _ Hr Hf) as (s' & m' & ? & ? & _ & _ & ?). eauto.
Qed.

(** C31: Refinement by [popAndGet]: it returns the top frame and represents the rest; on a stack
    that holds fewer bytes than the object it fails its assertion. *)
Theorem popAndGet_refines s m frames sz :
  stack_rep s m frames → Z.of_nat sz ≤ stack_size_ s →
  match frames with
  | t :: rest =>
      length t = sz → ∃ s', popAndGet sz s m = Ret (t, s') ∧ stack_rep s' m rest
  | [] =>
      (0 < sz)%nat →
      popAndGet sz s m = Abort "assert(space() <= stack_size_ - sizeof(T))"
  end.
Proof.
  intros Hr Hs. destruct frames as [|t rest].
  - intros Hsz. unfold popAndGet, pop. rewrite (has_object_rep _ _ _ _ Hr) by done.
    by rewrite (proj2 (Z.leb_gt _ _)) by (simpl; lia).
  - intros <-. destruct (popAndGet_rep _ _ _ _ Hr) as (s' & ? & ? & _). eauto.
Qed.

(** C32: A call followed by a return: [callInstruction] saves the return address below the new
    instruction, and [returnToInstruction] resumes there with the stack as it was. *)
Theorem call_return s m frames call ret :
  stack_rep s m frames → 0 ≤ ret < 2 ^ 64 →
  Z.of_nat (length (stack_bytes frames)) + 8 < stack_size_ s →
  ∃ s1 m1 s2,
    callInstruction call ret s m = Ret (s1, m1) ∧ instruction s1 = call ∧
    returnToInstruction s1 m1 = Ret s2 ∧ instruction s2 = ret ∧
    stack_rep s2 m1 frames ∧ stream_pos_ s2 = stream_pos_ s.
Proof.
  intros Hr Hret Hf. unfold callInstruction.
  destruct (push_rep s m frames (le_encode 8 ret)) as (s1 & m1 & -> & Hr1 & Hi & Hp & _); [done| |].
  { by rewrite length_le_encode. }
  cbn [mbind outcome_bind]. eexists _, m1. unfold returnToInstruction.
  assert (Hr1' : stack_rep (set_instruction call s1) m1 (le_encode 8 ret :: frames))
    by (destruct Hr1; by split).
  destruct (popAndGet_rep _ _ _ _ Hr1') as (s2 & E & Hr2 & Hi2 & Hp2).
  rewrite length_le_encode in E. rewrite E. cbn [mbind outcome_bind]. eexists.
  split; [done|]. split; [done|]. split; [done|]. split; [|split].
  - unfold instruction, set_instruction. cbn [instruction_]. rewrite le_decode_encode.
    apply uwrap_small. lia.
  - destruct Hr2; by split.
  - simpl. rewrite Hp2. simpl. done.
Qed.
End ParserStateTheorems.

(** [mutable_list::add] appends to the elements as long as there is room, and writes past
    the array otherwise. *)
Theorem mutable_list_add {A} (x : A) (l : DataType.mutable_list A) :
  if (DataType.len_ l <? length (DataType.items_ l))%nat then
    ∃ l', DataType.add x l = Ret l' ∧ DataType.elements l' = DataType.elements l ++ [x] ∧
          length (DataType.items_ l') = length (DataType.items_ l)
  else DataType.add x l = Abort "items_[len_++]".
Proof.
  unfold DataType.add. destruct (Nat.ltb_spec (DataType.len_ l) (length (DataType.items_ l))) as [H|H];
    [|done].
  eexists. split; [done|]. unfold DataType.elements; simpl. split; [|apply length_insert].
  rewrite (take_S_r _ _ x) by (by apply list_lookup_insert_eq).
  f_equal. apply take_insert_ge. lia.
Qed.

(** ** Instances *)

Import UnitAreaLemmas ParserStateLemmas.

(** A memory of 64 bytes, [0, 64). *)
Definition mem64 : mem := list_to_map (map (λ a, (a, chr a)) (seqZ 0 64)).

Lemma mem64_mapped x : 0 ≤ x < 64 → is_Some (mem64 !! x).
Proof.
  intros Hx. exists (chr x). apply elem_of_list_to_map_1'.
  - intros y Hy. apply list_elem_of_fmap in Hy as (z & [= -> ->] & _). done.
  - apply list_elem_of_fmap. exists x. split; [done|]. apply elem_of_seqZ. lia.
Qed.

Definition codec_u16_big : codec :=
  mkCodec uint16_t true Parsing.parseInt16_unsigned_big Serializing.serializeInt16_unsigned_big.

Lemma codec_u16_big_in : codec_u16_big ∈ int_codecs.
Proof. right. left. Qed.

Lemma int_codec_roundtrip_witness :
  ∃ m1 m2,
    c_serialize codec_u16_big mem64 8 20 30 = Ret (Serializing.DONE, 22, m1) ∧
    c_parse codec_u16_big m1 20 30 40 = Ret (Parsing.DONE, 22, m2) ∧
    load_bytes 2 m2 40 = Some [chr 8; chr 9] ∧
    ∀ a, outside a 20 2 → outside a 40 2 → m2 !! a = mem64 !! a.
Proof.
  apply (int_codec_roundtrip codec_u16_big mem64 8 20 30 40 [chr 8; chr 9]).
  - exact codec_u16_big_in.
  - unfold buffer. lia.
  - simpl. lia.
  - vm_compute. reflexivity.
  - vm_compute. eauto.
  - vm_compute. eauto.
Defined.

Lemma int_codec_value_witness :
  ∃ m', c_parse codec_u16_big mem64 20 30 40 = Ret (Parsing.DONE, 22, m') ∧
        read uint16_t m' 40 = Ret (20 * 256 + 21).
Proof.
  apply (int_codec_value codec_u16_big mem64 20 30 40 [chr 20; chr 21]).
  - exact codec_u16_big_in.
  - unfold buffer. lia.
  - simpl. lia.
  - vm_compute. reflexivity.
  - vm_compute. eauto.
Defined.

Lemma int_codec_short_witness :
  c_parse codec_u16_big mem64 20 21 40 = Ret (Parsing.OUT_OF_DATA, 20, mem64) ∧
  c_serialize codec_u16_big mem64 40 20 21 = Ret (Serializing.OUT_BUF_FULL, 20, mem64).
Proof.
  apply (int_codec_short codec_u16_big mem64 20 21 40);
    [exact codec_u16_big_in|unfold buffer; lia|simpl; lia].
Defined.

Lemma copyBytes_spec_witness :
  ∃ m', Parsing.copyBytes mem64 20 30 40 4 = Ret (Parsing.DONE, 24, m') ∧
        load_bytes 4 m' 40 = load_bytes 4 mem64 20 ∧
        ∀ a, outside a 40 4 → m' !! a = mem64 !! a.
Proof.
  apply (copyBytes_spec mem64 20 30 40 4); unfold buffer, disjoint_ranges; try lia.
  - intros a Ha. apply mem64_mapped. lia.
  - vm_compute. eauto.
Defined.

Lemma advance_huge_len_witness : Parsing.advance 100 110 (2 ^ 64 - 1) = (Parsing.DONE, 99).
Proof. apply (advance_huge_len 100 110 (2 ^ 64 - 1)); unfold buffer; lia. Defined.

(** An area of 32 bytes at address 0: 16 bytes of contents. *)
Definition area32 : UnitArea.UnitArea := UnitArea.newUnitArea 0 32.

Lemma allocate_spec_witness :
  ∃ a', UnitArea.allocate 10 area32 = Some (16, a') ∧ area_wf a' ∧
        UnitArea.area_space a' = UnitArea.area_space area32 - 10.
Proof.
  apply (allocate_spec 10 area32); [|lia].
  unfold area_wf. vm_compute. repeat split; discriminate.
Defined.

Lemma allocations_disjoint_witness :
  Forall (block_in 16 32) [(16, 10); (26, 4)] ∧ StronglySorted blocks_disjoint [(16, 10); (26, 4)].
Proof.
  apply (allocations_disjoint 0 32 [10; 4; 9] [(16, 10); (26, 4)] (UnitArea.mkUnitArea 0 30 16)); try lia.
  - repeat constructor; lia.
  - vm_compute. reflexivity.
Defined.

Lemma small_buffer_wraps_witness :
  UnitArea.allocate 1000 (UnitArea.newUnitArea 0 8) =
    Some (16, UnitArea.mkUnitArea 0 1016 (2 ^ 64 - 8)).
Proof. apply (small_buffer_wraps 0 8 1000); lia. Defined.

Lemma allocateCopyBytes_spec_witness :
  ∃ a' m',
    Parsing.allocateCopyBytes mem64 40 50 0 4 area32 = Ret (Parsing.DONE, 44, 16, a', m') ∧
    UnitArea.allocate 4 area32 = Some (16, a') ∧
    load_bytes 4 m' 16 = load_bytes 4 mem64 40 ∧
    ∀ x, outside x 16 4 → m' !! x = mem64 !! x.
Proof.
  apply (allocateCopyBytes_spec mem64 40 50 0 4 area32); unfold buffer; try lia.
  - unfold area_wf. vm_compute. repeat split; discriminate.
  - vm_compute. reflexivity.
  - intros x Hx. apply mem64_mapped. lia.
  - intros x Hx. apply mem64_mapped. change (16 ≤ x < 32) in Hx. lia.
  - right. vm_compute. discriminate.
Defined.

(** A stack of 32 bytes at address 0 that holds one frame. *)
Definition state32 : ParserState.ParserState := ParserState.mkParserState 0 32 2 7 5.

Lemma state32_rep : stack_rep state32 mem64 [[chr 0; chr 1]].
Proof.
  split.
  - vm_compute. repeat split; discriminate.
  - vm_compute. reflexivity.
  - vm_compute. discriminate.
  - intros x Hx. change (0 ≤ x < 32) in Hx. apply mem64_mapped. lia.
  - vm_compute. reflexivity.
Qed.

Lemma push_refines_witness :
  ∃ s' m', ParserState.push [chr 1; chr 2; chr 3] state32 mem64 = Ret (s', m') ∧
           stack_rep s' m' [[chr 1; chr 2; chr 3]; [chr 0; chr 1]] ∧
           ∀ x, outside x 0 32 → m' !! x = mem64 !! x.
Proof.
  apply (push_refines state32 mem64 [[chr 0; chr 1]] [chr 1; chr 2; chr 3]);
    [exact state32_rep|simpl; lia].
Defined.

Lemma popAndGet_refines_witness :
  ∃ s', ParserState.popAndGet 2 state32 mem64 = Ret ([chr 0; chr 1], s') ∧ stack_rep s' mem64 [].
Proof.
  apply (popAndGet_refines state32 mem64 [[chr 0; chr 1]] 2);
    [exact state32_rep|simpl; lia|reflexivity].
Defined.

Lemma call_return_witness :
  ∃ s1 m1 s2,
    ParserState.callInstruction 100 200 state32 mem64 = Ret (s1, m1) ∧
    ParserState.instruction s1 = 100 ∧
    ParserState.returnToInstruction s1 m1 = Ret s2 ∧ ParserState.instruction s2 = 200 ∧
    stack_rep s2 m1 [[chr 0; chr 1]] ∧
    ParserState.stream_pos_ s2 = ParserState.stream_pos_ state32.
Proof.
  apply (call_return state32 mem64 [[chr 0; chr 1]] 100 200);
    [exact state32_rep|lia|simpl; lia].
Defined.
