(* ===== verification/Graph.v ===== *)
(** * The AST graph ([src/src/spec/ast/node.h], [node.cpp]) and its visitors ([visitor.h])

    A [node_ptr] is a handle of a shared cell ([std::shared_ptr<ptr>]), and a cell holds a
    pointer to a node or null: copying a [node_ptr] shares the cell, so replacing the node of
    a cell is seen through every copy.  Module [Node] has the heap of cells and nodes with the
    operations on [node_ptr] and [Node], module [Visitor] the visitor protocol with an
    arbitrary [accept] method. *)

From S2P Require Import Prelude Util.

(** ** Nodes and node pointers *)

Module Node.

Abbreviation cell := nat.
Abbreviation node := nat.

(** What [Node] stores: the children and [node_ptr__], the weak reference to the cell of the
    [node_ptr] the node was created with; [klass] is the dynamic type. *)
Record obj := mkObj {
  klass : string;
  children_ : list cell;
  node_ptr__ : option cell }.

Record heap := mkHeap {
  cells : gmap cell (option node);
  objs : gmap node obj }.

Definition set_obj (n : node) (o : obj) (h : heap) : heap := mkHeap (cells h) (<[n := o]> (objs h)).
Definition set_cell (c : cell) (p : option node) (h : heap) : heap :=
  mkHeap (<[c := p]> (cells h)) (objs h).
Definition set_ref (r : option cell) (o : obj) : obj := mkObj (klass o) (children_ o) r.
Definition set_children (l : list cell) (o : obj) : obj := mkObj (klass o) l (node_ptr__ o).

(** [get]: the node of the cell, null for [None]; a dangling cell is impossible in the code. *)
Definition get (h : heap) (c : cell) : option node := mjoin (cells h !! c).
Definition deref (h : heap) (c : cell) : outcome (node * obj) :=
  match get h c with
  | None => Abort "null node_ptr"
  | Some n => match objs h !! n with Some o => Ret (n, o) | None => Abort "dangling node" end
  end.

Definition setNodePtrRef (h : heap) (c : cell) : outcome heap :=
  '(n, o) ← deref h c; Ret (set_obj n (set_ref (Some c) o) h).
Definition clearNodePtrRef (h : heap) (c : cell) : outcome heap :=
  '(n, o) ← deref h c; Ret (set_obj n (set_ref None o) h).

(** [node_ptr(std::shared_ptr<S>)], also called by [newNodePtr]: a fresh cell. *)
Definition newNodePtr (h : heap) (n : node) : outcome (cell * heap) :=
  let c := fresh (dom (cells h)) in
  h ← setNodePtrRef (set_cell c (Some n) h) c;
  Ret (c, h).

(** [operator=(const std::shared_ptr<S>&)]. *)
Definition assign_shared (h : heap) (c : cell) (n : node) : outcome heap :=
  h ← clearNodePtrRef h c;
  setNodePtrRef (set_cell c (Some n) h) c.

(** [replace]. *)
Definition replace (h : heap) (c other : cell) : outcome heap :=
  h ← clearNodePtrRef h c;
  Ret (set_cell c (get h other) h).

(** [operator==] on two [node_ptr] of the same type compares the nodes. *)
Definition ptr_eq (h : heap) (c d : cell) : bool := bool_decide (get h c = get h d).

(** [nodePtr<T>()]: a [node_ptr] that shares the recorded cell. *)
Definition nodePtr (h : heap) (n : node) : outcome cell :=
  match objs h !! n ≫= node_ptr__ with
  | Some c => match get h c with Some _ => Ret c | None => Abort "assert(p)" end
  | None => Abort "no node_ptr associated with node"
  end.

(** [isA], [tryCast], [checkedCast]; [derives k t] is C++'s [dynamic_cast] relation. *)
Definition isA (derives : string → string → bool) (h : heap) (t : string) (c : cell) : bool :=
  match get h c ≫= λ n, objs h !! n with Some o => derives (klass o) t | None => false end.
Definition tryCast (derives : string → string → bool) (h : heap) (t : string) (c : cell)
    : option cell :=
  if isA derives h t c then Some c else None.
Definition checkedCast (derives : string → string → bool) (h : heap) (t : string) (c : cell)
    : outcome cell :=
  if isA derives h t c then Ret c else Abort "ast::checkedCast() failed".

(** [addChild]: the loop compares the address of the by-value parameter with the addresses of
    the list's elements, which are never equal. *)
Definition addChild (h : heap) (this : node) (c : cell) : outcome heap :=
  match get h c with
  | None => Ret h
  | Some _ =>
      match objs h !! this with
      | Some o => Ret (set_obj this (set_children (children_ o ++ [c]) o) h)
      | None => Abort "dangling node"
      end
  end.

(** [removeChild]: erases the first child with the same node, until there is none. *)
Fixpoint erase_first (h : heap) (n : option node) (l : list cell) : option (list cell) :=
  match l with
  | [] => None
  | c :: l =>
      if bool_decide (get h c = n) then Some l
      else l ← erase_first h n l; Some (c :: l)
  end.
Fixpoint removeChild_loop (fuel : nat) (h : heap) (n : option node) (l : list cell)
    : option (list cell) :=
  match fuel with
  | O => None
  | S fuel =>
      match erase_first h n l with
      | None => Some l
      | Some l => removeChild_loop fuel h n l
      end
  end.
Definition removeChild (h : heap) (this : node) (c : cell) : outcome heap :=
  match get h c with
  | None => Ret h
  | Some n =>
      match objs h !! this with
      | None => Abort "dangling node"
      | Some o =>
          match removeChild_loop (S (length (children_ o))) h (Some n) (children_ o) with
          | None => NoFuel
          | Some l => Ret (set_obj this (set_children l o) h)
          end
      end
  end.

(** The child nodes of a node. *)
Definition kids (h : heap) (n : node) : list node :=
  match objs h !! n with
  | Some o => omap (get h) (children_ o)
  | None => []
  end.

(** [hasChildInternal]: [done] is the set of nodes seen; fuel bounds the depth. *)
Fixpoint hasChildInternal (fuel : nat) (ch : node → list node) (this : node) (target : node)
    (recursive : bool) (done : gset node) : option (bool * gset node) :=
  match fuel with
  | O => None
  | S fuel =>
      (fix loop (l : list node) (done : gset node) : option (bool * gset node) :=
         match l with
         | [] => Some (false, done)
         | c :: l =>
             if decide (c ∈ done) then loop l done
             else
               let done := {[c]} ∪ done in
               if bool_decide (c = target) then Some (true, done)
               else if recursive then
                 '(b, done) ← hasChildInternal fuel ch c target true done;
                 if (b : bool) then Some (true, done) else loop l done
               else loop l done
         end) (ch this) done
  end.
Definition hasChild (fuel : nat) (h : heap) (this target : node) (recursive : bool)
    : option bool :=
  fst <$> hasChildInternal fuel (kids h) this target recursive ∅.

(** [childrenInternal]: collects the nodes below [this]. *)
Fixpoint childrenInternal (fuel : nat) (ch : node → list node) (this : node)
    (children : gset node) : option (gset node) :=
  match fuel with
  | O => None
  | S fuel =>
      (fix loop (l : list node) (children : gset node) : option (gset node) :=
         match l with
         | [] => Some children
         | c :: l =>
             if decide (c ∈ children) then loop l children
             else
               children ← childrenInternal fuel ch c ({[c]} ∪ children);
               loop l children
         end) (ch this) children
  end.

End Node.
Import Node.

(** ** The visitor protocol *)

Module Visitor.

(** [pantheios] severities: a smaller number is more severe. *)
Inductive severity := emergency | alert | critical | error | warning | notice | informational | debug.
Definition severity_level (s : severity) : Z :=
  match s with
  | emergency => 0 | alert => 1 | critical => 2 | error => 3
  | warning => 4 | notice => 5 | informational => 6 | debug => 7
  end.

Section Protocol.
  Context {Result Arg1 Arg2 : Type} (Result0 : Result).

Record SavedArgs := mkSavedArgs {
  arg1 : Arg1; arg2 : Arg2;
  result_set : bool; default_set : bool;
  result : Result; default_ : Result }.

(** [_args] groups the six members [saveArgs] copies; [_accepted] is a history of the nodes
    whose [accept] ran. *)
Record VisitorState := mkVisitorState {
  _args : SavedArgs;
  _current : list node;
  _level : Z;
  _visited : gset node;
  _saved_args : list SavedArgs;
  errors_ : Z;
  _accepted : list node }.

Definition set_args (a : SavedArgs) (s : VisitorState) : VisitorState :=
  mkVisitorState a (_current s) (_level s) (_visited s) (_saved_args s) (errors_ s) (_accepted s).
Definition set_saved (l : list SavedArgs) (s : VisitorState) : VisitorState :=
  mkVisitorState (_args s) (_current s) (_level s) (_visited s) l (errors_ s) (_accepted s).
Definition set_visited (v : gset node) (s : VisitorState) : VisitorState :=
  mkVisitorState (_args s) (_current s) (_level s) v (_saved_args s) (errors_ s) (_accepted s).
Definition set_errors (e : Z) (s : VisitorState) : VisitorState :=
  mkVisitorState (_args s) (_current s) (_level s) (_visited s) (_saved_args s) e (_accepted s).
Definition set_accepted (l : list node) (s : VisitorState) : VisitorState :=
  mkVisitorState (_args s) (_current s) (_level s) (_visited s) (_saved_args s) (errors_ s) l.

(** A visit method returns, throws [LogEmergency] (the state survives), aborts, or has not
    finished within the fuel. *)
Inductive vout (A : Type) :=
  | VRet (a : A) (s : VisitorState)
  | VThrow (s : VisitorState)
  | VAbort
  | VNoFuel.
Arguments VRet {A} _ _.
Arguments VThrow {A} _.
Arguments VAbort {A}.
Arguments VNoFuel {A}.

Definition vbind {A B} (m : vout A) (f : A → VisitorState → vout B) : vout B :=
  match m with
  | VRet a s => f a s
  | VThrow s => VThrow s
  | VAbort => VAbort
  | VNoFuel => VNoFuel
  end.

Definition pushCurrent (n : node) (s : VisitorState) : VisitorState :=
  mkVisitorState (_args s) (_current s ++ [n]) (_level s + 1) (_visited s) (_saved_args s)
    (errors_ s) (_accepted s).
Definition popCurrent (s : VisitorState) : VisitorState :=
  mkVisitorState (_args s) (take (length (_current s) - 1) (_current s)) (_level s - 1)
    (_visited s) (_saved_args s) (errors_ s) (_accepted s).

(** [log]: counts an error, and throws on an emergency. *)
Definition log (level : severity) (s : VisitorState) : vout unit :=
  if (severity_level level <=? severity_level error)%Z then
    let s := set_errors (errors_ s + 1) s in
    if (severity_level level <=? severity_level emergency)%Z then VThrow s else VRet tt s
  else VRet tt s.

Definition errors (s : VisitorState) : Z := errors_ s.
Definition reset (s : VisitorState) : VisitorState := set_errors 0 (set_visited ∅ s).

Definition setArg1 (a : Arg1) (s : VisitorState) : VisitorState :=
  let x := _args s in
  set_args (mkSavedArgs a (arg2 x) (result_set x) (default_set x) (result x) (default_ x)) s.
Definition setArg2 (a : Arg2) (s : VisitorState) : VisitorState :=
  let x := _args s in
  set_args (mkSavedArgs (arg1 x) a (result_set x) (default_set x) (result x) (default_ x)) s.
Definition setResult (r : Result) (s : VisitorState) : VisitorState :=
  let x := _args s in
  set_args (mkSavedArgs (arg1 x) (arg2 x) true (default_set x) r (default_ x)) s.
Definition clearResult (s : VisitorState) : VisitorState :=
  let x := _args s in
  set_args (mkSavedArgs (arg1 x) (arg2 x) false (default_set x) Result0 (default_ x)) s.
Definition unset_result (s : VisitorState) : VisitorState :=
  let x := _args s in
  set_args (mkSavedArgs (arg1 x) (arg2 x) false (default_set x) (result x) (default_ x)) s.
Definition setDefaultResult (d : Result) (s : VisitorState) : VisitorState :=
  let x := _args s in
  set_args (mkSavedArgs (arg1 x) (arg2 x) (result_set x) true (result x) d) s.
Definition getResult (s : VisitorState) : Result :=
  if result_set (_args s) then result (_args s) else Result0.

Definition saveArgs (s : VisitorState) : VisitorState :=
  set_saved (_saved_args s ++ [_args s]) s.
Definition restoreArgs (s : VisitorState) : VisitorState :=
  match _saved_args s !! (length (_saved_args s) - 1) with
  | Some a => set_saved (take (length (_saved_args s) - 1) (_saved_args s)) (set_args a s)
  | None => s
  end.

(** [node->accept(this, node)]: an arbitrary method of the derived visitor. *)
Context (accept : node → VisitorState → vout unit).

Definition do_accept (n : node) (s : VisitorState) : vout unit :=
  accept n (set_accepted (_accepted s ++ [n]) s).

Definition call (n : node) (s : VisitorState) : vout unit :=
  vbind (do_accept n (pushCurrent n s)) (λ _ s, VRet tt (popCurrent s)).

Definition processOneInternal (n : node) (s : VisitorState) : vout bool :=
  match call n (reset s) with
  | VRet _ s => VRet (errors s =? 0)%Z s
  | VThrow s => VRet false s
  | VAbort => VAbort
  | VNoFuel => VNoFuel
  end.

(** With a result: [None] is a result left untouched by an emergency. *)
Definition processOneInternal_result (n : node) (s : VisitorState) : vout (bool * option Result) :=
  match call n (unset_result (reset s)) with
  | VRet _ s =>
      if result_set (_args s) then VRet (true, Some (result (_args s))) s
      else if default_set (_args s) then VRet (true, Some (default_ (_args s))) s
      else VAbort
  | VThrow s => VRet (false, None) s
  | VAbort => VAbort
  | VNoFuel => VNoFuel
  end.

(** The overloads of [processOne]: [a1] and [a2] are the arguments given, if any. *)
Definition set_opt_args (a1 : option Arg1) (a2 : option Arg2) (s : VisitorState) : VisitorState :=
  let s := match a1 with Some a => setArg1 a s | None => s end in
  match a2 with Some a => setArg2 a s | None => s end.
Definition processOne (n : node) (a1 : option Arg1) (a2 : option Arg2) (s : VisitorState)
    : vout bool :=
  vbind (processOneInternal n (set_opt_args a1 a2 (saveArgs s)))
    (λ b s, VRet b (restoreArgs s)).
Definition processOne_result (n : node) (a1 : option Arg1) (a2 : option Arg2) (s : VisitorState)
    : vout (bool * option Result) :=
  vbind (processOneInternal_result n (set_opt_args a1 a2 (saveArgs s)))
    (λ b s, VRet b (restoreArgs s)).

(** The traversals, over the graph of child nodes [ch]; fuel bounds the depth.  The recursive
    calls do not pass [reverse] on. *)
Context (ch : node → list node).

Definition vloop (f : node → VisitorState → vout unit) : list node → VisitorState → vout unit :=
  fix loop l s :=
    match l with
    | [] => VRet tt s
    | c :: l => vbind (f c s) (λ _ s, loop l s)
    end.

Fixpoint preOrder (fuel : nat) (reverse : bool) (n : node) (s : VisitorState) : vout unit :=
  if decide (n ∈ _visited s) then VRet tt s else
  match fuel with
  | O => VNoFuel
  | S fuel =>
      let s := pushCurrent n (set_visited ({[n]} ∪ _visited s) s) in
      vbind (do_accept n s) (λ _ s,
      vbind (vloop (preOrder fuel false) (if reverse then rev (ch n) else ch n) s) (λ _ s,
      VRet tt (popCurrent s)))
  end.

Fixpoint postOrder (fuel : nat) (reverse : bool) (n : node) (s : VisitorState) : vout unit :=
  if decide (n ∈ _visited s) then VRet tt s else
  match fuel with
  | O => VNoFuel
  | S fuel =>
      let s := pushCurrent n (set_visited ({[n]} ∪ _visited s) s) in
      vbind (vloop (postOrder fuel false) (if reverse then rev (ch n) else ch n) s) (λ _ s,
      vbind (do_accept n s) (λ _ s,
      VRet tt (popCurrent s)))
  end.

Definition processAll (order : nat → bool → node → VisitorState → vout unit)
    (fuel : nat) (n : node) (reverse : bool) (s : VisitorState) : vout bool :=
  match order fuel reverse n (reset s) with
  | VRet _ s => VRet (errors s =? 0)%Z s
  | VThrow s => VRet false s
  | VAbort => VAbort
  | VNoFuel => VNoFuel
  end.
Definition processAllPreOrder := processAll preOrder.
Definition processAllPostOrder := processAll postOrder.

End Protocol.

Arguments VRet {Result Arg1 Arg2 A} _ _.
Arguments VThrow {Result Arg1 Arg2 A} _.
Arguments VAbort {Result Arg1 Arg2 A}.
Arguments VNoFuel {Result Arg1 Arg2 A}.

End Visitor.

(** ** Child lists and node replacement *)

Module NodeLemmas.

Lemma erase_first_Some h n l l' :
  erase_first h n l = Some l' →
  length l = S (length l') ∧
  filter (λ c, get h c ≠ n) l' = filter (λ c, get h c ≠ n) l.
Proof.
  revert l'; induction l as [|c l IH]; intros l'; simpl; [done|].
  case_bool_decide as Hc.
  - intros [= <-]. split; [done|]. rewrite filter_cons_False; [done|]. by intros ?.
  - destruct (erase_first h n l) as [l1|]; [|done]. intros [= <-]. simpl.
    destruct (IH l1 eq_refl) as [-> Hf]. split; [done|].
    rewrite !filter_cons_True by done. by rewrite Hf.
Qed.

Lemma erase_first_None h n l :
  erase_first h n l = None → filter (λ c, get h c ≠ n) l = l.
Proof.
  induction l as [|c l IH]; simpl; [done|]. case_bool_decide as Hc; [done|].
  destruct (erase_first h n l); [done|]. intros _. rewrite filter_cons_True by done.
  by rewrite IH.
Qed.

Lemma removeChild_loop_filter fuel h n l :
  length l < fuel → removeChild_loop fuel h n l = Some (filter (λ c, get h c ≠ n) l).
Proof.
  revert l; induction fuel as [|fuel IH]; intros l Hl; [lia|]. cbn [removeChild_loop].
  destruct (erase_first h n l) as [l'|] eqn:He.
  - apply erase_first_Some in He as [Hlen Hf]. rewrite IH by lia. by rewrite Hf.
  - by rewrite erase_first_None.
Qed.

End NodeLemmas.
Import NodeLemmas.

(** [removeChild] terminates and removes exactly the children that point to the same node,
    keeping the order of the others. *)
Theorem removeChild_filters h this c n o :
  get h c = Some n → objs h !! this = Some o →
  removeChild h this c =
    Ret (set_obj this (set_children (filter (λ d, get h d ≠ Some n) (children_ o)) o) h).
Proof.
  intros Hc Ho. unfold removeChild. rewrite Hc, Ho, removeChild_loop_filter by lia. done.
Qed.

(** [replace] is seen through every copy of the pointer: whatever node holds the cell among
    its children now has the other pointer's node there, and all other cells keep theirs. *)
Theorem replace_visible h c other n o :
  get h c = Some n → objs h !! n = Some o →
  ∃ h', replace h c other = Ret h' ∧ get h' c = get h other ∧
        (∀ d, d ≠ c → get h' d = get h d) ∧
        (∀ m, (children_ <$> objs h' !! m) = (children_ <$> objs h !! m)).
Proof.
  intros Hc Ho. unfold replace, clearNodePtrRef, deref. rewrite Hc, Ho.
  cbn [mbind outcome_bind]. eexists. split; [done|]. unfold get; simpl. repeat split.
  - by rewrite lookup_insert_eq.
  - intros d Hd. by rewrite lookup_insert_ne.
  - intros m. destruct (decide (n = m)) as [->|]; [|by rewrite lookup_insert_ne].
    by rewrite lookup_insert_eq, Ho.
Qed.

(** ** Depth-first searches *)

Section Search.
  Context (ch : node → list node) (U : gset node).

(** The edges of the graph, and a finite set of nodes closed under them. *)
Definition edge (x y : node) : Prop := y ∈ ch x.
Definition closed : Prop := ∀ x y, x ∈ U → edge x y → y ∈ U.
Lemma size_shrinks V c : c ∈ U → c ∉ V → size (U ∖ ({[c]} ∪ V)) < size (U ∖ V).
Proof using Type. clear ch. intros Hc HV. apply subset_size. set_solver. Qed.

Lemma size_explored V V1 c : c ∈ U → c ∉ V → {[c]} ∪ V ⊆ V1 → size (U ∖ V1) < size (U ∖ V).
Proof using Type. clear ch. intros Hc HV HV1. apply subset_size. set_solver. Qed.

(** What one search step guarantees: [V'] extends [V] inside [U] with nodes reached from [n],
    and the new nodes have all their successors in [V']. *)
Record explored (n : node) (V V' : gset node) : Prop := {
  ex_incl : V ⊆ V';
  ex_bound : V' ⊆ U;
  ex_closed x y : x ∈ V' → x ∉ V → edge x y → y ∈ V';
  ex_reach x : x ∈ V' → x ∉ V → tc edge n x }.

Lemma explored_refl n V : V ⊆ U → explored n V V.
Proof using Type. split; set_solver. Qed.

Lemma explored_trans n V V1 V2 : explored n V V1 → explored n V1 V2 → explored n V V2.
Proof using Type.
  intros [? ? ? ?] [? ? ? ?]. split.
  - set_solver.
  - done.
  - intros x y ? ? ?. destruct (decide (x ∈ V1)); eauto.
  - intros x ? ?. destruct (decide (x ∈ V1)); eauto.
Qed.

(** Visiting the unvisited child [c] of [n] and everything below it. *)
Lemma explored_child n c V V' :
  edge n c → c ∈ U → explored c ({[c]} ∪ V) V' → (∀ y, edge c y → y ∈ V') → explored n V V'.
Proof using Type.
  intros Hnc Hc [H1 H2 H3 H4] Hsucc. split.
  - set_solver.
  - done.
  - intros x y Hx HxV Hxy. destruct (decide (x = c)) as [->|]; [by apply Hsucc|].
    apply (H3 x); [done|set_solver|done].
  - intros x Hx HxV. destruct (decide (x = c)) as [->|]; [by apply tc_once|].
    apply tc_l with c; [done|]. apply H4; [done|set_solver].
Qed.

(** A set that contains the successors of [n] and is closed contains what is reachable. *)
Lemma tc_closed (P : node → Prop) n x :
  (∀ y, edge n y → P y) → (∀ y z, P y → edge y z → P z) → tc edge n x → P x.
Proof using Type.
  intros Hn Hc Ht. revert Hn. induction Ht as [x y Hxy|x y z Hxy _ IH]; intros Hn; [by apply Hn|].
  apply IH. intros w Hw. apply (Hc y); [by apply Hn|done].
Qed.

Context (HU : closed).

Lemma childrenInternal_explores fuel n V :
  n ∈ U → V ⊆ U → size (U ∖ V) < fuel →
  ∃ V', childrenInternal fuel ch n V = Some V' ∧ explored n V V' ∧ ∀ y, edge n y → y ∈ V'.
Proof using HU.
  revert n V; induction fuel as [|fuel IH]; intros n V Hn HV Hf; [lia|]. cbn [childrenInternal].
  assert (Hl : ∀ y, y ∈ ch n → y ∈ U ∧ edge n y) by (intros y Hy; split; [by apply (HU n)|done]).
  unfold edge at 1. revert V HV Hf Hl.
  generalize (ch n) as l. induction l as [|c l IHl]; intros V HV Hf Hl.
  { exists V. split; [done|]. split; [by apply explored_refl|]. intros y Hy. by apply list_elem_of_In in Hy. }
  destruct (Hl c) as [HcU Hnc]; [by left|].
  case_decide as Hc.
  - destruct (IHl V HV Hf) as (V' & E & Hex & Hall); [by intros; apply Hl; right|].
    exists V'. split; [done|]. split; [done|].
    intros y [->|Hy]%elem_of_cons; [|auto]. by apply (ex_incl _ _ _ Hex).
  - destruct (IH c ({[c]} ∪ V)) as (V1 & E1 & Hex1 & Hall1); [done|set_solver| |].
    { pose proof (size_shrinks V c HcU Hc). lia. }
    rewrite E1. cbn [mbind option_bind].
    pose proof (explored_child n c V V1 Hnc HcU Hex1 Hall1) as HexV1.
    destruct (IHl V1) as (V' & E & Hex & Hall).
    { apply (ex_bound _ _ _ HexV1). }
    { pose proof (size_explored V V1 c HcU Hc (ex_incl _ _ _ Hex1)). lia. }
    { by intros; apply Hl; right. }
    exists V'. split; [done|]. split; [by eapply explored_trans|].
    intros y [->|Hy]%elem_of_cons; [|auto].
    apply (ex_incl _ _ _ Hex), (ex_incl _ _ _ Hex1). set_solver.
Qed.

Lemma hasChildInternal_explores fuel n t V :
  n ∈ U → V ⊆ U → size (U ∖ V) < fuel →
  ∃ b V', hasChildInternal fuel ch n t true V = Some (b, V') ∧
          if b then tc edge n t
          else explored n V V' ∧ (∀ y, edge n y → y ∈ V') ∧ (t ∈ V' → t ∈ V).
Proof using HU.
  revert n V; induction fuel as [|fuel IH]; intros n V Hn HV Hf; [lia|]. cbn [hasChildInternal].
  assert (Hl : ∀ y, y ∈ ch n → y ∈ U ∧ edge n y) by (intros y Hy; split; [by apply (HU n)|done]).
  unfold edge at 2. revert V HV Hf Hl.
  generalize (ch n) as l. induction l as [|c l IHl]; intros V HV Hf Hl.
  { exists false, V. split; [done|]. split; [by apply explored_refl|].
    split; [|done]. intros y Hy. by apply list_elem_of_In in Hy. }
  destruct (Hl c) as [HcU Hnc]; [by left|].
  case_decide as Hc.
  - destruct (IHl V HV Hf) as (b & V' & E & Hb); [by intros; apply Hl; right|].
    exists b, V'. split; [done|]. destruct b; [done|]. destruct Hb as (Hex & Hall & Ht).
    split; [done|]. split; [|done].
    intros y [->|Hy]%elem_of_cons; [|auto]. by apply (ex_incl _ _ _ Hex).
  - case_bool_decide as Hct.
    { subst c. eexists true, _. split; [done|]. by apply tc_once. }
    destruct (IH c ({[c]} ∪ V)) as (b1 & V1 & E1 & Hb1); [done|set_solver| |].
    { pose proof (size_shrinks V c HcU Hc). lia. }
    rewrite E1. cbn [mbind option_bind]. destruct b1.
    { eexists true, _. split; [done|]. by apply tc_l with c. }
    destruct Hb1 as (Hex1 & Hall1 & Ht1).
    pose proof (explored_child n c V V1 Hnc HcU Hex1 Hall1) as HexV1.
    destruct (IHl V1) as (b & V' & E & Hb).
    { apply (ex_bound _ _ _ HexV1). }
    { pose proof (size_explored V V1 c HcU Hc (ex_incl _ _ _ Hex1)). lia. }
    { by intros; apply Hl; right. }
    exists b, V'. split; [done|]. destruct b; [done|]. destruct Hb as (Hex & Hall & Ht).
    split; [by eapply explored_trans|]. split.
    + intros y [->|Hy]%elem_of_cons; [|auto].
      apply (ex_incl _ _ _ Hex), (ex_incl _ _ _ Hex1). set_solver.
    + intros Hin. apply Ht, Ht1 in Hin. set_solver.
Qed.
End Search.

(** The graph of a heap: it lives on the set of its nodes. *)
Definition heap_closed (h : heap) : Prop := closed (kids h) (dom (objs h)).
Definition heap_edge (h : heap) : node → node → Prop := edge (kids h).

(** [hasChild] with [recursive] set terminates on every AST graph, cyclic ones included, and
    decides whether the target can be reached through one or more child links. *)
Theorem hasChild_reachable h this target :
  heap_closed h → this ∈ dom (objs h) →
  ∃ b, hasChild (S (size (dom (objs h)))) h this target true = Some b ∧
       (b = true ↔ tc (heap_edge h) this target).
Proof.
  intros Hc Ht. unfold hasChild.
  edestruct (hasChildInternal_explores (kids h) (dom (objs h)) Hc) as (b & V' & -> & Hb);
    [exact Ht|apply empty_subseteq| |].
  { rewrite difference_empty_L. apply Nat.lt_succ_diag_r. }
  exists b. split; [done|]. destruct b; [done|]. split; [done|]. intros Htc.
  destruct Hb as (Hex & Hsucc & Htgt).
  exfalso. apply (not_elem_of_empty (C := gset node) target), Htgt.
  revert Htc. apply (tc_closed (kids h) (λ x, x ∈ V')); [done|]. intros y z Hy. by apply (ex_closed _ _ _ _ _ Hex).
Qed.

(** [children] with [recursive] set terminates and collects exactly the nodes reachable
    through one or more child links. *)
Theorem children_reachable h this :
  heap_closed h → this ∈ dom (objs h) →
  ∃ V, childrenInternal (S (size (dom (objs h)))) (kids h) this ∅ = Some V ∧
       ∀ x, x ∈ V ↔ tc (heap_edge h) this x.
Proof.
  intros Hc Ht.
  edestruct (childrenInternal_explores (kids h) (dom (objs h)) Hc) as (V & -> & Hex & Hsucc);
    [exact Ht|apply empty_subseteq| |].
  { rewrite difference_empty_L. apply Nat.lt_succ_diag_r. }
  exists V. split; [done|]. intros x. split.
  - intros Hx. by apply (ex_reach _ _ _ _ _ Hex).
  - apply (tc_closed (kids h) (λ x, x ∈ V)); [done|]. intros y z Hy. by apply (ex_closed _ _ _ _ _ Hex).
Qed.

(** ** Traversals *)

Section Traversal.
  Import Visitor.
  Context {Result Arg1 Arg2 : Type} (ch : node → list node) (U : gset node).
  Abbreviation state := (@VisitorState Result Arg1 Arg2).
  Abbreviation out := (@vout Result Arg1 Arg2 unit).

(** What a traversal of the nodes [l] does: it accepts each newly visited node once, reaches
    only nodes below [l], and leaves no successor of a new node unvisited. *)
Record traversed (l : list node) (s s' : state) : Prop := {
  tr_log : ∃ tr, _accepted s' = _accepted s ++ tr ∧ NoDup tr ∧
                 ∀ x, x ∈ tr ↔ x ∈ _visited s' ∧ x ∉ _visited s;
  tr_incl : _visited s ⊆ _visited s';
  tr_bound : _visited s' ⊆ U;
  tr_all x : x ∈ l → x ∈ _visited s';
  tr_closed x y : x ∈ _visited s' → x ∉ _visited s → edge ch x y → y ∈ _visited s';
  tr_reach x : x ∈ _visited s' → x ∉ _visited s → ∃ r, r ∈ l ∧ rtc (edge ch) r x;
  tr_stack : _current s' = _current s ∧ _level s' = _level s }.

Lemma traversed_nil s : _visited s ⊆ U → traversed [] s s.
Proof using Type.
  intros HU. split; try done; try set_solver.
  exists []. split; [by rewrite app_nil_r|]. split; [constructor|]. set_solver.
Qed.

Lemma traversed_cons n l s s1 s2 :
  traversed [n] s s1 → traversed l s1 s2 → traversed (n :: l) s s2.
Proof using Type.
  intros [(t1 & L1 & N1 & I1) ? ? A1 C1 R1 [S1 S1']] [(t2 & L2 & N2 & I2) ? ? A2 C2 R2 [S2 S2']].
  split.
  - exists (t1 ++ t2). rewrite L2, L1, app_assoc. split; [done|]. split.
    + apply list.NoDup_app. split; [done|]. split; [|done]. intros x H1 H2.
      apply I1 in H1. apply I2 in H2. naive_solver.
    + intros x. rewrite elem_of_app, I1, I2. destruct (decide (x ∈ _visited s1)); set_solver.
  - set_solver.
  - done.
  - intros x [->|Hx]%elem_of_cons; [|auto]. assert (n ∈ _visited s1) by (apply A1; by left). set_solver.
  - intros x y Hx HxV Hxy. destruct (decide (x ∈ _visited s1)) as [H1|H1]; [|by eapply C2].
    assert (y ∈ _visited s1) by (by eapply C1). set_solver.
  - intros x Hx HxV. destruct (decide (x ∈ _visited s1)) as [H1|H1].
    + destruct (R1 x H1 HxV) as (r & Hr & ?). exists r. split; [|done]. set_solver.
    + destruct (R2 x Hx H1) as (r & Hr & ?). exists r. split; [|done]. set_solver.
  - by rewrite S2, S2', S1, S1'.
Qed.

Lemma traversed_skip n s : n ∈ _visited s → _visited s ⊆ U → traversed [n] s s.
Proof using Type.
  intros Hn HU. split; try done.
  - exists []. split; [by rewrite app_nil_r|]. split; [constructor|]. set_solver.
  - by intros x ->%list_elem_of_singleton.
Qed.

(** A traversal that starts with nothing visited accepts what is reachable, once. *)
Lemma traversed_all n (s s' : state) :
  _visited s = ∅ → traversed [n] s s' →
  ∃ tr, _accepted s' = _accepted s ++ tr ∧ NoDup tr ∧ ∀ x, x ∈ tr ↔ rtc (edge ch) n x.
Proof using Type.
  intros HV [(tr & L & N & I) _ _ A C R _]. rewrite HV in *. exists tr.
  split; [done|]. split; [done|]. intros x. rewrite I. split.
  - intros [Hx HxV]. destruct (R x Hx HxV) as (r & Hr & Hrx).
    apply list_elem_of_singleton in Hr as ->. done.
  - intros Hr. split; [|set_solver]. assert (n ∈ _visited s') as Hn by (apply A; by left).
    clear -Hr Hn C. induction Hr as [x|x y z Hxy _ IH]; [done|].
    apply IH. apply (C x); [done|set_solver|done].
Qed.
Lemma vloop_traversed (f : node → state → out) l s :
  (∀ n s', n ∈ l → _visited s ⊆ _visited s' → _visited s' ⊆ U →
           ∃ s'', f n s' = VRet tt s'' ∧ traversed [n] s' s'') →
  _visited s ⊆ U →
  ∃ s', vloop f l s = VRet tt s' ∧ traversed l s s'.
Proof using Type.
  revert s; induction l as [|n l IH]; intros s Hf HV.
  { exists s. split; [done|]. by apply traversed_nil. }
  destruct (Hf n s) as (s1 & E1 & T1); [by left|done|done|].
  destruct (IH s1) as (s2 & E2 & T2).
  { intros m s' Hm Hi Hb. apply Hf; [by right| |done]. pose proof (tr_incl _ _ _ T1). set_solver. }
  { apply (tr_bound _ _ _ T1). }
  exists s2. simpl. rewrite E1. simpl. rewrite E2. split; [done|]. by eapply traversed_cons.
Qed.
  Context (accept : node → state → out).

(** A visit method that returns and leaves the bookkeeping of the traversal alone. *)
Definition well_behaved : Prop :=
  ∀ n s, ∃ s', accept n s = VRet tt s' ∧ _visited s' = _visited s ∧ _accepted s' = _accepted s ∧
               _current s' = _current s ∧ _level s' = _level s.


Context (Haccept : well_behaved) (Hclosed : closed ch U).

(** Entering an unvisited node: the state in which its children are processed. *)
Definition enter (n : node) (s : state) : state :=
  pushCurrent n (set_visited ({[n]} ∪ _visited s) s).

Lemma do_accept_ok n s :
  ∃ s', do_accept accept n s = VRet tt s' ∧ _visited s' = _visited s ∧
        _accepted s' = _accepted s ++ [n] ∧ _current s' = _current s ∧ _level s' = _level s.
Proof using Haccept. unfold do_accept. apply (Haccept n (set_accepted _ s)). Qed.

Lemma popCurrent_enter n (s s1 : state) :
  _current s1 = _current (enter n s) → _level s1 = _level (enter n s) →
  _current (popCurrent s1) = _current s ∧ _level (popCurrent s1) = _level s.
Proof using Type.
  simpl. intros -> ->. split; [|lia]. rewrite length_app. simpl.
  by rewrite Nat.add_sub, take_app_length.
Qed.

(** Assembling the traversal of one node from that of its children, with the node accepted
    before ([pre]) or after them. *)
Lemma traversed_node (l : list node) (pre : bool) n (s s1 s2 s3 : state) :
  n ∈ U → n ∉ _visited s → (∀ y, y ∈ l ↔ edge ch n y) → traversed l s1 s2 →
  _visited s1 = {[n]} ∪ _visited s → _visited s3 = _visited s2 →
  _accepted s1 = _accepted s ++ (if pre then [n] else []) →
  _accepted s3 = _accepted s2 ++ (if pre then [] else [n]) →
  _current s3 = _current s → _level s3 = _level s →
  traversed [n] s s3.
Proof using Type.
  intros HnU Hn Hl [(t & L & N & I) Hi Hb A C R _] V1 V3 A1 A3 Hc Hlv. rewrite V1 in *.
  assert (Hin : n ∈ _visited s2) by (apply Hi, elem_of_union_l, elem_of_singleton; done).
  assert (Hnew : ∀ x, x ∉ _visited s → (x ≠ n) → x ∉ ({[n]} ∪ _visited s)) by (clear; set_solver).
  assert (Hold : ∀ x, x ∉ ({[n]} ∪ _visited s) → ((x ∉ _visited s) ∧ x ≠ n)) by (clear; set_solver).
  split; rewrite ?V3; [| |exact Hb| | | |done].
  - exists ((if pre then [n] else []) ++ t ++ (if pre then [] else [n])).
    rewrite A3, L, A1, !app_assoc. split; [done|].
    assert (n ∉ t) by (rewrite I; intros [_ ?%Hold]; naive_solver).
    assert (Hmem : ∀ x, (x = n ∨ x ∈ t) ↔ (x ∈ _visited s2 ∧ x ∉ _visited s)).
    { intros x. rewrite I. destruct (decide (x = n)) as [->|]; [naive_solver|].
      split; [|naive_solver]. intros [?|[? [??]%Hold]]; naive_solver. }
    destruct pre; simpl; rewrite ?app_nil_r.
    + split; [by constructor|]. intros x. by rewrite elem_of_cons.
    + split.
      * apply list.NoDup_app. split; [done|]. split; [|apply list.NoDup_singleton].
        intros x Hx ->%list_elem_of_singleton. done.
      * intros x. rewrite elem_of_app, list_elem_of_singleton, <- Hmem. clear; tauto.
  - etrans; [|exact Hi]. apply union_subseteq_r.
  - intros x ->%list_elem_of_singleton. done.
  - intros x y Hx HxV Hxy. destruct (decide (x = n)) as [->|]; [by apply A, Hl|].
    apply (C x); [done|by apply Hnew|done].
  - intros x Hx HxV. exists n. split; [by left|].
    destruct (decide (x = n)) as [->|]; [done|].
    destruct (R x Hx) as (r & Hr & Hrx); [by apply Hnew|]. apply rtc_l with r; [|done]. by apply Hl.
Qed.

Lemma preOrder_traversed fuel reverse n s :
  n ∈ U → _visited s ⊆ U → size (U ∖ _visited s) < fuel →
  ∃ s', preOrder accept ch fuel reverse n s = VRet tt s' ∧ traversed [n] s s'.
Proof using Haccept Hclosed.
  revert reverse n s; induction fuel as [|fuel IH]; intros reverse n s Hn HV Hf; [lia|].
  cbn [preOrder]. case_decide as Hvis.
  { exists s. split; [done|]. by apply traversed_skip. }
  fold (enter n s). destruct (do_accept_ok n (enter n s)) as (s1 & E1 & V1 & A1 & C1 & L1).
  rewrite E1. cbn [vbind]. set (l := if reverse then rev (ch n) else ch n).
  assert (Hl : ∀ y, y ∈ l ↔ edge ch n y).
  { intros y. unfold edge, l. destruct reverse; [|done]. by rewrite !list_elem_of_In, <- in_rev. }
  destruct (vloop_traversed (preOrder accept ch fuel false) l s1) as (s2 & E2 & T2).
  { intros m s' Hm Hi Hb. apply IH; [by apply (Hclosed n); [|apply Hl]|done|].
    rewrite V1 in Hi. pose proof (size_explored U (_visited s) (_visited s') n Hn Hvis Hi). lia. }
  { rewrite V1. simpl. set_solver. }
  rewrite E2. cbn [vbind]. eexists. split; [done|].
  destruct (tr_stack _ _ _ T2) as [C2 L2]. rewrite C1 in C2. rewrite L1 in L2.
  destruct (popCurrent_enter n s s2 C2 L2) as [C3 L3].
  apply (traversed_node l true n s s1 s2); try done. simpl. by rewrite app_nil_r.
Qed.

Lemma postOrder_traversed fuel reverse n s :
  n ∈ U → _visited s ⊆ U → size (U ∖ _visited s) < fuel →
  ∃ s', postOrder accept ch fuel reverse n s = VRet tt s' ∧ traversed [n] s s'.
Proof using Haccept Hclosed.
  revert reverse n s; induction fuel as [|fuel IH]; intros reverse n s Hn HV Hf; [lia|].
  cbn [postOrder]. case_decide as Hvis.
  { exists s. split; [done|]. by apply traversed_skip. }
  fold (enter n s). set (l := if reverse then rev (ch n) else ch n).
  assert (Hl : ∀ y, y ∈ l ↔ edge ch n y).
  { intros y. unfold edge, l. destruct reverse; [|done]. by rewrite !list_elem_of_In, <- in_rev. }
  destruct (vloop_traversed (postOrder accept ch fuel false) l (enter n s)) as (s2 & E2 & T2).
  { intros m s' Hm Hi Hb. apply IH; [by apply (Hclosed n); [|apply Hl]|done|].
    pose proof (size_explored U (_visited s) (_visited s') n Hn Hvis Hi). lia. }
  { simpl. set_solver. }
  rewrite E2. cbn [vbind]. destruct (do_accept_ok n s2) as (s3 & -> & V3 & A3 & C3 & L3).
  cbn [vbind]. eexists. split; [done|].
  destruct (tr_stack _ _ _ T2) as [C2 L2]. rewrite <- C3 in C2. rewrite <- L3 in L2.
  destruct (popCurrent_enter n s s3 C2 L2) as [C4 L4].
  apply (traversed_node l false n s (enter n s) s2); try done. simpl. by rewrite app_nil_r.
Qed.

End Traversal.

(** C28: [processAllPreOrder] and [processAllPostOrder], with visit methods that do not change
    the graph, terminate on every graph and visit each reachable node exactly once, whatever
    the sharing and the cycles. *)
Theorem processAll_visits_once {Result Arg1 Arg2} ch U accept reverse n s :
  @well_behaved Result Arg1 Arg2 accept → closed ch U → n ∈ U →
  ∀ order, order = Visitor.preOrder accept ch ∨ order = Visitor.postOrder accept ch →
  ∃ b s' tr,
    Visitor.processAll order (S (size U)) n reverse s = Visitor.VRet b s' ∧
    Visitor._accepted s' = Visitor._accepted s ++ tr ∧
    NoDup tr ∧ ∀ x, x ∈ tr ↔ rtc (edge ch) n x.
Proof.
  intros Ha Hc Hn order Ho. unfold Visitor.processAll.
  assert (∃ s', order (S (size U)) reverse n (Visitor.reset s) = Visitor.VRet tt s' ∧
                traversed ch U [n] (Visitor.reset s) s') as (s' & -> & T).
  { destruct Ho as [->| ->]; [apply preOrder_traversed|apply postOrder_traversed]; try done;
      simpl; set_solver || (rewrite difference_empty_L; lia). }
  destruct (traversed_all ch U n (Visitor.reset s) s' eq_refl T) as (tr & L & N & I).
  by eexists _, s', tr.
Qed.

(** ** Arguments, results and error counts of nested visits *)

Section ProtocolLemmas.
  Import Visitor.
  Context {Result Arg1 Arg2 : Type}.
  Abbreviation state := (@VisitorState Result Arg1 Arg2).
  Context (accept : node → state → @vout Result Arg1 Arg2 unit).

(** A visit method pairs its calls of [saveArgs] and [restoreArgs] (they are private to
    [processOne]), whether it returns or throws. *)
Definition keeps_saved : Prop :=
  ∀ n s, match accept n s with
         | VRet _ s' | VThrow s' => _saved_args s' = _saved_args s
         | VAbort | VNoFuel => True
         end.

Lemma set_opt_args_saved a1 a2 (s : state) : _saved_args (set_opt_args a1 a2 s) = _saved_args s.
Proof using Type. by destruct a1, a2. Qed.

Lemma restore_save (s s' : state) :
  _saved_args s' = _saved_args (saveArgs s) →
  _args (restoreArgs s') = _args s ∧ _saved_args (restoreArgs s') = _saved_args s.
Proof using Type.
  unfold restoreArgs, saveArgs; simpl. intros ->. rewrite length_app; simpl.
  rewrite Nat.add_sub, lookup_app_r, Nat.sub_diag by lia. simpl.
  by rewrite take_app_length.
Qed.

Context (Hk : keeps_saved).

Lemma call_saved n s :
  match call accept n s with
  | VRet _ s' | VThrow s' => _saved_args s' = _saved_args s
  | VAbort | VNoFuel => True
  end.
Proof using Hk.
  unfold call, do_accept. specialize (Hk n (set_accepted (_accepted s ++ [n]) (pushCurrent n s))).
  simpl in *. by destruct (accept n _).
Qed.

Lemma processOne_saved n a1 a2 s b s' :
  processOne accept n a1 a2 s = VRet b s' →
  _args s' = _args s ∧ _saved_args s' = _saved_args s.
Proof using Hk.
  unfold processOne, processOneInternal. intros H.
  pose proof (call_saved n (reset (set_opt_args a1 a2 (saveArgs s)))) as Hc.
  destruct (call accept n _) as [? s1|s1| |]; try done; simpl in H; injection H as <- <-;
    apply restore_save; rewrite Hc; simpl; apply set_opt_args_saved.
Qed.

Lemma processOne_result_saved n a1 a2 s b s' :
  processOne_result accept n a1 a2 s = VRet b s' →
  _args s' = _args s ∧ _saved_args s' = _saved_args s.
Proof using Hk.
  unfold processOne_result, processOneInternal_result. intros H.
  pose proof (call_saved n (unset_result (reset (set_opt_args a1 a2 (saveArgs s))))) as Hc.
  assert (Hs : ∀ s1, _saved_args s1 =
    _saved_args (unset_result (reset (set_opt_args a1 a2 (saveArgs s)))) →
    _args (restoreArgs s1) = _args s ∧ _saved_args (restoreArgs s1) = _saved_args s).
  { intros s1 E. apply restore_save. rewrite E. simpl. apply set_opt_args_saved. }
  destruct (call accept n _) as [? s1|s1| |]; try done; simpl in H.
  - destruct (result_set (_args s1)); [|destruct (default_set (_args s1)); [|done]];
      simpl in H; injection H as <- <-; by apply Hs.
  - injection H as <- <-. by apply Hs.
Qed.
End ProtocolLemmas.

(** A visit method that logs nothing: the error count afterwards is 0. *)
Lemma silent_processOne {Result Arg1 Arg2} (visit : node → _ → _) m a1 a2
    (s : @Visitor.VisitorState Result Arg1 Arg2) :
  (∀ k s, visit k s = Visitor.VRet tt s) →
  ∃ s', Visitor.processOne visit m a1 a2 s = Visitor.VRet true s' ∧ Visitor.errors_ s' = 0%Z.
Proof.
  intros Hv. unfold Visitor.processOne, Visitor.processOneInternal, Visitor.call, Visitor.do_accept.
  rewrite Hv. cbn [Visitor.vbind]. eexists. split; [done|].
  unfold Visitor.restoreArgs. by case_match.
Qed.

(** A [processOne] that returns, after a visit that returns or throws [LogEmergency], gives the
    visitor back its arguments, its result and its default result as they were, and balances the
    stack of saved arguments.  Other exceptions leave [processOne] before it does. *)
Theorem processOne_restores {Result Arg1 Arg2} accept n a1 a2 s :
  @keeps_saved Result Arg1 Arg2 accept →
  (∀ b s', Visitor.processOne accept n a1 a2 s = Visitor.VRet b s' →
           Visitor._args s' = Visitor._args s ∧ Visitor._saved_args s' = Visitor._saved_args s) ∧
  (∀ b s', Visitor.processOne_result accept n a1 a2 s = Visitor.VRet b s' →
           Visitor._args s' = Visitor._args s ∧ Visitor._saved_args s' = Visitor._saved_args s).
Proof.
  intros Hk. split; intros b s'; [by apply processOne_saved|by apply processOne_result_saved].
Qed.

(** The error count is not kept across a nested visit: an error logged before a nested
    [processOne] whose visit method logs nothing is forgotten, so that the enclosing visit
    still counts as a success. *)
Theorem nested_visit_forgets_errors {Result Arg1 Arg2} (visit : node → _ → _) n m
    (s : @Visitor.VisitorState Result Arg1 Arg2) :
  (∀ k s, visit k s = Visitor.VRet tt s) →
  let accept := λ k s,
    if (k =? n)%nat then
      Visitor.vbind (Visitor.log Visitor.error s) (λ _ s,
      Visitor.vbind (Visitor.processOne visit m None None s) (λ _ s, Visitor.VRet tt s))
    else visit k s in
  ∃ s', Visitor.processOne accept n None None s = Visitor.VRet true s'.
Proof.
  intros Hv accept. unfold Visitor.processOne, Visitor.processOneInternal, Visitor.call.
  unfold Visitor.do_accept, accept at 1. rewrite Nat.eqb_refl. unfold Visitor.log.
  cbn [Visitor.severity_level Visitor.vbind Z.leb Z.compare Pos.compare Pos.compare_cont].
  match goal with |- context [Visitor.processOne visit m None None ?s0] =>
    destruct (silent_processOne visit m None None s0 Hv) as (s1 & -> & He) end.
  cbn [Visitor.vbind]. unfold Visitor.errors, Visitor.popCurrent. cbn [Visitor.errors_].
  rewrite He. eauto.
Qed.

(** ** Instances *)

(** Two nodes that are each other's child; the first holds the second twice, through two cells. *)
Definition cyclic_heap : heap :=
  mkHeap {[ 0 := Some 0; 1 := Some 1; 2 := Some 1 ]}
    {[ 0 := mkObj "Module" [1; 2; 0] (Some 0); 1 := mkObj "ID" [0] (Some 1) ]}.

Lemma cyclic_heap_closed : heap_closed cyclic_heap.
Proof.
  intros x y Hx Hy. unfold edge in Hy.
  assert (x = 0 ∨ x = 1) as [->| ->].
  { apply elem_of_dom in Hx as [o Ho]. unfold cyclic_heap in Ho. simpl in Ho.
    apply lookup_insert_Some in Ho as [[<- _]|[_ Ho]]; [by left|].
    apply lookup_singleton_Some in Ho as [<- _]. by right. }
  all: vm_compute in Hy; apply elem_of_dom; repeat (apply elem_of_cons in Hy as [->|Hy]);
    try (by apply elem_of_nil in Hy); vm_compute; eauto.
Qed.

Lemma removeChild_filters_witness :
  removeChild cyclic_heap 0 1 =
    Ret (set_obj 0 (set_children [0] (mkObj "Module" [1; 2; 0] (Some 0))) cyclic_heap).
Proof.
  apply (removeChild_filters cyclic_heap 0 1 1 (mkObj "Module" [1; 2; 0] (Some 0))); reflexivity.
Defined.

Lemma replace_visible_witness :
  ∃ h', replace cyclic_heap 1 0 = Ret h' ∧ get h' 1 = get cyclic_heap 0 ∧
        (∀ d, d ≠ 1 → get h' d = get cyclic_heap d) ∧
        (∀ m, (children_ <$> objs h' !! m) = (children_ <$> objs cyclic_heap !! m)).
Proof. apply (replace_visible cyclic_heap 1 0 1 (mkObj "ID" [0] (Some 1))); reflexivity. Defined.

Lemma hasChild_reachable_witness :
  ∃ b, hasChild (S (size (dom (objs cyclic_heap)))) cyclic_heap 1 1 true = Some b ∧
       (b = true ↔ tc (heap_edge cyclic_heap) 1 1).
Proof.
  apply (hasChild_reachable cyclic_heap 1 1); [exact cyclic_heap_closed|].
  apply elem_of_dom. vm_compute. eauto.
Defined.

Lemma children_reachable_witness :
  ∃ V, childrenInternal (S (size (dom (objs cyclic_heap)))) (kids cyclic_heap) 0 ∅ = Some V ∧
       ∀ x, x ∈ V ↔ tc (heap_edge cyclic_heap) 0 x.
Proof.
  apply (children_reachable cyclic_heap 0); [exact cyclic_heap_closed|].
  apply elem_of_dom. vm_compute. eauto.
Defined.

(** A visitor without arguments and results whose visit methods do nothing. *)
Definition idle_state : @Visitor.VisitorState unit unit unit :=
  Visitor.mkVisitorState (Visitor.mkSavedArgs tt tt false false tt tt) [] 0 ∅ [] 0 [].
Definition idle_accept (n : node) (s : @Visitor.VisitorState unit unit unit) :=
  Visitor.VRet tt s.

Lemma processAll_visits_once_witness :
  ∃ b s' tr,
    Visitor.processAll (Visitor.preOrder idle_accept (kids cyclic_heap))
      (S (size (dom (objs cyclic_heap)))) 0 false idle_state = Visitor.VRet b s' ∧
    Visitor._accepted s' = Visitor._accepted idle_state ++ tr ∧
    NoDup tr ∧ ∀ x, x ∈ tr ↔ rtc (edge (kids cyclic_heap)) 0 x.
Proof.
  apply (processAll_visits_once (kids cyclic_heap) (dom (objs cyclic_heap)) idle_accept false 0 idle_state).
  - intros n s. by exists s.
  - exact cyclic_heap_closed.
  - apply elem_of_dom. vm_compute. eauto.
  - by left.
Defined.

Lemma processOne_restores_witness :
  (∀ b s', Visitor.processOne idle_accept 0 (Some tt) (Some tt) idle_state = Visitor.VRet b s' →
           Visitor._args s' = Visitor._args idle_state ∧
           Visitor._saved_args s' = Visitor._saved_args idle_state) ∧
  (∀ b s', Visitor.processOne_result idle_accept 0 (Some tt) (Some tt) idle_state = Visitor.VRet b s' →
           Visitor._args s' = Visitor._args idle_state ∧
           Visitor._saved_args s' = Visitor._saved_args idle_state).
Proof.
  apply (processOne_restores idle_accept 0 (Some tt) (Some tt) idle_state). by intros n s.
Defined.

Lemma nested_visit_forgets_errors_witness :
  let accept := λ k s,
    if (k =? 3)%nat then
      Visitor.vbind (Visitor.log Visitor.error s) (λ _ s,
      Visitor.vbind (Visitor.processOne idle_accept 4 None None s) (λ _ s, Visitor.VRet tt s))
    else idle_accept k s in
  ∃ s', Visitor.processOne accept 3 None None idle_state = Visitor.VRet true s'.
Proof. apply (nested_visit_forgets_errors idle_accept 3 4 idle_state). by intros k s. Defined.
