(* ===== verification/Ident.v ===== *)
(** * Identifiers, locations and attributes
    ([src/src/spec/ast/id.h], [id.cpp], [location.h], [location.cpp], [attribute.h],
    [attribute.cpp])

    An identifier is a list of components; a location a file with a line range; an attribute
    map the [std::map] from keys to attributes, kept as an association list in the order of
    the keys, together with the children the map node has in the AST. *)

From S2P Require Import Prelude Util.
From Stdlib Require Import Sorting.Sorted.
Import Util.Strings Util.StringLemmas Util.SplitJoin.

(** ** Identifiers *)

Module Id.

Record ID := mkID { path_ : list string }.

#[export] Instance ID_eq_dec : EqDecision ID.
Proof. solve_decision. Defined.

(** [ID(std::string)]. *)
Definition newID (path : string) : outcome ID :=
  match strsplit path "::" with Some l => Ret (mkID l) | None => NoFuel end.

(** The [while] loop of [pathAsString]. *)
Fixpoint strip_common (p1 p2 : list string) : list string :=
  match p1, p2 with
  | x :: p1', y :: p2' => if String.eqb x y then strip_common p1' p2' else p1
  | _, _ => p1
  end.
Definition pathAsString (id : ID) (relative_to : option ID) : string :=
  strjoin (strip_common (path_ id) (match relative_to with Some r => path_ r | None => [] end)) "::".

Definition addComponent (c : string) (id : ID) : ID := mkID (path_ id ++ [c]).
Fixpoint addPath (path : list string) (id : ID) : ID :=
  match path with
  | [] => id
  | c :: path => addPath path (addComponent c id)
  end.

(** [name]: [path_.back()], undefined on an empty path. *)
Definition name (id : ID) : outcome string :=
  match path_ id !! (length (path_ id) - 1) with
  | Some c => Ret c
  | None => Abort "path_.back()"
  end.
Definition isScoped (id : ID) : bool := 1 <? length (path_ id).
Definition scope (id : ID) : string := strjoin (take (length (path_ id) - 1) (path_ id)) "::".

Definition id_eqb (a b : ID) : bool := String.eqb (pathAsString a None) (pathAsString b None).
Definition id_eqb_string (a : ID) (s : string) : bool := String.eqb (pathAsString a None) s.
Definition id_ltb (a b : ID) : bool := String.ltb (pathAsString a None) (pathAsString b None).

Fixpoint path_prefix (p opath : list string) : bool :=
  match p, opath with
  | [], _ => true
  | _ :: _, [] => false
  | e :: p, o :: opath => if negb (String.eqb o e) then false else path_prefix p opath
  end.
Definition prefixOf (a other : ID) : bool := path_prefix (path_ a) (path_ other).

Definition combineIDs (first second : ID) : ID := addPath (path_ second) (mkID (path_ first)).

End Id.
Import Id.

(** ** Locations *)

Module Location.

Record Location := mkLocation { file_ : string; from_ : Z; to_ : Z }.

Definition None_ : Location := mkLocation "<no location>" (-1) (-1).
Definition is_set (l : Location) : bool := negb (String.eqb (file_ l) (file_ None_)).

(** [operator std::string]; [is_None] tells whether the object is the static [None] itself
    (the code compares addresses). *)
Definition location_string (is_None : bool) (l : Location) : string :=
  if is_None then "<no location>"
  else
    let s := (if String.length (file_ l) =? 0 then "<no filename>"%string else file_ l) in
    let s := (s +:+ ":")%string in
    if (0 <=? from_ l)%Z then
      if (0 <=? to_ l)%Z then (s +:+ pretty (from_ l) +:+ "-" +:+ pretty (to_ l))%string
      else (s +:+ pretty (from_ l))%string
    else s.

End Location.

(** ** Attributes *)

Module Attribute.

(** The constructor strips leading ampersands, percent signs and dots from the key;
    [strchr] also finds the terminating NUL. *)
Definition is_sigil (c : ascii) : bool :=
  Ascii.eqb c "&" || Ascii.eqb c "%" || Ascii.eqb c "." || Ascii.eqb c "000".
Fixpoint strip_key (key : string) : string :=
  match key with
  | EmptyString => EmptyString
  | String c k => if is_sigil c then strip_key k else key
  end.

Record Attribute (E : Type) := mkAttribute { key_ : string; value_ : option E; internal_ : bool }.
Arguments mkAttribute {E} _ _ _.
Arguments key_ {E} _.
Arguments value_ {E} _.
Arguments internal_ {E} _.

Definition newAttribute {E} (key : string) (value : option E) (internal : bool) : Attribute E :=
  mkAttribute (strip_key key) value internal.

Definition attr_eqb {E} (a b : Attribute E) : bool := String.eqb (key_ a) (key_ b).

(** [clone] dereferences the value. *)
Definition clone_attr {E} (clone_value : E → E) (a : Attribute E) : outcome (Attribute E) :=
  match value_ a with
  | Some v => Ret (newAttribute (key_ a) (Some (clone_value v)) (internal_ a))
  | None => Abort "value()->clone()"
  end.

Definition render_attr {E} (render : E → string) (a : Attribute E) : string :=
  let s := key_ a in
  let s := if internal_ a then (s +:+ " (internal)")%string else s in
  match value_ a with Some v => (s +:+ " = " +:+ render v)%string | None => s end.

(** [AttributeMap]: attributes are handles of type [A], with their keys. *)
Section Map.
  Context {A : Type} `{EqDecision A} (akey : A → string).

Record AttributeMap := mkAttributeMap {
  attrs_ : list (string * A);       (* in key order *)
  map_children : list A }.

Definition emptyMap : AttributeMap := mkAttributeMap [] [].

(** [attrs_.find], [attrs_.insert] of a new key and [attrs_.erase]. *)
Fixpoint find_key (k : string) (l : list (string * A)) : option A :=
  match l with
  | [] => None
  | (k', a) :: l => if String.eqb k k' then Some a else find_key k l
  end.
Fixpoint insert_key (k : string) (a : A) (l : list (string * A)) : list (string * A) :=
  match l with
  | [] => [(k, a)]
  | (k', a') :: l' =>
      if String.eqb k k' then l
      else if String.ltb k k' then (k, a) :: l
      else (k', a') :: insert_key k a l'
  end.
Definition erase_key (k : string) (l : list (string * A)) : list (string * A) :=
  filter (λ p, p.1 ≠ k) l.

Definition remove (key : string) (m : AttributeMap) : option A * AttributeMap :=
  match find_key key (attrs_ m) with
  | Some old =>
      (Some old, mkAttributeMap (erase_key key (attrs_ m))
                   (filter (λ c, c ≠ old) (map_children m)))
  | None => (None, m)
  end.

Definition add (attr : A) (m : AttributeMap) : option A * AttributeMap :=
  let '(old, m) := remove (akey attr) m in
  (old, mkAttributeMap (insert_key (akey attr) attr (attrs_ m)) (map_children m ++ [attr])).

Definition lookup_attr (key : string) (m : AttributeMap) : option A := find_key key (attrs_ m).
Definition has (key : string) (m : AttributeMap) : bool :=
  match lookup_attr key m with Some _ => true | None => false end.
Definition attributes (m : AttributeMap) : list A := (attrs_ m).*2.
Definition map_size (m : AttributeMap) : nat := length (attrs_ m).

Definition add_all (l : list A) (m : AttributeMap) : AttributeMap :=
  foldl (λ m a, (add a m).2) m l.
Definition newAttributeMap (l : list A) : AttributeMap := add_all l emptyMap.

(** [operator=(const attribute_list&)]: clears the map, not the children. *)
Definition assign (l : list A) (m : AttributeMap) : AttributeMap :=
  add_all l (mkAttributeMap [] (map_children m)).

Fixpoint render_loop (render : A → string) (first : bool) (l : list A) (s : string) : string :=
  match l with
  | [] => s
  | a :: l =>
      let s := if first then s else (s +:+ ", ")%string in
      render_loop render false l (s +:+ render a)
  end.
Definition render_map (render : A → string) (m : AttributeMap) : string :=
  (render_loop render true (attributes m) "attrs {" +:+ "}")%string.

End Map.
Arguments AttributeMap A : clear implicits.
End Attribute.

(** ** Identifier theorems *)

Module IdLemmas.

Lemma addPath_app p id : path_ (addPath p id) = path_ id ++ p.
Proof.
  revert id; induction p as [|c p IH]; intros id; simpl; [by rewrite app_nil_r|].
  rewrite IH. simpl. by rewrite <- app_assoc.
Qed.

Lemma path_prefix_spec p q : path_prefix p q = true ↔ ∃ r, q = p ++ r.
Proof.
  revert q; induction p as [|e p IH]; intros q; simpl; [split; eauto|].
  destruct q as [|o q]; [split; [done|by intros [r ?]]|].
  destruct (String.eqb_spec o e) as [->|Hne]; simpl.
  - rewrite IH. split; intros [r Hr]; exists r; simplify_eq; done.
  - split; [done|]. intros [r Hr]. simplify_eq.
Qed.

Lemma strip_common_app p q : strip_common (p ++ q) p = q.
Proof.
  induction p as [|x p IH]; simpl; [by destruct q|]. by rewrite String.eqb_refl.
Qed.

Lemma strip_common_nil p : strip_common p [] = p.
Proof. by destruct p. Qed.

Lemma pathAsString_full id : pathAsString id None = strjoin (path_ id) "::".
Proof. unfold pathAsString. by rewrite strip_common_nil. Qed.

(** Components as the scanner produces them: no colon. *)
Definition id_wf (id : ID) : Prop :=
  path_ id ≠ [] ∧ Forall (λ c, free_of ":" c = true) (path_ id).

Lemma strsplit_path id : id_wf id → strsplit (pathAsString id None) "::" = Some (path_ id).
Proof.
  intros [Hne Hf]. rewrite pathAsString_full. destruct id as [[|x l]]; [done|].
  cbn [path_] in *. apply strsplit_loop_join; [done|]. apply Nat.lt_succ_diag_r.
Qed.

End IdLemmas.
Import IdLemmas.

(** Printing an identifier and parsing it back gives the identifier, when its components
    contain no colon. *)
Theorem newID_pathAsString id : id_wf id → newID (pathAsString id None) = Ret id.
Proof. intros H. unfold newID. rewrite strsplit_path by done. by destruct id. Qed.

(** [operator==] compares printed paths; on well-formed identifiers that is equality of
    the paths, and [prefixOf] is the list prefix relation. *)
Theorem id_comparisons a b :
  id_wf a → id_wf b →
  (id_eqb a b = true ↔ a = b) ∧ (prefixOf a b = true ↔ ∃ r, path_ b = path_ a ++ r).
Proof.
  intros Ha Hb. split; [|apply path_prefix_spec]. unfold id_eqb. rewrite String.eqb_eq.
  split; [|by intros ->]. intros E.
  assert (Some (path_ a) = Some (path_ b)) as [=] by (rewrite <- !strsplit_path, E by done; done).
  destruct a, b; simpl in *; congruence.
Qed.

(** [combineIDs] concatenates the paths: the first identifier is a prefix of the result,
    and printing the result relative to it leaves the second. *)
Theorem combineIDs_spec a b :
  path_ (combineIDs a b) = path_ a ++ path_ b ∧
  prefixOf a (combineIDs a b) = true ∧
  pathAsString (combineIDs a b) (Some a) = pathAsString b None.
Proof.
  assert (E : path_ (combineIDs a b) = path_ a ++ path_ b) by apply (addPath_app _ (mkID _)).
  split; [done|]. split.
  - apply path_prefix_spec. exists (path_ b). done.
  - unfold pathAsString at 1. rewrite E, strip_common_app. by rewrite pathAsString_full.
Qed.

(** ** The attribute map *)

(** The order of the keys. *)
Definition str_lt (s t : string) : Prop := String.ltb s t = true.

Lemma str_lt_irrefl s : ¬ str_lt s s.
Proof.
  unfold str_lt, String.ltb. induction s as [|c s IH]; simpl; [done|].
  unfold Ascii.compare. by rewrite N.compare_refl.
Qed.

Lemma str_lt_trans s t u : str_lt s t → str_lt t u → str_lt s u.
Proof.
  unfold str_lt, String.ltb. revert t u; induction s as [|a s IH]; intros [|b t] [|c u]; simpl; try done.
  unfold Ascii.compare. destruct (N.compare_spec (N_of_ascii a) (N_of_ascii b)) as [Hab|Hab|Hab]; try done.
  - rewrite Hab. destruct (N.compare_spec (N_of_ascii b) (N_of_ascii c)); try done. apply IH.
  - intros _. destruct (N.compare_spec (N_of_ascii b) (N_of_ascii c)) as [Hbc|Hbc|Hbc]; try done; intros _.
    + rewrite <- Hbc. by rewrite (proj2 (N.compare_lt_iff _ _) Hab).
    + by rewrite (proj2 (N.compare_lt_iff _ _) (N.lt_trans _ _ _ Hab Hbc)).
Qed.

Lemma str_lt_total s t : s ≠ t → String.ltb s t = false → str_lt t s.
Proof.
  unfold str_lt, String.ltb. intros Hne. rewrite (String.compare_antisym t s).
  destruct (String.compare s t) eqn:E; simpl; try done. by apply String.compare_eq_iff in E.
Qed.

Module AssocLemmas.
Section Assoc.
  Import Attribute.
  Context {A : Type}.

Lemma find_key_None k (l : list (string * A)) : find_key k l = None ↔ k ∉ l.*1.
Proof.
  induction l as [|[k' a] l IH]; simpl; [split; [by intros _ ?%elem_of_nil|done]|].
  rewrite elem_of_cons. destruct (String.eqb_spec k k'); [naive_solver|]. rewrite IH. naive_solver.
Qed.

Lemma find_key_Some k (l : list (string * A)) a : find_key k l = Some a → (k, a) ∈ l.
Proof.
  induction l as [|[k' a'] l IH]; simpl; [done|].
  destruct (String.eqb_spec k k') as [->|]; [intros [= ->]; by left|]. intros H. right. auto.
Qed.

Lemma insert_key_perm k a (l : list (string * A)) :
  k ∉ l.*1 → insert_key k a l ≡ₚ (k, a) :: l.
Proof.
  induction l as [|[k' a'] l IH]; simpl; [done|]. rewrite elem_of_cons. intros Hk.
  destruct (String.eqb_spec k k'); [naive_solver|]. destruct (String.ltb k k'); [done|].
  rewrite IH by naive_solver. apply perm_swap.
Qed.

Lemma insert_key_sorted k a (l : list (string * A)) :
  StronglySorted str_lt l.*1 → k ∉ l.*1 → StronglySorted str_lt (insert_key k a l).*1.
Proof.
  induction l as [|[k' a'] l IH]; simpl; [intros; by repeat constructor|].
  intros Hs Hk. apply StronglySorted_inv in Hs as [Hs Hf].
  rewrite not_elem_of_cons in Hk. destruct Hk as [Hne Hk].
  destruct (String.eqb_spec k k'); [done|]. destruct (String.ltb k k') eqn:Hlt; simpl.
  - constructor; [by constructor|]. constructor; [done|].
    eapply Forall_impl; [|exact Hf]. intros x. by apply str_lt_trans.
  - constructor; [by apply IH|]. rewrite insert_key_perm by done. simpl.
    constructor; [by apply str_lt_total|done].
Qed.

Lemma find_insert_key k a (l : list (string * A)) k' :
  k ∉ l.*1 → find_key k' (insert_key k a l) = if String.eqb k' k then Some a else find_key k' l.
Proof.
  induction l as [|[k1 a1] l IH]; simpl; [done|]. rewrite not_elem_of_cons. intros [Hne Hk].
  destruct (String.eqb_spec k k1); [done|]. destruct (String.ltb k k1); simpl; [done|].
  rewrite IH by done. destruct (String.eqb_spec k' k1), (String.eqb_spec k' k); congruence.
Qed.

Lemma erase_key_keys k (l : list (string * A)) : (erase_key k l).*1 = filter (λ x, x ≠ k) l.*1.
Proof.
  unfold erase_key. induction l as [|[k' a'] l IH]; simpl; [done|].
  rewrite !filter_cons. cbn [fst]. case_decide; simpl; [f_equal|]; exact IH.
Qed.

Lemma erase_key_sorted k (l : list (string * A)) :
  StronglySorted str_lt l.*1 → StronglySorted str_lt (erase_key k l).*1.
Proof.
  rewrite erase_key_keys. induction l.*1 as [|x l' IH]; [done|]. intros Hs.
  apply StronglySorted_inv in Hs as [Hs Hf]. rewrite filter_cons. case_decide; [|auto].
  constructor; [auto|]. by apply Forall_filter_keep.
Qed.

Lemma find_erase_key k (l : list (string * A)) k' :
  find_key k' (erase_key k l) = if String.eqb k' k then None else find_key k' l.
Proof.
  unfold erase_key. induction l as [|[k1 a1] l IH]; simpl; [by destruct (String.eqb k' k)|].
  rewrite filter_cons; simpl. case_decide as Hd; simpl; rewrite IH.
  - destruct (String.eqb_spec k' k1), (String.eqb_spec k' k); congruence.
  - subst k1. by destruct (String.eqb_spec k' k).
Qed.
Lemma find_key_In k (l : list (string * A)) a :
  StronglySorted str_lt l.*1 → (k, a) ∈ l → find_key k l = Some a.
Proof.
  induction l as [|[k' a'] l IH]; simpl; [by intros _ ?%elem_of_nil|].
  intros Hs Hin. apply StronglySorted_inv in Hs as [Hs Hf].
  apply elem_of_cons in Hin as [[= -> ->]|Hin]; [by rewrite String.eqb_refl|].
  destruct (String.eqb_spec k k') as [->|]; [|auto]. exfalso. apply (str_lt_irrefl k').
  rewrite list.Forall_forall in Hf. apply Hf. by apply (list_elem_of_fmap_2 fst _ (k', a)).
Qed.

Lemma filter_values `{EqDecision A} k old (l : list (string * A)) :
  (∀ p, p ∈ l → p.2 ≠ old ↔ p.1 ≠ k) → filter (λ c, c ≠ old) l.*2 = (erase_key k l).*2.
Proof.
  unfold erase_key. induction l as [|p l IH]; intros H; simpl; [done|].
  pose proof (H p ltac:(by left)) as Hp. rewrite !filter_cons.
  assert (IH' : filter (λ c, c ≠ old) l.*2 = (filter (λ p : string * A, p.1 ≠ k) l).*2).
  { apply IH. intros q Hq. apply H. by right. }
  destruct (decide (p.2 ≠ old)) as [H1|H1], (decide (p.1 ≠ k)) as [H2|H2]; simpl;
    [f_equal; exact IH'|tauto|tauto|exact IH'].
Qed.
End Assoc.
End AssocLemmas.
Import AssocLemmas.

Section AttributeMapTheorems.
  Import Attribute.
  Context {A : Type} `{!EqDecision A} (akey : A → string).
  Abbreviation amap := (AttributeMap A).

(** Keys strictly increase and belong to their attributes; the children of the map node are
    the attributes. *)
Record map_wf (m : amap) : Prop := {
  wf_sorted : StronglySorted str_lt (attrs_ m).*1;
  wf_keys : Forall (λ p, akey p.2 = p.1) (attrs_ m);
  wf_children : map_children m ≡ₚ attributes m }.

Lemma remove_wf k (m : amap) : map_wf m → map_wf (remove k m).2.
Proof.
  intros [Hs Hk Hc]. unfold remove. destruct (find_key k (attrs_ m)) as [old|] eqn:Hf; [|done].
  split; simpl.
  - by apply erase_key_sorted.
  - by apply Forall_filter_keep.
  - unfold attributes in *; cbn [attrs_]. rewrite Hc. apply find_key_Some in Hf.
    assert (Hold : akey old = k).
    { rewrite list.Forall_forall in Hk. by apply (Hk (k, old)). }
    rewrite filter_values with (k := k); [done|]. intros [k' a'] Hin; simpl. split; intros Hne ->.
    + apply Hne. pose proof (find_key_In _ _ _ Hs Hin). pose proof (find_key_In _ _ _ Hs Hf).
      congruence.
    + apply Hne. rewrite list.Forall_forall in Hk. specialize (Hk _ Hin). simpl in Hk. congruence.
Qed.

Lemma remove_not_in k (m : amap) : k ∉ (attrs_ (remove k m).2).*1.
Proof.
  unfold remove. destruct (find_key k (attrs_ m)) eqn:Hf; simpl; [|by apply find_key_None].
  rewrite erase_key_keys. intros H. by apply list_elem_of_filter in H as [? _].
Qed.

Lemma add_wf a (m : amap) : map_wf m → map_wf (add akey a m).2.
Proof.
  intros Hm. unfold add. pose proof (remove_wf (akey a) m Hm) as [Hs Hk Hc].
  pose proof (remove_not_in (akey a) m) as Hn. destruct (remove (akey a) m) as [old m']; simpl in *.
  split; simpl.
  - by apply insert_key_sorted.
  - rewrite insert_key_perm by done. by constructor.
  - unfold attributes in *; cbn [attrs_]. rewrite Hc, insert_key_perm by done. simpl.
    by rewrite Permutation_app_comm.
Qed.

Lemma add_all_wf l (m : amap) : map_wf m → map_wf (add_all akey l m).
Proof. unfold add_all. revert m; induction l as [|a l IH]; intros m Hm; simpl; [done|]. by apply IH, add_wf. Qed.

Lemma emptyMap_wf : map_wf emptyMap.
Proof. split; simpl; constructor. Qed.

Lemma lookup_remove k k' (m : amap) :
  find_key k' (attrs_ (remove k m).2) = if String.eqb k' k then None else find_key k' (attrs_ m).
Proof.
  unfold remove. destruct (find_key k (attrs_ m)) as [old|] eqn:Hf; simpl; [apply find_erase_key|].
  destruct (String.eqb_spec k' k) as [->|]; [done|done].
Qed.
End AttributeMapTheorems.

(** Every map built with the constructors, [add] and [remove] is well-formed: its keys are
    in strict order and its children are exactly its attributes. *)
Theorem attribute_map_wf {A} `{!EqDecision A} (akey : A → string) l (m : Attribute.AttributeMap A) a k :
  map_wf akey (Attribute.newAttributeMap akey l) ∧
  (map_wf akey m → map_wf akey (Attribute.add akey a m).2 ∧ map_wf akey (Attribute.remove k m).2).
Proof.
  split; [apply add_all_wf, emptyMap_wf|]. intros Hm. split; [by apply add_wf|by apply remove_wf].
Qed.

(** [add] replaces the attribute with the same key and returns it; other keys are not
    affected, and [remove] deletes exactly its key. *)
Theorem attribute_map_lookup {A} `{!EqDecision A} (akey : A → string)
    (m : Attribute.AttributeMap A) a k k' :
  (Attribute.add akey a m).1 = Attribute.lookup_attr (akey a) m ∧
  Attribute.lookup_attr k (Attribute.add akey a m).2 =
    (if String.eqb k (akey a) then Some a else Attribute.lookup_attr k m) ∧
  Attribute.lookup_attr k (Attribute.remove k' m).2 =
    (if String.eqb k k' then None else Attribute.lookup_attr k m).
Proof.
  unfold Attribute.lookup_attr. split; [|split; [|apply lookup_remove]].
  - unfold Attribute.add, Attribute.remove. by destruct (Attribute.find_key (akey a) _).
  - unfold Attribute.add. pose proof (remove_not_in (akey a) m) as Hn.
    pose proof (lookup_remove (akey a) k m) as Hl.
    destruct (Attribute.remove (akey a) m) as [old m']; simpl in *.
    rewrite find_insert_key by done. rewrite Hl. by destruct (String.eqb k (akey a)).
Qed.

(** Assigning a list clears the map but keeps the old attributes among the children of the
    map node: after the assignment of an empty list they are still there. *)
Theorem attribute_map_assign_stale {A} `{!EqDecision A} (akey : A → string)
    (m : Attribute.AttributeMap A) :
  Attribute.map_size (Attribute.assign akey [] m) = 0 ∧
  Attribute.map_children (Attribute.assign akey [] m) = Attribute.map_children m.
Proof. done. Qed.

(** ** Instances *)

Lemma newID_pathAsString_witness : newID "http::request" = Ret (mkID ["http"; "request"]).
Proof. apply (newID_pathAsString (mkID ["http"; "request"])). split; [discriminate|repeat constructor]. Defined.

Lemma id_comparisons_witness :
  (id_eqb (mkID ["a"]) (mkID ["a"; "b"]) = true ↔ mkID ["a"] = mkID ["a"; "b"]) ∧
  (prefixOf (mkID ["a"]) (mkID ["a"; "b"]) = true ↔ ∃ r, ["a"; "b"]%string = ["a"]%string ++ r).
Proof.
  apply (id_comparisons (mkID ["a"]) (mkID ["a"; "b"])); (split; [discriminate|repeat constructor]).
Defined.

Lemma attribute_map_wf_witness :
  map_wf id (Attribute.add id "length"%string (Attribute.newAttributeMap id ["parse"; "length"]%string)).2.
Proof.
  apply (attribute_map_wf id [] (Attribute.newAttributeMap id ["parse"; "length"]%string) "length" "parse").
  apply (attribute_map_wf id ["parse"; "length"]%string Attribute.emptyMap "" "").
Defined.
