(* ===== verification/Scope.v ===== *)
(** * Scopes ([src/src/spec/ast/scope.h], [scope.cpp])

    A scope shares its data with its aliases, and [mergeFrom] shares the lists of values
    between two scopes: the store keeps scopes, their data and the lists as separate objects
    with handles.  Values are of an arbitrary type [V] (expressions in the program).  The
    [std::map]s are finite maps: the code iterates over one only to merge and to dump it. *)

From S2P Require Import Prelude Util Ident.
Import Util.Strings Ident.Id.

Module Scope.
Section Store.
  Context {V : Type}.

Record Data := mkData {
  data_id : option ID;
  children : gmap string nat;      (* name of the child scope -> scope *)
  values : gmap string nat }.      (* name -> list of values *)
Record ScopeObj := mkScope { data_ : nat; parent_ : option nat }.
Record store := mkStore {
  lists : gmap nat (list V);
  datas : gmap nat Data;
  scopes : gmap nat ScopeObj }.

Definition set_list (h : nat) (l : list V) (st : store) : store :=
  mkStore (<[h := l]> (lists st)) (datas st) (scopes st).
Definition set_data (h : nat) (d : Data) (st : store) : store :=
  mkStore (lists st) (<[h := d]> (datas st)) (scopes st).
Definition set_scope (h : nat) (s : ScopeObj) (st : store) : store :=
  mkStore (lists st) (datas st) (<[h := s]> (scopes st)).

(** The data of a scope: every live scope has some. *)
Definition data_handle (st : store) (sc : nat) : option nat := data_ <$> scopes st !! sc.
Definition data_of (st : store) (sc : nat) : option Data :=
  data_handle st sc ≫= λ d, datas st !! d.
Definition parent_of (st : store) (sc : nat) : option nat := scopes st !! sc ≫= parent_.

(** [Scope(parent)]. *)
Definition newScope (parent : option nat) (st : store) : nat * store :=
  let d := fresh (dom (datas st)) in
  let sc := fresh (dom (scopes st)) in
  (sc, set_scope sc (mkScope d parent) (set_data d (mkData None ∅ ∅) st)).

Definition update_data (f : Data → Data) (sc : nat) (st : store) : store :=
  match data_handle st sc, data_of st sc with
  | Some h, Some d => set_data h (f d) st
  | _, _ => st
  end.

Definition set_id (id : ID) (sc : nat) (st : store) : store :=
  update_data (λ d, mkData (Some id) (children d) (values d)) sc st.
Definition set_parent (parent : option nat) (sc : nat) (st : store) : store :=
  match scopes st !! sc with
  | Some s => set_scope sc (mkScope (data_ s) parent) st
  | None => st
  end.

(** [addChild]: [std::map::insert] keeps an existing entry. *)
Definition addChild (id : ID) (child : nat) (sc : nat) (st : store) : store :=
  update_data (λ d, mkData (data_id d)
    (match children d !! pathAsString id None with
     | Some _ => children d
     | None => <[pathAsString id None := child]> (children d)
     end) (values d)) sc st.

(** [insert]: pushes onto the list of the name, or creates it. *)
Definition insert_name (name : string) (value : V) (sc : nat) (st : store) : store :=
  match data_handle st sc, data_of st sc with
  | Some h, Some d =>
      match values d !! name with
      | Some l => set_list l (default [] (lists st !! l) ++ [value]) st
      | None =>
          let l := fresh (dom (lists st)) in
          set_data h (mkData (data_id d) (children d) (<[name := l]> (values d)))
            (set_list l [value] st)
      end
  | _, _ => st
  end.
Definition insert (id : ID) (value : V) (use_scope : bool) (sc : nat) (st : store)
    : outcome (bool * store) :=
  name ← (if use_scope then Ret (pathAsString id None) else Id.name id);
  Ret (true, insert_name name value sc st).

Definition remove_id (id : ID) (sc : nat) (st : store) : bool * store :=
  match data_of st sc ≫= λ d, values d !! pathAsString id None with
  | None => (false, st)
  | Some _ =>
      (true, update_data (λ d, mkData (data_id d) (children d)
               (delete (pathAsString id None) (values d))) sc st)
  end.

Definition clear (sc : nat) (st : store) : store :=
  update_data (λ d, mkData (data_id d) ∅ ∅) sc st.

(** The values of a name in a scope's own map. *)
Definition own_values (st : store) (d : Data) (name : string) : option (list V) :=
  l ← values d !! name; Some (default [] (lists st !! l)).

(** [find(begin, end, traverse)]: the inner loop tries the subpaths of [n], [n-1], ..., 1
    components; recursing on the components after the match. *)
Definition first_child (cs : gmap string nat) (path : list string) : nat → option (nat * nat) :=
  fix go n :=
    match n with
    | O => None
    | S n' =>
        match cs !! strjoin (take n path) "::" with
        | Some child => Some (child, n)
        | None => go n'
        end
    end.

Definition skip_own (own : option ID) (path : list string) : outcome (list string) :=
  match path, own with
  | c :: rest, Some id =>
      name ← Id.name id;
      Ret (if String.eqb (strtolower c) (strtolower name) then rest else path)
  | _, _ => Ret path
  end.

Fixpoint find_path (fuel : nat) (st : store) (sc : nat) (path : list string) (traverse : bool)
    : outcome (list V) :=
  match fuel with
  | O => NoFuel
  | S fuel =>
      match data_of st sc with
      | None => Abort "scope"
      | Some d =>
          match path with
          | [] => Ret []
          | _ =>
              path ← skip_own (data_id d) path;
              match path with
              | [] => Ret []
              | c :: rest =>
                  match (if (length rest =? 0)%nat then own_values st d c else None) with
                  | Some vals => Ret vals
                  | None =>
                      if negb traverse then Ret []
                      else
                        match first_child (children d) path (length path) with
                        | Some (child, n) => find_path fuel st child (drop n path) traverse
                        | None => Ret []
                        end
                  end
              end
          end
      end
  end.

(** [find(id, traverse)]. *)
Definition find (st : store) (sc : nat) (id : ID) (traverse : bool) : outcome (list V) :=
  match data_of st sc with
  | None => Abort "scope"
  | Some d =>
      match own_values st d (pathAsString id None) with
      | Some vals => Ret vals
      | None => find_path (S (length (path_ id))) st sc (path_ id) traverse
      end
  end.

(** [lookup] and [has] follow the parents; fuel bounds the length of the chain. *)
Fixpoint lookup (fuel : nat) (st : store) (sc : nat) (id : ID) (traverse : bool)
    : outcome (list V) :=
  match fuel with
  | O => NoFuel
  | S fuel =>
      val ← find st sc id traverse;
      match val with
      | _ :: _ => Ret val
      | [] =>
          match parent_of st sc with
          | Some p => if traverse then lookup fuel st p id traverse else Ret val
          | None => Ret val
          end
      end
  end.
Fixpoint has (fuel : nat) (st : store) (sc : nat) (id : ID) (traverse : bool) : outcome bool :=
  match fuel with
  | O => NoFuel
  | S fuel =>
      vals ← find st sc id traverse;
      match vals with
      | _ :: _ => Ret true
      | [] =>
          match parent_of st sc with
          | Some p => if traverse then has fuel st p id traverse else Ret false
          | None => Ret false
          end
      end
  end.
Definition lookupUnique (fuel : nat) (st : store) (sc : nat) (id : ID) (traverse : bool)
    : outcome (option V) :=
  vals ← lookup fuel st sc id traverse;
  match vals with
  | [] => Ret None
  | [v] => Ret (Some v)
  | _ => Abort "assert(vals.size() <= 1)"
  end.

(** [createAlias]: a new scope object over the same data. *)
Definition createAlias (parent : option nat) (sc : nat) (st : store) : nat * store :=
  let a := fresh (dom (scopes st)) in
  (a, set_scope a (mkScope (default 0 (data_handle st sc)) parent) st).

(** [mergeFrom]: the entries of the other map that this one lacks, with their lists. *)
Definition mergeFrom (other : nat) (sc : nat) (st : store) : store :=
  match data_of st other with
  | Some od => update_data (λ d, mkData (data_id d) (children d) (values d ∪ values od)) sc st
  | None => st
  end.

End Store.
Arguments store V : clear implicits.
End Scope.

(** ** Well-formed stores *)

Module ScopeLemmas.
Import Scope.
Section Lemmas.
  Context {V : Type}.
  Implicit Types (st : store V) (d : Data).

(** No dangling handles, lists of values are never empty, scope identifiers have a name. *)
Record data_wf st (d : Data) : Prop := {
  wf_children n c : children d !! n = Some c → is_Some (scopes st !! c);
  wf_values n l : values d !! n = Some l → ∃ x xs, lists st !! l = Some (x :: xs);
  wf_id id : data_id d = Some id → path_ id ≠ [] }.
Record store_wf st : Prop := {
  wf_scopes sc s : scopes st !! sc = Some s → is_Some (datas st !! data_ s);
  wf_datas h d : datas st !! h = Some d → data_wf st d }.

Definition live st (sc : nat) : Prop := is_Some (scopes st !! sc).

Lemma live_data st sc :
  store_wf st → live st sc → ∃ h d, data_handle st sc = Some h ∧ data_of st sc = Some d ∧
                                    datas st !! h = Some d ∧ data_wf st d.
Proof.
  intros [Hs Hd] [s Hsc]. destruct (Hs _ _ Hsc) as [d Hdd].
  exists (data_ s), d. unfold data_of, data_handle. rewrite Hsc. simpl. eauto.
Qed.

Lemma name_total id : path_ id ≠ [] → ∃ n, Id.name id = Ret n.
Proof.
  intros H. unfold Id.name.
  destruct (lookup_lt_is_Some_2 (path_ id) (length (path_ id) - 1)) as [c ->]; [|eauto].
  destruct (path_ id); [done|simpl; lia].
Qed.

Lemma skip_own_total own path :
  (∀ id, own = Some id → path_ id ≠ []) →
  ∃ p, skip_own own path = Ret p ∧ length p ≤ length path ∧ (path = [] → p = []).
Proof.
  intros H. unfold skip_own. destruct path as [|c rest]; [by exists []|].
  destruct own as [id|]; [|by eexists].
  destruct (name_total id (H _ eq_refl)) as [n ->]. cbn [mbind outcome_bind].
  destruct (String.eqb _ _); eexists; (split; [done|]); simpl; split; done || lia.
Qed.

Lemma first_child_Some cs path n c k :
  first_child cs path n = Some (c, k) → 0 < k ≤ n ∧ ∃ s, cs !! s = Some c.
Proof.
  induction n as [|n IH]; [done|]. cbn [first_child].
  destruct (cs !! strjoin (take (S n) path) "::") as [c'|] eqn:E.
  - intros [= <- <-]. split; [lia|eauto].
  - intros H. destruct (IH H) as [? ?]. split; [lia|done].
Qed.

Lemma find_path_total fuel st sc path traverse :
  store_wf st → live st sc → length path < fuel →
  ∃ vals, find_path fuel st sc path traverse = Ret vals.
Proof.
  intros Hw. revert sc path; induction fuel as [|fuel IH]; intros sc path Hl Hf; [lia|].
  cbn [find_path]. destruct (live_data _ _ Hw Hl) as (h & d & _ & -> & _ & [Hc Hv Hid]).
  destruct path as [|c0 p0]; [eauto|].
  destruct (skip_own_total (data_id d) (c0 :: p0) Hid) as (p & -> & Hlen & _).
  cbn [mbind outcome_bind]. destruct p as [|c rest]; [eauto|].
  destruct (if (length rest =? 0)%nat then own_values st d c else None) as [vals|]; [eauto|]. destruct traverse; simpl negb; [|eauto].
  cbn iota. destruct (first_child (children d) (c :: rest) (length (c :: rest))) as [[c' n]|] eqn:E; [|eauto].
  apply first_child_Some in E as [Hn [s Hs]]. apply IH.
  - by apply (Hc s).
  - rewrite length_drop. simpl in *. lia.
Qed.

Lemma find_total st sc id traverse :
  store_wf st → live st sc → ∃ vals, find st sc id traverse = Ret vals.
Proof.
  intros Hw Hl. unfold find. destruct (live_data _ _ Hw Hl) as (h & d & _ & -> & _ & _).
  destruct (own_values st d _); [eauto|]. apply find_path_total; [done|done|lia].
Qed.

(** A change of one data object that keeps it well-formed. *)
Lemma update_data_wf (f : Data → Data) sc st :
  store_wf st → (∀ d, data_of st sc = Some d → data_wf st d → data_wf st (f d)) →
  store_wf (update_data f sc st).
Proof.
  intros [Hs Hd] Hf. unfold update_data. destruct (data_handle st sc) as [h|] eqn:Hh; [|by split].
  destruct (data_of st sc) as [d|] eqn:Hdo; [|by split].
  assert (Hdh : datas st !! h = Some d).
  { unfold data_of in Hdo. by rewrite Hh in Hdo. }
  split; simpl.
  - intros sc' s Hsc. destruct (decide (h = data_ s)) as [->|]; [by rewrite lookup_insert_eq|].
    rewrite lookup_insert_ne by done. by apply (Hs sc').
  - intros h' d' Hd'. destruct (decide (h = h')) as [->|].
    + rewrite lookup_insert_eq in Hd'. injection Hd' as <-.
      destruct (Hf d eq_refl (Hd _ _ Hdh)) as [? ? ?]. by split.
    + rewrite lookup_insert_ne in Hd' by done. destruct (Hd _ _ Hd') as [? ? ?]. by split.
Qed.

Lemma newScope_wf parent st sc st' :
  store_wf st → newScope parent st = (sc, st') → store_wf st' ∧ live st' sc.
Proof.
  intros [Hs Hd]. unfold newScope. intros [= <- <-].
  set (h := fresh (dom (datas st))). set (sc := fresh (dom (scopes st))).
  assert (Hh : datas st !! h = None) by (apply not_elem_of_dom, is_fresh).
  assert (Hsc : scopes st !! sc = None) by (apply not_elem_of_dom, is_fresh).
  split; [split; simpl|].
  - intros sc' s H. destruct (decide (sc = sc')) as [<-|].
    + rewrite lookup_insert_eq in H. injection H as <-. simpl. by rewrite lookup_insert_eq.
    + rewrite lookup_insert_ne in H by done. destruct (Hs _ _ H) as [d Hds].
      rewrite lookup_insert_ne by congruence. by rewrite Hds.
  - intros h' d' H. destruct (decide (h = h')) as [<-|].
    + rewrite lookup_insert_eq in H. injection H as <-. split; simpl; done.
    + rewrite lookup_insert_ne in H by done. destruct (Hd _ _ H) as [H1 H2 H3]. split; simpl; try done.
      intros m c Hc. destruct (H1 m c Hc) as [s Hss]. rewrite lookup_insert_ne by congruence. by rewrite Hss.
  - unfold live; simpl. by rewrite lookup_insert_eq.
Qed.

Lemma set_list_wf l x xs st : store_wf st → store_wf (set_list l (x :: xs) st).
Proof.
  intros [Hs Hd]. split; simpl; [done|]. intros h d H. destruct (Hd _ _ H) as [H1 H2 H3].
  split; simpl; try done. intros n l' Hl'. destruct (decide (l = l')) as [->|].
  - rewrite lookup_insert_eq. eauto.
  - rewrite lookup_insert_ne by done. eauto.
Qed.

Lemma insert_name_wf name v sc st : store_wf st → store_wf (insert_name name v sc st).
Proof.
  intros Hw. unfold insert_name. destruct (data_handle st sc) as [h|] eqn:Hh; [|done].
  destruct (data_of st sc) as [d|] eqn:Hd; [|done].
  assert (Hdh : datas st !! h = Some d). { unfold data_of in Hd. by rewrite Hh in Hd. }
  destruct (values d !! name) as [l|] eqn:Hv.
  - destruct (wf_values _ _ (wf_datas _ Hw _ _ Hdh) _ _ Hv) as (x & xs & ->). simpl.
    by apply set_list_wf.
  - set (l := fresh _). pose proof (set_list_wf l v [] st Hw) as Hw'.
    pose proof (update_data_wf (λ d, mkData (data_id d) (children d) (<[name := l]> (values d)))
      sc (set_list l [v] st) Hw') as Hu.
    unfold update_data in Hu. change (data_handle (set_list l [v] st) sc) with (data_handle st sc) in Hu.
    change (data_of (set_list l [v] st) sc) with (data_of st sc) in Hu. rewrite Hh, Hd in Hu.
    apply Hu. intros d' _ [H1 H2 H3]. split; simpl; try done.
    intros n l' Hn. destruct (decide (name = n)) as [->|].
    + rewrite lookup_insert_eq in Hn. injection Hn as <-. rewrite lookup_insert_eq. eauto.
    + rewrite lookup_insert_ne in Hn by done. by apply (H2 n).
Qed.

Lemma mergeFrom_wf other sc st : store_wf st → store_wf (mergeFrom other sc st).
Proof.
  intros Hw. unfold mergeFrom. destruct (data_of st other) as [od|] eqn:Ho; [|done].
  apply update_data_wf; [done|]. intros d _ [H1 H2 H3]. split; simpl; try done.
  intros n l Hl. apply lookup_union_Some_raw in Hl as [Hl|[_ Hl]]; [by apply (H2 n)|].
  unfold data_of in Ho. destruct (data_handle st other) as [h|]; [|done].
  by apply (wf_values _ _ (wf_datas _ Hw h od Ho) n).
Qed.

Lemma addChild_wf id child sc st : store_wf st → live st child → store_wf (addChild id child sc st).
Proof.
  intros Hw Hl. apply update_data_wf; [done|]. intros d _ [H1 H2 H3]. split; simpl; try done.
  intros n c Hc. destruct (children d !! pathAsString id None) as [?|]; [by apply (H1 n)|].
  destruct (decide (pathAsString id None = n)) as [<-|].
  - rewrite lookup_insert_eq in Hc. by injection Hc as <-.
  - rewrite lookup_insert_ne in Hc by done. by apply (H1 n).
Qed.

(** ** Lookup depends on the data only, so an alias sees what its original sees. *)
Lemma find_same_data st a b id traverse :
  data_handle st a = data_handle st b → find st a id traverse = find st b id traverse.
Proof.
  intros H. unfold find, data_of. rewrite H. destruct (data_handle st b ≫= _) as [d|] eqn:E; [|done].
  destruct (own_values st d _); [done|]. cbn [find_path]. unfold data_of. by rewrite H, E.
Qed.

Lemma insert_name_handles name v sc st a :
  data_handle (insert_name name v sc st) a = data_handle st a.
Proof.
  unfold insert_name. destruct (data_handle st sc); [|done]. destruct (data_of st sc) as [d|]; [|done].
  by destruct (values d !! name).
Qed.

(** The values of [name] after an insertion into the same data. *)
Lemma insert_name_own name v sc st d :
  data_of st sc = Some d →
  ∃ d', data_of (insert_name name v sc st) sc = Some d' ∧ data_id d' = data_id d ∧
        children d' = children d ∧
        own_values (insert_name name v sc st) d' name =
          Some (default [] (own_values st d name) ++ [v]).
Proof.
  intros Hd. unfold insert_name. unfold data_of in *.
  destruct (data_handle st sc) as [h|] eqn:Hh; [|done]. cbn [mbind option_bind] in *. rewrite Hd.
  destruct (values d !! name) as [l|] eqn:Hv.
  - exists d. simpl. change (data_handle (set_list l _ st) sc) with (data_handle st sc).
    rewrite Hh. simpl. split; [done|]. split; [done|]. split; [done|].
    unfold own_values. rewrite Hv. simpl. by rewrite lookup_insert_eq.
  - eexists. unfold data_handle in *; simpl. rewrite Hh. simpl. rewrite lookup_insert_eq.
    split; [done|]. simpl. split; [done|]. split; [done|].
    unfold own_values. simpl. rewrite lookup_insert_eq. simpl. rewrite lookup_insert_eq. by rewrite Hv.
Qed.
End Lemmas.
End ScopeLemmas.
Import Scope ScopeLemmas.

(** On a store without dangling handles, [find] terminates for every identifier: following
    child scopes shortens the path at each step.  [insert], [addChild] and [mergeFrom] keep the
    store well-formed, and a new scope is live. *)
Theorem scope_find_total {V} (st : store V) sc id traverse :
  store_wf st → live st sc →
  (∃ vals, find st sc id traverse = Ret vals) ∧
  (∀ name v, store_wf (insert_name name v sc st)) ∧
  (∀ child, live st child → store_wf (Scope.addChild id child sc st)) ∧
  (∀ other, store_wf (mergeFrom other sc st)) ∧
  (∀ parent sc' st', newScope parent st = (sc', st') → store_wf st' ∧ live st' sc').
Proof.
  intros Hw Hl. split; [by apply find_total|]. split; [by intros; apply insert_name_wf|].
  split; [by intros; apply addChild_wf|]. split; [by intros; apply mergeFrom_wf|].
  intros parent sc' st'. by apply newScope_wf.
Qed.

(** After [insert] of an unscoped identifier, [find] of that identifier gives the values it
    had there followed by the new one; an alias of the scope (which shares its data) sees the
    same. *)
Theorem scope_insert_find {V} (st : store V) sc alias name v traverse d :
  data_of st sc = Some d → data_handle st alias = data_handle st sc →
  let id := mkID [name] in
  ∃ st', insert id v false sc st = Ret (true, st') ∧
         find st' sc id traverse = Ret (default [] (own_values st d name) ++ [v]) ∧
         find st' alias id traverse = find st' sc id traverse.
Proof.
  intros Hd Ha id. exists (insert_name name v sc st). split; [done|]. split.
  - destruct (insert_name_own name v sc st d Hd) as (d' & Hd' & _ & _ & Hv).
    unfold find. rewrite Hd'. change (pathAsString id None) with name. by rewrite Hv.
  - apply find_same_data. by rewrite !insert_name_handles.
Qed.

(** Shadowing: [lookup] returns the values of the innermost scope of the parent chain that
    has any, and [has] agrees with it. *)
Theorem scope_lookup_chain {V} (st : store V) sc id fuel :
  (lookup (S fuel) st sc id true =
     (vals ← find st sc id true;
      match vals, parent_of st sc with
      | [], Some p => lookup fuel st p id true
      | _, _ => Ret vals
      end)) ∧
  (has fuel st sc id true = (λ l, negb (length l =? 0)%nat) <$> lookup fuel st sc id true).
Proof.
  split.
  - cbn [lookup]. destruct (find st sc id true) as [[|v vs]| | |]; try done.
  - revert sc; induction fuel as [|fuel IH]; intros sc; [done|]. cbn [lookup has].
    destruct (find st sc id true) as [[|v vs]| | |]; try done. cbn [mbind outcome_bind].
    destruct (parent_of st sc); [apply IH|done].
Qed.

(** A name may be qualified with the scope's own identifier, in any case: looking up
    [M::x] in the scope of [m] is looking up [x]. *)
Theorem scope_own_qualifier {V} (st : store V) sc d own m q x traverse :
  data_of st sc = Some d → data_id d = Some own → Id.name own = Ret m →
  strtolower q = strtolower m → strtolower x ≠ strtolower m →
  own_values st d (strjoin [q; x] "::") = None →
  find st sc (mkID [q; x]) traverse = find st sc (mkID [x]) traverse.
Proof.
  intros Hd Hid Hn Hq Hx Hnone. unfold find. rewrite Hd.
  rewrite !IdLemmas.pathAsString_full. cbn [path_]. rewrite Hnone.
  change (strjoin [x] "::") with x. cbn [find_path length path_]. rewrite Hd, Hid.
  unfold skip_own. rewrite Hn. cbn [mbind outcome_bind].
  rewrite (proj2 (String.eqb_eq _ _) Hq), (proj2 (String.eqb_neq _ _) Hx). cbn.
  destruct (own_values st d x); [done|]. destruct traverse; [|done]. simpl.
  by destruct (children d !! _).
Qed.

(** [mergeFrom] shares the lists of values: after merging [other], inserting one of the
    merged names here also changes what [other] sees. *)
Theorem scope_merge_shares {V} (st : store V) sc other d od h oh name l vals v :
  data_handle st sc = Some h → data_handle st other = Some oh → h ≠ oh →
  datas st !! h = Some d → datas st !! oh = Some od →
  values d !! name = None → values od !! name = Some l → lists st !! l = Some vals →
  let st' := insert_name name v sc (mergeFrom other sc st) in
  find st' other (mkID [name]) false = Ret (vals ++ [v]).
Proof.
  intros Hh Hoh Hne Hd Hod Hn Hon Hl. simpl.
  assert (Edo : data_of st other = Some od) by (unfold data_of; by rewrite Hoh).
  assert (Eds : data_of st sc = Some d) by (unfold data_of; by rewrite Hh).
  assert (Em : mergeFrom other sc st
               = set_data h (mkData (data_id d) (children d) (values d ∪ values od)) st).
  { unfold mergeFrom, update_data. by rewrite Edo, Hh, Eds. }
  rewrite Em. set (st1 := set_data h _ st).
  assert (E1 : data_of st1 sc = Some (mkData (data_id d) (children d) (values d ∪ values od))).
  { unfold data_of. change (data_handle st1 sc) with (data_handle st sc). rewrite Hh.
    simpl. by rewrite lookup_insert_eq. }
  assert (E2 : insert_name name v sc st1 = set_list l (vals ++ [v]) st1).
  { unfold insert_name. change (data_handle st1 sc) with (data_handle st sc). rewrite Hh, E1.
    simpl. rewrite lookup_union_r by done. rewrite Hon. by rewrite Hl. }
  rewrite E2. unfold find, data_of. change (data_handle _ other) with (data_handle st other).
  rewrite Hoh. simpl. rewrite lookup_insert_ne by done. rewrite Hod.
  change (pathAsString (mkID [name]) None) with name.
  unfold own_values. rewrite Hon. simpl. by rewrite lookup_insert_eq.
Qed.

(** ** Instances *)

(** A scope [M] (0) with the value [x] and a child scope (1), both sharing one store. *)
Definition small_store : store nat :=
  mkStore {[ 0 := [7%nat] ]}
    {[ 0 := mkData (Some (mkID ["M"%string])) {[ "c"%string := 1 ]} {[ "x"%string := 0 ]};
       1 := mkData None ∅ ∅ ]}
    {[ 0 := mkScope 0 None; 1 := mkScope 1 (Some 0) ]}.

Lemma small_store_wf : store_wf small_store.
Proof.
  split.
  - intros sc s Hs. simpl in Hs.
    apply lookup_insert_Some in Hs as [[_ <-]|[_ Hs]]; [vm_compute; eauto|].
    apply lookup_singleton_Some in Hs as [_ <-]. vm_compute. eauto.
  - intros h d Hd. simpl in Hd.
    apply lookup_insert_Some in Hd as [[_ <-]|[_ Hd]]; [|apply lookup_singleton_Some in Hd as [_ <-]].
    + split; simpl.
      * intros n c Hc. apply lookup_singleton_Some in Hc as [_ <-]. vm_compute. eauto.
      * intros n l Hl. apply lookup_singleton_Some in Hl as [_ <-]. vm_compute. eauto.
      * by intros id [= <-].
    + split; simpl; by intros ? ? ?.
Qed.

Lemma scope_find_total_witness :
  ∃ vals, find small_store 0 (mkID ["c"%string; "y"%string]) true = Ret vals.
Proof.
  apply (scope_find_total small_store 0 (mkID ["c"%string; "y"%string]) true small_store_wf).
  vm_compute. eauto.
Defined.

Lemma scope_insert_find_witness :
  ∃ st', insert (mkID ["x"%string]) 8 false 0 small_store = Ret (true, st') ∧
         find st' 0 (mkID ["x"%string]) true = Ret [7; 8] ∧
         find st' 0 (mkID ["x"%string]) true = find st' 0 (mkID ["x"%string]) true.
Proof.
  pose (d := mkData (Some (mkID ["M"%string])) {[ "c"%string := 1 ]} {[ "x"%string := 0 ]}).
  replace [7; 8] with (default [] (own_values small_store d "x") ++ [8]) by reflexivity.
  apply (scope_insert_find small_store 0 0 "x" 8 true d); reflexivity.
Defined.

Lemma scope_own_qualifier_witness :
  find small_store 0 (mkID ["m"%string; "x"%string]) true = find small_store 0 (mkID ["x"%string]) true.
Proof.
  apply (scope_own_qualifier small_store 0
    (mkData (Some (mkID ["M"%string])) {[ "c"%string := 1 ]} {[ "x"%string := 0 ]})
    (mkID ["M"%string]) "M" "m" "x" true); try reflexivity. discriminate.
Defined.

Lemma scope_merge_shares_witness :
  find (insert_name "x" 8 1 (mergeFrom 0 1 small_store)) 0 (mkID ["x"%string]) false = Ret [7; 8].
Proof.
  apply (scope_merge_shares small_store 1 0 (mkData None ∅ ∅)
    (mkData (Some (mkID ["M"%string])) {[ "c"%string := 1 ]} {[ "x"%string := 0 ]})
    1 0 "x" 0 [7] 8); reflexivity || discriminate.
Defined.
