(* ===== verification/Ast.v ===== *)
(** * Types, constants and expressions of the AST
    ([src/src/spec/ast/type], [constant], [ctor], [expression])

    The classes are the constructors of mutually inductive types; members every class of a
    family inherits ([Type::wildcard_], [Expression::scope_], ...) are in a common wrapper.
    A unit type may contain itself through its fields, so it is referred to by a handle into a
    store of units ([Units.v]).  Locations are not modelled, a possibly null [node_ptr] is an
    [option]. *)

From S2P Require Import Prelude Util Ident.
Import Ident.Id.

(** ** Data *)

(** [Operator::Kind]. *)
Inductive op_kind :=
  | OpNone | OpAttribute | OpAttributeAssign | OpBitAnd | OpBitOr | OpBitXor | OpCall | OpCoerce
  | OpCast | OpDecrPostfix | OpDecrPrefix | OpDeref | OpDiv | OpEqual | OpGreater
  | OpHasAttribute | OpIncrPostfix | OpIncrPrefix | OpIn | OpIndex | OpIndexAssign | OpLess
  | OpLogicalAnd | OpLogicalOr | OpMethodCall | OpMinus | OpMinusAssign | OpMod | OpMult | OpNot
  | OpPlus | OpPlusAssign | OpPower | OpShiftLeft | OpShiftRight | OpSignNeg | OpSignPos | OpSize.

(** [ParserState::Kind]. *)
Inductive state_kind := SELF | DOLLARDOLLAR | PARAMETER.

#[export] Instance op_kind_eq_dec : EqDecision op_kind.
Proof. solve_decision. Defined.
#[export] Instance state_kind_eq_dec : EqDecision state_kind.
Proof. solve_decision. Defined.

(** The members of [Type]. *)
Record ty_base := mkTyBase { wildcard_ : bool; ty_id : option ID; ty_scope : string }.

Definition plain : ty_base := mkTyBase false None "".
Definition wild : ty_base := mkTyBase true None "".

(** A finite [double], [mantissa * 2 ^ exponent]. *)
Record double := mkDouble { mantissa : Z; exponent : Z }.

(** [bitset] and [enum] labels with their values. *)
Abbreviation label := (ID * Z)%type.

Inductive ty :=
  | mkTy (b : ty_base) (k : ty_kind)
with ty_kind :=
  | TAny
  | TUnknown (id : option ID)
  | TUnknownElementType (e : expr)
  | TBool | TBytes | TCAddr | TDouble | TSink | TString | TVoid
  | TInteger (width : Z) (signed : bool)
  | TTuple (types : list ty)
  | TMemberAttribute (attr : option ID)
  | TTypeType (t : option ty)
  | TBitfield (width : Z) (bits : list bits)
  | TBitset (labels : list label)
  | TEnum (labels : list label)
  | TList (element : option ty)
  | TVector (element : option ty)
  | TMap (key value : option ty)
  | TSet (element : option ty)
  | TFunction (result : option (ty * bool)) (args : list param)
  | TRegExp (attrs : list attr)
  | TUnit (u : nat)
with bits :=
  | mkBits (id : ID) (lower upper parent_width : Z) (attrs : list attr)
with param :=
  | mkParam (id : option ID) (t : ty) (const : bool) (default_value : option expr)
with attr :=
  | mkAttr (key : string) (value : option expr) (internal : bool)
with expr :=
  | mkExpr (scope : string) (k : expr_kind)
with expr_kind :=
  | EAssign (dst src : expr)
  | EConditional (cond true_ : expr) (false_ : option expr)
  | EConstant (c : constant)
  | ECtor (c : ctor)
  | EFind (list_expr cond_expr found_expr : expr) (not_found_expr : option expr)
  | EFunction (id : ID) (t : ty)
  | EID (id : ID)
  | ELambda (elem_id : ID) (elem_expr : expr)
  | EListComprehension (output : expr) (variable : ID) (input : expr) (predicate : option expr)
  | EMemberAttribute (attribute : ID)
  | EOperator (kind : op_kind) (operands : list expr)
  | EParserState (kind : state_kind) (id : option ID) (unit_ : option ty) (t : ty)
  | ETransform (id : ID) (wire_type internal_type : ty)
  | EType (t : ty)
  | EVariable (id : ID) (t : ty)
with constant :=
  | CInteger (value width : Z) (sign : bool)
  | CBool (value : bool)
  | CDouble (value : double)
  | CEnum (label : ID) (t : ty)
  | CBitset (bits : list ID) (t : ty)
  | CNone
  | CString (value : string)
  | CTuple (elems : list expr)
with ctor :=
  | CtorBytes (value : string)
  | CtorRegExp (patterns : list string) (attrs : list attr).

Definition base (t : ty) : ty_base := match t with mkTy b _ => b end.
Definition kind (t : ty) : ty_kind := match t with mkTy _ k => k end.
Definition wildcard (t : ty) : bool := wildcard_ (base t).
Definition ekind (e : expr) : expr_kind := match e with mkExpr _ k => k end.
Definition new_expr (k : expr_kind) : expr := mkExpr "" k.
Definition attr_key (a : attr) : string := match a with mkAttr k _ _ => k end.
Definition attr_value (a : attr) : option expr := match a with mkAttr _ v _ => v end.
Definition attr_internal (a : attr) : bool := match a with mkAttr _ _ i => i end.

(** The direct subexpressions of an expression, and induction over them. *)
Definition option_list {A} (o : option A) : list A := match o with Some x => [x] | None => [] end.
Definition subexprs (k : expr_kind) : list expr :=
  match k with
  | EAssign d s => [d; s]
  | EConditional c t f => c :: t :: option_list f
  | EConstant (CTuple elems) => elems
  | EFind l c f nf => l :: c :: f :: option_list nf
  | ELambda _ body => [body]
  | EListComprehension o _ i p => o :: i :: option_list p
  | EOperator _ ops => ops
  | _ => []
  end.

Lemma expr_subexprs_ind (P : expr → Prop) :
  (∀ sc k, Forall P (subexprs k) → P (mkExpr sc k)) → ∀ e, P e.
Proof.
  intros H. fix IH 1. intros [sc k]. apply H.
  destruct k as [| c t [f|] |[]| | l c f [nf|] | | | | o v i [p|] | | k ops | | | | ]; simpl;
    repeat (constructor; try apply IH).
  - induction elems; constructor; auto.
  - induction ops; constructor; auto.
Qed.

(** The attributes of an [AttributeMap] built from a list, in key order. *)
Definition attr_map := list (string * attr).
Definition put_attr (m : attr_map) (a : attr) : attr_map :=
  Attribute.insert_key (attr_key a) a (Attribute.erase_key (attr_key a) m).
Definition mk_attrs (l : list attr) : attr_map := foldl put_attr [] l.
Definition attr_lookup (key : string) (m : attr_map) : option attr := Attribute.find_key key m.

(** ** [type()] *)

(** [Expression::type()] and [Constant::type()]. *)
Definition member_attribute_type (a : ID) : ty := mkTy plain (TMemberAttribute (Some a)).
Definition unknown_type : ty := mkTy wild (TUnknown None).

Definition ctor_type (c : ctor) : ty :=
  match c with
  | CtorBytes _ => mkTy plain TBytes
  | CtorRegExp _ _ => mkTy wild (TRegExp [])
  end.

Fixpoint type_of (e : expr) : ty :=
  match e with
  | mkExpr _ k =>
      match k with
      | EAssign dst _ => type_of dst
      | EConditional _ t _ => type_of t
      | EConstant c => constant_type c
      | ECtor c => ctor_type c
      | EFind _ _ found _ => type_of found
      | EFunction _ t => t
      | EID _ => unknown_type
      | ELambda _ body => type_of body
      | EListComprehension output _ _ _ => mkTy plain (TList (Some (type_of output)))
      | EMemberAttribute a => member_attribute_type a
      | EOperator _ _ => unknown_type
      | EParserState _ _ _ t => t
      | ETransform _ _ internal => internal
      | EType t => mkTy plain (TTypeType (Some t))
      | EVariable _ t => t
      end
  end
with constant_type (c : constant) : ty :=
  match c with
  | CInteger _ w s => mkTy plain (TInteger w s)
  | CBool _ => mkTy plain TBool
  | CDouble _ => mkTy plain TDouble
  | CEnum _ t => t
  | CBitset _ t => t
  | CNone => mkTy plain TAny
  | CString _ => mkTy plain TString
  | CTuple elems => mkTy plain (TTuple (map type_of elems))
  end.

(** [Type::equals]: the same class, and [_equals] is not overridden. *)
Definition same_class (a b : ty_kind) : bool :=
  match a, b with
  | TAny, TAny | TUnknown _, TUnknown _ | TUnknownElementType _, TUnknownElementType _
  | TBool, TBool | TBytes, TBytes | TCAddr, TCAddr | TDouble, TDouble | TSink, TSink
  | TString, TString | TVoid, TVoid | TInteger _ _, TInteger _ _ | TTuple _, TTuple _
  | TMemberAttribute _, TMemberAttribute _ | TTypeType _, TTypeType _
  | TBitfield _ _, TBitfield _ _ | TBitset _, TBitset _ | TEnum _, TEnum _ | TList _, TList _
  | TVector _, TVector _ | TMap _ _, TMap _ _ | TSet _, TSet _ | TFunction _ _, TFunction _ _
  | TRegExp _, TRegExp _ | TUnit _, TUnit _ => true
  | _, _ => false
  end.
Definition type_equals (t other : ty) : bool :=
  if same_class (kind t) (kind other) then
    if wildcard t || wildcard other then true else true
  else false.
Definition canCoerceTo (e : expr) (target : ty) : bool := type_equals target (type_of e).

(** ** [clone()]: the node is rebuilt, without its scope.

    [ListComprehension::clone] and [Find::clone] dereference an optional operand. *)
Fixpoint clone (e : expr) : outcome expr :=
  let clone_list := fix clone_list (l : list expr) : outcome (list expr) :=
    match l with
    | [] => Ret []
    | x :: l => x ← clone x; l ← clone_list l; Ret (x :: l)
    end in
  match e with
  | mkExpr _ k =>
      match k with
      | EAssign dst src => d ← clone dst; s ← clone src; Ret (new_expr (EAssign d s))
      | EConditional c t f =>
          f ← match f with Some f => f ← clone f; Ret (Some f) | None => Ret None end;
          c ← clone c; t ← clone t; Ret (new_expr (EConditional c t f))
      | EFind l c f (Some n) =>
          l ← clone l; c ← clone c; f ← clone f; n ← clone n;
          Ret (new_expr (EFind l c f (Some n)))
      | EFind _ _ _ None => Abort "not_found_expr()->clone()"
      | ELambda id b => b ← clone b; Ret (new_expr (ELambda id b))
      | EListComprehension o v i (Some p) =>
          o ← clone o; i ← clone i; p ← clone p;
          Ret (new_expr (EListComprehension o v i (Some p)))
      | EListComprehension _ _ _ None => Abort "predicate()->clone()"
      | EOperator kd ops => ops ← clone_list ops; Ret (new_expr (EOperator kd ops))
      | EConstant _ | ECtor _ | EFunction _ _ | EID _ | EMemberAttribute _
      | EParserState _ _ _ _ | ETransform _ _ _ | EType _ | EVariable _ _ => Ret (new_expr k)
      end
  end.

(** [Attribute::clone] and [AttributeMap::clonedAttributes]. *)
Definition clone_attribute (a : attr) : outcome attr :=
  match a with
  | mkAttr k (Some v) i => v ← clone v; Ret (mkAttr (Attribute.strip_key k) (Some v) i)
  | mkAttr _ None _ => Abort "value()->clone()"
  end.
Fixpoint clonedAttributes (m : attr_map) : outcome (list attr) :=
  match m with
  | [] => Ret []
  | (_, a) :: m => a ← clone_attribute a; m ← clonedAttributes m; Ret (a :: m)
  end.

(** ** [static_serialized_length()] of types and constants

    A negative result means that the length is not static.  [unit_len] is the length of a
    unit ([Units.v]); arithmetic on [ssize_t] that overflows is undefined. *)
Definition ssize (z : Z) : outcome Z :=
  if ((- 2 ^ 63 <=? z) && (z <? 2 ^ 63))%Z%bool then Ret z else Abort "signed overflow".

Section Lengths.
  Context (unit_len : nat → outcome Z).

Fixpoint ty_len (t : ty) : outcome Z :=
  let sum := fix sum (l : list ty) (len : Z) : outcome Z :=
    match l with
    | [] => Ret len
    | t :: l =>
        t_len ← ty_len t;
        if (t_len <? 0)%Z then Ret (-1)%Z else len ← ssize (len + t_len); sum l len
    end in
  match t with
  | mkTy b k =>
      match k with
      | TBool => Ret (if wildcard_ b then -1 else 1)%Z
      | TCAddr | TDouble => Ret (if wildcard_ b then -1 else 8)%Z
      | TVoid => Ret 0%Z
      | TInteger w _ => Ret (if wildcard_ b then -1 else Z.quot w 8)%Z
      | TTuple types => if wildcard_ b then Ret (-1)%Z else sum types 0%Z
      | TBitfield w _ => Ret w
      | TUnit u => if wildcard_ b then Ret (-1)%Z else unit_len u
      | _ => Ret (-1)%Z
      end
  end.

Fixpoint constant_len (c : constant) : outcome Z :=
  let sum := fix sum (l : list expr) (len : Z) : outcome Z :=
    match l with
    | [] => Ret len
    | mkExpr _ (EConstant c) :: l =>
        c_len ← constant_len c;
        if (c_len <? 0)%Z then Ret (-1)%Z else len ← ssize (len + c_len); sum l len
    | _ :: _ => Ret (-1)%Z
    end in
  match c with
  | CString s => Ret (Z.of_nat (String.length s))
  | CTuple elems => sum elems 0%Z
  | _ => ty_len (constant_type c)
  end.
End Lengths.

(** ** Enum and bitset labels *)

Module Labels.

(** The numbering loop of the constructors: a negative value asks for the next free one.
    The additions stay within [int] for label values below 2^31 - 1. *)
Fixpoint number_labels (next : Z) (labels : list label) : list label :=
  match labels with
  | [] => []
  | (id, v) :: labels =>
      let i := if (v <? 0)%Z then next else v in
      (id, i) :: number_labels (Z.max next (i + 1)) labels
  end.

(** [std::list::sort] by name is stable: insertion sort from the back. *)
Definition label_name (l : label) : string :=
  match Id.name l.1 with Ret n => n | _ => "" end.
Fixpoint insert_label (l : label) (ls : list label) : list label :=
  match ls with
  | [] => [l]
  | x :: ls' =>
      if String.ltb (label_name x) (label_name l) then x :: insert_label l ls' else l :: ls
  end.
Definition sort_labels (ls : list label) : list label := foldr insert_label [] ls.

Definition newBitset (labels : list label) : ty_kind :=
  TBitset (sort_labels (number_labels 0 labels)).
Definition newEnum (labels : list label) : outcome ty_kind :=
  if existsb (λ l, id_eqb_string l.1 "UNDEF") labels
  then Throw (AstRuntimeError "enum label 'Undef' is already predefined")
  else Ret (TEnum (sort_labels (number_labels 1 labels ++ [(mkID ["UNDEF"], (-1)%Z)]))).

(** [labelValue] and [labelBit]. *)
Fixpoint label_value (label : ID) (ls : list (ID * Z)) : outcome Z :=
  match ls with
  | [] => Throw (AstInternalError "unknown label")
  | (l, v) :: ls => if id_eqb l label then Ret v else label_value label ls
  end.

(** The check of the [constant::Enum] constructor. *)
Definition newEnumConstant (label : ID) (t : ty) : outcome constant :=
  match kind t with
  | TEnum ls =>
      if existsb (λ l, id_eqb label l.1) ls then Ret (CEnum label t)
      else Throw (AstRuntimeError "unknown enum label")
  | _ => Abort "checkedCast<type::Enum>"
  end.

End Labels.
