(* ===== verification/Units.v ===== *)
(** * Units, their items and fields ([src/src/spec/ast/type/unit.h], [unit.cpp])

    A unit type is an entry of a store, referred to by its handle, because units may contain
    each other.  [Item::id_counter_], the static counter behind the names of anonymous items, is
    threaded through the constructors that may use it. *)

From S2P Require Import Prelude Util Ident Ast.
Import Util.Strings Ident.Id.

Module Units.

(** The members of [Item]. *)
Record item_base := mkItemBase {
  item_id : ID;
  anonymous : bool;
  parsing_only : bool;
  app_accessible : bool;
  item_type : option ty;
  serialized_type_ : option ty;
  attributes_ : attr_map;
  item_unit : option nat }.

(** The members of [Field]. *)
Record field_base := mkFieldBase {
  condition : option expr;
  parameters : list expr;
  sinks : list expr }.

Inductive field :=
  | mkField (b : item_base) (fb : field_base) (k : field_kind)
with field_kind :=
  | FAtomicType
  | FConstant (c : constant)
  | FCtor (c : ctor)
  | FUnknown (referenced_id : ID)
  | FUnit
  | FSwitch (expression : option expr) (cases : list case)
  | FVector (contained_field : field) (length : expr)
  | FList (contained_field : field)
with case :=
  | mkCase (expressions : list expr) (items : list field) (default_ : bool).

Inductive item :=
  | IVariable (b : item_base) (default_value : option expr)
  | IProperty (b : item_base) (property : attr)
  | IField (f : field).

Record unit_type := mkUnit {
  unit_params : list param;
  unit_items : list item;
  unit_wildcard : bool;
  unit_id : option ID;
  unit_module_properties : option attr_map }.  (* the module's properties, if it is set *)

Definition units := gmap nat unit_type.

Definition fbase (f : field) : item_base := match f with mkField b _ _ => b end.
Definition ffield (f : field) : field_base := match f with mkField _ fb _ => fb end.
Definition fkind (f : field) : field_kind := match f with mkField _ _ k => k end.
Definition ibase (i : item) : item_base :=
  match i with IVariable b _ => b | IProperty b _ => b | IField f => fbase f end.

(** ** Constructors *)

(** [ID(std::string)] on a string, which always terminates ([strsplit_strjoin]). *)
Definition id_of_string (s : string) : ID := mkID (default [s] (strsplit s "::")).

(** [Item(id, type, attrs)]: the new item and the counter. *)
Definition newItem (id : option ID) (t : option ty) (attrs : list attr) (ctr : Z)
    : item_base * Z :=
  match id with
  | Some id => (mkItemBase id false false true t None (mk_attrs attrs) None, ctr)
  | None =>
      let ctr := (ctr + 1)%Z in
      (mkItemBase (id_of_string ("__anon" +:+ pretty ctr)) true false true t None (mk_attrs attrs) None, ctr)
  end.

Definition set_anonymous (v : bool) (b : item_base) : item_base :=
  mkItemBase (item_id b) v (parsing_only b) (app_accessible b) (item_type b)
    (serialized_type_ b) (attributes_ b) (item_unit b).
Definition set_parsing_only (v : bool) (b : item_base) : item_base :=
  mkItemBase (item_id b) (anonymous b) v (app_accessible b) (item_type b)
    (serialized_type_ b) (attributes_ b) (item_unit b).
Definition set_application_accessible (v : bool) (b : item_base) : item_base :=
  mkItemBase (item_id b) (anonymous b) (parsing_only b) v (item_type b)
    (serialized_type_ b) (attributes_ b) (item_unit b).
Definition set_id (id : ID) (b : item_base) : item_base :=
  mkItemBase id (anonymous b) (parsing_only b) (app_accessible b) (item_type b)
    (serialized_type_ b) (attributes_ b) (item_unit b).
Definition set_serialized_type (t : ty) (b : item_base) : item_base :=
  mkItemBase (item_id b) (anonymous b) (parsing_only b) (app_accessible b) (item_type b)
    (Some t) (attributes_ b) (item_unit b).
Definition add_attribute (a : attr) (b : item_base) : item_base :=
  mkItemBase (item_id b) (anonymous b) (parsing_only b) (app_accessible b) (item_type b)
    (serialized_type_ b) (put_attr (attributes_ b) a) (item_unit b).
Definition set_unit_ptr (u : nat) (b : item_base) : item_base :=
  mkItemBase (item_id b) (anonymous b) (parsing_only b) (app_accessible b) (item_type b)
    (serialized_type_ b) (attributes_ b) (Some u).

Definition serialized_type (b : item_base) : option ty :=
  match serialized_type_ b with Some t => Some t | None => item_type b end.
Definition has_serialized_type (b : item_base) : bool :=
  match serialized_type_ b with Some _ => true | None => false end.

(** [set_unit]: [Switch] and [Container] pass it on. *)
Fixpoint set_unit (u : nat) (f : field) : field :=
  match f with
  | mkField b fb k =>
      mkField (set_unit_ptr u b) fb
        (match k with
         | FSwitch e cases =>
             FSwitch e (map (λ c, match c with mkCase es fs d => mkCase es (map (set_unit u) fs) d end) cases)
         | FVector c l => FVector (set_unit u c) l
         | FList c => FList (set_unit u c)
         | k => k
         end)
  end.

(** [Field::createByType]; the element field of a list is anonymous. *)
Fixpoint createByType (t : ty) (id : option ID) (cond : option expr) (attrs : list attr)
    (params sinks : list expr) (ctr : Z) : outcome (field * Z) :=
  match t with
  | mkTy _ (TUnit _) =>
      let '(b, ctr) := newItem id (Some t) attrs ctr in
      Ret (mkField b (mkFieldBase cond params sinks) FUnit, ctr)
  | mkTy _ (TList (Some el)) =>
      '(f, ctr) ← createByType el None None [] [] [] ctr;
      let '(b, ctr) := newItem id (Some (mkTy plain TBytes)) attrs ctr in
      Ret (mkField b (mkFieldBase cond [] sinks) (FList f), ctr)
  | mkTy _ (TList None) => Abort "createByType(null)"
  | _ =>
      let '(b, ctr) := newItem id (Some t) attrs ctr in
      Ret (mkField b (mkFieldBase cond [] sinks) FAtomicType, ctr)
  end.

(** ** Queries on a unit *)

(** [_flatten]: the fields of the cases, then the switch. *)
Fixpoint flatten_field (f : field) : list item :=
  match f with
  | mkField _ _ (FSwitch _ cases) =>
      concat (map (λ c, match c with mkCase _ items _ => concat (map flatten_field items) end) cases)
      ++ [IField f]
  | _ => [IField f]
  end.
Definition flatten_item (i : item) : list item :=
  match i with IField f => flatten_field f | _ => [i] end.
Definition flattenedItems (u : unit_type) : list item := concat (map flatten_item (unit_items u)).

Definition as_field (i : item) : option field := match i with IField f => Some f | _ => None end.
Definition fields (u : unit_type) : list field := omap as_field (unit_items u).
Definition flattenedFields (u : unit_type) : list field := omap as_field (flattenedItems u).
Definition as_variable (i : item) : option (item_base * option expr) :=
  match i with IVariable b d => Some (b, d) | _ => None end.
Definition variables (u : unit_type) : list (item_base * option expr) :=
  omap as_variable (unit_items u).
Definition as_property (i : item) : option (item_base * attr) :=
  match i with IProperty b p => Some (b, p) | _ => None end.
Definition properties (u : unit_type) : list (item_base * attr) :=
  omap as_property (unit_items u).

(** [properties(name)] compares the keys of attributes, so [name] loses its sigils. *)
Definition properties_named (name : string) (u : unit_type) : list (item_base * attr) :=
  filter (λ p, Attribute.strip_key name = attr_key p.2) (properties u).
Definition property (prop : string) (u : unit_type) : option (item_base * attr) :=
  match properties_named prop u with p :: _ => Some p | [] => None end.

(** [item(name)]: the first flattened item with that name. *)
Definition has_name (name : string) (i : item) : bool :=
  match Id.name (item_id (ibase i)) with Ret n => String.eqb n name | _ => false end.
Definition find_item (name : string) (u : unit_type) : option item :=
  List.find (has_name name) (flattenedItems u).

(** [path(list, current)]: the item the path leads to, and what is left of the path. *)
Fixpoint path (us : units) (p : list string) (u : unit_type) : outcome (option item * string) :=
  match p with
  | [] => Abort "_path.front()"
  | c :: rest =>
      match find_item c u with
      | None => Ret (None, strjoin p ".")
      | Some next =>
          match rest with
          | [] => Ret (Some next, EmptyString)
          | _ =>
              match next with
              | IField f =>
                  match item_type (fbase f) with
                  | Some (mkTy _ (TUnit h)) =>
                      match us !! h with
                      | Some u' => path us rest u'
                      | None => Abort "unit"
                      end
                  | _ => Ret (Some next, strjoin rest ".")
                  end
              | _ => Ret (Some next, strjoin rest ".")
              end
          end
      end
  end.

(** [Unit::inheritedProperty]: the item, then the unit, then the module. *)
Definition inheritedProperty (pname : string) (u : unit_type) (it : option item_base)
    : option expr :=
  let unit_property := snd <$> property pname u in
  let module_property := unit_module_properties u ≫= attr_lookup pname in
  let item_property := it ≫= λ b, attr_lookup pname (attributes_ b) in
  match item_property, unit_property, module_property with
  | Some a, _, _ => attr_value a
  | None, Some a, _ => attr_value a
  | None, None, Some a => attr_value a
  | None, None, None => None
  end.
Definition item_inheritedProperty (us : units) (pname : string) (b : item_base) : option expr :=
  match item_unit b ≫= λ h, us !! h with
  | Some u => inheritedProperty pname u (Some b)
  | None => None
  end.

(** [Switch::noFields]. *)
Definition is_void (t : ty) : bool := match kind t with TVoid => true | _ => false end.
Definition noFields (cases : list case) : bool :=
  forallb (λ c, match c with
    mkCase _ items _ => forallb (λ f, match item_type (fbase f) with
                                      | Some t => is_void t | None => true end) items end) cases.

(** ** Lengths *)

(** The integer of a constant expression. *)
Definition const_int (e : expr) : option Z :=
  match ekind e with EConstant (CInteger v _ _) => Some v | _ => None end.

Definition attr_const_len (b : item_base) : outcome Z :=
  match attr_lookup "length" (attributes_ b) with
  | None => Ret (-1)%Z
  | Some a =>
      match attr_value a with
      | Some e => Ret (default (-1)%Z (const_int e))
      | None => Ret (-1)%Z
      end
  end.

Section FieldLengths.
  Context (unit_len : nat → outcome Z).

(** [static_serialized_length] of the field classes.  In [Switch] the length of the last case
    is kept in an [int]. *)
Fixpoint field_len (f : field) : outcome Z :=
  let items_len := fix items_len (l : list field) (len : Z) : outcome (option Z) :=
    match l with
    | [] => Ret (Some len)
    | f :: l =>
        f_len ← field_len f;
        if (f_len <? 0)%Z then Ret None else len ← ssize (len + f_len); items_len l len
    end in
  let cases_len := fix cases_len (l : list case) (last_len : Z) (first : bool) : outcome Z :=
    match l with
    | [] => Ret last_len
    | mkCase _ items _ :: l =>
        case_len ← items_len items 0%Z;
        match case_len with
        | None => Ret (-1)%Z
        | Some case_len =>
            if (negb first && negb (last_len =? case_len)%Z)%bool then Ret (-1)%Z
            else cases_len l (swrap 32 case_len) false
        end
    end in
  match f with
  | mkField b fb k =>
      match k with
      | FAtomicType =>
          match serialized_type b with
          | None => Abort "serialized_type()"
          | Some t =>
              type_len ← ty_len unit_len t;
              if (0 <=? type_len)%Z then Ret type_len else attr_const_len b
          end
      | FConstant c => constant_len unit_len c
      | FCtor _ | FUnknown _ | FList _ => Ret (-1)%Z
      | FUnit =>
          match item_type b with
          | Some (mkTy tb (TUnit u)) => if wildcard_ tb then Ret (-1)%Z else unit_len u
          | _ => Abort "checkedCast<type::unit::Unit>"
          end
      | FSwitch _ cases => cases_len cases 0%Z true
      | FVector c len =>
          match const_int len with
          | None => Ret (-1)%Z
          | Some n =>
              f_len ← field_len c;
              if (0 <=? f_len)%Z then ssize (n * f_len) else Ret (-1)%Z
          end
      end
  end.

Fixpoint fields_len (l : list field) (len : Z) : outcome Z :=
  match l with
  | [] => Ret len
  | f :: l =>
      f_len ← field_len f;
      if (f_len <? 0)%Z then Ret (-1)%Z else len ← ssize (len + f_len); fields_len l len
  end.
End FieldLengths.

(** [Unit::static_serialized_length]; fuel bounds the nesting of units. *)
Fixpoint unit_len (fuel : nat) (us : units) (u : nat) : outcome Z :=
  match fuel with
  | O => NoFuel
  | S fuel =>
      match us !! u with
      | None => Abort "unit"
      | Some ut =>
          if unit_wildcard ut then Ret (-1)%Z
          else fields_len (unit_len fuel us) (fields ut) 0%Z
      end
  end.

(** [serialized_length]: an expression, or null.  [Field]'s own version makes a constant of
    the static length, [sizeof(static_len) * 4] = 32 bits wide and signed. *)
Definition const_expr (v : Z) : expr := new_expr (EConstant (CInteger v 32 true)).
Definition op_expr (k : op_kind) (ops : list expr) : expr := new_expr (EOperator k ops).

Section FieldExprs.
  Context (unit_len : nat → outcome Z) (unit_expr : nat → outcome (option expr)).

Definition base_length (f : field) : outcome (option expr) :=
  n ← field_len unit_len f;
  Ret (if (0 <=? n)%Z then Some (const_expr n) else None).

Fixpoint serialized_length (f : field) : outcome (option expr) :=
  match f with
  | mkField b fb k =>
      match k with
      | FAtomicType =>
          len ← base_length f;
          match len with
          | Some e => Ret (Some e)
          | None => Ret (attr_lookup "length" (attributes_ b) ≫= attr_value)
          end
      | FUnit =>
          match item_type b with
          | Some (mkTy tb (TUnit u)) => if wildcard_ tb then Ret None else unit_expr u
          | _ => Abort "checkedCast<type::unit::Unit>"
          end
      | FVector c length =>
          len ← base_length f;
          match len with
          | Some e => Ret (Some e)
          | None =>
              f_len ← serialized_length c;
              Ret (match f_len with
                   | Some e => Some (op_expr OpMult [length; e])
                   | None => None
                   end)
          end
      | FConstant _ | FCtor _ | FUnknown _ | FSwitch _ _ | FList _ => base_length f
      end
  end.

(** [Unit::serialized_length]: the sum, null as soon as a field has none. *)
Fixpoint fields_expr (l : list field) (len : option expr) : outcome (option expr) :=
  match l with
  | [] => Ret len
  | f :: l =>
      f_len ← serialized_length f;
      match f_len with
      | None => Ret None
      | Some f_len =>
          fields_expr l (Some (match len with
                               | Some len => op_expr OpPlus [len; f_len]
                               | None => f_len
                               end))
      end
  end.
End FieldExprs.

Fixpoint unit_expr (fuel : nat) (us : units) (u : nat) : outcome (option expr) :=
  match fuel with
  | O => NoFuel
  | S fuel =>
      match us !! u with
      | None => Abort "unit"
      | Some ut =>
          if unit_wildcard ut then Ret None
          else fields_expr (unit_len fuel us) (unit_expr fuel us) (fields ut) None
      end
  end.

(** ** [clone()] *)

Definition clone_opt (o : option expr) : outcome (option expr) :=
  match o with Some e => e ← clone e; Ret (Some e) | None => Ret None end.
Fixpoint clone_exprs (l : list expr) : outcome (list expr) :=
  match l with
  | [] => Ret []
  | e :: l => e ← clone e; l ← clone_exprs l; Ret (e :: l)
  end.

(** The item a clone starts from: identifier and type of the original, cloned attributes. *)
Definition clone_base (b : item_base) (t : option ty) : outcome item_base :=
  attrs ← clonedAttributes (attributes_ b);
  let nb := (newItem (Some (item_id b)) t attrs 0).1 in
  let nb := set_parsing_only (parsing_only b) (set_anonymous (anonymous b) nb) in
  Ret (match serialized_type_ b with Some t => set_serialized_type t nb | None => nb end).

Definition ctor_field_type : ty := mkTy plain TBytes.

Fixpoint clone_field (f : field) (ctr : Z) : outcome (field * Z) :=
  let clone_fields := fix clone_fields (l : list field) (ctr : Z) : outcome (list field * Z) :=
    match l with
    | [] => Ret ([], ctr)
    | f :: l =>
        '(f, ctr) ← clone_field f ctr;
        '(l, ctr) ← clone_fields l ctr;
        Ret (f :: l, ctr)
    end in
  let clone_cases := fix clone_cases (l : list case) (ctr : Z) : outcome (list case * Z) :=
    match l with
    | [] => Ret ([], ctr)
    | mkCase es items _ :: l =>
        es ← clone_exprs es;
        '(items, ctr) ← clone_fields items ctr;
        '(l, ctr) ← clone_cases l ctr;
        Ret (mkCase es items false :: l, ctr)
    end in
  match f with
  | mkField b fb k =>
      sinks' ← clone_exprs (sinks fb);
      match k with
      | FAtomicType =>
          c ← clone_opt (condition fb);
          b ← clone_base b (item_type b);
          Ret (mkField b (mkFieldBase c [] sinks') FAtomicType, ctr)
      | FConstant cst =>
          c ← clone_opt (condition fb);
          b ← clone_base b (Some (constant_type cst));
          Ret (mkField b (mkFieldBase c [] sinks') (FConstant cst), ctr)
      | FCtor ct =>
          c ← clone_opt (condition fb);
          b ← clone_base b (Some ctor_field_type);
          Ret (mkField b (mkFieldBase c [] sinks') (FCtor ct), ctr)
      | FUnknown r =>
          ps ← clone_exprs (parameters fb);
          c ← clone_opt (condition fb);
          b ← clone_base b None;
          Ret (mkField b (mkFieldBase c ps sinks') (FUnknown r), ctr)
      | FUnit =>
          ps ← clone_exprs (parameters fb);
          c ← clone_opt (condition fb);
          b ← clone_base b (item_type b);
          Ret (mkField b (mkFieldBase c ps sinks') FUnit, ctr)
      | FSwitch e cases =>
          '(cases, ctr) ← clone_cases cases ctr;
          c ← clone_opt (condition fb);
          e ← clone_opt e;
          let '(nb, ctr) := newItem None None [] ctr in
          let nb := set_parsing_only (parsing_only b)
                      (set_anonymous (anonymous b) (set_id (item_id b) nb)) in
          Ret (mkField nb (mkFieldBase c [] []) (FSwitch e cases), ctr)
      | FVector cf len =>
          c ← clone_opt (condition fb);
          '(cf, ctr) ← clone_field cf ctr;
          len ← clone len;
          b ← clone_base b (Some (mkTy plain TBytes));
          Ret (mkField b (mkFieldBase c [] sinks') (FVector cf len), ctr)
      | FList cf =>
          c ← clone_opt (condition fb);
          '(cf, ctr) ← clone_field cf ctr;
          b ← clone_base b (Some (mkTy plain TBytes));
          Ret (mkField b (mkFieldBase c [] sinks') (FList cf), ctr)
      end
  end.

(** [Variable::clone] keeps only [parsing_only]; [Property::clone] rebuilds the item. *)
Definition newProperty (a : attr) : item :=
  IProperty (newItem (Some (id_of_string ("%" +:+ attr_key a))) None [] 0).1 a.
Definition clone_item (i : item) (ctr : Z) : outcome (item * Z) :=
  match i with
  | IVariable b d =>
      d ← clone_opt d;
      attrs ← clonedAttributes (attributes_ b);
      let nb := (newItem (Some (item_id b)) (item_type b) attrs 0).1 in
      Ret (IVariable (set_parsing_only (parsing_only b) nb) d, ctr)
  | IProperty _ a => a ← clone_attribute a; Ret (newProperty a, ctr)
  | IField f => '(f, ctr) ← clone_field f ctr; Ret (IField f, ctr)
  end.

End Units.
