(* ===== verification/Wire.v ===== *)
(** * What the lengths mean

    An abstract specification of the sizes of serialized units, independent of the code that
    computes them, and the theorems that [static_serialized_length] and [serialized_length]
    ([src/src/spec/ast/type/unit.cpp]) agree with it.

    [wire us M rho x n] says that in a message in which the expressions of the unit have the
    values [rho], the piece [x] of the unit takes [n] bytes: a switch takes the first case one of
    whose labels has the value of its expression, else its default case, else nothing; an
    embedded unit has values of its own.  [M] says which messages are meant: whether a switch may
    fall to its default or take no case at all, whether there are bit fields, and whether the
    lengths of embedded units may depend on the message; every theorem names the messages it is
    about.  Values are integers without a bound: the wrap-around of a length expression in C++ is
    not part of the sizes.  Conditions of fields are not part of them either (every field is
    present), as in the code. *)

From S2P Require Import Prelude Util Ident Ast Units.
From Stdlib Require Import Sorting.Sorted.
Import Ident.Id Units.Units.

(** ** Values of length expressions *)

Class LengthSemantics (rho : expr → option Z) : Prop := {
  sem_const s v w sg : rho (mkExpr s (EConstant (CInteger v w sg))) = Some v;
  sem_plus s a b x y :
    rho a = Some x → rho b = Some y → rho (mkExpr s (EOperator OpPlus [a; b])) = Some (x + y)%Z;
  sem_mult s a b x y :
    rho a = Some x → rho b = Some y → rho (mkExpr s (EOperator OpMult [a; b])) = Some (x * y)%Z;
  sem_mult_0 s a b : rho a = Some 0%Z → rho (mkExpr s (EOperator OpMult [a; b])) = Some 0%Z;
  sem_clone e e' : clone e = Ret e' → rho e' = rho e }.

(** ** An evaluator of length expressions *)

(** [self.x], and the values of the fields of the unit. *)
Definition self_member (a b : expr) : option string :=
  match ekind a, ekind b with
  | EParserState SELF _ _ _, EMemberAttribute (mkID [x]) => Some x
  | _, _ => None
  end.
Fixpoint eval_in (vals : string → option Z) (e : expr) : option Z :=
  match e with
  | mkExpr _ (EConstant (CInteger v _ _)) => Some v
  | mkExpr _ (EOperator OpPlus [a; b]) =>
      x ← eval_in vals a; y ← eval_in vals b; Some (x + y)%Z
  | mkExpr _ (EOperator OpMult [a; b]) =>
      match eval_in vals a with
      | Some 0%Z => Some 0%Z
      | Some x => y ← eval_in vals b; Some (x * y)%Z
      | None => None
      end
  | mkExpr _ (EOperator OpAttribute [a; b]) => x ← self_member a b; vals x
  | _ => None
  end.

(** The value of a constant length expression. *)
Definition eval_len : expr → option Z := eval_in (λ _, None).

(** A clone of a leaf is the leaf, and only a leaf clones into one. *)
Lemma clone_leaf e e' :
  clone e = Ret e' →
  (match ekind e' with EParserState _ _ _ _ | EMemberAttribute _ => true | _ => false end =
   match ekind e with EParserState _ _ _ _ | EMemberAttribute _ => true | _ => false end) ∧
  (match ekind e with EParserState _ _ _ _ | EMemberAttribute _ => ekind e' = ekind e | _ => True end).
Proof.
  destruct e as [s k]. destruct k as
    [d c|c t [f|]|c|c|l c f [n|]|id t|id|id b|o v i [p|]|a|kd ops|kd id u t|id w i|t|id t];
    cbn [clone]; intros H; destruct_Ret H; try done; by injection H as <-.
Qed.
Lemma self_member_clone a b a' b' :
  clone a = Ret a' → clone b = Ret b' → self_member a' b' = self_member a b.
Proof.
  intros [Ha1 Ha2]%clone_leaf [Hb1 Hb2]%clone_leaf. unfold self_member.
  destruct (ekind a) as [| | | | | | | | | | |k i u t| | | ]; try (by destruct (ekind a')).
  rewrite Ha2. destruct k; try done.
  destruct (ekind b) as [| | | | | | | | |m| | | | | ]; try (by destruct (ekind b')).
  by rewrite Hb2.
Qed.

Lemma eval_in_clone vals : ∀ e e', clone e = Ret e' → eval_in vals e' = eval_in vals e.
Proof.
  fix IH 1. intros [s k] e'. destruct k as
    [d c|c t [f|]|c|c|l c f [n|]|id t|id|id b|o v i [p|]|a|kd ops|kd id u t|id w i|t|id t];
    cbn [clone]; intros H; destruct_Ret H; try done; try (injection H as <-; done).
  destruct ops as [|x [|y [|z ops]]].
  - injection E as <-. injection H as <-. by destruct kd.
  - destruct_Ret E. injection E as <-. injection H as <-. by destruct kd.
  - destruct_Ret E. destruct_Ret E1. injection E1 as <-. injection E as <-. injection H as <-. simpl.
    destruct kd; try done; rewrite ?(IH x _ E0), ?(IH y _ E2); try done.
    by rewrite (self_member_clone _ _ _ _ E0 E2).
  - destruct_Ret E. destruct_Ret E1. destruct_Ret E3. injection E3 as <-. injection E1 as <-.
    injection E as <-. injection H as <-. by destruct kd.
Qed.

#[export] Instance eval_in_semantics vals : LengthSemantics (eval_in vals).
Proof.
  split; simpl.
  - done.
  - by intros _ a b x y -> ->.
  - intros _ a b x y -> ->. simpl. by destruct x.
  - by intros _ a b ->.
  - intros e e'. apply eval_in_clone.
Qed.
#[export] Instance eval_len_semantics : LengthSemantics eval_len.
Proof. apply eval_in_semantics. Qed.

(** Constant length expressions have their value in every message. *)
Lemma eval_len_sem rho `{!LengthSemantics rho} : ∀ e z, eval_len e = Some z → rho e = Some z.
Proof.
  unfold eval_len. fix IH 1. intros [s k] z.
  destruct k as [| | c | | | | | | | | kd ops | | | | ]; try done.
  - destruct c; try done. intros [= <-]. apply sem_const.
  - destruct ops as [|x [|y [|w ops]]]; try (by destruct kd). simpl.
    destruct kd; try done.
    + by destruct (self_member x y).
    + destruct (eval_in _ x) as [[|a|a]|] eqn:Ex; try done.
      { intros [= <-]. by apply sem_mult_0, IH. }
      all: destruct (eval_in _ y) as [b|] eqn:Ey; try done; intros [= <-];
        apply (sem_mult s x y); by apply IH.
    + destruct (eval_in _ x) as [a|] eqn:Ex; [|done]. destruct (eval_in _ y) as [b|] eqn:Ey; [|done].
      intros [= <-]. by apply sem_plus; apply IH.
Qed.

(** ** Switches and messages *)

(** What a switch does with the value of its expression. *)
Inductive choice :=
  | ByLabel (items : list field)
  | ByDefault (items : list field)
  | NoCase.
Definition chosen (c : choice) : list field :=
  match c with ByLabel l | ByDefault l => l | NoCase => [] end.

Section Choose.
  Context (rho : expr → option Z).

(** Whether one of the labels has the value; the labels are evaluated in order. *)
Fixpoint has_label (v : Z) (es : list expr) : option bool :=
  match es with
  | [] => Some false
  | e :: es => w ← rho e; if (w =? v)%Z then Some true else has_label v es
  end.
Fixpoint choose (v : Z) (l : list case) (dflt : choice) : option choice :=
  match l with
  | [] => Some dflt
  | mkCase es items d :: l =>
      b ← has_label v es;
      if b : bool then Some (ByLabel items)
      else choose v l (if d then ByDefault items else dflt)
  end.
End Choose.

(** The messages a statement is about. *)
Record messages := mkMessages {
  by_default : bool;        (* a switch may fall to its default case *)
  by_none : bool;           (* a switch may take no case *)
  bitfields : bool;         (* there may be bit fields *)
  own_lengths : bool }.     (* lengths in embedded units may depend on the message *)

Definition admits (M : messages) (c : choice) : bool :=
  match c with ByLabel _ => true | ByDefault _ => by_default M | NoCase => by_none M end.

(** Every message. *)
Definition all_messages : messages := mkMessages true true true true.
(** Messages without bit fields in which every switch takes a case. *)
Definition cases_taken : messages := mkMessages true false false true.
(** And with constant lengths in embedded units. *)
Definition flat_cases_taken : messages := mkMessages true false false false.
(** Messages in which no switch falls to its default case. *)
Definition no_defaults : messages := mkMessages false true true true.
(** Messages without bit fields in which every switch takes a case by a label, and with
    constant lengths in embedded units. *)
Definition flat_labels_taken : messages := mkMessages false false false false.

(** ** Sizes *)

(** The pieces a size is defined for. *)
Inductive piece :=
  | PTy (t : ty)
  | PTys (l : list ty)
  | PConst (c : constant)
  | PConsts (l : list expr)
  | PField (f : field)
  | PFields (l : list field)
  | PCopies (f : field) (k : nat)
  | PUnit (u : nat).

(** The attributes of an item are a map: keys in order, each that of its attribute, and
    without sigils. *)
Definition attrs_wf (m : attr_map) : Prop :=
  StronglySorted str_lt m.*1 ∧
  Forall (λ p, attr_key p.2 = p.1 ∧ Attribute.strip_key p.1 = p.1) m.

(** The types without a length of their own that a length attribute may complete. *)
Definition sized_by_attr (t : ty) : bool :=
  match kind t with TBytes | TString => true | _ => false end.

Inductive wire (us : units) (M : messages) : (expr → option Z) → piece → Z → Prop :=
  | W_bool rho b : wildcard_ b = false → wire us M rho (PTy (mkTy b TBool)) 1
  | W_caddr rho b : wildcard_ b = false → wire us M rho (PTy (mkTy b TCAddr)) 8
  | W_double rho b : wildcard_ b = false → wire us M rho (PTy (mkTy b TDouble)) 8
  | W_void rho b : wire us M rho (PTy (mkTy b TVoid)) 0
  | W_integer rho b w s :
      wildcard_ b = false → (0 ≤ w)%Z → wire us M rho (PTy (mkTy b (TInteger w s))) (w / 8)
  | W_bitfield rho b w l :
      bitfields M = true → (0 ≤ w)%Z → wire us M rho (PTy (mkTy b (TBitfield w l))) (w / 8)
  | W_tuple rho b l n :
      wildcard_ b = false → wire us M rho (PTys l) n → wire us M rho (PTy (mkTy b (TTuple l))) n
  | W_tys_nil rho : wire us M rho (PTys []) 0
  | W_tys_cons rho t l n m :
      wire us M rho (PTy t) n → wire us M rho (PTys l) m → wire us M rho (PTys (t :: l)) (n + m)
  | W_string rho s : wire us M rho (PConst (CString s)) (Z.of_nat (String.length s))
  | W_ctuple rho l n : wire us M rho (PConsts l) n → wire us M rho (PConst (CTuple l)) n
  | W_cother rho c n :
      (match c with CString _ | CTuple _ => False | _ => True end) →
      wire us M rho (PTy (constant_type c)) n → wire us M rho (PConst c) n
  | W_consts_nil rho : wire us M rho (PConsts []) 0
  | W_consts_cons rho s c l n m :
      wire us M rho (PConst c) n → wire us M rho (PConsts l) m →
      wire us M rho (PConsts (mkExpr s (EConstant c) :: l)) (n + m)
  | W_atomic rho b fb t n :
      serialized_type b = Some t → wire us M rho (PTy t) n → wire us M rho (PField (mkField b fb FAtomicType)) n
  | W_bytes rho b fb t a e n :
      serialized_type b = Some t → sized_by_attr t = true → attrs_wf (attributes_ b) →
      attr_lookup "length" (attributes_ b) = Some a → attr_value a = Some e →
      rho e = Some n → (0 ≤ n)%Z → wire us M rho (PField (mkField b fb FAtomicType)) n
  | W_constant rho b fb c n :
      wire us M rho (PConst c) n → wire us M rho (PField (mkField b fb (FConstant c))) n
  | W_unit_field rho own b fb tb u n :
      item_type b = Some (mkTy tb (TUnit u)) → wildcard_ tb = false → LengthSemantics own →
      (own_lengths M = false → own = eval_len) → wire us M own (PUnit u) n →
      wire us M rho (PField (mkField b fb FUnit)) n
  | W_switch rho b fb e cases v c n :
      rho e = Some v → choose rho v cases NoCase = Some c → admits M c = true →
      wire us M rho (PFields (chosen c)) n →
      wire us M rho (PField (mkField b fb (FSwitch (Some e) cases))) n
  | W_vector rho b fb c len k n :
      rho len = Some (Z.of_nat k) → wire us M rho (PCopies c k) n →
      wire us M rho (PField (mkField b fb (FVector c len))) n
  | W_list rho b fb c k n :
      wire us M rho (PCopies c k) n → wire us M rho (PField (mkField b fb (FList c))) n
  | W_fields_nil rho : wire us M rho (PFields []) 0
  | W_fields_cons rho f l n m :
      wire us M rho (PField f) n → wire us M rho (PFields l) m → wire us M rho (PFields (f :: l)) (n + m)
  | W_copies_nil rho f : wire us M rho (PCopies f 0) 0
  | W_copies_cons rho f k n m :
      wire us M rho (PField f) n → wire us M rho (PCopies f k) m → wire us M rho (PCopies f (S k)) (n + m)
  | W_unit rho u ut n :
      us !! u = Some ut → unit_wildcard ut = false → wire us M rho (PFields (fields ut)) n →
      wire us M rho (PUnit u) n.

(** Bytes constructors, unresolved fields, switches without an expression, and units used as the type of an atomic
    field (the code makes those unit fields) have no size here. *)

Lemma wire_nonneg us M rho x n : wire us M rho x n → (0 ≤ n)%Z.
Proof. induction 1; try lia; apply Z.div_pos; lia. Qed.

Lemma wire_fields_cons_inv us M rho f l m :
  wire us M rho (PFields (f :: l)) m →
  ∃ n k, m = (n + k)%Z ∧ wire us M rho (PField f) n ∧ wire us M rho (PFields l) k.
Proof. intros H. inversion H; subst. eauto. Qed.

(** ** The loops of the length computations *)

Section Loops.
  Context (ul : nat → outcome Z).

Fixpoint tys_len (l : list ty) (len : Z) : outcome Z :=
  match l with
  | [] => Ret len
  | t :: l =>
      t_len ← ty_len ul t;
      if (t_len <? 0)%Z then Ret (-1)%Z else len ← ssize (len + t_len); tys_len l len
  end.
Fixpoint consts_len (l : list expr) (len : Z) : outcome Z :=
  match l with
  | [] => Ret len
  | mkExpr _ (EConstant c) :: l =>
      c_len ← constant_len ul c;
      if (c_len <? 0)%Z then Ret (-1)%Z else len ← ssize (len + c_len); consts_len l len
  | _ :: _ => Ret (-1)%Z
  end.
Fixpoint items_len (l : list field) (len : Z) : outcome (option Z) :=
  match l with
  | [] => Ret (Some len)
  | f :: l =>
      f_len ← field_len ul f;
      if (f_len <? 0)%Z then Ret None else len ← ssize (len + f_len); items_len l len
  end.
Fixpoint cases_len (l : list case) (last_len : Z) (first : bool) : outcome Z :=
  match l with
  | [] => Ret last_len
  | mkCase _ items _ :: l =>
      case_len ← items_len items 0%Z;
      match case_len with
      | None => Ret (-1)%Z
      | Some case_len =>
          if (negb first && negb (last_len =? case_len)%Z)%bool then Ret (-1)%Z
          else cases_len l (swrap 32 case_len) false
      end
  end.

Lemma ty_len_tuple b l :
  ty_len ul (mkTy b (TTuple l)) = if wildcard_ b then Ret (-1)%Z else tys_len l 0.
Proof using Type. reflexivity. Qed.
Lemma constant_len_tuple l : constant_len ul (CTuple l) = consts_len l 0.
Proof using Type. reflexivity. Qed.
Lemma field_len_switch b fb e cases :
  field_len ul (mkField b fb (FSwitch e cases)) = cases_len cases 0 true.
Proof using Type. reflexivity. Qed.

Lemma ssize_Ret z r : ssize z = Ret r → r = z.
Proof using Type. unfold ssize. case_bool; [|done]. by intros [= <-]. Qed.
End Loops.

(** ** Static lengths are correct *)

Section StaticLengths.
  Context (us : units) (M : messages) (Hnone : by_none M = false) (Hbits : bitfields M = false).

Lemma const_int_rho rho `{!LengthSemantics rho} e v : const_int e = Some v → rho e = Some v.
Proof using Type.
  destruct e as [s k]. unfold const_int; simpl. destruct k; try done. destruct c; try done.
  intros [= <-]. apply sem_const.
Qed.

Lemma cases_len_same ul l n m :
  (0 ≤ m < 2 ^ 31)%Z → cases_len ul l m false = Ret n → (0 ≤ n)%Z → n = m.
Proof using Type.
  intros Hm. revert n; induction l as [|[es items d] l IH]; intros n; cbn [cases_len].
  { by intros [= <-]. }
  destruct (items_len ul items 0) as [[c|]| | |]; try done; cbn [mbind outcome_bind].
  - simpl. destruct (Z.eqb_spec m c) as [<-|]; simpl; [|intros [= <-]; lia].
    rewrite swrap_small by lia. apply IH.
  - intros [= <-]. lia.
Qed.

Lemma cases_len_taken ul cases es items d last first n m :
  mkCase es items d ∈ cases → (0 ≤ m < 2 ^ 31)%Z →
  (∀ r, items_len ul items 0 = Ret (Some r) → r = m) →
  cases_len ul cases last first = Ret n → (0 ≤ n)%Z → n = m.
Proof using Type.
  intros Hin Hm Hit. revert last first; induction cases as [|[es' items' d'] cases IH];
    intros last first Hl Hn; [by apply elem_of_nil in Hin|]. cbn [cases_len] in Hl.
  destruct (items_len ul items' 0) as [[c|]| | |] eqn:E; try done; cbn [mbind outcome_bind] in Hl.
  2: { injection Hl as <-. lia. }
  destruct (negb first && negb (last =? c)%Z)%bool; [injection Hl as <-; lia|].
  apply elem_of_cons in Hin as [[= -> -> ->]|Hin]; [|by eapply IH].
  rewrite (Hit c E), swrap_small in Hl by lia. by eapply cases_len_same.
Qed.

(** What the code computes for each kind of piece. *)
Definition static_ok (x : piece) (m : Z) : Prop :=
  (m < 2 ^ 31)%Z → ∀ fuel, let ul := unit_len fuel us in
  match x with
  | PTy t => ∀ n, ty_len ul t = Ret n → n = m
  | PTys l => ∀ len r, (0 ≤ len)%Z → tys_len ul l len = Ret r → r = (len + m)%Z
  | PConst c => ∀ n, constant_len ul c = Ret n → n = m
  | PConsts l => ∀ len r, (0 ≤ len)%Z → consts_len ul l len = Ret r → r = (len + m)%Z
  | PField f => ∀ n, field_len ul f = Ret n → (0 ≤ n)%Z → n = m
  | PFields l =>
      (∀ len r, (0 ≤ len)%Z → items_len ul l len = Ret (Some r) → r = (len + m)%Z) ∧
      (∀ len r, (0 ≤ len)%Z → fields_len ul l len = Ret r → (0 ≤ r)%Z → r = (len + m)%Z)
  | PCopies f k => ∀ n, field_len ul f = Ret n → (0 ≤ n)%Z → m = (Z.of_nat k * n)%Z
  | PUnit u => ∀ n, ul u = Ret n → (0 ≤ n)%Z → n = m
  end.

Ltac sizes := repeat match goal with H : wire us M _ _ _ |- _ =>
  let H' := fresh in pose proof (wire_nonneg _ _ _ _ _ H) as H'; clear H end.

Lemma static_ok_fields f l n m :
  (0 ≤ n)%Z → (0 ≤ m)%Z → static_ok (PField f) n → static_ok (PFields l) m →
  static_ok (PFields (f :: l)) (n + m).
Proof using Type.
  intros Hn Hm IHf IHl Hlt fuel. cbn zeta. specialize (IHf ltac:(lia) fuel).
  destruct (IHl ltac:(lia) fuel) as [IHl1 IHl2].
  split; intros len r Hlen; cbn [items_len fields_len];
    destruct (field_len _ f) as [k| | |] eqn:E; try done; cbn [mbind outcome_bind];
    destruct (Z.ltb_spec k 0); try done.
  - rewrite (IHf k E) by lia. destruct (ssize _) as [s| | |] eqn:Es; try done; cbn.
    apply ssize_Ret in Es as ->. intros Hr. apply IHl1 in Hr; lia.
  - intros [= <-]. lia.
  - rewrite (IHf k E) by lia. destruct (ssize _) as [s| | |] eqn:Es; try done; cbn.
    apply ssize_Ret in Es as ->. intros Hr ?. apply IHl2 in Hr; lia.
Qed.

(** A case the switch takes is one of its cases. *)
Lemma choose_in rho v cases dflt c :
  choose rho v cases dflt = Some c → admits M c = true →
  c = dflt ∨ ∃ es d, mkCase es (chosen c) d ∈ cases.
Proof using Type.
  revert dflt; induction cases as [|[es items d] cases IH]; intros dflt; cbn [choose].
  { intros [= ->]. by left. }
  destruct (has_label rho v es) as [[]|]; cbn [mbind option_bind]; [|intros H Ha|done].
  - intros [= <-] _. right. exists es, d. by left.
  - destruct (IH _ H Ha) as [->|(es' & d' & Hin)]; [|right; exists es', d'; by right].
    destruct d; [|by left]. right. exists es, true. by left.
Qed.
Lemma choose_taken rho v cases c :
  choose rho v cases NoCase = Some c → admits M c = true → ∃ es d, mkCase es (chosen c) d ∈ cases.
Proof using Hnone.
  intros H Ha. destruct (choose_in _ _ _ _ _ H Ha) as [->|]; [|done]. simpl in Ha. by rewrite Hnone in Ha.
Qed.

Lemma wire_static rho x m : wire us M rho x m → LengthSemantics rho → static_ok x m.
Proof using Hnone Hbits.
  induction 1 as [rho b Hb|rho b Hb|rho b Hb|rho b|rho b w s Hb Hw|rho b w l Hb Hw|rho b l n Hb _ IH|rho
    |rho t l n m Ht IHt Hl IHl|rho s|rho l n _ IH|rho c n Hc _ IH|rho|rho s c l n m Hc IHc Hl IHl
    |rho b fb t n Ht Hwt IH|rho b fb t a e n Ht Hs Hwf Ha He Hr Hn|rho b fb c n Hwc IH
    |rho own b fb tb u n Ht Hw Hown Heq Hu IH|rho b fb e cases v c n He Hch Had Hit IH
    |rho b fb c len k n Hr Hc IH|rho b fb c k n Hc IH|rho|rho f l n m Hf IHf Hl IHl|rho f
    |rho f k n m Hf IHf Hc IHc|rho u ut n Hu Hw Hf IH]; intros Hsem Hlt fuel; cbn zeta.
  - simpl. rewrite Hb. by intros ? [= <-].
  - simpl. rewrite Hb. by intros ? [= <-].
  - simpl. rewrite Hb. by intros ? [= <-].
  - simpl. by intros ? [= <-].
  - simpl. rewrite Hb. intros ? [= <-]. by rewrite Z.quot_div_nonneg by lia.
  - congruence.
  - rewrite ty_len_tuple, Hb. intros r Hr. apply (IH _ Hlt fuel) in Hr; [|lia]. lia.
  - cbn [tys_len]. intros len r _ [= <-]. lia.
  - sizes. intros len r Hlen. cbn [tys_len]. destruct (ty_len _ t) as [k| | |] eqn:E; try done.
    apply (IHt _ ltac:(lia) fuel) in E as ->. cbn [mbind outcome_bind].
    rewrite (proj2 (Z.ltb_ge n 0)) by lia. destruct (ssize _) as [s| | |] eqn:Es; try done; cbn.
    apply ssize_Ret in Es as ->. intros Hr. apply (IHl _ ltac:(lia) fuel) in Hr; lia.
  - simpl. by intros ? [= <-].
  - rewrite constant_len_tuple. intros r Hr. apply (IH _ Hlt fuel) in Hr; [|lia]. lia.
  - intros r Hr. apply (IH _ Hlt fuel). by destruct c.
  - cbn [consts_len]. intros len r _ [= <-]. lia.
  - sizes. intros len r Hlen. cbn [consts_len].
    destruct (constant_len _ c) as [k| | |] eqn:E; try done.
    apply (IHc _ ltac:(lia) fuel) in E as ->. cbn [mbind outcome_bind].
    rewrite (proj2 (Z.ltb_ge n 0)) by lia. destruct (ssize _) as [z| | |] eqn:Es; try done; cbn.
    apply ssize_Ret in Es as ->. intros Hr. apply (IHl _ ltac:(lia) fuel) in Hr; lia.
  - intros r. cbn [field_len]. rewrite Ht. destruct (ty_len _ t) as [k| | |] eqn:E; try done.
    apply (IH _ Hlt fuel) in E as ->. cbn [mbind outcome_bind]. sizes.
    rewrite (proj2 (Z.leb_le 0 n)) by lia. by intros [= <-].
  - intros r. cbn [field_len]. rewrite Ht.
    assert (ty_len (unit_len fuel us) t = Ret (-1)%Z) as ->.
    { destruct t as [tb k]. unfold sized_by_attr in Hs; simpl in Hs. by destruct k. }
    cbn. unfold attr_const_len. rewrite Ha, He. destruct (const_int e) as [v|] eqn:Ec; simpl.
    + intros [= <-] _. apply (const_int_rho rho) in Ec. congruence.
    + intros [= <-]. lia.
  - intros r Hr _. by apply (IH _ Hlt fuel).
  - intros r. cbn [field_len]. rewrite Ht, Hw. by apply (IH _ Hlt fuel).
  - intros r. rewrite field_len_switch. intros Hr Hn. sizes.
    destruct (choose_taken _ _ _ _ Hch Had) as (es & d & Hin).
    eapply (cases_len_taken _ cases es (chosen c) d); [done|lia| |done|done].
    intros q Hq. destruct (IH Hsem Hlt fuel) as [IH1 _]. apply IH1 in Hq; lia.
  - intros r. cbn [field_len]. destruct (const_int len) as [v|] eqn:Ec; [|intros [= <-]; lia].
    apply (const_int_rho rho) in Ec. rewrite Hr in Ec. injection Ec as <-.
    destruct (field_len _ c) as [q| | |] eqn:E; try done; cbn [mbind outcome_bind].
    destruct (Z.leb_spec 0 q); [|intros [= <-]; lia].
    intros Hs%ssize_Ret _. rewrite Hs. symmetry. by apply (IH _ Hlt fuel).
  - cbn [field_len]. intros r [= <-]. lia.
  - split; cbn [items_len fields_len]; intros len r _ [= <-]; lia.
  - sizes. apply static_ok_fields; auto.
  - intros r _ _. lia.
  - sizes. intros r Hr Hnn. pose proof (IHf _ ltac:(lia) fuel r Hr Hnn) as E1.
    pose proof (IHc _ ltac:(lia) fuel r Hr Hnn) as E2. lia.
  - destruct fuel as [|fuel]; [done|]. intros r. cbn [unit_len]. rewrite Hu, Hw. intros Hr Hnn.
    destruct (IH _ Hlt fuel) as [_ IH2]. apply IH2 in Hr; lia.
Qed.

(** ** Length expressions are correct *)

Definition expr_ok (rho : expr → option Z) (x : piece) (m : Z) : Prop :=
  (m < 2 ^ 31)%Z → ∀ fuel, let ul := unit_len fuel us in let ue := unit_expr fuel us in
  match x with
  | PField f => ∀ e, serialized_length ul ue f = Ret (Some e) → rho e = Some m
  | PFields l =>
      ∀ len e z, (match len with Some l => rho l = Some z | None => z = 0%Z end) →
                 fields_expr ul ue l len = Ret (Some e) → rho e = Some (z + m)%Z
  | PCopies f k =>
      ∀ e, serialized_length ul ue f = Ret (Some e) →
           (k ≠ 0)%nat → ∃ z, rho e = Some z ∧ m = (Z.of_nat k * z)%Z
  | PUnit u => ∀ e, ue u = Ret (Some e) → rho e = Some m
  | PTy _ | PTys _ | PConst _ | PConsts _ => True
  end.

Lemma base_length_ok rho `{!LengthSemantics rho} fuel f e m :
  wire us M rho (PField f) m → (m < 2 ^ 31)%Z →
  base_length (unit_len fuel us) f = Ret (Some e) → rho e = Some m.
Proof using Hnone Hbits.
  intros Hw Hm. unfold base_length. destruct (field_len _ f) as [n| | |] eqn:E; try done; cbn.
  destruct (Z.leb_spec 0 n); [|done]. intros [= <-].
  rewrite <- (wire_static _ _ _ Hw _ Hm fuel n E) by lia. apply sem_const.
Qed.

Lemma wire_expr rho x m :
  own_lengths M = false → wire us M rho x m → LengthSemantics rho → expr_ok rho x m.
Proof using Hnone Hbits.
  intros Hflat Hx. pose proof Hx as Hx'. revert Hx'. induction Hx
    as [rho b Hb|rho b Hb|rho b Hb|rho b|rho b w s Hb Hw|rho b w l Hb Hw|rho b l n Hb _ IH|rho
    |rho t l n m Ht IHt Hl IHl|rho s|rho l n _ IH|rho c n Hc _ IH|rho|rho s c l n m Hc IHc Hl IHl
    |rho b fb t n Ht Hwt IH|rho b fb t a e n Ht Hs Hwf Ha He Hr Hn|rho b fb c n Hwc IH
    |rho own b fb tb u n Ht Hw Hown Heq Hu IH|rho b fb e cases v c n He Hch Had Hit IH
    |rho b fb c len k n Hr Hc IH|rho b fb c k n Hc IH|rho|rho f l n m Hf IHf Hl IHl|rho f
    |rho f k n m Hf IHf Hc IHc|rho u ut n Hu Hw Hf IH]; intros Hx Hsem Hlt fuel; cbn zeta; try done.
  - intros e. cbn [serialized_length].
    destruct (base_length _ _) as [[e0|]| | |] eqn:E; try done; cbn [mbind outcome_bind].
    + intros [= <-]. by eapply base_length_ok.
    + exfalso. unfold base_length in E. cbn [field_len] in E. rewrite Ht in E.
      destruct (ty_len _ t) as [k| | |] eqn:Et; try done.
      apply (wire_static _ _ _ Hwt Hsem Hlt fuel) in Et as ->. cbn in E.
      rewrite (proj2 (Z.leb_le 0 n)) in E by (by eapply wire_nonneg). cbn in E.
      by rewrite (proj2 (Z.leb_le 0 n)) in E by (by eapply wire_nonneg).
  - intros e1. cbn [serialized_length].
    destruct (base_length _ _) as [[e0|]| | |] eqn:E; try done; cbn [mbind outcome_bind].
    + intros [= <-]. by eapply base_length_ok.
    + rewrite Ha. simpl. rewrite He. by intros [= <-].
  - intros e. cbn [serialized_length]. by apply base_length_ok.
  - intros e. cbn [serialized_length]. rewrite Ht, Hw. intros He.
    rewrite (Heq Hflat) in *. apply eval_len_sem; [done|]. by apply (IH Hu _ Hlt fuel).
  - intros e1. cbn [serialized_length]. by apply base_length_ok.
  - intros e. cbn [serialized_length].
    destruct (base_length _ _) as [[e0|]| | |] eqn:E; try done; cbn [mbind outcome_bind].
    { intros [= <-]. by eapply base_length_ok. }
    destruct (serialized_length _ _ c) as [[e1|]| | |] eqn:E1; try done; cbn [mbind outcome_bind].
    intros [= <-]. destruct k as [|k].
    + inversion Hc; subst. by apply sem_mult_0.
    + destruct (IH Hc _ Hlt fuel e1 E1 ltac:(done)) as (z & Hz & ->). by apply sem_mult.
  - cbn [fields_expr]. intros len e z Hz [= ->]. rewrite Z.add_0_r. done.
  - pose proof (wire_nonneg _ _ _ _ _ Hf). pose proof (wire_nonneg _ _ _ _ _ Hl).
    intros len e z Hz. cbn [fields_expr].
    destruct (serialized_length _ _ f) as [[e1|]| | |] eqn:E1; try done; cbn [mbind outcome_bind].
    apply (IHf Hf _ ltac:(lia) fuel) in E1. intros He.
    rewrite Z.add_assoc. eapply (IHl Hl _ ltac:(lia) fuel); [|exact He]. simpl.
    destruct len as [l0|]; [by apply sem_plus|subst z; by rewrite Z.add_0_l].
  - pose proof (wire_nonneg _ _ _ _ _ Hf). pose proof (wire_nonneg _ _ _ _ _ Hc).
    intros e He _. pose proof (IHf Hf _ ltac:(lia) fuel e He) as Hz. exists n. split; [done|].
    destruct k as [|k]; [inversion Hc; subst; lia|].
    destruct (IHc Hc _ ltac:(lia) fuel e He ltac:(done)) as (z' & Hz' & ->). simplify_eq. lia.
  - destruct fuel as [|fuel]; [done|]. intros e. cbn [unit_expr]. rewrite Hu, Hw.
    intros He. rewrite <- (Z.add_0_l n). by eapply (IH Hf _ Hlt fuel); [|exact He].
Qed.
End StaticLengths.

(** C20: [static_serialized_length] is correct, in messages without bit fields in which every
    switch takes one of its cases, by a label or by default: when it gives a length for a field
    or a unit, that is the size of the field or unit in the message (below 2^31 bytes, the range
    of the [int] a switch keeps), whatever cases are taken and whatever the lengths of embedded
    units are. *)
Theorem static_length_correct us rho `{!LengthSemantics rho} fuel f u n m :
  (m < 2 ^ 31)%Z → (0 ≤ n)%Z →
  (field_len (unit_len fuel us) f = Ret n → wire us cases_taken rho (PField f) m → m = n) ∧
  (unit_len fuel us u = Ret n → wire us cases_taken rho (PUnit u) m → m = n).
Proof.
  intros Hm Hn. split; intros Hl Hw; symmetry;
    by apply (wire_static us cases_taken eq_refl eq_refl rho _ _ Hw _ Hm fuel).
Qed.

(** C19: [serialized_length] is correct, in messages without bit fields in which every switch
    takes one of its cases and embedded units have constant lengths, below 2^31 bytes: when it
    gives a length expression for a field or a unit, the value of the expression, computed
    without wrap-around, is the size of the field or unit in the message. *)
Theorem serialized_length_correct us rho `{!LengthSemantics rho} fuel f u e m :
  (m < 2 ^ 31)%Z →
  (serialized_length (unit_len fuel us) (unit_expr fuel us) f = Ret (Some e) →
   wire us flat_cases_taken rho (PField f) m → rho e = Some m) ∧
  (unit_expr fuel us u = Ret (Some e) → wire us flat_cases_taken rho (PUnit u) m → rho e = Some m).
Proof.
  intros Hm. split; intros Hl Hw;
    by apply (wire_expr us flat_cases_taken eq_refl eq_refl rho _ _ eq_refl Hw _ Hm fuel).
Qed.

(** Outside of these messages the computed lengths are not the sizes: a bit field is counted in
    bits, and a switch that takes no case is counted with the length of its cases. *)
Definition bit_field : field :=
  mkField (newItem (Some (mkID ["flags"%string])) (Some (mkTy plain (TBitfield 16 []))) [] 0).1
    (mkFieldBase None [] []) FAtomicType.
Definition byte_switch (v : Z) : field :=
  mkField (newItem None None [] 0).1 (mkFieldBase None [] [])
    (FSwitch (Some (const_expr v))
       [mkCase [const_expr 1]
          [mkField (newItem None (Some (mkTy plain (TInteger 8 false))) [] 0).1
             (mkFieldBase None [] []) FAtomicType] false]).
Lemma bit_field_length us fuel :
  wire us all_messages eval_len (PField bit_field) 2 ∧
  field_len (unit_len fuel us) bit_field = Ret 16%Z.
Proof. split; [|done]. eapply W_atomic; [done|]. by apply (W_bitfield us all_messages eval_len plain 16 []). Qed.
Lemma no_case_length us fuel :
  wire us all_messages eval_len (PField (byte_switch 2)) 0 ∧
  field_len (unit_len fuel us) (byte_switch 2) = Ret 1%Z.
Proof. split; [|done]. eapply W_switch; [done|done|done|constructor]. Qed.

(** ** Cloning keeps sizes *)

Module CloneLemmas.
Import Ident.AssocLemmas.

Lemma put_attr_fresh (m : attr_map) a : attr_key a ∉ (Attribute.erase_key (attr_key a) m).*1.
Proof. rewrite erase_key_keys. by intros [? _]%list_elem_of_filter. Qed.

Lemma find_put_attr (m : attr_map) a k :
  Attribute.find_key k (put_attr m a) =
    if String.eqb k (attr_key a) then Some a else Attribute.find_key k m.
Proof.
  unfold put_attr. rewrite find_insert_key by apply put_attr_fresh.
  rewrite find_erase_key. by destruct (String.eqb k (attr_key a)).
Qed.

Lemma put_attr_wf m a :
  attrs_wf m → Attribute.strip_key (attr_key a) = attr_key a → attrs_wf (put_attr m a).
Proof.
  intros [Hs Hf] Ha. unfold put_attr. split.
  - apply insert_key_sorted; [by apply erase_key_sorted|apply put_attr_fresh].
  - rewrite insert_key_perm by apply put_attr_fresh. constructor; [done|].
    by apply Forall_filter_keep.
Qed.

Lemma clone_attribute_key a a' :
  clone_attribute a = Ret a' → attr_key a' = Attribute.strip_key (attr_key a) ∧
  ∃ e e', attr_value a = Some e ∧ attr_value a' = Some e' ∧ clone e = Ret e'.
Proof.
  destruct a as [k [v|] i]; cbn [clone_attribute]; [|done].
  destruct (clone v) as [v'| | |] eqn:Ev; try done; cbn [mbind outcome_bind].
  intros [= <-]. split; [done|]. by exists v, v'.
Qed.

(** The attributes of a clone: the same keys, with cloned values. *)
Lemma cloned_lookup m l m0 k :
  attrs_wf m → clonedAttributes m = Ret l →
  match attr_lookup k m with
  | Some a => ∃ a', attr_lookup k (foldl put_attr m0 l) = Some a' ∧ clone_attribute a = Ret a'
  | None => attr_lookup k (foldl put_attr m0 l) = attr_lookup k m0
  end.
Proof.
  unfold attr_lookup. revert l m0; induction m as [|[k1 a1] m IH]; intros l m0 [Hs Hf] Hc; simpl in *.
  { by injection Hc as <-. }
  apply Forall_cons_iff in Hf as [[Hk1 Hst] Hf]; cbn [fst snd] in Hk1, Hst. apply StronglySorted_inv in Hs as [Hs Hlt].
  destruct (clone_attribute a1) as [a1'| | |] eqn:Ea; try done; cbn in Hc.
  destruct (clonedAttributes m) as [l'| | |] eqn:El; try done; cbn in Hc. injection Hc as <-.
  destruct (clone_attribute_key _ _ Ea) as [Hkey _]. rewrite Hk1, Hst in Hkey.
  specialize (IH l' (put_attr m0 a1') (conj Hs Hf) eq_refl). cbn [foldl].
  rewrite find_put_attr, Hkey in IH.
  destruct (String.eqb_spec k k1) as [->|Hne]; [|done].
  assert (Attribute.find_key k1 m = None) as E.
  { apply find_key_None. intros Hin. rewrite list.Forall_forall in Hlt. by apply (str_lt_irrefl k1), Hlt. }
  rewrite E in IH. exists a1'. done.
Qed.

Lemma foldl_put_wf l m :
  attrs_wf m → Forall (λ a, Attribute.strip_key (attr_key a) = attr_key a) l →
  attrs_wf (foldl put_attr m l).
Proof.
  revert m; induction l as [|a l IH]; intros m Hm Hl; simpl; [done|].
  apply Forall_cons_iff in Hl as [Ha Hl]. apply IH; [by apply put_attr_wf|done].
Qed.

Lemma cloned_wf m l : attrs_wf m → clonedAttributes m = Ret l → attrs_wf (mk_attrs l).
Proof.
  intros [_ Hf] Hc. apply foldl_put_wf; [split; constructor|].
  revert l Hc; induction m as [|[k1 a1] m IH]; intros l Hc; simpl in *.
  { injection Hc as <-. constructor. }
  apply Forall_cons_iff in Hf as [[Hk1 Hst] Hf]; cbn [fst snd] in Hk1, Hst.
  destruct (clone_attribute a1) as [a1'| | |] eqn:Ea; try done; cbn in Hc.
  destruct (clonedAttributes m) as [l'| | |] eqn:El; try done; cbn in Hc. injection Hc as <-.
  destruct (clone_attribute_key _ _ Ea) as [Hkey _].
  constructor; [by rewrite Hkey, Hk1, !Hst|]. by apply IH.
Qed.

(** The loops of [clone_field]. *)
Fixpoint clone_fields (l : list field) (ctr : Z) : outcome (list field * Z) :=
  match l with
  | [] => Ret ([], ctr)
  | f :: l =>
      '(f, ctr) ← clone_field f ctr;
      '(l, ctr) ← clone_fields l ctr;
      Ret (f :: l, ctr)
  end.
Fixpoint clone_cases (l : list case) (ctr : Z) : outcome (list case * Z) :=
  match l with
  | [] => Ret ([], ctr)
  | mkCase es items _ :: l =>
      es ← clone_exprs es;
      '(items, ctr) ← clone_fields items ctr;
      '(l, ctr) ← clone_cases l ctr;
      Ret (mkCase es items false :: l, ctr)
  end.

Lemma clone_field_switch b fb e cases ctr :
  clone_field (mkField b fb (FSwitch e cases)) ctr =
    (_ ← clone_exprs (sinks fb);
     '(cases, ctr) ← clone_cases cases ctr;
     c ← clone_opt (condition fb);
     e ← clone_opt e;
     let '(nb, ctr) := newItem None None [] ctr in
     let nb := set_parsing_only (parsing_only b)
                 (set_anonymous (anonymous b) (set_id (item_id b) nb)) in
     Ret (mkField nb (mkFieldBase c [] []) (FSwitch e cases), ctr)).
Proof. reflexivity. Qed.

Lemma clone_labels rho `{!LengthSemantics rho} v es es' :
  clone_exprs es = Ret es' → has_label rho v es' = has_label rho v es.
Proof.
  revert es'; induction es as [|e es IH]; intros es' H; cbn [clone_exprs] in H.
  { by injection H as <-. }
  destruct_Ret H. injection H as <-. cbn [has_label]. rewrite (sem_clone _ _ E).
  by rewrite (IH _ eq_refl).
Qed.

(** The case a value selects by a label is cloned into the one it selects in the clone; where it
    selects none it selects none in the clone, which has no default. *)
Lemma clone_choose rho `{!LengthSemantics rho} v cases ctr cases' ctr' dflt c :
  (match dflt with ByLabel _ => False | _ => True end) →
  clone_cases cases ctr = Ret (cases', ctr') → choose rho v cases dflt = Some c →
  match c with
  | ByLabel items => ∃ items' c1 c2, choose rho v cases' NoCase = Some (ByLabel items') ∧
                                     clone_fields items c1 = Ret (items', c2)
  | ByDefault _ | NoCase => choose rho v cases' NoCase = Some NoCase
  end.
Proof.
  revert ctr cases' ctr' dflt; induction cases as [|[es0 items0 d0] cases IH];
    intros ctr cases' ctr' dflt Hd Hc Hs; cbn [clone_cases choose] in Hc, Hs.
  { injection Hc as <- <-. injection Hs as <-. by destruct dflt. }
  destruct_Ret Hc. injection Hc as <- <-. cbn [choose]. rewrite (clone_labels rho _ _ _ E).
  destruct (has_label rho v es0) as [[]|]; cbn [mbind option_bind] in *; [| |done].
  - injection Hs as <-. by eexists _, _, _.
  - eapply IH; [|exact E1|exact Hs]. by destruct d0.
Qed.

Lemma clone_cases_default cases ctr cases' ctr' :
  clone_cases cases ctr = Ret (cases', ctr') →
  Forall (λ c, match c with mkCase _ _ d => d = false end) cases'.
Proof.
  revert ctr cases' ctr'; induction cases as [|[es0 items0 d0] cases IH]; intros ctr cases' ctr' Hc;
    cbn [clone_cases] in Hc.
  { injection Hc as <- <-. constructor. }
  destruct_Ret Hc. injection Hc as <- <-. constructor; [done|]. by eapply IH.
Qed.

Lemma clone_base_ok b t nb :
  clone_base b t = Ret nb →
  item_id nb = item_id b ∧ parsing_only nb = parsing_only b ∧ anonymous nb = anonymous b ∧
  item_type nb = t ∧ serialized_type_ nb = serialized_type_ b ∧ app_accessible nb = true ∧
  ∃ l, clonedAttributes (attributes_ b) = Ret l ∧ attributes_ nb = mk_attrs l.
Proof.
  unfold clone_base. destruct (clonedAttributes (attributes_ b)) as [l| | |]; try done; cbn.
  intros [= <-]. destruct (serialized_type_ b); simpl; eauto 10.
Qed.

End CloneLemmas.
Import CloneLemmas.

Section CloneWire.
  Context (us : units) (M : messages) (Hdefault : by_default M = false).

Definition clone_ok (rho : expr → option Z) (x : piece) (m : Z) : Prop :=
  match x with
  | PField f => ∀ ctr f' ctr', clone_field f ctr = Ret (f', ctr') → wire us M rho (PField f') m
  | PFields l => ∀ ctr l' ctr', clone_fields l ctr = Ret (l', ctr') → wire us M rho (PFields l') m
  | PCopies f k => ∀ ctr f' ctr', clone_field f ctr = Ret (f', ctr') → wire us M rho (PCopies f' k) m
  | _ => True
  end.

Lemma serialized_type_clone b t nb :
  clone_base b (item_type b) = Ret nb → serialized_type b = Some t → serialized_type nb = Some t.
Proof using Type.
  intros (_ & _ & _ & Ht & Hs & _)%clone_base_ok. unfold serialized_type. by rewrite Ht, Hs.
Qed.

Lemma wire_clone rho x m : wire us M rho x m → LengthSemantics rho → clone_ok rho x m.
Proof using Hdefault.
  induction 1 as [rho b Hb|rho b Hb|rho b Hb|rho b|rho b w s Hb Hw|rho b w l Hb Hw|rho b l n Hb _ IH|rho
    |rho t l n m Ht IHt Hl IHl|rho s|rho l n _ IH|rho c n Hc _ IH|rho|rho s c l n m Hc IHc Hl IHl
    |rho b fb t n Ht Hwt IH|rho b fb t a e n Ht Hs Hwf Ha He Hr Hn|rho b fb c n Hwc IH
    |rho own b fb tb u n Ht Hw Hown Heq Hu IH|rho b fb e cases v c n He Hch Had Hit IH
    |rho b fb c len k n Hr Hc IH|rho b fb c k n Hc IH|rho|rho f l n m Hf IHf Hl IHl|rho f
    |rho f k n m Hf IHf Hc IHc|rho u ut n Hu Hw Hf IH]; intros Hsem; simpl; try done;
    intros ctr f' ctr' Hcl.
  - destruct_Ret Hcl. injection Hcl as <- <-. eapply W_atomic; [|done].
    by eapply serialized_type_clone.
  - destruct_Ret Hcl. injection Hcl as <- <-.
    pose proof E1 as Eb. apply clone_base_ok in Eb as (_ & _ & _ & _ & _ & _ & l & Hl & Hat).
    pose proof (cloned_lookup _ _ [] "length" Hwf Hl) as Hlk. rewrite Ha in Hlk.
    destruct Hlk as (a' & Hlk & Hca).
    apply clone_attribute_key in Hca as (_ & e0 & e' & He0 & He' & Hce). rewrite He in He0.
    injection He0 as <-.
    eapply W_bytes; [by eapply serialized_type_clone|done| | |exact He'| |done].
    + rewrite Hat. by eapply cloned_wf.
    + rewrite Hat. exact Hlk.
    + by rewrite (sem_clone _ _ Hce).
  - destruct_Ret Hcl. injection Hcl as <- <-. by apply W_constant.
  - destruct_Ret Hcl. injection Hcl as <- <-.
    apply clone_base_ok in E2 as (_ & _ & _ & Hty & _). eapply W_unit_field; [|exact Hw|exact Hown|done|done].
    by rewrite Hty.
  - change (clone_field (mkField b fb (FSwitch (Some e) cases)) ctr = Ret (f', ctr')) in Hcl.
    rewrite clone_field_switch in Hcl. destruct_Ret Hcl. cbn in Hcl. injection Hcl as <- <-.
    cbn [clone_opt] in E2. destruct_Ret E2. injection E2 as <-.
    pose proof (clone_choose rho v _ _ _ _ NoCase c I E0 Hch) as Hcc.
    destruct c as [items|items|]; [destruct Hcc as (items' & c1 & c2 & Hcc & Hcf)| |].
    + eapply W_switch; [by rewrite (sem_clone _ _ E3)|exact Hcc|done|]. by eapply IH.
    + simpl in Had. congruence.
    + eapply W_switch; [by rewrite (sem_clone _ _ E3)|exact Hcc|done|done].
  - destruct_Ret Hcl. injection Hcl as <- <-. eapply W_vector; [|by eapply IH].
    by rewrite (sem_clone _ _ E2).
  - destruct_Ret Hcl. injection Hcl as <- <-. eapply W_list. by eapply IH.
  - injection Hcl as <- <-. constructor.
  - destruct_Ret Hcl. injection Hcl as <- <-. constructor; [by eapply IHf|by eapply IHl].
  - constructor.
  - constructor; [by eapply IHf|by eapply IHc].
Qed.
End CloneWire.

(** C37: Cloning a field keeps its identifier, its anonymity and parsing-only flags, and every size it
    has in the messages in which no switch falls to its default case; the clone is accessible to
    the application, whatever the original was. *)
Theorem clone_keeps_size us rho `{!LengthSemantics rho} f ctr f' ctr' m :
  clone_field f ctr = Ret (f', ctr') →
  item_id (fbase f') = item_id (fbase f) ∧ anonymous (fbase f') = anonymous (fbase f) ∧
  parsing_only (fbase f') = parsing_only (fbase f) ∧ app_accessible (fbase f') = true ∧
  (wire us no_defaults rho (PField f) m → wire us no_defaults rho (PField f') m).
Proof.
  intros Hc. repeat split;
    [..|by intros Hw; apply (wire_clone us no_defaults eq_refl rho _ _ Hw _ ctr f' ctr')].
  all: destruct f as [b fb k]; destruct k;
    match type of Hc with
    | context [FSwitch] => rewrite clone_field_switch in Hc
    | _ => cbn [clone_field] in Hc
    end; destruct_Ret Hc; cbn in Hc; injection Hc as <- <-; simpl; try done;
    match goal with E : clone_base _ _ = Ret _ |- _ =>
      by apply clone_base_ok in E as (? & ? & ? & _ & _ & ? & _) end.
Qed.

(** Cloning a switch forgets which case is the default: in the clone no case is, and a
    clone is always accessible to the application, whatever the original was. *)
Theorem clone_forgets_default b fb e cases ctr f' ctr' :
  clone_field (mkField b fb (FSwitch e cases)) ctr = Ret (f', ctr') →
  app_accessible (fbase f') = true ∧
  ∃ e' cases', fkind f' = FSwitch e' cases' ∧
               Forall (λ c, match c with mkCase _ _ d => d = false end) cases'.
Proof.
  rewrite clone_field_switch. intros Hc. destruct_Ret Hc. cbn in Hc. injection Hc as <- <-.
  split; [reflexivity|]. eexists _, _. split; [done|]. by eapply clone_cases_default.
Qed.

(** ** Instances *)

(** A unit with a byte, a 16-bit integer, four bytes of data and a variable. *)
Definition int_field (name : string) (w : Z) : field :=
  mkField (newItem (Some (mkID [name])) (Some (mkTy plain (TInteger w false))) [] 0).1
    (mkFieldBase None [] []) FAtomicType.
Definition data_field : field :=
  mkField (newItem (Some (mkID ["data"%string])) (Some (mkTy plain TBytes))
             [mkAttr "length" (Some (const_expr 4)) false] 0).1
    (mkFieldBase None [] []) FAtomicType.
Definition small_unit : unit_type :=
  mkUnit []
    [IField (int_field "version" 8); IField (int_field "flags" 16); IField data_field;
     IVariable (newItem (Some (mkID ["seen"%string])) (Some (mkTy plain TBool)) [] 0).1 None]
    false (Some (mkID ["Message"%string])) None.
Definition small_units : units := {[ 0%nat := small_unit ]}.

Lemma int_field_wire us M rho name w : (0 ≤ w)%Z → wire us M rho (PField (int_field name w)) (w / 8).
Proof. intros Hw. eapply W_atomic; [done|]. by constructor. Qed.

Lemma data_field_wire us M : wire us M eval_len (PField data_field) 4.
Proof.
  eapply W_bytes; [done|done| |done|done|done|done].
  split; repeat constructor.
Qed.

Lemma small_unit_wire us M : wire us M eval_len (PFields (fields small_unit)) 7.
Proof.
  change 7%Z with (8 / 8 + (16 / 8 + (4 + 0)))%Z.
  repeat constructor; first [by apply int_field_wire|apply data_field_wire].
Qed.

Lemma static_length_correct_witness :
  field_len (unit_len 1 small_units) (int_field "flags" 16) = Ret 2%Z ∧
  wire small_units cases_taken eval_len (PField (int_field "flags" 16)) (16 / 8) ∧ (16 / 8)%Z = 2%Z.
Proof.
  split; [reflexivity|]. split; [by apply int_field_wire|].
  apply (proj1 (static_length_correct small_units eval_len 1 (int_field "flags" 16) 0 2 (16 / 8)
    ltac:(reflexivity) ltac:(lia))); [reflexivity|by apply int_field_wire].
Defined.

Lemma serialized_length_correct_witness :
  serialized_length (unit_len 1 small_units) (unit_expr 1 small_units) data_field
    = Ret (Some (const_expr 4)) ∧
  wire small_units flat_cases_taken eval_len (PField data_field) 4 ∧ eval_len (const_expr 4) = Some 4%Z.
Proof.
  split; [reflexivity|]. split; [apply data_field_wire|].
  apply (proj1 (serialized_length_correct small_units eval_len 1 data_field 0 (const_expr 4) 4
    ltac:(lia))); [reflexivity|apply data_field_wire].
Defined.

(** A switch the application has no access to, with two cases and a default. *)
Definition kind_switch : field :=
  mkField (set_application_accessible false
             (set_id (mkID ["body"%string]) (newItem None None [] 0).1))
    (mkFieldBase None [] [])
    (FSwitch (Some (const_expr 2))
       [mkCase [const_expr 1] [int_field "short" 8] false;
        mkCase [const_expr 2; const_expr 3] [data_field; int_field "check" 16] false;
        mkCase [] [int_field "other" 32] true]).
Definition kind_switch_clone : field :=
  match clone_field kind_switch 5 with Ret (f, _) => f | _ => kind_switch end.

Lemma kind_switch_wire us : wire us no_defaults eval_len (PField kind_switch) 6.
Proof.
  eapply W_switch; [done|vm_compute; reflexivity|done|]. change 6%Z with (4 + (16 / 8 + 0))%Z.
  repeat constructor; [apply data_field_wire|by apply int_field_wire].
Qed.

Lemma clone_keeps_size_witness :
  app_accessible (fbase kind_switch) = false ∧ kind_switch_clone ≠ kind_switch ∧
  item_id (fbase kind_switch_clone) = mkID ["body"%string] ∧
  app_accessible (fbase kind_switch_clone) = true ∧
  wire small_units no_defaults eval_len (PField kind_switch_clone) 6.
Proof.
  split; [reflexivity|]. split; [intros H; by apply (f_equal (λ f, app_accessible (fbase f))) in H|].
  destruct (clone_keeps_size small_units eval_len kind_switch 5 kind_switch_clone 6 6)
    as (Hid & _ & _ & Ha & Hw); [vm_compute; reflexivity|].
  split; [exact Hid|]. split; [exact Ha|]. apply Hw, kind_switch_wire.
Defined.

(** A switch with a default case, and its clone. *)
Definition small_switch (b : item_base) (is_default : bool) : field :=
  mkField b (mkFieldBase None [] []) (FSwitch (Some (const_expr 1)) [mkCase [] [data_field] is_default]).

Lemma clone_forgets_default_witness :
  ∃ e' cases', fkind (small_switch (newItem None None [] 0).1 false) = FSwitch e' cases' ∧
               Forall (λ c, match c with mkCase _ _ d => d = false end) cases'.
Proof.
  apply (clone_forgets_default (newItem None None [] 0).1 (mkFieldBase None [] [])
    (Some (const_expr 1)) [mkCase [] [data_field] true] 0
    (small_switch (newItem None None [] 0).1 false) 1).
  vm_compute. reflexivity.
Defined.
