(* ===== verification/Deps.v ===== *)
(** * Dependencies of an instantiation
    ([src/src/generation/preprocessing/instantiation_dependency_resolver.h], [.cpp])

    [DependencyMapBuilder] walks over a unit and records, for every item, the items its
    attributes, conditions, parameters, switch and length expressions refer to, with the
    context (bit set) in which they are needed; [InstantiationDependencyResolver] closes the
    items an instantiation asks for under these dependencies.

    A [std::map] keyed by [ID] compares identifiers by their printed paths, so the dependency
    map is keyed by strings. *)

From S2P Require Import Prelude Util Ident Ast Units.
Import Util.Strings Ident.Id Units.Units.

Local Open Scope Z_scope.

Module Deps.

(** [DependencyContext]. *)
Definition CONTEXT_APPLICATION : Z := 1.
Definition CONTEXT_PARSING : Z := 2.
Definition CONTEXT_SERIALIZING : Z := 4.
Definition CONTEXT_SERIALIZING_UPDATE : Z := 8.

Record Dependency := mkDep { dep_id : ID; context : Z }.
Definition dep_key (d : Dependency) : string := pathAsString (dep_id d) None.

Definition DependencyMap := gmap string (list Dependency).
Definition deps_of (m : DependencyMap) (k : string) : list Dependency := default [] (m !! k).

(** ** [InstantiationDependencyResolver::visit(Instantiation)] *)

(** The body of the loop that fills [to_add], for one [depdep] of [dep]. *)
Definition transfer (dep depdep : Dependency) : option Dependency :=
  if negb (Z.land (context dep) CONTEXT_APPLICATION =? 0) then Some depdep
  else if negb (Z.land (context dep) (context depdep) =? 0) then
    Some (mkDep (dep_id depdep) (Z.land (context dep) (context depdep)))
  else None.
Definition to_add (m : DependencyMap) (deps : list Dependency) : list Dependency :=
  concat (map (λ dep, omap (transfer dep) (deps_of m (dep_key dep))) deps).

(** Merging one dependency into the first entry with the same identifier. *)
Fixpoint merge_dep (dep : Dependency) (deps : list Dependency) : list Dependency * bool :=
  match deps with
  | [] => ([dep], true)
  | d :: deps =>
      if id_eqb (dep_id dep) (dep_id d) then
        let c := Z.lor (context d) (context dep) in
        (mkDep (dep_id d) c :: deps, negb (c =? context d))
      else
        let '(deps, changed) := merge_dep dep deps in (d :: deps, changed)
  end.
Fixpoint merge_all (l : list Dependency) (deps : list Dependency) (changed : bool)
    : list Dependency * bool :=
  match l with
  | [] => (deps, changed)
  | dep :: l =>
      let '(deps, c) := merge_dep dep deps in merge_all l deps (changed || c)
  end.

(** The [while (changed)] loop; one unit of fuel per iteration. *)
Fixpoint resolve (fuel : nat) (m : DependencyMap) (deps : list Dependency)
    : outcome (list Dependency) :=
  match fuel with
  | O => NoFuel
  | S fuel =>
      let '(deps, changed) := merge_all (to_add m deps) deps false in
      if (changed : bool) then resolve fuel m deps else Ret deps
  end.

Definition length_tracking_id : ID := mkID ["__length"].
Definition element_tracking_id : ID := mkID ["[]"].

Definition initial_deps (items : list ID) : list Dependency :=
  mkDep length_tracking_id CONTEXT_PARSING :: map (λ i, mkDep i CONTEXT_APPLICATION) items.

(** Enough iterations: every iteration that changes something adds an entry or a bit. *)
Definition all_targets (m : DependencyMap) : list Dependency := concat (map_to_list m).*2.
Definition resolve_fuel (m : DependencyMap) (deps : list Dependency) : nat :=
  S (5 * (length deps + length (all_targets m)))%nat.

Definition resolve_instantiation (m : DependencyMap) (items : list ID)
    : outcome (list Dependency) :=
  let deps := initial_deps items in
  deps ← resolve (resolve_fuel m deps) m deps;
  Ret (tail deps).

(** ** [DependencyMapBuilder] *)

Record builder := mkBuilder {
  dep_map : DependencyMap;
  from_ : list ID;
  tracking_stack_ : list ID;           (* top first *)
  cur_unit_ : ID;
  cur_dollar_dollar_ : option ID;
  cur_find_list_ : option ID;
  cur_context_ : Z }.

Definition set_map (m : DependencyMap) (s : builder) : builder :=
  mkBuilder m (from_ s) (tracking_stack_ s) (cur_unit_ s) (cur_dollar_dollar_ s)
    (cur_find_list_ s) (cur_context_ s).
Definition set_from (l : list ID) (s : builder) : builder :=
  mkBuilder (dep_map s) l (tracking_stack_ s) (cur_unit_ s) (cur_dollar_dollar_ s)
    (cur_find_list_ s) (cur_context_ s).
Definition set_stack (l : list ID) (s : builder) : builder :=
  mkBuilder (dep_map s) (from_ s) l (cur_unit_ s) (cur_dollar_dollar_ s)
    (cur_find_list_ s) (cur_context_ s).
Definition set_cur_unit (u : ID) (s : builder) : builder :=
  mkBuilder (dep_map s) (from_ s) (tracking_stack_ s) u (cur_dollar_dollar_ s)
    (cur_find_list_ s) (cur_context_ s).
Definition set_dollar (d : option ID) (s : builder) : builder :=
  mkBuilder (dep_map s) (from_ s) (tracking_stack_ s) (cur_unit_ s) d
    (cur_find_list_ s) (cur_context_ s).
Definition set_find_list (d : option ID) (s : builder) : builder :=
  mkBuilder (dep_map s) (from_ s) (tracking_stack_ s) (cur_unit_ s) (cur_dollar_dollar_ s)
    d (cur_context_ s).
Definition set_context (c : Z) (s : builder) : builder :=
  mkBuilder (dep_map s) (from_ s) (tracking_stack_ s) (cur_unit_ s) (cur_dollar_dollar_ s)
    (cur_find_list_ s) c.

(** [addDependency]. *)
Fixpoint add_to (to : ID) (ctx : Z) (l : list Dependency) : list Dependency :=
  match l with
  | [] => [mkDep to ctx]
  | d :: l =>
      if id_eqb (dep_id d) to then mkDep (dep_id d) (Z.lor (context d) ctx) :: l
      else d :: add_to to ctx l
  end.
Definition addDependency (from to : ID) (ctx : Z) (s : builder) : builder :=
  let k := pathAsString from None in
  set_map (<[k := add_to to ctx (deps_of (dep_map s) k)]> (dep_map s)) s.

(** [track]: appends to the identifier on top of the stack. *)
Definition add_to_top (p : list string) (s : builder) : outcome builder :=
  match tracking_stack_ s with
  | top :: rest => Ret (set_stack (addPath p top :: rest) s)
  | [] => Abort "tracking_stack_.top()"
  end.
Definition track (id : option ID) (s : builder) : outcome builder :=
  match id with
  | None => Ret s
  | Some id => match path_ id with [] => Ret s | p => add_to_top p s end
  end.
Definition trackElement (s : builder) : outcome builder :=
  add_to_top (path_ element_tracking_id) s.
Definition pushTracking (s : builder) : builder := set_stack (mkID [] :: tracking_stack_ s) s.
Definition popTracking (s : builder) : outcome (ID * builder) :=
  match tracking_stack_ s with
  | [] => Abort "tracking_stack_.top()"
  | id :: rest =>
      let s := set_stack rest s in
      match path_ id with
      | [] => Ret (id, s)
      | _ => Ret (id, foldl (λ s from, addDependency from id (cur_context_ s) s) s (from_ s))
      end
  end.

(** [pushTracking(); f; popTracking()]. *)
Definition tracking (f : builder → outcome builder) (s : builder) : outcome builder :=
  s ← f (pushTracking s); '(_, s) ← popTracking s; Ret s.

(** [if (cur_context_ & SERIALIZING) { ... }] of the assignment operators. *)
Definition in_update (f : builder → outcome builder) (s : builder) : outcome builder :=
  let old := cur_context_ s in
  s ← tracking f (set_context CONTEXT_SERIALIZING_UPDATE s);
  Ret (set_context old s).
Definition serializing (s : builder) : bool :=
  negb (Z.land (cur_context_ s) CONTEXT_SERIALIZING =? 0).

(** [processOne] on an expression.  Every visit method returns at once when [from_] is empty;
    a use of a missing operand dereferences the end of the list. *)
Definition no_operand : outcome builder := Abort "*it".

Fixpoint process_expr (e : expr) (s : builder) : outcome builder :=
  let process_all := fix process_all (l : list expr) (s : builder) : outcome builder :=
    match l with
    | [] => Ret s
    | e :: l => s ← tracking (process_expr e) s; process_all l s
    end in
  match from_ s with
  | [] => Ret s
  | _ =>
      match ekind e with
      | EMemberAttribute a => track (Some a) s
      | EVariable _ _ => s ← track (cur_find_list_ s) s; trackElement s
      | EOperator k ops =>
          match k with
          | OpAttribute | OpCall | OpHasAttribute =>
              match ops with
              | a :: b :: _ => s ← process_expr a s; process_expr b s
              | _ => no_operand
              end
          | OpAttributeAssign =>
              match ops with
              | a :: b :: v :: _ =>
                  if serializing s then
                    s ← in_update (λ s, s ← process_expr a s; process_expr b s) s;
                    process_expr v s
                  else process_expr a s
              | _ => no_operand
              end
          | OpIndex =>
              match ops with
              | a :: i :: _ =>
                  s ← process_expr a s; s ← trackElement s; tracking (process_expr i) s
              | _ => no_operand
              end
          | OpIndexAssign =>
              match ops with
              | a :: i :: v :: _ =>
                  if serializing s then
                    s ← in_update (λ s, s ← process_expr a s; trackElement s) s;
                    process_expr v s
                  else process_expr i s
              | _ => no_operand
              end
          | OpMethodCall =>
              match ops with
              | a :: _ :: args :: _ => s ← process_expr a s; process_expr args s
              | _ => no_operand
              end
          | OpMinusAssign | OpPlusAssign =>
              match ops with
              | a :: v :: _ =>
                  if serializing s then
                    s ← in_update (process_expr a) s; process_expr v s
                  else process_expr a s
              | _ => no_operand
              end
          | _ => process_all ops s
          end
      | EConstant _ => Ret s         (* tryCast<constant::Tuple> of the expression node fails *)
      | EFind l c f _ =>
          s ← process_expr l (pushTracking s);
          '(id, s) ← popTracking s;
          s ← tracking (process_expr c) (set_find_list (Some id) s);
          s ← tracking (process_expr f) s;
          tracking Ret s
      | EConditional c t f =>
          s ← tracking (process_expr c) s;
          s ← tracking (process_expr t) s;
          match f with Some f => tracking (process_expr f) s | None => Ret s end
      | EID _ => Ret s               (* logged as an error *)
      | ELambda _ body => process_expr body s
      | EListComprehension _ _ _ _ => Ret s
      | EParserState k _ _ _ =>
          match k with
          | SELF => track (Some (cur_unit_ s)) s
          | DOLLARDOLLAR => track (cur_dollar_dollar_ s) s
          | PARAMETER => Ret s       (* logged as an error *)
          end
      | EAssign _ _ | ECtor _ | EFunction _ _ | ETransform _ _ _ | EType _ => Ret s
      end
  end.

Definition PARSING_SERIALIZING : Z := Z.lor CONTEXT_PARSING CONTEXT_SERIALIZING.
Definition PARSING_UPDATE : Z := Z.lor CONTEXT_PARSING CONTEXT_SERIALIZING_UPDATE.

(** [visit(Item)]: the attributes, in key order. *)
Definition ignored_attribute (key : string) : bool :=
  String.eqb key "transform" || String.eqb key "transform_to".
Definition pop_from (s : builder) : builder := set_from (take (length (from_ s) - 1) (from_ s)) s.

Definition visit_attribute (a : attr) (s : builder) : outcome builder :=
  let key := attr_key a in
  if ignored_attribute key then Ret s
  else
    let s :=
      if String.eqb key "parse" then set_context CONTEXT_PARSING s
      else if String.eqb key "serialize" then set_context CONTEXT_SERIALIZING s
      else if String.eqb key "length" then
        set_context PARSING_UPDATE (set_from (from_ s ++ [length_tracking_id]) s)
      else set_context PARSING_SERIALIZING s in
    s ← match attr_value a with Some e => tracking (process_expr e) s | None => Ret s end;
    Ret (if String.eqb key "length" then pop_from s else s).
Fixpoint visit_attributes (l : attr_map) (s : builder) : outcome builder :=
  match l with
  | [] => Ret s
  | (_, a) :: l => s ← visit_attribute a s; visit_attributes l s
  end.
Definition visit_item (b : item_base) (s : builder) : outcome builder :=
  s ← visit_attributes (attributes_ b) s;
  Ret (set_context PARSING_SERIALIZING s).

(** [visit(Field)]. *)
Definition visit_field (fb : field_base) (s : builder) : outcome builder :=
  match condition fb with
  | Some c => tracking (process_expr c) s
  | None => Ret s
  end.

Fixpoint track_all (l : list expr) (s : builder) : outcome builder :=
  match l with
  | [] => Ret s
  | e :: l => s ← tracking (process_expr e) s; track_all l s
  end.

Definition dollar (s : builder) : outcome ID :=
  match cur_dollar_dollar_ s with Some d => Ret d | None => Abort "null node_ptr" end.

Section Process.
  Context (static_len : field → outcome Z) (process_unit : nat → builder → outcome builder).

(** [processOne] on a field: [visit(Item)], [visit(Field)], then the visit method of its
    class, in the order of [accept]. *)
Fixpoint process_field (f : field) (s : builder) : outcome builder :=
  let process_items := fix process_items (l : list field) (switch_id : ID) (s : builder)
      : outcome builder :=
    match l with
    | [] => Ret s
    | i :: l =>
        let d := combineIDs (cur_unit_ s) (item_id (fbase i)) in
        let s := set_from [d] (set_dollar (Some d) s) in
        let s := addDependency d switch_id PARSING_SERIALIZING s in
        s ← process_field i s;
        process_items l switch_id s
    end in
  let process_cases := fix process_cases (l : list case) (switch_id : ID) (s : builder)
      : outcome builder :=
    match l with
    | [] => Ret s
    | mkCase _ items _ :: l =>
        s ← process_items items switch_id s; process_cases l switch_id s
    end in
  match f with
  | mkField b fb k =>
      s ← visit_item b s;
      s ← visit_field fb s;
      match k with
      | FAtomicType | FConstant _ | FCtor _ | FUnknown _ => Ret s
      | FUnit =>
          s ← track_all (parameters fb) s;
          let old_unit := cur_unit_ s in
          d ← dollar s;
          match item_type b with
          | None => Abort "node->accept"
          | Some t =>
              s ← match kind t with
                  | TUnit u => process_unit u (set_cur_unit d s)
                  | _ => Ret (set_cur_unit d s)
                  end;
              Ret (set_cur_unit old_unit s)
          end
      | FSwitch e cases =>
          len ← static_len f;
          s ← (if len <? 0 then
                 tracking (λ s, track (cur_dollar_dollar_ s) s)
                   (set_from (from_ s ++ [length_tracking_id]) s)
               else Ret s);
          s ← match e with Some e => tracking (process_expr e) s | None => Ret s end;
          switch_id ← dollar s;
          process_cases cases switch_id s
      | FList c =>
          d ← dollar s;
          let d := combineIDs d element_tracking_id in
          process_field c (set_from (from_ s ++ [d]) (set_dollar (Some d) s))
      | FVector c len =>
          s ← tracking (process_expr len)
                (set_from (from_ s ++ [length_tracking_id]) (set_context PARSING_UPDATE s));
          let s := set_context PARSING_SERIALIZING (pop_from s) in
          d ← dollar s;
          let d := combineIDs d element_tracking_id in
          process_field c (set_from (from_ s ++ [d]) (set_dollar (Some d) s))
      end
  end.

Definition process_item (i : item) (s : builder) : outcome builder :=
  match i with
  | IVariable b _ => visit_item b s
  | IProperty b _ => visit_item b s
  | IField f => process_field f s
  end.

(** [visit(Unit)]. *)
Fixpoint process_unit_items (l : list item) (s : builder) : outcome builder :=
  match l with
  | [] => Ret s
  | i :: l =>
      let d := combineIDs (cur_unit_ s) (item_id (ibase i)) in
      let s := set_dollar (Some d) s in
      s ← process_item i (set_from (from_ s ++ [d]) s);
      process_unit_items l (set_from [] s)
  end.
End Process.

(** Fuel bounds the nesting of units. *)
Fixpoint process_unit (fuel : nat) (us : units) (u : nat) (s : builder) : outcome builder :=
  match fuel with
  | O => NoFuel
  | S fuel =>
      match us !! u with
      | None => Abort "unit"
      | Some ut =>
          process_unit_items (field_len (unit_len fuel us)) (process_unit fuel us)
            (unit_items ut) s
      end
  end.

(** [run]: [cur_context_] starts as [PARSING & SERIALIZING]. *)
Definition newBuilder : builder :=
  mkBuilder ∅ [] [] (mkID []) None None (Z.land CONTEXT_PARSING CONTEXT_SERIALIZING).
Definition build_map (fuel : nat) (us : units) (u : nat) : outcome DependencyMap :=
  s ← process_unit fuel us u newBuilder; Ret (dep_map s).

(** The whole pass for one instantiation. *)
Definition resolve_dependencies (fuel : nat) (us : units) (u : nat) (items : list ID)
    : outcome (list Dependency) :=
  m ← build_map fuel us u; resolve_instantiation m items.

End Deps.

(** ** The closure computed by the resolver *)

Module Closure.
Import Deps.

(** [has deps k b]: some entry for [k] carries context bit [b]. *)
Definition has (deps : list Dependency) (k : string) (b : Z) : Prop :=
  ∃ d, d ∈ deps ∧ dep_key d = k ∧ Z.testbit (context d) b = true.

(** What an instantiation needs: what it starts from, everything an item needed by the
    application refers to, and what an item needed in a context refers to in that context. *)
Inductive needs (m : DependencyMap) (init : list Dependency) : string → Z → Prop :=
  | needs_init k b : has init k b → needs m init k b
  | needs_application k b d :
      needs m init k 0 → d ∈ deps_of m k → Z.testbit (context d) b = true →
      needs m init (dep_key d) b
  | needs_context k b d :
      needs m init k b → d ∈ deps_of m k → Z.testbit (context d) b = true →
      needs m init (dep_key d) b.

Lemma has_nil k b : ¬ has [] k b.
Proof. intros (d & Hd & _). by apply elem_of_nil in Hd. Qed.
Lemma has_cons d deps k b :
  has (d :: deps) k b ↔ (dep_key d = k ∧ Z.testbit (context d) b = true) ∨ has deps k b.
Proof.
  unfold has. setoid_rewrite elem_of_cons. split.
  - intros (x & [->|Hx] & ? & ?); eauto.
  - intros [[? ?]|(x & ? & ? & ?)]; eauto.
Qed.

Lemma id_eqb_key a b : id_eqb a b = true ↔ pathAsString a None = pathAsString b None.
Proof. unfold id_eqb. apply String.eqb_eq. Qed.

Lemma merge_dep_has dep deps k b :
  has (merge_dep dep deps).1 k b ↔
  has deps k b ∨ (dep_key dep = k ∧ Z.testbit (context dep) b = true).
Proof.
  induction deps as [|d deps IH]; simpl.
  - rewrite has_cons. pose proof (has_nil k b). tauto.
  - destruct (id_eqb _ _) eqn:E; simpl.
    + apply id_eqb_key in E. rewrite !has_cons. unfold dep_key in *. simpl.
      rewrite Z.lor_spec, orb_true_iff, E. tauto.
    + destruct (merge_dep dep deps) as [deps' c]; simpl in *. rewrite !has_cons, IH. tauto.
Qed.

Lemma merge_dep_same dep deps : (merge_dep dep deps).2 = false → (merge_dep dep deps).1 = deps.
Proof.
  induction deps as [|d deps IH]; simpl; [done|]. destruct (id_eqb _ _); simpl.
  - intros H. bool_to_prop. rewrite H. by destruct d.
  - destruct (merge_dep dep deps) as [deps' c]; simpl in *. intros H. by rewrite IH.
Qed.

Lemma merge_all_has l deps c k b :
  has (merge_all l deps c).1 k b ↔ has deps k b ∨ has l k b.
Proof.
  revert deps c. induction l as [|d l IH]; intros deps c; simpl.
  - pose proof (has_nil k b). tauto.
  - pose proof (merge_dep_has d deps k b) as Hm.
    destruct (merge_dep d deps) as [deps' c']; simpl in *. rewrite IH, Hm, has_cons. tauto.
Qed.

Lemma merge_all_same l deps c :
  (merge_all l deps c).2 = false → c = false ∧ (merge_all l deps c).1 = deps.
Proof.
  revert deps c. induction l as [|d l IH]; intros deps c; simpl; [done|].
  pose proof (merge_dep_same d deps) as Hm.
  destruct (merge_dep d deps) as [deps' c']; simpl in *. intros H.
  destruct (IH _ _ H) as [Hc ->]. apply orb_false_elim in Hc as [-> ->]. by rewrite Hm.
Qed.

Lemma transfer_bits dep depdep d b :
  transfer dep depdep = Some d → Z.testbit (context d) b = true →
  dep_key d = dep_key depdep ∧ Z.testbit (context depdep) b = true ∧
  (Z.testbit (context dep) 0 = true ∨ Z.testbit (context dep) b = true).
Proof.
  unfold transfer. intros H Hb.
  assert (Happ : Z.land (context dep) CONTEXT_APPLICATION ≠ 0 → Z.testbit (context dep) 0 = true).
  { intros Hn. apply not_false_is_true. intros H0. apply Hn.
    apply Z.bits_inj_0. intros n. rewrite Z.land_spec. unfold CONTEXT_APPLICATION.
    destruct (decide (n = 0)) as [->|]; [by rewrite H0|].
    rewrite andb_false_iff. right. destruct (decide (n < 0)); [by rewrite Z.testbit_neg_r|].
    change 1 with (2 ^ 0). apply Z.pow2_bits_false. lia. }
  repeat case_bool; simplify_eq; bool_to_prop; auto.
  simpl in *. rewrite Z.land_spec in Hb. bool_to_prop. auto.
Qed.

Lemma transfer_complete dep depdep b :
  Z.testbit (context depdep) b = true →
  Z.testbit (context dep) 0 = true ∨ Z.testbit (context dep) b = true →
  ∃ d, transfer dep depdep = Some d ∧ dep_key d = dep_key depdep ∧
       Z.testbit (context d) b = true.
Proof.
  intros Hb Hd. unfold transfer. case_bool; [eauto|]. bool_to_prop.
  assert (Hl : Z.testbit (Z.land (context dep) (context depdep)) b = true).
  { rewrite Z.land_spec, Hb. destruct Hd as [H0|H0]; [|by rewrite H0].
    assert (Z.testbit (Z.land (context dep) CONTEXT_APPLICATION) 0 = true) as Hz
      by (by rewrite Z.land_spec, H0).
    rewrite Heqb0 in Hz. by rewrite Z.bits_0 in Hz. }
  case_bool; [eauto|]. bool_to_prop. rewrite Heqb1, Z.bits_0 in Hl. done.
Qed.

Lemma to_add_elem m deps d :
  d ∈ to_add m deps ↔
  ∃ dep depdep, dep ∈ deps ∧ depdep ∈ deps_of m (dep_key dep) ∧ transfer dep depdep = Some d.
Proof.
  unfold to_add. rewrite list_elem_of_In, in_concat. setoid_rewrite in_map_iff.
  setoid_rewrite <- list_elem_of_In. split.
  - intros (x & (dep & <- & Hdep) & Hd). apply list_elem_of_omap in Hd as (dd & ? & ?). eauto.
  - intros (dep & dd & ? & ? & ?). eexists. split; [eauto|]. apply list_elem_of_omap. eauto.
Qed.

Lemma to_add_has m deps k b :
  has (to_add m deps) k b ↔
  ∃ j d, d ∈ deps_of m j ∧ dep_key d = k ∧ Z.testbit (context d) b = true ∧
         (has deps j 0 ∨ has deps j b).
Proof.
  split.
  - intros (d & Hd & <- & Hb). apply to_add_elem in Hd as (dep & dd & Hdep & Hdd & Ht).
    destruct (transfer_bits _ _ _ _ Ht Hb) as (-> & ? & Hor).
    exists (dep_key dep), dd. repeat split; try done. unfold has. destruct Hor; eauto.
  - intros (j & d & Hd & <- & Hb & Hor).
    assert (∃ dep, dep ∈ deps ∧ dep_key dep = j ∧
      (Z.testbit (context dep) 0 = true ∨ Z.testbit (context dep) b = true)) as (dep & ? & <- & ?).
    { destruct Hor as [(x & ? & ? & ?)|(x & ? & ? & ?)]; eauto. }
    destruct (transfer_complete dep d b) as (d' & Ht & Hk & Hb'); [done..|].
    exists d'. split; [|done]. apply to_add_elem. eauto.
Qed.

Lemma needs_to_add m init deps :
  (∀ k b, has deps k b → needs m init k b) → ∀ k b, has (to_add m deps) k b → needs m init k b.
Proof.
  intros IH k b Hk. apply to_add_has in Hk as (j & d & ? & <- & ? & [?|?]).
  - eapply needs_application; eauto.
  - eapply needs_context; eauto.
Qed.

Lemma resolve_has fuel m init deps r :
  (∀ k b, has init k b → has deps k b) → (∀ k b, has deps k b → needs m init k b) →
  resolve fuel m deps = Ret r → ∀ k b, has r k b ↔ needs m init k b.
Proof.
  revert deps. induction fuel as [|fuel IH]; intros deps Hi Hs; [done|]. simpl.
  pose proof (merge_all_has (to_add m deps) deps false) as Hm.
  pose proof (merge_all_same (to_add m deps) deps false) as Hsame.
  pose proof (needs_to_add m init deps Hs) as Hn.
  destruct (merge_all _ _ _) as [deps' changed]; simpl in *.
  destruct changed.
  - apply IH; intros k b; rewrite Hm; naive_solver.
  - intros [= ->]. destruct (Hsame eq_refl) as [_ ->]. intros k b. split; [apply Hs|].
    intros H. induction H as [| |]; [auto|apply Hm; right; apply to_add_has; eauto 10..].
Qed.

(** *** Termination: every round that changes something adds an entry or a context bit *)

Definition ctx_ok (d : Dependency) : Prop := 0 ≤ context d < 16.
Definition popcount (c : Z) : nat :=
  Z.to_nat (Z.b2z (Z.testbit c 0) + Z.b2z (Z.testbit c 1) + Z.b2z (Z.testbit c 2)
            + Z.b2z (Z.testbit c 3)).
Definition weight (deps : list Dependency) : nat :=
  sum_list_with (λ d, S (popcount (context d))) deps.
Definition keys (deps : list Dependency) : list string := map dep_key deps.

Lemma popcount_le c : (popcount c ≤ 4)%nat.
Proof. unfold popcount. repeat destruct (Z.testbit _ _); simpl; lia. Qed.

(** Contexts are four-bit sets: all 256 pairs are checked. *)
Definition below_16 : list Z := seqZ 0 16.
Lemma below_16_spec c : 0 ≤ c < 16 → In c below_16.
Proof. intros H. apply list_elem_of_In, elem_of_seqZ. lia. Qed.

Lemma context_ops a b :
  0 ≤ a < 16 → 0 ≤ b < 16 →
  0 ≤ Z.lor a b < 16 ∧ 0 ≤ Z.land a b < 16 ∧
  (Z.lor a b ≠ a → (popcount a < popcount (Z.lor a b))%nat).
Proof.
  intros Ha%below_16_spec Hb%below_16_spec.
  assert (forallb (λ a, forallb (λ b,
     (0 <=? Z.lor a b) && (Z.lor a b <? 16) && (0 <=? Z.land a b) && (Z.land a b <? 16)
     && ((Z.lor a b =? a) || (popcount a <? popcount (Z.lor a b))%nat)) below_16) below_16 = true)
    as H by reflexivity.
  rewrite forallb_forall in H. specialize (H a Ha).
  rewrite forallb_forall in H. specialize (H b Hb).
  apply andb_prop in H as [H Hor]. bool_to_prop. repeat split; try lia.
  intros Hne. apply orb_true_iff in Hor as [Hor|Hor]; bool_to_prop; [done|lia].
Qed.

Lemma weight_le deps : (weight deps ≤ 5 * length deps)%nat.
Proof.
  induction deps as [|d deps IH]; simpl; [lia|]. unfold weight in *. simpl.
  pose proof (popcount_le (context d)). lia.
Qed.

Lemma transfer_ok dep depdep d :
  ctx_ok dep → ctx_ok depdep → transfer dep depdep = Some d → ctx_ok d.
Proof.
  unfold transfer, ctx_ok. intros. repeat case_bool; simplify_eq; try done.
  simpl. by apply context_ops.
Qed.

Lemma merge_dep_grows dep deps :
  ctx_ok dep → Forall ctx_ok deps →
  Forall ctx_ok (merge_dep dep deps).1 ∧
  (weight deps + (if (merge_dep dep deps).2 then 1 else 0) ≤ weight (merge_dep dep deps).1)%nat.
Proof.
  intros Hd. induction 1 as [|d deps Hx Hf IH]; simpl.
  - split; [by constructor; [exact Hd|constructor]|]. unfold weight; simpl; lia.
  - destruct (context_ops _ _ Hx Hd) as (? & _ & Hp). destruct (id_eqb _ _); simpl.
    + split; [by constructor|]. unfold weight; simpl. case_bool; bool_to_prop.
      * specialize (Hp Heqb). lia.
      * rewrite Heqb. lia.
    + destruct (merge_dep dep deps) as [deps' c]; simpl in *. destruct IH.
      split; [by constructor|]. unfold weight in *; simpl. lia.
Qed.

(** Merging never touches the identifiers already listed, and lists a new one at most once. *)
Lemma merge_dep_keys dep deps :
  keys (merge_dep dep deps).1 = keys deps ∨
  (keys (merge_dep dep deps).1 = keys deps ++ [dep_key dep] ∧ dep_key dep ∉ keys deps).
Proof.
  induction deps as [|d deps IH]; simpl; [right; set_solver|].
  destruct (id_eqb _ _) eqn:E; simpl; [by left|].
  destruct (merge_dep dep deps) as [deps' c]; simpl in *.
  assert (dep_key dep ≠ dep_key d) by (intros H; by rewrite (proj2 (id_eqb_key _ _) H) in E).
  destruct IH as [->|[-> ?]]; [by left|right]. split; [done|]. set_solver.
Qed.

Lemma deps_of_target m k d : d ∈ deps_of m k → d ∈ all_targets m.
Proof.
  unfold deps_of, all_targets. destruct (m !! k) eqn:E; simpl; [|set_solver].
  intros Hd. rewrite list_elem_of_In, in_concat. eexists.
  rewrite <- !list_elem_of_In. split; [|exact Hd]. apply list_elem_of_fmap.
  exists (k, l). split; [done|]. by apply elem_of_map_to_list.
Qed.

Section Terminates.
Context (m : DependencyMap) (init : list Dependency).
Context (Hmap : ∀ k d, d ∈ deps_of m k → ctx_ok d).

(** The loop invariant. *)
Definition loop_inv (deps : list Dependency) : Prop :=
  Forall ctx_ok deps ∧
  ∃ extra, keys deps = keys init ++ extra ∧ NoDup extra ∧ extra ⊆ keys (all_targets m).

Lemma to_add_ok deps :
  Forall ctx_ok deps →
  Forall (λ d, ctx_ok d ∧ dep_key d ∈ keys (all_targets m)) (to_add m deps).
Proof using Hmap.
  rewrite !list.Forall_forall. intros H d Hd.
  apply to_add_elem in Hd as (dep & dd & ? & Hdd & Ht). split.
  - eapply transfer_ok; [| |exact Ht]; eauto.
  - assert (dep_key d = dep_key dd) as ->.
    { unfold transfer in Ht. repeat case_bool; by simplify_eq. }
    unfold keys. apply list_elem_of_fmap. eauto using deps_of_target.
Qed.

Lemma merge_all_grows l deps c :
  Forall (λ d, ctx_ok d ∧ dep_key d ∈ keys (all_targets m)) l → loop_inv deps →
  loop_inv (merge_all l deps c).1 ∧
  (weight deps + (if (merge_all l deps c).2 then 1 else 0)
   ≤ weight (merge_all l deps c).1 + (if c then 1 else 0))%nat.
Proof using Type.
  clear Hmap. intros Hl. revert deps c.
  induction Hl as [|d l [Hd Hk] Hl IH]; intros deps c Hinv; simpl.
  { split; [done|lia]. }
  destruct Hinv as [Hok (extra & Hkeys & Hnd & Hsub)].
  pose proof (merge_dep_grows d deps Hd Hok) as [Hok' Hw].
  pose proof (merge_dep_keys d deps) as Hkeys'.
  destruct (merge_dep d deps) as [deps' c']; simpl in *.
  destruct (IH deps' (c || c')) as [Hi Hw'].
  - split; [done|]. destruct Hkeys' as [->|[-> Hni]]; [by eauto|].
    exists (extra ++ [dep_key d]). rewrite Hkeys in *. split; [by rewrite <- app_assoc|].
    split; [|set_solver]. apply list.NoDup_app. repeat split; [done|set_solver|].
    apply NoDup_singleton.
  - split; [done|]. destruct c, c'; simpl in *; lia.
Qed.

Lemma loop_inv_weight deps :
  loop_inv deps → (weight deps ≤ 5 * (length init + length (all_targets m)))%nat.
Proof using Type.
  intros [_ (extra & Hk & Hnd & Hsub)]. etrans; [apply weight_le|].
  apply (f_equal length) in Hk. unfold keys in *. rewrite length_app, !length_map in Hk.
  pose proof (submseteq_length _ _ (NoDup_submseteq _ _ Hnd Hsub)) as Hl.
  rewrite length_map in Hl. lia.
Qed.

Lemma resolve_returns fuel deps :
  loop_inv deps →
  (5 * (length init + length (all_targets m)) < fuel + weight deps)%nat →
  ∃ r, resolve fuel m deps = Ret r ∧ loop_inv r.
Proof using Hmap.
  revert deps. induction fuel as [|fuel IH]; intros deps Hi Hf.
  { pose proof (loop_inv_weight _ Hi). lia. }
  simpl. pose proof (merge_all_grows (to_add m deps) deps false
    (to_add_ok deps (proj1 Hi)) Hi) as [Hi' Hw].
  destruct (merge_all _ _ _) as [deps' changed]; simpl in *.
  destruct changed; [apply IH; [done|lia]|eauto].
Qed.

Lemma resolve_init :
  Forall ctx_ok init →
  ∃ r, resolve (resolve_fuel m init) m init = Ret r ∧ loop_inv r ∧
       ∀ k b, has r k b ↔ needs m init k b.
Proof using Hmap.
  intros Hok. destruct (resolve_returns (resolve_fuel m init) init) as (r & Hr & Hi).
  - split; [done|]. exists []. rewrite app_nil_r. repeat split; [constructor|set_solver].
  - unfold resolve_fuel. lia.
  - exists r. repeat split; try apply Hi; try done.
    all: eapply resolve_has; [| |exact Hr]; eauto using needs_init.
Qed.
End Terminates.

Lemma initial_deps_ok items : Forall ctx_ok (initial_deps items).
Proof.
  constructor; [split; simpl; done|]. apply Forall_map, list.Forall_forall.
  intros x _. split; simpl; done.
Qed.

(** Entries stay where they are, and only gain contexts. *)
Definition grows (deps deps' : list Dependency) : Prop :=
  ∀ (i : nat) d, deps !! i = Some d →
  ∃ d', deps' !! i = Some d' ∧ dep_id d' = dep_id d ∧
        ∀ b, Z.testbit (context d) b = true → Z.testbit (context d') b = true.

#[export] Instance grows_preorder : PreOrder grows.
Proof.
  split; [intros deps i d H; eauto|]. intros x y z Hxy Hyz i d Hd.
  destruct (Hxy i d Hd) as (d1 & H1 & Hid & Hb). destruct (Hyz i d1 H1) as (d2 & H2 & Hid' & Hb').
  exists d2. split; [done|]. split; [by etrans|auto].
Qed.

Lemma merge_dep_grows_list dep deps : grows deps (merge_dep dep deps).1.
Proof.
  induction deps as [|d deps IH]; simpl; [by intros i x Hx|]. destruct (id_eqb _ _); simpl.
  - intros [|i] x Hx; simpl in *; [|eauto]. injection Hx as <-. eexists. split; [done|].
    split; [done|]. intros b Hb. simpl. by rewrite Z.lor_spec, Hb.
  - destruct (merge_dep dep deps) as [deps' c]; simpl in *.
    intros [|i] x Hx; simpl in *; [eauto|by apply IH].
Qed.
Lemma merge_all_grows_list l deps c : grows deps (merge_all l deps c).1.
Proof.
  revert deps c. induction l as [|d l IH]; intros deps c; simpl; [done|].
  pose proof (merge_dep_grows_list d deps) as Hd. destruct (merge_dep d deps) as [deps' c'].
  etrans; [exact Hd|apply IH].
Qed.
Lemma resolve_grows fuel m deps r : resolve fuel m deps = Ret r → grows deps r.
Proof.
  revert deps. induction fuel as [|fuel IH]; intros deps; [done|]. simpl.
  pose proof (merge_all_grows_list (to_add m deps) deps false) as Hg.
  destruct (merge_all _ _ _) as [deps' changed]; simpl in *.
  destruct changed; [intros H; etrans; [exact Hg|by apply IH]|by intros [= <-]].
Qed.

(** A requested item is needed by the application. *)
Lemma requested_application m items deps id :
  resolve_instantiation m items = Ret deps → id ∈ items →
  ∃ d, d ∈ deps ∧ dep_id d = id ∧ Z.testbit (context d) 0 = true.
Proof.
  unfold resolve_instantiation. cbv zeta. intros H Hid. destruct_Ret H. injection H as <-.
  apply resolve_grows in E. apply list_elem_of_lookup in Hid as [i Hi].
  destruct (E (S i) (mkDep id CONTEXT_APPLICATION)) as (d & Hd & Hdi & Hb).
  - simpl. rewrite list_lookup_fmap, Hi. done.
  - exists d. split; [|split; [done|by apply Hb]]. destruct a as [|x a]; [done|]. simpl in *.
    by eapply list_elem_of_lookup_2.
Qed.

(** What the dependencies of an instantiation are: for every item other than the internal
    length marker, exactly the contexts that follow from the closure rules. *)
Definition resolved (m : DependencyMap) (items : list ID) (deps : list Dependency) : Prop :=
  Forall ctx_ok deps ∧ NoDup (drop (length items) (keys deps)) ∧
  ∀ k b, k ≠ dep_key (mkDep length_tracking_id 0) →
         has deps k b ↔ needs m (initial_deps items) k b.

Lemma resolve_instantiation_spec m items :
  (∀ k d, d ∈ deps_of m k → ctx_ok d) →
  ∃ deps, resolve_instantiation m items = Ret deps ∧ resolved m items deps ∧
          take (length items) (keys deps) = map (λ i, pathAsString i None) items.
Proof.
  intros Hm. destruct (resolve_init m (initial_deps items) Hm (initial_deps_ok items))
    as (r & Hr & [Hok (extra & Hk & Hnd & _)] & Hn).
  unfold resolve_instantiation. cbv zeta. rewrite Hr. simpl. eexists; split; [reflexivity|].
  destruct r as [|d r]; [done|]. simpl in *. injection Hk as Hk1 Hk.
  unfold keys in Hk. rewrite map_map in Hk.
  assert (Hlen : length items = length (map (λ i, dep_key (mkDep i CONTEXT_APPLICATION)) items))
    by by rewrite length_map.
  apply list.Forall_cons in Hok as [_ Hok]. split; [split; [done|split]|]; [|intros k b Hne; split; intros H|].
  - unfold keys. rewrite Hk, Hlen, drop_app_length. done.
  - apply Hn, has_cons. by right.
  - apply Hn, has_cons in H as [[? _]|]; [|done]. by destruct Hne; etrans; [symmetry; eassumption|].
  - unfold keys. rewrite Hk, Hlen, take_app_length. done.
Qed.
End Closure.

(** ** The builder only records four-bit contexts *)

Module BuilderLemmas.
Import Deps Closure.

Definition builder_ok (s : builder) : Prop :=
  (∀ k d, d ∈ deps_of (dep_map s) k → ctx_ok d) ∧ 0 ≤ cur_context_ s < 16.
Definition keeps (f : builder → outcome builder) : Prop :=
  ∀ s s', builder_ok s → f s = Ret s' → builder_ok s'.

Lemma add_to_ok to ctx l : 0 ≤ ctx < 16 → Forall ctx_ok l → Forall ctx_ok (add_to to ctx l).
Proof.
  intros Hc. induction 1 as [|d l Hd Hl IH]; simpl; [by repeat constructor; apply Hc|].
  case_bool; constructor; try done. apply context_ops; done.
Qed.

Lemma deps_of_add from to ctx s k :
  deps_of (dep_map (addDependency from to ctx s)) k =
  if decide (pathAsString from None = k) then add_to to ctx (deps_of (dep_map s) k)
  else deps_of (dep_map s) k.
Proof.
  unfold addDependency, set_map; cbn [dep_map]. unfold deps_of, DependencyMap in *.
  destruct (decide (pathAsString from None = k)) as [<-|Hne].
  - by rewrite lookup_insert_eq.
  - by rewrite lookup_insert_ne.
Qed.

Lemma addDependency_ok from to ctx s :
  0 ≤ ctx < 16 → builder_ok s → builder_ok (addDependency from to ctx s).
Proof.
  intros Hc [Hm Hctx]. split; [|done]. intros k. rewrite deps_of_add.
  destruct (decide _); [|apply Hm].
  apply list.Forall_forall, add_to_ok; [done|]. apply list.Forall_forall, Hm.
Qed.

Lemma record_ok id l s :
  builder_ok s → builder_ok (foldl (λ s from, addDependency from id (cur_context_ s) s) s l).
Proof.
  revert s. induction l as [|x l IH]; intros s Hs; simpl; [done|].
  apply IH, addDependency_ok; [apply Hs|done].
Qed.

Lemma popTracking_ok s id s' : builder_ok s → popTracking s = Ret (id, s') → builder_ok s'.
Proof.
  unfold popTracking. intros Hs. destruct (tracking_stack_ s) as [|i rest]; [done|].
  destruct (path_ i); [by intros [= <- <-]|]. intros [= <- <-]. by apply record_ok.
Qed.

Lemma keeps_tracking f : keeps f → keeps (tracking f).
Proof.
  intros Hf s s' Hs. unfold tracking. intros H. destruct_Ret H. injection H as <-.
  eapply popTracking_ok; [|done]. eapply Hf; [|done]. done.
Qed.

Lemma set_context_ok c s : 0 ≤ c < 16 → builder_ok s → builder_ok (set_context c s).
Proof. by intros ? [? _]. Qed.

Lemma keeps_in_update f : keeps f → keeps (in_update f).
Proof.
  intros Hf s s' Hs. unfold in_update. intros H. destruct_Ret H. injection H as <-.
  apply set_context_ok; [apply Hs|]. eapply keeps_tracking; [done| |done].
  by apply set_context_ok.
Qed.

Lemma keeps_top p : keeps (add_to_top p).
Proof.
  intros s s' Hs. unfold add_to_top. destruct (tracking_stack_ s); [done|]. by intros [= <-].
Qed.
Lemma keeps_track id : keeps (track id).
Proof.
  intros s s' Hs. unfold track. destruct id as [i|]; [|by intros [= <-]].
  destruct (path_ i); [by intros [= <-]|]. by apply keeps_top.
Qed.
Lemma keeps_bind f g : keeps f → keeps g → keeps (λ s, s ← f s; g s).
Proof. intros Hf Hg s s' Hs H. destruct_Ret H. eapply Hg; [|done]. by eapply Hf. Qed.
Lemma keeps_Ret : keeps Ret.
Proof. by intros s s' Hs [= <-]. Qed.
Lemma keeps_pre g f : (∀ s, builder_ok s → builder_ok (g s)) → keeps f → keeps (λ s, f (g s)).
Proof. intros Hg Hf s s' Hs H. eapply Hf; [|done]. by apply Hg. Qed.
Lemma keeps_abort w : keeps (λ _, Abort w).
Proof. by intros s s' _ ?. Qed.
Lemma keeps_if (b : builder → bool) f g :
  keeps f → keeps g → keeps (λ s, if b s then f s else g s).
Proof. intros Hf Hg s s' Hs. destruct (b s); eauto. Qed.

(** Decides [keeps] by the structure of the operation. *)
Ltac keep :=
  repeat match goal with
  | H : keeps ?f |- keeps ?f => exact H
  | H : ∀ e, keeps (?f e) |- keeps (?f _) => apply H
  | |- keeps Ret => apply keeps_Ret
  | |- keeps (λ _, Abort _) => apply keeps_abort
  | |- keeps (tracking _) => apply keeps_tracking
  | |- keeps (in_update _) => apply keeps_in_update
  | |- keeps (track _) => apply keeps_track
  | |- keeps (λ s, if _ then _ else _) => apply keeps_if
  | |- keeps (λ s, tracking _ s) => apply keeps_tracking
  | |- keeps (λ s, in_update _ s) => apply keeps_in_update
  | |- keeps (λ s, Ret s) => apply keeps_Ret
  | H : keeps ?f |- keeps (λ s, ?f s) => exact H
  | H : ∀ e, keeps (?f e) |- keeps (λ s, ?f _ s) => apply H
  | |- keeps (λ s, mbind _ _) => apply keeps_bind
  end.

Lemma keeps_process_expr e : keeps (process_expr e).
Proof.
  revert e. fix IH 1. intros [sc k].
  assert (keeps trackElement) as Hel by apply keeps_top.
  assert (∀ ops, keeps ((fix process_all (l : list expr) (s : builder) : outcome builder :=
    match l with
    | [] => Ret s
    | e :: l => s ← tracking (process_expr e) s; process_all l s
    end) ops)) as Hops.
  { intros ops. induction ops as [|e ops IHops]; [apply keeps_Ret|].
    apply keeps_bind; [apply keeps_tracking, IH|exact IHops]. }
  intros s s' Hs. cbn [process_expr ekind]. destruct (from_ s); [by intros [= <-]|].
  destruct k as [| c t f | | | le c f nf | | | el body | | a | kd ops | pk | | | ];
    try (by intros [= <-]).
  - revert s s' Hs. apply keeps_bind; [keep|]. apply keeps_bind; [keep|].
    destruct f; keep.
  - intros H. destruct_Ret H. revert H. apply keeps_tracking; [keep|].
    eapply keeps_tracking; [apply IH| |eassumption].
    eapply keeps_tracking; [apply IH| |eassumption].
    assert (builder_ok b) as Hb; [|exact Hb].
    eapply popTracking_ok; [|eassumption]. eapply IH; [|eassumption]. exact Hs.
  - by apply IH.
  - by apply keeps_track.
  - revert s s' Hs.
    destruct kd; try apply Hops; destruct ops as [|x [|y [|z ops]]]; try (by intros ? ? ? ?).
    all: try (apply keeps_bind; keep).
    all: try (apply keeps_if; keep).
  - revert s s' Hs. destruct pk; intros s s' Hs; [by apply keeps_track..|by intros [= <-]].
  - intros H. destruct_Ret H. revert H. apply Hel. by eapply keeps_track; [|eassumption].
Qed.

Lemma keeps_visit_attribute a : keeps (visit_attribute a).
Proof.
  intros s s' Hs H. unfold visit_attribute in H. destruct (ignored_attribute _); [by injection H as <-|].
  destruct_Ret H. injection H as <-. assert (builder_ok a0) as Ha.
  { assert (∀ c l, 0 ≤ c < 16 → builder_ok (set_context c (set_from l s))) as Hset
      by (intros; by apply set_context_ok).
    destruct (attr_value a) as [e|]; [eapply keeps_tracking; [apply keeps_process_expr| |exact E]
      |injection E as <-]; repeat case_bool; try (by apply set_context_ok); by apply Hset. }
  by case_bool.
Qed.

Lemma keeps_visit_item b : keeps (visit_item b).
Proof.
  unfold visit_item. apply keeps_bind.
  - induction (attributes_ b) as [|[k a] l IH]; [apply keeps_Ret|].
    apply keeps_bind; [apply keeps_visit_attribute|exact IH].
  - intros s s' Hs [= <-]. by apply set_context_ok.
Qed.

Lemma keeps_visit_field fb : keeps (visit_field fb).
Proof.
  unfold visit_field. destruct (condition fb); [|apply keeps_Ret].
  apply keeps_tracking, keeps_process_expr.
Qed.

Lemma keeps_track_all l : keeps (track_all l).
Proof.
  induction l as [|e l IH]; [apply keeps_Ret|].
  apply keeps_bind; [apply keeps_tracking, keeps_process_expr|exact IH].
Qed.

Section ProcessKeeps.
Context (sl : field → outcome Z) (pu : nat → builder → outcome builder).
Context (Hpu : ∀ u, keeps (pu u)).

Lemma keeps_process_field f : keeps (process_field sl pu f).
Proof using Hpu.
  revert f. fix IH 1. intros [b fb k]. cbn [process_field].
  apply keeps_bind; [apply keeps_visit_item|]. apply keeps_bind; [apply keeps_visit_field|].
  intros s s' Hs H. destruct k as [| | | | | e cases | c len | c]; try (by injection H as <-).
  - destruct_Ret H. destruct (item_type b) as [t|]; [|done]. destruct_Ret H. injection H as <-.
    assert (builder_ok a) by (by eapply keeps_track_all; [|eassumption]).
    assert (builder_ok a1) as Ha; [|exact Ha].
    destruct (kind t); try (by injection E1 as <-). by eapply Hpu; [|eassumption].
  - destruct_Ret H.
    assert (builder_ok a0) as H0.
    { destruct (_ <? 0); [|by injection E0 as <-].
      eapply keeps_tracking; [apply keeps_track| |eassumption]. done. }
    assert (builder_ok a1) as H1.
    { destruct e; [|by injection E1 as <-].
      by eapply keeps_tracking; [apply keeps_process_expr| |eassumption]. }
    clear - IH H H1. revert a1 H H1. generalize a2. intros i.
    induction cases as [|[es items d] cases IHc]; intros s H Hs; cbv beta match fix in H;
      [by injection H as <-|].
    destruct_Ret H. eapply IHc; [exact H|]. clear - IH E Hs. revert s E Hs.
    induction items as [|f items IHi]; intros s H Hs; cbv beta match fix zeta in H;
      [by injection H as <-|].
    destruct_Ret H. eapply IHi; [exact H|].
    eapply IH; [|eassumption]. by apply addDependency_ok.
  - destruct_Ret H. eapply IH; [|exact H].
    eapply set_context_ok; [done|]. assert (builder_ok a) as Ha; [|exact Ha].
    eapply keeps_tracking; [apply keeps_process_expr| |eassumption].
    assert (builder_ok (set_context PARSING_UPDATE s)) as Hc by (by apply set_context_ok). exact Hc.
  - destruct_Ret H. eapply IH; [|exact H]. exact Hs.
Qed.

Lemma keeps_process_items l : keeps (process_unit_items sl pu l).
Proof using Hpu.
  induction l as [|i l IH]; [apply keeps_Ret|]. intros s s' Hs H. cbn [process_unit_items] in H.
  cbv zeta in H. destruct_Ret H. eapply IH; [|exact H]. assert (builder_ok a) as Ha; [|exact Ha].
  destruct i as [b d|b p|f]; cbn [process_item] in E.
  1,2: by eapply keeps_visit_item; [|eassumption].
  by eapply keeps_process_field; [|eassumption].
Qed.
End ProcessKeeps.

Lemma keeps_process_unit fuel us u : keeps (process_unit fuel us u).
Proof.
  revert u. induction fuel as [|fuel IH]; intros u s s' Hs H; [done|]. cbn [process_unit] in H.
  destruct (us !! u); [|done]. by eapply keeps_process_items; [| |eassumption].
Qed.

Lemma build_map_ok fuel us u m :
  build_map fuel us u = Ret m → ∀ k d, d ∈ deps_of m k → ctx_ok d.
Proof.
  unfold build_map. intros H. destruct_Ret H. injection H as <-.
  assert (builder_ok a) as [? _]; [|done]. eapply keeps_process_unit; [|eassumption].
  split; [|done]. intros k d Hd. by apply elem_of_nil in Hd.
Qed.
End BuilderLemmas.

(** ** Theorems *)

Import Deps Closure.

(** C15: Dependency resolution of an instantiation always terminates (the iteration bound
    [resolve_fuel] is enough), keeps the requested items first and in order, lists every further
    item once, and assigns to every item exactly the contexts that follow from the closure
    rules: it computes the least solution. *)
Theorem dependencies_resolved fuel us u m items :
  build_map fuel us u = Ret m →
  ∃ deps, resolve_dependencies fuel us u items = Ret deps ∧ resolved m items deps ∧
          take (length items) (keys deps) = map (λ i, pathAsString i None) items.
Proof.
  intros H. unfold resolve_dependencies. rewrite H. simpl.
  by apply resolve_instantiation_spec, (BuilderLemmas.build_map_ok _ _ _ _ H).
Qed.

(** ** What an expression refers to

    A stack-free account of the walk over an expression without assignments and [find]: the
    path it contributes to the access it is part of, and the accesses it records itself. *)

Module Accesses.

Section Accesses.
Context (self : ID) (dd : option ID) (found : option ID).

Definition opt_path (i : option ID) : list string :=
  match i with Some i => path_ i | None => [] end.

Fixpoint access (e : expr) : list string :=
  match ekind e with
  | EMemberAttribute a => path_ a
  | EVariable _ _ => opt_path found ++ ["[]"%string]
  | EOperator k ops =>
      match k, ops with
      | OpAttribute, a :: b :: _ | OpCall, a :: b :: _ | OpHasAttribute, a :: b :: _ =>
          access a ++ access b
      | OpIndex, a :: _ => access a ++ ["[]"%string]
      | OpMethodCall, a :: _ :: args :: _ => access a ++ access args
      | _, _ => []
      end
  | ELambda _ body => access body
  | EParserState SELF _ _ _ => path_ self
  | EParserState DOLLARDOLLAR _ _ _ => opt_path dd
  | _ => []
  end.

Fixpoint uses (e : expr) : list (list string) :=
  match ekind e with
  | EOperator k ops =>
      match k, ops with
      | OpAttribute, a :: b :: _ | OpCall, a :: b :: _ | OpHasAttribute, a :: b :: _ =>
          uses a ++ uses b
      | OpIndex, a :: i :: _ => uses a ++ uses i ++ [access i]
      | OpMethodCall, a :: _ :: args :: _ => uses a ++ uses args
      | _, _ => concat (map (λ e, uses e ++ [access e]) ops)
      end
  | EConditional c t f =>
      uses c ++ [access c] ++ uses t ++ [access t] ++
      match f with Some f => uses f ++ [access f] | None => [] end
  | ELambda _ body => uses body
  | _ => []
  end.
End Accesses.

(** No assignment and no [find] is reached, and every operator has its operands. *)
Fixpoint reads (e : expr) : bool :=
  match ekind e with
  | EOperator k ops =>
      match k with
      | OpAttribute | OpCall | OpHasAttribute =>
          match ops with a :: b :: _ => reads a && reads b | _ => false end
      | OpIndex => match ops with a :: i :: _ => reads a && reads i | _ => false end
      | OpMethodCall =>
          match ops with a :: _ :: args :: _ => reads a && reads args | _ => false end
      | OpAttributeAssign | OpIndexAssign | OpMinusAssign | OpPlusAssign => false
      | _ => forallb reads ops
      end
  | EConditional c t f =>
      reads c && reads t && match f with Some f => reads f | None => true end
  | EFind _ _ _ _ => false
  | ELambda _ body => reads body
  | _ => true
  end.

(** Recording an access for every identifier of [from_]; the empty path is not an access. *)
Definition record_use (s : builder) (p : list string) : builder :=
  match p with
  | [] => s
  | _ => foldl (λ s from, addDependency from (mkID p) (cur_context_ s) s) s (from_ s)
  end.
Definition record_uses (s : builder) (ps : list (list string)) : builder := foldl record_use s ps.

Lemma addPath_mk p i : addPath p i = mkID (path_ i ++ p).
Proof. pose proof (IdLemmas.addPath_app p i) as H. destruct (addPath p i). simpl in H. by subst. Qed.

(** Recording commutes with changes of the stack. *)
Lemma record_use_stack st s p : record_use (set_stack st s) p = set_stack st (record_use s p).
Proof.
  unfold record_use. destruct p as [|c p]; [done|]. cbn [set_stack from_].
  generalize (from_ s). intros l. revert s. induction l as [|f l IH]; intros s; [done|].
  simpl. rewrite <- IH. done.
Qed.
Lemma record_uses_stack st s ps : record_uses (set_stack st s) ps = set_stack st (record_uses s ps).
Proof.
  revert s. induction ps as [|p ps IH]; intros s; [done|]. unfold record_uses in *. simpl.
  by rewrite record_use_stack, IH.
Qed.
Lemma record_uses_app s ps qs : record_uses s (ps ++ qs) = record_uses (record_uses s ps) qs.
Proof. apply foldl_app. Qed.

Section Walk.
Context (self : ID) (dd found : option ID).

Definition at_env (s : builder) : Prop :=
  from_ s ≠ [] ∧ cur_unit_ s = self ∧ cur_dollar_dollar_ s = dd ∧ cur_find_list_ s = found.

Lemma record_use_env s p : at_env s → at_env (record_use s p).
Proof.
  intros Hs. unfold record_use. destruct p as [|c p]; [done|]. generalize (from_ s).
  intros l. revert s Hs. induction l as [|f l IH]; intros s Hs; [done|]. apply IH, Hs.
Qed.
Lemma record_uses_env s ps : at_env s → at_env (record_uses s ps).
Proof.
  revert s. induction ps as [|p ps IH]; intros s Hs; [done|]. by apply IH, record_use_env.
Qed.

(** The walk over [e] with [top] on the stack. *)
Definition walks (e : expr) : Prop :=
  ∀ s top rest, at_env s →
  process_expr e (set_stack (top :: rest) s) =
  Ret (set_stack (mkID (path_ top ++ access self dd found e) :: rest)
         (record_uses s (uses self dd found e))).

Lemma walks_tracking e st s :
  walks e → at_env s →
  tracking (process_expr e) (set_stack st s) =
  Ret (set_stack st (record_uses s (uses self dd found e ++ [access self dd found e]))).
Proof.
  intros He Hs. unfold tracking. change (pushTracking (set_stack st s)) with (set_stack (mkID [] :: st) s).
  rewrite He by done. simpl. unfold popTracking. simpl.
  rewrite record_uses_app. generalize (record_uses s (uses self dd found e)). intros s1.
  unfold record_uses; simpl. rewrite <- record_use_stack. unfold record_use.
  destruct (access self dd found e); done.
Qed.

Lemma track_walk i top rest s :
  track i (set_stack (top :: rest) s) = Ret (set_stack (mkID (path_ top ++ opt_path i) :: rest) s).
Proof.
  unfold track, opt_path. destruct i as [i|]; [|rewrite app_nil_r; by destruct top].
  destruct (path_ i); [rewrite app_nil_r; by destruct top|].
  unfold add_to_top. cbn [set_stack tracking_stack_]. by rewrite addPath_mk.
Qed.

Lemma trackElement_walk top rest s :
  trackElement (set_stack (top :: rest) s) =
  Ret (set_stack (mkID (path_ top ++ ["[]"%string]) :: rest) s).
Proof.
  unfold trackElement, add_to_top. cbn [set_stack tracking_stack_]. by rewrite addPath_mk.
Qed.

Lemma at_env_from s st : at_env s → ∃ f l, from_ (set_stack st s) = f :: l.
Proof. intros [Hf _]. simpl. destruct (from_ s); [done|eauto]. Qed.

Lemma walks_seq a b s top rest :
  walks a → walks b → at_env s →
  (s ← process_expr a (set_stack (top :: rest) s); process_expr b s) =
  Ret (set_stack (mkID (path_ top ++ access self dd found a ++ access self dd found b) :: rest)
    (record_uses s (uses self dd found a ++ uses self dd found b))).
Proof.
  intros Ha Hb Hs. rewrite Ha by done. cbn [mbind outcome_bind].
  rewrite Hb by by apply record_uses_env. cbn [path_]. by rewrite record_uses_app, <- app_assoc.
Qed.

(** [process_all] inside [process_expr]. *)
Definition process_all : list expr → builder → outcome builder :=
  fix process_all (l : list expr) (s : builder) : outcome builder :=
    match l with
    | [] => Ret s
    | e :: l => s ← tracking (process_expr e) s; process_all l s
    end.
Lemma walks_all ops st s :
  Forall (λ e, reads e = true → walks e) ops → forallb reads ops = true → at_env s →
  process_all ops (set_stack st s) =
  Ret (set_stack st (record_uses s
    (concat (map (λ e, uses self dd found e ++ [access self dd found e]) ops)))).
Proof.
  intros Hops. revert s. induction Hops as [|e ops He Hops IH]; intros s Hr Hs; [done|].
  simpl in Hr. bool_to_prop. cbn [process_all map concat]. rewrite record_uses_app.
  rewrite walks_tracking by auto. apply IH; [done|]. by apply record_uses_env.
Qed.

Lemma reads_walks e : reads e = true → walks e.
Proof.
  induction e as [sc k IH] using expr_subexprs_ind. intros Hr s top rest Hs.
  destruct (at_env_from s (top :: rest) Hs) as (f0 & l0 & Hf).
  assert (Htop : mkID (path_ top ++ []) = top) by (rewrite app_nil_r; by destruct top).
  cbn [process_expr ekind]. rewrite Hf.
  destruct k as [| c t f | | | le c f nf | | | el body | | a | kd ops | pk | | | ];
    cbn [reads ekind] in Hr; cbn [access uses ekind]; cbn [subexprs] in IH;
    rewrite ?Htop; try done; repeat rewrite list.Forall_cons in IH; destruct_and?.
  - bool_to_prop. rewrite walks_tracking by auto. cbn [mbind outcome_bind].
    rewrite walks_tracking by auto using record_uses_env. cbn [mbind outcome_bind].
    rewrite <- record_uses_app. destruct f as [f|].
    + cbn [option_list] in *. rewrite list.Forall_singleton in *.
      rewrite walks_tracking by auto using record_uses_env.
      by rewrite <- record_uses_app, <- !app_assoc.
    + by rewrite <- !app_assoc, app_nil_r.
  - by match goal with H : _ → walks body |- _ => apply H end.
  - apply (track_walk (Some a)).
  - destruct kd; try (rewrite Htop; by apply walks_all); try done.
    all: destruct ops as [|x [|y ops]]; try done; repeat rewrite list.Forall_cons in IH;
      destruct_and?; bool_to_prop; try (by apply walks_seq; auto).
    + rewrite (H H0) by done. cbn [mbind outcome_bind].
      rewrite trackElement_walk. cbn [mbind outcome_bind path_].
      rewrite walks_tracking by auto using record_uses_env.
      by rewrite <- record_uses_app, <- app_assoc.
    + destruct ops as [|z ops]; [done|]. rewrite list.Forall_cons in *. destruct_and?.
      bool_to_prop. by apply walks_seq; auto.
  - destruct Hs as (_ & <- & <- & _).
    destruct pk; [apply (track_walk (Some (cur_unit_ s)))|apply (track_walk (cur_dollar_dollar_ s))
      |by rewrite Htop].
  - destruct Hs as (_ & _ & _ & <-). change (cur_find_list_ (set_stack (top :: rest) s))
      with (cur_find_list_ s).
    rewrite track_walk. cbn [mbind outcome_bind]. rewrite trackElement_walk. cbn [path_].
    by rewrite <- app_assoc.
Qed.
End Walk.
End Accesses.

Import Accesses.

(** C21: Walking over an expression that only reads, with a fresh tracking frame, records exactly
    the dotted accesses of the expression (a member access chain as one path, an index
    expression, an operand or a branch as accesses of their own) for every identifier the
    walk currently works for, and leaves the rest of the state, the tracking stack included,
    as it was. *)
Theorem tracking_records_accesses e s :
  reads e = true → from_ s ≠ [] →
  let self := cur_unit_ s in let dd := cur_dollar_dollar_ s in let found := cur_find_list_ s in
  tracking (process_expr e) s =
  Ret (record_uses s (uses self dd found e ++ [access self dd found e])).
Proof.
  intros Hr Hf self dd found.
  pose proof (walks_tracking self dd found e (tracking_stack_ s) s) as Hw.
  rewrite <- record_uses_stack in Hw.
  assert (set_stack (tracking_stack_ s) s = s) as Hid by (by destruct s). rewrite Hid in Hw.
  apply Hw; [by apply reads_walks|done].
Qed.

(** Some references are not recorded: the arguments of a method call (a tuple constant) and
    the fallback of a [find] make no difference to the walk, whatever they refer to, and outside
    the serializing context an assignment [dst += v] records what [dst] refers to and nothing of
    [v]. *)
Theorem untracked_references sc sc' sc'' sc3 obj name args l c f nf dst v s :
  process_expr (mkExpr sc (EOperator OpMethodCall [obj; name; mkExpr sc' (EConstant (CTuple args))])) s
    = (match from_ s with [] => Ret s | _ => process_expr obj s end) ∧
  process_expr (mkExpr sc'' (EFind l c f nf)) s = process_expr (mkExpr sc'' (EFind l c f None)) s ∧
  (serializing s = false →
   process_expr (mkExpr sc3 (EOperator OpPlusAssign [dst; v])) s
   = (match from_ s with [] => Ret s | _ => process_expr dst s end)).
Proof.
  split; [|split].
  - cbn [process_expr ekind]. destruct (from_ s); [done|].
    destruct (process_expr obj s) as [s'| | |]; try done. simpl. by destruct (from_ s').
  - done.
  - intros Hs. cbn [process_expr ekind]. rewrite Hs. done.
Qed.

(** ** What the lengths of a unit read is needed

    While a unit is walked over, records are only added, and what the lengths of its fields read
    is recorded for the length marker every resolution starts from. *)

Module LengthReads.

(** [p] is recorded for [k] in context bit [b]. *)
Definition recorded (s : builder) (k p : string) (b : Z) : Prop :=
  has (deps_of (dep_map s) k) p b.
Definition grown (s s' : builder) : Prop :=
  (∀ k p b, recorded s k p b → recorded s' k p b) ∧ cur_unit_ s' = cur_unit_ s.
Definition advanced (s s' : builder) : Prop := grown s s' ∧ from_ s' = from_ s ∧ cur_dollar_dollar_ s' = cur_dollar_dollar_ s.
Definition evolves (f : builder → outcome builder) : Prop := ∀ s s', f s = Ret s' → advanced s s'.
Definition extends (f : builder → outcome builder) : Prop := ∀ s s', f s = Ret s' → grown s s'.

#[export] Instance grown_preorder : PreOrder grown.
Proof.
  split; [by intros s|]. intros s1 s2 s3 [H1 E1] [H2 E2]. split; [auto|by rewrite E2].
Qed.
#[export] Instance advanced_preorder : PreOrder advanced.
Proof.
  split; [by intros s|]. intros s1 s2 s3 (H1 & E1 & D1) (H2 & E2 & D2).
  split; [by etrans|]. split; [by rewrite E2|by rewrite D2].
Qed.

Lemma add_to_has to ctx l p b :
  has l p b → has (add_to to ctx l) p b.
Proof.
  induction l as [|d l IH]; [by intros ?%has_nil|]. rewrite has_cons. cbn [add_to].
  case_bool; rewrite has_cons; [|intros [?|?]; auto].
  intros [[Hk Hb]|?]; [left; split; [exact Hk|]|by right].
  cbn [context]. by rewrite Z.lor_spec, Hb.
Qed.
Lemma add_to_new to ctx l b :
  Z.testbit ctx b = true → has (add_to to ctx l) (pathAsString to None) b.
Proof.
  intros Hb. induction l as [|d l IH]; cbn [add_to].
  { rewrite has_cons. by left. }
  destruct (id_eqb (dep_id d) to) eqn:E; rewrite has_cons; [left|by right].
  split; [by apply id_eqb_key in E|]. cbn [context]. by rewrite Z.lor_spec, Hb, orb_true_r.
Qed.

Lemma addDependency_advanced from to ctx s : advanced s (addDependency from to ctx s).
Proof.
  split; [split; [|done]|done]. intros k p b. unfold recorded. rewrite BuilderLemmas.deps_of_add.
  destruct (decide _); [apply add_to_has|done].
Qed.
Lemma record_advanced id l s :
  advanced s (foldl (λ s from, addDependency from id (cur_context_ s) s) s l).
Proof.
  revert s. induction l as [|x l IH]; intros s; simpl; [done|].
  etrans; [apply addDependency_advanced|apply IH].
Qed.
Lemma popTracking_advanced s id s' : popTracking s = Ret (id, s') → advanced s s'.
Proof.
  unfold popTracking. destruct (tracking_stack_ s) as [|i rest]; [done|].
  destruct (path_ i); [by intros [= <- <-]|]. intros [= <- <-].
  apply (record_advanced i (from_ s) (set_stack rest s)).
Qed.

Lemma evolves_tracking f : evolves f → evolves (tracking f).
Proof.
  intros Hf s s'. unfold tracking. intros H. destruct_Ret H. injection H as <-.
  etrans; [apply (Hf _ _ E)|by eapply popTracking_advanced].
Qed.
Lemma evolves_in_update f : evolves f → evolves (in_update f).
Proof.
  intros Hf s s'. unfold in_update. intros H. destruct_Ret H. injection H as <-.
  exact (evolves_tracking f Hf _ _ E).
Qed.
Lemma evolves_top p : evolves (add_to_top p).
Proof. intros s s'. unfold add_to_top. destruct (tracking_stack_ s); [done|]. by intros [= <-]. Qed.
Lemma evolves_track id : evolves (track id).
Proof.
  intros s s'. unfold track. destruct id as [i|]; [|by intros [= <-]].
  destruct (path_ i); [by intros [= <-]|]. apply evolves_top.
Qed.
Lemma evolves_bind f g : evolves f → evolves g → evolves (λ s, s ← f s; g s).
Proof. intros Hf Hg s s' H. destruct_Ret H. etrans; [by apply Hf|by apply Hg]. Qed.
Lemma evolves_Ret : evolves Ret.
Proof. by intros s s' [= <-]. Qed.
Lemma evolves_abort w : evolves (λ _, Abort w).
Proof. by intros s s' ?. Qed.
Lemma evolves_if (b : builder → bool) f g :
  evolves f → evolves g → evolves (λ s, if b s then f s else g s).
Proof. intros Hf Hg s s'. destruct (b s); eauto. Qed.

(** Decides [evolves] by the structure of the operation. *)
Ltac evolve :=
  repeat match goal with
  | H : evolves ?f |- evolves ?f => exact H
  | H : ∀ e, evolves (?f e) |- evolves (?f _) => apply H
  | |- evolves Ret => apply evolves_Ret
  | |- evolves (λ _, Abort _) => apply evolves_abort
  | |- evolves (tracking _) => apply evolves_tracking
  | |- evolves (in_update _) => apply evolves_in_update
  | |- evolves (track _) => apply evolves_track
  | |- evolves (λ s, if _ then _ else _) => apply evolves_if
  | |- evolves (λ s, tracking _ s) => apply evolves_tracking
  | |- evolves (λ s, in_update _ s) => apply evolves_in_update
  | |- evolves (λ s, Ret s) => apply evolves_Ret
  | H : evolves ?f |- evolves (λ s, ?f s) => exact H
  | H : ∀ e, evolves (?f e) |- evolves (λ s, ?f _ s) => apply H
  | |- evolves (λ s, mbind _ _) => apply evolves_bind
  end.

Lemma evolves_all ops :
  Forall (λ e, evolves (process_expr e)) ops → evolves (process_all ops).
Proof.
  induction 1 as [|e ops He Hops IH]; [apply evolves_Ret|].
  apply evolves_bind; [by apply evolves_tracking|exact IH].
Qed.

Lemma evolves_process_expr e : evolves (process_expr e).
Proof.
  revert e. fix IH 1. intros [sc k].
  assert (evolves trackElement) as Hel by apply evolves_top.
  assert (∀ ops, evolves (process_all ops)) as Hops.
  { intros ops. apply evolves_all. induction ops; constructor; [apply IH|done]. }
  intros s s'. cbn [process_expr ekind]. destruct (from_ s); [by intros [= <-]|].
  destruct k as [| c t f | | | le c f nf | | | el body | | a | kd ops | pk | | | ];
    try (by intros [= <-]).
  - revert s s'. apply evolves_bind; [evolve|]. apply evolves_bind; [evolve|].
    destruct f; evolve.
  - intros H. destruct_Ret H. etrans; [exact (IH le _ _ E)|].
    etrans; [exact (popTracking_advanced _ _ _ E0)|].
    etrans; [exact (evolves_tracking _ (IH c) _ _ E1)|].
    etrans; [exact (evolves_tracking _ (IH f) _ _ E2)|].
    refine (evolves_tracking _ evolves_Ret _ _ H).
  - apply IH.
  - apply evolves_track.
  - revert s s'.
    destruct kd; try apply Hops; destruct ops as [|x [|y [|z ops]]]; try (by intros ? ? ?).
    all: try (apply evolves_bind; evolve).
    all: try (apply evolves_if; evolve).
  - destruct pk; [apply evolves_track..|by intros [= <-]].
  - intros H. destruct_Ret H. etrans; [exact (evolves_track _ _ _ E)|exact (Hel _ _ H)].
Qed.

Lemma pop_push_from l x s : from_ s = l ++ [x] → from_ (pop_from s) = l.
Proof.
  intros H. unfold pop_from, set_from; cbn [from_]. rewrite H, length_app. cbn [length].
  by rewrite Nat.add_sub, take_app_length.
Qed.

Lemma evolves_visit_attribute a : evolves (visit_attribute a).
Proof.
  intros s s' H. unfold visit_attribute in H. destruct (ignored_attribute _); [by injection H as <-|].
  destruct_Ret H. injection H as <-.
  assert (∀ s0, match attr_value a with Some e => tracking (process_expr e) s0 | None => Ret s0 end
                = Ret a0 → advanced s0 a0) as Ha.
  { intros s0. destruct (attr_value a) as [e|]; [|by intros [= <-]].
    apply evolves_tracking, evolves_process_expr. }
  apply Ha in E. clear Ha. destruct (String.eqb_spec (attr_key a) "length") as [El|_].
  - rewrite El in E. cbn [String.eqb Ascii.eqb Bool.eqb] in E. destruct E as (Hg & Hf & Hd).
    split; [exact Hg|]. split; [exact (pop_push_from _ _ _ Hf)|exact Hd].
  - repeat case_bool; exact E.
Qed.

Lemma evolves_attributes l : evolves (visit_attributes l).
Proof.
  induction l as [|[k a] l IH]; [apply evolves_Ret|].
  apply evolves_bind; [apply evolves_visit_attribute|exact IH].
Qed.
Lemma evolves_visit_item b : evolves (visit_item b).
Proof. apply evolves_bind; [apply evolves_attributes|]. by intros s s' [= <-]. Qed.
Lemma evolves_visit_field fb : evolves (visit_field fb).
Proof.
  unfold visit_field. destruct (condition fb); [|apply evolves_Ret].
  apply evolves_tracking, evolves_process_expr.
Qed.
Lemma evolves_track_all l : evolves (track_all l).
Proof.
  induction l as [|e l IH]; [apply evolves_Ret|].
  apply evolves_bind; [apply evolves_tracking, evolves_process_expr|exact IH].
Qed.
Lemma evolves_extends f : evolves f → extends f.
Proof. intros Hf s s' H. apply Hf, H. Qed.

Section ProcessExtends.
Context (sl : field → outcome Z) (pu : nat → builder → outcome builder).
Context (Hpu : ∀ u, extends (pu u)).

Lemma visited_extends b s s' :
  (∃ s1, visit_item b s = Ret s1 ∧ grown s1 s') → grown s s'.
Proof using Type. intros (s1 & H & Hg). etrans; [apply (evolves_visit_item _ _ _ H)|exact Hg]. Qed.

Lemma process_field_rest f s s' :
  process_field sl pu f s = Ret s' → ∃ s1, visit_item (fbase f) s = Ret s1 ∧ grown s1 s'.
Proof using Hpu.
  revert f s s'. fix IH 1. intros [b fb k] s s' H. cbn [process_field] in H. destruct_Ret H.
  exists a. split; [done|]. etrans; [exact (evolves_extends _ (evolves_visit_field fb) _ _ E0)|]. clear s E E0.
  rename a0 into s. destruct k as [| | | | | e cases | c len | c]; try (by injection H as <-).
  - destruct_Ret H. destruct (item_type b) as [t|]; [|done]. destruct_Ret H. injection H as <-.
    etrans; [exact (evolves_extends _ (evolves_track_all _) _ _ E)|].
    split; [|done]. destruct (kind t); try (injection E1 as <-; by intros ???).
    exact (proj1 (Hpu _ _ _ E1)).
  - destruct_Ret H. etrans.
    { assert (grown s a1) as H1; [|exact H1]. destruct (_ <? 0); [|by injection E0 as <-].
      exact (evolves_extends _ (evolves_tracking _ (λ s, evolves_track _ s)) _ _ E0). }
    etrans.
    { assert (grown a1 a2) as H1; [|exact H1]. destruct e; [|by injection E1 as <-].
      exact (evolves_extends _ (evolves_tracking _ (evolves_process_expr _)) _ _ E1). }
    clear - IH H. revert a2 H. generalize a3. intros i.
    induction cases as [|[es items d] cases IHc]; intros s H; cbv beta match fix in H;
      [by injection H as <-|].
    destruct_Ret H. etrans; [|exact (IHc _ H)]. clear - IH E. revert s E.
    induction items as [|f items IHi]; intros s H; cbv beta match fix zeta in H;
      [by injection H as <-|].
    destruct_Ret H. etrans; [|exact (IHi _ H)]. etrans; [|exact (visited_extends _ _ _ (IH _ _ _ E))].
    split; [|done]. exact (proj1 (proj1 (addDependency_advanced _ _ _ (set_from _ (set_dollar _ s))))).
  - destruct_Ret H. etrans; [|exact (visited_extends _ _ _ (IH _ _ _ H))].
    exact (evolves_extends _ (evolves_tracking _ (evolves_process_expr _)) _ _ E).
  - destruct_Ret H. etrans; [|exact (visited_extends _ _ _ (IH _ _ _ H))]. done.
Qed.

Lemma extends_process_field f : extends (process_field sl pu f).
Proof using Hpu. intros s s' H. by eapply visited_extends, process_field_rest. Qed.
Lemma extends_process_item i : extends (process_item sl pu i).
Proof using Hpu.
  destruct i as [b d|b p|f]; [apply evolves_extends, evolves_visit_item..|].
  apply extends_process_field.
Qed.
Lemma extends_process_items l : extends (process_unit_items sl pu l).
Proof using Hpu.
  induction l as [|i l IH]; [by intros s s' [= <-]|]. intros s s' H. cbn [process_unit_items] in H.
  cbv zeta in H. destruct_Ret H. etrans; [exact (extends_process_item i _ _ E)|exact (IH _ _ H)].
Qed.
End ProcessExtends.

Lemma extends_process_unit fuel us u : extends (process_unit fuel us u).
Proof.
  revert u. induction fuel as [|fuel IH]; intros u s s' H; [done|]. cbn [process_unit] in H.
  destruct (us !! u); [|done]. by eapply extends_process_items; [|eassumption].
Qed.

(** ** The accesses of a length *)

(** [e] is a length of the field: of its [&length] attribute, or of a vector. *)
Definition sized_with (f : field) (e : expr) : Prop :=
  (∃ k a, (k, a) ∈ attributes_ (fbase f) ∧ attr_key a = "length"%string ∧ attr_value a = Some e) ∨
  (∃ c, fkind f = FVector c e).

(** [p] is one of the paths the length [e] of the item [d] reads. *)
Definition reads_path (d : ID) (e : expr) (p : list string) : Prop :=
  reads e = true ∧ p ≠ [] ∧
  ∀ found, p ∈ uses (mkID []) (Some d) found e ++ [access (mkID []) (Some d) found e].

Lemma record_use_new s p from b :
  from ∈ from_ s → p ≠ [] → Z.testbit (cur_context_ s) b = true →
  recorded (record_use s p) (pathAsString from None) (pathAsString (mkID p) None) b.
Proof.
  intros Hin Hp Hb. unfold record_use. destruct p as [|x p]; [done|].
  revert s Hb Hin. intros s. generalize (from_ s). intros l. revert s.
  induction l as [|y l IH]; intros s Hb Hin; [by apply elem_of_nil in Hin|]. cbn [foldl].
  apply elem_of_cons in Hin as [<-|Hin]; [|by apply IH].
  apply record_advanced. unfold recorded. rewrite BuilderLemmas.deps_of_add, decide_True by done.
  by apply add_to_new.
Qed.

Lemma record_use_advanced s p : advanced s (record_use s p) ∧ cur_context_ (record_use s p) = cur_context_ s.
Proof.
  unfold record_use. destruct p as [|x p]; [done|]. split; [apply record_advanced|].
  generalize (from_ s). intros l. revert s. induction l as [|y l IH]; intros s; [done|]. cbn [foldl]. by rewrite IH.
Qed.
Lemma record_uses_advanced s ps : advanced s (record_uses s ps).
Proof.
  revert s. induction ps as [|p ps IH]; intros s; [done|].
  etrans; [apply record_use_advanced|apply IH].
Qed.

Lemma record_uses_new s ps p from b :
  p ∈ ps → from ∈ from_ s → p ≠ [] → Z.testbit (cur_context_ s) b = true →
  recorded (record_uses s ps) (pathAsString from None) (pathAsString (mkID p) None) b.
Proof.
  revert s. induction ps as [|q ps IH]; intros s Hp Hin Hne Hb; [by apply elem_of_nil in Hp|].
  unfold record_uses; cbn [foldl]. fold (record_uses (record_use s q) ps).
  apply elem_of_cons in Hp as [<-|Hp].
  - apply (record_uses_advanced (record_use s p) ps). by apply record_use_new.
  - destruct (record_use_advanced s q) as [(_ & Hf & _) Hc].
    apply IH; [done|by rewrite Hf|done|by rewrite Hc].
Qed.

Abbreviation length_key := (pathAsString length_tracking_id None).

(** A walk over a length with the marker among the identifiers it works for. *)
Lemma tracking_length e d p s s' :
  reads_path d e p → tracking (process_expr e) s = Ret s' →
  cur_unit_ s = mkID [] → cur_dollar_dollar_ s = Some d → length_tracking_id ∈ from_ s →
  Z.testbit (cur_context_ s) 1 = true → recorded s' length_key (pathAsString (mkID p) None) 1.
Proof.
  intros (Hr & Hp & Hin) H Hu Hd Hl Hc.
  pose proof (walks_tracking (mkID []) (Some d) (cur_find_list_ s) e (tracking_stack_ s) s) as Hw.
  assert (set_stack (tracking_stack_ s) s = s) as Hid by (by destruct s). rewrite Hid in Hw.
  rewrite Hw, <- record_uses_stack, Hid in H.
  - injection H as <-. apply record_uses_new; [apply Hin|done..].
  - by apply reads_walks.
  - split; [|done]. intros E. rewrite E in Hl. by apply elem_of_nil in Hl.
Qed.

Lemma visit_item_length b e d p s s' :
  (∃ k a, (k, a) ∈ attributes_ b ∧ attr_key a = "length"%string ∧ attr_value a = Some e) →
  reads_path d e p → visit_item b s = Ret s' →
  cur_unit_ s = mkID [] → cur_dollar_dollar_ s = Some d →
  recorded s' length_key (pathAsString (mkID p) None) 1.
Proof.
  intros (k & a & Hin & Hk & He) Hr H Hu Hd. unfold visit_item in H. destruct_Ret H.
  injection H as <-. assert (recorded a0 length_key (pathAsString (mkID p) None) 1) as Hg; [|exact Hg].
  revert s Hu Hd E. induction (attributes_ b) as [|[k1 a1] l IH]; intros s Hu Hd E;
    [by apply elem_of_nil in Hin|].
  cbn [visit_attributes] in E. destruct_Ret E.
  apply elem_of_cons in Hin as [[= <- <-]|Hin].
  - apply (evolves_attributes _ _ _ E). unfold visit_attribute in E0. rewrite Hk, He in E0.
    cbn [ignored_attribute String.eqb Ascii.eqb Bool.eqb orb] in E0. destruct_Ret E0.
    injection E0 as <-. assert (recorded a1 length_key (pathAsString (mkID p) None) 1) as Hg; [|exact Hg].
    eapply (tracking_length e d); [exact Hr|exact E1|done|done| |done].
    apply list.elem_of_app. right. by left.
  - destruct (evolves_visit_attribute _ _ _ E0) as ((_ & Hu') & _ & Hd').
    apply (IH Hin a2); [by rewrite Hu'|by rewrite Hd'|exact E].
Qed.

Section Lengths.
Context (sl : field → outcome Z) (pu : nat → builder → outcome builder).
Context (Hpu : ∀ u, extends (pu u)).

Lemma process_field_length f e d p s s' :
  sized_with f e → reads_path d e p → process_field sl pu f s = Ret s' →
  cur_unit_ s = mkID [] → cur_dollar_dollar_ s = Some d →
  recorded s' length_key (pathAsString (mkID p) None) 1.
Proof using Hpu.
  intros Hs Hr H Hu Hd. destruct f as [b fb k]. destruct Hs as [Hs|[c Hs]].
  - destruct (process_field_rest sl pu Hpu _ _ _ H) as (s1 & Hv & Hg).
    apply Hg. by eapply visit_item_length.
  - simpl in Hs. subst k. cbn [process_field] in H. destruct_Ret H.
    apply (extends_process_field sl pu Hpu _ _ _ H).
    assert (recorded a1 length_key (pathAsString (mkID p) None) 1) as Hg; [|exact Hg].
    destruct (evolves_visit_item _ _ _ E) as ((_ & Hu1) & _ & Hd1).
    destruct (evolves_visit_field _ _ _ E0) as ((_ & Hu2) & _ & Hd2).
    eapply (tracking_length e d); [exact Hr|exact E1|by cbn; rewrite Hu2, Hu1|by cbn; rewrite Hd2, Hd1| |done].
    apply list.elem_of_app. right. by left.
Qed.

Lemma process_items_length l f e d p s s' :
  IField f ∈ l → sized_with f e → d = combineIDs (mkID []) (item_id (fbase f)) → reads_path d e p →
  process_unit_items sl pu l s = Ret s' → cur_unit_ s = mkID [] →
  recorded s' length_key (pathAsString (mkID p) None) 1.
Proof using Hpu.
  intros Hin Hs -> Hr. revert s. induction l as [|i l IH]; intros s H Hu; [by apply elem_of_nil in Hin|].
  cbn [process_unit_items] in H. cbv zeta in H. destruct_Ret H.
  apply elem_of_cons in Hin as [<-|Hin].
  - apply (extends_process_items sl pu Hpu _ _ _ H).
    assert (recorded a length_key (pathAsString (mkID p) None) 1) as Hg; [|exact Hg].
    eapply process_field_length; [exact Hs|exact Hr|exact E|exact Hu|]. cbn. by rewrite Hu.
  - apply (IH Hin _ H). cbn. rewrite (proj2 (extends_process_item sl pu Hpu i _ _ E)). exact Hu.
Qed.
End Lengths.

(** What a length reads by a path is needed for parsing by every instantiation of the unit. *)
Lemma length_needed fuel us u ut items deps f e p :
  resolve_dependencies fuel us u items = Ret deps → us !! u = Some ut →
  IField f ∈ unit_items ut → sized_with f e →
  reads_path (combineIDs (mkID []) (item_id (fbase f))) e p →
  pathAsString (mkID p) None ≠ length_key →
  has deps (pathAsString (mkID p) None) 1.
Proof.
  intros H Hu Hf Hs Hr Hne. unfold resolve_dependencies in H. destruct_Ret H.
  destruct (resolve_instantiation_spec a items) as (deps' & Hd & (_ & _ & Hn) & _).
  { by apply (BuilderLemmas.build_map_ok _ _ _ _ E). }
  rewrite H in Hd. injection Hd as <-. apply Hn; [exact Hne|].
  unfold build_map in E. destruct_Ret E. injection E as <-.
  assert (recorded a0 length_key (pathAsString (mkID p) None) 1) as (d & Hd & Hk & Hb).
  { destruct fuel as [|fuel]; [done|]. cbn [process_unit] in E0. rewrite Hu in E0.
    eapply process_items_length; [apply extends_process_unit|exact Hf|exact Hs|reflexivity|exact Hr
      |exact E0|done]. }
  rewrite <- Hk. eapply needs_context; [|exact Hd|exact Hb].
  apply needs_init. exists (mkDep length_tracking_id CONTEXT_PARSING). split; [by left|done].
Qed.

End LengthReads.

(** ** Instances *)

(** A unit whose data is as long as its header says: [len], [data &length = self.len], [seen]. *)
Definition self_len : expr :=
  new_expr (EOperator OpAttribute
    [new_expr (EParserState SELF None None (mkTy plain (TUnit 0)));
     new_expr (EMemberAttribute (mkID ["len"%string]))]).
Definition dep_unit : unit_type :=
  mkUnit []
    [IField (mkField (newItem (Some (mkID ["len"%string])) (Some (mkTy plain (TInteger 16 false))) [] 0).1
               (mkFieldBase None [] []) FAtomicType);
     IField (mkField (newItem (Some (mkID ["data"%string])) (Some (mkTy plain TBytes))
                        [mkAttr "length" (Some self_len) false] 0).1
               (mkFieldBase None [] []) FAtomicType);
     IVariable (newItem (Some (mkID ["seen"%string])) (Some (mkTy plain TBool)) [] 0).1 None]
    false (Some (mkID ["Message"%string])) None.
Definition dep_units : units := {[ 0%nat := dep_unit ]}.

Definition dep_map_expected : DependencyMap :=
  {[ "data"%string := [mkDep (mkID ["len"%string]) 10];
     "__length"%string := [mkDep (mkID ["len"%string]) 10] ]}.

(** The length is needed for parsing and has to be updated when serializing. *)
Example dep_example :
  resolve_dependencies 1 dep_units 0 [mkID ["data"%string]] =
  Ret [mkDep (mkID ["data"%string]) 1; mkDep (mkID ["len"%string]) 10].
Proof. vm_compute. reflexivity. Qed.

Lemma dependencies_resolved_witness :
  ∃ deps, resolve_dependencies 1 dep_units 0 [mkID ["data"%string]] = Ret deps ∧
    resolved dep_map_expected [mkID ["data"%string]] deps ∧
    take 1 (keys deps) = ["data"%string].
Proof.
  apply (dependencies_resolved 1 dep_units 0 dep_map_expected [mkID ["data"%string]]).
  vm_compute. reflexivity.
Defined.

Definition dep_builder : builder :=
  mkBuilder ∅ [mkID ["data"%string]] [] (mkID []) (Some (mkID ["data"%string])) None 2.

Lemma tracking_records_accesses_witness :
  tracking (process_expr self_len) dep_builder =
  Ret (record_uses dep_builder [["len"%string]]).
Proof. apply (tracking_records_accesses self_len dep_builder); [reflexivity|discriminate]. Defined.

Lemma untracked_references_witness :
  process_expr (mkExpr "" (EOperator OpPlusAssign [self_len; self_len]))
    (set_stack [mkID []] dep_builder) =
  process_expr self_len (set_stack [mkID []] dep_builder).
Proof.
  apply (untracked_references "" "" "" "" self_len self_len [] self_len self_len self_len None
    self_len self_len (set_stack [mkID []] dep_builder)). reflexivity.
Defined.
