(* ===== verification/Inst.v ===== *)
(** * Generating the types of an instantiation
    ([src/src/generation/preprocessing/instantiation_type_generator.h], [.cpp])

    [InstantiationTypeGenerator] builds a compact unit for an instantiation: items the
    instantiation depends on are copied, runs of other fields are merged into bytes fields
    of the same total length, variables nobody needs are dropped.  [SelfReplacerVisitor] then
    points the [self] expressions of the new unit at it. *)

From S2P Require Import Prelude Util Ident Ast Units Wire Deps.
Import Util.SplitJoin Ident.Id Units.Units Deps.Deps.

Module Inst.

Record gen := mkGen {
  cur_unit_items_ : list item;
  cur_compactable_fields_ : list field;
  id_counter_ : Z }.

Definition push_item (i : item) (ctr : Z) (g : gen) : gen :=
  mkGen (cur_unit_items_ g ++ [i]) (cur_compactable_fields_ g) ctr.

(** [dependencyContextFor]. *)
Fixpoint dependencyContextFor (deps : list Dependency) (id : ID) : Z :=
  match deps with
  | [] => 0
  | d :: deps =>
      let c := dependencyContextFor deps id in
      if prefixOf (dep_id d) id then Z.lor (context d) c else c
  end.

(** [copyItem]. *)
Definition copyItem (i : item) (ctr : Z) : outcome (item * Z) := clone_item i ctr.

(** [addFieldOfLength]. *)
Definition addFieldOfLength (length : expr) (g : gen) : outcome gen :=
  let '(b, ctr) := newItem None (Some (mkTy plain TBytes)) [] (id_counter_ g) in
  let b := set_application_accessible false b in
  l ← clone length;
  let b := add_attribute (mkAttr (Attribute.strip_key "length") (Some l) false) b in
  Ret (push_item (IField (mkField b (mkFieldBase None [] []) FAtomicType)) ctr g).

Definition add_pending (len : option expr) (g : gen) : outcome gen :=
  match len with Some l => addFieldOfLength l g | None => Ret g end.

Section Generate.
  Context (ul : nat → outcome Z) (ue : nat → outcome (option expr)).

(** [compactAndAddItems]: the loop over the compactable fields, [len] being the length
    expression accumulated so far. *)
Fixpoint compact_loop (l : list field) (len : option expr) (g : gen) : outcome gen :=
  match l with
  | [] => add_pending len g
  | f :: l =>
      f_len ← serialized_length ul ue f;
      match f_len with
      | Some f_len =>
          compact_loop l (Some (match len with
                                | Some len => op_expr OpPlus [len; f_len]
                                | None => f_len
                                end)) g
      | None =>
          g ← add_pending len g;
          '(i, ctr) ← copyItem (IField f) (id_counter_ g);
          compact_loop l None (push_item i ctr g)
      end
  end.
Definition compactAndAddItems (g : gen) : outcome gen :=
  g ← compact_loop (cur_compactable_fields_ g) None g;
  Ret (mkGen (cur_unit_items_ g) [] (id_counter_ g)).

Definition is_variable (i : item) : bool := match i with IVariable _ _ => true | _ => false end.
Definition item_set_parsing_only (i : item) : item :=
  match i with
  | IVariable b d => IVariable (set_parsing_only true b) d
  | IProperty b p => IProperty (set_parsing_only true b) p
  | IField (mkField b fb k) => IField (mkField (set_parsing_only true b) fb k)
  end.

(** [visit(Item)]; the path is relative to the unit, whose own path is empty. *)
Definition visit_Item (deps : list Dependency) (cur_unit_id : ID) (i : item) (g : gen)
    : outcome gen :=
  let path := combineIDs cur_unit_id (item_id (ibase i)) in
  let context := dependencyContextFor deps path in
  if negb (context =? 0)%Z then
    g ← (if is_variable i then Ret g else compactAndAddItems g);
    '(n, ctr) ← copyItem i (id_counter_ g);
    let n := if (context =? CONTEXT_PARSING)%Z then item_set_parsing_only n else n in
    Ret (push_item n ctr g)
  else
    match i with
    | IField f =>
        Ret (mkGen (cur_unit_items_ g) (cur_compactable_fields_ g ++ [f]) (id_counter_ g))
    | IVariable _ _ => Ret g
    | IProperty _ _ =>
        '(n, ctr) ← copyItem i (id_counter_ g); Ret (push_item n ctr g)
    end.

Fixpoint visit_items (deps : list Dependency) (l : list item) (g : gen) : outcome gen :=
  match l with
  | [] => Ret g
  | i :: l => g ← visit_Item deps (mkID []) i g; visit_items deps l g
  end.
End Generate.

(** ** [SelfReplacerVisitor] *)

(** Only subexpressions that are child nodes are reached: the elements of a tuple constant
    are children of the constant, not of the expression. *)
Fixpoint replace_self (unit_ : ty) (e : expr) : expr :=
  match e with
  | mkExpr sc k =>
      mkExpr sc
        (match k with
         | EAssign d s => EAssign (replace_self unit_ d) (replace_self unit_ s)
         | EConditional c t f =>
             EConditional (replace_self unit_ c) (replace_self unit_ t)
               (match f with Some f => Some (replace_self unit_ f) | None => None end)
         | EFind l c f n =>
             EFind (replace_self unit_ l) (replace_self unit_ c) (replace_self unit_ f)
               (match n with Some n => Some (replace_self unit_ n) | None => None end)
         | ELambda id b => ELambda id (replace_self unit_ b)
         | EListComprehension o v i p =>
             EListComprehension (replace_self unit_ o) v (replace_self unit_ i)
               (match p with Some p => Some (replace_self unit_ p) | None => None end)
         | EOperator kd ops => EOperator kd (map (replace_self unit_) ops)
         | EParserState SELF id _ _ => EParserState SELF id (Some unit_) unit_
         | EParserState kd id _ t => EParserState kd id (Some unit_) t
         | k => k
         end)
  end.

(** [visit(Item)] of the replacer: the attributes, and the expressions that are children of
    the item.  The condition of a field is not a child, nor are the cases of a switch or the
    contained field of a container visited. *)
Definition replace_attr (u : ty) (a : attr) : attr :=
  match a with mkAttr k v i => mkAttr k (replace_self u <$> v) i end.
Definition replace_base (u : ty) (b : item_base) : item_base :=
  mkItemBase (item_id b) (anonymous b) (parsing_only b) (app_accessible b) (item_type b)
    (serialized_type_ b) (map (λ p, (p.1, replace_attr u p.2)) (attributes_ b)) (item_unit b).
Definition replace_item (u : ty) (i : item) : item :=
  match i with
  | IVariable b d => IVariable (replace_base u b) (replace_self u <$> d)
  | IProperty b p => IProperty (replace_base u b) (replace_attr u p)
  | IField (mkField b fb k) =>
      IField (mkField (replace_base u b)
        (mkFieldBase (condition fb) (map (replace_self u) (parameters fb))
                     (map (replace_self u) (sinks fb)))
        (match k with
         | FSwitch e cases => FSwitch (replace_self u <$> e) cases
         | FVector c len => FVector c (replace_self u len)
         | k => k
         end))
  end.

Definition item_set_unit (u : nat) (i : item) : item :=
  match i with
  | IVariable b d => IVariable (set_unit_ptr u b) d
  | IProperty b p => IProperty (set_unit_ptr u b) p
  | IField f => IField (set_unit u f)
  end.

(** [visit(Unit)]: the compact unit, stored under a new handle. *)
Definition newUnit (h : nat) (params : list param) (items : list item) (id : ID) : unit_type :=
  mkUnit params (map (item_set_unit h) items) false (Some id) None.

Definition compact_unit (fuel : nat) (us : units) (deps : list Dependency) (name : ID)
    (ut : unit_type) (g : gen) : outcome (nat * units * gen) :=
  let g := mkGen [] (cur_compactable_fields_ g) (id_counter_ g) in
  g ← visit_items (unit_len fuel us) (unit_expr fuel us) deps (unit_items ut) g;
  g ← compactAndAddItems (unit_len fuel us) (unit_expr fuel us) g;
  let h := fresh (dom us) in
  let u := newUnit h (unit_params ut) (cur_unit_items_ g) name in
  let self := mkTy plain (TUnit h) in
  let u := mkUnit (unit_params u) (map (replace_item self) (unit_items u)) (unit_wildcard u)
             (unit_id u) (unit_module_properties u) in
  Ret (h, <[h := u]> us, g).

(** [visit(Instantiation)]: dependency resolution, then the compact unit. *)
Definition instantiate (fuel : nat) (us : units) (u : nat) (name : ID) (items : list ID)
    (ctr : Z) : outcome (nat * units * Z) :=
  deps ← resolve_dependencies fuel us u items;
  match us !! u with
  | None => Abort "unit"
  | Some ut =>
      '(h, us, g) ← compact_unit fuel us deps name ut (mkGen [] [] ctr);
      Ret (h, us, id_counter_ g)
  end.

End Inst.

(** ** Compaction keeps the layout of messages *)

Module Layout.
Import Inst.

(** Sizes in the messages in which every switch takes a case by a label, without bit fields and
    with constant lengths in embedded units. *)
Abbreviation lwire us := (wire us flat_labels_taken).

(** Values of length expressions do not depend on the unit type [self] is annotated with. *)
Class SelfInvariant (rho : expr → option Z) : Prop :=
  rho_replace_self u e : rho (replace_self u e) = rho e.

Definition item_fields (l : list item) : list field := omap as_field l.

Section Sizes.
Context (us : units) (rho : expr → option Z) `{!LengthSemantics rho}.

Lemma wire_fields_app l1 l2 m :
  lwire us rho (PFields (l1 ++ l2)) m ↔
  ∃ m1 m2, m = (m1 + m2)%Z ∧ lwire us rho (PFields l1) m1 ∧ lwire us rho (PFields l2) m2.
Proof using Type.
  revert m. induction l1 as [|f l1 IH]; intros m; simpl.
  - split.
    + intros H. exists 0%Z, m. split; [lia|]. split; [constructor|done].
    + intros (m1 & m2 & -> & H1 & H2). inversion H1; subst. by rewrite Z.add_0_l.
  - split.
    + intros H. apply wire_fields_cons_inv in H as (n & k & -> & Hf & Hl).
      apply IH in Hl as (m1 & m2 & -> & ? & ?). exists (n + m1)%Z, m2.
      split; [lia|]. split; [by constructor|done].
    + intros (m1 & m2 & -> & H1 & H2).
      apply wire_fields_cons_inv in H1 as (n & k & -> & Hf & Hl).
      rewrite <- Z.add_assoc. constructor; [done|]. apply IH. eauto.
Qed.

Lemma wire_field_one f m : lwire us rho (PFields [f]) m ↔ lwire us rho (PField f) m.
Proof using Type.
  split.
  - intros H. apply wire_fields_cons_inv in H as (n & k & -> & Hf & Hl).
    inversion Hl; subst. by rewrite Z.add_0_r.
  - intros H. rewrite <- (Z.add_0_r m). constructor; [done|constructor].
Qed.

Lemma wire_push g i ctr m n :
  lwire us rho (PFields (item_fields (cur_unit_items_ g))) m →
  match i with IField f => lwire us rho (PField f) n | _ => n = 0%Z end →
  lwire us rho (PFields (item_fields (cur_unit_items_ (push_item i ctr g)))) (m + n).
Proof using Type.
  intros Hm Hn. unfold push_item, item_fields; simpl. rewrite omap_app.
  apply wire_fields_app. exists m, n. split; [done|]. split; [done|].
  destruct i as [| |f]; simpl; [subst n; constructor..|]. by apply wire_field_one.
Qed.

Lemma addFieldOfLength_wire len g g' m z :
  addFieldOfLength len g = Ret g' → rho len = Some z → (0 ≤ z)%Z →
  lwire us rho (PFields (item_fields (cur_unit_items_ g))) m →
  lwire us rho (PFields (item_fields (cur_unit_items_ g'))) (m + z).
Proof using LengthSemantics0.
  unfold addFieldOfLength. cbn [newItem]. intros H Hz Hnn Hm. destruct_Ret H. injection H as <-.
  apply wire_push; [done|]. eapply W_bytes; [done|done| |done|done| |done].
  - split; [by repeat constructor|]. by repeat constructor.
  - by rewrite (sem_clone _ _ E).
Qed.

Lemma copyItem_wire i ctr n ctr' m :
  copyItem i ctr = Ret (n, ctr') →
  match i with IField f => lwire us rho (PField f) m | _ => m = 0%Z end →
  match n with IField f => lwire us rho (PField f) m | _ => m = 0%Z end.
Proof using LengthSemantics0.
  unfold copyItem. destruct i as [b d|b p|f]; cbn [clone_item]; intros H Hm; destruct_Ret H;
    injection H as <- <-; [done|done|]. by apply (wire_clone us flat_labels_taken eq_refl rho _ _ Hm _ _ _ _ E).
Qed.

Context (fuel : nat).
Abbreviation ul := (unit_len fuel us).
Abbreviation ue := (unit_expr fuel us).

Lemma compact_loop_wire l len g g' m1 m2 z :
  compact_loop ul ue l len g = Ret g' →
  match len with Some e => rho e = Some z ∧ (0 ≤ z)%Z | None => z = 0%Z end →
  lwire us rho (PFields (item_fields (cur_unit_items_ g))) m1 → lwire us rho (PFields l) m2 →
  (m2 < 2 ^ 31)%Z →
  lwire us rho (PFields (item_fields (cur_unit_items_ g'))) (m1 + z + m2).
Proof using LengthSemantics0.
  revert len g m1 m2 z. induction l as [|f l IH]; intros len g m1 m2 z H Hlen H1 H2 Hlt.
  - inversion H2; subst. rewrite Z.add_0_r. simpl in H. destruct len as [e|]; simpl in H.
    + destruct Hlen. by eapply addFieldOfLength_wire.
    + injection H as <-. subst z. by rewrite Z.add_0_r.
  - apply wire_fields_cons_inv in H2 as (n & k & -> & Hf & Hl).
    pose proof (wire_nonneg _ _ _ _ _ Hf). pose proof (wire_nonneg _ _ _ _ _ Hl).
    cbn [compact_loop] in H. destruct_Ret H. destruct a as [e|].
    + assert (rho e = Some n) as He.
      { apply (wire_expr us flat_labels_taken eq_refl eq_refl rho _ _ eq_refl Hf _ ltac:(lia) fuel). exact E. }
      replace (m1 + z + (n + k))%Z with (m1 + (z + n) + k)%Z by lia.
      eapply IH; [exact H| |done|done|lia]. destruct len as [e0|]; simpl.
      * destruct Hlen. split; [by apply sem_plus|lia].
      * subst z. by rewrite Z.add_0_l.
    + destruct_Ret H.
      assert (lwire us rho (PFields (item_fields (cur_unit_items_ a))) (m1 + z)) as Ha.
      { destruct len as [e0|]; simpl in E0.
        - destruct Hlen. by eapply addFieldOfLength_wire.
        - injection E0 as <-. subst z. by rewrite Z.add_0_r. }
      pose proof (wire_push a i z0 _ n Ha (copyItem_wire (IField f) _ _ _ n E1 Hf)) as Hp.
      replace (m1 + z + (n + k))%Z with (m1 + z + n + 0 + k)%Z by lia.
      by eapply IH; [exact H|done|exact Hp|done|lia].
Qed.

(** Items are only ever appended to the unit under construction. *)
Definition extends (g g' : gen) : Prop := ∃ l, cur_unit_items_ g' = cur_unit_items_ g ++ l.

Lemma extends_refl g : extends g g.
Proof using Type. exists []. by rewrite app_nil_r. Qed.
Lemma extends_trans g1 g2 g3 : extends g1 g2 → extends g2 g3 → extends g1 g3.
Proof using Type. intros [l1 H1] [l2 H2]. exists (l1 ++ l2). by rewrite H2, H1, app_assoc. Qed.
Lemma extends_push i ctr g : extends g (push_item i ctr g).
Proof using Type. by exists [i]. Qed.

Lemma add_pending_extends len g g' : add_pending len g = Ret g' → extends g g'.
Proof using Type.
  destruct len as [e|]; simpl; [|intros [= <-]; apply extends_refl].
  unfold addFieldOfLength. cbn [newItem]. intros H. destruct_Ret H. injection H as <-.
  apply extends_push.
Qed.

Lemma compact_loop_extends l len g g' : compact_loop ul ue l len g = Ret g' → extends g g'.
Proof using Type.
  revert len g. induction l as [|f l IH]; intros len g H; [by apply add_pending_extends in H|].
  cbn [compact_loop] in H. destruct_Ret H. destruct a as [e|]; [by eapply IH|]. destruct_Ret H.
  eapply extends_trans; [by eapply add_pending_extends|].
  eapply extends_trans; [apply extends_push|by eapply IH].
Qed.
Lemma compactAndAddItems_extends g g' : compactAndAddItems ul ue g = Ret g' → extends g g'.
Proof using Type.
  unfold compactAndAddItems. intros H. destruct_Ret H. injection H as <-.
  by apply compact_loop_extends in E.
Qed.

Lemma visit_Item_extends deps u i g g' : visit_Item ul ue deps u i g = Ret g' → extends g g'.
Proof using Type.
  unfold visit_Item. cbv zeta. destruct (negb _).
  - intros H. destruct_Ret H. injection H as <-. eapply extends_trans; [|apply extends_push].
    destruct (is_variable i); [injection E as <-; apply extends_refl|].
    by apply compactAndAddItems_extends.
  - destruct i; intros H.
    + injection H as <-. apply extends_refl.
    + destruct_Ret H. injection H as <-. apply extends_push.
    + injection H as <-. exists []. by rewrite app_nil_r.
Qed.
Lemma visit_items_extends deps l g g' : visit_items ul ue deps l g = Ret g' → extends g g'.
Proof using Type.
  revert g. induction l as [|i l IH]; intros g H; cbn [visit_items] in H.
  - injection H as <-. apply extends_refl.
  - destruct_Ret H. eapply extends_trans; [by eapply visit_Item_extends|by eapply IH].
Qed.

(** What has been visited takes as much space as what has been built and what is pending. *)
Definition sized (done : list item) (g : gen) : Prop :=
  ∀ m, lwire us rho (PFields (item_fields done)) m → (m < 2 ^ 31)%Z →
  lwire us rho (PFields (item_fields (cur_unit_items_ g) ++ cur_compactable_fields_ g)) m.

Lemma compactAndAddItems_sized l g g' :
  compactAndAddItems ul ue g = Ret g' → sized l g →
  sized l g' ∧ cur_compactable_fields_ g' = [].
Proof using LengthSemantics0.
  unfold compactAndAddItems. intros H Hs. destruct_Ret H. injection H as <-. split; [|done].
  intros m Hm Hlt. simpl. rewrite app_nil_r.
  pose proof (Hs m Hm Hlt) as Hw. apply wire_fields_app in Hw as (m1 & m2 & -> & H1 & H2).
  replace (m1 + m2)%Z with (m1 + 0 + m2)%Z by lia. eapply compact_loop_wire; try done.
  pose proof (wire_nonneg _ _ _ _ _ H1). lia.
Qed.

(** The size of a field depends on its types, its attributes and its kind. *)
Lemma wire_base b b' fb fb' k m :
  serialized_type b' = serialized_type b → item_type b' = item_type b →
  attributes_ b' = attributes_ b →
  lwire us rho (PField (mkField b fb k)) m → lwire us rho (PField (mkField b' fb' k)) m.
Proof using Type.
  intros Hs Hi Ha H. inversion H; subst;
    [eapply W_atomic|eapply W_bytes|eapply W_constant|eapply W_unit_field|eapply W_switch
    |eapply W_vector|eapply W_list]; rewrite ?Hs, ?Hi, ?Ha; eauto.
Qed.

Lemma parsing_only_wire i m :
  match i with IField f => lwire us rho (PField f) m | _ => m = 0%Z end →
  match item_set_parsing_only i with IField f => lwire us rho (PField f) m | _ => m = 0%Z end.
Proof using Type. destruct i as [| |[b fb k]]; simpl; try done. by apply wire_base. Qed.

Lemma item_wire_split done i m :
  lwire us rho (PFields (item_fields (done ++ [i]))) m →
  ∃ m1 m2, m = (m1 + m2)%Z ∧ lwire us rho (PFields (item_fields done)) m1 ∧
           match i with IField f => lwire us rho (PField f) m2 | _ => m2 = 0%Z end.
Proof using Type.
  unfold item_fields. rewrite omap_app, wire_fields_app. intros (m1 & m2 & -> & H1 & H2).
  exists m1, m2. split; [done|]. split; [done|]. destruct i; simpl in H2.
  1,2: by inversion H2. by apply wire_field_one.
Qed.

Lemma push_sized i ctr g m n :
  lwire us rho (PFields (item_fields (cur_unit_items_ g) ++ cur_compactable_fields_ g)) m →
  match i with IField f => lwire us rho (PField f) n | _ => n = 0%Z end →
  match i with IField _ => cur_compactable_fields_ g = [] | _ => True end →
  let g' := push_item i ctr g in
  lwire us rho (PFields (item_fields (cur_unit_items_ g') ++ cur_compactable_fields_ g')) (m + n).
Proof using Type.
  intros Hm Hn Hp. unfold push_item, item_fields; simpl. rewrite omap_app.
  destruct i as [| |f]; simpl; rewrite ?app_nil_r.
  1,2: subst n; by rewrite Z.add_0_r.
  rewrite Hp in *. rewrite app_nil_r in *. apply wire_fields_app.
  exists m, n. by rewrite wire_field_one.
Qed.

Lemma copy_kind i ctr n ctr' :
  copyItem i ctr = Ret (n, ctr') →
  is_variable n = is_variable i ∧ (∀ f, n = IField f → ∃ f0, i = IField f0).
Proof using Type.
  unfold copyItem. destruct i as [b d|b p|f]; cbn [clone_item]; intros H; destruct_Ret H;
    injection H as <- <-; split; try done; eauto.
Qed.

Lemma visit_Item_sized deps done i g g' :
  visit_Item ul ue deps (mkID []) i g = Ret g' → sized done g → sized (done ++ [i]) g'.
Proof using LengthSemantics0.
  unfold visit_Item. cbv zeta. intros H Hs m Hm Hlt.
  apply item_wire_split in Hm as (m1 & m2 & -> & H1 & H2).
  assert (0 ≤ m2)%Z as Hnn by (destruct i; [lia..|by eapply wire_nonneg]).
  destruct (negb _).
  - destruct_Ret H. injection H as <-.
    assert (sized done a ∧ (is_variable i = false → cur_compactable_fields_ a = [])) as [Ha Hp].
    { destruct (is_variable i); [by injection E as <-|].
      eapply compactAndAddItems_sized in E as [??]; eauto. }
    pose proof (copy_kind _ _ _ _ E0) as [Hv Hk].
    pose proof (copyItem_wire _ _ _ _ _ E0 H2) as Hw.
    apply push_sized; [by apply Ha; [|lia]| |].
    + case_bool; [by apply parsing_only_wire|done].
    + case_bool; destruct i0 as [| |[b fb k]]; simpl; try done; apply Hp; by rewrite <- Hv.
  - destruct i as [b d|b p|f].
    + injection H as <-. subst m2. rewrite Z.add_0_r in *. by apply Hs.
    + destruct_Ret H. injection H as <-. pose proof (copy_kind _ _ _ _ E) as [_ Hk].
      pose proof (copyItem_wire _ _ _ _ _ E H2) as Hw. subst m2.
      apply push_sized; [by apply Hs; [|lia]|done|].
      destruct i; try done. by destruct (Hk _ eq_refl).
    + injection H as <-. simpl. rewrite app_assoc. apply wire_fields_app.
      exists m1, m2. rewrite wire_field_one. split; [done|]. split; [|done].
      apply Hs; [done|lia].
Qed.

Lemma visit_items_sized deps l done g g' :
  visit_items ul ue deps l g = Ret g' → sized done g → sized (done ++ l) g'.
Proof using LengthSemantics0.
  revert done g. induction l as [|i l IH]; intros done g H Hs; cbn [visit_items] in H.
  - injection H as <-. by rewrite app_nil_r.
  - destruct_Ret H. rewrite (app_assoc _ [i] l). eapply IH; [exact H|].
    by eapply visit_Item_sized.
Qed.

Lemma visit_items_app deps l1 l2 g g' :
  visit_items ul ue deps (l1 ++ l2) g = Ret g' →
  ∃ g1, visit_items ul ue deps l1 g = Ret g1 ∧ visit_items ul ue deps l2 g1 = Ret g'.
Proof using Type.
  revert g. induction l1 as [|i l1 IH]; intros g H; cbn [visit_items app] in *; [eauto|].
  destruct_Ret H. simpl. by apply IH.
Qed.
End Sizes.

Lemma wire_mono us us' rho x m : us ⊆ us' → lwire us rho x m → lwire us' rho x m.
Proof.
  intros Hsub. induction 1; eauto using wire.
  eapply W_unit; eauto using lookup_weaken.
Qed.

Definition map_choice (g : field → field) (c : choice) : choice :=
  match c with ByLabel l => ByLabel (map g l) | ByDefault l => ByDefault (map g l) | NoCase => NoCase end.
Lemma choose_map rho (g : field → field) v cases dflt :
  choose rho v (map (λ c, match c with mkCase es items d => mkCase es (map g items) d end) cases)
    (map_choice g dflt) = map_choice g <$> choose rho v cases dflt.
Proof.
  revert dflt. induction cases as [|[es items d] cases IH]; intros dflt; [done|]. cbn [map choose].
  destruct (has_label rho v es) as [[]|]; cbn [mbind option_bind]; [done| |done].
  rewrite <- IH. by destruct d.
Qed.

(** [set_unit] and the replacement of [self] keep sizes. *)
Section Finish.
Context (us : units) (rho : expr → option Z) `{!LengthSemantics rho, !SelfInvariant rho}.

Lemma set_unit_wire u x m :
  lwire us rho x m →
  match x with
  | PField f => lwire us rho (PField (set_unit u f)) m
  | PFields l => lwire us rho (PFields (map (set_unit u) l)) m
  | PCopies f k => lwire us rho (PCopies (set_unit u f) k) m
  | _ => True
  end.
Proof using Type.
  clear LengthSemantics0 SelfInvariant0.
  induction 1 as [rho b Hb|rho b Hb|rho b Hb|rho b|rho b w s Hb Hw|rho b w l Hb Hw|rho b l n Hb _ IH|rho
    |rho t l n m Ht IHt Hl IHl|rho s|rho l n _ IH|rho c n Hc _ IH|rho|rho s c l n m Hc IHc Hl IHl
    |rho b fb t n Ht Hwt IH|rho b fb t a e n Ht Hs Hwf Ha He Hr Hn|rho b fb c n Hwc IH
    |rho own b fb tb v n Ht Hw Hown Heq Hu IH|rho b fb e cases v c n He Hch Had Hit IH
    |rho b fb c len k n Hr Hc IH|rho b fb c k n Hc IH|rho|rho f l n m Hf IHf Hl IHl|rho f
    |rho f k n m Hf IHf Hc IHc|rho v ut n Hu Hw Hf IH]; try done; cbn [set_unit map]; try by constructor.
  - by eapply W_atomic.
  - by eapply W_bytes.
  - by eapply W_unit_field.
  - eapply (W_switch _ _ _ _ _ _ _ v (map_choice (set_unit u) c)); [done| | |].
    + etrans; [exact (choose_map rho (set_unit u) v cases NoCase)|]. by rewrite Hch.
    + by destruct c.
    + destruct c; exact IH.
  - by eapply W_vector.
  - by eapply W_list.
Qed.

Lemma find_key_map k (m : attr_map) u :
  attr_lookup k (map (λ p, (p.1, replace_attr u p.2)) m) = replace_attr u <$> attr_lookup k m.
Proof using Type.
  unfold attr_lookup. induction m as [|[k' a] m IH]; [done|]. simpl. by destruct (String.eqb _ _).
Qed.

Lemma replace_attrs_wf u m :
  attrs_wf m → attrs_wf (map (λ p, (p.1, replace_attr u p.2)) m).
Proof using Type.
  intros [Hs Hf]. split.
  - assert ((map (λ p, (p.1, replace_attr u p.2)) m).*1 = m.*1) as ->; [|done].
    clear. induction m as [|[k a] m IH]; [done|]. simpl. by f_equal.
  - apply Forall_map. eapply List.Forall_impl; [|exact Hf]. intros [k [ak av ai]]; simpl. done.
Qed.

Lemma replace_item_wire u f f' m :
  replace_item u (IField f) = IField f' →
  lwire us rho (PField f) m → lwire us rho (PField f') m.
Proof using SelfInvariant0.
  destruct f as [b fb k]. intros [= <-] H. inversion H; subst.
  - by eapply W_atomic.
  - eapply (W_bytes _ _ _ _ _ t (replace_attr u a) (replace_self u e)); try done; simpl.
    + by apply replace_attrs_wf.
    + rewrite find_key_map. by match goal with E : attr_lookup _ _ = Some _ |- _ => rewrite E end.
    + destruct a as [ak av ai]. simpl in *. by match goal with E : av = Some _ |- _ => rewrite E end.
    + by rewrite rho_replace_self.
  - by eapply W_constant.
  - by eapply W_unit_field.
  - eapply W_switch; [by rewrite rho_replace_self|done..].
  - eapply W_vector; [|done]. by rewrite rho_replace_self.
  - by eapply W_list.
Qed.

Definition finish (h : nat) (i : item) : item :=
  replace_item (mkTy plain (TUnit h)) (item_set_unit h i).

Lemma finish_fields h l m :
  lwire us rho (PFields (item_fields l)) m →
  lwire us rho (PFields (item_fields (map (finish h) l))) m.
Proof using SelfInvariant0.
  unfold item_fields. revert m. induction l as [|i l IH]; intros m; [done|]. simpl.
  destruct i as [b d|b p|f]; simpl; [apply IH..|].
  intros H. apply wire_fields_cons_inv in H as (n & k & -> & Hf & Hl).
  unfold finish. simpl. destruct (set_unit h f) as [b fb k'] eqn:E. simpl.
  constructor; [|by apply IH]. apply (replace_item_wire (mkTy plain (TUnit h)) (mkField b fb k')); [done|].
  apply (set_unit_wire h) in Hf. by rewrite E in Hf.
Qed.

Lemma finish_field h f :
  ∃ f', finish h (IField f) = IField f' ∧ item_id (fbase f') = item_id (fbase f) ∧
        parsing_only (fbase f') = parsing_only (fbase f) ∧
        ∀ n, lwire us rho (PField f) n → lwire us rho (PField f') n.
Proof using SelfInvariant0.
  unfold finish. destruct f as [b fb k]. cbn [item_set_unit set_unit replace_item].
  eexists. split; [reflexivity|]. repeat split. intros n Hn.
  apply (set_unit_wire h) in Hn. cbn [set_unit] in Hn.
  eapply (replace_item_wire (mkTy plain (TUnit h))); [|exact Hn]. reflexivity.
Qed.

Lemma clone_field_flags f ctr f' ctr' :
  clone_field f ctr = Ret (f', ctr') →
  item_id (fbase f') = item_id (fbase f) ∧ parsing_only (fbase f') = parsing_only (fbase f).
Proof using Type.
  intros Hc. destruct f as [b fb k]; destruct k;
    match type of Hc with
    | context [FSwitch] => rewrite CloneLemmas.clone_field_switch in Hc
    | _ => cbn [clone_field] in Hc
    end; destruct_Ret Hc; cbn in Hc; injection Hc as <- <-; simpl; try done;
    match goal with E : clone_base _ _ = Ret _ |- _ =>
      by apply CloneLemmas.clone_base_ok in E as (? & ? & _) end.
Qed.

(** Visiting a field somebody depends on. *)
Lemma visit_kept fuel deps done f g g' m :
  let c := dependencyContextFor deps (combineIDs (mkID []) (item_id (fbase f))) in
  c ≠ 0%Z →
  visit_Item (unit_len fuel us) (unit_expr fuel us) deps (mkID []) (IField f) g = Ret g' →
  sized us rho done g → lwire us rho (PFields (item_fields done)) m → (m < 2 ^ 31)%Z →
  ∃ f' i1, cur_unit_items_ g' = i1 ++ [IField f'] ∧ lwire us rho (PFields (item_fields i1)) m ∧
    item_id (fbase f') = item_id (fbase f) ∧
    parsing_only (fbase f') = ((c =? CONTEXT_PARSING)%Z || parsing_only (fbase f)) ∧
    ∀ n, lwire us rho (PField f) n → lwire us rho (PField f') n.
Proof using LengthSemantics0.
  intros c Hc H Hs Hm Hlt. unfold visit_Item in H. cbn [ibase] in H. cbv zeta in H. fold c in H.
  rewrite (proj2 (Z.eqb_neq c 0) Hc) in H. cbn [negb is_variable] in H. destruct_Ret H.
  injection H as <-. destruct (compactAndAddItems_sized us rho fuel _ _ _ E Hs) as [Ha Hp].
  unfold copyItem in E0. cbn [clone_item] in E0. destruct_Ret E0. injection E0 as <- <-.
  destruct (clone_field_flags _ _ _ _ E1) as [Hid Hpo].
  pose proof (λ n Hn, wire_clone us flat_labels_taken eq_refl rho (PField f) n Hn _ _ _ _ E1) as Hw.
  specialize (Ha m Hm Hlt). rewrite Hp, app_nil_r in Ha.
  destruct (c =? CONTEXT_PARSING)%Z; simpl.
  - destruct f0 as [b fb k]. eexists _, _. split; [reflexivity|]. split; [done|].
    split; [done|]. split; [done|]. intros n Hn. apply (wire_base us rho b _ fb); [done..|]. by apply Hw.
  - eexists _, _. split; [reflexivity|]. done.
Qed.

(** The compact unit: the items built, finished. *)
Lemma compact_unit_inv fuel deps name ut ctr h us' g' :
  compact_unit fuel us deps name ut (mkGen [] [] ctr) = Ret (h, us', g') →
  us ⊆ us' ∧
  ∃ g1 ut', visit_items (unit_len fuel us) (unit_expr fuel us) deps (unit_items ut)
              (mkGen [] [] ctr) = Ret g1 ∧
    compactAndAddItems (unit_len fuel us) (unit_expr fuel us) g1 = Ret g' ∧
    us' !! h = Some ut' ∧ unit_wildcard ut' = false ∧ unit_id ut' = Some name ∧
    unit_params ut' = unit_params ut ∧ unit_items ut' = map (finish h) (cur_unit_items_ g').
Proof using Type.
  unfold compact_unit. cbv zeta. cbn [cur_compactable_fields_ id_counter_]. intros H.
  destruct_Ret H. injection H as <- <- <-. split.
  - apply insert_subseteq. apply not_elem_of_dom. apply is_fresh.
  - eexists _, _. split; [reflexivity|]. split; [exact E0|].
    split; [apply (lookup_insert_eq (M:=gmap nat))|]. cbn. repeat split. unfold finish. by rewrite map_map.
Qed.

Lemma sized_start ctr : sized us rho [] (mkGen [] [] ctr).
Proof using Type. intros m Hm _. exact Hm. Qed.
End Finish.
End Layout.

Import Inst Layout.

Lemma compact_size us rho `{!LengthSemantics rho, !SelfInvariant rho}
    fuel deps name ut ctr h us' g' m :
  compact_unit fuel us deps name ut (mkGen [] [] ctr) = Ret (h, us', g') →
  lwire us rho (PFields (fields ut)) m → (m < 2 ^ 31)%Z → lwire us' rho (PUnit h) m.
Proof.
  intros H Hm Hlt. destruct (compact_unit_inv us _ _ _ _ _ _ _ _ H)
    as [Hsub (g1 & ut' & Hv & Hc & Hh & Hw & _ & _ & Hi)].
  eapply W_unit; [done|done|]. unfold fields. rewrite Hi.
  apply finish_fields; [done|]. eapply wire_mono; [exact Hsub|].
  pose proof (visit_items_sized us rho fuel deps _ _ _ _ Hv (sized_start us rho ctr)) as Hs.
  destruct (compactAndAddItems_sized us rho fuel _ _ _ Hc Hs) as [Hs' Hp].
  specialize (Hs' m Hm Hlt). by rewrite Hp, app_nil_r in Hs'.
Qed.

Lemma needed_field us rho `{!LengthSemantics rho, !SelfInvariant rho}
    fuel deps name ut ctr h us' g' l1 f l2 m :
  compact_unit fuel us deps name ut (mkGen [] [] ctr) = Ret (h, us', g') →
  unit_items ut = l1 ++ IField f :: l2 →
  let c := dependencyContextFor deps (combineIDs (mkID []) (item_id (fbase f))) in
  c ≠ 0%Z → lwire us rho (PFields (item_fields l1)) m → (m < 2 ^ 31)%Z →
  ∃ ut' i1 f' i2, us' !! h = Some ut' ∧ unit_items ut' = i1 ++ IField f' :: i2 ∧
    lwire us' rho (PFields (item_fields i1)) m ∧
    item_id (fbase f') = item_id (fbase f) ∧
    parsing_only (fbase f') = ((c =? CONTEXT_PARSING)%Z || parsing_only (fbase f)) ∧
    ∀ n, lwire us rho (PField f) n → lwire us' rho (PField f') n.
Proof.
  intros H Hl c Hc Hm Hlt. destruct (compact_unit_inv us _ _ _ _ _ _ _ _ H)
    as [Hsub (g1 & ut' & Hv & Hcomp & Hh & _ & _ & _ & Hi)].
  rewrite Hl in Hv. apply visit_items_app in Hv as (g2 & Hv1 & Hv2).
  cbn [visit_items] in Hv2. destruct (visit_Item _ _ _ _ _ g2) as [g3| | |] eqn:Ev; try done.
  cbn [mbind outcome_bind] in Hv2.
  destruct (visit_kept us rho fuel deps l1 f g2 g3 m Hc Ev) as (f0 & i1 & Hi3 & Hw1 & Hid & Hpo & Hf);
    [|done..|].
  { exact (visit_items_sized us rho fuel deps _ _ _ _ Hv1 (sized_start us rho ctr)). }
  destruct (visit_items_extends us fuel _ _ _ _ Hv2) as [l3 Hl3].
  destruct (compactAndAddItems_extends us fuel _ _ Hcomp) as [l4 Hl4].
  rewrite Hl4, Hl3, Hi3, !map_app in Hi. cbn [map] in Hi.
  destruct (finish_field us rho h f0) as (f' & Hff & Hid' & Hpo' & Hf').
  exists ut', (map (finish h) i1), f', (map (finish h) l3 ++ map (finish h) l4).
  split; [done|]. split; [rewrite Hi, Hff, <- !app_assoc; done|].
  split; [|split; [by etrans|split; [by etrans|]]].
  - apply finish_fields; [done|]. by eapply wire_mono.
  - intros n Hn. eapply wire_mono; [done|]. by apply Hf', Hf.
Qed.

(** C25: Every field the instantiation depends on is in the compact unit, with the same
    identifier, and is marked as needed for parsing only exactly when parsing is the only context
    it is needed in or it was marked before.  In the messages in which every switch takes a case
    by one of its labels (a copied switch has lost its default), there is no bit field and
    embedded units have constant lengths, it is at its offset ([m], the size of the fields before
    it, below 2^31) and has its size. *)
Theorem needed_field_kept us rho `{!LengthSemantics rho, !SelfInvariant rho}
    fuel deps name ut ctr h us' g' l1 f l2 m :
  compact_unit fuel us deps name ut (mkGen [] [] ctr) = Ret (h, us', g') →
  unit_items ut = l1 ++ IField f :: l2 →
  let c := dependencyContextFor deps (combineIDs (mkID []) (item_id (fbase f))) in
  c ≠ 0%Z → wire us flat_labels_taken rho (PFields (item_fields l1)) m → (m < 2 ^ 31)%Z →
  ∃ ut' i1 f' i2, us' !! h = Some ut' ∧ unit_items ut' = i1 ++ IField f' :: i2 ∧
    wire us' flat_labels_taken rho (PFields (item_fields i1)) m ∧
    item_id (fbase f') = item_id (fbase f) ∧
    parsing_only (fbase f') = ((c =? CONTEXT_PARSING)%Z || parsing_only (fbase f)) ∧
    ∀ n, wire us flat_labels_taken rho (PField f) n → wire us' flat_labels_taken rho (PField f') n.
Proof. apply needed_field; done. Qed.

(** ** End to end *)

Lemma dependencyContextFor_bits deps id b :
  Z.testbit (dependencyContextFor deps id) b = true ↔
  ∃ d, d ∈ deps ∧ prefixOf (dep_id d) id = true ∧ Z.testbit (context d) b = true.
Proof.
  induction deps as [|d deps IH]; simpl.
  - rewrite Z.bits_0. split; [done|]. by intros (d & Hd%elem_of_nil & _).
  - setoid_rewrite elem_of_cons. destruct (prefixOf (dep_id d) id) eqn:Ep.
    + rewrite Z.lor_spec, orb_true_iff, IH. split.
      * intros [?|(x & ? & ?)]; eauto.
      * intros (x & [->|?] & ? & ?); eauto.
    + rewrite IH. split; [intros (x & ? & ?); eauto|].
      intros (x & [->|?] & ? & ?); [congruence|eauto].
Qed.

Lemma requested_context m items deps id :
  resolve_instantiation m items = Ret deps → id ∈ items →
  Z.testbit (dependencyContextFor deps (combineIDs (mkID []) id)) 0 = true.
Proof.
  intros H Hid. destruct (Closure.requested_application _ _ _ _ H Hid) as (d & Hd & Hi & Hb).
  apply dependencyContextFor_bits. exists d. split; [done|]. split; [|done]. subst id.
  unfold prefixOf. apply IdLemmas.path_prefix_spec. exists [].
  unfold combineIDs. by rewrite IdLemmas.addPath_app, app_nil_r.
Qed.

(** C14: End to end: every field the application requests is in the compact unit of the
    instantiation, with the same identifier, and is not demoted to a field that is only there for
    parsing.  In the messages in which every switch takes a case by one of its labels (a copied
    switch has lost its default), there is no bit field and embedded units have constant lengths,
    it is at the same offset ([m], below 2^31) and has the same size. *)
Theorem requested_field_kept us rho `{!LengthSemantics rho, !SelfInvariant rho}
    fuel u ut name items ctr h us' ctr' l1 f l2 m :
  instantiate fuel us u name items ctr = Ret (h, us', ctr') →
  us !! u = Some ut → unit_items ut = l1 ++ IField f :: l2 → item_id (fbase f) ∈ items →
  wire us flat_labels_taken rho (PFields (item_fields l1)) m → (m < 2 ^ 31)%Z →
  ∃ ut' i1 f' i2, us' !! h = Some ut' ∧ unit_items ut' = i1 ++ IField f' :: i2 ∧
    wire us' flat_labels_taken rho (PFields (item_fields i1)) m ∧
    item_id (fbase f') = item_id (fbase f) ∧
    parsing_only (fbase f') = parsing_only (fbase f) ∧
    ∀ n, wire us flat_labels_taken rho (PField f) n → wire us' flat_labels_taken rho (PField f') n.
Proof.
  intros H Hu Hl Hid Hm Hlt. unfold instantiate in H. destruct_Ret H. rewrite Hu in H.
  destruct_Ret H. injection H as <- <- <-.
  unfold resolve_dependencies in E. destruct_Ret E.
  pose proof (requested_context _ _ _ _ E Hid) as Hb.
  destruct (needed_field us rho fuel a name ut ctr n u0 g l1 f l2 m E0 Hl) as
    (ut' & i1 & f' & i2 & ? & ? & ? & ? & Hp & ?); [|done..|].
  - intros Hz. by rewrite Hz, Z.bits_0 in Hb.
  - exists ut', i1, f', i2. repeat split; try done. rewrite Hp.
    destruct (Z.eqb_spec (dependencyContextFor a (combineIDs (mkID []) (item_id (fbase f))))
      CONTEXT_PARSING) as [Hz|]; [|done]. by rewrite Hz in Hb.
Qed.

(** A dependency recorded under a plain name is one on the item of that name. *)
Lemma plain_key d x :
  free_of ":" x = true → dep_key d = x → prefixOf (dep_id d) (mkID [x]) = true.
Proof.
  intros Hx Hk. unfold prefixOf. apply IdLemmas.path_prefix_spec. unfold dep_key in Hk.
  rewrite IdLemmas.pathAsString_full in Hk. cbn [path_]. destruct (path_ (dep_id d)) as [|y [|z l]].
  - by exists [x].
  - rewrite strjoin_singleton in Hk. subst y. by exists [].
  - exfalso. rewrite strjoin_cons in Hk. subst x. clear - Hx. induction y as [|c y IH]; [done|].
    apply IH. unfold free_of in *. cbn in Hx. by apply andb_true_iff in Hx as [_ ?].
Qed.

Lemma needed_in_unit us fuel deps name ut ctr h us' g' f :
  compact_unit fuel us deps name ut (mkGen [] [] ctr) = Ret (h, us', g') →
  IField f ∈ unit_items ut →
  dependencyContextFor deps (combineIDs (mkID []) (item_id (fbase f))) ≠ 0%Z →
  ∃ ut' f', us' !! h = Some ut' ∧ IField f' ∈ unit_items ut' ∧
            item_id (fbase f') = item_id (fbase f).
Proof.
  intros H Hin Hc. apply list_elem_of_split in Hin as (l1 & l2 & Hl).
  destruct (compact_unit_inv us _ _ _ _ _ _ _ _ H)
    as [_ (g1 & ut' & Hv & Hcomp & Hh & _ & _ & _ & Hi)].
  rewrite Hl in Hv. apply visit_items_app in Hv as (g2 & Hv1 & Hv2).
  cbn [visit_items] in Hv2. destruct (visit_Item _ _ _ _ _ g2) as [g3| | |] eqn:Ev; try done.
  cbn [mbind outcome_bind] in Hv2.
  assert (∃ f0, IField f0 ∈ cur_unit_items_ g3 ∧ item_id (fbase f0) = item_id (fbase f)) as (f0 & Hf0 & Hid).
  { unfold visit_Item in Ev. cbn [ibase] in Ev. cbv zeta in Ev.
    rewrite (proj2 (Z.eqb_neq _ 0) Hc) in Ev. cbn [negb is_variable] in Ev. destruct_Ret Ev.
    injection Ev as <-. unfold copyItem in E0. cbn [clone_item] in E0. destruct_Ret E0.
    injection E0 as <- <-. destruct (clone_field_flags _ _ _ _ E1) as [Hid _].
    destruct f0 as [b fb k].
    case_bool; eexists; (split; [apply list.elem_of_app; right; left|exact Hid]). }
  destruct (visit_items_extends us fuel _ _ _ _ Hv2) as [l3 Hl3].
  destruct (compactAndAddItems_extends us fuel _ _ Hcomp) as [l4 Hl4].
  exists ut'. destruct f0 as [b fb k].
  eexists. split; [done|]. split.
  - rewrite Hi. apply list_elem_of_fmap. exists (IField (mkField b fb k)). split; [reflexivity|].
    rewrite Hl4, Hl3, !list.elem_of_app. by left; left.
  - exact Hid.
Qed.


(** ** Variables *)

Definition variable_ids (l : list item) : list ID := (λ v, item_id v.1) <$> omap as_variable l.
Definition needed (deps : list Dependency) (id : ID) : bool :=
  negb (dependencyContextFor deps (combineIDs (mkID []) id) =? 0)%Z.

Lemma variable_ids_app l1 l2 : variable_ids (l1 ++ l2) = variable_ids l1 ++ variable_ids l2.
Proof. unfold variable_ids. by rewrite omap_app, fmap_app. Qed.

Section Variables.
Context (us : units) (fuel : nat).
Abbreviation ul := (unit_len fuel us).
Abbreviation ue := (unit_expr fuel us).

Lemma push_field_variables i ctr g :
  is_variable i = false →
  variable_ids (cur_unit_items_ (push_item i ctr g)) = variable_ids (cur_unit_items_ g).
Proof using Type.
  intros Hi. cbn [push_item cur_unit_items_]. rewrite variable_ids_app.
  destruct i; [done|by rewrite app_nil_r..].
Qed.

Lemma add_pending_variables len g g' :
  add_pending len g = Ret g' → variable_ids (cur_unit_items_ g') = variable_ids (cur_unit_items_ g).
Proof using Type.
  destruct len as [e|]; simpl; [|by intros [= <-]].
  unfold addFieldOfLength. cbn [newItem]. intros H. destruct_Ret H. injection H as <-.
  by apply push_field_variables.
Qed.

Lemma compact_loop_variables l len g g' :
  compact_loop ul ue l len g = Ret g' →
  variable_ids (cur_unit_items_ g') = variable_ids (cur_unit_items_ g).
Proof using Type.
  revert len g. induction l as [|f l IH]; intros len g H; [by apply add_pending_variables in H|].
  cbn [compact_loop] in H. destruct_Ret H. destruct a as [e|]; [by eapply IH|]. destruct_Ret H.
  rewrite (IH _ _ H), push_field_variables by (by apply copy_kind in E1 as [-> _]).
  by eapply add_pending_variables.
Qed.
Lemma compactAndAddItems_variables g g' :
  compactAndAddItems ul ue g = Ret g' →
  variable_ids (cur_unit_items_ g') = variable_ids (cur_unit_items_ g).
Proof using Type.
  unfold compactAndAddItems. intros H. destruct_Ret H. injection H as <-.
  by apply compact_loop_variables in E.
Qed.

Lemma copy_variable i ctr n ctr' :
  copyItem i ctr = Ret (n, ctr') → variable_ids [n] = variable_ids [i].
Proof using Type.
  unfold copyItem. destruct i as [b d|b p|f]; cbn [clone_item]; intros H; destruct_Ret H;
    by injection H as <- <-.
Qed.

Lemma visit_Item_variables deps i g g' :
  visit_Item ul ue deps (mkID []) i g = Ret g' →
  variable_ids (cur_unit_items_ g') =
  variable_ids (cur_unit_items_ g) ++ filter (λ id, needed deps id = true) (variable_ids [i]).
Proof using Type.
  unfold visit_Item. cbv zeta. fold (needed deps (item_id (ibase i))).
  destruct (needed deps (item_id (ibase i))) eqn:En.
  - intros H. destruct_Ret H. injection H as <-.
    assert (variable_ids (cur_unit_items_ a) = variable_ids (cur_unit_items_ g)) as Ha.
    { destruct (is_variable i); [by injection E as <-|by apply compactAndAddItems_variables]. }
    cbn [push_item cur_unit_items_]. rewrite variable_ids_app, Ha. f_equal.
    transitivity (variable_ids [i0]); [case_bool; by destruct i0 as [| |[]]|].
    rewrite (copy_variable _ _ _ _ E0). destruct i as [b d|b p|f]; try done.
    unfold variable_ids; simpl. rewrite filter_cons_True by done. done.
  - destruct i as [b d|b p|f]; intros H.
    + injection H as <-. unfold variable_ids at 3; simpl. rewrite filter_cons_False by (simpl in En; congruence).
      by rewrite app_nil_r.
    + destruct_Ret H. injection H as <-. pose proof (copy_variable _ _ _ _ E) as Hv.
      cbn [push_item cur_unit_items_]. by rewrite variable_ids_app, Hv, !app_nil_r.
    + injection H as <-. by rewrite app_nil_r.
Qed.

Lemma visit_items_variables deps l g g' :
  visit_items ul ue deps l g = Ret g' →
  variable_ids (cur_unit_items_ g') =
  variable_ids (cur_unit_items_ g) ++ filter (λ id, needed deps id = true) (variable_ids l).
Proof using Type.
  revert g. induction l as [|i l IH]; intros g H; cbn [visit_items] in H.
  - injection H as <-. by rewrite app_nil_r.
  - destruct_Ret H. rewrite (IH _ H), (visit_Item_variables _ _ _ _ E).
    rewrite <- app_assoc, <- list.filter_app, <- variable_ids_app. done.
Qed.
End Variables.


(** A dependency on a part of an item does not keep the item: when all dependencies that
    start with the path of an item go further, the item has no context and a field is merged
    into the bytes around it. *)
Theorem dependency_on_part_ignored deps f g ul ue :
  (∀ d, d ∈ deps → (length (path_ (item_id (fbase f))) < length (path_ (dep_id d)))%nat) →
  visit_Item ul ue deps (mkID []) (IField f) g =
  Ret (mkGen (cur_unit_items_ g) (cur_compactable_fields_ g ++ [f]) (id_counter_ g)).
Proof.
  intros H. unfold visit_Item. cbn [ibase]. cbv zeta.
  assert (dependencyContextFor deps (combineIDs (mkID []) (item_id (fbase f))) = 0%Z) as ->; [|done].
  apply Z.bits_inj_0. intros b. apply not_true_is_false. rewrite dependencyContextFor_bits.
  intros (d & Hd & Hp & _). unfold prefixOf in Hp. apply IdLemmas.path_prefix_spec in Hp as [r Hr].
  unfold combineIDs in Hr. rewrite IdLemmas.addPath_app in Hr. specialize (H d Hd).
  apply (f_equal length) in Hr. simpl in Hr. rewrite length_app in Hr. lia.
Qed.

Lemma self_member_replace u a b :
  self_member (replace_self u a) (replace_self u b) = self_member a b.
Proof.
  destruct a as [sa ka], b as [sb kb]. unfold self_member. cbn [replace_self ekind].
  destruct ka as [| | | | | | | | | | |[]| | | ]; try done; by destruct kb as [| | | | | | | | | | |[]| | | ].
Qed.

#[export] Instance eval_in_self vals : SelfInvariant (eval_in vals).
Proof.
  intros u e. induction e as [sc k IH] using expr_subexprs_ind.
  destruct k as [| | | | | | | | | |kd ops|pk| | | ]; try done; [|by destruct pk].
  cbn [replace_self]. destruct ops as [|x [|y [|z ops]]]; try (by destruct kd).
  cbn [subexprs] in IH. rewrite !list.Forall_cons in IH. destruct IH as (Hx & Hy & _). simpl.
  destruct kd; try done; by rewrite ?self_member_replace, ?Hx, ?Hy.
Qed.
#[export] Instance eval_len_self : SelfInvariant eval_len.
Proof. apply eval_in_self. Qed.

(** ** Instances *)

Definition flags_dep : list Dependency := [mkDep (mkID ["flags"%string]) CONTEXT_PARSING].

Definition small_instance : outcome (nat * units * Z) :=
  instantiate 2 small_units 0 (mkID ["Compact"%string]) [mkID ["data"%string]] 0.
Definition small_instance_units : units :=
  match small_instance with Ret (_, us, _) => us | _ => ∅ end.
Definition small_compact : outcome (nat * units * gen) :=
  compact_unit 2 small_units flags_dep (mkID ["Compact"%string]) small_unit (mkGen [] [] 0).
Definition small_compact_units : units :=
  match small_compact with Ret (_, us, _) => us | _ => ∅ end.
Definition small_compact_gen : gen :=
  match small_compact with Ret (_, _, g) => g | _ => mkGen [] [] 0 end.

Lemma small_prefix_wire us rho :
  wire us flat_labels_taken rho (PFields (item_fields [IField (int_field "version" 8); IField (int_field "flags" 16)])) 3.
Proof.
  change 3%Z with (8 / 8 + (16 / 8 + 0))%Z. repeat constructor; by apply int_field_wire.
Qed.

Lemma requested_field_kept_witness :
  ∃ ut' i1 f' i2, small_instance_units !! 1%nat = Some ut' ∧ unit_items ut' = i1 ++ IField f' :: i2 ∧
    wire small_instance_units flat_labels_taken eval_len (PFields (item_fields i1)) 3 ∧
    item_id (fbase f') = mkID ["data"%string] ∧ parsing_only (fbase f') = false ∧
    ∀ n, wire small_units flat_labels_taken eval_len (PField data_field) n →
         wire small_instance_units flat_labels_taken eval_len (PField f') n.
Proof.
  apply (requested_field_kept small_units eval_len 2 0 small_unit (mkID ["Compact"%string])
    [mkID ["data"%string]] 0 1 small_instance_units 1
    [IField (int_field "version" 8); IField (int_field "flags" 16)] data_field
    [IVariable (newItem (Some (mkID ["seen"%string])) (Some (mkTy plain TBool)) [] 0).1 None] 3).
  - vm_compute. reflexivity.
  - reflexivity.
  - reflexivity.
  - left.
  - apply small_prefix_wire.
  - lia.
Defined.

(** A message of the unit with a header field [len] and as many bytes of data, in which [len]
    is 4, and the instantiation for an application that asks for nothing: the data is merged, and
    the field its length comes from is kept. *)
Definition len_is_four (x : string) : option Z := if String.eqb x "len" then Some 4%Z else None.
Definition dep_instance : outcome (nat * units * Z) :=
  instantiate 2 dep_units 0 (mkID ["Compact"%string]) [] 0.
Definition dep_instance_units : units := match dep_instance with Ret (_, us, _) => us | _ => ∅ end.
Definition len_field : field :=
  mkField (newItem (Some (mkID ["len"%string])) (Some (mkTy plain (TInteger 16 false))) [] 0).1
    (mkFieldBase None [] []) FAtomicType.
Definition len_data_field : field :=
  mkField (newItem (Some (mkID ["data"%string])) (Some (mkTy plain TBytes))
             [mkAttr "length" (Some self_len) false] 0).1
    (mkFieldBase None [] []) FAtomicType.

Lemma dep_unit_wire us M : wire us M (eval_in len_is_four) (PFields (fields dep_unit)) 6.
Proof.
  change 6%Z with (16 / 8 + (4 + 0))%Z. repeat constructor.
  - by apply int_field_wire.
  - eapply W_bytes; [done|done| |done|done|done|done]. split; repeat constructor.
Qed.


Lemma needed_field_kept_witness :
  ∃ ut' i1 f' i2, small_compact_units !! 1%nat = Some ut' ∧ unit_items ut' = i1 ++ IField f' :: i2 ∧
    wire small_compact_units flat_labels_taken eval_len (PFields (item_fields i1)) (8 / 8 + 0) ∧
    item_id (fbase f') = mkID ["flags"%string] ∧ parsing_only (fbase f') = true ∧
    ∀ n, wire small_units flat_labels_taken eval_len (PField (int_field "flags" 16)) n →
         wire small_compact_units flat_labels_taken eval_len (PField f') n.
Proof.
  apply (needed_field_kept small_units eval_len 2 flags_dep (mkID ["Compact"%string]) small_unit
    0 1 small_compact_units small_compact_gen [IField (int_field "version" 8)] (int_field "flags" 16)
    [IField data_field;
     IVariable (newItem (Some (mkID ["seen"%string])) (Some (mkTy plain TBool)) [] 0).1 None]).
  - vm_compute. reflexivity.
  - reflexivity.
  - discriminate.
  - repeat constructor; by apply int_field_wire.
  - reflexivity.
Defined.


Lemma dependency_on_part_ignored_witness :
  visit_Item (unit_len 1 small_units) (unit_expr 1 small_units)
    [mkDep (mkID ["data"%string; "[]"%string]) 1] (mkID []) (IField data_field) (mkGen [] [] 0) =
  Ret (mkGen [] [data_field] 0).
Proof.
  apply (dependency_on_part_ignored [mkDep (mkID ["data"%string; "[]"%string]) 1] data_field (mkGen [] [] 0)).
  intros d ->%list_elem_of_singleton. simpl. lia.
Defined.
