(* ===== verification/Translate.v ===== *)
(** * Translation of types and expressions to C++ text
    ([src/src/generation/output/type_translator.cpp], [expression_translator.cpp],
    [translator.cpp])

    The translators are visitors whose visit methods set a string as their result.  A nested
    [processOne] with a result restores the result of the enclosing visit, always succeeds and
    yields the default result when the visit method sets none ([Visitor::processOneInternal]),
    so each translator is a function into strings; what is not supported becomes the default
    string.  [Module Cpp] is a reader for the C++ expressions that are written, with their
    abstract syntax; the theorem of this file says that reading the text of an expression gives
    back the expression. *)

From S2P Require Import Prelude Util Ident Ast Units.
Import Util.Chars Util.Strings Ident.Id Units.Units.

Module Translate.

(** ** [TypeTranslator] *)

Definition kDefaultType : string := "[[TYPE UNSUPPORTED]]".

(** [visit(Enum)] and [visit(Unit)]: the name, nothing for a type without identifier. *)
Definition visit_named (id : option ID) : outcome string :=
  match id with Some id => name id | None => Ret kDefaultType end.

Definition int_type_name (width : Z) (signed : bool) : string :=
  (if signed then "" else "u") +:+ "int" +:+ pretty width +:+ "_t".

Section Translators.
  Context (us : units).

(** What [processOne] yields for each class of types. *)
Definition visit_type (t : ty) : outcome string :=
  match t with
  | mkTy b k =>
      match k with
      | TBool => Ret "bool"
      | TBytes => Ret "dr::unit::var_bytes"
      | TDouble => Ret "double"
      | TEnum _ => visit_named (ty_id b)
      | TInteger w s => Ret (int_type_name w s)
      | TSink => Ret "SINK"
      | TString => Ret "dr::unit::var_string"
      | TVoid => Ret "void"
      | TUnit u =>
          match us !! u with Some ut => visit_named (unit_id ut) | None => Abort "unit" end
      | TAny | TUnknown _ | TUnknownElementType _ | TCAddr | TTuple _ | TMemberAttribute _
      | TTypeType _ | TBitfield _ _ | TBitset _ | TList _ | TVector _ | TMap _ _ | TSet _
      | TFunction _ _ | TRegExp _ => Ret kDefaultType
      end
  end.

(** [node->wildcard()]; a unit keeps the flag itself. *)
Definition is_wildcard (t : ty) : bool :=
  match kind t with
  | TUnit u => match us !! u with Some ut => unit_wildcard ut | None => wildcard t end
  | _ => wildcard t
  end.

(** [TypeTranslator::translate]: the text on success. *)
Definition translate_type (t : ty) : outcome (option string) :=
  if is_wildcard t then Ret None
  else
    result ← visit_type t;
    Ret (if String.eqb result kDefaultType then None else Some result).

(** [Translator::type]. *)
Definition type_text (t : ty) : outcome string :=
  r ← translate_type t;
  match r with
  | Some result => Ret result
  | None => Throw (AstRuntimeError "could not translate type")
  end.

(** [Translator::type] of a unit. *)
Definition unit_text (ut : unit_type) : outcome string :=
  if unit_wildcard ut then Throw (AstRuntimeError "could not translate type")
  else
    result ← visit_named (unit_id ut);
    if String.eqb result kDefaultType then Throw (AstRuntimeError "could not translate type")
    else Ret result.

(** ** [ExpressionTranslator] *)

Definition kDefaultExpression : string := "[[EXPRESSION UNSUPPORTED]]".

(** [std::to_string(double)]: six decimals of the exact value, ties to even. *)
Definition round_half_even (n d : Z) : Z :=
  let q := (n / d)%Z in
  let r := (2 * (n mod d))%Z in
  if (r <? d)%Z then q else if (d <? r)%Z then (q + 1)%Z
  else if Z.even q then q else (q + 1)%Z.
Fixpoint zeros (n : nat) : string := match n with O => "" | S n => String "0" (zeros n) end.
Definition double_text (x : double) : string :=
  let a := Z.abs (mantissa x) in
  let n := round_half_even (a * 10 ^ 6 * 2 ^ Z.max 0 (exponent x)) (2 ^ Z.max 0 (- exponent x)) in
  let frac := pretty (n mod 10 ^ 6)%Z in
  (if (mantissa x <? 0)%Z then "-" else "") +:+ pretty (n / 10 ^ 6)%Z +:+ "." +:+
  zeros (6 - String.length frac) +:+ frac.

Definition bool_text (b : bool) : string := if b then "true" else "false".

(** The loop of [visit(constant::Tuple)]. *)
Fixpoint tuple_text (l : list (outcome string)) (tmp : string) : outcome string :=
  match l with
  | [] => Ret ("(" +:+ tmp +:+ ")")
  | e :: l =>
      e_str ← e;
      tuple_text l ((if String.eqb tmp "" then tmp else tmp +:+ ", ") +:+ e_str)
  end.

(** The operands an operator takes from its list: the iterator may not pass the end. *)
Definition one (ops : list (outcome string)) (f : string → string) : outcome string :=
  match ops with a :: _ => a ← a; Ret (f a) | _ => Abort "*it" end.
Definition two (ops : list (outcome string)) (f : string → string → string) : outcome string :=
  match ops with a :: b :: _ => a ← a; b ← b; Ret (f a b) | _ => Abort "*++it" end.
Definition three (ops : list (outcome string)) (f : string → string → string → string)
    : outcome string :=
  match ops with
  | a :: b :: c :: _ => a ← a; b ← b; c ← c; Ret (f a b c)
  | _ => Abort "*++it"
  end.
Definition infix (sym a b : string) : string := "(" +:+ a +:+ sym +:+ b +:+ ")".

(** [visit(expression::Operator)], on the texts of the operands. *)
Definition operator_text (k : op_kind) (ops : list (outcome string)) : outcome string :=
  match k with
  | OpAttribute => two ops (infix ".")
  | OpAttributeAssign =>
      three ops (λ a b c, "(" +:+ a +:+ "." +:+ b +:+ " = " +:+ c +:+ ")")
  | OpCall => two ops (infix "")
  | OpCast => two ops (λ a b, "((" +:+ b +:+ ") " +:+ a +:+ ")")
  | OpDecrPostfix => one ops (λ a, "(" +:+ a +:+ "--)")
  | OpDecrPrefix => one ops (λ a, "(--" +:+ a +:+ ")")
  | OpEqual => two ops (infix " == ")
  | OpGreater => two ops (infix " > ")
  | OpIncrPostfix => one ops (λ a, "(" +:+ a +:+ "++)")
  | OpIncrPrefix => two ops (λ a _, "(++" +:+ a +:+ ")")
  | OpLess => two ops (infix " < ")
  | OpLogicalAnd => two ops (infix " && ")
  | OpLogicalOr => two ops (infix " || ")
  | OpMethodCall => three ops (λ a b c, "(" +:+ a +:+ "." +:+ b +:+ c +:+ ")")
  | OpMinus => two ops (infix " - ")
  | OpNot => one ops (λ a, "(!" +:+ a +:+ ")")
  | OpPlus => two ops (infix " + ")
  | _ => Ret kDefaultExpression
  end.

Fixpoint visit_expression (e : expr) : outcome string :=
  match e with
  | mkExpr _ k =>
      match k with
      | EAssign dst src =>
          dst ← visit_expression dst; src ← visit_expression src;
          Ret ("(" +:+ dst +:+ " = " +:+ src +:+ ")")
      | EConditional c t f =>
          c ← visit_expression c; t ← visit_expression t;
          match f with
          | Some f =>
              f ← visit_expression f; Ret ("(" +:+ c +:+ " ? " +:+ t +:+ " : " +:+ f +:+ ")")
          | None => Ret ("(" +:+ c +:+ " ? " +:+ t +:+ " : 0)")
          end
      | EConstant c => visit_constant c
      | EID id => Ret (pathAsString id None)
      | EMemberAttribute a => name a
      | EOperator kd ops => operator_text kd (map visit_expression ops)
      | EParserState SELF _ _ t => t ← type_text t; Ret ("SELF(" +:+ t +:+ ")")
      | EParserState DOLLARDOLLAR _ _ t => t ← type_text t; Ret ("DOLLAR(" +:+ t +:+ ")")
      | EParserState PARAMETER (Some id) _ t =>
          n ← name id; t ← type_text t; Ret ("PARAM(" +:+ n +:+ ", " +:+ t +:+ ")")
      | EParserState PARAMETER None _ _ => Abort "node->id()->name()"
      | EType t => type_text t
      | ECtor _ | EFind _ _ _ _ | EFunction _ _ | ELambda _ _ | EListComprehension _ _ _ _
      | ETransform _ _ _ | EVariable _ _ => Ret kDefaultExpression
      end
  end
with visit_constant (c : constant) : outcome string :=
  match c with
  | CBitset _ _ => Ret kDefaultExpression
  | CBool b => Ret (bool_text b)
  | CDouble x => Ret (double_text x)
  | CEnum label t =>
      match kind t with
      | TEnum _ => t ← type_text t; l ← name label; Ret (t +:+ "::" +:+ l)
      | _ => Abort "translator_->type(null)"
      end
  | CInteger v _ _ => Ret (pretty v)
  | CNone => Ret "nullptr"
  | CString s => Ret (String "034" (s +:+ String "034" ""))
  | CTuple elems => tuple_text (map visit_expression elems) ""
  end.

(** [Translator::expression]: [processOne] with a result never fails. *)
Definition expression_text (e : expr) : outcome string := visit_expression e.

(** ** The names of [Translator] *)

Definition moduleNamespace (id : ID) : outcome string :=
  n ← name id; Ret ("diffingo::gen::" +:+ n).
Definition functionName (n : string) : string := n.
Definition functionParamName (n : string) : string := n.
Definition unitName (n : string) : string := n.
Definition unitFieldName (n : string) : string := n.
Definition unitVarName (n : string) : string := n.
Definition enumName (n : string) : string := n.
Definition enumLabel (l : string) : string := l.
Definition unitParserName (n : string) : string := unitName n +:+ "Parser".
Definition unitSerializerName (n : string) : string := unitName n +:+ "Serializer".

End Translators.

End Translate.
Import Translate.

(** ** C++ expressions *)

Module Cpp.

(** The expressions the translator writes, as C++ understands them. *)
Inductive binop := BPlus | BMinus | BEqual | BGreater | BLess | BAnd | BOr.

Inductive cexpr :=
  | XLit (z : Z)
  | XBool (b : bool)
  | XNull
  | XName (n : string)
  | XEnum (t label : string)
  | XSelf (t : string)
  | XDollar (t : string)
  | XMember (a : cexpr) (f : string)
  | XNot (a : cexpr)
  | XBin (o : binop) (a b : cexpr)
  | XCast (t : string) (a : cexpr)
  | XAssign (a b : cexpr)
  | XCond (c t f : cexpr).

Definition is_ident_char (c : ascii) : bool := isalnum c || Ascii.eqb c "_".
Definition is_ident (s : string) : bool :=
  negb (String.eqb s "") && str_forall is_ident_char s.

(** The longest prefix of characters that satisfy [p], and the rest. *)
Fixpoint span (p : ascii → bool) (s : string) : string * string :=
  match s with
  | String c s' => if p c then let '(a, r) := span p s' in (String c a, r) else ("", s)
  | EmptyString => ("", "")
  end.

Fixpoint expect (p s : string) : option string :=
  match p, s with
  | EmptyString, _ => Some s
  | String a p, String b s => if Ascii.eqb a b then expect p s else None
  | String _ _, EmptyString => None
  end.

(** A non-empty identifier. *)
Definition read_ident (s : string) : option (string * string) :=
  let '(i, r) := span is_ident_char s in if String.eqb i "" then None else Some (i, r).

Definition digit_value (c : ascii) : Z := (code c - 48)%Z.
Fixpoint digits_value (acc : Z) (s : string) : Z :=
  match s with
  | EmptyString => acc
  | String c s => digits_value (10 * acc + digit_value c) s
  end.

Definition in_parens (s : string) : option (string * string) :=
  s ← expect "(" s; '(t, r) ← read_ident s; r ← expect ")" r; Some (t, r).

(** A name, with the macros and literals that look like one. *)
Definition read_name (s : string) : option (cexpr * string) :=
  '(i, r) ← read_ident s;
  if String.eqb i "SELF" then '(t, r) ← in_parens r; Some (XSelf t, r)
  else if String.eqb i "DOLLAR" then '(t, r) ← in_parens r; Some (XDollar t, r)
  else if String.eqb i "true" then Some (XBool true, r)
  else if String.eqb i "false" then Some (XBool false, r)
  else if String.eqb i "nullptr" then Some (XNull, r)
  else match expect "::" r with
       | Some r => '(l, r) ← read_ident r; Some (XEnum i l, r)
       | None => Some (XName i, r)
       end.

Definition read_digits (s : string) : option (Z * string) :=
  let '(d, r) := span isdigit s in if String.eqb d "" then None else Some (digits_value 0 d, r).

Definition read_atom (s : string) : option (cexpr * string) :=
  match s with
  | String c s' =>
      if isdigit c then '(n, r) ← read_digits s; Some (XLit n, r)
      else if Ascii.eqb c "-" then '(n, r) ← read_digits s'; Some (XLit (- n), r)
      else read_name s
  | EmptyString => None
  end.

Definition infix_ops : list (string * binop) :=
  [(" + ", BPlus); (" - ", BMinus); (" == ", BEqual); (" > ", BGreater); (" < ", BLess);
   (" && ", BAnd); (" || ", BOr)].

Fixpoint read_infix (ops : list (string * binop)) (s : string) : option (binop * string) :=
  match ops with
  | [] => None
  | (sym, o) :: ops =>
      match expect sym s with Some r => Some (o, r) | None => read_infix ops s end
  end.

(** The rest of a parenthesized expression that starts with [a]. *)
Definition read_tail (rd : string → option (cexpr * string)) (a : cexpr) (s : string)
    : option (cexpr * string) :=
  match expect "." s with
  | Some s =>
      '(f, s) ← read_ident s;
      match expect ")" s with
      | Some s => Some (XMember a f, s)
      | None =>
          s ← expect " = " s; '(b, s) ← rd s; s ← expect ")" s;
          Some (XAssign (XMember a f) b, s)
      end
  | None =>
      match expect " = " s with
      | Some s => '(b, s) ← rd s; s ← expect ")" s; Some (XAssign a b, s)
      | None =>
          match expect " ? " s with
          | Some s =>
              '(b, s) ← rd s; s ← expect " : " s; '(c, s) ← rd s; s ← expect ")" s;
              Some (XCond a b c, s)
          | None =>
              '(o, s) ← read_infix infix_ops s; '(b, s) ← rd s; s ← expect ")" s;
              Some (XBin o a b, s)
          end
      end
  end.

(** [(T) ] *)
Definition read_cast (s : string) : option (string * string) :=
  '(t, r) ← in_parens s; r ← expect " " r; Some (t, r).

Fixpoint read_expr (fuel : nat) (s : string) : option (cexpr * string) :=
  match fuel with
  | O => None
  | S fuel =>
      match expect "(" s with
      | Some s =>
          match expect "!" s with
          | Some s => '(a, s) ← read_expr fuel s; s ← expect ")" s; Some (XNot a, s)
          | None =>
              match read_cast s with
              | Some (t, s) => '(a, s) ← read_expr fuel s; s ← expect ")" s; Some (XCast t a, s)
              | None => '(a, s) ← read_expr fuel s; read_tail (read_expr fuel) a s
              end
          end
      | None => read_atom s
      end
  end.

(** A whole text; every step of the reader consumes a character. *)
Definition read_cpp (s : string) : option cexpr :=
  match read_expr (S (String.length s)) s with Some (x, EmptyString) => Some x | _ => None end.

End Cpp.
Import Cpp.

(** ** What the supported expressions mean *)

Module Meaning.

Definition binop_of (k : op_kind) : option binop :=
  match k with
  | OpPlus => Some BPlus | OpMinus => Some BMinus | OpEqual => Some BEqual
  | OpGreater => Some BGreater | OpLess => Some BLess | OpLogicalAnd => Some BAnd
  | OpLogicalOr => Some BOr
  | _ => None
  end.

Definition ident_of (o : outcome string) : option string :=
  match o with Ret s => if is_ident s then Some s else None | _ => None end.

(** Words the reader does not take for a name. *)
Definition reserved (s : string) : bool :=
  String.eqb s "SELF" || String.eqb s "DOLLAR" || String.eqb s "true" || String.eqb s "false"
  || String.eqb s "nullptr".
Definition name_of (s : string) : option string :=
  match s with
  | String c _ => if negb (isdigit c) && is_ident s && negb (reserved s) then Some s else None
  | EmptyString => None
  end.

Section Meaning.
  Context (us : units).

(** The C++ expression an expression of a specification stands for, for the constructs of
    conditions, lengths and attributes; [None] for the others, some of which the translator does
    write: strings, floating-point numbers, tuples, calls, increments and parameters. *)
Fixpoint cpp (e : expr) : option cexpr :=
  match e with
  | mkExpr _ k =>
      match k with
      | EAssign d s => d ← cpp d; s ← cpp s; Some (XAssign d s)
      | EConditional c t f =>
          c ← cpp c; t ← cpp t;
          match f with
          | Some f => f ← cpp f; Some (XCond c t f)
          | None => Some (XCond c t (XLit 0))
          end
      | EConstant (CInteger v _ _) => Some (XLit v)
      | EConstant (CBool b) => Some (XBool b)
      | EConstant CNone => Some XNull
      | EConstant (CEnum l t) =>
          match kind t with
          | TEnum _ =>
              n ← ident_of (type_text us t); n ← name_of n; l ← ident_of (name l);
              Some (XEnum n l)
          | _ => None
          end
      | EID id => n ← name_of (pathAsString id None); Some (XName n)
      | EParserState SELF _ _ t => t ← ident_of (type_text us t); Some (XSelf t)
      | EParserState DOLLARDOLLAR _ _ t => t ← ident_of (type_text us t); Some (XDollar t)
      | EOperator OpAttribute [a; mkExpr _ (EMemberAttribute f)] =>
          a ← cpp a; f ← ident_of (name f); Some (XMember a f)
      | EOperator OpAttributeAssign [a; mkExpr _ (EMemberAttribute f); b] =>
          a ← cpp a; f ← ident_of (name f); b ← cpp b; Some (XAssign (XMember a f) b)
      | EOperator OpCast [a; mkExpr _ (EType t)] =>
          a ← cpp a; t ← ident_of (type_text us t); Some (XCast t a)
      | EOperator OpNot [a] => a ← cpp a; Some (XNot a)
      | EOperator kd [a; b] => o ← binop_of kd; a ← cpp a; b ← cpp b; Some (XBin o a b)
      | _ => None
      end
  end.

End Meaning.
End Meaning.
Import Meaning.

(** ** Reading back what was written *)

Module ReadLemmas.
Import Util.StringLemmas.

(** What follows an expression: the end, or a character no expression contains next; [sep]
    is what follows the first operand of a parenthesized expression. *)
Definition stops (r : string) : bool :=
  match r with
  | EmptyString => true
  | String c _ => Ascii.eqb c ")" || Ascii.eqb c " " || Ascii.eqb c "."
  end.
Definition sep (r : string) : bool :=
  match r with EmptyString => false | String c _ => Ascii.eqb c " " || Ascii.eqb c "." end.

Lemma sep_stops r : sep r = true → stops r = true.
Proof. destruct r; simpl; [done|]. destruct (Ascii.eqb a ")"); done. Qed.

Lemma expect_app p s : expect p (p +:+ s) = Some s.
Proof. induction p as [|c p IH]; [done|]. rewrite append_cons. cbn [expect]. by rewrite Ascii.eqb_refl. Qed.

Lemma span_app p a r :
  str_forall p a = true → match r with String c _ => p c = false | EmptyString => True end →
  span p (a +:+ r) = (a, r).
Proof.
  intros Ha Hr. induction a as [|c a IH].
  - destruct r as [|c r]; [done|]. simpl. by rewrite Hr.
  - apply andb_prop in Ha as [Hc Ha]. rewrite append_cons. cbn [span]. rewrite Hc. by rewrite IH.
Qed.

(** A string that no identifier continues. *)
Definition cut (r : string) : bool :=
  match r with String c _ => negb (is_ident_char c) | EmptyString => true end.

Lemma stops_cut r : stops r = true → cut r = true.
Proof.
  destruct r as [|c r]; [done|]. cbn. intros H.
  repeat (apply orb_prop in H as [H|H]); apply Ascii.eqb_eq in H as ->; done.
Qed.

Lemma read_ident_app i r : is_ident i = true → cut r = true → read_ident (i +:+ r) = Some (i, r).
Proof.
  unfold is_ident, read_ident. intros [Hi Ha]%andb_prop Hr. rewrite span_app; [|done|].
  - by destruct (String.eqb i "").
  - destruct r; [done|]. cbn in Hr. by apply negb_true_iff in Hr.
Qed.

Lemma sep_close r : sep r = true → expect ")" r = None.
Proof.
  destruct r as [|c r]; [done|]. cbn. intros H.
  apply orb_prop in H as [H|H]; apply Ascii.eqb_eq in H as ->; done.
Qed.

Lemma in_parens_app t r : is_ident t = true → in_parens ("(" +:+ t +:+ ")" +:+ r) = Some (t, r).
Proof.
  intros Ht. unfold in_parens. rewrite expect_app. cbn [mbind option_bind].
  rewrite read_ident_app by done. cbn [mbind option_bind]. by rewrite expect_app.
Qed.

(** Decimal numerals. *)
Lemma pretty_N_char_digit d :
  (d < 10)%N → isdigit (pretty_N_char d) = true ∧ digit_value (pretty_N_char d) = Z.of_N d.
Proof.
  intros H.
  assert (d = 0 ∨ d = 1 ∨ d = 2 ∨ d = 3 ∨ d = 4 ∨ d = 5 ∨ d = 6 ∨ d = 7 ∨ d = 8 ∨ d = 9)%N
    as Hd by lia.
  by repeat (destruct Hd as [->|Hd]; [by split|]); subst.
Qed.

Lemma pretty_N_go_digits x s :
  str_forall isdigit s = true →
  str_forall isdigit (pretty_N_go x s) = true ∧
  digits_value 0 (pretty_N_go x s) = digits_value (Z.of_N x) s.
Proof.
  revert s. induction (N.lt_wf_0 x) as [x _ IH]; intros s Hs.
  destruct (decide (x = 0)%N) as [->|Hx]; [by rewrite pretty_N_go_0|].
  rewrite pretty_N_go_step by lia.
  destruct (pretty_N_char_digit (x mod 10)) as [Hd Hv]; [apply N.mod_lt; lia|].
  destruct (IH (x / 10)%N ltac:(apply N.div_lt; lia) (String (pretty_N_char (x mod 10)) s)) as [H1 H2].
  { cbn. by rewrite Hd. }
  split; [done|]. rewrite H2. cbn. rewrite Hv. f_equal.
  pose proof (N.div_mod x 10 ltac:(lia)). lia.
Qed.

Lemma pretty_N_digits x :
  str_forall isdigit (pretty x) = true ∧ digits_value 0 (pretty x) = Z.of_N x ∧ pretty x ≠ "".
Proof.
  unfold pretty, pretty_N. case_decide as Hx; [subst; done|].
  destruct (pretty_N_go_digits x "") as [H1 H2]; [done|]. split_and!; [done|by rewrite H2|].
  intros E. rewrite E in H2. cbn in H2. lia.
Qed.

Lemma isdigit_ident c : isdigit c = true → is_ident_char c = true.
Proof. unfold is_ident_char, isalnum. by intros ->. Qed.

Lemma cut_digit r : cut r = true → match r with String c _ => isdigit c = false | "" => True end.
Proof.
  destruct r as [|c r]; [done|]. cbn. intros H%negb_true_iff.
  destruct (isdigit c) eqn:E; [|done]. by rewrite isdigit_ident in H.
Qed.

Lemma read_digits_app x r :
  cut r = true → read_digits (pretty x +:+ r) = Some (Z.of_N x, r).
Proof.
  intros Hr. destruct (pretty_N_digits x) as (H1 & H2 & H3).
  unfold read_digits. rewrite span_app; [|done|by apply cut_digit].
  destruct (String.eqb_spec (pretty x) ""); [done|]. by rewrite H2.
Qed.

(** ** Texts and what they are read as *)

Record reads (s : string) (x : cexpr) : Prop := {
  reads_expr rest fuel :
    stops rest = true → String.length s < fuel → read_expr fuel (s +:+ rest) = Some (x, rest);
  reads_bang r : expect "!" (s +:+ r) = None;
  reads_ident r :
    sep r = true →
    match read_ident (s +:+ r) with Some (_, r') => expect ")" r' = None | None => True end;
  reads_parens r : sep r = true → in_parens (s +:+ r) = None }.

Lemma open_paren fuel a x tail :
  reads a x → sep tail = true → String.length a < fuel →
  read_expr (S fuel) ("(" +:+ a +:+ tail) = read_tail (read_expr fuel) x tail.
Proof.
  intros Ha Ht Hf. cbn [read_expr]. rewrite expect_app, (reads_bang _ _ Ha).
  unfold read_cast. rewrite (reads_parens _ _ Ha) by done. cbn [mbind option_bind].
  rewrite (reads_expr _ _ Ha) by auto using sep_stops. done.
Qed.

Lemma sep_app t r : sep t = true → sep (t +:+ r) = true.
Proof. by destruct t. Qed.

Lemma reads_open a x tail y :
  reads a x → sep tail = true →
  (∀ rest fuel, stops rest = true → String.length tail ≤ fuel →
     read_tail (read_expr fuel) x (tail +:+ rest) = Some (y, rest)) →
  reads ("(" +:+ a +:+ tail) y.
Proof.
  intros Ha Ht Hy. split.
  - intros rest fuel Hr Hl. rewrite !append_assoc. rewrite !length_append in Hl.
    destruct fuel as [|fuel]; [simpl in Hl; lia|].
    rewrite open_paren with (x := x); [|done|by apply sep_app|].
    + apply Hy; [done|]. simpl in Hl. lia.
    + destruct tail; [done|]. simpl in Hl |- *. lia.
  - done.
  - done.
  - intros r Hr. rewrite !append_assoc. unfold in_parens. rewrite expect_app.
    cbn [mbind option_bind]. pose proof (reads_ident _ _ Ha (tail +:+ r)) as H.
    destruct (read_ident (a +:+ tail +:+ r)) as [[i r']|]; [|done]. cbn [mbind option_bind].
    by rewrite H by by apply sep_app.
Qed.

(** The forms of a parenthesized expression. *)
Lemma reads_infix sym o a x b y :
  (sym, o) ∈ infix_ops → reads a x → reads b y → reads (infix sym a b) (XBin o x y).
Proof.
  intros Hin Ha Hb. unfold infix. eapply reads_open; [done| |].
  - set_unfold. naive_solver.
  - intros rest fuel Hr Hl. rewrite !append_assoc. rewrite !length_append in Hl.
    assert (E : read_expr fuel (b +:+ ")" +:+ rest) = Some (y, (")" +:+ rest)%string)).
    { apply Hb; [done|]. simpl in Hl. lia. }
    revert E. generalize (b +:+ ")" +:+ rest)%string (read_expr fuel). intros u rd E.
    set_unfold in Hin. destruct_or? Hin; try done; simplify_eq; unfold read_tail; cbv [String.append]; cbn; by rewrite E.
Qed.

Lemma reads_assign a x b y :
  reads a x → reads b y → reads ("(" +:+ a +:+ " = " +:+ b +:+ ")") (XAssign x y).
Proof.
  intros Ha Hb. eapply reads_open; [done|done|]. intros rest fuel Hr Hl.
  rewrite !append_assoc. rewrite !length_append in Hl.
  assert (E : read_expr fuel (b +:+ ")" +:+ rest) = Some (y, (")" +:+ rest)%string)).
  { apply Hb; [done|]. simpl in Hl. lia. }
  revert E. generalize (b +:+ ")" +:+ rest)%string (read_expr fuel). intros u rd E.
  unfold read_tail. cbv [String.append]. cbn. by rewrite E.
Qed.

Lemma reads_cond a x b y c z :
  reads a x → reads b y → reads c z →
  reads ("(" +:+ a +:+ " ? " +:+ b +:+ " : " +:+ c +:+ ")") (XCond x y z).
Proof.
  intros Ha Hb Hc. eapply reads_open; [done|done|]. intros rest fuel Hr Hl.
  rewrite !append_assoc. rewrite !length_append in Hl.
  assert (E : read_expr fuel (c +:+ ")" +:+ rest) = Some (z, (")" +:+ rest)%string)).
  { apply Hc; [done|]. simpl in Hl. lia. }
  revert E. generalize (c +:+ ")" +:+ rest)%string. intros u E.
  assert (E' : read_expr fuel (b +:+ " : " +:+ u) = Some (y, (" : " +:+ u)%string)).
  { apply Hb; [done|]. simpl in Hl. lia. }
  revert E E'. generalize (b +:+ " : " +:+ u)%string (read_expr fuel). intros v rd E E'.
  unfold read_tail. cbv [String.append]. cbn. rewrite E'. cbv [String.append]. cbn. by rewrite E.
Qed.

Lemma reads_member a x f :
  reads a x → is_ident f = true → reads (infix "." a f) (XMember x f).
Proof.
  intros Ha Hf. unfold infix. eapply reads_open; [done|done|]. intros rest fuel Hr Hl.
  rewrite !append_assoc. unfold read_tail. rewrite expect_app. rewrite read_ident_app by done.
  cbn [mbind option_bind]. by rewrite expect_app.
Qed.

Lemma reads_member_assign a x f b y :
  reads a x → is_ident f = true → reads b y →
  reads ("(" +:+ a +:+ "." +:+ f +:+ " = " +:+ b +:+ ")") (XAssign (XMember x f) y).
Proof.
  intros Ha Hf Hb. eapply reads_open; [done|done|]. intros rest fuel Hr Hl.
  rewrite !append_assoc. rewrite !length_append in Hl.
  assert (E : read_expr fuel (b +:+ ")" +:+ rest) = Some (y, (")" +:+ rest)%string)).
  { apply Hb; [done|]. simpl in Hl. lia. }
  revert E. generalize (b +:+ ")" +:+ rest)%string (read_expr fuel). intros u rd E.
  unfold read_tail. rewrite expect_app, read_ident_app by done.
  cbv [String.append]. cbn. by rewrite E.
Qed.

Lemma reads_not a x : reads a x → reads ("(!" +:+ a +:+ ")") (XNot x).
Proof.
  intros Ha. split; [|done..].
  intros rest fuel Hr Hl. rewrite !append_assoc. rewrite !length_append in Hl.
  destruct fuel as [|fuel]; [simpl in Hl; lia|]. cbn [read_expr].
  change ("(!" +:+ a +:+ ")" +:+ rest)%string with ("(" +:+ "!" +:+ a +:+ ")" +:+ rest)%string.
  rewrite !expect_app.
  rewrite (reads_expr _ _ Ha) by (done || (simpl in Hl; lia)). cbn [mbind option_bind].
  by rewrite expect_app.
Qed.

Lemma reads_cast t a x :
  is_ident t = true → reads a x → reads ("((" +:+ t +:+ ") " +:+ a +:+ ")") (XCast t x).
Proof.
  intros Ht Ha. split; [|done..].
  intros rest fuel Hr Hl. rewrite !append_assoc. rewrite !length_append in Hl.
  destruct fuel as [|fuel]; [simpl in Hl; lia|]. cbn [read_expr].
  change ("((" +:+ t +:+ ") " +:+ a +:+ ")" +:+ rest)%string
    with ("(" +:+ "(" +:+ t +:+ ") " +:+ a +:+ ")" +:+ rest)%string.
  rewrite expect_app.
  replace (expect "!" ("(" +:+ t +:+ ") " +:+ a +:+ ")" +:+ rest)) with (@None string) by done.
  change (") " +:+ a +:+ ")" +:+ rest)%string with (")" +:+ " " +:+ a +:+ ")" +:+ rest)%string.
  unfold read_cast. rewrite in_parens_app by done. cbn [mbind option_bind]. rewrite expect_app.
  cbn [mbind option_bind]. rewrite (reads_expr _ _ Ha) by (done || (simpl in Hl; lia)).
  cbn [mbind option_bind]. by rewrite expect_app.
Qed.

(** Words: an identifier [i] and a rest [u] of the text. *)
Lemma ident_first i : is_ident i = true → ∃ c s, i = String c s ∧ is_ident_char c = true.
Proof.
  destruct i as [|c s]; [done|]. unfold is_ident. cbn [str_forall].
  intros [_ [Hc _]%andb_prop]%andb_prop. eauto.
Qed.

Lemma expect_first d c s : Ascii.eqb d c = false → expect (String d "") (String c s) = None.
Proof. cbn. by intros ->. Qed.

Lemma ident_char_neq d c : is_ident_char c = true → is_ident_char d = false → Ascii.eqb d c = false.
Proof. intros H1 H2. destruct (Ascii.eqb_spec d c); [|done]. congruence. Qed.

Lemma reads_word i u x :
  is_ident i = true → (∀ r, stops r = true → cut (u +:+ r) = true) →
  (∀ r, sep r = true → expect ")" (u +:+ r) = None) →
  (∀ r, stops r = true → read_atom (i +:+ u +:+ r) = Some (x, r)) → reads (i +:+ u) x.
Proof.
  intros Hi Hc He Ha.
  assert (Hn : ∀ d r, is_ident_char d = false → expect (String d "") (i +:+ u +:+ r) = None).
  { intros d r Hd. destruct (ident_first i Hi) as (c & s & -> & H). rewrite append_cons.
    by apply expect_first, ident_char_neq. }
  split.
  - intros rest fuel Hr Hl. rewrite append_assoc. destruct fuel as [|fuel]; [lia|].
    cbn [read_expr]. rewrite Hn by done. auto.
  - intros r. rewrite append_assoc. by apply Hn.
  - intros r Hr. rewrite append_assoc, read_ident_app by auto using sep_stops. auto.
  - intros r Hr. rewrite append_assoc. unfold in_parens. by rewrite Hn.
Qed.

Lemma reads_word_only i x :
  is_ident i = true → (∀ r, stops r = true → read_atom (i +:+ r) = Some (x, r)) → reads i x.
Proof.
  intros Hi Ha. rewrite <- (append_nil_r i).
  apply reads_word; auto using stops_cut, sep_close.
Qed.

Lemma digits_ident s : str_forall isdigit s = true → s ≠ "" → is_ident s = true.
Proof.
  intros Hd Hn. unfold is_ident. destruct (String.eqb_spec s ""); [done|]. cbn.
  eapply forall_impl; [|done]. apply isdigit_ident.
Qed.

Lemma pretty_of_N n : pretty (Z.of_N n) = pretty n.
Proof. by destruct n. Qed.

Lemma reads_lit z : reads (pretty z) (XLit z).
Proof.
  destruct (Z_lt_ge_dec z 0) as [Hz|Hz].
  - replace z with (- Z.of_N (Z.to_N (- z)))%Z by lia. set (n := Z.to_N (- z)).
    assert (E : pretty (- Z.of_N n)%Z = ("-" +:+ pretty n)%string).
    { subst n. destruct z as [|p|p]; try done. }
    rewrite E. split; try done.
    intros rest fuel Hr Hl. rewrite !append_assoc. destruct fuel as [|fuel]; [lia|].
    cbn [read_expr]. change ("-" +:+ pretty n +:+ rest)%string with (String "-" (pretty n +:+ rest)).
    cbn [expect]. replace (Ascii.eqb "(" "-") with false by done.
    unfold read_atom. replace (isdigit "-") with false by done.
    replace (Ascii.eqb "-" "-") with true by done.
    by rewrite read_digits_app by auto using stops_cut.
  - replace z with (Z.of_N (Z.to_N z)) by lia. set (n := Z.to_N z). rewrite pretty_of_N.
    destruct (pretty_N_digits n) as (H1 & H2 & H3).
    apply reads_word_only; [by apply digits_ident|]. intros r Hr.
    destruct (pretty n) as [|c s] eqn:E; [done|]. rewrite append_cons.
    unfold read_atom. cbn [str_forall] in H1. apply andb_prop in H1 as [-> _].
    rewrite <- append_cons, <- E. by rewrite read_digits_app by auto using stops_cut.
Qed.

Lemma read_atom_name c s r :
  isdigit c = false → is_ident_char c = true → read_atom (String c s +:+ r) = read_name (String c s +:+ r).
Proof.
  intros Hd Hc. rewrite append_cons. unfold read_atom. rewrite Hd.
  replace (Ascii.eqb c "-") with false; [done|]. symmetry.
  destruct (Ascii.eqb_spec c "-"); [|done]. by subst.
Qed.

Lemma reads_bool b : reads (bool_text b) (XBool b).
Proof.
  destruct b; (apply reads_word_only; [done|]); intros r Hr;
    (unfold bool_text; rewrite read_atom_name by done; unfold read_name;
     rewrite read_ident_app by auto using stops_cut; done).
Qed.

Lemma reads_null : reads "nullptr" XNull.
Proof.
  apply reads_word_only; [done|]. intros r Hr. rewrite read_atom_name by done. unfold read_name.
  by rewrite read_ident_app by auto using stops_cut.
Qed.

Lemma name_of_Some n m :
  name_of n = Some m →
  m = n ∧ is_ident n = true ∧ reserved n = false ∧
  ∀ r, read_atom (n +:+ r) = read_name (n +:+ r).
Proof.
  destruct n as [|c s]; [done|]. unfold name_of.
  destruct (negb (isdigit c) && is_ident (String c s) && negb (reserved (String c s))) eqn:E; [|done].
  intros [= <-]. bool_to_prop. split_and!; try done. intros r. apply read_atom_name; [done|].
  destruct (ident_first (String c s)) as (? & ? & [= <- <-] & ?); done.
Qed.

Lemma read_name_free i u :
  is_ident i = true → reserved i = false → cut u = true →
  read_name (i +:+ u) = match expect "::" u with
                        | Some r => '(l, r) ← read_ident r; Some (XEnum i l, r)
                        | None => Some (XName i, u)
                        end.
Proof.
  intros Hi Hres Hu. unfold read_name. rewrite read_ident_app by done. cbn [mbind option_bind].
  unfold reserved in Hres. by repeat (apply orb_false_elim in Hres as [Hres ->]); rewrite Hres.
Qed.

Lemma stops_colon r : stops r = true → expect "::" r = None.
Proof.
  destruct r as [|c r]; [done|]. cbn. intros H.
  repeat (apply orb_prop in H as [H|H]); apply Ascii.eqb_eq in H as ->; done.
Qed.

Lemma reads_name n m : name_of n = Some m → reads n (XName m).
Proof.
  intros (-> & Hi & Hres & Hn)%name_of_Some. apply reads_word_only; [done|]. intros r Hr.
  rewrite Hn, read_name_free by auto using stops_cut. by rewrite stops_colon.
Qed.

Lemma reads_enum n m l :
  name_of n = Some m → is_ident l = true → reads (n +:+ "::" +:+ l) (XEnum m l).
Proof.
  intros (-> & Hi & Hres & Hn)%name_of_Some Hl. apply reads_word; try done.
  intros r Hr. rewrite append_assoc, Hn, read_name_free by done. rewrite expect_app.
  by rewrite read_ident_app by auto using stops_cut.
Qed.

Lemma reads_macro i t x :
  is_ident t = true → i = "SELF" ∧ x = XSelf t ∨ i = "DOLLAR" ∧ x = XDollar t →
  reads (i +:+ "(" +:+ t +:+ ")") x.
Proof.
  intros Ht Hi.
  assert (H : is_ident i = true ∧ ∀ r, read_atom (i +:+ r) = read_name (i +:+ r)).
  { destruct Hi as [[-> _]|[-> _]]; by split. }
  destruct H as [Hid Hn]. apply reads_word; try done.
  intros r Hr. rewrite !append_assoc, Hn. unfold read_name. rewrite read_ident_app by done.
  cbn [mbind option_bind]. rewrite in_parens_app by done. by destruct Hi as [[-> ->]|[-> ->]].
Qed.

End ReadLemmas.
Import ReadLemmas.

(** ** Theorems *)

Lemma ident_of_Some o s : ident_of o = Some s → o = Ret s ∧ is_ident s = true.
Proof. destruct o as [a| | |]; try done. cbn. destruct (is_ident a) eqn:E; [|done]. by intros [= <-]. Qed.

(** Runs through the steps of a successful [cpp]. *)
Ltac destruct_cpp H :=
  repeat match type of H with
  | mbind _ ?m = Some _ =>
      let E := fresh "E" in destruct m eqn:E; try done; cbn [mbind option_bind] in H
  | option_bind _ _ _ ?m = Some _ =>
      let E := fresh "E" in destruct m eqn:E; try done; cbn [mbind option_bind] in H
  | Some _ = Some _ => injection H as <-
  end;
  repeat match goal with
  | E : ident_of _ = Some _ |- _ => apply ident_of_Some in E as [? ?]
  end.

Section CppReads.
  Context (us : units).

Definition readable (e : expr) : Prop :=
  ∀ x, cpp us e = Some x → ∃ s, visit_expression us e = Ret s ∧ reads s x.

Lemma constant_readable sc c : readable (mkExpr sc (EConstant c)).
Proof using Type.
  intros x H. destruct c; try done; cbn [cpp] in H.
  - injection H as <-. eauto using reads_lit.
  - injection H as <-. eauto using reads_bool.
  - destruct (kind t) eqn:Ek; try done. destruct_cpp H. cbn. rewrite Ek.
    replace (type_text us t) with (Ret s) by done. cbn. replace (name label) with (Ret s1) by done.
    cbn. eauto using reads_enum.
  - injection H as <-. eauto using reads_null.
Qed.

Lemma binop_text k o : binop_of k = Some o →
  ∃ sym, (sym, o) ∈ infix_ops ∧
    ∀ a b, operator_text k [Ret a; Ret b] = Ret (infix sym a b).
Proof using Type.
  intros H. destruct k; try done; injection H as <-;
    (eexists; split; [|intros; reflexivity]; repeat first [by left | right]).
Qed.

Lemma operator_readable sc k ops : Forall readable ops → readable (mkExpr sc (EOperator k ops)).
Proof using Type.
  intros Hops x H.
  destruct ops as [|a [|b [|c [|? ?]]]]; repeat (apply list.Forall_cons in Hops as [? Hops]).
  - by destruct k.
  - destruct k; try done. cbn [cpp] in H. destruct_cpp H.
    destruct (H0 _ E) as (s & Hs & Hr). cbn. rewrite Hs. cbn. eauto using reads_not.
  - destruct (binop_of k) as [o|] eqn:Ek.
    + assert (Hc : ∃ y z, cpp us a = Some y ∧ cpp us b = Some z ∧ x = XBin o y z).
      { destruct k; try done; cbn [cpp] in H; rewrite Ek in H; cbn [mbind option_bind] in H;
          destruct_cpp H; eauto. }
      destruct Hc as (y & z & Ha & Hb & ->). destruct (H0 _ Ha) as (s & Hs & Hr).
      destruct (H1 _ Hb) as (s' & Hs' & Hr'). destruct (binop_text k o Ek) as (sym & Hin & Ht).
      exists (infix sym s s'). split; [|by apply reads_infix].
      cbn [visit_expression map]. by rewrite Hs, Hs'.
    + destruct k; try done; destruct b as [? []]; try done; cbn [cpp] in H; destruct_cpp H;
        destruct (H0 _ E) as (s1 & Hs & Hr); cbn; rewrite Hs; cbn.
      * replace (name attribute) with (Ret s) by done. cbn. eauto using reads_member.
      * replace (type_text us t) with (Ret s) by done. cbn. eauto using reads_cast.
  - destruct b as [? kb]. destruct k; try done; destruct kb; try done. cbn [cpp] in H. destruct_cpp H.
    destruct (H0 _ E) as (s1 & Hs & Hr). destruct (H2 _ E1) as (s2 & Hs' & Hr'). cbn.
    rewrite Hs, Hs'. replace (name attribute) with (Ret s) by done. cbn.
    eauto using reads_member_assign.
  - destruct b as [? kb]. destruct k; try done; by destruct kb.
Qed.

Lemma cpp_reads e : readable e.
Proof using Type.
  induction e as [sc k IH] using expr_subexprs_ind.
  destruct k; try (by intros x H); cbn [subexprs] in IH.
  - apply list.Forall_cons in IH as [IH0 [IH1 _]%list.Forall_cons].
    intros x H. cbn [cpp] in H. destruct_cpp H. destruct (IH0 _ E) as (s & Hs & Hr).
    destruct (IH1 _ E0) as (s' & Hs' & Hr'). cbn. rewrite Hs, Hs'. cbn. eauto using reads_assign.
  - apply list.Forall_cons in IH as [IH0 [IH1 IH]%list.Forall_cons].
    intros x H. cbn [cpp] in H. destruct_cpp H. destruct (IH0 _ E) as (s & Hs & Hr).
    destruct (IH1 _ E0) as (s' & Hs' & Hr'). cbn [visit_expression]. rewrite Hs, Hs'.
    cbn [mbind outcome_bind]. destruct false_ as [f|].
    + apply list.Forall_cons in IH as [Hf _]. destruct_cpp H. destruct (Hf _ E1) as (s2 & Hs2 & Hr2).
      rewrite Hs2. cbn [mbind outcome_bind]. eauto using reads_cond.
    + injection H as <-. eexists; split; [done|].
      exact (reads_cond _ _ _ _ _ _ Hr Hr' (reads_lit 0)).
  - apply constant_readable.
  - intros x H. cbn [cpp] in H. destruct_cpp H. cbn. eauto using reads_name.
  - by apply operator_readable.
  - intros x H. cbn [cpp] in H. destruct kind; try done; destruct_cpp H; cbn [visit_expression].
    all: replace (type_text us t) with (Ret s) by done; cbn [mbind outcome_bind].
    all: eexists; split; [done|].
    + apply (reads_macro "SELF"); auto.
    + apply (reads_macro "DOLLAR"); auto.
Qed.

End CppReads.

(** C27: The text of an expression the translator supports, read as C++, is that expression: the
    parentheses it writes make the text unambiguous, whatever the precedences are. *)
Theorem expression_text_meaning us e x :
  cpp us e = Some x → ∃ s, expression_text us e = Ret s ∧ read_cpp s = Some x.
Proof.
  intros H. destruct (cpp_reads us e x H) as (s & Hs & Hr). exists s. split; [done|].
  unfold read_cpp. rewrite <- (Util.StringLemmas.append_nil_r s) at 2.
  by rewrite (reads_expr _ _ Hr) by (done || lia).
Qed.

Lemma expression_text_meaning_witness :
  let e := new_expr (EConditional
    (new_expr (EOperator OpLess [new_expr (EID (mkID ["a"])); new_expr (EConstant (CInteger 3 64 false))]))
    (new_expr (EOperator OpMinus
       [new_expr (EConstant (CInteger 7 64 false));
        new_expr (EOperator OpPlus [new_expr (EID (mkID ["a"])); new_expr (EConstant (CInteger 2 64 false))])]))
    None) in
  let x := XCond (XBin BLess (XName "a") (XLit 3))
             (XBin BMinus (XLit 7) (XBin BPlus (XName "a") (XLit 2))) (XLit 0) in
  ∃ s, expression_text ∅ e = Ret s ∧ read_cpp s = Some x.
Proof. apply expression_text_meaning. vm_compute. reflexivity. Defined.
