(* ===== verification/Generate.v ===== *)
(** * The generators of parsers and serializers
    ([src/src/generation/parsing/parser_generator.cpp],
    [src/src/generation/serializing/serializer_generator.cpp], the unit classes of
    [src/src/generation/output/code_generator.cpp], and the text buffer they write to,
    [src/externals/libkode/code.cpp])

    A generator writes lines of C++ into a [KODE::Code].  Here a line is a constructor of
    [pline] or [sline], whose text is [pline_text] or [sline_text]; an instruction (the block
    [parse] or [serialize] writes for an item) and a switch keep their structure, so that the
    code can be printed ([print_code]) and executed ([Exec.v]).  Expressions and types are kept
    as the text the translators give. *)

From S2P Require Import Prelude Util Ident Ast Units Translate.
Import Util.Strings Ident.Id Units.Units Translate.Translate.

(** ** [KODE::Code] *)

Module Kode.

Record Code := mkCode { mText : string; mIndent : nat }.

Definition newCode : Code := mkCode "" 0.
Definition defaultIndentation : nat := 2.
Definition newline : string := String "010" "".

Definition indent (c : Code) : Code := mkCode (mText c) (mIndent c + defaultIndentation).
Definition unindent (c : Code) : Code := mkCode (mText c) (mIndent c - defaultIndentation).
Fixpoint spaces (count : nat) : string :=
  match count with O => "" | S n => String " " (spaces n) end.
Definition addLine (line : string) (c : Code) : Code :=
  mkCode (mText c +:+ spaces (mIndent c) +:+ line +:+ newline) (mIndent c).
Definition newLine (c : Code) : Code := mkCode (mText c +:+ newline) (mIndent c).

(** [boost::split] at newlines. *)
Fixpoint split_lines (s cur : string) : list string :=
  match s with
  | EmptyString => [cur]
  | String c s =>
      if Ascii.eqb c "010" then cur :: split_lines s "" else split_lines s (cur +:+ String c "")
  end.
(** [lines.pop_back()] of an empty last line. *)
Fixpoint drop_last_empty (l : list string) : list string :=
  match l with
  | [] => []
  | [x] => if String.eqb x "" then [] else [x]
  | x :: l => x :: drop_last_empty l
  end.
Definition addBlock (block : string) (c : Code) : Code :=
  mkCode (foldl (λ t l, t +:+ (if String.eqb l "" then "" else spaces (mIndent c)) +:+ l +:+ newline)
            (mText c) (drop_last_empty (split_lines block "")))
    (mIndent c).

End Kode.

(** ** Structured code *)

Inductive code (A : Type) :=
  | Line (a : A)
  | Block (body : list (code A))
  | Switch (scrutinee : string) (cases : list (code_case A))
with code_case (A : Type) :=
  | mkCodeCase (labels : list string) (default_ : bool) (body : list (code A)).
Arguments Line {A} _.
Arguments Block {A} _.
Arguments Switch {A} _ _.
Arguments mkCodeCase {A} _ _ _.

Section Print.
  Context {A : Type} (print_line : A → Kode.Code → Kode.Code).

(** A block is a [Code] of its own, ended by an empty line and added to the enclosing one. *)
Fixpoint print_code (c : code A) (k : Kode.Code) : Kode.Code :=
  match c with
  | Line a => print_line a k
  | Block body =>
      let instr := fold_left (λ k c, print_code c k) body Kode.newCode in
      Kode.addBlock (Kode.mText (Kode.newLine instr)) k
  | Switch e cases =>
      let k := Kode.addLine ("switch (" +:+ e +:+ "){") k in
      Kode.addLine "}" (fold_left (λ k c, print_case c k) cases k)
  end
with print_case (c : code_case A) (k : Kode.Code) : Kode.Code :=
  match c with
  | mkCodeCase labels d body =>
      let k := fold_left (λ k e, Kode.addLine ("case " +:+ e +:+ ":") k) labels k in
      let k := if d then Kode.addLine "default:" k else k in
      let k := fold_left (λ k c, print_code c k) body (Kode.indent k) in
      Kode.unindent (Kode.addLine "break;" k)
  end.
Definition print_block (l : list (code A)) (k : Kode.Code) : Kode.Code :=
  fold_left (λ k c, print_code c k) l k.
End Print.

(** ** What both generators share *)

Module Generator.

(** The options of [compiler.h] that matter for code. *)
Record Options := mkOptions {
  instantiation_only : bool;
  input_pointers : bool;
  store_parsing_only : bool }.

(** The members of a generator; [errors_] is the counter of the visitor. *)
Record gstate := mkG {
  temp_vars_ : list (string * string);
  lastLabelId_ : Z;
  lastTempId_ : Z;
  errors_ : Z }.
Definition newGenerator : gstate := mkG [] 0 0 0.

Definition log_error (g : gstate) : gstate :=
  mkG (temp_vars_ g) (lastLabelId_ g) (lastTempId_ g) (errors_ g + 1).
(** [reset()], which starts every [processOne]. *)
Definition reset_errors (g : gstate) : gstate :=
  mkG (temp_vars_ g) (lastLabelId_ g) (lastTempId_ g) 0.

Definition newInstructionLabel (label_desc : string) (g : gstate) : string * gstate :=
  let n := (lastLabelId_ g + 1)%Z in
  ("lbl" +:+ pretty n +:+ "_" +:+ label_desc, mkG (temp_vars_ g) n (lastTempId_ g) (errors_ g)).
Definition newTempVarName (g : gstate) : string * gstate :=
  let n := (lastTempId_ g + 1)%Z in
  ("tmp" +:+ pretty n, mkG (temp_vars_ g) (lastLabelId_ g) n (errors_ g)).
Definition addTemp (type : string) (g : gstate) : string * gstate :=
  let '(n, g) := newTempVarName g in
  (n, mkG (temp_vars_ g ++ [(n, type)]) (lastLabelId_ g) (lastTempId_ g) (errors_ g)).

(** [serialized_type() != type()] compares nodes: the types of a named declaration are the
    same node once identifiers are resolved, other types are nodes of their own. *)
Definition same_node (a b : ty) : bool :=
  match kind a, kind b with
  | TUnit u, TUnit v => u =? v
  | _, _ =>
      match ty_id (base a), ty_id (base b) with
      | Some i, Some j => id_eqb i j
      | _, _ => false
      end
  end.
Definition transformed (b : item_base) : bool :=
  match serialized_type_ b, item_type b with
  | Some s, Some t => negb (same_node s t)
  | Some _, None => true
  | None, _ => false
  end.

Definition has_attr (k : string) (b : item_base) : bool :=
  match attr_lookup k (attributes_ b) with Some _ => true | None => false end.
Definition attr_expr (a : attr) : outcome expr :=
  match attr_value a with Some e => Ret e | None => Abort "value()" end.
Definition type_of_item (b : item_base) : outcome ty :=
  match item_type b with Some t => Ret t | None => Abort "type()" end.
Definition serialized_type_of_item (b : item_base) : outcome ty :=
  match serialized_type b with Some t => Ret t | None => Abort "serialized_type()" end.

(** [byteOrderLabel]; [b] is the current item. *)
Definition byteOrderLabel (us : units) (b : item_base) : outcome string :=
  match item_inheritedProperty us "byteorder" b with
  | None => Ret "big"
  | Some (mkExpr _ (EConstant (CEnum label _))) => name label
  | Some (mkExpr _ (EConstant _)) => Abort "bo_const->label()"
  | Some _ => Abort "bo_const_expr->constant()"
  end.

Definition signed_text (s : bool) : string := if s then "signed" else "unsigned".

(** [exprCurrentUnit] and [exprCurrentUnitPP]. *)
Definition exprCurrentUnit (u : unit_type) : outcome string :=
  t ← unit_text u; Ret ("UNIT(" +:+ t +:+ ")").
Definition exprCurrentUnitPP (u : unit_type) : outcome string :=
  t ← unit_text u; Ret ("UNITPP(" +:+ t +:+ ")").

(** [unit_->id()->name()]. *)
Definition unit_id_name (u : unit_type) : outcome string :=
  match unit_id u with Some i => name i | None => Abort "unit_->id()" end.

End Generator.
Import Generator.

(** ** [ParserGenerator] *)

Module ParserGenerator.

(** The lines of a parse function.  [cu] is [UNIT(type)], [k] the name of a byte container. *)
Inductive pline :=
  | PLabel (l : string)
  | PAdvanceTo (l : string)
  | PDestTemp (tmp : string)
  | PDestField (cu f : string)
  | PCastField (cu f t tmp : string)
  | PAssignField (cu f e : string)
  | PSetLen (k e : string)
  | PAllocateCopy (k : string)
  | PRangeStart
  | PAdvanceRange
  | PParseInt (w : Z) (sg : bool) (order : string)
  | PCheck.

Definition dest_as (k : string) : string := "(*((dr::unit::" +:+ k +:+ "*) parse_dest))".

Definition pline_text (l : pline) : list string :=
  match l with
  | PLabel l => [l +:+ ":"]
  | PAdvanceTo l => ["state->advanceToInstruction(&&" +:+ l +:+ ");"]
  | PDestTemp tmp => ["parse_dest = (char*) &" +:+ tmp +:+ ";"]
  | PDestField cu f => ["parse_dest = (char*) &" +:+ cu +:+ "->" +:+ f +:+ ";"]
  | PCastField cu f t tmp => [cu +:+ "->" +:+ f +:+ " = (" +:+ t +:+ ") " +:+ tmp +:+ ";"]
  | PAssignField cu f e => [cu +:+ "->" +:+ f +:+ " = " +:+ e +:+ ";"]
  | PSetLen k e => [dest_as k +:+ ".len_ = " +:+ e +:+ ";"]
  | PAllocateCopy k =>
      ["parse_res = dr::parsing::util::allocateCopyBytes(POS, in_buf_end, &" +:+ dest_as k +:+
       ".data_, " +:+ dest_as k +:+ ".len_, area);"]
  | PRangeStart => [dest_as "var_stream_range" +:+ ".start_ = *POS;"]
  | PAdvanceRange =>
      ["parse_res = dr::parsing::util::advance(POS, in_buf_end, " +:+
       dest_as "var_stream_range" +:+ ".len_);"]
  | PParseInt w sg order =>
      ["parse_res = dr::parsing::util::parseInt" +:+ pretty w +:+ "_" +:+ signed_text sg +:+ "_" +:+
       order +:+ "(POS, in_buf_end, parse_dest);"]
  | PCheck =>
      ["if (parse_res != dr::parsing::ParseResult::DONE)"; "  return parse_res;"]
  end.
Definition print_pline (l : pline) (k : Kode.Code) : Kode.Code :=
  fold_left (λ k t, Kode.addLine t k) (pline_text l) k.

Abbreviation pcode := (code pline).

Section ParserGenerator.
  Context (us : units) (u : unit_type) (options : Options).

(** [visit] of the classes of types, for the current item [b]. *)
Definition visit_type_Bytes (b : item_base) (use_input_pointer : bool) : outcome (list pcode) :=
  match attr_lookup "length" (attributes_ b) with
  | Some a =>
      length ← attr_expr a;
      length_str ← expression_text us length;
      Ret (if negb use_input_pointer
           then [Line (PSetLen "var_bytes" length_str); Line (PAllocateCopy "var_bytes");
                 Line PCheck]
           else [Line (PSetLen "var_stream_range" length_str); Line PRangeStart;
                 Line PAdvanceRange; Line PCheck])
  | None => Ret []
  end.
Definition visit_type_String (b : item_base) : outcome (list pcode) :=
  match attr_lookup "length" (attributes_ b) with
  | Some a =>
      length ← attr_expr a;
      length_str ← expression_text us length;
      Ret [Line (PSetLen "var_string" length_str); Line (PAllocateCopy "var_string");
           Line PCheck]
  | None => Ret []
  end.
Definition visit_type_Integer (b : item_base) (w : Z) (sg : bool) : outcome (list pcode) :=
  byteorder ← byteOrderLabel us b;
  Ret [Line (PParseInt w sg byteorder); Line PCheck].

(** [processOne] of a type. *)
Definition parse_type (b : item_base) (use_input_pointer : bool) (t : ty) (g : gstate)
    : outcome (list pcode * gstate) :=
  let g := reset_errors g in
  match kind t with
  | TAny | TUnknown _ | TVoid => Ret ([], log_error g)
  | TBytes => c ← visit_type_Bytes b use_input_pointer; Ret (c, g)
  | TInteger w sg => c ← visit_type_Integer b w sg; Ret (c, g)
  | TString => c ← visit_type_String b; Ret (c, g)
  | _ => Ret ([], g)
  end.

(** [visit(AtomicType)]. *)
Definition visit_AtomicType (b : item_base) (g : gstate) : outcome (list pcode * gstate) :=
  let use_input_pointer := (negb (app_accessible b) && input_pointers options)%bool in
  st ← serialized_type_of_item b;
  if transformed b then
    st_text ← type_text us st;
    let '(temp_name, g) := addTemp st_text g in
    '(c, g) ← parse_type b use_input_pointer st g;
    if has_attr "transform_to" b then
      cu ← exprCurrentUnit u;
      f ← name (item_id b);
      t ← type_of_item b;
      t_text ← type_text us t;
      Ret (Line (PDestTemp temp_name) :: c ++
           [Line (PCastField cu (unitFieldName f) t_text temp_name)], g)
    else if has_attr "transform" b then Ret (Line (PDestTemp temp_name) :: c, g)
    else Ret (Line (PDestTemp temp_name) :: c, log_error g)
  else
    cu ← exprCurrentUnit u;
    f ← name (item_id b);
    '(c, g) ← parse_type b use_input_pointer st g;
    Ret (Line (PDestField cu (unitFieldName f)) :: c, g).

(** [visit(Variable)]. *)
Definition visit_Variable (b : item_base) (default_value : option expr) : outcome (list pcode) :=
  match attr_lookup "parse" (attributes_ b), default_value with
  | Some pattr, _ =>
      cu ← exprCurrentUnit u;
      f ← name (item_id b);
      e ← attr_expr pattr;
      e_text ← expression_text us e;
      Ret [Line (PAssignField cu (unitFieldName f) e_text)]
  | None, Some e =>
      cu ← exprCurrentUnit u;
      f ← name (item_id b);
      e_text ← expression_text us e;
      Ret [Line (PAssignField cu (unitFieldName f) e_text)]
  | None, None => Ret []
  end.

(** [parse]: the label, [emitInitInstruction] and what [processOne] writes ([visit]). *)
Definition parse_item (b : item_base)
    (visit : gstate → outcome (list pcode * gstate)) (g : gstate) : outcome (list pcode * gstate) :=
  uname ← unit_id_name u;
  iname ← name (item_id b);
  let '(instr_label, g) := newInstructionLabel ("parse_" +:+ uname +:+ "_" +:+ iname) g in
  '(c, g) ← visit (reset_errors g);
  Ret ([Block (Line (PLabel instr_label) :: Line (PAdvanceTo instr_label) :: c)], g).

Fixpoint translate_all (l : list expr) : outcome (list string) :=
  match l with
  | [] => Ret []
  | e :: l => t ← expression_text us e; l ← translate_all l; Ret (t :: l)
  end.

(** [visit] of the field classes, with [parse] for the fields of a switch. *)
Fixpoint visit_field (f : field) (g : gstate) : outcome (list pcode * gstate) :=
  let parse_fields := fix parse_fields (l : list field) (g : gstate)
      : outcome (list pcode * gstate) :=
    match l with
    | [] => Ret ([], g)
    | x :: l =>
        '(c, g) ← parse_item (fbase x) (visit_field x) g;
        '(r, g) ← parse_fields l g;
        Ret (c ++ r, g)
    end in
  let visit_cases := fix visit_cases (l : list case) (g : gstate)
      : outcome (list (code_case pline) * gstate) :=
    match l with
    | [] => Ret ([], g)
    | mkCase es items d :: l =>
        labels ← translate_all es;
        '(c, g) ← parse_fields items g;
        '(r, g) ← visit_cases l g;
        Ret (mkCodeCase labels d c :: r, g)
    end in
  match f with
  | mkField b _ k =>
      match k with
      | FAtomicType => visit_AtomicType b g
      | FUnknown _ => Ret ([], log_error g)
      | FSwitch (Some e) cases =>
          e_text ← expression_text us e;
          '(cs, g) ← visit_cases cases g;
          Ret ([Switch e_text cs], g)
      | FSwitch None _ | FConstant _ | FCtor _ | FUnit | FVector _ _ | FList _ => Ret ([], g)
      end
  end.

Definition visit_parsed_item (i : item) (g : gstate) : outcome (list pcode * gstate) :=
  match i with
  | IField f => visit_field f g
  | IVariable b d => c ← visit_Variable b d; Ret (c, g)
  | IProperty _ _ => Ret ([], g)
  end.

(** The loop over the items of [run]; properties are skipped. *)
Fixpoint parse_items (l : list item) (g : gstate) : outcome (list pcode * gstate) :=
  match l with
  | [] => Ret ([], g)
  | IProperty _ _ :: l => parse_items l g
  | i :: l =>
      '(c, g) ← parse_item (ibase i) (visit_parsed_item i) g;
      '(r, g) ← parse_items l g;
      Ret (c ++ r, g)
  end.

(** What [run] makes: the parse function and whether it reports success. *)
Record parse_function := mkParseFunction {
  root_label : string;
  unit_pp : string;
  temps : list (string * string);
  body : list pcode }.

Definition run_parser (g : gstate) : outcome (parse_function * bool * gstate) :=
  let '(root_instr, g) := newInstructionLabel "root" g in
  '(inner, g) ← parse_items (unit_items u) g;
  pp ← exprCurrentUnitPP u;
  Ret (mkParseFunction root_instr pp (temp_vars_ g) inner, (errors_ g =? 0)%Z, g).

End ParserGenerator.

(** The text of the parse function. *)
Definition add_lines (l : list string) (k : Kode.Code) : Kode.Code :=
  fold_left (λ k t, Kode.addLine t k) l k.
Definition parse_body_text (p : parse_function) : string :=
  let inner := print_block print_pline (body p) Kode.newCode in
  let k := add_lines (["char* parse_dest;"; "dr::parsing::ParseResult parse_res;"; "char* unit;"] ++
                      map (λ v, v.2 +:+ " " +:+ v.1 +:+ ";") (temps p)) Kode.newCode in
  let k := Kode.newLine k in
  let k := add_lines [root_label p +:+ ":"; "if (state->instruction()) {";
                      "  unit = BLOCKSTATE->unit;"; "  goto *state->instruction();"; "}"] k in
  let k := Kode.newLine k in
  let k := Kode.newLine (Kode.addLine "state->push<BlockState>();" k) in
  let k := add_lines ["if (!area->allocate(" +:+ unit_pp p +:+ "))";
                      "  return dr::parsing::ParseResult::AREA_FULL;"] k in
  let k := Kode.newLine k in
  let k := add_lines ["unit = BLOCKSTATE->unit;"; "*POS = in_buf_start;"] k in
  let k := Kode.newLine k in
  let k := Kode.addBlock (Kode.mText inner) k in
  Kode.mText (add_lines ["*bytes_read = *POS - in_buf_start;";
                         "return dr::parsing::ParseResult::DONE;"] k).

End ParserGenerator.

(** ** [SerializerGenerator] *)

Module SerializerGenerator.

(** The lines of a serialize function. *)
Inductive sline :=
  | SLabel (l : string)
  | SAdvanceTo (l : string)
  | SSrcTemp (tmp : string)
  | SSrcField (cu f : string)
  | SCastFrom (tmp t cu f : string)
  | SDollar (cu f : string)
  | SExpr (e : string)
  | SSetLength (e : string)
  | SCopyBytes (k : string)
  | SCopyRange
  | SSerializeInt (w : Z) (sg : bool) (order : string)
  | SCheck
  | SBlank.

Definition src_as (k : string) : string := "(*((dr::unit::" +:+ k +:+ "*) serialize_src))".

Definition sline_text (l : sline) : list string :=
  match l with
  | SLabel l => [l +:+ ":"]
  | SAdvanceTo l => ["state->advanceToInstruction(&&" +:+ l +:+ ");"]
  | SSrcTemp tmp => ["serialize_src = reinterpret_cast<char*>(&" +:+ tmp +:+ ");"]
  | SSrcField cu f => ["serialize_src = reinterpret_cast<char*>(&" +:+ cu +:+ "->" +:+ f +:+ ");"]
  | SCastFrom tmp t cu f => [tmp +:+ " = (" +:+ t +:+ ") " +:+ cu +:+ "->" +:+ f +:+ ";"]
  | SDollar cu f => ["dollar = reinterpret_cast<char*>(&" +:+ cu +:+ "->" +:+ f +:+ ");"]
  | SExpr e => [e +:+ ";"]
  | SSetLength e => [e +:+ " = " +:+ src_as "var_bytes" +:+ ".len_;"]
  | SCopyBytes k =>
      ["serialize_res = dr::serializing::util::copyBytes(" +:+ src_as k +:+ ".data_, " +:+
       src_as k +:+ ".len_, POS, out_buf_end);"]
  | SCopyRange =>
      ["serialize_res = dr::serializing::util::copyBytes(" +:+ src_as "var_stream_range" +:+
       ".start_, " +:+ src_as "var_stream_range" +:+ ".len_, POS, out_buf_end);"]
  | SSerializeInt w sg order =>
      ["serialize_res = dr::serializing::util::serializeInt" +:+ pretty w +:+ "_" +:+
       signed_text sg +:+ "_" +:+ order +:+ "(serialize_src, POS, out_buf_end);"]
  | SCheck =>
      ["if (serialize_res != dr::serializing::SerializeResult::DONE)"; "  return serialize_res;"]
  | SBlank => []
  end.
Definition print_sline (l : sline) (k : Kode.Code) : Kode.Code :=
  match l with
  | SBlank => Kode.newLine k
  | _ => fold_left (λ k t, Kode.addLine t k) (sline_text l) k
  end.

Abbreviation scode := (code sline).

Section SerializerGenerator.
  Context (us : units) (u : unit_type) (options : Options).

Definition visit_type_Bytes_out (use_input_pointer : bool) : list scode :=
  [Line (if negb use_input_pointer then SCopyBytes "var_bytes" else SCopyRange); Line SCheck].
Definition visit_type_String_out : list scode := [Line (SCopyBytes "var_string"); Line SCheck].
Definition visit_type_Integer_out (b : item_base) (w : Z) (sg : bool) : outcome (list scode) :=
  byteorder ← byteOrderLabel us b;
  Ret [Line (SSerializeInt w sg byteorder); Line SCheck].

Definition serialize_type (b : item_base) (use_input_pointer : bool) (t : ty) (g : gstate)
    : outcome (list scode * gstate) :=
  let g := reset_errors g in
  match kind t with
  | TAny | TUnknown _ | TVoid => Ret ([], log_error g)
  | TBytes => Ret (visit_type_Bytes_out use_input_pointer, g)
  | TInteger w sg => c ← visit_type_Integer_out b w sg; Ret (c, g)
  | TString => Ret (visit_type_String_out, g)
  | _ => Ret ([], g)
  end.

(** [visit(AtomicType)]. *)
Definition visit_AtomicType_out (b : item_base) (g : gstate) : outcome (list scode * gstate) :=
  let use_input_pointer := (negb (app_accessible b) && input_pointers options)%bool in
  st ← serialized_type_of_item b;
  if transformed b then
    st_text ← type_text us st;
    let '(temp_name, g) := addTemp st_text g in
    '(pre, g) ←
      (if has_attr "transform_to" b then
         cu ← exprCurrentUnit u;
         f ← name (item_id b);
         Ret ([Line (SCastFrom temp_name st_text cu (unitFieldName f))], g)
       else if has_attr "transform" b then Ret ([], g)
       else Ret ([], log_error g));
    '(c, g) ← serialize_type b use_input_pointer st g;
    Ret (pre ++ Line (SSrcTemp temp_name) :: c, g)
  else
    cu ← exprCurrentUnit u;
    f ← name (item_id b);
    '(c, g) ← serialize_type b use_input_pointer st g;
    Ret (Line (SSrcField cu (unitFieldName f)) :: c, g).

(** [visit(Variable)]. *)
Definition visit_Variable_out (b : item_base) : outcome (list scode) :=
  match attr_lookup "serialize" (attributes_ b) with
  | Some pattr =>
      cu ← exprCurrentUnit u;
      f ← name (item_id b);
      e ← attr_expr pattr;
      e_text ← expression_text us e;
      Ret [Line (SDollar cu (unitFieldName f)); Line (SExpr e_text)]
  | None => Ret []
  end.

(** [serialize] of an item that is not a variable. *)
Definition serialize_item (b : item_base)
    (visit : gstate → outcome (list scode * gstate)) (g : gstate) : outcome (list scode * gstate) :=
  uname ← unit_id_name u;
  iname ← name (item_id b);
  let '(instr_label, g) := newInstructionLabel ("serialize_" +:+ uname +:+ "_" +:+ iname) g in
  '(c, g) ← visit (reset_errors g);
  Ret ([Block (Line (SLabel instr_label) :: Line (SAdvanceTo instr_label) :: c)], g).

(** [visit] of the field classes. *)
Fixpoint visit_field_out (f : field) (g : gstate) : outcome (list scode * gstate) :=
  let serialize_fields := fix serialize_fields (l : list field) (g : gstate)
      : outcome (list scode * gstate) :=
    match l with
    | [] => Ret ([], g)
    | x :: l =>
        '(c, g) ← serialize_item (fbase x) (visit_field_out x) g;
        '(r, g) ← serialize_fields l g;
        Ret (c ++ r, g)
    end in
  let visit_cases := fix visit_cases (l : list case) (g : gstate)
      : outcome (list (code_case sline) * gstate) :=
    match l with
    | [] => Ret ([], g)
    | mkCase es items d :: l =>
        labels ← ParserGenerator.translate_all us es;
        '(c, g) ← serialize_fields items g;
        '(r, g) ← visit_cases l g;
        Ret (mkCodeCase labels d c :: r, g)
    end in
  match f with
  | mkField b _ k =>
      match k with
      | FAtomicType => visit_AtomicType_out b g
      | FUnknown _ => Ret ([], log_error g)
      | FSwitch (Some e) cases =>
          e_text ← expression_text us e;
          '(cs, g) ← visit_cases cases g;
          Ret ([Switch e_text cs], g)
      | FSwitch None _ | FConstant _ | FCtor _ | FUnit | FVector _ _ | FList _ => Ret ([], g)
      end
  end.

(** [updateLengthForField]. *)
Definition is_byte_type (t : option ty) : bool :=
  match t with Some t => match kind t with TBytes | TString => true | _ => false end | None => false end.
Definition updateLengthForField (f : field) : outcome (list scode) :=
  match f with
  | mkField b _ k =>
      match k with
      | FList _ => Ret []
      | _ =>
          if is_byte_type (serialized_type b) && app_accessible b then
            match attr_lookup "length" (attributes_ b) with
            | None => Ret []
            | Some a =>
                match attr_value a with
                | Some (mkExpr sc (EOperator OpAttribute ops)) =>
                    length_str ← expression_text us (mkExpr sc (EOperator OpAttribute ops));
                    cu ← exprCurrentUnit u;
                    f ← name (item_id b);
                    Ret [Line (SSrcField cu (unitFieldName f)); Line (SSetLength length_str)]
                | _ => Ret []
                end
            end
          else Ret []
      end
  end.

(** The three loops of [run]. *)
Fixpoint update_lengths (l : list item) : outcome (list scode) :=
  match l with
  | [] => Ret []
  | IField f :: l => c ← updateLengthForField f; r ← update_lengths l; Ret (c ++ r)
  | _ :: l => update_lengths l
  end.
Fixpoint serialize_variables (l : list item) (g : gstate) : outcome (list scode * gstate) :=
  match l with
  | [] => Ret ([], g)
  | IVariable b _ :: l =>
      c ← visit_Variable_out b;
      '(r, g) ← serialize_variables l (reset_errors g);
      Ret (c ++ r, g)
  | _ :: l => serialize_variables l g
  end.
Fixpoint serialize_fields (l : list item) (g : gstate) : outcome (list scode * gstate) :=
  match l with
  | [] => Ret ([], g)
  | IField f :: l =>
      '(c, g) ← serialize_item (fbase f) (visit_field_out f) g;
      '(r, g) ← serialize_fields l g;
      Ret (c ++ r, g)
  | _ :: l => serialize_fields l g
  end.

Record serialize_function := mkSerializeFunction {
  s_root_label : string;
  s_temps : list (string * string);
  s_body : list scode }.

Definition run_serializer (g : gstate) : outcome (serialize_function * bool * gstate) :=
  let '(root_instr, g) := newInstructionLabel "root" g in
  ls ← update_lengths (unit_items u);
  '(vs, g) ← serialize_variables (unit_items u) g;
  '(fs, g) ← serialize_fields (unit_items u) g;
  Ret (mkSerializeFunction root_instr (temp_vars_ g)
         (ls ++ Line SBlank :: vs ++ Line SBlank :: fs), (errors_ g =? 0)%Z, g).

End SerializerGenerator.

(** The text of the serialize function. *)
Definition serialize_body_text (p : serialize_function) : string :=
  let inner := print_block print_sline (s_body p) Kode.newCode in
  let k := ParserGenerator.add_lines
             (["char* serialize_src;"; "dr::serializing::SerializeResult serialize_res;";
               "char* dollar;"] ++ map (λ v, v.2 +:+ " " +:+ v.1 +:+ ";") (s_temps p))
             Kode.newCode in
  let k := Kode.newLine k in
  let k := ParserGenerator.add_lines
             [s_root_label p +:+ ":"; "if (state->instruction()) {";
              "  unit = BLOCKSTATE->unit;"; "  goto *state->instruction();"; "}"] k in
  let k := Kode.newLine k in
  let k := Kode.newLine (Kode.addLine "state->push<BlockState>();" k) in
  let k := ParserGenerator.add_lines ["BLOCKSTATE->unit = unit;"; "*POS = out_buf_start;"] k in
  let k := Kode.newLine k in
  let k := Kode.addBlock (Kode.mText inner) k in
  Kode.mText (ParserGenerator.add_lines
                ["*bytes_written = *POS - out_buf_start;";
                 "return dr::serializing::SerializeResult::DONE;"] k).

End SerializerGenerator.

(** ** The unit class of [CodeGenerator] *)

Module UnitClass.

Section UnitClass.
  Context (us : units) (options : Options).

(** [addSingleUnitField]: the member, if one is added; [is_field] is false for a variable. *)
Definition addSingleUnitField (b : item_base) (is_field : bool) : outcome (list (string * string)) :=
  if (parsing_only b && negb (store_parsing_only options))%bool then Ret []
  else
    n ← name (item_id b);
    t ← type_of_item b;
    t_text ← type_text us t;
    Ret [(unitFieldName n,
          if (is_field && negb (app_accessible b) && input_pointers options)%bool
          then "dr::unit::var_stream_range" else t_text)].

(** [visit] of the items of a unit; switches and cases pass their children on. *)
Fixpoint field_members (f : field) : outcome (list (string * string)) :=
  let fields_members := fix fields_members (l : list field) : outcome (list (string * string)) :=
    match l with
    | [] => Ret []
    | f :: l => c ← field_members f; r ← fields_members l; Ret (c ++ r)
    end in
  let cases_members := fix cases_members (l : list case) : outcome (list (string * string)) :=
    match l with
    | [] => Ret []
    | mkCase _ items _ :: l => c ← fields_members items; r ← cases_members l; Ret (c ++ r)
    end in
  match f with
  | mkField b _ k =>
      match k with
      | FAtomicType | FUnit | FCtor _ | FList _ | FVector _ _ => addSingleUnitField b true
      | FSwitch _ cases => cases_members cases
      | FConstant _ | FUnknown _ => Ret []
      end
  end.
Fixpoint unit_members (l : list item) : outcome (list (string * string)) :=
  match l with
  | [] => Ret []
  | IField f :: l => c ← field_members f; r ← unit_members l; Ret (c ++ r)
  | IVariable b _ :: l => c ← addSingleUnitField b false; r ← unit_members l; Ret (c ++ r)
  | IProperty _ _ :: l => unit_members l
  end.

End UnitClass.
End UnitClass.
