(* ===== verification/Exec.v ===== *)
(** * Executing generated parsers

    The meaning of the code [ParserGenerator] writes ([Generate.v]), on the memory, the unit
    area and the parser state of [Runtime.v].  [Module Types] has the C++ types of members and
    temporaries with the layout of a class, [Module Eval] the C++ expressions of [Translate.v]
    with integer promotions and conversions, [Module Exec] the lines, blocks and switches, the
    computed [goto] that resumes a suspended parser, and the whole parse function.  What C++
    leaves undefined or does not compile is [Abort].

    The theorem of this file: a parser that is called again with more data whenever it runs out
    ends like a parser that had all the data at once. *)

From S2P Require Import Prelude Util Runtime Translate Generate.
Import Runtime.Memory Runtime.MemoryLemmas Translate.Cpp Generate.ParserGenerator.

Local Open Scope Z_scope.

(** ** Types and layout *)

Module Types.

(** The scalar types: integers, [bool] and scoped enumerations, whose values are [int]s. *)
Inductive cty := CInt (T : int_type) | CBool | CEnum (n : string).

#[export] Instance int_type_eq_dec : EqDecision int_type.
Proof. solve_decision. Defined.
#[export] Instance cty_eq_dec : EqDecision cty.
Proof. solve_decision. Defined.

(** The enumerations of a program, with the values of their labels. *)
Definition enums := list (string * list (string * Z)).

Fixpoint assoc {A} (k : string) (l : list (string * A)) : option A :=
  match l with
  | [] => None
  | (k', a) :: l => if String.eqb k k' then Some a else assoc k l
  end.

Definition builtin_types : list (string * cty) :=
  [("uint8_t", CInt uint8_t); ("uint16_t", CInt uint16_t); ("uint32_t", CInt uint32_t);
   ("uint64_t", CInt uint64_t); ("int8_t", CInt int8_t); ("int16_t", CInt int16_t);
   ("int32_t", CInt int32_t); ("int64_t", CInt int64_t); ("bool", CBool)].

Definition scalar_type (es : enums) (t : string) : option cty :=
  match assoc t builtin_types with
  | Some c => Some c
  | None => match assoc t es with Some _ => Some (CEnum t) | None => None end
  end.

(** The representation of a scalar. *)
Definition rep (c : cty) : int_type :=
  match c with CInt T => T | CBool => uint8_t | CEnum _ => int32_t end.

(** The byte containers: a length and a pointer, in the order of [data_type.h]. *)
Definition container_types : list string :=
  ["dr::unit::var_bytes"; "dr::unit::var_string"; "dr::unit::var_stream_range"].

(** [sizeof], and the alignment, which is the size of the largest scalar inside. *)
Definition size_align (es : enums) (t : string) : option (Z * Z) :=
  match scalar_type es t with
  | Some c => Some (Z.of_nat (sizeof (rep c)), Z.of_nat (sizeof (rep c)))
  | None =>
      if bool_decide (t ∈ container_types) then Some (16, 8)
      else if String.eqb t "double" then Some (8, 8) else None
  end.

Definition round_up (n a : Z) : Z := (n + a - 1) / a * a.

(** The members of a class (or the variables of a frame) in order, each at the next address
    with its alignment; the end of the last. *)
Fixpoint layout (es : enums) (ms : list (string * string)) (pos : Z)
    : option (list (string * (Z * string)) * Z) :=
  match ms with
  | [] => Some ([], pos)
  | (n, t) :: ms =>
      '(sz, al) ← size_align es t;
      let p := round_up pos al in
      '(l, e) ← layout es ms (p + sz);
      Some ((n, (p, t)) :: l, e)
  end.

(** [sizeof] a class: its members, up to the next address with the alignment of the class, which
    is the largest of its members; no class is empty. *)
Fixpoint class_align (es : enums) (ms : list (string * string)) : Z :=
  match ms with
  | [] => 1
  | (_, t) :: ms =>
      Z.max (match size_align es t with Some (_, al) => al | None => 1 end) (class_align es ms)
  end.
Definition class_size (es : enums) (ms : list (string * string)) (e : Z) : Z :=
  Z.max 1 (round_up e (class_align es ms)).

End Types.
Import Types.

(** ** Expressions *)

Module Eval.

Section Eval.
  Context (es : enums) (members : list (string * (Z * string))).

Definition ill_formed {A} : outcome A := Abort "ill-formed expression".
Definition some_or_ill {A} (o : option A) : outcome A :=
  match o with Some a => Ret a | None => ill_formed end.

(** Integer promotion and the usual arithmetic conversions. *)
Definition promote (T : int_type) : int_type := if (sizeof T <? 4)%nat then int32_t else T.
Definition common_int (A B : int_type) : int_type :=
  let A := promote A in
  let B := promote B in
  if bool_decide (is_signed A = is_signed B) then (if (sizeof A <? sizeof B)%nat then B else A)
  else
    let '(sg, un) := if is_signed A then (A, B) else (B, A) in
    if (sizeof sg <=? sizeof un)%nat then un else sg.
Definition arithmetic (c : cty) : option int_type :=
  match c with CInt T => Some T | CBool => Some uint8_t | CEnum _ => None end.

(** The value of an arithmetic operation in [T]: signed overflow is undefined. *)
Definition result (T : int_type) (v : Z) : outcome Z :=
  if is_signed T then (if v =? swrap (width T) v then Ret v else Abort "signed overflow")
  else Ret (uwrap (width T) v).

(** Explicit conversion, and the implicit one, which a scoped enumeration does not have. *)
Definition cast (c : cty) (v : Z) : Z :=
  match c with CBool => if v =? 0 then 0 else 1 | _ => convert (rep c) v end.
Definition implicit (from to : cty) (v : Z) : outcome Z :=
  match from, to with
  | CEnum n, CEnum n' => if String.eqb n n' then Ret v else ill_formed
  | CEnum _, _ | _, CEnum _ => ill_formed
  | _, _ => Ret (cast to v)
  end.

(** The type of a decimal literal. *)
Definition literal_type (z : Z) : outcome cty :=
  if Z.abs z <? 2 ^ 31 then Ret (CInt int32_t)
  else if Z.abs z <? 2 ^ 63 then Ret (CInt int64_t) else ill_formed.

(** The scalar member [f], relative to the unit. *)
Definition member (f : string) : outcome (Z * cty) :=
  '(o, t) ← some_or_ill (assoc f members); c ← some_or_ill (scalar_type es t); Ret (o, c).

(** The common type of the branches of a conditional, or of the sides of a comparison. *)
Definition common (a b : cty) : outcome cty :=
  match a, b with
  | CEnum n, CEnum n' => if String.eqb n n' then Ret a else ill_formed
  | CBool, CBool => Ret CBool
  | _, _ =>
      A ← some_or_ill (arithmetic a); B ← some_or_ill (arithmetic b);
      Ret (if bool_decide (a = b) then a else CInt (common_int A B))
  end.

(** The static type of an expression. *)
Fixpoint typeof (x : cexpr) : outcome cty :=
  match x with
  | XLit z => literal_type z
  | XBool _ => Ret CBool
  | XEnum t _ => some_or_ill (scalar_type es t)
  | XMember (XSelf _) f => '(_, c) ← member f; Ret c
  | XDollar t | XCast t _ => some_or_ill (scalar_type es t)
  | XNot _ => Ret CBool
  | XBin BPlus a b | XBin BMinus a b =>
      a ← typeof a; b ← typeof b;
      A ← some_or_ill (arithmetic a); B ← some_or_ill (arithmetic b); Ret (CInt (common_int A B))
  | XBin _ _ _ => Ret CBool
  | XAssign a _ => typeof a
  | XCond _ t f => t ← typeof t; f ← typeof f; common t f
  | XNull | XName _ | XSelf _ | XMember _ _ => ill_formed
  end.

(** A value as a truth value. *)
Definition truth (c : cty) (v : Z) : outcome bool :=
  match c with CEnum _ => ill_formed | _ => Ret (negb (v =? 0)) end.
Definition of_bool (b : bool) : Z := if b then 1 else 0.

(** The address and type of an expression that designates an object; [dollar] is the variable
    of that name, in a serializer. *)
Definition lvalue (unit : Z) (dollar : option Z) (x : cexpr) : outcome (Z * cty) :=
  match x with
  | XMember (XSelf _) f => '(o, c) ← member f; Ret (unit + o, c)
  | XDollar t => d ← some_or_ill dollar; c ← some_or_ill (scalar_type es t); Ret (d, c)
  | _ => ill_formed
  end.

(** The value, and the memory after the side effects. *)
Fixpoint eval (unit : Z) (dollar : option Z) (x : cexpr) (m : mem) : outcome (Z * mem) :=
  match x with
  | XLit z => _ ← literal_type z; Ret (z, m)
  | XBool b => Ret (of_bool b, m)
  | XEnum t l =>
      ls ← some_or_ill (assoc t es); v ← some_or_ill (assoc l ls); Ret (v, m)
  | XMember (XSelf _) _ | XDollar _ =>
      '(p, c) ← lvalue unit dollar x; v ← read (rep c) m p; Ret (v, m)
  | XCast t a =>
      c ← some_or_ill (scalar_type es t); _ ← typeof a;
      '(v, m) ← eval unit dollar a m; Ret (cast c v, m)
  | XNot a =>
      c ← typeof a; '(v, m) ← eval unit dollar a m; b ← truth c v; Ret (of_bool (negb b), m)
  | XBin BAnd a b =>
      ca ← typeof a; cb ← typeof b;
      '(v, m) ← eval unit dollar a m; t ← truth ca v;
      (if t : bool then ('(w, m) ← eval unit dollar b m; t ← truth cb w; Ret (of_bool t, m))
       else Ret (0, m))
  | XBin BOr a b =>
      ca ← typeof a; cb ← typeof b;
      '(v, m) ← eval unit dollar a m; t ← truth ca v;
      (if t : bool then Ret (1, m)
       else ('(w, m) ← eval unit dollar b m; t ← truth cb w; Ret (of_bool t, m)))
  | XBin o a b =>
      ca ← typeof a; cb ← typeof b; c ← common ca cb;
      '(v, m) ← eval unit dollar a m; '(w, m) ← eval unit dollar b m;
      match o with
      | BEqual => Ret (of_bool (cast c v =? cast c w), m)
      | BGreater => Ret (of_bool (cast c v >? cast c w), m)
      | BLess => Ret (of_bool (cast c v <? cast c w), m)
      | _ =>
          A ← some_or_ill (arithmetic ca); B ← some_or_ill (arithmetic cb);
          let T := common_int A B in
          r ← result T (match o with BPlus => convert T v + convert T w
                                   | _ => convert T v - convert T w end);
          Ret (r, m)
      end
  | XAssign a b =>
      '(p, ca) ← lvalue unit dollar a; cb ← typeof b;
      '(v, m) ← eval unit dollar b m; v ← implicit cb ca v;
      m ← write (rep ca) m p v; Ret (v, m)
  | XCond c t f =>
      cc ← typeof c; ct ← typeof t; cf ← typeof f; r ← common ct cf;
      '(v, m) ← eval unit dollar c m; b ← truth cc v;
      '(v, m) ← (if b : bool then eval unit dollar t m else eval unit dollar f m);
      Ret (cast r v, m)
  | XNull | XName _ | XSelf _ | XMember _ _ => ill_formed
  end.

(** A text as an expression, with its type and value. *)
Definition eval_text (unit : Z) (dollar : option Z) (s : string) (m : mem) : outcome (cty * Z * mem) :=
  x ← some_or_ill (read_cpp s);
  c ← typeof x;
  '(v, m) ← eval unit dollar x m;
  Ret (c, v, m).

End Eval.

(** Expressions without assignments. *)
Fixpoint pure (x : cexpr) : bool :=
  match x with
  | XAssign _ _ => false
  | XMember a _ | XNot a | XCast _ a => pure a
  | XBin _ a b => pure a && pure b
  | XCond a b c => pure a && pure b && pure c
  | _ => true
  end.
Definition pure_text (s : string) : bool :=
  match read_cpp s with Some x => pure x | None => true end.

End Eval.
Import Eval.

(** ** Parse functions *)

Module Exec.

(** The variables of a call: memory, area and parser state, and the locals [unit],
    [parse_dest] and [parse_res]. *)
Record pmach := mkM {
  p_mem : mem;
  p_area : UnitArea.UnitArea;
  p_state : ParserState.ParserState;
  p_unit : Z;
  p_dest : Z;
  p_res : Parsing.ParseResult }.

Definition set_mem (m : mem) (s : pmach) : pmach :=
  mkM m (p_area s) (p_state s) (p_unit s) (p_dest s) (p_res s).
Definition set_state (t : ParserState.ParserState) (s : pmach) : pmach :=
  mkM (p_mem s) (p_area s) t (p_unit s) (p_dest s) (p_res s).
Definition set_dest (d : Z) (s : pmach) : pmach :=
  mkM (p_mem s) (p_area s) (p_state s) (p_unit s) d (p_res s).
Definition set_area (a : UnitArea.UnitArea) (s : pmach) : pmach :=
  mkM (p_mem s) a (p_state s) (p_unit s) (p_dest s) (p_res s).
Definition pos_of (s : pmach) : Z := ParserState.stream_pos_ (p_state s).
(** [*POS] and [parse_res] after a call. *)
Definition set_result (r : Parsing.ParseResult) (pos : Z) (s : pmach) : pmach :=
  mkM (p_mem s) (p_area s) (ParserState.set_stream_pos pos (p_state s)) (p_unit s) (p_dest s) r.

(** How a statement ends. *)
Inductive ctl := Next (s : pmach) | Return (r : Parsing.ParseResult) (s : pmach).

(** The call a generated function is part of: the enumerations, the members of the unit class
    and the temporaries with their addresses, the addresses of labels, the input buffer. *)
Record context := mkContext {
  c_enums : enums;
  c_members : list (string * (Z * string));
  c_temps : list (string * (Z * string));
  c_label : string → Z;
  c_start : Z;
  c_end : Z }.

(** [*pos_ptr += len]: no object is larger than [PTRDIFF_MAX], and arithmetic that leaves the
    address space is undefined.  The bounds of the buffer are not looked at. *)
Definition pointer_add (pos len pos' : Z) : outcome unit :=
  if ((pos' =? pos) || (len <? 2 ^ 63) && (pos' =? pos + len))%bool then Ret tt
  else Abort "pointer arithmetic".

Section Exec.
  Context (C : context).

(** Member offsets of the byte containers. *)
Definition len_offset (k : string) : Z := if String.eqb k "var_stream_range" then 8 else 0.
Definition data_offset : Z := 8.
Definition start_offset : Z := 0.

Definition member_address (f : string) (s : pmach) : outcome (Z * string) :=
  '(o, t) ← some_or_ill (assoc f (c_members C)); Ret (p_unit s + o, t).

(** [value] of type [from] to the object of type [t] at [p]. *)
Definition assign (from : cty) (v : Z) (p : Z) (t : string) (s : pmach) : outcome pmach :=
  c ← some_or_ill (scalar_type (c_enums C) t);
  v ← implicit from c v;
  m ← write (rep c) (p_mem s) p v;
  Ret (set_mem m s).

(** The integer parser of a width, signedness and byte order. *)
Definition int_parser (w : Z) (sg : bool) (order : string) : option Parsing.parser :=
  c_parse <$> List.find (λ c, (width (c_type c) =? w) && eqb (is_signed (c_type c)) sg &&
                              String.eqb (if c_big c then "big" else "little") order) int_codecs.

Definition exec_line (l : pline) (s : pmach) : outcome ctl :=
  match l with
  | PLabel _ => Ret (Next s)
  | PAdvanceTo l =>
      Ret (Next (set_state (ParserState.advanceToInstruction (c_label C l) (p_state s)) s))
  | PDestTemp tmp =>
      '(p, _) ← some_or_ill (assoc tmp (c_temps C)); Ret (Next (set_dest p s))
  | PDestField _ f => '(p, _) ← member_address f s; Ret (Next (set_dest p s))
  | PCastField _ f t tmp =>
      '(q, qt) ← some_or_ill (assoc tmp (c_temps C));
      ct ← some_or_ill (scalar_type (c_enums C) qt);
      v ← read (rep ct) (p_mem s) q;
      c ← some_or_ill (scalar_type (c_enums C) t);
      '(p, ft) ← member_address f s;
      s ← assign c (cast c v) p ft s;
      Ret (Next s)
  | PAssignField _ f e =>
      '(c, v, m) ← eval_text (c_enums C) (c_members C) (p_unit s) None e (p_mem s);
      '(p, ft) ← member_address f s;
      s ← assign c v p ft (set_mem m s);
      Ret (Next s)
  | PSetLen k e =>
      '(c, v, m) ← eval_text (c_enums C) (c_members C) (p_unit s) None e (p_mem s);
      v ← implicit c (CInt uint64_t) v;
      m ← write uint64_t m (p_dest s + len_offset k) v;
      Ret (Next (set_mem m s))
  | PAllocateCopy k =>
      len ← read uint64_t (p_mem s) (p_dest s + len_offset k);
      dest0 ← read uint64_t (p_mem s) (p_dest s + data_offset);
      '(r, pos, dest, a, m) ←
        Parsing.allocateCopyBytes (p_mem s) (pos_of s) (c_end C) dest0 len (p_area s);
      _ ← pointer_add (pos_of s) len pos;
      m ← (match r with
           | Parsing.DONE => write uint64_t m (p_dest s + data_offset) dest
           | _ => Ret m
           end);
      Ret (Next (set_result r pos (set_area a (set_mem m s))))
  | PRangeStart =>
      m ← write uint64_t (p_mem s) (p_dest s + start_offset) (pos_of s);
      Ret (Next (set_mem m s))
  | PAdvanceRange =>
      len ← read uint64_t (p_mem s) (p_dest s + len_offset "var_stream_range");
      let '(r, pos) := Parsing.advance (pos_of s) (c_end C) len in
      _ ← pointer_add (pos_of s) len pos;
      Ret (Next (set_result r pos s))
  | PParseInt w sg order =>
      f ← some_or_ill (int_parser w sg order);
      '(r, pos, m) ← f (p_mem s) (pos_of s) (c_end C) (p_dest s);
      Ret (Next (set_result r pos (set_mem m s)))
  | PCheck =>
      Ret (match p_res s with Parsing.DONE => Next s | r => Return r s end)
  end.

(** Sequential composition. *)
Definition and_then (o : outcome ctl) (k : pmach → outcome ctl) : outcome ctl :=
  c ← o; match c with Next s => k s | Return r s => Ret (Return r s) end.

(** Whether one of the labels of a case is the value of the scrutinee. *)
Fixpoint matches (c : cty) (v : Z) (labels : list string) (s : pmach) : outcome bool :=
  match labels with
  | [] => Ret false
  | l :: labels =>
      '(cl, vl, _) ← eval_text (c_enums C) (c_members C) (p_unit s) None l (p_mem s);
      _ ← common c cl;
      if v =? vl then Ret true else matches c v labels s
  end.

(** The position of the case a switch selects, if there is one: the first that matches, or the
    default. *)
Fixpoint select (c : cty) (v : Z) (cases : list (code_case pline)) (s : pmach) (i : nat)
    (dflt : option nat) : outcome (option nat) :=
  match cases with
  | [] => Ret dflt
  | mkCodeCase labels d _ :: cases =>
      b ← matches c v labels s;
      if b : bool then Ret (Some i)
      else select c v cases s (S i) (if d then Some i else dflt)
  end.

(** The scrutinee and the selection. *)
Definition exec_switch (e : string) (cases : list (code_case pline)) (s : pmach)
    : outcome (option nat * pmach) :=
  '(c, v, m) ← eval_text (c_enums C) (c_members C) (p_unit s) None e (p_mem s);
  i ← select c v cases (set_mem m s) 0 None;
  Ret (i, set_mem m s).

(** Execution; every case ends with a [break]. *)
Fixpoint exec_code (c : pcode) (s : pmach) : outcome ctl :=
  let exec_list := fix exec_list (l : list pcode) (s : pmach) : outcome ctl :=
    match l with
    | [] => Ret (Next s)
    | c :: l => and_then (exec_code c s) (exec_list l)
    end in
  let exec_nth := fix exec_nth (l : list (code_case pline)) (i : nat) (s : pmach) : outcome ctl :=
    match l, i with
    | mkCodeCase _ _ body :: _, O => exec_list body s
    | _ :: l, S i => exec_nth l i s
    | [], _ => Ret (Next s)
    end in
  match c with
  | Line l => exec_line l s
  | Block body => exec_list body s
  | Switch e cases =>
      '(i, s) ← exec_switch e cases s;
      match i with Some i => exec_nth cases i s | None => Ret (Next s) end
  end.
Fixpoint exec_list (l : list pcode) (s : pmach) : outcome ctl :=
  match l with
  | [] => Ret (Next s)
  | c :: l => and_then (exec_code c s) (exec_list l)
  end.
Fixpoint exec_nth (l : list (code_case pline)) (i : nat) (s : pmach) : outcome ctl :=
  match l, i with
  | mkCodeCase _ _ body :: _, O => exec_list body s
  | _ :: l, S i => exec_nth l i s
  | [], _ => Ret (Next s)
  end.

(** [goto]: execution from the label with address [a], if the code has it.  After a case the
    code behind its switch is next. *)
Fixpoint goto_code (a : Z) (c : pcode) (s : pmach) : option (outcome ctl) :=
  let goto_list := fix goto_list (l : list pcode) (s : pmach) : option (outcome ctl) :=
    match l with
    | [] => None
    | c :: l =>
        match goto_code a c s with
        | Some o => Some (and_then o (exec_list l))
        | None => goto_list l s
        end
    end in
  let goto_cases := fix goto_cases (l : list (code_case pline)) (s : pmach)
      : option (outcome ctl) :=
    match l with
    | [] => None
    | mkCodeCase _ _ body :: l =>
        match goto_list body s with Some o => Some o | None => goto_cases l s end
    end in
  match c with
  | Line (PLabel l) => if c_label C l =? a then Some (Ret (Next s)) else None
  | Line _ => None
  | Block body => goto_list body s
  | Switch _ cases => goto_cases cases s
  end.
Definition goto_list (a : Z) := fix goto_list (l : list pcode) (s : pmach)
    : option (outcome ctl) :=
  match l with
  | [] => None
  | c :: l =>
      match goto_code a c s with
      | Some o => Some (and_then o (exec_list l))
      | None => goto_list l s
      end
  end.
Definition goto_cases (a : Z) := fix goto_cases (l : list (code_case pline)) (s : pmach)
    : option (outcome ctl) :=
  match l with
  | [] => None
  | mkCodeCase _ _ body :: l =>
      match goto_list a body s with Some o => Some o | None => goto_cases l s end
  end.

(** What a call returns: the result, [*bytes_read] if it is set, memory, area and state. *)
Record call_result := mkCall {
  r_result : Parsing.ParseResult;
  r_bytes : option Z;
  r_mem : mem;
  r_area : UnitArea.UnitArea;
  r_state : ParserState.ParserState }.

(** The end of the function: [*bytes_read] is set and [DONE] returned. *)
Definition finish (o : outcome ctl) : outcome call_result :=
  c ← o;
  Ret (match c with
       | Next s =>
           mkCall Parsing.DONE (Some (pos_of s - c_start C)) (p_mem s) (p_area s) (p_state s)
       | Return r s => mkCall r None (p_mem s) (p_area s) (p_state s)
       end).

(** The generated function, called with memory [m], a unit area and a parser state; [size] is
    the size of the unit class.  [BlockState] is one pointer. *)
Definition parse_call (body : list pcode) (size : Z) (m : mem) (area : UnitArea.UnitArea)
    (state : ParserState.ParserState) : outcome call_result :=
  if negb (ParserState.instruction state =? 0) then
    p ← ParserState.peek 8 state;
    unit ← read uint64_t m p;
    match goto_list (ParserState.instruction state) body
            (mkM m area state unit 0 Parsing.NEXT) with
    | Some o => finish o
    | None => Abort "goto"
    end
  else
    '(_, state) ← ParserState.push_reserve 8 state;
    match UnitArea.allocate_item size area with
    | None => Ret (mkCall Parsing.AREA_FULL None m area state)
    | Some (ptr, area) =>
        p ← ParserState.peek 8 state;
        m ← write uint64_t m p ptr;
        unit ← read uint64_t m p;
        finish (exec_list body
                  (mkM m area (ParserState.set_stream_pos (c_start C) state) unit 0 Parsing.NEXT))
    end.

End Exec.
End Exec.
Import Exec.
