(* ===== verification/Resume.v ===== *)
(** * Suspended parsers

    A parser that runs out of data returns and is called again with more ([OUT_OF_DATA], the
    incremental runs of [perfeval/memcached_evaluator.cpp]).  This file shows that the
    instructions the generator writes can be interrupted: execution of generated code does not
    depend on what the locals of the call hold ([sim]), an instruction that ran out of data can
    be repeated ([atomic_again]), and so a resumed call ends like a call with all the data. *)

From S2P Require Import Prelude Util Runtime Translate Generate Exec.
Import Runtime.Memory Runtime.MemoryLemmas Translate.Cpp Generate.ParserGenerator.
Import Exec.Types Exec.Eval Exec.Exec.

Local Open Scope Z_scope.

(** ** Related outcomes *)

Definition orel {A B} (R : A → B → Prop) (x : outcome A) (y : outcome B) : Prop :=
  match x, y with
  | Ret a, Ret b => R a b
  | Throw e, Throw e' => e = e'
  | Abort w, Abort w' => w = w'
  | NoFuel, NoFuel => True
  | _, _ => False
  end.

Lemma orel_bind {A B A' B'} (R : A → B → Prop) (S : A' → B' → Prop) x y f g :
  orel R x y → (∀ a b, R a b → orel S (f a) (g b)) → orel S (x ≫= f) (y ≫= g).
Proof. destruct x, y; cbn; try done; auto; by intros ->. Qed.

Lemma orel_refl {A} (R : A → A → Prop) x : (∀ a, R a a) → orel R x x.
Proof. destruct x; cbn; auto. Qed.

Lemma orel_same {A} (x : outcome A) : orel eq x x.
Proof. by apply orel_refl. Qed.

Lemma orel_trans {A} (R : A → A → Prop) x y z :
  (∀ a b c, R a b → R b c → R a c) → orel R x y → orel R y z → orel R x z.
Proof. destruct x, y, z; cbn; naive_solver congruence. Qed.

(** ** Memories that agree outside a set of addresses *)

Definition agree (F : Z → Prop) (m m' : mem) : Prop :=
  (∀ a, ¬ F a → m !! a = m' !! a) ∧ (∀ a, is_Some (m !! a) ↔ is_Some (m' !! a)).

Definition apart (F : Z → Prop) (p n : Z) : Prop := ∀ a, p ≤ a < p + n → ¬ F a.

Lemma apart_sub F p n o k : apart F p n → 0 ≤ o → o + k ≤ n → apart F (p + o) k.
Proof. intros H ? ? a Ha. apply H. lia. Qed.

Lemma agree_refl F m : agree F m m.
Proof. by split. Qed.

Lemma agree_sym F m m' : agree F m m' → agree F m' m.
Proof. intros [H1 H2]. split; intros; [symmetry; auto|]. by rewrite H2. Qed.

Lemma agree_trans F m m' m'' : agree F m m' → agree F m' m'' → agree F m m''.
Proof.
  intros [H1 H2] [H3 H4]. split; intros; [by rewrite H1, H3|]. by rewrite H2, H4.
Qed.

Lemma load_agree F n m m' p :
  agree F m m' → apart F p (Z.of_nat n) → load_bytes n m p = load_bytes n m' p.
Proof. intros [H _] Ha. apply load_ext. intros a Hr. apply H, Ha. lia. Qed.

Lemma store_agree F bs m m' p :
  agree F m m' →
  match store_bytes bs m p, store_bytes bs m' p with
  | Some x, Some y => agree F x y
  | None, None => True
  | _, _ => False
  end.
Proof.
  revert m m' p. induction bs as [|b bs IH]; intros m m' p H; [done|]. cbn [store_bytes].
  destruct H as [H1 H2].
  destruct (m !! p) as [x|] eqn:E, (m' !! p) as [y|] eqn:E'; cbn [mbind option_bind]; try done.
  - apply IH. split; intros a.
    + intros Ha. destruct (decide (p = a)) as [->|]; [by rewrite !lookup_insert_eq|].
      rewrite !lookup_insert_ne by done. auto.
    + destruct (decide (p = a)) as [->|]; [by rewrite !lookup_insert_eq|].
      rewrite !lookup_insert_ne by done. apply H2.
  - destruct (proj1 (H2 p)); [by eexists|]. congruence.
  - destruct (proj2 (H2 p)); [by eexists|]. congruence.
Qed.

Lemma access_store F bs m m' p :
  agree F m m' → orel (agree F) (access (store_bytes bs m p)) (access (store_bytes bs m' p)).
Proof.
  intros H. pose proof (store_agree F bs m m' p H) as Hs.
  by destruct (store_bytes bs m p), (store_bytes bs m' p).
Qed.

Lemma access_load F n m m' p :
  agree F m m' → apart F p (Z.of_nat n) →
  access (load_bytes n m p) = access (load_bytes n m' p).
Proof. intros. by erewrite load_agree. Qed.

Lemma read_agree F T m m' p :
  agree F m m' → apart F p (Z.of_nat (sizeof T)) → read T m p = read T m' p.
Proof. intros. unfold read. by erewrite access_load. Qed.

Lemma write_agree F T m m' p v :
  agree F m m' → orel (agree F) (write T m p v) (write T m' p v).
Proof. apply access_store. Qed.

Lemma store_same bs m p : load_bytes (length bs) m p = Some bs → store_bytes bs m p = Some m.
Proof.
  revert m p. induction bs as [|b bs IH]; intros m p; [done|]. cbn.
  destruct (m !! p) as [x|] eqn:E; [|done]. cbn.
  destruct (load_bytes (length bs) m (p + 1)) as [l|] eqn:El; [|done]. cbn.
  intros [= -> ->]. rewrite insert_id by done. by apply IH.
Qed.

Lemma write_load T m m1 p v :
  write T m p v = Ret m1 →
  load_bytes (sizeof T) m1 p = Some (le_encode (sizeof T) (uwrap (width T) v)) ∧
  agree (λ a, p ≤ a < p + Z.of_nat (sizeof T)) m m1.
Proof.
  unfold write. destruct (store_bytes _ m p) as [x|] eqn:E; [|done]. intros [= <-].
  pose proof (load_store _ _ _ _ E) as Hl. rewrite length_le_encode in Hl.
  split; [done|]. split.
  - intros a Ha. symmetry. apply (store_frame _ _ _ _ _ E). rewrite length_le_encode.
    unfold outside. lia.
  - intros a. symmetry. by apply (store_dom _ _ _ _ E).
Qed.

Lemma write_again T m p v :
  load_bytes (sizeof T) m p = Some (le_encode (sizeof T) (uwrap (width T) v)) →
  write T m p v = Ret m.
Proof.
  intros H. unfold write. rewrite store_same; [done|]. by rewrite length_le_encode.
Qed.

(** ** Expressions read scalar members only *)

Section EvalAgree.
  Context (es : enums) (members : list (string * (Z * string))) (F : Z → Prop) (u : Z).
  Context (Hapart : ∀ f o c, member es members f = Ret (o, c) →
             apart F (u + o) (Z.of_nat (sizeof (rep c)))).

Definition same_value {A} (x y : A * mem) : Prop := x.1 = y.1 ∧ agree F x.2 y.2.

Lemma lvalue_apart x p c :
  lvalue es members u None x = Ret (p, c) → apart F p (Z.of_nat (sizeof (rep c))).
Proof using Hapart.
  destruct x as [| | | | | | |a f| | | | |]; try done. destruct a; try done. cbn.
  destruct (member es members f) as [[o c']| | |] eqn:E; try done. cbn. intros [= <- <-]. eauto.
Qed.

Ltac steps :=
  repeat first
    [ done
    | match goal with
      | |- orel _ (mbind _ ?x) (mbind _ ?x) =>
          apply (orel_bind eq); [apply orel_same|intros ? ? <-]
      | |- orel _ (mbind _ (eval _ _ _ _ ?a _)) (mbind _ (eval _ _ _ _ ?a _)) =>
          eapply (orel_bind same_value); [by eauto|intros [? ?] [? ?] [? ?]; simpl in *; subst]
      | |- orel _ (if ?b then _ else _) (if ?b then _ else _) => destruct b
      | |- context [let '(_, _) := ?p in _] => is_var p; destruct p
      end ].

Lemma eval_agree x m m' :
  agree F m m' → orel same_value (eval es members u None x m) (eval es members u None x m').
Proof using Hapart.
  assert (Hload : ∀ x m m', agree F m m' → orel same_value
    ('(p, c) ← lvalue es members u None x; v ← read (rep c) m p; Ret (v, m))
    ('(p, c) ← lvalue es members u None x; v ← read (rep c) m' p; Ret (v, m'))).
  { clear x m m'. intros x m m' H.
    destruct (lvalue es members u None x) as [[p c]| | |] eqn:E; try done. cbn.
    rewrite (read_agree F _ m m') by eauto using lvalue_apart. by destruct (read _ m' p). }
  revert m m'. induction x as [z|b| |n|t l|t|t|a IH f|a IH|o a IHa b IHb|t a IH|a IHa b IHb|c IHc t IHt f IHf];
    intros m m' H.
  - cbn [eval]. by steps.
  - done.
  - done.
  - done.
  - cbn [eval]. by steps.
  - done.
  - by apply Hload.
  - destruct a; try done. by apply Hload.
  - cbn [eval]. by steps.
  - destruct o; cbn [eval]; by steps.
  - cbn [eval]. by steps.
  - cbn [eval]. steps. eapply orel_bind; [by apply write_agree|]. by intros.
  - cbn [eval]. steps.
    match goal with |- orel _ (mbind _ (if ?b then _ else _)) _ => destruct b end.
    all: eapply (orel_bind same_value); [by eauto|]; intros [? ?] [? ?] [? ?]; simpl in *; by subst.
Qed.

Lemma eval_text_agree s m m' :
  agree F m m' →
  orel same_value (eval_text es members u None s m) (eval_text es members u None s m').
Proof using Hapart.
  intros H. unfold eval_text. steps.
  eapply (orel_bind same_value); [by apply eval_agree|]. intros [? ?] [? ?] [? ?]; simpl in *.
  by subst.
Qed.

End EvalAgree.

(** [destruct_binds H] takes [H : m ≫= f = Ret r] apart. *)
Ltac destruct_binds H :=
  repeat match type of H with
  | mbind _ ?m = Ret _ =>
      let E := fresh "E" in destruct m as [?| | |] eqn:E; try done; cbn [mbind outcome_bind] in H
  | (let '(_, _) := ?p in _) = Ret _ => destruct p
  | (if ?b then _ else _) = Ret _ => destruct b
  end.

Lemma eval_pure es members u d x m v m' :
  pure x = true → eval es members u d x m = Ret (v, m') → m' = m.
Proof.
  revert m v m'. induction x as [z|b| |n|t l|t|t|a IH f|a IH|o a IHa b IHb|t a IH|a IHa b IHb|c IHc t IHt f IHf];
    intros m v m' Hp H; cbn [pure] in Hp; bool_to_prop; try done.
  - cbn [eval] in H. destruct_binds H. by simplify_eq.
  - cbn [eval] in H. by simplify_eq.
  - cbn [eval] in H. destruct_binds H. by simplify_eq.
  - cbn [eval] in H. destruct_binds H. by simplify_eq.
  - destruct a; try done. cbn [eval] in H. destruct_binds H. by simplify_eq.
  - cbn [eval] in H. destruct_binds H. simplify_eq. eauto.
  - destruct o; cbn [eval] in H; destruct_binds H; simplify_eq;
      repeat match goal with
      | E : eval _ _ _ _ a _ = Ret _ |- _ => apply IHa in E; [subst|done]
      | E : eval _ _ _ _ b _ = Ret _ |- _ => apply IHb in E; [subst|done]
      end; done.
  - cbn [eval] in H. destruct_binds H. simplify_eq. eauto.
  - cbn [eval] in H. destruct_binds H. simplify_eq.
    match goal with E : (if ?b then _ else _) = Ret _ |- _ => destruct b end;
    repeat match goal with
    | E : eval _ _ _ _ c _ = Ret _ |- _ => apply IHc in E; [subst|done]
    | E : eval _ _ _ _ t _ = Ret _ |- _ => apply IHt in E; [subst|done]
    | E : eval _ _ _ _ f _ = Ret _ |- _ => apply IHf in E; [subst|done]
    end; done.
Qed.

Lemma eval_text_pure es members u d s m c v m' :
  pure_text s = true → eval_text es members u d s m = Ret (c, v, m') → m' = m.
Proof.
  unfold pure_text, eval_text. destruct (read_cpp s) as [x|]; [|done]. intros Hp H. cbn in H.
  destruct_binds H. simplify_eq. by eapply eval_pure.
Qed.

(** ** The shape of generated instructions *)

Section Shape.
  Context (C : context).

(** A member that is a byte container. *)
Definition container (f : string) : Prop :=
  ∀ o t, assoc f (c_members C) = Some (o, t) → t ∈ container_types.
(** A member with room for an integer of [w] bits, and a temporary of that width. *)
Definition int_fits (f : string) (w : Z) : Prop :=
  ∀ o t, assoc f (c_members C) = Some (o, t) →
    ∃ sz al, size_align (c_enums C) t = Some (sz, al) ∧ w ≤ 8 * sz.
Definition temp_fits (tmp : string) (w : Z) : Prop :=
  ∀ q t, assoc tmp (c_temps C) = Some (q, t) →
    ∃ c, scalar_type (c_enums C) t = Some c ∧ width (rep c) = w.

(** The instructions of items other than switches. *)
Inductive atomic : list pcode → Prop :=
  | at_none : atomic []
  | at_assign cu f e : atomic [Line (PAssignField cu f e)]
  | at_dest cu f : atomic [Line (PDestField cu f)]
  | at_int cu f w sg o :
      int_fits f w →
      atomic [Line (PDestField cu f); Line (PParseInt w sg o); Line PCheck]
  | at_bytes cu f k e :
      len_offset k = 0 → container f → pure_text e = true →
      atomic [Line (PDestField cu f); Line (PSetLen k e); Line (PAllocateCopy k); Line PCheck]
  | at_range cu f e :
      container f → pure_text e = true →
      atomic [Line (PDestField cu f); Line (PSetLen "var_stream_range" e); Line PRangeStart;
              Line PAdvanceRange; Line PCheck]
  | at_temp tmp w sg o cu f t :
      temp_fits tmp w →
      atomic [Line (PDestTemp tmp); Line (PParseInt w sg o); Line PCheck;
              Line (PCastField cu f t tmp)].

(** Instructions, and lists of them. *)
Inductive instr : pcode → Prop :=
  | instr_atomic l b :
      atomic b → instr (Block (Line (PLabel l) :: Line (PAdvanceTo l) :: b))
  | instr_switch l e cases :
      case_instrs cases →
      instr (Block [Line (PLabel l); Line (PAdvanceTo l); Switch e cases])
with case_instrs : list (code_case pline) → Prop :=
  | case_instrs_nil : case_instrs []
  | case_instrs_cons labels d body cases :
      instrs body → case_instrs cases → case_instrs (mkCodeCase labels d body :: cases)
with instrs : list pcode → Prop :=
  | instrs_nil : instrs []
  | instrs_cons c l : instr c → instrs l → instrs (c :: l).

End Shape.

Scheme instr_mind := Minimality for instr Sort Prop
  with case_instrs_mind := Minimality for case_instrs Sort Prop
  with instrs_mind := Minimality for instrs Sort Prop.
Combined Scheme instr_mutind from instr_mind, case_instrs_mind, instrs_mind.

(** The labels of a piece of code. *)
Fixpoint labels_of (c : pcode) : list string :=
  match c with
  | Line (PLabel l) => [l]
  | Line _ => []
  | Block body => concat (map labels_of body)
  | Switch _ cases => concat (map case_labels cases)
  end
with case_labels (c : code_case pline) : list string :=
  match c with mkCodeCase _ _ body => concat (map labels_of body) end.
Definition labels_list (l : list pcode) : list string := concat (map labels_of l).
Definition labels_cases (l : list (code_case pline)) : list string := concat (map case_labels l).

(** The call with another end of the input. *)
Definition with_end (e : Z) (C : context) : context :=
  mkContext (c_enums C) (c_members C) (c_temps C) (c_label C) (c_start C) e.

(** What a call relies on: [F] are the addresses of its locals, [u] that of the unit. *)
Record call_ok (C : context) (F : Z → Prop) (u : Z) : Prop := {
  ok_enums t : t ∈ container_types → assoc t (c_enums C) = None;
  ok_members f o t sz al :
    assoc f (c_members C) = Some (o, t) → size_align (c_enums C) t = Some (sz, al) →
    apart F (u + o) sz;
  ok_disjoint f o t sz al f' o' t' sz' al' :
    f ≠ f' →
    assoc f (c_members C) = Some (o, t) → size_align (c_enums C) t = Some (sz, al) →
    assoc f' (c_members C) = Some (o', t') → size_align (c_enums C) t' = Some (sz', al') →
    o + sz ≤ o' ∨ o' + sz' ≤ o;
  ok_input : apart F (c_start C) (c_end C - c_start C);
  ok_size : c_end C - c_start C < 2 ^ 63 }.

(** States that differ in locals only. *)
Definition sim (F : Z → Prop) (s s' : pmach) : Prop :=
  agree F (p_mem s) (p_mem s') ∧ p_area s = p_area s' ∧ p_state s = p_state s' ∧
  p_unit s = p_unit s'.
Definition crel (F : Z → Prop) (c c' : ctl) : Prop :=
  match c, c' with
  | Next s, Next s' => sim F s s'
  | Return r s, Return r' s' => r = r' ∧ sim F s s'
  | _, _ => False
  end.

(** The position is in the buffer, and the area below half of the address space. *)
Definition area_small (a : UnitArea.UnitArea) : Prop :=
  UnitAreaLemmas.area_wf a ∧ UnitArea.size_ a < 2 ^ 63.
Definition good (C : context) (s : pmach) : Prop :=
  c_start C ≤ pos_of s ≤ c_end C ∧ area_small (p_area s).

Section CallLemmas.
  Context (C : context) (F : Z → Prop) (u : Z) (Hok : call_ok C F u).

Lemma member_scalar f o c :
  member (c_enums C) (c_members C) f = Ret (o, c) →
  ∃ t, assoc f (c_members C) = Some (o, t) ∧ scalar_type (c_enums C) t = Some c ∧
       size_align (c_enums C) t = Some (Z.of_nat (sizeof (rep c)), Z.of_nat (sizeof (rep c))).
Proof using Type.
  unfold member. destruct (assoc f (c_members C)) as [[o' t]|]; [|done]. cbn.
  destruct (scalar_type (c_enums C) t) as [c'|] eqn:E; [|done]. intros [= <- <-].
  exists t. unfold size_align. by rewrite E.
Qed.

Lemma member_apart f o c :
  member (c_enums C) (c_members C) f = Ret (o, c) → apart F (u + o) (Z.of_nat (sizeof (rep c))).
Proof using Hok. intros (t & H1 & _ & H2)%member_scalar. by eapply (ok_members _ _ _ Hok). Qed.

Lemma container_scalar t : t ∈ container_types → scalar_type (c_enums C) t = None.
Proof using Hok.
  intros Ht. unfold scalar_type. rewrite (ok_enums _ _ _ Hok t Ht).
  by repeat (apply elem_of_cons in Ht as [->|Ht]; [done|]); apply elem_of_nil in Ht.
Qed.

Lemma container_size t : t ∈ container_types → size_align (c_enums C) t = Some (16, 8).
Proof using Hok.
  intros Ht. unfold size_align. rewrite container_scalar by done.
  by rewrite bool_decide_eq_true_2.
Qed.

(** The slot of a container member is apart from the scalar members. *)
Lemma container_apart f o t f' o' c' :
  assoc f (c_members C) = Some (o, t) → t ∈ container_types →
  member (c_enums C) (c_members C) f' = Ret (o', c') →
  apart (λ a, u + o ≤ a < u + o + 16) (u + o') (Z.of_nat (sizeof (rep c'))).
Proof using Hok.
  intros Hf Ht (t' & Hf' & Hs & Hz)%member_scalar a Ha.
  assert (f ≠ f') as Hne.
  { intros ->. rewrite Hf in Hf'. injection Hf' as -> ->.
    by rewrite container_scalar in Hs by done. }
  destruct (ok_disjoint _ _ _ Hok _ _ _ _ _ _ _ _ _ _ Hne Hf (container_size t Ht) Hf' Hz); lia.
Qed.


End CallLemmas.

(** ** The primitives under a change of locals and of the end of the input *)

Section Primitives.
  Context (F : Z → Prop).

Lemma int_parser_spec w sg o f :
  int_parser w sg o = Some f →
  ∃ n order, IntParser n order f ∧ ByteOrder order ∧ 8 * Z.of_nat n = w.
Proof using Type.
  unfold int_parser. destruct (List.find _ _) as [c|] eqn:E; [|done]. intros [= <-].
  apply List.find_some in E as [Hin Ht]. apply list_elem_of_In in Hin.
  destruct (int_codecs_ok c Hin) as [Hp _]. exists (sizeof (c_type c)), (c_order c).
  split_and!; [done|apply _|]. bool_to_prop. done.
Qed.

Lemma parse_agree n order f m m' pos e d :
  IntParser n order f → ByteOrder order → agree F m m' → buffer pos e → apart F pos (e - pos) →
  orel (λ x y, x.1 = y.1 ∧ agree F x.2 y.2 ∧
               (x.1.1 = Parsing.DONE → load_bytes n x.2 d = load_bytes n y.2 d))
    (f m pos e d) (f m' pos e d).
Proof using Type.
  intros Hf Ho Hm Hb Ha. rewrite (Hf m), (Hf m'). rewrite short_of_spec by done.
  destruct (Z.ltb_spec (e - pos) (Z.of_nat n)) as [Hs|Hs]; [done|].
  rewrite (access_load F n m m') by (try done; intros a ?; apply Ha; lia).
  destruct (load_bytes n m' pos) as [bs|] eqn:El; [|done]. cbn [access mbind outcome_bind].
  pose proof (store_agree F (order bs) m m' d Hm) as Hst.
  destruct (store_bytes (order bs) m d) as [x|] eqn:E1, (store_bytes (order bs) m' d) as [y|] eqn:E2;
    try done. cbn.
  split_and!; [done|done|]. intros _.
  assert (length (order bs) = n) as <- by (rewrite order_length; by eapply length_load).
  by rewrite (load_store _ _ _ _ E1), (load_store _ _ _ _ E2).
Qed.

Lemma parse_cases n order f m pos e d r p m' :
  IntParser n order f → buffer pos e → f m pos e d = Ret (r, p, m') →
  (r = Parsing.OUT_OF_DATA ∧ p = pos ∧ m' = m) ∨
  (r = Parsing.DONE ∧ p = pos + Z.of_nat n ∧ p ≤ e ∧
   ∀ e', buffer pos e' → e ≤ e' → f m pos e' d = Ret (r, p, m')).
Proof using Type.
  intros Hf Hb. rewrite (Hf m). rewrite short_of_spec by done.
  destruct (Z.ltb_spec (e - pos) (Z.of_nat n)) as [Hs|Hs]; [intros [= <- <- <-]; auto|].
  intros H. right. destruct_binds H. simplify_eq.
  split_and!; [done|done|lia|]. intros e' Hb' He. rewrite (Hf m). rewrite short_of_spec by done.
  destruct (Z.ltb_spec (e' - pos) (Z.of_nat n)); [lia|].
  rewrite E. cbn [mbind outcome_bind]. by rewrite E0.
Qed.

(** A length that is not too long for what is left and fits into the area. *)
Lemma alloc_cases m pos e d0 len a r p d a' m' :
  0 ≤ len < 2 ^ 64 → buffer pos e → area_small a →
  Parsing.allocateCopyBytes m pos e d0 len a = Ret (r, p, d, a', m') →
  (r = Parsing.OUT_OF_DATA ∧ p = pos ∧ a' = a ∧ m' = m) ∨
  (r = Parsing.AREA_FULL ∧ p = pos ∧ a' = a ∧ m' = m) ∨
  (r = Parsing.DONE ∧ area_small a' ∧
   ∀ e', buffer pos e' → e ≤ e' →
     Parsing.allocateCopyBytes m pos e' d0 len a = Ret (r, p, d, a', m')).
Proof using Type.
  intros Hlen Hb [Hw Hsz]. unfold Parsing.allocateCopyBytes.
  destruct (Parsing.short_of_len len pos e) eqn:Es; [intros; simplify_eq; auto|].
  destruct (UnitArea.allocate len a) as [[q b]|] eqn:Ea; [|intros; simplify_eq; right; left; auto].
  intros H. destruct_binds H. simplify_eq. right; right.
  destruct (UnitAreaLemmas.allocate_wf len a d a' ltac:(lia) Hw Ea) as (Hw' & _ & Hs' & _).
  split_and!; [done|split; [done|lia]|]. intros e' Hb' He.
  assert (Parsing.short_of_len len pos e' = false) as ->; [|done].
  unfold buffer, Parsing.short_of_len in *. apply Z.ltb_ge in Es. apply Z.ltb_ge.
  rewrite (swrap_small 64 (e - pos)) in Es by lia. rewrite (swrap_small 64 (e' - pos)) by lia. lia.
Qed.

(** The checks of the primitives keep the position in the buffer. *)
Lemma pointer_add_in pos len p e r :
  0 ≤ len → buffer pos e → Parsing.short_of_len len pos e = false → pointer_add pos len p = Ret r → pos ≤ p ≤ e.
Proof using Type.
  unfold pointer_add. intros Hl Hb Hs H. destruct (Z.eqb_spec p pos) as [->|]; [unfold buffer in Hb; lia|].
  destruct (Z.ltb_spec len (2 ^ 63)); [|done]. destruct (Z.eqb_spec p (pos + len)) as [->|]; [|done].
  rewrite BytesLemmas.short_of_len_spec in Hs by done. apply Z.ltb_ge in Hs. unfold buffer in Hb. lia.
Qed.
Lemma advance_in pos len e r p r' :
  0 ≤ len → buffer pos e → Parsing.advance pos e len = (r, p) → pointer_add pos len p = Ret r' → pos ≤ p ≤ e.
Proof using Type.
  unfold Parsing.advance. intros Hl Hb. destruct (Parsing.short_of_len len pos e) eqn:Es.
  - intros [= <- <-] _. unfold buffer in Hb. lia.
  - intros [= <- <-]. by apply pointer_add_in.
Qed.
Lemma alloc_in m pos e d0 len a r p d a' m' r' :
  0 ≤ len → buffer pos e → Parsing.allocateCopyBytes m pos e d0 len a = Ret (r, p, d, a', m') →
  pointer_add pos len p = Ret r' → pos ≤ p ≤ e.
Proof using Type.
  unfold Parsing.allocateCopyBytes. intros Hl Hb. destruct (Parsing.short_of_len len pos e) eqn:Es.
  - intros [= <- <- <- <- <-] _. unfold buffer in Hb. lia.
  - destruct (UnitArea.allocate len a) as [[q b]|]; [|intros [= <- <- <- <- <-] _; unfold buffer in Hb; lia].
    intros H. destruct_binds H. simplify_eq. by apply pointer_add_in.
Qed.

Lemma alloc_agree m m' pos e d0 len a :
  0 ≤ len < 2 ^ 64 → buffer pos e → area_small a → agree F m m' → apart F pos (e - pos) →
  orel (λ x y, x.1 = y.1 ∧ agree F x.2 y.2)
    (Parsing.allocateCopyBytes m pos e d0 len a) (Parsing.allocateCopyBytes m' pos e d0 len a).
Proof using Type.
  intros Hlen Hb [Hw Hsz] Hm Ha. unfold Parsing.allocateCopyBytes.
  destruct (Parsing.short_of_len len pos e) eqn:Es; [done|].
  destruct (UnitArea.allocate len a) as [[q b]|] eqn:Ea; [|done].
  assert (len ≤ UnitArea.size_ a) as Hl.
  { unfold UnitArea.allocate in Ea. rewrite UnitAreaLemmas.area_space_wf in Ea by done.
    unfold UnitAreaLemmas.area_wf in Hw. case_bool; [done|]. bool_to_prop. lia. }
  rewrite BytesLemmas.short_of_len_spec in Es by (done || lia). apply Z.ltb_ge in Es.
  assert (orel (agree F) (memcpy m q pos len) (memcpy m' q pos len)) as Hc.
  { unfold memcpy. destruct (len =? 0); [done|]. case_bool; [done|].
    rewrite (access_load F _ m m') by (try done; intros x ?; apply Ha; lia).
    apply (orel_bind eq); [apply orel_same|]. intros ? ? <-. by apply access_store. }
  eapply orel_bind; [exact Hc|]. by intros x y Hxy.
Qed.

End Primitives.

(** ** Instructions do not depend on locals *)

Section AtomicSim.
  Context (C : context) (F : Z → Prop) (u : Z) (Hok : call_ok C F u).

Lemma text_agree s m m' :
  agree F m m' →
  orel (same_value F) (eval_text (c_enums C) (c_members C) u None s m)
                      (eval_text (c_enums C) (c_members C) u None s m').
Proof using Hok. apply eval_text_agree. intros f o c. by apply member_apart. Qed.

Lemma implicit_rel from c v : orel eq (implicit from c v) (implicit from c v).
Proof using Type. apply orel_same. Qed.

Lemma assign_rel from v p t s s' :
  sim F s s' → orel (sim F) (assign C from v p t s) (assign C from v p t s').
Proof using Type.
  intros (Hm & Ha & Hs & Hu). unfold assign.
  apply (orel_bind eq); [apply orel_same|intros ? ? <-].
  apply (orel_bind eq); [apply orel_same|intros ? ? <-].
  eapply orel_bind; [by apply write_agree|]. intros m m' Hmm. by split_and!.
Qed.

Lemma read_uint64_range m p v : read uint64_t m p = Ret v → 0 ≤ v < 2 ^ 64.
Proof using Type.
  unfold read. intros H. destruct_binds H. simplify_eq. apply uwrap_range. lia.
Qed.

(** The input that is left is apart from the locals. *)
Lemma rest_apart s : good C s → apart F (pos_of s) (c_end C - pos_of s) ∧ buffer (pos_of s) (c_end C).
Proof using Hok.
  intros [Hp _]. pose proof (ok_size _ _ _ Hok). split; [|unfold buffer; lia].
  intros a Ha. apply (ok_input _ _ _ Hok). lia.
Qed.

(** The relation on what remains after [parse_dest] is set. *)
Lemma check_rel r s s' :
  sim F s s' → p_res s = r → p_res s' = r → orel (crel F) (exec_line C PCheck s) (exec_line C PCheck s').
Proof using Type. intros H E E'. cbn. rewrite E, E'. by destruct r. Qed.

Lemma container_slot f o :
  container C f → (∃ t, assoc f (c_members C) = Some (o, t)) → apart F (u + o) 16.
Proof using Hok.
  intros Hc [t Ht]. eapply (ok_members _ _ _ Hok); [done|].
  by apply (container_size C F u Hok), (Hc _ _ Ht).
Qed.

Lemma int_sim m m' a st d r r' dest w sg o k :
  agree F m m' → good C (mkM m a st u d r) →
  (∀ f n m1 m1' p, int_parser w sg o = Some f → 8 * Z.of_nat n = w → agree F m1 m1' →
     load_bytes n m1 dest = load_bytes n m1' dest →
     orel (crel F) (exec_list C k (mkM m1 a (ParserState.set_stream_pos p st) u dest Parsing.DONE))
                   (exec_list C k (mkM m1' a (ParserState.set_stream_pos p st) u dest Parsing.DONE))) →
  orel (crel F)
    (exec_list C (Line (PParseInt w sg o) :: Line PCheck :: k) (mkM m a st u dest r))
    (exec_list C (Line (PParseInt w sg o) :: Line PCheck :: k) (mkM m' a st u dest r')).
Proof using Hok.
  intros Hm Hg Hk. destruct (rest_apart _ Hg) as [Ha Hb]. cbn [exec_list exec_code exec_line].
  destruct (int_parser w sg o) as [f|] eqn:Ef; [|done].
  destruct (int_parser_spec _ _ _ _ Ef) as (n & order & Hf & Ho & Hn).
  pose proof (parse_agree F n order f m m' _ _ dest Hf Ho Hm Hb Ha) as H.
  cbn [some_or_ill mbind outcome_bind p_mem p_dest]. unfold pos_of in *. cbn [p_state] in *.
  destruct (f m _ _ dest) as [[[r1 p1] m1]| | |], (f m' _ _ dest) as [[[r1' p1'] m1']| | |]; try done;
    cbn [orel fst snd] in H; [|by subst..]. destruct H as ([= <- <-] & Hm1 & Hl).
  destruct r1; try done. cbn. by eapply Hk; eauto.
Qed.

Lemma dest_field_run cu f k s :
  exec_list C (Line (PDestField cu f) :: k) s =
  match assoc f (c_members C) with
  | Some (o, _) => exec_list C k (set_dest (p_unit s + o) s)
  | None => ill_formed
  end.
Proof using Type.
  cbn [exec_list exec_code exec_line]. unfold member_address.
  by destruct (assoc f (c_members C)) as [[o t]|].
Qed.

Lemma dest_temp_run tmp k s :
  exec_list C (Line (PDestTemp tmp) :: k) s =
  match assoc tmp (c_temps C) with
  | Some (q, _) => exec_list C k (set_dest q s)
  | None => ill_formed
  end.
Proof using Type.
  cbn [exec_list exec_code exec_line]. by destruct (assoc tmp (c_temps C)) as [[q t]|].
Qed.

Lemma bytes_sim m m' a st r r' dest kd e :
  agree F m m' → good C (mkM m a st u 0 r) → apart F dest 16 → 0 ≤ len_offset kd ≤ 8 →
  orel (crel F)
    (exec_list C [Line (PSetLen kd e); Line (PAllocateCopy kd); Line PCheck] (mkM m a st u dest r))
    (exec_list C [Line (PSetLen kd e); Line (PAllocateCopy kd); Line PCheck] (mkM m' a st u dest r')).
Proof using Hok.
  intros Hm Hg Hd Hk. destruct (rest_apart _ Hg) as [Ha Hb]. destruct Hg as [_ Har].
  cbn [exec_list exec_code exec_line p_mem p_unit p_dest p_area p_res].
  revert Hk. generalize (len_offset kd) as lo. intros lo Hk.
  pose proof (text_agree e m m' Hm) as H.
  destruct (eval_text _ _ u None e m) as [[[c v] m1]| | |], (eval_text _ _ u None e m') as [[[c' v'] m1']| | |];
    try done; cbn [orel] in H; [|by subst..]. destruct H as [[= <- <-] Hm1]. cbn [snd] in Hm1.
  cbn [mbind outcome_bind and_then].
  destruct (implicit c (CInt uint64_t) v) as [v1| | |]; try done. cbn [mbind outcome_bind].
  pose proof (write_agree F uint64_t m1 m1' (dest + lo) v1 Hm1) as H.
  destruct (write uint64_t m1 _ v1) as [m2| | |], (write uint64_t m1' _ v1) as [m2'| | |]; try done.
  cbn in H. unfold and_then. cbn.
  rewrite (read_agree F uint64_t m2 m2' (dest + lo)) by (done || (eapply apart_sub; [exact Hd|lia|change (Z.of_nat (sizeof uint64_t)) with 8; lia])).
  destruct (read uint64_t m2' (dest + lo)) as [len| | |] eqn:El; try done. cbn.
  rewrite (read_agree F uint64_t m2 m2' (dest + data_offset)) by (done || (eapply apart_sub; [exact Hd|done|done])).
  destruct (read uint64_t m2' (dest + data_offset)) as [d0| | |]; try done. cbn.
  pose proof (alloc_agree F m2 m2' _ _ d0 len a (read_uint64_range _ _ _ El) Hb Har H Ha) as Hal.
  unfold pos_of in *. cbn [p_state] in *.
  destruct (Parsing.allocateCopyBytes m2 _ _ _ _ _) as [[[[[r1 p1] d1] a1] m3]| | |],
    (Parsing.allocateCopyBytes m2' _ _ _ _ _) as [[[[[r1' p1'] d1'] a1'] m3']| | |]; try done; cbn in Hal;
    [|by subst..]. destruct Hal as [[= <- <- <- <-] Hm3]. cbn.
  destruct (pointer_add _ len p1); try done. cbn.
  destruct r1; try (by cbn). cbn.
  pose proof (write_agree F uint64_t m3 m3' (dest + data_offset) d1 Hm3) as Hw.
  by destruct (write uint64_t m3 _ d1), (write uint64_t m3' _ d1).
Qed.

Lemma range_sim m m' a st r r' dest e :
  agree F m m' → good C (mkM m a st u 0 r) → apart F dest 16 →
  let code := [Line (PSetLen "var_stream_range" e); Line PRangeStart; Line PAdvanceRange;
               Line PCheck] in
  orel (crel F) (exec_list C code (mkM m a st u dest r)) (exec_list C code (mkM m' a st u dest r')).
Proof using Hok.
  intros Hm Hg Hd code. destruct (rest_apart _ Hg) as [Ha Hb]. subst code.
  cbn [exec_list exec_code exec_line p_mem p_unit p_dest p_area p_res].
  change (len_offset "var_stream_range") with 8. unfold start_offset.
  pose proof (text_agree e m m' Hm) as H.
  destruct (eval_text _ _ u None e m) as [[[c v] m1]| | |], (eval_text _ _ u None e m') as [[[c' v'] m1']| | |];
    try done; cbn [orel] in H; [|by subst..]. destruct H as [[= <- <-] Hm1]. cbn [snd] in Hm1.
  cbn [mbind outcome_bind and_then].
  destruct (implicit c (CInt uint64_t) v) as [v1| | |]; try done. cbn [mbind outcome_bind].
  pose proof (write_agree F uint64_t m1 m1' (dest + 8) v1 Hm1) as H.
  destruct (write uint64_t m1 _ v1) as [m2| | |], (write uint64_t m1' _ v1) as [m2'| | |]; try done.
  cbn in H. unfold and_then. cbn. unfold pos_of in *. cbn [p_state set_mem] in *.
  pose proof (write_agree F uint64_t m2 m2' (dest + 0) (ParserState.stream_pos_ st) H) as Hw.
  destruct (write uint64_t m2 _ _) as [m3| | |], (write uint64_t m2' _ _) as [m3'| | |]; try done.
  cbn in Hw. cbn.
  rewrite (read_agree F uint64_t m3 m3' (dest + 8))
    by (done || (eapply apart_sub; [exact Hd|done|done])).
  destruct (read uint64_t m3' (dest + 8)) as [len| | |] eqn:El; try done. cbn.
  destruct (Parsing.advance _ _ len) as [r1 p1]. destruct (pointer_add _ len p1); try done. cbn.
  by destruct r1.
Qed.

Lemma atomic_sim b s s' :
  atomic C b → p_unit s = u → good C s → sim F s s' →
  orel (crel F) (exec_list C b s) (exec_list C b s').
Proof using Hok.
  intros Hb Hu Hg Hs. destruct s as [m a st u1 d r], s' as [m' a' st' u1' d' r'].
  destruct Hs as (Hm & Ha & Hst & Hu'). cbn in *. subst a st u1' u1.
  destruct Hb as [|cu f e|cu f|cu f w sg o Hfit|cu f k e Hk Hc Hp|cu f e Hc Hp|tmp w sg o cu f t Ht];
    rewrite ?dest_field_run.
  - done.
  - cbn [exec_list exec_code exec_line]. cbn [p_unit p_mem].
    pose proof (text_agree e m m' Hm) as H.
    destruct (eval_text _ _ u None e m) as [[[c v] m1]| | |], (eval_text _ _ u None e m') as [[[c' v'] m1']| | |];
      try done; cbn [orel] in H; [|by subst..]. destruct H as [[= <- <-] Hm1]. cbn [snd] in Hm1.
    unfold member_address. cbn. destruct (assoc f (c_members C)) as [[o t]|]; [|done]. cbn.
    unfold and_then.
    pose proof (assign_rel c v (u + o) t (mkM m1 a' st' u d r) (mkM m1' a' st' u d' r')
      ltac:(by split_and!)) as H.
    unfold set_mem. cbn [p_area p_state p_unit p_dest p_res].
    destruct (assign C c v (u + o) t (mkM m1 a' st' u d r)),
      (assign C c v (u + o) t (mkM m1' a' st' u d' r')); try done; by cbn in H |- *; subst.
  - by destruct (assoc f (c_members C)) as [[o t]|].
  - destruct (assoc f (c_members C)) as [[o' t]|]; [|done]. unfold set_dest. cbn [p_mem p_area p_state p_unit p_res].
    eapply int_sim; [done|done|]. intros. by cbn.
  - destruct (assoc f (c_members C)) as [[o' t]|] eqn:Ef; [|done]. unfold set_dest.
    cbn [p_mem p_area p_state p_unit p_res]. apply bytes_sim; [done|done| |lia].
    eapply container_slot; eauto.
  - destruct (assoc f (c_members C)) as [[o' t]|] eqn:Ef; [|done]. unfold set_dest.
    cbn [p_mem p_area p_state p_unit p_res]. apply range_sim; [done|done|].
    eapply container_slot; eauto.
  - rewrite !dest_temp_run. destruct (assoc tmp (c_temps C)) as [[q qt]|] eqn:Eq; [|done].
    unfold set_dest. cbn [p_mem p_area p_state p_unit p_res].
    eapply int_sim; [done|done|]. intros pf n m1 m1' p1 Hpf Hn Hm1 Hl.
    cbn [exec_list exec_code exec_line]. rewrite Eq. cbn.
    destruct (Ht _ _ Eq) as (ct & Et & Hw). unfold width in Hw. rewrite Et. cbn.
    assert (n = sizeof (rep ct)) as -> by lia. unfold read. rewrite Hl.
    destruct (load_bytes (sizeof (rep ct)) m1' q); [|done]. cbn.
    destruct (scalar_type (c_enums C) t) as [c|]; [|done]. cbn.
    unfold member_address. cbn. destruct (assoc f (c_members C)) as [[o' ft]|]; [|done]. cbn.
    unfold and_then. set (v := cast c _).
    pose proof (assign_rel c v (u + o') ft
      (mkM m1 a' (ParserState.set_stream_pos p1 st') u q Parsing.DONE)
      (mkM m1' a' (ParserState.set_stream_pos p1 st') u q Parsing.DONE) ltac:(by split_and!)) as H.
    destruct (assign C c v (u + o') ft (mkM m1 _ _ _ _ _)), (assign C c v (u + o') ft (mkM m1' _ _ _ _ _));
      try done; by cbn in H |- *; subst.
Qed.

End AtomicSim.

(** ** More data, and repeating an instruction *)

Section AtomicMore.
  Context (C : context) (F : Z → Prop) (u : Z) (Hok : call_ok C F u).
  Context (e2 : Z) (He : c_end C ≤ e2) (Hsize : e2 - c_start C < 2 ^ 63).

Abbreviation C2 := (with_end e2 C).

(** What is known of an instruction [b] that ended with [c]: without [OUT_OF_DATA] more input
    changes nothing, after [OUT_OF_DATA] it can be repeated. *)
Definition more (b : list pcode) (s : pmach) (c : ctl) : Prop :=
  let instr s := ParserState.instruction (p_state s) in
  match c with
  | Next s' =>
      good C s' ∧ p_unit s' = u ∧ instr s' = instr s ∧ exec_list C2 b s = Ret (Next s')
  | Return r s' =>
      good C s' ∧ p_unit s' = u ∧ instr s' = instr s ∧
      (r = Parsing.OUT_OF_DATA → exec_list C2 b s' = exec_list C2 b s)
  end.

Lemma set_pos_same st : ParserState.set_stream_pos (ParserState.stream_pos_ st) st = st.
Proof using Type. by destruct st. Qed.

Lemma buffer2 s : good C s → buffer (pos_of s) (c_end C) ∧ buffer (pos_of s) e2.
Proof using He Hsize. intros [Hp _]. unfold buffer. lia. Qed.

(** Code that neither returns nor looks at the end of the input. *)
Definition steady (k : list pcode) : Prop :=
  ∀ s c, exec_list C k s = Ret c →
    exec_list C2 k s = Ret c ∧
    ∃ m, c = Next (mkM m (p_area s) (p_state s) (p_unit s) (p_dest s) (p_res s)).

Lemma steady_nil : steady [].
Proof using Type. intros [] c [= <-]. split; [done|]. by eexists. Qed.

Lemma assign_steady from v p t s s' :
  assign C from v p t s = Ret s' →
  ∃ m, s' = mkM m (p_area s) (p_state s) (p_unit s) (p_dest s) (p_res s).
Proof using Type. unfold assign. intros H. destruct_binds H. simplify_eq. by eexists. Qed.

Lemma steady_assign cu f e : steady [Line (PAssignField cu f e)].
Proof using Type.
  intros s c H. split; [exact H|]. cbn [exec_list exec_code exec_line] in H. unfold and_then in H.
  destruct (eval_text _ _ _ None e _) as [[[c0 v0] m0]| | |]; try done.
  cbn [mbind outcome_bind] in H. destruct (member_address C f s) as [[p ft]| | |]; try done.
  cbn [mbind outcome_bind] in H. destruct (assign C _ _ p ft _) as [s1| | |] eqn:E; try done.
  cbn in H. simplify_eq. apply assign_steady in E as [m ->]. by eexists.
Qed.

Lemma steady_cast cu f t tmp : steady [Line (PCastField cu f t tmp)].
Proof using Type.
  intros s c H. split; [exact H|]. cbn [exec_list exec_code exec_line] in H. unfold and_then in H.
  destruct (assoc tmp (c_temps C)) as [[q qt]|]; [|done]. cbn [some_or_ill mbind outcome_bind] in H.
  destruct (scalar_type (c_enums C) qt) as [ct|]; [|done]. cbn [some_or_ill mbind outcome_bind] in H.
  destruct (read _ _ q); try done. cbn [mbind outcome_bind] in H.
  destruct (scalar_type (c_enums C) t) as [c0|]; [|done]. cbn [some_or_ill mbind outcome_bind] in H.
  destruct (member_address C f s) as [[p ft]| | |]; try done. cbn [mbind outcome_bind] in H.
  destruct (assign C _ _ p ft _) as [s1| | |] eqn:E; try done.
  cbn in H. simplify_eq. apply assign_steady in E as [m ->]. by eexists.
Qed.

Lemma int_more m a st d r w sg o k c :
  let b := Line (PParseInt w sg o) :: Line PCheck :: k in
  steady k → good C (mkM m a st u d r) →
  exec_list C b (mkM m a st u d r) = Ret c →
  more b (mkM m a st u d r) c ∧ ∀ s', c = Return Parsing.OUT_OF_DATA s' → set_dest d s' = s'.
Proof using He Hsize.
  intros b Hk Hg H. destruct (buffer2 _ Hg) as [Hb1 Hb2]. destruct Hg as [Hp Ha].
  unfold pos_of in *. cbn [p_state p_area] in *. subst b.
  cbn [exec_list exec_code exec_line] in H.
  destruct (int_parser w sg o) as [f|] eqn:Ef; [|done].
  destruct (int_parser_spec _ _ _ _ Ef) as (n & order & Hf & Ho & Hn).
  unfold and_then, pos_of in H. cbn [some_or_ill mbind outcome_bind p_mem p_dest p_state] in H.
  destruct (f m _ _ d) as [[[r1 p1] m1]| | |] eqn:E; try done. cbn in H.
  destruct (parse_cases _ _ _ _ _ _ _ _ _ _ Hf Hb1 E) as [(-> & -> & ->)|(-> & -> & Hle & Hm)]; cbn in H.
  - simplify_eq. split; [|by intros s' [= <-]].
    split_and!; [split; [done|done]|done|done|]. intros _.
    unfold set_result, set_mem. cbn [p_mem p_area p_state p_unit p_dest]. by rewrite set_pos_same.
  - destruct (Hk _ _ H) as [H2 [m2 ->]]. split; [|done].
    split_and!; [split; [cbn; lia|done]|done|done|].
    cbn [exec_list exec_code exec_line]. rewrite Ef. unfold and_then, pos_of.
    cbn [some_or_ill mbind outcome_bind p_mem p_dest p_state].
    change (c_end C2) with e2. rewrite Hm by done. cbn. exact H2.
Qed.

Lemma dest_more cu f b s c :
  (∀ o t, assoc f (c_members C) = Some (o, t) → p_unit s = u →
     exec_list C b (set_dest (u + o) s) = Ret c →
     more b (set_dest (u + o) s) c ∧
     ∀ s', c = Return Parsing.OUT_OF_DATA s' → set_dest (u + o) s' = s') →
  p_unit s = u → exec_list C (Line (PDestField cu f) :: b) s = Ret c →
  more (Line (PDestField cu f) :: b) s c.
Proof using Type.
  intros Hb Hu H. rewrite dest_field_run in H.
  destruct (assoc f (c_members C)) as [[o t]|] eqn:Ef; [|done]. rewrite Hu in H.
  destruct (Hb o t eq_refl Hu H) as [Hm Hs]. unfold more in *.
  assert (Hrun : ∀ s, p_unit s = u →
    exec_list C2 (Line (PDestField cu f) :: b) s = exec_list C2 b (set_dest (u + o) s)).
  { intros s1 Hs1. rewrite dest_field_run. cbn [c_members with_end]. by rewrite Ef, Hs1. }
  destruct c as [s'|r s'].
  - destruct Hm as (? & ? & ? & ?). split_and!; try done. by rewrite Hrun.
  - destruct Hm as (? & ? & ? & Ho). split_and!; try done. intros ->. rewrite !Hrun by done.
    rewrite (Hs s') by done. by apply Ho.
Qed.

(** Setting the length of a container again. *)
Definition slot (d : Z) : Z → Prop := λ a, d ≤ a < d + 16.

Lemma agree_mono (F1 F2 : Z → Prop) m m' :
  (∀ a, F1 a → F2 a) → agree F1 m m' → agree F2 m m'.
Proof using Type. intros H [H1 H2]. split; [|done]. intros a Ha. apply H1. auto. Qed.

Lemma set_len_again kd e m a st r c f o t :
  assoc f (c_members C) = Some (o, t) → t ∈ container_types → 0 ≤ len_offset kd ≤ 8 →
  pure_text e = true →
  exec_line C (PSetLen kd e) (mkM m a st u (u + o) r) = Ret c →
  ∃ m1 v, c = Next (mkM m1 a st u (u + o) r) ∧
    write uint64_t m (u + o + len_offset kd) v = Ret m1 ∧
    ∀ m3 r', agree (slot (u + o)) m m3 →
      load_bytes 8 m3 (u + o + len_offset kd) = Some (le_encode 8 (uwrap 64 v)) →
      exec_line C (PSetLen kd e) (mkM m3 a st u (u + o) r') = Ret (Next (mkM m3 a st u (u + o) r')).
Proof using Hok.
  intros Hf Ht Hlo Hp H. cbn [exec_line p_mem p_unit p_dest] in *.
  destruct (eval_text _ _ u None e m) as [[[c0 v0] m0]| | |] eqn:Ee; try done.
  pose proof (eval_text_pure _ _ _ _ _ _ _ _ _ Hp Ee) as ->. cbn [mbind outcome_bind] in H.
  destruct (implicit c0 _ v0) as [v| | |] eqn:Ei; try done. cbn [mbind outcome_bind] in H.
  destruct (write uint64_t m _ v) as [m1| | |] eqn:Ew; try done. cbn in H. simplify_eq.
  exists m1, v. split_and!; [done|done|]. intros m3 r' Hm Hl.
  pose proof (eval_text_agree _ _ (slot (u + o)) u
    (λ f' o' c', container_apart C F u Hok f o t f' o' c' Hf Ht) e m m3 Hm) as He3.
  rewrite Ee in He3.
  destruct (eval_text _ _ u None e m3) as [[[c3 v3] m4]| | |] eqn:E3; try done.
  pose proof (eval_text_pure _ _ _ _ _ _ _ _ _ Hp E3) as ->.
  destruct He3 as [[= <- <-] _]. cbn [mbind outcome_bind]. rewrite Ei. cbn [mbind outcome_bind].
  by rewrite write_again.
Qed.

Lemma write_slot m m1 d lo v :
  0 ≤ lo ≤ 8 → write uint64_t m (d + lo) v = Ret m1 → agree (slot d) m m1.
Proof using Type.
  intros Hlo [_ H]%write_load. eapply agree_mono; [|exact H]. intros a Ha. unfold slot.
  cbv beta in Ha. change (Z.of_nat (sizeof uint64_t)) with 8 in Ha. lia.
Qed.

Lemma bytes_more kd e m a st r c f o t :
  let b := [Line (PSetLen kd e); Line (PAllocateCopy kd); Line PCheck] in
  let s := mkM m a st u (u + o) r in
  assoc f (c_members C) = Some (o, t) → t ∈ container_types → len_offset kd = 0 →
  pure_text e = true → good C s → exec_list C b s = Ret c →
  more b s c ∧ ∀ s', c = Return Parsing.OUT_OF_DATA s' → set_dest (u + o) s' = s'.
Proof using Hok He Hsize.
  intros b s Hf Ht Hlo Hp Hg H. destruct (buffer2 _ Hg) as [Hb1 Hb2]. destruct Hg as [Hpos Ha].
  subst b s. unfold pos_of in *. cbn [p_state p_area] in *. cbn [exec_list exec_code] in H.
  destruct (exec_line C (PSetLen kd e) _) as [c1| | |] eqn:E1; try done.
  assert (0 ≤ len_offset kd ≤ 8) as Hlo8 by lia.
  destruct (set_len_again _ _ _ _ _ _ _ _ _ _ Hf Ht Hlo8 Hp E1) as (m1 & v & -> & Hw & Hag).
  cbn [and_then mbind outcome_bind] in H.
  assert (Hrun : ∀ r', exec_list C2 [Line (PSetLen kd e); Line (PAllocateCopy kd); Line PCheck]
      (mkM m1 a st u (u + o) r') =
      exec_list C2 [Line (PSetLen kd e); Line (PAllocateCopy kd); Line PCheck] (mkM m a st u (u + o) r)).
  { intros r'. cbn [exec_list exec_code].
    change (exec_line C2 (PSetLen kd e)) with (exec_line C (PSetLen kd e)). rewrite E1.
    rewrite Hag; [done| |].
    - eapply (write_slot _ _ _ (len_offset kd)); [lia|done].
    - by apply write_load in Hw as [Hl _]. }
  unfold and_then in H. cbn [exec_line p_mem p_dest p_area p_res mbind outcome_bind] in H.
  destruct (read uint64_t m1 (u + o + len_offset kd)) as [len| | |] eqn:El; try done.
  cbn [mbind outcome_bind] in H.
  destruct (read uint64_t m1 (u + o + data_offset)) as [d0| | |] eqn:Ed; try done.
  cbn [mbind outcome_bind] in H. unfold pos_of in H. cbn [p_state] in H.
  destruct (Parsing.allocateCopyBytes m1 _ _ _ _ _) as [[[[[r1 p1] d1] a1] m2]| | |] eqn:Ea; try done.
  cbn [mbind outcome_bind] in H.
  destruct (pointer_add _ len p1) as [[]| | |] eqn:Ein; try done. cbn [mbind outcome_bind] in H.
  pose proof (alloc_in _ _ _ _ _ _ _ _ _ _ _ _ (proj1 (read_uint64_range _ _ _ El)) Hb1 Ea Ein) as Hp0.
  assert (Hp1 : c_start C ≤ p1 ≤ c_end C) by lia.
  destruct (alloc_cases _ _ _ _ _ _ _ _ _ _ _ (read_uint64_range _ _ _ El) Hb1 Ha Ea)
    as [(-> & -> & -> & ->)|[(-> & -> & -> & ->)|(-> & Hsm & Hm)]]; cbn in H.
  - simplify_eq. split; [|intros s' [= <-]; done].
    split_and!; [done|done|done|]. intros _. unfold set_result, set_area, set_mem.
    cbn [p_mem p_area p_state p_unit p_dest]. rewrite set_pos_same. apply Hrun.
  - simplify_eq. split; [|done]. by split_and!.
  - destruct (write uint64_t m2 _ d1) as [m3| | |] eqn:Ew; try done. cbn in H. simplify_eq.
    split; [|done]. split_and!; [done|done|done|].
    cbn [exec_list exec_code]. change (exec_line C2 (PSetLen kd e)) with (exec_line C (PSetLen kd e)).
    rewrite E1. unfold and_then. cbn [exec_line p_mem p_dest p_area p_res mbind outcome_bind].
    rewrite El. cbn [mbind outcome_bind]. rewrite Ed. cbn [mbind outcome_bind].
    unfold pos_of. cbn [p_state]. change (c_end C2) with e2. rewrite Hm by done.
    cbn [mbind outcome_bind]. rewrite Ein. cbn. by rewrite Ew.
Qed.

Lemma range_more e m a st r c f o t :
  let b := [Line (PSetLen "var_stream_range" e); Line PRangeStart; Line PAdvanceRange; Line PCheck] in
  let s := mkM m a st u (u + o) r in
  assoc f (c_members C) = Some (o, t) → t ∈ container_types → pure_text e = true →
  good C s → exec_list C b s = Ret c →
  more b s c ∧ ∀ s', c = Return Parsing.OUT_OF_DATA s' → set_dest (u + o) s' = s'.
Proof using Hok He Hsize.
  intros b s Hf Ht Hp Hg H. destruct (buffer2 _ Hg) as [Hb1 Hb2]. destruct Hg as [Hpos Ha].
  subst b s. unfold pos_of in *. cbn [p_state p_area] in *. cbn [exec_list exec_code] in H.
  destruct (exec_line C (PSetLen _ e) _) as [c1| | |] eqn:E1; try done.
  destruct (set_len_again "var_stream_range" e m a st r c1 f o t Hf Ht ltac:(done) Hp E1)
    as (m1 & v & -> & Hw & Hag).
  change (len_offset "var_stream_range") with 8 in Hw, Hag.
  unfold and_then in H. cbn [exec_line p_mem p_dest p_area p_res mbind outcome_bind] in H.
  unfold pos_of, start_offset in H. cbn [p_state] in H.
  destruct (write uint64_t m1 (u + o + 0) _) as [m2| | |] eqn:Ew; try done.
  assert (Hrun : ∀ r', exec_list C2 [Line (PSetLen "var_stream_range" e); Line PRangeStart; Line PAdvanceRange; Line PCheck]
      (mkM m2 a st u (u + o) r') =
      exec_list C2 [Line (PSetLen "var_stream_range" e); Line PRangeStart; Line PAdvanceRange; Line PCheck] (mkM m a st u (u + o) r)).
  { intros r'. cbn [exec_list exec_code].
    change (exec_line C2 (PSetLen ?k e)) with (exec_line C (PSetLen k e)). rewrite E1.
    pose proof (write_load _ _ _ _ _ Hw) as [Hl1 _]. pose proof (write_load _ _ _ _ _ Ew) as [Hl2 Hf2].
    rewrite Hag.
    - cbn [and_then mbind outcome_bind exec_line p_mem p_dest]. unfold pos_of, start_offset. cbn [p_state].
      rewrite Ew. by rewrite write_again.
    - eapply agree_trans; [by eapply (write_slot _ _ _ 8)|by eapply (write_slot _ _ _ 0)].
    - refine (eq_trans (eq_sym _) Hl1). eapply load_agree; [exact Hf2|]. intros x Hx.
      change (Z.of_nat (sizeof uint64_t)) with 8 in *. lia. }
  cbn [mbind outcome_bind set_mem p_mem p_dest] in H.
  destruct (read uint64_t _ _) as [len| | |] eqn:El in H; try done.
  cbn [mbind outcome_bind] in H. unfold pos_of in H. cbn [p_state set_mem] in H.
  unfold Parsing.advance in H.
  destruct (Parsing.short_of_len len _ _) eqn:Es in H.
  - destruct (pointer_add _ len _); try done. cbn in H. simplify_eq. split; [|by intros s' [= <-]].
    split_and!; [done|done|done|]. intros _. unfold set_result, set_mem.
    cbn [p_mem p_area p_state p_unit p_dest]. rewrite set_pos_same. apply Hrun.
  - destruct (pointer_add _ len _) as [[]| | |] eqn:Ein; try done.
    pose proof (pointer_add_in _ _ _ _ _ (proj1 (read_uint64_range _ _ _ El)) Hb1 Es Ein) as Hp0.
    match type of Hp0 with _ ≤ ?p ≤ _ => assert (Hp1 : c_start C ≤ p ≤ c_end C) by lia end.
    cbn in H. simplify_eq. split; [|done]. split_and!; [done|done|done|].
    cbn [exec_list exec_code]. change (exec_line C2 (PSetLen ?k e)) with (exec_line C (PSetLen k e)).
    rewrite E1. unfold and_then. cbn [exec_line p_mem p_dest p_area p_res mbind outcome_bind].
    unfold pos_of, start_offset. cbn [p_state]. rewrite Ew. cbn [mbind outcome_bind set_mem p_mem p_dest].
    rewrite El. cbn [mbind outcome_bind p_state]. unfold Parsing.advance.
    assert (Hs2 : Parsing.short_of_len len (ParserState.stream_pos_ st) e2 = false).
    { unfold buffer, Parsing.short_of_len in *. apply Z.ltb_ge in Es.
      apply Z.ltb_ge. rewrite (swrap_small 64 (c_end C - _)) in Es by lia.
      rewrite (swrap_small 64 (e2 - _)) by lia. lia. }
    change (c_end C2) with e2. unfold pos_of, set_mem. cbn [p_state]. rewrite Hs2, Ein. done.
Qed.

Lemma steady_more k s c :
  steady k → p_unit s = u → good C s → exec_list C k s = Ret c → more k s c.
Proof using Type.
  intros Hk Hu Hg H. destruct (Hk _ _ H) as [H2 [m ->]]. split_and!; try done.
Qed.

Lemma atomic_more b s c :
  atomic C b → p_unit s = u → good C s → exec_list C b s = Ret c → more b s c.
Proof using Hok He Hsize.
  intros Hb Hu Hg H. destruct s as [m a st u1 d r]. cbn in Hu. subst u1.
  destruct Hb as [|cu f e|cu f|cu f w sg o Hfit|cu f k e Hk Hc Hp|cu f e Hc Hp|tmp w sg o cu f t Ht].
  - by apply steady_more; [apply steady_nil|..].
  - by apply steady_more; [apply steady_assign|..].
  - apply (dest_more cu f []); [|done|done]. intros o t Ef _ H1. cbn in H1. simplify_eq.
    split; [|done]. by split_and!.
  - apply dest_more; [|done|done]. intros o' t Ef _ H1. unfold set_dest in H1 |- *.
    apply int_more; [apply steady_nil|done|done].
  - apply dest_more; [|done|done]. intros o' t Ef _ H1. by eapply bytes_more; eauto.
  - apply dest_more; [|done|done]. intros o' t Ef _ H1. by eapply range_more; eauto.
  - rewrite dest_temp_run in H. destruct (assoc tmp (c_temps C)) as [[q qt]|] eqn:Eq; [|done].
    unfold set_dest in H. cbn [p_mem p_area p_state p_unit p_res] in H.
    destruct (int_more m a st q r w sg o _ c (steady_cast cu f t tmp) Hg H) as [Hm Hs].
    assert (Hrun : ∀ b s, exec_list C2 (Line (PDestTemp tmp) :: b) s = exec_list C2 b (set_dest q s)).
    { intros b s. rewrite dest_temp_run. cbn [c_temps with_end]. by rewrite Eq. }
    unfold more in *. destruct c as [s'|r' s'].
    + destruct Hm as (? & ? & ? & ?). split_and!; try done. by rewrite Hrun.
    + destruct Hm as (? & ? & ? & Ho). split_and!; try done. intros ->. rewrite !Hrun.
      rewrite (Hs s') by done. by apply Ho.
Qed.

End AtomicMore.

(** ** Whole parsers *)

Section Structure.
  Context (C : context).

Definition adv (l : string) (s : pmach) : pmach :=
  set_state (ParserState.advanceToInstruction (c_label C l) (p_state s)) s.

Lemma and_then_nil o : and_then o (exec_list C []) = o.
Proof using Type. by destruct o as [[]| | |]. Qed.

Lemma exec_block l b s :
  exec_code C (Block (Line (PLabel l) :: Line (PAdvanceTo l) :: b)) s = exec_list C b (adv l s).
Proof using Type. reflexivity. Qed.

Lemma exec_block_switch l e cases s :
  exec_code C (Block [Line (PLabel l); Line (PAdvanceTo l); Switch e cases]) s =
  '(i, s) ← exec_switch C e cases (adv l s);
  match i with Some i => exec_nth C cases i s | None => Ret (Next s) end.
Proof using Type.
  rewrite exec_block. cbn [exec_list]. rewrite and_then_nil. reflexivity.
Qed.

Lemma exec_switch_mem e cases s i s' :
  exec_switch C e cases s = Ret (i, s') → ∃ m, s' = set_mem m s.
Proof using Type.
  unfold exec_switch. intros H.
  destruct (eval_text _ _ _ _ e _) as [[[c v] m]| | |]; try done. cbn [mbind outcome_bind] in H.
  destruct (select _ _ _ _ _ _ _); try done. cbn in H. simplify_eq. by eexists.
Qed.

Lemma labels_of_block l b :
  labels_of (Block (Line (PLabel l) :: Line (PAdvanceTo l) :: b)) = l :: labels_list b.
Proof using Type. reflexivity. Qed.

Lemma labels_list_cons c l : labels_list (c :: l) = labels_of c ++ labels_list l.
Proof using Type. reflexivity. Qed.

Lemma labels_cases_cons ls d body l :
  labels_cases (mkCodeCase ls d body :: l) = labels_list body ++ labels_cases l.
Proof using Type. reflexivity. Qed.

Lemma atomic_labels b : atomic C b → labels_list b = [].
Proof using Type. by destruct 1. Qed.

Lemma goto_list_cons a c l s :
  goto_list C a (c :: l) s =
  match goto_code C a c s with
  | Some o => Some (and_then o (exec_list C l))
  | None => goto_list C a l s
  end.
Proof using Type. reflexivity. Qed.

Lemma goto_block a l b s :
  goto_code C a (Block (Line (PLabel l) :: Line (PAdvanceTo l) :: b)) s =
  if c_label C l =? a then Some (exec_list C b (adv l s)) else goto_list C a b s.
Proof using Type.
  trans (goto_list C a (Line (PLabel l) :: Line (PAdvanceTo l) :: b) s); [reflexivity|].
  rewrite !goto_list_cons. cbn [goto_code]. destruct (c_label C l =? a); reflexivity.
Qed.

Lemma goto_atomic a b s : atomic C b → goto_list C a b s = None.
Proof using Type. by destruct 1. Qed.

(** A label that is not there is not found. *)
Lemma goto_absent :
  (∀ c, instr C c → ∀ a s, (∀ l, l ∈ labels_of c → c_label C l ≠ a) → goto_code C a c s = None) ∧
  (∀ l, case_instrs C l → ∀ a s, (∀ x, x ∈ labels_cases l → c_label C x ≠ a) →
     goto_cases C a l s = None) ∧
  (∀ l, instrs C l → ∀ a s, (∀ x, x ∈ labels_list l → c_label C x ≠ a) → goto_list C a l s = None).
Proof using Type.
  apply instr_mutind.
  - intros l b Hb a s Ha. rewrite goto_block, goto_atomic by done.
    rewrite (proj2 (Z.eqb_neq _ _)); [done|]. apply Ha. rewrite labels_of_block. by left.
  - intros l e cases _ IH a s Ha. rewrite goto_block.
    rewrite (proj2 (Z.eqb_neq _ _)) by (apply Ha; rewrite labels_of_block; by left).
    rewrite goto_list_cons.
    change (goto_code C a (Switch e cases) s) with (goto_cases C a cases s).
    rewrite IH; [done|]. intros x Hx. apply Ha. rewrite labels_of_block. right.
    unfold labels_list. cbn [map concat labels_of]. rewrite app_nil_r. exact Hx.
  - done.
  - intros ls d body cases _ IHb _ IHc a s Ha. rewrite labels_cases_cons in Ha.
    cbn [goto_cases]. rewrite IHb, IHc; [done|..]; intros x Hx; apply Ha; apply elem_of_app; auto.
  - done.
  - intros c l _ IHc _ IHl a s Ha. rewrite labels_list_cons in Ha.
    rewrite goto_list_cons, IHc, IHl; [done|..]; intros x Hx; apply Ha; apply elem_of_app; auto.
Qed.

End Structure.

Section Whole.
  Context (C : context) (F : Z → Prop) (u : Z) (Hok : call_ok C F u).

Lemma exec_switch_sim e cases s s' :
  p_unit s = u → sim F s s' →
  orel (λ x y, x.1 = y.1 ∧ sim F x.2 y.2) (exec_switch C e cases s) (exec_switch C e cases s').
Proof using Hok.
  intros Hu (Hm & Ha & Hs & Hu'). unfold exec_switch. rewrite <- Hu', Hu.
  pose proof (text_agree C F u Hok e _ _ Hm) as H.
  destruct (eval_text _ _ u None e (p_mem s)) as [[[c v] m]| | |],
    (eval_text _ _ u None e (p_mem s')) as [[[c' v'] m']| | |]; try done; cbn [orel] in H; [|by subst..].
  destruct H as [[= <- <-] Hm1]. cbn [snd] in Hm1. cbn [mbind outcome_bind].
  assert (Hmatch : ∀ ls, matches C c v ls (set_mem m s) = matches C c v ls (set_mem m' s')).
  { induction ls as [|l ls IH]; [done|]. cbn [matches]. cbn [p_unit p_mem set_mem].
    rewrite <- Hu', Hu. pose proof (text_agree C F u Hok l _ _ Hm1) as Hl.
    destruct (eval_text _ _ u None l m) as [[[cl vl] ml]| | |],
      (eval_text _ _ u None l m') as [[[cl' vl'] ml']| | |]; try done; cbn [orel] in Hl; [|by subst..].
    destruct Hl as [[= <- <-] _]. cbn [mbind outcome_bind]. destruct (common c cl); try done.
    cbn [mbind outcome_bind]. by destruct (v =? vl). }
  assert (Hsel : ∀ cs i d, select C c v cs (set_mem m s) i d = select C c v cs (set_mem m' s') i d).
  { induction cs as [|[ls d0 b] cs IH]; intros i d; [done|]. cbn [select]. rewrite Hmatch.
    destruct (matches C c v ls _) as [[]| | |]; try done. cbn [mbind outcome_bind]. apply IH. }
  rewrite Hsel. destruct (select C c v cases _ 0 None); done.
Qed.

Lemma sim_adv l s s' : sim F s s' → sim F (adv C l s) (adv C l s').
Proof using Type. intros (? & ? & Hs & ?). unfold adv. split_and!; cbn; try done. by rewrite Hs. Qed.

Lemma good_adv l s : good C s → good C (adv C l s).
Proof using Type. done. Qed.

Lemma and_then_rel x y k k' :
  orel (crel F) x y →
  (∀ s s', x = Ret (Next s) → sim F s s' → orel (crel F) (k s) (k' s')) →
  orel (crel F) (and_then x k) (and_then y k').
Proof using Type.
  intros H Hk. destruct x as [[s|r s]| | |], y as [[s'|r' s']| | |]; try done; cbn in H |- *.
  - by apply Hk.
Qed.

(** Every state of a parser stays good. *)
Definition stays (o : outcome ctl) : Prop :=
  match o with
  | Ret (Next s) | Ret (Return _ s) => good C s ∧ p_unit s = u
  | _ => True
  end.

Lemma stays_good :
  c_end C - c_start C < 2 ^ 63 →
  (∀ c, instr C c → ∀ s, p_unit s = u → good C s → stays (exec_code C c s)) ∧
  (∀ l, case_instrs C l → ∀ i s, p_unit s = u → good C s → stays (exec_nth C l i s)) ∧
  (∀ l, instrs C l → ∀ s, p_unit s = u → good C s → stays (exec_list C l s)).
Proof using Hok.
  intros Hsz. apply instr_mutind.
  - intros l b Hb s Hu Hg. rewrite exec_block.
    destruct (exec_list C b (adv C l s)) as [c| | |] eqn:E; try done.
    pose proof (atomic_more C F u Hok (c_end C) ltac:(lia) Hsz b (adv C l s) _ Hb Hu Hg E) as H.
    unfold more in H. destruct c; naive_solver.
  - intros l e cases _ IH s Hu Hg. rewrite exec_block_switch.
    destruct (exec_switch C e cases (adv C l s)) as [[i s1]| | |] eqn:E; try done.
    apply exec_switch_mem in E as [m ->]. cbn [mbind outcome_bind].
    destruct i as [i|]; [by apply IH|by split].
  - by intros [] s.
  - intros ls d body cases _ IHb _ IHc [|i] s Hu Hg; cbn [exec_nth]; auto.
  - by intros s.
  - intros c l _ IHc _ IHl s Hu Hg. cbn [exec_list]. pose proof (IHc s Hu Hg) as H.
    destruct (exec_code C c s) as [[s1|r s1]| | |]; try done. cbn in H |- *. apply IHl; naive_solver.
Qed.

Lemma exec_sim :
  (∀ c, instr C c → ∀ s s', p_unit s = u → good C s → sim F s s' →
     orel (crel F) (exec_code C c s) (exec_code C c s')) ∧
  (∀ l, case_instrs C l → ∀ i s s', p_unit s = u → good C s → sim F s s' →
     orel (crel F) (exec_nth C l i s) (exec_nth C l i s')) ∧
  (∀ l, instrs C l → ∀ s s', p_unit s = u → good C s → sim F s s' →
     orel (crel F) (exec_list C l s) (exec_list C l s')).
Proof using Hok.
  apply instr_mutind.
  - intros l b Hb s s' Hu Hg Hs. rewrite !exec_block.
    apply (atomic_sim C F u Hok); [done|done|done|by apply sim_adv].
  - intros l e cases _ IH s s' Hu Hg Hs. rewrite !exec_block_switch.
    pose proof (exec_switch_sim e cases _ _ (Hu : p_unit (adv C l s) = u) (sim_adv l _ _ Hs)) as H.
    destruct (exec_switch C e cases (adv C l s)) as [[i s1]| | |] eqn:E,
      (exec_switch C e cases (adv C l s')) as [[i' s1']| | |]; try done; cbn in H; [|by subst..].
    destruct H as [<- Hs1]. apply exec_switch_mem in E as [m ->]. cbn [mbind outcome_bind].
    destruct i as [i|]; [by apply IH|done].
  - by intros [] s s'.
  - intros ls d body cases _ IHb _ IHc [|i] s s' Hu Hg Hs; cbn [exec_nth]; auto.
  - by intros s s'.
  - intros c l Hc IHc _ IHl s s' Hu Hg Hs. cbn [exec_list].
    apply and_then_rel; [by apply IHc|]. intros s1 s1' E Hs1.
    destruct (stays_good (ok_size _ _ _ Hok)) as [H _]. specialize (H c Hc s Hu Hg).
    rewrite E in H. apply IHl; [apply H..|done].
Qed.

End Whole.

Section Resumption.
  Context (C : context) (F : Z → Prop) (u e2 : Z).
  Context (He : c_end C ≤ e2) (Hok2 : call_ok (with_end e2 C) F u).
  Context (Hinj : Inj eq eq (c_label C)).

Abbreviation C2 := (with_end e2 C).

Lemma ok_less : call_ok C F u.
Proof using He Hok2.
  destruct Hok2 as [H1 H2 H3 H4 H5]. cbn in *. split; try done; [|lia].
  intros a Ha. apply H4. lia.
Qed.

Lemma good_more s : good C s → good C2 s.
Proof using He. intros [? ?]. split; [cbn; lia|done]. Qed.

Lemma size2 : e2 - c_start C < 2 ^ 63.
Proof using Hok2. apply (ok_size _ _ _ Hok2). Qed.

(** What a piece of code did with the shorter input: a normal end is the same with more, and a
    return leaves the label of one of its instructions. *)
Definition ends (labels : list string) (o o2 : outcome ctl) : Prop :=
  match o with
  | Ret (Next s) => o2 = Ret (Next s)
  | Ret (Return _ s) =>
      ∃ l, l ∈ labels ∧ ParserState.instruction (p_state s) = c_label C l
  | _ => True
  end.

Lemma exec_ends :
  (∀ c, instr C c → ∀ s, p_unit s = u → good C s →
     ends (labels_of c) (exec_code C c s) (exec_code C2 c s)) ∧
  (∀ l, case_instrs C l → ∀ i s, p_unit s = u → good C s →
     ends (labels_cases l) (exec_nth C l i s) (exec_nth C2 l i s)) ∧
  (∀ l, instrs C l → ∀ s, p_unit s = u → good C s →
     ends (labels_list l) (exec_list C l s) (exec_list C2 l s)).
Proof using He Hok2.
  pose proof ok_less as Hok. apply instr_mutind.
  - intros l b Hb s Hu Hg. rewrite !exec_block. change (adv C2 l s) with (adv C l s).
    destruct (exec_list C b (adv C l s)) as [c| | |] eqn:E; try done.
    pose proof (atomic_more C F u Hok e2 He size2 b (adv C l s) _ Hb Hu Hg E) as H.
    unfold more in H. destruct c as [s1|r s1].
    + destruct H as (_ & _ & _ & H). cbn. by rewrite H.
    + destruct H as (_ & _ & H & _). cbn. exists l. split; [by left|]. by rewrite H.
  - intros l e cases _ IH s Hu Hg. rewrite !exec_block_switch. change (adv C2 l s) with (adv C l s).
    change (exec_switch C2 e cases) with (exec_switch C e cases).
    destruct (exec_switch C e cases (adv C l s)) as [[i s1]| | |] eqn:E; try done.
    apply exec_switch_mem in E as [m ->]. cbn [mbind outcome_bind].
    destruct i as [i|]; [|done]. specialize (IH i (set_mem m (adv C l s)) Hu Hg).
    destruct (exec_nth C cases i _) as [[s2|r s2]| | |]; try done.
    destruct IH as (x & Hx & Hi). exists x. split; [|done]. rewrite labels_of_block. right.
    unfold labels_list. cbn [map concat labels_of]. by rewrite app_nil_r.
  - by intros [] s.
  - intros ls d body cases _ IHb _ IHc [|i] s Hu Hg; cbn [exec_nth]; rewrite labels_cases_cons.
    + specialize (IHb s Hu Hg). destruct (exec_list C body s) as [[s2|r s2]| | |]; try done.
      destruct IHb as (x & Hx & Hi). exists x. split; [|done]. apply elem_of_app. by left.
    + specialize (IHc i s Hu Hg). destruct (exec_nth C cases i s) as [[s2|r s2]| | |]; try done.
      destruct IHc as (x & Hx & Hi). exists x. split; [|done]. apply elem_of_app. by right.
  - by intros s.
  - intros c l Hc IHc _ IHl s Hu Hg. cbn [exec_list]. specialize (IHc s Hu Hg).
    destruct (stays_good C F u Hok (ok_size _ _ _ Hok)) as [Hst _]. specialize (Hst c Hc s Hu Hg).
    rewrite labels_list_cons.
    destruct (exec_code C c s) as [[s1|r s1]| | |] eqn:E; try done; cbn in IHc, Hst.
    + rewrite IHc. cbn [and_then mbind outcome_bind].
      specialize (IHl s1 (proj2 Hst) (proj1 Hst)).
      destruct (exec_list C l s1) as [[s2|r s2]| | |]; try done.
      destruct IHl as (x & Hx & Hi). exists x. split; [|done]. apply elem_of_app. by right.
    + destruct IHc as (x & Hx & Hi). exists x. split; [|done]. apply elem_of_app. by left.
Qed.

Lemma crel_trans a b c : crel F a b → crel F b c → crel F a c.
Proof using Type.
  assert (Hs : ∀ x y z, sim F x y → sim F y z → sim F x z).
  { intros x y z (? & ? & ? & ?) (? & ? & ? & ?). split_and!; [by eapply agree_trans|congruence..]. }
  destruct a, b, c; cbn; try done; [by apply Hs|]. intros [-> ?] [-> ?]. split; [done|by eapply Hs].
Qed.

Lemma sim_sym s s' : sim F s s' → sim F s' s.
Proof using Type. intros (? & ? & ? & ?). split_and!; [by apply agree_sym|done..]. Qed.

(** The label a suspended state is at is not in code before it. *)
Lemma absent ls ls' (l : string) :
  NoDup (ls ++ ls') → l ∈ ls' → ∀ x, x ∈ ls → c_label C x ≠ c_label C l.
Proof using Hinj.
  intros (_ & Hd & _)%list.NoDup_app Hl x Hx E. apply (inj _) in E as ->. by apply (Hd l).
Qed.

(** Going on from where the shorter input ended gives what the longer input gives at once. *)
Definition resumes (go : Z → pmach → option (outcome ctl)) (o o2 : outcome ctl) : Prop :=
  ∀ s1 s1', o = Ret (Return Parsing.OUT_OF_DATA s1) → sim F s1 s1' →
    ∃ r, go (ParserState.instruction (p_state s1)) s1' = Some r ∧ orel (crel F) r o2.

Lemma atomic_with_end b : atomic C b → atomic C2 b.
Proof using Type. destruct 1; by constructor. Qed.

Lemma shape_with_end :
  (∀ c, instr C c → instr C2 c) ∧ (∀ l, case_instrs C l → case_instrs C2 l) ∧
  (∀ l, instrs C l → instrs C2 l).
Proof using Type.
  apply instr_mutind; intros; [by apply instr_atomic, atomic_with_end|by apply instr_switch|by constructor..].
Qed.

Lemma sim_good s s' : sim F s s' → good C2 s' → p_unit s' = u → good C2 s ∧ p_unit s = u.
Proof using Type.
  intros (_ & Ha & Hs & Hu) Hg Hu'. split; [|congruence]. unfold good, pos_of in *. by rewrite Ha, Hs.
Qed.

Lemma atomic_resumes l b s :
  atomic C b → p_unit s = u → good C s →
  resumes (λ a s, goto_code C2 a (Block (Line (PLabel l) :: Line (PAdvanceTo l) :: b)) s)
    (exec_list C b (adv C l s)) (exec_list C2 b (adv C l s)).
Proof using He Hok2.
  intros Hb Hu Hg s1 s1' E Hs. pose proof ok_less as Hok.
  pose proof (atomic_more C F u Hok e2 He size2 b (adv C l s) _ Hb Hu Hg E) as (Hg1 & Hu1 & Hi & Ha).
  specialize (Ha eq_refl). exists (exec_list C2 b (adv C2 l s1')).
  rewrite goto_block, Hi. split.
  - by rewrite (proj2 (Z.eqb_eq (c_label C2 l) (ParserState.instruction (p_state (adv C l s))))).
  - rewrite <- Ha. destruct Hs as (Hm & Har & Hst & Hus).
    apply (atomic_sim C2 F u Hok2); [by apply atomic_with_end| | |].
    + cbn. congruence.
    + apply good_more. destruct Hg1 as [Hp1 Ha1]. unfold good, pos_of in *. cbn.
      rewrite <- Hst, <- Har. done.
    + apply sim_sym. split_and!; [done|done| |done]. cbn. rewrite <- Hst.
      cbn in Hi. destruct (p_state s1). cbn in *. unfold ParserState.advanceToInstruction, ParserState.set_instruction.
      cbn. by rewrite Hi.
Qed.

Lemma exec_resumes :
  (∀ c, instr C c → ∀ s, p_unit s = u → good C s → NoDup (labels_of c) →
     resumes (λ a s, goto_code C2 a c s) (exec_code C c s) (exec_code C2 c s)) ∧
  (∀ l, case_instrs C l → ∀ i s, p_unit s = u → good C s → NoDup (labels_cases l) →
     resumes (λ a s, goto_cases C2 a l s) (exec_nth C l i s) (exec_nth C2 l i s)) ∧
  (∀ l, instrs C l → ∀ s, p_unit s = u → good C s → NoDup (labels_list l) →
     resumes (λ a s, goto_list C2 a l s) (exec_list C l s) (exec_list C2 l s)).
Proof using He Hok2 Hinj.
  pose proof ok_less as Hok. destruct exec_ends as (Hec & Hen & Hel).
  destruct (goto_absent C2) as (Hac & Han & Hal).
  destruct shape_with_end as (Hsc & Hsn & Hsl).
  destruct (exec_sim C2 F u Hok2) as (_ & _ & Hsim).
  destruct (stays_good C F u Hok (ok_size _ _ _ Hok)) as (Hst & _ & _).
  destruct (stays_good C2 F u Hok2 (ok_size _ _ _ Hok2)) as (Hst2 & _ & _).
  apply instr_mutind.
  - intros l b Hb s Hu Hg _. rewrite !exec_block. by apply atomic_resumes.
  - intros l e cases Hc IH s Hu Hg Hnd s1 s1' E Hs. rewrite exec_block_switch in E.
    rewrite exec_block_switch. change (adv C2 l s) with (adv C l s).
    change (exec_switch C2 e cases) with (exec_switch C e cases).
    destruct (exec_switch C e cases (adv C l s)) as [[i s2]| | |] eqn:Esw; try done.
    apply exec_switch_mem in Esw as [m ->]. cbn [mbind outcome_bind] in E |- *.
    destruct i as [i|]; [|done].
    assert (El : labels_list [Switch e cases] = labels_cases cases).
    { unfold labels_list. cbn [map concat labels_of]. by rewrite app_nil_r. }
    rewrite labels_of_block, El in Hnd.
    destruct (IH i (set_mem m (adv C l s)) Hu Hg ltac:(by inversion Hnd) s1 s1' E Hs) as (r & Hr & Ho).
    exists r. split; [|done]. rewrite goto_block.
    pose proof (Hen cases Hc i (set_mem m (adv C l s)) Hu Hg) as Hends. rewrite E in Hends.
    destruct Hends as (x & Hx & Hi).
    rewrite (proj2 (Z.eqb_neq (c_label C2 l) (ParserState.instruction (p_state s1)))).
    + rewrite goto_list_cons.
      change (goto_code C2 ?a (Switch e cases) s1') with (goto_cases C2 a cases s1').
      rewrite Hr. by rewrite and_then_nil.
    + rewrite Hi. apply (absent [l] (labels_cases cases) x); [done|done|by left].
  - by intros [] s.
  - intros ls d body cases Hb IHb Hc IHc i s Hu Hg Hnd. rewrite labels_cases_cons in Hnd.
    pose proof Hnd as (Hnb & _ & Hnc)%list.NoDup_app. destruct i as [|i]; cbn [exec_nth];
      intros s1 s1' E Hs; cbn [goto_cases].
    + destruct (IHb s Hu Hg Hnb s1 s1' E Hs) as (r & Hr & Ho). exists r. by rewrite Hr.
    + destruct (IHc i s Hu Hg Hnc s1 s1' E Hs) as (r & Hr & Ho). exists r. split; [|done].
      pose proof (Hen cases Hc i s Hu Hg) as Hends. rewrite E in Hends.
      destruct Hends as (x & Hx & Hi).
      rewrite (Hal body (Hsl _ Hb)); [done|]. rewrite Hi. by apply (absent _ _ x Hnd).
  - by intros s.
  - intros c l Hc IHc Hl IHl s Hu Hg Hnd. rewrite labels_list_cons in Hnd.
    pose proof Hnd as (Hnc & _ & Hnl)%list.NoDup_app. cbn [exec_list].
    pose proof (Hst c Hc s Hu Hg) as Hstc. pose proof (Hec c Hc s Hu Hg) as Hends.
    intros s1 s1' E Hs. rewrite goto_list_cons.
    destruct (exec_code C c s) as [[s2|r2 s2]| | |] eqn:Ec; try done; cbn in E.
    + cbn in Hends. rewrite Hends. destruct Hstc as [Hg2 Hu2].
      destruct (IHl s2 Hu2 Hg2 Hnl s1 s1' E Hs) as (r & Hr & Ho). exists r. split; [|done].
      pose proof (Hel l Hl s2 Hu2 Hg2) as Hends2. rewrite E in Hends2.
      destruct Hends2 as (x & Hx & Hi).
      rewrite (Hac c (Hsc _ Hc)); [done|]. rewrite Hi. by apply (absent _ _ x Hnd).
    + injection E as -> ->. destruct (IHc s Hu Hg Hnc s1 s1' Ec Hs) as (r & Hr & Ho). rewrite Hr.
      eexists; split; [done|]. apply and_then_rel; [done|]. intros s3 s3' -> Hs3.
      pose proof (Hst2 c (Hsc _ Hc) s Hu (good_more s Hg)) as H3.
      destruct (exec_code C2 c s) as [[s4|r4 s4]| | |]; try done.
      destruct (sim_good s3 s4 Ho (proj1 H3) (proj2 H3)). by apply Hsim; auto.
Qed.

End Resumption.

Lemma store_within (W : Z → Prop) bs m p m' :
  store_bytes bs m p = Some m' → (∀ a, p ≤ a < p + Z.of_nat (length bs) → W a) → agree W m m'.
Proof.
  intros E Hw. split; intros a.
  - intros Ha. symmetry. apply (store_frame _ _ _ _ _ E). unfold outside.
    destruct (decide (p ≤ a < p + Z.of_nat (length bs))); [|lia]. exfalso. auto.
  - symmetry. by apply (store_dom _ _ _ _ E).
Qed.

Lemma write_within (W : Z → Prop) T m p v m' :
  write T m p v = Ret m' → (∀ a, p ≤ a < p + Z.of_nat (sizeof T) → W a) → agree W m m'.
Proof.
  unfold write. destruct (store_bytes _ m p) as [x|] eqn:E; [|done]. intros [= <-] Hw.
  eapply store_within; [done|]. by rewrite length_le_encode.
Qed.

Lemma memcpy_within (W : Z → Prop) m d src len m' :
  memcpy m d src len = Ret m' → 0 ≤ len → (∀ a, d ≤ a < d + len → W a) → agree W m m'.
Proof.
  unfold memcpy. intros H Hlen Hw. case_bool; [simplify_eq; apply agree_refl|]. case_bool; [done|].
  destruct (load_bytes _ m src) as [bs|] eqn:El; [|done]. cbn in H.
  destruct (store_bytes bs m d) as [x|] eqn:E; [|done]. cbn in H. simplify_eq.
  eapply store_within; [done|]. rewrite (length_load _ _ _ _ El). intros a Ha. apply Hw. lia.
Qed.

(** ** Where an expression writes *)

(** The types an expression gives to [dollar]. *)
Fixpoint dollars (x : cexpr) : list string :=
  match x with
  | XDollar t => [t]
  | XMember a _ | XNot a | XCast _ a => dollars a
  | XBin _ a b | XAssign a b => dollars a ++ dollars b
  | XCond a b c => dollars a ++ dollars b ++ dollars c
  | _ => []
  end.

Section EvalWithin.
  Context (es : enums) (members : list (string * (Z * string))) (u : Z) (dollar : option Z) (W : Z → Prop).
  Context (Hm : ∀ f o c, member es members f = Ret (o, c) →
             ∀ a, u + o ≤ a < u + o + Z.of_nat (sizeof (rep c)) → W a).

Definition dollars_within (x : cexpr) : Prop :=
  ∀ t p c, t ∈ dollars x → lvalue es members u dollar (XDollar t) = Ret (p, c) →
    ∀ a, p ≤ a < p + Z.of_nat (sizeof (rep c)) → W a.

Lemma lvalue_within x p c :
  dollars_within x → lvalue es members u dollar x = Ret (p, c) →
  ∀ a, p ≤ a < p + Z.of_nat (sizeof (rep c)) → W a.
Proof using Hm.
  intros Hd. destruct x as [| | | | | |t|a f| | | | |]; try done.
  - intros H. eapply (Hd t); [by left|done].
  - destruct a; try done. cbn.
    destruct (member es members f) as [[o c']| | |] eqn:E; try done. cbn. intros [= <- <-]. eauto.
Qed.

Lemma eval_within x m v m' :
  dollars_within x → eval es members u dollar x m = Ret (v, m') → agree W m m'.
Proof using Hm.
  revert m v m'. induction x as [z|b| |n|t l|t|t|a IH f|a IH|o a IHa b IHb|t a IH|a IHa b IHb|c IHc t IHt f IHf];
    intros m v m' Hd H.
  - cbn [eval] in H. destruct_binds H. simplify_eq. apply agree_refl.
  - cbn [eval] in H. simplify_eq. apply agree_refl.
  - done.
  - done.
  - cbn [eval] in H. destruct_binds H. simplify_eq. apply agree_refl.
  - done.
  - cbn [eval] in H. destruct_binds H. simplify_eq. apply agree_refl.
  - destruct a; try done. cbn [eval] in H. destruct_binds H. simplify_eq. apply agree_refl.
  - cbn [eval] in H. destruct_binds H. simplify_eq. eauto.
  - assert (dollars_within a) by (intros ? ? ? Hx; apply Hd; apply elem_of_app; by left).
    assert (dollars_within b) by (intros ? ? ? Hx; apply Hd; apply elem_of_app; by right).
    destruct o; cbn [eval] in H; destruct_binds H; simplify_eq; eauto using agree_trans.
  - cbn [eval] in H. destruct_binds H. simplify_eq. eauto.
  - assert (dollars_within a) by (intros ? ? ? Hx; apply Hd; apply elem_of_app; by left).
    assert (dollars_within b) by (intros ? ? ? Hx; apply Hd; apply elem_of_app; by right).
    cbn [eval] in H. destruct_binds H. simplify_eq.
    eapply agree_trans; [by eauto|]. eapply write_within; [done|]. by eapply (lvalue_within a).
  - assert (dollars_within c) by (intros ? ? ? Hx; apply Hd; apply elem_of_app; by left).
    assert (dollars_within t) by (intros ? ? ? Hx; apply Hd; cbn [dollars]; rewrite !elem_of_app; auto).
    assert (dollars_within f) by (intros ? ? ? Hx; apply Hd; cbn [dollars]; rewrite !elem_of_app; auto).
    cbn [eval] in H. destruct_binds H. simplify_eq.
    match goal with E : (if ?b then _ else _) = Ret _ |- _ => destruct b end; eauto using agree_trans.
Qed.

Lemma text_within s m c v m' :
  (∀ x, read_cpp s = Some x → dollars_within x) →
  eval_text es members u dollar s m = Ret (c, v, m') → agree W m m'.
Proof using Hm.
  intros Hd H. unfold eval_text in H. destruct (read_cpp s) as [x|] eqn:E; [|done]. cbn in H.
  destruct_binds H. simplify_eq. eapply eval_within; [by apply Hd|done].
Qed.

End EvalWithin.

(** ** Where a parser writes *)

Section Writes.
  Context (C : context) (F : Z → Prop) (u : Z) (Hok : call_ok C F u) (W : Z → Prop).
  Context (Hm : ∀ f o t sz al, assoc f (c_members C) = Some (o, t) →
             size_align (c_enums C) t = Some (sz, al) → ∀ a, u + o ≤ a < u + o + sz → W a).
  Context (Ht : ∀ tmp q t sz al, assoc tmp (c_temps C) = Some (q, t) →
             size_align (c_enums C) t = Some (sz, al) → ∀ a, q ≤ a < q + sz → W a).

Definition area_in (a : UnitArea.UnitArea) : Prop :=
  area_small a ∧ ∀ x, UnitArea.contents a ≤ x < UnitArea.contents a + UnitArea.size_ a → W x.

Lemma scalars_within f o c :
  member (c_enums C) (c_members C) f = Ret (o, c) →
  ∀ a, u + o ≤ a < u + o + Z.of_nat (sizeof (rep c)) → W a.
Proof using Hm. intros (ft & Hf & _ & Hs)%member_scalar. eauto. Qed.

Lemma eval_text_within x m c v m' :
  eval_text (c_enums C) (c_members C) u None x m = Ret (c, v, m') → agree W m m'.
Proof using Hm.
  eapply (text_within _ _ u None W scalars_within). by intros y _ t p c' _ H.
Qed.

Lemma assign_within from v f s s' p t :
  p_unit s = u → member_address C f s = Ret (p, t) → assign C from v p t s = Ret s' →
  agree W (p_mem s) (p_mem s') ∧ p_area s' = p_area s.
Proof using Hm.
  intros Hu Hp H. unfold member_address in Hp. rewrite Hu in Hp. clear Hu.
  unfold assign in H. destruct_binds H. simplify_eq. split; [|done]. cbn.
  eapply write_within; [done|]. destruct (assoc f (c_members C)) as [[o t']|] eqn:Ef; [|done]. cbn in Hp. simplify_eq.
  destruct (scalar_type (c_enums C) t) as [c|] eqn:Es; [|done]. cbn in E. simplify_eq.
  eapply Hm; [done|]. unfold size_align. by rewrite Es.
Qed.

(** The effect of a step on memory and area. *)
Definition wrote (s : pmach) (o : outcome ctl) : Prop :=
  match o with
  | Ret (Next s') | Ret (Return _ s') => agree W (p_mem s) (p_mem s') ∧ area_in (p_area s')
  | _ => True
  end.

Lemma wrote_trans s o k :
  wrote s o → (∀ s', o = Ret (Next s') → wrote s' (k s')) → wrote s (and_then o k).
Proof using Type.
  intros Ho Hk. destruct o as [[s'|r s']| | |]; try done. cbn in *.
  specialize (Hk s' eq_refl). unfold wrote in *.
  destruct (k s') as [[s2|r s2]| | |]; try done; destruct Ho, Hk; split; eauto using agree_trans.
Qed.

(** The next [n] bytes of the destination may be written. *)
Definition room (n : Z) (s : pmach) : Prop := ∀ a, p_dest s ≤ a < p_dest s + n → W a.

Lemma wrote_int w sg o s :
  room (w / 8) s → area_in (p_area s) → good C s → buffer (pos_of s) (c_end C) →
  wrote s (exec_line C (PParseInt w sg o) s).
Proof using Type.
  intros Hr Ha Hg Hb. cbn [exec_line]. destruct (int_parser w sg o) as [f|] eqn:Ef; [|done].
  destruct (int_parser_spec _ _ _ _ Ef) as (n & order & Hf & Ho & Hn).
  cbn [some_or_ill mbind outcome_bind]. rewrite (Hf (p_mem s)). rewrite short_of_spec by done.
  case_bool; [by split; [apply agree_refl|]|].
  destruct (load_bytes n (p_mem s) _) as [bs|] eqn:El; [|done]. cbn [access mbind outcome_bind].
  destruct (store_bytes (order bs) _ _) as [m1|] eqn:Es; [|done]. cbn. split; [|done].
  eapply store_within; [done|]. rewrite order_length, (length_load _ _ _ _ El). intros a Hx.
  apply Hr. rewrite <- Hn, Z.mul_comm, Z.div_mul by done. lia.
Qed.

Lemma wrote_check s : area_in (p_area s) → wrote s (exec_line C PCheck s).
Proof using Type. intros Ha. cbn. destruct (p_res s); by split; [apply agree_refl|]. Qed.

Lemma wrote_set_len k e s :
  p_unit s = u → room 16 s → 0 ≤ len_offset k ≤ 8 → area_in (p_area s) →
  wrote s (exec_line C (PSetLen k e) s).
Proof using Hm.
  intros Hu Hr Hk Ha. cbn [exec_line]. rewrite Hu. clear Hu.
  destruct (eval_text _ _ u None e _) as [[[c v] m]| | |] eqn:Ee; try done. cbn [mbind outcome_bind].
  destruct (implicit _ _ v) as [v1| | |]; try done. cbn [mbind outcome_bind].
  destruct (write uint64_t m _ v1) as [m1| | |] eqn:Ew; try done. cbn. split; [|done].
  eapply agree_trans; [by eapply eval_text_within|]. eapply write_within; [done|].
  change (Z.of_nat (sizeof uint64_t)) with 8. intros a Hx. apply Hr. lia.
Qed.

Lemma wrote_allocate k s :
  room 16 s → area_in (p_area s) → good C s → buffer (pos_of s) (c_end C) →
  wrote s (exec_line C (PAllocateCopy k) s).
Proof using Type.
  intros Hr Ha Hg Hb. cbn [exec_line].
  destruct (read uint64_t _ (p_dest s + len_offset k)) as [len| | |] eqn:El; try done.
  cbn [mbind outcome_bind].
  destruct (read uint64_t _ (p_dest s + data_offset)) as [d0| | |]; try done. cbn [mbind outcome_bind].
  pose proof (read_uint64_range _ _ _ El) as Hlen. destruct Ha as [Hsm Hreg].
  unfold Parsing.allocateCopyBytes. case_bool.
  { cbn. by destruct (pointer_add _ len _). }
  destruct (UnitArea.allocate len (p_area s)) as [[d a']|] eqn:Ea.
  2: { cbn. by destruct (pointer_add _ len _). }
  destruct (memcpy _ d _ len) as [m1| | |] eqn:Ec; try done. cbn [mbind outcome_bind].
  destruct (pointer_add _ len _); try done. cbn [mbind outcome_bind].
  destruct (write uint64_t m1 _ d) as [m2| | |] eqn:Ew; try done. cbn.
  destruct Hsm as [Hwf Hsz].
  destruct (UnitAreaLemmas.allocate_wf len _ _ _ ltac:(lia) Hwf Ea) as (Hwf' & Hth & Hs' & -> & Hn').
  split.
  - eapply agree_trans; [eapply memcpy_within; [done|lia|]|eapply write_within; [done|]].
    + intros x Hx. apply Hreg. unfold UnitAreaLemmas.area_wf, UnitArea.contents in *. lia.
    + change (Z.of_nat (sizeof uint64_t)) with 8. intros x Hx. apply Hr. unfold data_offset in Hx. lia.
  - split; [split; [done|lia]|]. unfold UnitArea.contents in *. rewrite Hth, Hs'. done.
Qed.

Lemma wrote_range_start s : room 16 s → area_in (p_area s) → wrote s (exec_line C PRangeStart s).
Proof using Type.
  intros Hr Ha. cbn [exec_line]. destruct (write uint64_t _ _ _) as [m1| | |] eqn:Ew; try done.
  cbn. split; [|done]. eapply write_within; [done|]. change (Z.of_nat (sizeof uint64_t)) with 8.
  intros x Hx. apply Hr. unfold start_offset in Hx. lia.
Qed.

Lemma wrote_advance s : area_in (p_area s) → wrote s (exec_line C PAdvanceRange s).
Proof using Type.
  intros Ha. cbn [exec_line]. destruct (read uint64_t _ _); try done. cbn [mbind outcome_bind].
  destruct (Parsing.advance _ _ _) as [r p]. by destruct (pointer_add _ _ p).
Qed.

Lemma wrote_cast cu f t tmp s :
  p_unit s = u → area_in (p_area s) → wrote s (exec_line C (PCastField cu f t tmp) s).
Proof using Hm.
  intros Hu Ha. cbn [exec_line].
  destruct (assoc tmp (c_temps C)) as [[q qt]|]; [|done]. cbn [some_or_ill mbind outcome_bind].
  destruct (scalar_type (c_enums C) qt) as [ct|]; [|done]. cbn [some_or_ill mbind outcome_bind].
  destruct (read _ _ q); try done. cbn [mbind outcome_bind].
  destruct (scalar_type (c_enums C) t) as [c0|]; [|done]. cbn [some_or_ill mbind outcome_bind].
  destruct (member_address C f s) as [[p ft]| | |] eqn:Ef; try done. cbn [mbind outcome_bind].
  destruct (assign C _ _ p ft _) as [s1| | |] eqn:E; try done. cbn.
  destruct (assign_within _ _ _ _ _ _ _ Hu Ef E) as [? ->]. done.
Qed.

Lemma wrote_assign cu f e s :
  p_unit s = u → area_in (p_area s) → wrote s (exec_line C (PAssignField cu f e) s).
Proof using Hm.
  intros Hu Ha. cbn [exec_line]. rewrite Hu.
  destruct (eval_text _ _ u None e _) as [[[c v] m]| | |] eqn:Ee; try done. cbn [mbind outcome_bind].
  destruct (member_address C f s) as [[p ft]| | |] eqn:Ef; try done. cbn [mbind outcome_bind].
  destruct (assign C _ _ p ft _) as [s1| | |] eqn:E; try done. cbn.
  destruct (assign_within _ _ f (set_mem m s) _ _ _ Hu Ef E) as [H ->]. split; [|done].
  eapply agree_trans; [by eapply eval_text_within|done].
Qed.

Lemma set_len_mem k e s s' : exec_line C (PSetLen k e) s = Ret (Next s') → ∃ m, s' = set_mem m s.
Proof using Type.
  cbn [exec_line]. destruct (eval_text _ _ _ None e _) as [[[c v] m]| | |]; try done.
  cbn [mbind outcome_bind]. destruct (implicit _ _ v); try done. cbn [mbind outcome_bind].
  destruct (write uint64_t m _ _); try done. cbn. intros [= <-]. by eexists.
Qed.

Lemma range_start_mem s s' : exec_line C PRangeStart s = Ret (Next s') → ∃ m, s' = set_mem m s.
Proof using Type.
  cbn [exec_line]. destruct (write uint64_t _ _ _); try done. cbn. intros [= <-]. by eexists.
Qed.

Lemma parse_int_unit w sg o s s' :
  exec_line C (PParseInt w sg o) s = Ret (Next s') → p_unit s' = p_unit s.
Proof using Type.
  cbn [exec_line]. destruct (int_parser w sg o) as [f|]; [|done]. cbn [some_or_ill mbind outcome_bind].
  destruct (f _ _ _ _) as [[[r p] m]| | |]; try done. cbn. by intros [= <-].
Qed.

Lemma wrote_cons l k s :
  wrote s (exec_line C l s) →
  (∀ s', exec_line C l s = Ret (Next s') → area_in (p_area s') → wrote s' (exec_list C k s')) →
  wrote s (exec_list C (Line l :: k) s).
Proof using Type.
  intros Hl Hk. cbn [exec_list exec_code]. apply wrote_trans; [done|]. intros s' E.
  apply Hk; [done|]. rewrite E in Hl. apply Hl.
Qed.

Lemma wrote_nil s : area_in (p_area s) → wrote s (exec_list C [] s).
Proof using Type. by split; [apply agree_refl|]. Qed.

Lemma wrote_dest cu f k s :
  area_in (p_area s) →
  (∀ o t, assoc f (c_members C) = Some (o, t) → wrote (set_dest (p_unit s + o) s)
     (exec_list C k (set_dest (p_unit s + o) s))) →
  wrote s (exec_list C (Line (PDestField cu f) :: k) s).
Proof using Type.
  intros Ha Hk. rewrite dest_field_run. destruct (assoc f (c_members C)) as [[o t]|]; [|done].
  apply (Hk o t eq_refl).
Qed.

Lemma atomic_wrote b s :
  atomic C b → p_unit s = u → good C s → area_in (p_area s) → wrote s (exec_list C b s).
Proof using Hok Hm Ht.
  intros Hb Hu Hg Ha.
  assert (Hbuf : buffer (pos_of s) (c_end C)).
  { apply (rest_apart C F u Hok s Hg). }
  assert (Hroom : ∀ f o t, container C f → assoc f (c_members C) = Some (o, t) →
            room 16 (set_dest (p_unit s + o) s)).
  { intros f o t Hc Hf a Hx. cbn in Hx. rewrite Hu in Hx. eapply Hm; [done| |exact Hx].
    apply (container_size C F u Hok). eauto. }
  destruct Hb as [|cu f e|cu f|cu f w sg o Hfit|cu f k e Hk Hc Hp|cu f e Hc Hp|tmp w sg o cu f t Hfit].
  - by apply wrote_nil.
  - apply wrote_cons; [by apply wrote_assign|]. intros. by apply wrote_nil.
  - apply wrote_dest; [done|]. intros. by apply wrote_nil.
  - apply wrote_dest; [done|]. intros o' t Hf. apply wrote_cons.
    + apply wrote_int; try done. intros a Hx. cbn in Hx. rewrite Hu in Hx.
      destruct (Hfit o' t Hf) as (sz & al & Hs & Hw). eapply Hm; [done|done|].
      pose proof (Z.div_le_upper_bound w 8 sz ltac:(lia) Hw). lia.
    + intros s' _ Ha'. apply wrote_cons; [by apply wrote_check|]. intros. by apply wrote_nil.
  - apply wrote_dest; [done|]. intros o' t Hf. apply wrote_cons.
    + apply wrote_set_len; eauto. lia.
    + intros s' [m ->]%set_len_mem Ha'. apply wrote_cons.
      * apply wrote_allocate; try done. exact (Hroom _ _ _ Hc Hf).
      * intros s2 _ Ha2. apply wrote_cons; [by apply wrote_check|]. intros. by apply wrote_nil.
  - apply wrote_dest; [done|]. intros o' t Hf. apply wrote_cons.
    + apply wrote_set_len; eauto. done.
    + intros s' [m ->]%set_len_mem Ha'. apply wrote_cons.
      * apply wrote_range_start; [|done]. exact (Hroom _ _ _ Hc Hf).
      * intros s2 [m2 ->]%range_start_mem Ha2. apply wrote_cons; [by apply wrote_advance|].
        intros s3 _ Ha3. apply wrote_cons; [by apply wrote_check|]. intros. by apply wrote_nil.
  - rewrite dest_temp_run. destruct (assoc tmp (c_temps C)) as [[q qt]|] eqn:Eq; [|done].
    change (wrote (set_dest q s)
      (exec_list C [Line (PParseInt w sg o); Line PCheck; Line (PCastField cu f t tmp)] (set_dest q s))).
    apply wrote_cons.
    + apply wrote_int; try done. intros a Hx. cbn in Hx.
      destruct (Hfit q qt Eq) as (c & Hs & Hw). eapply Ht; [done|unfold size_align; by rewrite Hs|].
      rewrite <- Hw in Hx. unfold width in Hx. rewrite Z.mul_comm, Z.div_mul in Hx by done. lia.
    + intros s' Es Ha'. apply parse_int_unit in Es. apply wrote_cons; [by apply wrote_check|].
      intros s2 Ec Ha2. apply wrote_cons; [|intros; by apply wrote_nil]. apply wrote_cast; [|done].
      cbn in Ec. destruct (p_res s'); simplify_eq. by rewrite Es.
Qed.

Lemma exec_wrote :
  (∀ c, instr C c → ∀ s, p_unit s = u → good C s → area_in (p_area s) → wrote s (exec_code C c s)) ∧
  (∀ l, case_instrs C l → ∀ i s, p_unit s = u → good C s → area_in (p_area s) →
     wrote s (exec_nth C l i s)) ∧
  (∀ l, instrs C l → ∀ s, p_unit s = u → good C s → area_in (p_area s) → wrote s (exec_list C l s)).
Proof using Hok Hm Ht.
  destruct (stays_good C F u Hok (ok_size _ _ _ Hok)) as (Hst & _ & _).
  apply instr_mutind.
  - intros l b Hb s Hu Hg Ha. rewrite exec_block.
    exact (atomic_wrote b (adv C l s) Hb Hu Hg Ha).
  - intros l e cases _ IH s Hu Hg Ha. rewrite exec_block_switch.
    destruct (exec_switch C e cases (adv C l s)) as [[i s1]| | |] eqn:E; try done.
    assert (∃ m, s1 = set_mem m (adv C l s) ∧ agree W (p_mem s) m) as (m & -> & Hag).
    { unfold exec_switch in E. change (p_unit (adv C l s)) with (p_unit s) in E. rewrite Hu in E.
      destruct (eval_text _ _ u None e _) as [[[c v] m]| | |] eqn:Ee; try done.
      cbn [mbind outcome_bind] in E. destruct (select _ _ _ _ _ _ _); try done. cbn in E.
      injection E as <- <-. exists m. split; [done|]. by eapply eval_text_within. }
    cbn [mbind outcome_bind]. destruct i as [i|]; [|by split].
    specialize (IH i (set_mem m (adv C l s)) Hu Hg Ha). unfold wrote in *.
    destruct (exec_nth C cases i _) as [[s2|r s2]| | |]; try done; destruct IH; split; try done;
      by eapply agree_trans.
  - intros [] s ???; by apply wrote_nil.
  - intros ls d body cases _ IHb _ IHc [|i] s Hu Hg Ha; cbn [exec_nth]; auto.
  - intros s ???. by apply wrote_nil.
  - intros c l Hc IHc _ IHl s Hu Hg Ha. cbn [exec_list]. apply wrote_trans; [by apply IHc|].
    intros s' E. pose proof (Hst c Hc s Hu Hg) as Hs. pose proof (IHc s Hu Hg Ha) as Hw.
    rewrite E in Hs, Hw. apply IHl; [apply Hs|apply Hs|apply Hw].
Qed.

End Writes.

(** ** Calls *)

(** The stack of a parser does not change while it runs. *)
Definition same_stack (s t : ParserState.ParserState) : Prop :=
  ParserState.stack_ s = ParserState.stack_ t ∧
  ParserState.stack_size_ s = ParserState.stack_size_ t ∧
  ParserState.stack_top_ s = ParserState.stack_top_ t.

Section Stack.
  Context (C : context).

Definition keeps_stack (s : pmach) (o : outcome ctl) : Prop :=
  match o with
  | Ret (Next s') | Ret (Return _ s') => same_stack (p_state s) (p_state s')
  | _ => True
  end.

Lemma keeps_line l s : keeps_stack s (exec_line C l s).
Proof using Type.
  destruct l; cbn [exec_line]; unfold member_address, assign;
    repeat first
      [ done
      | match goal with
        | |- keeps_stack _ (mbind _ (mbind _ ?x)) => destruct x eqn:?; cbn [mbind outcome_bind]
        | |- keeps_stack _ (mbind _ ?x) => destruct x eqn:?; cbn [mbind outcome_bind]
        | |- context [let '(_, _) := ?p in _] => destruct p
        | |- context [match p_res ?s with _ => _ end] => destruct (p_res s)
        end ].
Qed.

Lemma keeps_then s o k :
  keeps_stack s o → (∀ s', o = Ret (Next s') → keeps_stack s' (k s')) → keeps_stack s (and_then o k).
Proof using Type.
  intros Ho Hk. destruct o as [[s'|r s']| | |]; try done. cbn in *.
  specialize (Hk s' eq_refl). unfold keeps_stack, same_stack in *.
  destruct (k s') as [[s2|r s2]| | |]; try done; naive_solver congruence.
Qed.

Lemma atomic_stack b s : atomic C b → keeps_stack s (exec_list C b s).
Proof using Type.
  destruct 1; cbn [exec_list exec_code];
    repeat (apply keeps_then; [apply keeps_line|intros ? _]); done.
Qed.

Lemma exec_stack :
  (∀ c, instr C c → ∀ s, keeps_stack s (exec_code C c s)) ∧
  (∀ l, case_instrs C l → ∀ i s, keeps_stack s (exec_nth C l i s)) ∧
  (∀ l, instrs C l → ∀ s, keeps_stack s (exec_list C l s)).
Proof using Type.
  apply instr_mutind.
  - intros l b Hb s. rewrite exec_block. exact (atomic_stack b (adv C l s) Hb).
  - intros l e cases _ IH s. rewrite exec_block_switch.
    destruct (exec_switch C e cases (adv C l s)) as [[i s1]| | |] eqn:E; try done.
    apply exec_switch_mem in E as [m ->]. cbn [mbind outcome_bind].
    destruct i as [i|]; [exact (IH i (set_mem m (adv C l s)))|done].
  - by intros [] s.
  - intros ls d body cases _ IHb _ IHc [|i] s; cbn [exec_nth]; auto.
  - done.
  - intros c l _ IHc _ IHl s. cbn [exec_list]. apply keeps_then; auto.
Qed.

End Stack.

(** What a first call relies on: [F] are the addresses of the locals of the calls, [size] the
    size of the unit class. *)
Record fresh_ok (C : context) (F : Z → Prop) (size : Z) (area : UnitArea.UnitArea)
    (st : ParserState.ParserState) : Prop := {
  f_area : area_small area;
  f_enums t : t ∈ container_types → assoc t (c_enums C) = None;
  f_members f o t sz al :
    assoc f (c_members C) = Some (o, t) → size_align (c_enums C) t = Some (sz, al) →
    0 ≤ o ∧ o + sz ≤ size;
  f_disjoint f o t sz al f' o' t' sz' al' :
    f ≠ f' →
    assoc f (c_members C) = Some (o, t) → size_align (c_enums C) t = Some (sz, al) →
    assoc f' (c_members C) = Some (o', t') → size_align (c_enums C) t' = Some (sz', al') →
    o + sz ≤ o' ∨ o' + sz' ≤ o;
  f_temps tmp q t sz al :
    assoc tmp (c_temps C) = Some (q, t) → size_align (c_enums C) t = Some (sz, al) →
    ∀ a, q ≤ a < q + sz → F a;
  f_locals : apart F (UnitArea.contents area) (UnitArea.size_ area);
  f_input : apart F (c_start C) (c_end C - c_start C);
  f_length : 0 ≤ c_end C - c_start C < 2 ^ 63;
  f_stack : apart F (ParserState.stack_top_ st) 8;
  f_stack_area a :
    ParserState.stack_top_ st ≤ a < ParserState.stack_top_ st + 8 →
    ¬ (UnitArea.contents area ≤ a < UnitArea.contents area + UnitArea.size_ area);
  f_label : Inj eq eq (c_label C);
  f_label_nz l : c_label C l ≠ 0;
  f_size : 0 ≤ size }.

(** The same result, up to the locals. *)
Definition call_rel (F : Z → Prop) (r r' : call_result) : Prop :=
  r_result r = r_result r' ∧ r_bytes r = r_bytes r' ∧ r_area r = r_area r' ∧
  r_state r = r_state r' ∧ agree F (r_mem r) (r_mem r').

Lemma finish_rel C F o o' :
  orel (crel F) o o' → orel (call_rel F) (finish C o) (finish C o').
Proof.
  intros H. destruct o as [[s|r s]| | |], o' as [[s'|r' s']| | |]; try done; cbn in H |- *.
  - destruct H as (? & ? & Hs & ?). unfold pos_of. rewrite Hs. by split_and!.
  - destruct H as (-> & ? & ? & Hs & ?). by split_and!.
Qed.

Lemma write_read64 m p v m' :
  write uint64_t m p v = Ret m' → 0 ≤ v < 2 ^ 64 → read uint64_t m' p = Ret v.
Proof.
  intros [Hl _]%write_load Hv. unfold read. rewrite Hl. cbn [access mbind outcome_bind].
  change (sizeof uint64_t) with 8%nat. change (width uint64_t) with 64.
  unfold convert. change (is_signed uint64_t) with false. change (width uint64_t) with 64.
  cbn iota. rewrite le_decode_encode. change (8 * Z.of_nat 8) with 64.
  by rewrite !(uwrap_small 64 v) by lia.
Qed.

Section Call.
  Context (C : context) (F : Z → Prop) (size : Z) (area : UnitArea.UnitArea).
  Context (st : ParserState.ParserState).
  Context (e2 : Z) (He : c_end C ≤ e2) (Hstart : c_start C ≤ c_end C).
  Context (Hok : fresh_ok (with_end e2 C) F size area st).
  Context (body : list pcode) (Hshape : instrs C body) (Hlabels : NoDup (labels_list body)).
  Context (Hnew : ParserState.instruction st = 0).

Definition W : Z → Prop := λ a,
  F a ∨ UnitArea.contents area ≤ a < UnitArea.contents area + UnitArea.size_ area.

(** The first state of a call that got its unit. *)
Definition first_state (m : mem) (a : UnitArea.UnitArea) (st1 : ParserState.ParserState) (u : Z)
    : pmach := mkM m a (ParserState.set_stream_pos (c_start C) st1) u 0 Parsing.NEXT.

Lemma first_call c m :
  c = C ∨ c = with_end e2 C →
  parse_call c body size m area st =
    '(_, st1) ← ParserState.push_reserve 8 st;
    match UnitArea.allocate_item size area with
    | None => Ret (mkCall Parsing.AREA_FULL None m area st1)
    | Some (u, a) =>
        p ← ParserState.peek 8 st1;
        m ← write uint64_t m p u;
        finish c (exec_list c body (first_state m a st1 u))
    end.
Proof using Hok Hnew.
  intros Hc. unfold parse_call. rewrite Hnew. cbn [negb Z.eqb].
  destruct (ParserState.push_reserve 8 st) as [[q st1]| | |]; try done. cbn [mbind outcome_bind].
  destruct (UnitArea.allocate_item size area) as [[u a]|] eqn:Ea; [|done].
  destruct (ParserState.peek 8 st1) as [p| | |]; try done. cbn [mbind outcome_bind].
  destruct (write uint64_t m p u) as [m1| | |] eqn:Ew; try done. cbn [mbind outcome_bind].
  destruct (f_area _ _ _ _ _ Hok) as [Hwf Hsz].
  destruct (UnitAreaLemmas.allocate_wf size area u a (f_size _ _ _ _ _ Hok) Hwf Ea)
    as (_ & _ & _ & -> & _).
  rewrite (write_read64 _ _ _ _ Ew).
  - cbn [mbind outcome_bind]. unfold first_state. by destruct Hc as [->| ->].
  - unfold UnitAreaLemmas.area_wf, UnitArea.contents, UnitArea.sizeof_this in Hwf. lia.
Qed.

Section Unit.
  Context (a : UnitArea.UnitArea) (u : Z) (Ha : UnitArea.allocate_item size area = Some (u, a)).

Lemma unit_facts :
  area_small a ∧ UnitArea.contents a = UnitArea.contents area ∧ UnitArea.size_ a = UnitArea.size_ area ∧
  UnitArea.contents area ≤ u ∧ u + size ≤ UnitArea.contents area + UnitArea.size_ area.
Proof using Ha Hok.
  destruct (f_area _ _ _ _ _ Hok) as [Hwf Hsz].
  destruct (UnitAreaLemmas.allocate_wf size area u a (f_size _ _ _ _ _ Hok) Hwf Ha)
    as (Hwf' & Hth & Hs' & -> & Hn).
  unfold area_small, UnitAreaLemmas.area_wf, UnitArea.contents in *. rewrite Hth, Hs' in *. lia.
Qed.

Lemma call_ok2 : call_ok (with_end e2 C) F u.
Proof using Ha Hok.
  destruct unit_facts as (_ & _ & _ & Hlo & Hhi). destruct Hok. split; try done; [|lia].
  intros f o t sz al Hf Hs x Hx. apply f_locals0.
  destruct (f_members0 _ _ _ _ _ Hf Hs). lia.
Qed.

Lemma unit_writes f o t sz al :
  assoc f (c_members C) = Some (o, t) → size_align (c_enums C) t = Some (sz, al) →
  ∀ x, u + o ≤ x < u + o + sz → W x.
Proof using Ha Hok.
  intros Hf Hs x Hx. destruct unit_facts as (_ & _ & _ & Hlo & Hhi).
  destruct (f_members _ _ _ _ _ Hok _ _ _ _ _ Hf Hs). right. lia.
Qed.

Lemma area_in_W : area_in W a.
Proof using Ha Hok.
  destruct unit_facts as (Hs & Hc & Hsz & _). split; [done|]. intros x Hx. right. lia.
Qed.

End Unit.

(** A call that ran out of data, called again with more, ends as if it had had the data. *)
Lemma call_again m r1 m1 :
  parse_call C body size m area st = Ret r1 → r_result r1 = Parsing.OUT_OF_DATA →
  agree F (r_mem r1) m1 →
  orel (call_rel F) (parse_call (with_end e2 C) body size m1 (r_area r1) (r_state r1))
    (parse_call (with_end e2 C) body size m area st).
Proof using He Hstart Hok Hshape Hlabels Hnew.
  intros H1 Hout Hm1. rewrite first_call in H1 by auto. rewrite (first_call (with_end e2 C)) by auto.
  destruct (ParserState.push_reserve 8 st) as [[q st1]| | |] eqn:Epush; try done.
  cbn [mbind outcome_bind] in H1 |- *.
  destruct (UnitArea.allocate_item size area) as [[u a]|] eqn:Ea; [|by injection H1 as <-].
  destruct (ParserState.peek 8 st1) as [p| | |] eqn:Ep; try done. cbn [mbind outcome_bind] in H1 |- *.
  destruct (write uint64_t m p u) as [m0| | |] eqn:Ew; try done. cbn [mbind outcome_bind] in H1 |- *.
  destruct (exec_list C body (first_state m0 a st1 u)) as [c| | |] eqn:Ee; try done.
  cbn in H1. injection H1 as <-. destruct c as [s1|r s1]; cbn in Hout; [done|]. subst r.
  destruct (unit_facts a u Ea) as (Hsm & _ & _ & Hlo & Hhi).
  pose proof (call_ok2 a u Ea) as Hok2. pose proof (ok_less C F u e2 He Hok2) as Hok1.
  assert (Hg : good C (first_state m0 a st1 u)).
  { split; [|done]. unfold pos_of. cbn. lia. }
  assert (Hi : Inj eq eq (c_label C)) by exact (f_label _ _ _ _ _ Hok).
  destruct (exec_ends C F u e2 He Hok2) as (_ & _ & Hends).
  specialize (Hends body Hshape (first_state m0 a st1 u) eq_refl Hg). rewrite Ee in Hends.
  destruct Hends as (l & _ & Hl).
  destruct (exec_stack C) as (_ & _ & Hst). specialize (Hst body Hshape (first_state m0 a st1 u)).
  rewrite Ee in Hst. destruct Hst as (Hs1 & Hs2 & Hs3). cbn in Hs1, Hs2, Hs3.
  destruct (exec_wrote C F u Hok1 W (unit_writes a u Ea)) as (_ & _ & Hw).
  { intros tmp tq t sz al Hq Hsz x Hx. left. by eapply (f_temps _ _ _ _ _ Hok). }
  specialize (Hw body Hshape (first_state m0 a st1 u) eq_refl Hg (area_in_W a u Ea)).
  rewrite Ee in Hw. destruct Hw as [Hw _]. cbn in Hw.
  cbn [r_mem r_area r_state] in *.
  destruct (exec_resumes C F u e2 He Hok2 Hi) as (_ & _ & Hres).
  destruct (Hres body Hshape (first_state m0 a st1 u) eq_refl Hg Hlabels s1
    (mkM m1 (p_area s1) (p_state s1) u 0 Parsing.NEXT) Ee) as (o & Ho & Hrel).
  { split_and!; try done.
    destruct (stays_good C F u Hok1 (ok_size _ _ _ Hok1)) as (_ & _ & Hst).
    specialize (Hst body Hshape (first_state m0 a st1 u) eq_refl Hg). rewrite Ee in Hst.
    apply Hst. }
  unfold parse_call at 1. rewrite Hl.
  rewrite (proj2 (Z.eqb_neq (c_label C l) 0)) by apply (f_label_nz _ _ _ _ _ Hok). cbn [negb].
  assert (ParserState.peek 8 (p_state s1) = Ret p) as ->.
  { rewrite <- Ep. unfold ParserState.peek, ParserState.has_object, ParserState.stack_space.
    by rewrite <- Hs1, <- Hs2, <- Hs3. }
  cbn [mbind outcome_bind].
  assert (p = ParserState.stack_top_ st) as Hp.
  { unfold ParserState.push_reserve in Epush. case_bool; [|done]. injection Epush as <- <-.
    unfold ParserState.peek in Ep. case_bool; [|done]. injection Ep as <-. cbn. lia. }
  assert (read uint64_t m1 p = Ret u) as ->.
  { rewrite <- (read_agree F uint64_t (p_mem s1) m1 p Hm1).
    - rewrite <- (read_agree W uint64_t m0 (p_mem s1) p Hw).
      + apply (write_read64 _ _ _ _ Ew). destruct Hsm as [Hwf _].
        destruct (f_area _ _ _ _ _ Hok) as [Hwf0 _].
        unfold UnitAreaLemmas.area_wf, UnitArea.contents, UnitArea.sizeof_this in *.
        pose proof (f_size _ _ _ _ _ Hok). lia.
      + subst p. change (Z.of_nat (sizeof uint64_t)) with 8. intros x Hx [HF|HA].
        * by apply (f_stack _ _ _ _ _ Hok x Hx).
        * by apply (f_stack_area _ _ _ _ _ Hok x Hx).
    - subst p. apply (f_stack _ _ _ _ _ Hok). }
  cbn [mbind outcome_bind]. rewrite <- Hl, Ho. by apply finish_rel.
Qed.

End Call.

(** ** Parsing incrementally

    [parse_loop] calls the parser with the ends [e :: ends] of the data that has arrived, until
    it returns something else than [OUT_OF_DATA] (the loop of [perfeval]); between two calls
    the locals are lost, and their memory may be used for anything ([scramble]).
    [reparse_loop] starts anew with every end. *)
Section Loops.
  Context (C : context) (size : Z) (body : list pcode) (scramble : mem → mem).

Fixpoint parse_loop (e : Z) (ends : list Z) (m : mem) (area : UnitArea.UnitArea)
    (st : ParserState.ParserState) : outcome (call_result * Z) :=
  r ← parse_call (with_end e C) body size m area st;
  match r_result r, ends with
  | Parsing.OUT_OF_DATA, e' :: ends =>
      parse_loop e' ends (scramble (r_mem r)) (r_area r) (r_state r)
  | _, _ => Ret (r, e)
  end.

Fixpoint reparse_loop (e : Z) (ends : list Z) (m : mem) (area : UnitArea.UnitArea)
    (st : ParserState.ParserState) : outcome (call_result * Z) :=
  r ← parse_call (with_end e C) body size m area st;
  match r_result r, ends with
  | Parsing.OUT_OF_DATA, e' :: ends => reparse_loop e' ends m area st
  | _, _ => Ret (r, e)
  end.
End Loops.

(** Ends that do not decrease, up to [emax]. *)
Fixpoint growing (e : Z) (ends : list Z) (emax : Z) : Prop :=
  match ends with
  | [] => e ≤ emax
  | e' :: ends => e ≤ e' ∧ growing e' ends emax
  end.

Lemma growing_le e ends emax : growing e ends emax → e ≤ emax.
Proof. revert e. induction ends as [|e' ends IH]; cbn; intros e; [done|]. intros [? ?%IH]. lia. Qed.

Lemma fresh_ok_less C F size area st e emax :
  c_start C ≤ e ≤ emax → fresh_ok (with_end emax C) F size area st →
  fresh_ok (with_end e C) F size area st.
Proof.
  intros [Hs He] [H1 H2 H3 H4 H5 H6 H7 H8 H9 H10 H11 H12 H13]. cbn in *. split; try done; cbn; [|lia].
  intros a Ha. apply H7. lia.
Qed.

Section Incremental.
  Context (C : context) (F : Z → Prop) (size : Z) (body : list pcode) (scramble : mem → mem).
  Context (Hshape : instrs C body) (Hlabels : NoDup (labels_list body)).
  Context (Hscramble : ∀ m, agree F m (scramble m)).
  Context (m : mem) (area : UnitArea.UnitArea) (st : ParserState.ParserState) (emax : Z).
  Context (Hok : fresh_ok (with_end emax C) F size area st).
  Context (Hnew : ParserState.instruction st = 0).

Definition loop_rel (x y : call_result * Z) : Prop := call_rel F x.1 y.1 ∧ x.2 = y.2.

Lemma call_rel_agree r r' m' : call_rel F r r' → agree F (r_mem r) m' → agree F (r_mem r') m'.
Proof using Type. intros (_ & _ & _ & _ & H) H'. eapply agree_trans; [by apply agree_sym|done]. Qed.

(** A parser that was suspended at [e0] and goes on. *)
Lemma loop_suspended ends e e0 r0 m0 :
  c_start C ≤ e0 → e0 ≤ e → growing e ends emax →
  parse_call (with_end e0 C) body size m area st = Ret r0 →
  r_result r0 = Parsing.OUT_OF_DATA → agree F (r_mem r0) m0 →
  orel loop_rel (parse_loop C size body scramble e ends m0 (r_area r0) (r_state r0))
    (reparse_loop C size body e ends m area st).
Proof using All.
  revert e e0 r0 m0. induction ends as [|e' ends IH]; intros e e0 r0 m0 Hs He Hg H0 Ho Hm;
    pose proof (growing_le _ _ _ Hg) as Hle.
  all: assert (Hshape0 : instrs (with_end e0 C) body) by (by apply (shape_with_end C e0)).
  all: assert (Hok' : fresh_ok (with_end e C) F size area st)
    by (eapply fresh_ok_less; [|exact Hok]; lia).
  all: pose proof (call_again (with_end e0 C) F size area st e He Hs Hok' body Hshape0 Hlabels Hnew m r0 m0 H0 Ho Hm) as H.
  all: change (with_end e (with_end e0 C)) with (with_end e C) in H; cbn [parse_loop reparse_loop].
  all: destruct (parse_call (with_end e C) body size m0 _ _) as [r| | |] eqn:E,
    (parse_call (with_end e C) body size m area st) as [r'| | |] eqn:E'; try done; cbn in H |- *;
    [|by subst..].
  - pose proof H as (Hr & _). rewrite Hr. by destruct (r_result r').
  - pose proof H as (Hr & _ & Ha & Hst & _). rewrite Hr.
    destruct (r_result r') eqn:Er; try by split.
    rewrite Ha, Hst. destruct Hg as [He' Hg]. eapply (IH e' e r'); try done; [lia|].
    eapply call_rel_agree; [exact H|apply Hscramble].
Qed.

Lemma loop_equiv e ends :
  c_start C ≤ e → growing e ends emax →
  orel loop_rel (parse_loop C size body scramble e ends m area st)
    (reparse_loop C size body e ends m area st).
Proof using All.
  intros Hs Hg. destruct ends as [|e' ends]; cbn [parse_loop reparse_loop];
    destruct (parse_call (with_end e C) body size m area st) as [r| | |] eqn:E; try done; cbn [mbind outcome_bind].
  - assert (Hr : loop_rel (r, e) (r, e)).
    { split; [|done]. by split_and!. }
    by destruct (r_result r).
  - assert (Hr : loop_rel (r, e) (r, e)).
    { split; [|done]. by split_and!. }
    destruct (r_result r) eqn:Er; try exact Hr.
    destruct Hg as [He Hg]. by eapply loop_suspended.
Qed.

End Incremental.
