(* ===== verification/Incremental.v ===== *)
(** * Generated parsers work incrementally

    What [ParserGenerator] writes for a unit has the shape [Resume.v] asks for, its labels and
    temporaries have names of their own, and the members of the unit class do not overlap.
    Hence the main theorems: a generated parser that is called again whenever data has arrived
    ends like one that had all the data from the start, and it writes nothing outside the unit
    area, its stack entry and its locals. *)

From S2P Require Import Prelude Util Runtime Ident Ast Units Translate Generate Exec Resume.
Import Util.Chars Util.Strings Util.StringLemmas Ident.Id Units.Units Translate.Translate Translate.Cpp.
Import Translate.ReadLemmas Runtime.Memory.
Import Generate.Generator Generate.ParserGenerator Generate.UnitClass.
Import Exec.Types Exec.Eval Exec.Exec.

Local Open Scope Z_scope.

(** ** Units the theorems are about *)

(** The fields of a switch are fields. *)
Lemma field_nested_ind (P : field → Prop) (Q : case → Prop) :
  (∀ b fb k, match k with FSwitch _ cases => Forall Q cases | _ => True end →
     P (mkField b fb k)) →
  (∀ es items d, Forall P items → Q (mkCase es items d)) →
  ∀ f, P f.
Proof.
  intros HP HQ. fix IH 1. intros [b fb k]. apply HP. destruct k as [| | | | |e cases| |]; try exact I.
  induction cases as [|[es items d] cases IHc]; constructor; [|exact IHc].
  apply HQ. clear IHc cases. induction items as [|x items IHi]; constructor; [apply IH|exact IHi].
Qed.

Section Supported.
  Context (us : units) (options : Options).

Definition machine_width (w : Z) : bool := bool_decide (w ∈ [8; 16; 32; 64]).

(** The expression of a length does not assign. *)
Definition pure_length (b : item_base) : bool :=
  match attr_lookup "length" (attributes_ b) with
  | Some a =>
      match attr_value a with
      | Some e => match expression_text us e with Ret s => pure_text s | _ => true end
      | None => true
      end
  | None => true
  end.

(** Integers have a width of the machine; a field with another serialized type has an integer
    type there and is converted ([transform_to]); fields are stored. *)
Definition integer_width_ok (t : option ty) : bool :=
  match t with
  | Some t => match kind t with TInteger w _ => machine_width w | _ => true end
  | None => true
  end.
Definition is_integer (t : option ty) : bool :=
  match t with
  | Some t => match kind t with TInteger _ _ => true | _ => false end
  | None => false
  end.
Definition supported_atomic (b : item_base) : bool :=
  pure_length b && integer_width_ok (serialized_type b) &&
  implb (parsing_only b) (store_parsing_only options) &&
  if transformed b then is_integer (serialized_type b) && has_attr "transform_to" b
  else negb (has_serialized_type b).

Fixpoint supported_field (f : field) : bool :=
  let supported_fields := fix supported_fields (l : list field) : bool :=
    match l with [] => true | f :: l => supported_field f && supported_fields l end in
  let supported_cases := fix supported_cases (l : list case) : bool :=
    match l with
    | [] => true
    | mkCase _ items _ :: l => supported_fields items && supported_cases l
    end in
  match f with
  | mkField b _ FAtomicType => supported_atomic b
  | mkField _ _ (FSwitch _ cases) => supported_cases cases
  | _ => true
  end.
Fixpoint supported (l : list item) : bool :=
  match l with
  | [] => true
  | IField f :: l => supported_field f && supported l
  | _ :: l => supported l
  end.

End Supported.

(** ** Names made from counters *)

Definition numbered (lo hi : Z) (l : string) : Prop :=
  ∃ k d, lo < k ≤ hi ∧ l = "lbl" +:+ pretty k +:+ "_" +:+ d.

Lemma pretty_span (k : Z) r :
  0 ≤ k → match r with String c _ => isdigit c = false | EmptyString => True end →
  span isdigit (pretty k +:+ r) = (pretty k, r).
Proof.
  intros Hk Hr. replace k with (Z.of_N (Z.to_N k)) by lia. rewrite pretty_of_N.
  destruct (pretty_N_digits (Z.to_N k)) as (H1 & _). by apply span_app.
Qed.

Lemma label_inj (k k' : Z) d d' :
  0 ≤ k → 0 ≤ k' →
  "lbl" +:+ pretty k +:+ "_" +:+ d = "lbl" +:+ pretty k' +:+ "_" +:+ d' → k = k'.
Proof.
  intros Hk Hk' E. cbv [String.append] in E. injection E as E.
  assert (E2 : span isdigit (pretty k +:+ "_" +:+ d) = span isdigit (pretty k' +:+ "_" +:+ d')) by (by f_equal).
  rewrite !pretty_span in E2 by done. injection E2 as E2. by apply (inj pretty) in E2.
Qed.

Lemma temp_inj (k k' : Z) : "tmp" +:+ pretty k = "tmp" +:+ pretty k' → k = k'.
Proof. intros E. cbv [String.append] in E. injection E as E. by apply (inj pretty) in E. Qed.

Lemma numbered_disjoint a b c l : 0 ≤ a → b ≤ c → numbered a b l → ∀ hi, numbered c hi l → False.
Proof.
  intros Ha Hb (k & d & Hk & ->) hi (k' & d' & Hk' & E). apply label_inj in E; lia.
Qed.

Lemma numbered_mono a b a' b' l : a' ≤ a → b ≤ b' → numbered a b l → numbered a' b' l.
Proof. intros ?? (k & d & ? & ->). exists k, d. split; [lia|done]. Qed.

(** A generator whose temporaries have the names it made. *)
Record gen_wf (g : gstate) : Prop := {
  wf_label : 0 ≤ lastLabelId_ g;
  wf_temp : 0 ≤ lastTempId_ g;
  wf_nodup : NoDup (temp_vars_ g).*1;
  wf_names : Forall (λ v, ∃ k, 1 ≤ k ≤ lastTempId_ g ∧ v.1 = "tmp" +:+ pretty k) (temp_vars_ g) }.

Lemma newGenerator_wf : gen_wf newGenerator.
Proof. split; [done|done|constructor|constructor]. Qed.

(** What a piece of the generator does to its counters, with the labels it makes. *)
Record gen_step (g g' : gstate) (ls : list string) : Prop := {
  gs_wf : gen_wf g';
  gs_label : lastLabelId_ g ≤ lastLabelId_ g';
  gs_temps : temp_vars_ g `prefix_of` temp_vars_ g';
  gs_nodup : NoDup ls;
  gs_names : Forall (numbered (lastLabelId_ g) (lastLabelId_ g')) ls }.

Lemma gen_step_refl g : gen_wf g → gen_step g g [].
Proof. intros. split; [done|lia|done|constructor|constructor]. Qed.

Lemma gen_step_trans g g1 g2 l1 l2 :
  gen_wf g → gen_step g g1 l1 → gen_step g1 g2 l2 → gen_step g g2 (l1 ++ l2).
Proof.
  intros [Hg _ _ _] [W1 L1 T1 N1 F1] [W2 L2 T2 N2 F2]. split; [done|lia|by etrans| |].
  - apply list.NoDup_app. split_and!; [done| |done]. intros l H1 H2. rewrite list.Forall_forall in F1, F2.
    eapply numbered_disjoint; [exact Hg|reflexivity|by apply F1|by apply F2].
  - apply list.Forall_app. split; eapply list.Forall_impl; try done; intros l;
      apply numbered_mono; lia.
Qed.

Lemma reset_wf g : gen_wf g → gen_wf (reset_errors g).
Proof. intros [????]. by split. Qed.
Lemma log_wf g : gen_wf g → gen_wf (log_error g).
Proof. intros [????]. by split. Qed.

Lemma addTemp_step t g n g' :
  gen_wf g → addTemp t g = (n, g') → gen_step g g' [] ∧ (n, t) ∈ temp_vars_ g'.
Proof.
  intros [H1 H2 H3 H4] E. unfold addTemp in E. cbn in E. injection E as <- <-. cbn.
  split; [|apply elem_of_app; right; by apply list_elem_of_singleton].
  split; cbn; [split; cbn| |by apply prefix_app_r|constructor|constructor]; try lia.
  - rewrite fmap_app. apply list.NoDup_app. split_and!; [done| |apply NoDup_singleton].
    intros x Hx Hy. cbn in Hy. apply list_elem_of_singleton in Hy as ->.
    apply list_elem_of_fmap in Hx as ([x t'] & Ex & Hx). rewrite list.Forall_forall in H4.
    destruct (H4 _ Hx) as (k & Hk & E'). cbn in *. rewrite E' in Ex. apply temp_inj in Ex. lia.
  - apply list.Forall_app. split.
    + eapply list.Forall_impl; [done|]. intros v (k & Hk & ->). exists k. split; [lia|done].
    + constructor; [|constructor]. exists (lastTempId_ g + 1). split; [lia|done].
Qed.

(** ** The shape of generated code *)

Lemma assoc_unique {A} (k : string) (a a' : A) l :
  NoDup l.*1 → (k, a) ∈ l → (k, a') ∈ l → a = a'.
Proof.
  intros Hn H1 H2. induction l as [|[k' b] l IH]; [by apply not_elem_of_nil in H1|].
  cbn in Hn. apply list.NoDup_cons in Hn as [Hk Hn].
  assert (Hin : ∀ x, (k', x) ∈ l → False).
  { intros x Hx. apply Hk. apply list_elem_of_fmap. by exists (k', x). }
  apply elem_of_cons in H1 as [H1|H1], H2 as [H2|H2]; simplify_eq; auto; by edestruct Hin.
Qed.

Lemma int_type_scalar es w s :
  machine_width w = true →
  ∃ T, scalar_type es (int_type_name w s) = Some (CInt T) ∧ width T = w.
Proof.
  intros H. unfold machine_width in H. bool_to_prop.
  repeat (apply elem_of_cons in H as [->|H]); [..|by apply not_elem_of_nil in H]; destruct s;
    eexists; (split; [reflexivity|done]).
Qed.

Lemma type_text_visit us t s : type_text us t = Ret s → visit_type us t = Ret s.
Proof.
  unfold type_text, translate_type. destruct (is_wildcard us t); [done|].
  destruct (visit_type us t) as [r| | |]; try done. cbn. destruct (String.eqb r _); [done|].
  by intros [= ->].
Qed.

Lemma type_text_kind us t s :
  type_text us t = Ret s →
  match kind t with
  | TBytes => s = "dr::unit::var_bytes"
  | TString => s = "dr::unit::var_string"
  | TInteger w sg => s = int_type_name w sg
  | _ => True
  end.
Proof. intros H%type_text_visit. destruct t as [b k]. cbn in *. destruct k; try done; by injection H. Qed.

Lemma machine_width_le w : machine_width w = true → w ≤ 64.
Proof.
  unfold machine_width. intros H. bool_to_prop.
  repeat (apply elem_of_cons in H as [->|H]); [lia..|]. by apply not_elem_of_nil in H.
Qed.

Section GeneratedShape.
  Context (us : units) (u : unit_type) (options : Options) (C : context).
  Context (ms tms : list (string * string)).
  Context (Hes : ∀ t, t ∈ container_types → assoc t (c_enums C) = None).
  Context (Hms : NoDup ms.*1).
  Context (Hmem : ∀ f o t, assoc f (c_members C) = Some (o, t) → (f, t) ∈ ms).
  Context (Htms : NoDup tms.*1).
  Context (Htmp : ∀ n q t, assoc n (c_temps C) = Some (q, t) → (n, t) ∈ tms).

(** What [visit] writes for an item. *)
Definition visited (c : list pcode) : Prop :=
  atomic C c ∨ ∃ e cases, c = [Switch e cases] ∧ case_instrs C cases.

(** A piece of the generator that writes labels [ls], with a property of its code once all
    temporaries are known. *)
Definition generates (g g' : gstate) (ls : list string) (P : Prop) : Prop :=
  gen_step g g' ls ∧ (temp_vars_ g' `prefix_of` tms → P).

Lemma generates_trans g g1 g2 l1 l2 P Q R :
  gen_wf g → generates g g1 l1 P → generates g1 g2 l2 Q → (P → Q → R) →
  generates g g2 (l1 ++ l2) R.
Proof using Type.
  intros Hg [H1 P1] [H2 P2] HR. split; [by eapply gen_step_trans|].
  intros Ht. apply HR; [apply P1|by apply P2]. etrans; [|done]. by apply H2.
Qed.

Lemma parse_item_shape b visit g c g' :
  gen_wf g →
  (∀ g c g', gen_wf g → visit g = Ret (c, g') → generates g g' (labels_list c) (visited c)) →
  parse_item u b visit g = Ret (c, g') → generates g g' (labels_list c) (instrs C c).
Proof using Type.
  intros Hg Hv H. unfold parse_item in H. destruct_Ret H. cbn [newInstructionLabel] in H. cbn in H.
  destruct_Ret H. injection H as <- <-.
  match goal with H : visit _ = _ |- _ => apply Hv in H; [|by destruct Hg; split; cbn; try lia] end.
  match goal with H : generates _ _ _ _ |- _ => destruct H as [[W L T N F] P] end. cbn in L, T, F.
  split.
  - unfold labels_list. cbn [map concat]. rewrite labels_of_block, app_nil_r.
    split; [done|lia|done| |].
    + constructor; [|done]. intros Hin. rewrite list.Forall_forall in F.
      destruct (F _ Hin) as (k & d & Hk & El). apply label_inj in El; destruct Hg; lia.
    + constructor.
      * eexists _, _. split; [|reflexivity]. lia.
      * eapply list.Forall_impl; [done|]. intros x. apply numbered_mono; lia.
  - intros Ht. constructor; [|constructor]. destruct (P Ht) as [Ha|(e & cases & -> & Hc)].
    + by constructor.
    + by constructor.
Qed.

(** The member of an atomic field. *)
Lemma field_member b fm f o t :
  implb (parsing_only b) (store_parsing_only options) = true →
  addSingleUnitField us options b true = Ret fm → fm ⊆ ms → name (item_id b) = Ret f →
  assoc f (c_members C) = Some (o, t) →
  if negb (app_accessible b) && input_pointers options then t = "dr::unit::var_stream_range"
  else ∃ ty, item_type b = Some ty ∧ type_text us ty = Ret t.
Proof using Hms Hmem.
  intros Hp H Hin Hf Hm. unfold addSingleUnitField in H.
  destruct (parsing_only b && negb (store_parsing_only options)) eqn:E.
  { apply andb_prop in E as [E1 E2]. rewrite E1 in Hp. cbn in Hp. by rewrite Hp in E2. }
  rewrite Hf in H. cbn [mbind outcome_bind] in H. unfold type_of_item in H.
  destruct (item_type b) as [ty|]; [|done]. cbn [mbind outcome_bind] in H.
  destruct (type_text us ty) as [s| | |] eqn:Et; try done. cbn [mbind outcome_bind andb] in H.
  injection H as <-. apply Hmem in Hm.
  assert (Hx : t = if negb (app_accessible b) && input_pointers options
                   then "dr::unit::var_stream_range" else s).
  { eapply assoc_unique; [exact Hms|done|]. apply Hin. by apply list_elem_of_singleton. }
  destruct (_ && input_pointers options); [done|]. exists ty. by rewrite Hx.
Qed.

Lemma container_no_scalar t : t ∈ container_types → size_align (c_enums C) t = Some (16, 8).
Proof using Hes.
  intros Ht. unfold size_align, scalar_type. rewrite (Hes t Ht).
  repeat (apply elem_of_cons in Ht as [->|Ht]); [done..|]. by apply not_elem_of_nil in Ht.
Qed.

(** Where an untransformed field is parsed to. *)
Lemma field_container b fm ty f :
  implb (parsing_only b) (store_parsing_only options) = true →
  addSingleUnitField us options b true = Ret fm → fm ⊆ ms → name (item_id b) = Ret f →
  item_type b = Some ty → kind ty = TBytes ∨ kind ty = TString → container C f.
Proof using Hms Hmem.
  intros Hp H Hin Hf Ht Hk o t Hm.
  pose proof (field_member b fm f o t Hp H Hin Hf Hm) as Hx.
  destruct (_ && input_pointers options); [subst t; elem_dec|]. destruct Hx as (ty' & Ht' & Hx).
  rewrite Ht in Ht'. injection Ht' as <-. apply type_text_kind in Hx.
  destruct Hk as [Hk|Hk]; rewrite Hk in Hx; subst; elem_dec.
Qed.

Lemma field_int b fm ty f w sg :
  implb (parsing_only b) (store_parsing_only options) = true → machine_width w = true →
  addSingleUnitField us options b true = Ret fm → fm ⊆ ms → name (item_id b) = Ret f →
  item_type b = Some ty → kind ty = TInteger w sg → int_fits C f w.
Proof using Hms Hmem Hes.
  intros Hp Hw H Hin Hf Ht Hk o t Hm.
  pose proof (field_member b fm f o t Hp H Hin Hf Hm) as Hx.
  destruct (_ && input_pointers options); [subst t|destruct Hx as (ty' & Ht' & Hx)].
  - exists 16, 8. split; [apply container_no_scalar; elem_dec|].
    apply machine_width_le in Hw. lia.
  - rewrite Ht in Ht'. injection Ht' as <-. apply type_text_kind in Hx. rewrite Hk in Hx. subst t.
    destruct (int_type_scalar (c_enums C) w sg Hw) as (T & HT & <-).
    unfold size_align. rewrite HT. eexists _, _. split; [done|]. unfold width. cbn. lia.
Qed.

Lemma pure_length_text b a e s :
  pure_length us b = true → attr_lookup "length" (attributes_ b) = Some a →
  attr_expr a = Ret e → expression_text us e = Ret s → pure_text s = true.
Proof using Type.
  unfold pure_length, attr_expr. intros H Ha. rewrite Ha in H. destruct (attr_value a); [|done].
  intros [= ->] E. by rewrite E in H.
Qed.

(** [visit(AtomicType)] of a field that is not transformed. *)
Lemma parse_type_shape b ip ty cu f fm g c g' :
  gen_wf g → supported_atomic us options b = true →
  (ip = true → app_accessible b = false ∧ input_pointers options = true) →
  addSingleUnitField us options b true = Ret fm → fm ⊆ ms → name (item_id b) = Ret f →
  item_type b = Some ty → serialized_type b = Some ty →
  parse_type us b ip ty g = Ret (c, g') →
  generates g g' (labels_list c) (atomic C (Line (PDestField cu (unitFieldName f)) :: c)).
Proof using Hes Hms Hmem.
  intros Hg Hs Hip Hfm Hin Hf Ht Hst H. unfold supported_atomic in Hs.
  rewrite !andb_true_iff in Hs. destruct Hs as [[[Hpure Hw] Hpo] _]. rewrite Hst in Hw. cbn in Hw.
  assert (Hdone : ∀ g', gen_wf g' → lastLabelId_ g' = lastLabelId_ g → temp_vars_ g' = temp_vars_ g →
            gen_step g g' []).
  { intros g1 H1 H2 H3. split; [done|lia|by rewrite H3|constructor|constructor]. }
  assert (Hr := reset_wf g Hg). assert (Hl := log_wf _ Hr).
  unfold parse_type in H. destruct (kind ty) eqn:Hk; try (injection H as <- <-;
    split; [by apply Hdone|]; intros _; by constructor).
  - destruct_Ret H. injection H as <- <-. rename E into H. unfold visit_type_Bytes in H.
    destruct (attr_lookup "length" (attributes_ b)) as [a'|] eqn:Ha; destruct_Ret H.
    2: { injection H as <-. split; [by apply Hdone|]. intros _. by constructor. }
    destruct ip; injection H as <-; (split; [by apply Hdone|]); intros _; constructor; try done;
      by eauto using field_container, pure_length_text.
  - destruct_Ret H. injection H as <- <-. rename E into H. unfold visit_type_String in H.
    destruct (attr_lookup "length" (attributes_ b)) as [a'|] eqn:Ha; destruct_Ret H.
    2: { injection H as <-. split; [by apply Hdone|]. intros _. by constructor. }
    injection H as <-; (split; [by apply Hdone|]); intros _; constructor; try done;
      by eauto using field_container, pure_length_text.
  - destruct_Ret H. injection H as <- <-. rename E into H. unfold visit_type_Integer in H.
    destruct_Ret H. injection H as <-.
    split; [by apply Hdone|]. intros _. constructor. by eapply field_int.
Qed.

(** [visit(AtomicType)]. *)
Lemma visit_AtomicType_shape b fm g c g' :
  gen_wf g → supported_atomic us options b = true →
  addSingleUnitField us options b true = Ret fm → fm ⊆ ms →
  visit_AtomicType us u options b g = Ret (c, g') →
  generates g g' (labels_list c) (atomic C c).
Proof using Hes Hms Hmem Htms Htmp.
  intros Hg Hs Hfm Hin H. unfold visit_AtomicType in H. unfold serialized_type_of_item in H.
  destruct (serialized_type b) as [st|] eqn:Hst; [|done]. cbn [mbind outcome_bind] in H.
  pose proof Hs as Hs'. unfold supported_atomic in Hs'. rewrite !andb_true_iff in Hs'.
  destruct Hs' as [[[_ Hw] _] Ht]. destruct (transformed b) eqn:Etr.
  - apply andb_prop in Ht as [Hi Hto]. rewrite Hst in Hi, Hw. cbn in Hi, Hw.
    destruct (kind st) as [| | | | | | | | | |w sg| | | | | | | | | | | | |] eqn:Hk; try done.
    destruct (type_text us st) as [s| | |] eqn:Es; try done. cbn [mbind outcome_bind] in H.
    destruct (addTemp s g) as [n g1] eqn:Ea. destruct (addTemp_step s g n g1 Hg Ea) as [Hstep Hn].
    unfold parse_type in H. rewrite Hk, Hto in H. unfold visit_type_Integer in H.
    destruct (byteOrderLabel us b) as [bo| | |]; try done. cbn [mbind outcome_bind] in H.
    destruct_Ret H. injection H as <- <-. cbn [app].
    assert (Hstep' : gen_step g (reset_errors g1) []).
    { destruct Hstep. split; try done. by apply reset_wf. }
    split; [done|]. intros Hpre. constructor. intros q t Hq. apply Htmp in Hq.
    apply type_text_kind in Es. rewrite Hk in Es.
    assert (t = s) as ->.
    { eapply assoc_unique; [exact Htms|exact Hq|]. eapply elem_of_prefix; [exact Hn|exact Hpre]. }
    subst s. destruct (int_type_scalar (c_enums C) w sg Hw) as (T & HT & HW). by exists (CInt T).
  - unfold has_serialized_type in Ht. unfold serialized_type in Hst.
    destruct (serialized_type_ b) as [|] eqn:Eb; [done|].
    destruct_Ret H. injection H as <- <-.
    match goal with Hp : parse_type _ _ _ _ _ = _ |- _ =>
      eapply parse_type_shape in Hp; [exact Hp|..]; try done end.
    + intros Hip. apply andb_prop in Hip as [Hip ?]. split; [|done].
      by destruct (app_accessible b).
    + unfold serialized_type. by rewrite Eb.
Qed.

(** The loops inside [visit_field], [field_members] and [supported_field]. *)
Fixpoint parse_fields (l : list field) (g : gstate) : outcome (list pcode * gstate) :=
  match l with
  | [] => Ret ([], g)
  | x :: l =>
      '(c, g) ← parse_item u (fbase x) (visit_field us u options x) g;
      '(r, g) ← parse_fields l g;
      Ret (c ++ r, g)
  end.
Fixpoint visit_cases (l : list case) (g : gstate) : outcome (list (code_case pline) * gstate) :=
  match l with
  | [] => Ret ([], g)
  | mkCase es items d :: l =>
      labels ← translate_all us es;
      '(c, g) ← parse_fields items g;
      '(r, g) ← visit_cases l g;
      Ret (mkCodeCase labels d c :: r, g)
  end.
Lemma visit_switch b fb e cases g :
  visit_field us u options (mkField b fb (FSwitch (Some e) cases)) g =
  e_text ← expression_text us e; '(cs, g) ← visit_cases cases g; Ret ([Switch e_text cs], g).
Proof using Type. reflexivity. Qed.

Fixpoint fields_members (l : list field) : outcome (list (string * string)) :=
  match l with
  | [] => Ret []
  | f :: l => c ← field_members us options f; r ← fields_members l; Ret (c ++ r)
  end.
Fixpoint cases_members (l : list case) : outcome (list (string * string)) :=
  match l with
  | [] => Ret []
  | mkCase _ items _ :: l => c ← fields_members items; r ← cases_members l; Ret (c ++ r)
  end.
Fixpoint supported_fields (l : list field) : bool :=
  match l with [] => true | f :: l => supported_field us options f && supported_fields l end.
Fixpoint supported_cases (l : list case) : bool :=
  match l with
  | [] => true
  | mkCase _ items _ :: l => supported_fields items && supported_cases l
  end.

(** What holds of every field. *)
Definition field_shape (f : field) : Prop :=
  ∀ g c g' fm, gen_wf g → supported_field us options f = true →
  field_members us options f = Ret fm → fm ⊆ ms →
  visit_field us u options f g = Ret (c, g') → generates g g' (labels_list c) (visited c).
Definition case_shape (cs : case) : Prop :=
  match cs with mkCase _ items _ => Forall field_shape items end.

Lemma generates_refl g (P : Prop) : gen_wf g → P → generates g g [] P.
Proof using Type. intros ? HP. split; [by apply gen_step_refl|]. by intros _. Qed.

Lemma instrs_app c c' : instrs C c → instrs C c' → instrs C (c ++ c').
Proof using Type. intros H H'. induction H; [done|]. cbn. by constructor. Qed.

Lemma labels_list_app c c' : labels_list (c ++ c') = labels_list c ++ labels_list c'.
Proof using Type. unfold labels_list. by rewrite map_app, concat_app. Qed.

Lemma parse_fields_shape l :
  Forall field_shape l →
  ∀ g c g' fm, gen_wf g → supported_fields l = true →
  fields_members l = Ret fm → fm ⊆ ms → parse_fields l g = Ret (c, g') →
  generates g g' (labels_list c) (instrs C c).
Proof using Type.
  induction 1 as [|f l Hf _ IH]; intros g c g' fm Hg Hs Hm Hin H; cbn in Hs, Hm, H.
  { injection H as <- <-. apply generates_refl; [done|constructor]. }
  apply andb_prop in Hs as [Hs1 Hs2]. destruct_Ret Hm. injection Hm as <-. destruct_Ret H.
  injection H as <- <-. rewrite labels_list_app.
  assert (Hin1 : a ⊆ ms) by (clear -Hin; set_solver).
  assert (Hin2 : a0 ⊆ ms) by (clear -Hin; set_solver).
  match goal with Hp : parse_item _ _ _ _ = _ |- _ => eapply parse_item_shape in Hp; [|done|] end.
  2: { intros ? ? ? Hw Hv. by eapply Hf. }
  eapply generates_trans; [done|done| |apply instrs_app]. eapply IH; try done.
  by match goal with Hp : generates g _ _ _ |- _ => apply Hp end.
Qed.

Lemma visit_cases_shape l :
  Forall case_shape l →
  ∀ g cs g' fm, gen_wf g → supported_cases l = true →
  cases_members l = Ret fm → fm ⊆ ms → visit_cases l g = Ret (cs, g') →
  generates g g' (labels_cases cs) (case_instrs C cs).
Proof using Type.
  induction 1 as [|[es items d] l Hf _ IH]; intros g c g' fm Hg Hs Hm Hin H; cbn in Hs, Hm, H.
  { injection H as <- <-. apply generates_refl; [done|constructor]. }
  apply andb_prop in Hs as [Hs1 Hs2]. destruct_Ret Hm. injection Hm as <-. destruct_Ret H.
  injection H as <- <-. rewrite labels_cases_cons.
  assert (Hin1 : a ⊆ ms) by (clear -Hin; set_solver).
  assert (Hin2 : a0 ⊆ ms) by (clear -Hin; set_solver).
  match goal with Hp : parse_fields items _ = _ |- _ =>
    eapply (parse_fields_shape items Hf) in Hp; [|done..] end.
  eapply generates_trans; [done|done| |apply case_instrs_cons]. eapply IH; try done.
  by match goal with Hp : generates g _ _ _ |- _ => apply Hp end.
Qed.

Lemma visit_field_shape f : field_shape f.
Proof using Hes Hms Hmem Htms Htmp.
  apply (field_nested_ind field_shape case_shape); [|done].
  intros b fb k IH g c g' fm Hg Hs Hm Hin H. destruct k as [| | | | |e cases| |].
  1: { destruct (visit_AtomicType_shape b fm g c g' Hg Hs Hm Hin H) as [H1 H2].
       split; [done|]. intros Ht. left. auto. }
  5: { destruct e as [e|].
       - rewrite visit_switch in H. destruct_Ret H. injection H as <- <-.
         match goal with Hv : visit_cases _ _ = _ |- _ =>
           eapply (visit_cases_shape cases IH) in Hv; [destruct Hv as [H1 H2]|done..] end.
         split.
         + unfold labels_list. cbn. by rewrite app_nil_r.
         + intros Ht. right. eauto.
       - injection H as <- <-. apply generates_refl; [done|]. left. constructor. }
  all: injection H as <- <-; split; [|intros _; left; constructor].
  all: try by apply gen_step_refl.
  split; [by apply log_wf|cbn; lia|done|constructor|constructor].
Qed.

Lemma visit_Variable_shape b d c : visit_Variable us u b d = Ret c → labels_list c = [] ∧ atomic C c.
Proof using Type.
  unfold visit_Variable. intros H.
  destruct (attr_lookup "parse" (attributes_ b)), d; destruct_Ret H; injection H as <-;
    (split; [done|constructor]).
Qed.

(** The items of a unit. *)
Lemma parse_items_shape l :
  ∀ g c g' fm, gen_wf g → supported us options l = true →
  unit_members us options l = Ret fm → fm ⊆ ms → parse_items us u options l g = Ret (c, g') →
  generates g g' (labels_list c) (instrs C c).
Proof using Hes Hms Hmem Htms Htmp.
  induction l as [|i l IH]; intros g c g' fm Hg Hs Hm Hin H; cbn in Hs, Hm.
  { injection H as <- <-. apply generates_refl; [done|constructor]. }
  assert (Hnext : ∀ c1 g1 fm2, generates g g1 (labels_list c1) (instrs C c1) →
    supported us options l = true → unit_members us options l = Ret fm2 → fm2 ⊆ ms →
    ∀ r g2, parse_items us u options l g1 = Ret (r, g2) →
    generates g g2 (labels_list (c1 ++ r)) (instrs C (c1 ++ r))).
  { intros c1 g1 fm2 H1 Hs2 Hm2 Hin2 r g2 H2.
    rewrite labels_list_app. eapply generates_trans; [done|done| |apply instrs_app].
    eapply IH; try done. apply H1. }
  destruct i as [b d|b pr|f]; cbn in H.
  - destruct_Ret Hm. injection Hm as <-. destruct_Ret H.
    injection H as <- <-. eapply Hnext; [|done|done|clear -Hin; set_solver|done].
    eapply parse_item_shape; [done| |done]. intros ? ? ? Hg2 Hv. cbn in Hv. destruct_Ret Hv.
    injection Hv as <- <-.
    match goal with Hv : visit_Variable _ _ _ _ = _ |- _ => apply visit_Variable_shape in Hv as [El Ha] end.
    rewrite El. apply generates_refl; [done|by left].
  - by eapply IH.
  - apply andb_prop in Hs as [Hs1 Hs2]. destruct_Ret Hm. injection Hm as <-. destruct_Ret H.
    injection H as <- <-. eapply Hnext; [|done|done|clear -Hin; set_solver|done].
    eapply parse_item_shape; [done| |done]. intros ? ? ? Hg2 Hv.
    eapply visit_field_shape; try done. clear -Hin. set_solver.
Qed.

(** The parse function of a unit whose temporaries are [tms]. *)
Lemma run_parser_shape g p ok g' :
  gen_wf g → supported us options (unit_items u) = true →
  unit_members us options (unit_items u) = Ret ms →
  run_parser us u options g = Ret (p, ok, g') →
  tms = temps p → instrs C (body p) ∧ NoDup (labels_list (body p)).
Proof using Hes Hms Hmem Htms Htmp.
  intros Hg Hs Hm H Ht. unfold run_parser in H. cbn in H. destruct_Ret H. injection H as <- <- <-.
  cbn in Ht |- *.
  match goal with Hp : parse_items _ _ _ _ _ = _ |- _ =>
    eapply parse_items_shape in Hp; [|by destruct Hg; split; cbn; try lia|done..] end.
  match goal with Hp : generates _ _ _ _ |- _ => destruct Hp as [[] Hi] end.
  split; [|done]. apply Hi. by rewrite Ht.
Qed.

End GeneratedShape.

(** The generator stays well-formed, and the temporaries of its functions have their names. *)
Lemma run_parser_temps us u options g p ok g' ms :
  gen_wf g → supported us options (unit_items u) = true →
  unit_members us options (unit_items u) = Ret ms → NoDup ms.*1 →
  run_parser us u options g = Ret (p, ok, g') → gen_wf g' ∧ NoDup (temps p).*1.
Proof.
  intros Hg Hs Hm Hms H. unfold run_parser in H. cbn in H. destruct_Ret H. injection H as <- <- <-.
  match goal with Hp : parse_items _ _ _ _ _ = _ |- _ =>
    eapply (parse_items_shape us u options (mkContext [] [] [] (λ _, 0) 0 0) ms []) in Hp;
      try done; [|constructor|by destruct Hg; split; cbn; try lia] end.
  match goal with Hp : generates _ _ _ _ _ |- _ => destruct Hp as [[W] _] end.
  split; [done|]. apply W.
Qed.

(** ** Layout *)

Lemma scalar_type_size es t c : scalar_type es t = Some c → (0 < sizeof (rep c))%nat.
Proof.
  unfold scalar_type. destruct (assoc t builtin_types) as [c'|] eqn:E.
  - intros [= <-]. cbn in E.
    repeat (destruct (String.eqb _ _) in E; [injection E as <-; cbn; lia|]). done.
  - destruct (assoc t es); [|done]. intros [= <-]. cbn. lia.
Qed.

Lemma size_align_pos es t sz al : size_align es t = Some (sz, al) → 0 ≤ sz ∧ 0 < al.
Proof.
  unfold size_align. destruct (scalar_type es t) as [c|] eqn:E.
  { apply scalar_type_size in E. intros [= <- <-]. lia. }
  case_bool_decide; [intros [= <- <-]; lia|]. destruct (String.eqb t "double"); [|done].
  intros [= <- <-]; lia.
Qed.

Lemma round_up_le n a : 0 < a → n ≤ round_up n a.
Proof.
  intros Ha. unfold round_up. pose proof (Z.div_mod (n + a - 1) a ltac:(lia)).
  pose proof (Z.mod_pos_bound (n + a - 1) a Ha). lia.
Qed.

Lemma layout_cons es n t ms pos l e :
  layout es ((n, t) :: ms) pos = Some (l, e) →
  ∃ sz al l', size_align es t = Some (sz, al) ∧
    layout es ms (round_up pos al + sz) = Some (l', e) ∧ l = (n, (round_up pos al, t)) :: l'.
Proof.
  cbn. destruct (size_align es t) as [[sz al]|]; [|done]. cbn.
  destruct (layout es ms _) as [[l' e']|] eqn:E; [|done]. cbn. intros [= <- <-]. by exists sz, al, l'.
Qed.

Lemma layout_spec es ms pos l e :
  layout es ms pos = Some (l, e) →
  pos ≤ e ∧
  ∀ f o t, assoc f l = Some (o, t) → (f, t) ∈ ms ∧
    ∀ sz al, size_align es t = Some (sz, al) → pos ≤ o ∧ o + sz ≤ e.
Proof.
  revert pos l. induction ms as [|[n t] ms IH]; intros pos l H.
  { cbn in H. injection H as <- <-. split; [lia|done]. }
  apply layout_cons in H as (sz & al & l' & Hsz & H & ->). destruct (size_align_pos _ _ _ _ Hsz) as [Hs Ha].
  pose proof (round_up_le pos al Ha). apply IH in H as [He IHl]. split; [lia|].
  intros f o t' Hf. cbn in Hf. destruct (String.eqb_spec f n) as [->|].
  - injection Hf as <- <-. split; [by apply elem_of_cons; left|]. intros sz' al' E.
    rewrite Hsz in E. injection E as <- <-. lia.
  - destruct (IHl f o t' Hf) as [Hin Hb]. split; [by apply elem_of_cons; right|].
    intros sz' al' E. specialize (Hb _ _ E). lia.
Qed.

Lemma layout_disjoint es ms pos l e f o t sz al f' o' t' sz' al' :
  layout es ms pos = Some (l, e) → f ≠ f' →
  assoc f l = Some (o, t) → size_align es t = Some (sz, al) →
  assoc f' l = Some (o', t') → size_align es t' = Some (sz', al') →
  o + sz ≤ o' ∨ o' + sz' ≤ o.
Proof.
  revert pos l. induction ms as [|[n tn] ms IH]; intros pos l H Hne Hf Hsz Hf' Hsz'.
  { cbn in H. by injection H as <- <-. }
  apply layout_cons in H as (szn & aln & l' & Hn & H & ->). cbn in Hf, Hf'.
  pose proof (layout_spec _ _ _ _ _ H) as [_ Hb].
  destruct (String.eqb_spec f n) as [->|], (String.eqb_spec f' n) as [->|]; try done.
  - injection Hf as <- <-. rewrite Hn in Hsz. injection Hsz as <- <-.
    destruct (Hb _ _ _ Hf') as [_ Hb']. specialize (Hb' _ _ Hsz'). lia.
  - injection Hf' as <- <-. rewrite Hn in Hsz'. injection Hsz' as <- <-.
    destruct (Hb _ _ _ Hf) as [_ Hb']. specialize (Hb' _ _ Hsz). lia.
  - by eapply IH.
Qed.

(** ** A first call *)

Section FirstCall.
  Context (C : context) (F : Z → Prop) (size : Z) (area : UnitArea.UnitArea).
  Context (st : ParserState.ParserState) (Hok : fresh_ok C F size area st).
  Context (body : list pcode) (Hshape : instrs C body).
  Context (Hnew : ParserState.instruction st = 0).

(** Where a call may write: its locals, the contents of the area and its entry of the stack. *)
Definition may_write (a : Z) : Prop :=
  F a ∨ UnitArea.contents area ≤ a < UnitArea.contents area + UnitArea.size_ area ∨
  ParserState.stack_top_ st ≤ a < ParserState.stack_top_ st + 8.

(** What a call guarantees: writes, the area, and the number of bytes it reports. *)
Definition call_safe (m : mem) (r : call_result) : Prop :=
  agree may_write m (r_mem r) ∧ area_small (r_area r) ∧
  ∀ n, r_bytes r = Some n → 0 ≤ n ≤ c_end C - c_start C.

Lemma push_peek st1 q p :
  ParserState.push_reserve 8 st = Ret (q, st1) → ParserState.peek 8 st1 = Ret p →
  p = ParserState.stack_top_ st.
Proof using Type.
  unfold ParserState.push_reserve, ParserState.peek. intros H1 H2. do 2 (case_bool; [|done]).
  injection H1 as <- <-. injection H2 as <-. cbn. lia.
Qed.

Lemma first_call_safe m r : parse_call C body size m area st = Ret r → call_safe m r.
Proof using Hok Hshape Hnew.
  assert (HC : with_end (c_end C) C = C) by (by destruct C).
  assert (Hok' : fresh_ok (with_end (c_end C) C) F size area st) by (by rewrite HC).
  rewrite (first_call C F size area st (c_end C) Hok' body Hnew C m) by auto. intros H.
  destruct (ParserState.push_reserve 8 st) as [[q st1]| | |] eqn:Epush; try done.
  cbn [mbind outcome_bind] in H.
  destruct (UnitArea.allocate_item size area) as [[u a]|] eqn:Ea.
  2: { injection H as <-. split_and!; [apply agree_refl|apply Hok|done]. }
  destruct (ParserState.peek 8 st1) as [p| | |] eqn:Ep; try done. cbn [mbind outcome_bind] in H.
  pose proof (push_peek _ _ _ Epush Ep) as ->.
  destruct (write uint64_t m _ u) as [m0| | |] eqn:Ew; try done. cbn [mbind outcome_bind] in H.
  pose proof (call_ok2 C F size area st (c_end C) Hok' a u Ea) as Hc. rewrite HC in Hc.
  assert (Hg : good C (first_state C m0 a st1 u)).
  { split; [unfold pos_of; cbn; pose proof (f_length _ _ _ _ _ Hok); lia|].
    apply (unit_facts C F size area st (c_end C) Hok' a u Ea). }
  destruct (stays_good C F u Hc (ok_size _ _ _ Hc)) as (_ & _ & Hst).
  specialize (Hst body Hshape (first_state C m0 a st1 u) eq_refl Hg).
  destruct (exec_wrote C F u Hc (W F area) (unit_writes C F size area st (c_end C) Hok' a u Ea))
    as (_ & _ & Hw).
  { intros tmp tq t sz al Hq Hsz x Hx. left. by eapply (f_temps _ _ _ _ _ Hok). }
  specialize (Hw body Hshape (first_state C m0 a st1 u) eq_refl Hg
    (area_in_W C F size area st (c_end C) Hok' a u Ea)).
  apply write_load in Ew as [_ Ew]. change (Z.of_nat (sizeof uint64_t)) with 8 in Ew.
  assert (Hwr : ∀ m', agree (W F area) m0 m' → agree may_write m m').
  { intros m' Hm'. eapply agree_trans; [eapply agree_mono; [|exact Ew]|eapply agree_mono; [|exact Hm']];
      intros x; unfold may_write, W; tauto. }
  destruct (exec_list C body _) as [[s|rs s]| | |]; try done; cbn in H, Hst, Hw; injection H as <-;
    destruct Hst as [[Hp Has] _], Hw as [Hw _]; (split; [by apply Hwr|split; [done|]]).
  - intros n [= <-]. cbn. lia.
  - done.
Qed.

End FirstCall.

(** A call that cannot allocate its unit leaves its entry on the stack and no instruction. *)
Lemma area_full_leaks C body size m area st r :
  ParserState.instruction st = 0 → UnitArea.allocate_item size area = None →
  parse_call C body size m area st = Ret r →
  r_result r = Parsing.AREA_FULL ∧
  ParserState.stack_top_ (r_state r) = ParserState.stack_top_ st + 8 ∧
  ParserState.instruction (r_state r) = 0.
Proof.
  intros Hi Ha H. unfold parse_call in H. rewrite Hi in H. cbn [negb Z.eqb] in H.
  unfold ParserState.push_reserve in H. case_bool; [|done]. cbn [mbind outcome_bind] in H.
  rewrite Ha in H. injection H as <-. by split_and!.
Qed.

(** ** Compiled parsers *)

(** What the C++ compiler makes of a parse function and its unit class: the code, the members
    with their offsets, the size of the class, and the temporaries in the frame of a call. *)
Record compiled := mkCompiled {
  k_body : list pcode;
  k_members : list (string * (Z * string));
  k_size : Z;
  k_temps : list (string * (Z * string));
  k_frame_end : Z }.

Lemma class_align_pos es ms : 0 < class_align es ms.
Proof. induction ms as [|[n t] ms IH]; simpl; lia. Qed.

Definition compile (us : units) (u : unit_type) (options : Options) (es : enums) (frame : Z)
    (g : gstate) : outcome compiled :=
  '(p, _, _) ← run_parser us u options g;
  ms ← unit_members us options (unit_items u);
  if bool_decide (NoDup ms.*1) then
    '(members, e) ← some_or_ill (layout es ms 0);
    '(tmps, frame_end) ← some_or_ill (layout es (temps p) frame);
    Ret (mkCompiled (body p) members (class_size es ms e) tmps frame_end)
  else ill_formed.

Definition call_context (es : enums) (k : compiled) (label : string → Z) (start : Z) : context :=
  mkContext es (k_members k) (k_temps k) label start start.

(** What a call relies on, for input of up to [emax - start] bytes: the frame, the stack entry,
    the unit area and the input do not overlap, and the state is new. *)
Record call_env (k : compiled) (frame start emax : Z) (area : UnitArea.UnitArea)
    (st : ParserState.ParserState) : Prop := {
  env_area : area_small area;
  env_frame_area : apart (λ a, frame ≤ a < k_frame_end k) (UnitArea.contents area) (UnitArea.size_ area);
  env_frame_input : apart (λ a, frame ≤ a < k_frame_end k) start (emax - start);
  env_frame_stack : apart (λ a, frame ≤ a < k_frame_end k) (ParserState.stack_top_ st) 8;
  env_stack_area a :
    ParserState.stack_top_ st ≤ a < ParserState.stack_top_ st + 8 →
    ¬ (UnitArea.contents area ≤ a < UnitArea.contents area + UnitArea.size_ area);
  env_length : 0 ≤ emax - start < 2 ^ 63;
  env_new : ParserState.instruction st = 0 }.

Section Compiled.
  Context (us : units) (u : unit_type) (options : Options) (es : enums) (frame : Z) (g : gstate).
  Context (k : compiled) (Hk : compile us u options es frame g = Ret k).
  Context (Hg : gen_wf g) (Hs : supported us options (unit_items u) = true).
  Context (Hes : ∀ t, t ∈ container_types → assoc t es = None).
  Context (label : string → Z) (Hinj : Inj eq eq label) (Hnz : ∀ l, label l ≠ 0).
  Context (start emax : Z) (area : UnitArea.UnitArea) (st : ParserState.ParserState).
  Context (Henv : call_env k frame start emax area st).

Definition frame_of (a : Z) : Prop := frame ≤ a < k_frame_end k.

Lemma compile_inv :
  ∃ p ok g' ms e, run_parser us u options g = Ret (p, ok, g') ∧
    unit_members us options (unit_items u) = Ret ms ∧ NoDup ms.*1 ∧
    layout es ms 0 = Some (k_members k, e) ∧ k_size k = class_size es ms e ∧
    layout es (temps p) frame = Some (k_temps k, k_frame_end k) ∧ k_body k = body p.
Proof using Hk.
  clear Henv. unfold compile in Hk.
  destruct (run_parser us u options g) as [[[p ok] g']| | |]; try done.
  cbn [mbind outcome_bind] in Hk.
  destruct (unit_members us options (unit_items u)) as [ms| | |]; try done. cbn [mbind outcome_bind] in Hk.
  case_bool_decide as Hn; [|done].
  destruct (layout es ms 0) as [[members e]|] eqn:E1; [|done]. cbn [some_or_ill mbind outcome_bind] in Hk.
  destruct (layout es (temps p) frame) as [[tmps fe]|] eqn:E2; [|done].
  cbn [some_or_ill mbind outcome_bind] in Hk. injection Hk as <-. by exists p, ok, g', ms, e.
Qed.

Lemma compiled_fresh :
  fresh_ok (with_end emax (call_context es k label start)) frame_of (k_size k) area st.
Proof using Hk Hes Hinj Hnz Henv.
  destruct compile_inv as (p & ok & g' & ms & e & _ & _ & _ & Hm & Hsz & Ht & _).
  destruct (layout_spec _ _ _ _ _ Hm) as [He Hms]. destruct (layout_spec _ _ _ _ _ Ht) as [_ Hts].
  pose proof (round_up_le e _ (class_align_pos es ms)) as Hr. destruct Henv.
  split; try done; cbn.
  - intros f o t sz al Hf Ha. destruct (Hms f o t Hf) as [_ Hb]. specialize (Hb _ _ Ha).
    rewrite Hsz. unfold class_size. lia.
  - intros f o t sz al f' o' t' sz' al' Hne Hf Ha Hf' Ha'. by eapply (layout_disjoint _ _ _ _ _ _ _ _ _ _ _ _ _ _ _ Hm).
  - intros tmp q t sz al Hq Ha a Hx. destruct (Hts tmp q t Hq) as [_ Hb]. specialize (Hb _ _ Ha).
    unfold frame_of. lia.
  - rewrite Hsz. unfold class_size. lia.
Qed.

Lemma compiled_shape e :
  instrs (with_end e (call_context es k label start)) (k_body k) ∧ NoDup (labels_list (k_body k)).
Proof using Hk Hg Hs Hes.
  destruct compile_inv as (p & ok & g' & ms & pe & Hp & Hms & Hn & Hm & _ & Ht & ->).
  destruct (layout_spec _ _ _ _ _ Hm) as [_ Hml]. destruct (layout_spec _ _ _ _ _ Ht) as [_ Htl].
  destruct (run_parser_temps _ _ _ _ _ _ _ _ Hg Hs Hms Hn Hp) as [_ Hnt].
  eapply (run_parser_shape us u options (with_end e (call_context es k label start)) ms (temps p));
    try done; cbn.
  - intros f o t Hf. by apply (Hml f o t).
  - intros n q t Hq. by apply (Htl n q t).
Qed.

Lemma compiled_loop m e ends scramble :
  (∀ m, agree frame_of m (scramble m)) → start ≤ e → growing e ends emax →
  orel (loop_rel frame_of)
    (parse_loop (call_context es k label start) (k_size k) (k_body k) scramble e ends m area st)
    (reparse_loop (call_context es k label start) (k_size k) (k_body k) e ends m area st).
Proof using All.
  intros Hsc He Hgr. destruct (compiled_shape start) as [Hsh Hl].
  apply (loop_equiv _ _ _ _ _ Hsh Hl Hsc m area st emax compiled_fresh (env_new _ _ _ _ _ _ Henv));
    done.
Qed.

Lemma compiled_safe m e r :
  start ≤ e ≤ emax →
  parse_call (with_end e (call_context es k label start)) (k_body k) (k_size k) m area st = Ret r →
  call_safe (with_end e (call_context es k label start)) frame_of area st m r.
Proof using All.
  intros He H. destruct (compiled_shape e) as [Hsh _].
  assert (Hok : fresh_ok (with_end e (call_context es k label start)) frame_of (k_size k) area st)
    by (eapply fresh_ok_less; [exact He|apply compiled_fresh]).
  eapply (first_call_safe _ _ _ _ _ Hok _ Hsh); [apply Henv|exact H].
Qed.

(** A loop that starts anew ends with a first call. *)
Lemma reparse_last m e ends r e' :
  start ≤ e → growing e ends emax →
  reparse_loop (call_context es k label start) (k_size k) (k_body k) e ends m area st = Ret (r, e') →
  start ≤ e' ≤ emax ∧
  parse_call (with_end e' (call_context es k label start)) (k_body k) (k_size k) m area st = Ret r.
Proof using Type.
  revert e. induction ends as [|e1 ends IH]; intros e He Hgr H; cbn in H;
    pose proof (growing_le _ _ _ Hgr);
    destruct (parse_call (with_end e _) _ _ m area st) as [r1| | |] eqn:E; try done;
    cbn [mbind outcome_bind] in H.
  - assert (Ret (r1, e) = Ret (r, e')) as [= <- <-] by (by destruct (r_result r1)). split; [lia|done].
  - destruct Hgr as [He1 Hgr]. destruct (r_result r1); try (injection H as <- <-; split; [lia|done]).
    apply (IH e1); [lia|done|done].
Qed.

End Compiled.

(** ** A message with a length, a transformed field and a switch *)

Module Sample.

Definition opcode_type : ty :=
  mkTy (mkTyBase false (Some (mkID ["Opcode"])) "") (TEnum [(mkID ["get"], 0); (mkID ["set"], 1)]).
Definition int_ty (w : Z) : ty := mkTy plain (TInteger w false).
Definition self : expr := new_expr (EParserState SELF None (Some (mkTy plain (TUnit 0))) (mkTy plain (TUnit 0))).
Definition member_of_self (f : string) : expr :=
  new_expr (EOperator OpAttribute [self; new_expr (EMemberAttribute (mkID [f]))]).
Definition opcode_label (l : string) : expr := new_expr (EConstant (Ast.CEnum (mkID [l]) opcode_type)).

Definition base_of (n : string) (t : ty) (serialized : option ty) (attrs : list attr) : item_base :=
  mkItemBase (mkID [n]) false false true (Some t) serialized (mk_attrs attrs) (Some 0%nat).
Definition atomic_field (n : string) (t : ty) (serialized : option ty) (attrs : list attr) : field :=
  mkField (base_of n t serialized attrs) (mkFieldBase None [] []) FAtomicType.

Definition message : unit_type :=
  mkUnit []
    [IField (atomic_field "opcode" opcode_type (Some (int_ty 8)) [mkAttr "transform_to" None false]);
     IField (atomic_field "len" (int_ty 16) None []);
     IField (atomic_field "payload" (mkTy plain TBytes) None
               [mkAttr "length" (Some (member_of_self "len")) false]);
     IField (mkField (base_of "kinds" (int_ty 8) None []) (mkFieldBase None [] [])
               (FSwitch (Some (member_of_self "opcode"))
                  [mkCase [opcode_label "get"] [atomic_field "extra" (int_ty 32) None []] false;
                   mkCase [] [atomic_field "tail" (int_ty 8) None []] true]));
     IVariable (base_of "size" (int_ty 32) None
                  [mkAttr "parse" (Some (new_expr (EOperator OpPlus
                     [member_of_self "len"; new_expr (EConstant (CInteger 4 64 false))]))) false]) None]
    false (Some (mkID ["Message"])) None.
Definition us : units := {[ 0%nat := message ]}.
Definition options : Options := mkOptions false false true.
Definition es : enums := [("Opcode", [("get", 0); ("set", 1)])].
Definition label (l : string) : Z := Zpos (encode l).

Definition zeros (p : Z) (n : nat) : list (Z * ascii) :=
  (λ a, (a, "000"%char)) <$> seqZ p (Z.of_nat n).
Definition stack : ParserState.ParserState := ParserState.newParserState 1000 32.
Definition area : UnitArea.UnitArea := UnitArea.mkUnitArea 2000 2016 96.
Definition input (bytes : list ascii) : list (Z * ascii) := zip (seqZ 3000 (Z.of_nat (length bytes))) bytes.
Definition frame : Z := 4000.
Definition memory (bytes : list ascii) : mem :=
  list_to_map (zeros 1000 32 ++ zeros 2000 112 ++ zeros 4000 8 ++ input bytes).
(** [set], two bytes of payload, and the tail. *)
Definition bytes : list ascii := ["001"; "000"; "002"; "007"; "008"; "009"]%char.
(** The frame is overwritten between two calls. *)
Definition scramble (m : mem) : mem := default m (store_bytes ["255"%char] m frame).
Definition parser : compiled :=
  match compile us message options es frame newGenerator with
  | Ret k => k
  | _ => mkCompiled [] [] 0 [] 0
  end.
Definition C : context := call_context es parser label 3000.

Lemma parser_compiled : compile us message options es frame newGenerator = Ret parser.
Proof. vm_compute. reflexivity. Qed.
Lemma enums_ok t : t ∈ container_types → assoc t es = None.
Proof. intros H. repeat (apply elem_of_cons in H as [->|H]); [done..|]. by apply not_elem_of_nil in H. Qed.
#[export] Instance label_inj' : Inj eq eq label.
Proof. intros a b [= H]. by apply (inj encode) in H. Qed.
Lemma env_ok : call_env parser frame 3000 3006 area stack.
Proof.
  split; change (k_frame_end parser) with 4001; unfold apart; try done.
  - intros a. unfold frame, area, UnitArea.contents, UnitArea.sizeof_this. cbn. lia.
  - intros a. unfold frame. lia.
  - intros a. unfold frame. cbn. lia.
  - intros a. unfold area, UnitArea.contents, UnitArea.sizeof_this. cbn. lia.
Qed.
Lemma scramble_frame m : agree (frame_of frame parser) m (scramble m).
Proof.
  unfold scramble. destruct (store_bytes _ m frame) as [m'|] eqn:E; [|apply agree_refl].
  eapply store_within; [done|]. intros a Ha. cbn in Ha. unfold frame_of.
  change (k_frame_end parser) with 4001. unfold frame in *. lia.
Qed.

End Sample.

(** C1: A generated parser that is called again with the data that has arrived since, whenever it
    ran out of data, ends like a parser that starts anew with all data every time: same result,
    same number of bytes, same unit area and parser state, and the same memory but for its own
    frame; what the frame held is lost between two calls. *)
Theorem incremental_parse us u options es frame g k label start emax area st scramble m e ends :
  compile us u options es frame g = Ret k → gen_wf g →
  supported us options (unit_items u) = true →
  (∀ t, t ∈ container_types → assoc t es = None) →
  Inj eq eq label → (∀ l, label l ≠ 0) →
  call_env k frame start emax area st →
  (∀ m, agree (frame_of frame k) m (scramble m)) →
  start ≤ e → growing e ends emax →
  orel (loop_rel (frame_of frame k))
    (parse_loop (call_context es k label start) (k_size k) (k_body k) scramble e ends m area st)
    (reparse_loop (call_context es k label start) (k_size k) (k_body k) e ends m area st).
Proof. intros. by eapply compiled_loop. Qed.

Lemma incremental_parse_witness :
  match parse_loop Sample.C (k_size Sample.parser) (k_body Sample.parser) Sample.scramble
          3001 [3002; 3004; 3006] (Sample.memory Sample.bytes) Sample.area Sample.stack with
  | Ret (r, e) => r_result r = Parsing.DONE ∧ r_bytes r = Some 6 ∧ e = 3006
  | _ => False
  end ∧
  orel (loop_rel (frame_of Sample.frame Sample.parser))
    (parse_loop Sample.C (k_size Sample.parser) (k_body Sample.parser) Sample.scramble
       3001 [3002; 3004; 3006] (Sample.memory Sample.bytes) Sample.area Sample.stack)
    (reparse_loop Sample.C (k_size Sample.parser) (k_body Sample.parser)
       3001 [3002; 3004; 3006] (Sample.memory Sample.bytes) Sample.area Sample.stack).
Proof.
  split; [vm_compute; by split_and!|].
  apply (incremental_parse Sample.us Sample.message Sample.options Sample.es Sample.frame newGenerator
    Sample.parser Sample.label 3000 3006 Sample.area Sample.stack Sample.scramble).
  - apply Sample.parser_compiled.
  - apply newGenerator_wf.
  - vm_compute. reflexivity.
  - apply Sample.enums_ok.
  - apply Sample.label_inj'.
  - done.
  - apply Sample.env_ok.
  - apply Sample.scramble_frame.
  - lia.
  - cbn. lia.
Defined.

(** C2: Memory safety of the runs that return: however often it is suspended, the parser of a
    supported unit ([supported]: lengths without side effects, integers of machine widths)
    changes nothing outside the contents of the unit area, its entry of the parser stack and its
    frame; the area stays well-formed, and no more bytes are reported as read than there are.  A
    length of 2^63 or more, which the signed comparison of [advance] lets pass, moves the position
    by more than a pointer difference can be: such a run has undefined behaviour and does not
    return.  Any other position the code computes is taken as it is, inside the buffer or not. *)
Theorem incremental_safe us u options es frame g k label start emax area st scramble m e ends r e' :
  compile us u options es frame g = Ret k → gen_wf g →
  supported us options (unit_items u) = true →
  (∀ t, t ∈ container_types → assoc t es = None) →
  Inj eq eq label → (∀ l, label l ≠ 0) →
  call_env k frame start emax area st →
  (∀ m, agree (frame_of frame k) m (scramble m)) →
  start ≤ e → growing e ends emax →
  parse_loop (call_context es k label start) (k_size k) (k_body k) scramble e ends m area st = Ret (r, e') →
  agree (may_write (frame_of frame k) area st) m (r_mem r) ∧ area_small (r_area r) ∧
  (∀ n, r_bytes r = Some n → 0 ≤ n ≤ e' - start).
Proof.
  intros Hk Hg Hs Hes Hinj Hnz Henv Hsc He Hgr H.
  pose proof (compiled_loop _ _ _ _ _ _ _ Hk Hg Hs Hes _ Hinj Hnz _ _ _ _ Henv m e ends _ Hsc He Hgr) as Hr.
  rewrite H in Hr. destruct (reparse_loop _ _ _ e ends m area st) as [[r2 e2]| | |] eqn:E2; try done.
  destruct Hr as [(_ & Hb & Ha & _ & Hm) Hee]. cbn in *. subst e2.
  apply (reparse_last es k label start emax area st m e ends r2 e' He Hgr) in E2 as [He' E2].
  destruct (compiled_safe _ _ _ _ _ _ _ Hk Hg Hs Hes _ Hinj Hnz _ _ _ _ Henv m e' r2 He' E2)
    as (Hw & Has & Hn).
  split_and!; [|by rewrite Ha|intros n Hn'; apply Hn; by rewrite <- Hb].
  eapply agree_trans; [exact Hw|]. apply agree_sym. eapply agree_mono; [|exact Hm].
  intros a ?. by left.
Qed.

Lemma incremental_safe_witness :
  ∃ r e', parse_loop Sample.C (k_size Sample.parser) (k_body Sample.parser) Sample.scramble
      3001 [3002; 3004; 3006] (Sample.memory Sample.bytes) Sample.area Sample.stack = Ret (r, e') ∧
    agree (may_write (frame_of Sample.frame Sample.parser) Sample.area Sample.stack)
      (Sample.memory Sample.bytes) (r_mem r) ∧ area_small (r_area r) ∧
    (∀ n, r_bytes r = Some n → 0 ≤ n ≤ e' - 3000).
Proof.
  destruct (parse_loop Sample.C (k_size Sample.parser) (k_body Sample.parser) Sample.scramble
      3001 [3002; 3004; 3006] (Sample.memory Sample.bytes) Sample.area Sample.stack) as [[r e']| | |] eqn:E.
  2-4: exfalso; revert E; vm_compute; discriminate.
  exists r, e'. split; [reflexivity|].
  apply (incremental_safe Sample.us Sample.message Sample.options Sample.es Sample.frame newGenerator
    Sample.parser Sample.label 3000 3006 Sample.area Sample.stack Sample.scramble
    (Sample.memory Sample.bytes) 3001 [3002; 3004; 3006]).
  - apply Sample.parser_compiled.
  - apply newGenerator_wf.
  - vm_compute. reflexivity.
  - apply Sample.enums_ok.
  - apply Sample.label_inj'.
  - done.
  - apply Sample.env_ok.
  - apply Sample.scramble_frame.
  - lia.
  - cbn. lia.
  - exact E.
Defined.
