(* ===== verification/Deliver.v ===== *)
(** * Deliveries

    Data arrives in pieces ([perfeval/memcached_evaluator.cpp] passes ever longer prefixes of a
    message to the parser).  This file shows that a parser with a part of a message can do
    nothing but ask for more, and that therefore a parser that is called after every delivery
    is done once the message is there: with less input an instruction either does the same or
    returns [OUT_OF_DATA] ([less]), and so do whole parsers ([call_less]). *)

From S2P Require Import Prelude Util Runtime Ident Ast Units Translate Generate Exec Resume Incremental.
Import Runtime.Memory Runtime.MemoryLemmas Translate.Cpp Generate.ParserGenerator.
Import Units.Units Exec.Types Exec.Eval Exec.Exec Generate.Generator.

Local Open Scope Z_scope.

(** ** Instructions with less input *)

(** The lines that look at the end of the input. *)
Definition fetches (l : pline) : bool :=
  match l with PParseInt _ _ _ | PAllocateCopy _ | PAdvanceRange => true | _ => false end.
Definition plain (c : pcode) : Prop :=
  match c with Line PCheck => False | Line l => fetches l = false | _ => False end.

(** What the code [o] made of the shorter input, when the longer one was enough. *)
Definition less (o o2 : outcome ctl) : Prop :=
  ∀ s2, o2 = Ret (Next s2) →
    o = Ret (Next s2) ∨ ∃ s1, o = Ret (Return Parsing.OUT_OF_DATA s1).

Lemma exec_list_app C b b' s :
  exec_list C (b ++ b') s = and_then (exec_list C b s) (exec_list C b').
Proof.
  revert s. induction b as [|c b IH]; intros s; [done|]. cbn [app exec_list].
  destruct (exec_code C c s) as [[]| | |]; try done. apply IH.
Qed.

Section Less.
  Context (C : context) (F : Z → Prop) (u e2 : Z).
  Context (He : c_end C ≤ e2) (Hok2 : call_ok (with_end e2 C) F u).

Abbreviation C2 := (with_end e2 C).

Lemma plain_same c s : plain c → exec_code C2 c s = exec_code C c s.
Proof using Type. by destruct c as [[]| |]. Qed.


(** Plain lines keep the position and the area. *)
Lemma steady_keeps c s c' :
  steady C e2 [c] → exec_code C c s = Ret c' →
  ∃ s', c' = Next s' ∧ p_area s' = p_area s ∧ pos_of s' = pos_of s ∧ p_unit s' = p_unit s.
Proof using Type.
  intros Hs H. rewrite <- (and_then_nil C (exec_code C c s)) in H.
  destruct (Hs s c' H) as [_ [m ->]]. by eexists.
Qed.

Lemma plain_keeps c s c' :
  plain c → exec_code C c s = Ret c' →
  ∃ s', c' = Next s' ∧ p_area s' = p_area s ∧ pos_of s' = pos_of s ∧ p_unit s' = p_unit s.
Proof using e2.
  destruct c as [l| |]; [|done..]. destruct l; try done; intros _ H.
  6: by eapply steady_keeps; [apply steady_assign|].
  5: by eapply steady_keeps; [apply steady_cast|].
  all: cbn [exec_code exec_line] in H; unfold member_address in H.
  all: destruct_Ret H; repeat (case_match; try done); simplify_eq; by eexists.
Qed.

(** A fetching line sets [parse_res], to [OUT_OF_DATA] if the shorter input is not enough. *)
Lemma pointer_add_same pos len : pointer_add pos len pos = Ret tt.
Proof using Type. unfold pointer_add. by rewrite Z.eqb_refl. Qed.

Lemma short_more len s :
  good C s → Parsing.short_of_len len (pos_of s) (c_end C) = false →
  Parsing.short_of_len len (pos_of s) e2 = false.
Proof using He Hok2.
  intros [Hp _] Hs. pose proof (ok_size _ _ _ Hok2) as Hsz. cbn [c_end c_start with_end] in Hsz.
  unfold Parsing.short_of_len in *. apply Z.ltb_ge in Hs. apply Z.ltb_ge.
  rewrite (swrap_small 64 (c_end C - _)) in Hs by lia.
  rewrite (swrap_small 64 (e2 - _)) by lia. lia.
Qed.

Lemma fetch_less l s s2 :
  fetches l = true → good C s → exec_line C2 l s = Ret (Next s2) →
  exec_line C l s = Ret (Next s2) ∨
  ∃ s1, exec_line C l s = Ret (Next s1) ∧ p_res s1 = Parsing.OUT_OF_DATA.
Proof using He Hok2.
  intros Hl Hg H. pose proof (ok_size _ _ _ Hok2) as Hsz. cbn [c_end c_start with_end] in Hsz.
  destruct (buffer2 C e2 He Hsz s Hg) as [Hb Hb2].
  destruct l; try done; cbn [exec_line] in *; change (c_end C2) with e2 in H.
  - destruct (read uint64_t _ (_ + len_offset _)) as [len| | |]; try done.
    cbn [mbind outcome_bind] in *. destruct (read uint64_t _ _) as [dest0| | |]; try done. cbn [mbind outcome_bind] in *.
    unfold Parsing.allocateCopyBytes in *.
    destruct (Parsing.short_of_len len (pos_of s) (c_end C)) eqn:Es.
    { right. cbn [mbind outcome_bind]. rewrite pointer_add_same. by eexists. }
    rewrite short_more in H by done. by left.
  - destruct (read uint64_t _ _) as [len| | |]; try done. cbn [mbind outcome_bind] in *.
    unfold Parsing.advance in *. destruct (Parsing.short_of_len len (pos_of s) (c_end C)) eqn:Es.
    { right. rewrite pointer_add_same. by eexists. }
    rewrite short_more in H by done. by left.
  - destruct (int_parser w sg order) as [f|] eqn:Ef; [|done].
    destruct (int_parser_spec _ _ _ _ Ef) as (n & ord & Hf & Ho & Hn).
    cbn [some_or_ill mbind outcome_bind] in *. rewrite (Hf (p_mem s)) in H |- *.
    rewrite short_of_spec in H |- * by done.
    destruct (Z.ltb_spec (c_end C - pos_of s) (Z.of_nat n)); [right; by eexists|].
    destruct (Z.ltb_spec (e2 - pos_of s) (Z.of_nat n)); [lia|]. by left.
Qed.

(** The instructions of items: plain lines with at most one fetching line among them, whose
    result is checked at once. *)
Lemma atomic_split b :
  atomic C b → Forall plain b ∨
    ∃ pre l post, b = pre ++ Line l :: Line PCheck :: post ∧ fetches l = true ∧
      Forall plain pre ∧ Forall plain post.
Proof using Type.
  destruct 1 as [| | |cu f w sg o| cu f k e|cu f e|tmp w sg o cu f t].
  1-3: left; by repeat constructor.
  - right. by exists [Line (PDestField cu f)], (PParseInt w sg o), []; repeat constructor.
  - right. exists [Line (PDestField cu f); Line (PSetLen k e)], (PAllocateCopy k), [].
    by repeat constructor.
  - right. exists [Line (PDestField cu f); Line (PSetLen "var_stream_range" e); Line PRangeStart],
      PAdvanceRange, []. by repeat constructor.
  - right. exists [Line (PDestTemp tmp)], (PParseInt w sg o), [Line (PCastField cu f t tmp)].
    by repeat constructor.
Qed.

Lemma plain_list_same b s : Forall plain b → exec_list C2 b s = exec_list C b s.
Proof using Type.
  intros Hb. revert s. induction Hb as [|c b Hc _ IH]; intros s; [done|]. cbn [exec_list].
  rewrite (plain_same c s Hc). unfold and_then.
  destruct (exec_code C c s) as [[]| | |]; try done. apply IH.
Qed.

Lemma plain_list_keeps b s s' :
  Forall plain b → exec_list C b s = Ret (Next s') →
  p_area s' = p_area s ∧ pos_of s' = pos_of s ∧ p_unit s' = p_unit s.
Proof using e2.
  intros Hb. revert s. induction Hb as [|c b Hc _ IH]; intros s; cbn [exec_list]; [by intros [= <-]|].
  destruct (exec_code C c s) as [x| | |] eqn:E; try done.
  destruct (plain_keeps c s x Hc E) as (s1 & -> & <- & <- & <-). apply IH.
Qed.

Lemma atomic_less b s :
  atomic C b → good C s → less (exec_list C b s) (exec_list C2 b s).
Proof using He Hok2.
  intros [Hb|(pre & l & post & -> & Hl & Hpre & Hpost)]%atomic_split Hg s2 H.
  { left. by rewrite <- plain_list_same. }
  rewrite exec_list_app in H |- *. rewrite plain_list_same in H by done.
  destruct (exec_list C pre s) as [[s1|r s1]| | |] eqn:Epre; try done.
  destruct (plain_list_keeps _ _ _ Hpre Epre) as (Ha & Hpos & _).
  assert (Hg1 : good C s1) by (unfold good; by rewrite Ha, Hpos).
  cbn [and_then mbind outcome_bind exec_list exec_code] in H |- *.
  destruct (exec_line C2 l s1) as [[s3|r s3]| | |] eqn:El; try done.
  destruct (fetch_less l s1 s3 Hl Hg1 El) as [->|(s4 & -> & Hr)].
  - cbn [and_then mbind outcome_bind exec_line] in H |- *. destruct (p_res s3); try done.
    left. by rewrite <- plain_list_same.
  - right. exists s4. cbn. by rewrite Hr.
Qed.

(** ** Parsers with less input *)

Lemma exec_less :
  (∀ c, instr C c → ∀ s, p_unit s = u → good C s →
     less (exec_code C c s) (exec_code C2 c s)) ∧
  (∀ l, case_instrs C l → ∀ i s, p_unit s = u → good C s →
     less (exec_nth C l i s) (exec_nth C2 l i s)) ∧
  (∀ l, instrs C l → ∀ s, p_unit s = u → good C s →
     less (exec_list C l s) (exec_list C2 l s)).
Proof using He Hok2.
  pose proof (ok_less C F u e2 He Hok2) as Hok. apply instr_mutind.
  - intros l b Hb s Hu Hg. rewrite !exec_block. by apply atomic_less.
  - intros l e cases _ IH s Hu Hg. rewrite !exec_block_switch. change (adv C2 l s) with (adv C l s).
    change (exec_switch C2 e cases) with (exec_switch C e cases).
    destruct (exec_switch C e cases (adv C l s)) as [[i s1]| | |] eqn:E; try done.
    apply exec_switch_mem in E as [m ->]. cbn [mbind outcome_bind].
    destruct i as [i|]; [by apply IH|by left].
  - intros [] s; by left.
  - intros ls d body cases _ IHb _ IHc [|i] s Hu Hg; cbn [exec_nth]; auto.
  - intros s; by left.
  - intros c l Hc IHc _ IHl s Hu Hg s2 H. cbn [exec_list] in H |- *.
    destruct (exec_code C2 c s) as [[s1|r s1]| | |] eqn:E; try done.
    destruct (IHc s Hu Hg s1 E) as [H1|[s3 H1]]; rewrite H1; [|right; by exists s3].
    destruct (stays_good C F u Hok (ok_size _ _ _ Hok)) as [Hst _]. specialize (Hst c Hc s Hu Hg).
    rewrite H1 in Hst. apply IHl; [apply Hst..|done].
Qed.

(** A function returns early only with a result that is not [DONE]. *)
Definition not_done (o : outcome ctl) : Prop := ∀ s, o ≠ Ret (Return Parsing.DONE s).

Lemma line_not_done l s : not_done (exec_line C l s).
Proof using Type.
  intros s' H. destruct l; cbn [exec_line] in H; unfold member_address in H;
    destruct_Ret H; repeat (case_match; try done); by destruct_Ret H.
Qed.

Lemma atomic_not_done b s : atomic C b → not_done (exec_list C b s).
Proof using Type.
  intros Hb s'. assert (Hl : Forall (λ c, ∃ l, c = Line l) b).
  { destruct Hb; repeat constructor; by eexists. }
  clear Hb. revert s. induction Hl as [|c b [l ->] _ IH]; intros s; cbn [exec_list exec_code]; [done|].
  pose proof (line_not_done l s s') as Hn. destruct (exec_line C l s) as [[s1|r s1]| | |]; try done.
  apply IH.
Qed.

Lemma exec_not_done :
  (∀ c, instr C c → ∀ s, not_done (exec_code C c s)) ∧
  (∀ l, case_instrs C l → ∀ i s, not_done (exec_nth C l i s)) ∧
  (∀ l, instrs C l → ∀ s, not_done (exec_list C l s)).
Proof using Type.
  apply instr_mutind.
  - intros l b Hb s. rewrite exec_block. by apply atomic_not_done.
  - intros l e cases _ IH s. rewrite exec_block_switch.
    destruct (exec_switch C e cases _) as [[[i|] s1]| | |]; try done. apply IH.
  - by intros [] s s'.
  - intros ls d body cases _ IHb _ IHc [|i] s; cbn [exec_nth]; auto.
  - by intros s s'.
  - intros c l _ IHc _ IHl s s'. cbn [exec_list]. pose proof (IHc s s') as Hn.
    destruct (exec_code C c s) as [[s1|r s1]| | |]; try done. apply IHl.
Qed.

End Less.

Section CallLess.
  Context (C : context) (F : Z → Prop) (size : Z) (area : UnitArea.UnitArea).
  Context (st : ParserState.ParserState).
  Context (e2 : Z) (He : c_end C ≤ e2) (Hstart : c_start C ≤ c_end C).
  Context (Hok : fresh_ok (with_end e2 C) F size area st).
  Context (body : list pcode) (Hshape : instrs C body).
  Context (Hnew : ParserState.instruction st = 0).

(** A call with less than a message ends like the call with the message, or is suspended. *)
Lemma call_less m r2 :
  parse_call (with_end e2 C) body size m area st = Ret r2 → r_result r2 = Parsing.DONE →
  parse_call C body size m area st = Ret r2 ∨
  ∃ r1, parse_call C body size m area st = Ret r1 ∧ r_result r1 = Parsing.OUT_OF_DATA.
Proof using All.
  rewrite !(first_call C F size area st e2 Hok body Hnew) by auto. intros H Hd.
  destruct (ParserState.push_reserve 8 st) as [[q st1]| | |]; try done. cbn [mbind outcome_bind] in *.
  destruct (UnitArea.allocate_item size area) as [[u a]|] eqn:Ea; [|by left].
  destruct (ParserState.peek 8 st1) as [p| | |]; try done. cbn [mbind outcome_bind] in *.
  destruct (write uint64_t m p u) as [m0| | |]; try done. cbn [mbind outcome_bind] in *.
  change (first_state (with_end e2 C) m0 a st1 u) with (first_state C m0 a st1 u) in H.
  pose proof (call_ok2 C F size area st e2 Hok a u Ea) as Hc.
  assert (Hg : good C (first_state C m0 a st1 u)).
  { split; [unfold pos_of; cbn; lia|]. apply (unit_facts C F size area st e2 Hok a u Ea). }
  destruct (exec_less C F u e2 He Hc) as (_ & _ & Hl).
  specialize (Hl body Hshape (first_state C m0 a st1 u) eq_refl Hg).
  destruct (exec_list (with_end e2 C) body _) as [[s|r s]| | |] eqn:Ex; try done; cbn in H.
  - destruct (Hl s eq_refl) as [->|[s1 ->]]; [by left|right; by eexists].
  - injection H as <-. cbn in Hd. subst r.
    destruct (exec_not_done (with_end e2 C)) as (_ & _ & Hn).
    by destruct (Hn body (proj2 (proj2 (shape_with_end C e2)) body Hshape) _ _ Ex).
Qed.

End CallLess.

(** ** Schedules of deliveries *)

(** [arrived n] is the end of the data after [n] deliveries: it never shrinks, and stays within
    the message, whose end is [emax]. *)
Record schedule (start emax : Z) (arrived : nat → Z) : Prop := {
  sch_start : start ≤ arrived 0%nat;
  sch_grows n : arrived n ≤ arrived (S n);
  sch_max n : arrived n ≤ emax }.

Lemma schedule_start start emax arrived n : schedule start emax arrived → start ≤ arrived n.
Proof. intros [H1 H2 _]. induction n as [|n IH]; [done|]. specialize (H2 n). lia. Qed.

Lemma schedule_growing start emax arrived i n :
  schedule start emax arrived → growing (arrived i) (map arrived (seq (S i) n)) emax.
Proof.
  intros [_ H2 H3]. revert i. induction n as [|n IH]; intros i; cbn; [apply H3|]. split; [apply H2|apply IH].
Qed.

(** The ends of the calls a parser gets after its first. *)
Definition later (arrived : nat → Z) (n : nat) : list Z := map arrived (seq 1 n).

Section Reparse.
  Context (C : context) (F : Z → Prop) (size : Z) (body : list pcode).
  Context (Hshape : instrs C body) (m : mem) (area : UnitArea.UnitArea) (st : ParserState.ParserState).
  Context (emax : Z) (Hok : fresh_ok (with_end emax C) F size area st).
  Context (Hnew : ParserState.instruction st = 0).
  Context (arrived : nat → Z) (Hsch : schedule (c_start C) emax arrived).
  Context (r : call_result) (Hr : parse_call (with_end emax C) body size m area st = Ret r).
  Context (Hd : r_result r = Parsing.DONE).

Lemma reparse_done i n :
  arrived (i + n)%nat = emax →
  ∃ k, (k ≤ n)%nat ∧
    reparse_loop C size body (arrived i) (map arrived (seq (S i) k)) m area st =
      Ret (r, arrived (i + k)%nat).
Proof using All.
  revert i. induction n as [|n IH]; intros i Hi.
  - exists 0%nat. split; [done|]. rewrite Nat.add_0_r in *. cbn. rewrite Hi, Hr. cbn. by rewrite Hd.
  - assert (Hi1 : c_start C ≤ arrived i) by (by eapply schedule_start).
    destruct (call_less (with_end (arrived i) C) F size area st emax (sch_max _ _ _ Hsch i) Hi1 Hok
      body (proj2 (proj2 (shape_with_end C (arrived i))) body Hshape) Hnew m r Hr Hd) as [H|(r1 & H & H1)].
    + exists 0%nat. split; [lia|]. rewrite Nat.add_0_r. cbn. rewrite H. cbn. by rewrite Hd.
    + rewrite <- Nat.add_succ_comm in Hi. destruct (IH (S i) Hi) as (k & Hk & Hl).
      exists (S k). split; [lia|]. rewrite <- Nat.add_succ_comm. cbn [seq map reparse_loop].
      rewrite H. cbn [mbind outcome_bind]. by rewrite H1.
Qed.

End Reparse.

(** C6: Liveness: a message that a parser reads in one call is read however it is cut: when the data
    has arrived after [n] deliveries, the parser that is called after each of them is done by
    then, with the unit, the area and the number of bytes of the single call. *)
Theorem delivered_message_parsed us u options es frame g k label start emax area st scramble m r arrived n :
  compile us u options es frame g = Ret k → gen_wf g →
  supported us options (unit_items u) = true →
  (∀ t, t ∈ container_types → assoc t es = None) →
  Inj eq eq label → (∀ l, label l ≠ 0) →
  call_env k frame start emax area st →
  (∀ m, agree (frame_of frame k) m (scramble m)) →
  parse_call (with_end emax (call_context es k label start)) (k_body k) (k_size k) m area st = Ret r →
  r_result r = Parsing.DONE →
  schedule start emax arrived → arrived n = emax →
  ∃ i r', (i ≤ n)%nat ∧
    parse_loop (call_context es k label start) (k_size k) (k_body k) scramble
      (arrived 0%nat) (later arrived i) m area st = Ret (r', arrived i) ∧
    call_rel (frame_of frame k) r' r.
Proof.
  intros Hk Hg Hs Hes Hinj Hnz Henv Hsc Hr Hd Hsch Hn.
  destruct (compiled_shape _ _ _ _ _ _ _ Hk Hg Hs Hes label start start) as [Hsh _].
  pose proof (compiled_fresh _ _ _ _ _ _ _ Hk Hes _ Hinj Hnz _ _ _ _ Henv) as Hok.
  destruct (reparse_done (call_context es k label start) _ _ _ Hsh m area st emax Hok
    (env_new _ _ _ _ _ _ Henv) arrived Hsch r Hr Hd 0%nat n Hn) as (i & Hi & Hl).
  pose proof (compiled_loop _ _ _ _ _ _ _ Hk Hg Hs Hes _ Hinj Hnz _ _ _ _ Henv m _ _ _ Hsc
    (sch_start _ _ _ Hsch) (schedule_growing _ _ _ 0 i Hsch)) as Hrel.
  rewrite Hl in Hrel. fold (later arrived i) in Hrel.
  destruct (parse_loop _ _ _ _ _ (later arrived i) m area st) as [[r' e']| | |] eqn:E; try done.
  destruct Hrel as [Hrel He]. cbn in He. subst e'. by exists i, r'.
Qed.

(** The message of [Incremental.Sample], a byte at a time. *)
Definition byte_by_byte (n : nat) : Z := Z.min 3006 (3001 + Z.of_nat n).

Lemma delivered_message_parsed_witness :
  ∃ i r' r, (i ≤ 5)%nat ∧
    parse_loop Sample.C (k_size Sample.parser) (k_body Sample.parser) Sample.scramble
      3001 (later byte_by_byte i) (Sample.memory Sample.bytes) Sample.area Sample.stack =
      Ret (r', byte_by_byte i) ∧
    call_rel (frame_of Sample.frame Sample.parser) r' r ∧ r_bytes r = Some 6.
Proof.
  assert (Hr : match parse_call (with_end 3006 Sample.C) (k_body Sample.parser) (k_size Sample.parser)
      (Sample.memory Sample.bytes) Sample.area Sample.stack with
    | Ret r => r_result r = Parsing.DONE ∧ r_bytes r = Some 6 | _ => False end)
    by (vm_compute; by split).
  destruct (parse_call (with_end 3006 Sample.C) (k_body Sample.parser) (k_size Sample.parser)
    (Sample.memory Sample.bytes) Sample.area Sample.stack) as [r| | |] eqn:E.
  2-4: exact (False_ind _ Hr).
  destruct (delivered_message_parsed Sample.us Sample.message Sample.options Sample.es Sample.frame
    newGenerator Sample.parser Sample.label 3000 3006 Sample.area Sample.stack Sample.scramble
    (Sample.memory Sample.bytes) r byte_by_byte 5) as (i & r' & Hi & Hl & Hrel).
  - apply Sample.parser_compiled.
  - apply newGenerator_wf.
  - vm_compute. reflexivity.
  - apply Sample.enums_ok.
  - apply Sample.label_inj'.
  - done.
  - apply Sample.env_ok.
  - apply Sample.scramble_frame.
  - exact E.
  - apply Hr.
  - split; unfold byte_by_byte; lia.
  - done.
  - exists i, r', r. split_and!; [done|exact Hl|done|apply Hr].
Defined.
