(* ===== verification/Emit.v ===== *)
(** * Executing generated serializers

    The meaning of the code [SerializerGenerator] writes ([Generate.v]), next to [Exec.v], whose
    types, layouts and expressions it shares: lines, blocks and switches, the computed [goto] of
    a serializer whose output buffer was full, and the whole serialize function.  [serialize_src],
    [serialize_res] and [dollar] are locals; [dollar] is not initialized. *)

From S2P Require Import Prelude Util Runtime Translate Generate Exec.
Import Runtime.Memory Runtime.MemoryLemmas Translate.Cpp Generate.SerializerGenerator.
Import Exec.Types Exec.Eval.

Local Open Scope Z_scope.

Module Emit.

(** The variables of a call. *)
Record smach := mkS {
  s_mem : mem;
  s_state : ParserState.ParserState;
  s_unit : Z;
  s_src : Z;
  s_dollar : option Z;
  s_res : Serializing.SerializeResult }.

Definition set_smem (m : mem) (t : smach) : smach :=
  mkS m (s_state t) (s_unit t) (s_src t) (s_dollar t) (s_res t).
Definition set_sstate (st : ParserState.ParserState) (t : smach) : smach :=
  mkS (s_mem t) st (s_unit t) (s_src t) (s_dollar t) (s_res t).
Definition set_src (p : Z) (t : smach) : smach :=
  mkS (s_mem t) (s_state t) (s_unit t) p (s_dollar t) (s_res t).
Definition set_dollar (p : Z) (t : smach) : smach :=
  mkS (s_mem t) (s_state t) (s_unit t) (s_src t) (Some p) (s_res t).
Definition out_pos (t : smach) : Z := ParserState.stream_pos_ (s_state t).
(** [*POS] and [serialize_res] after a call. *)
Definition set_sresult (r : Serializing.SerializeResult) (pos : Z) (t : smach) : smach :=
  mkS (s_mem t) (ParserState.set_stream_pos pos (s_state t)) (s_unit t) (s_src t) (s_dollar t) r.

(** How a statement ends. *)
Inductive sctl := SNext (t : smach) | SReturn (r : Serializing.SerializeResult) (t : smach).

(** The enumerations, members, temporaries and labels, and the output buffer. *)
Record scontext := mkSContext {
  o_enums : enums;
  o_members : list (string * (Z * string));
  o_temps : list (string * (Z * string));
  o_label : string → Z;
  o_start : Z;
  o_end : Z }.

Section Emit.
  Context (K : scontext).

Definition smember_address (f : string) (t : smach) : outcome (Z * string) :=
  '(o, ty) ← some_or_ill (assoc f (o_members K)); Ret (s_unit t + o, ty).

(** A text as an expression. *)
Definition stext (e : string) (t : smach) : outcome (cty * Z * mem) :=
  eval_text (o_enums K) (o_members K) (s_unit t) (s_dollar t) e (s_mem t).

(** The integer serializer of a width, signedness and byte order. *)
Definition int_serializer (w : Z) (sg : bool) (order : string) : option Serializing.serializer :=
  c_serialize <$> List.find (λ c, (width (c_type c) =? w) && eqb (is_signed (c_type c)) sg &&
                                  String.eqb (if c_big c then "big" else "little") order) int_codecs.

(** [copyBytes] of the [len] bytes at [src]. *)
Definition emit_bytes (src len : Z) (t : smach) : outcome sctl :=
  '(r, pos, m) ← Serializing.copyBytes_out (s_mem t) src len (out_pos t) (o_end K);
  _ ← Exec.pointer_add (out_pos t) len pos;
  Ret (SNext (set_sresult r pos (set_smem m t))).

Definition emit_line (l : sline) (t : smach) : outcome sctl :=
  match l with
  | SLabel _ | SBlank => Ret (SNext t)
  | SAdvanceTo l =>
      Ret (SNext (set_sstate (ParserState.advanceToInstruction (o_label K l) (s_state t)) t))
  | SSrcTemp tmp =>
      '(p, _) ← some_or_ill (assoc tmp (o_temps K)); Ret (SNext (set_src p t))
  | SSrcField _ f => '(p, _) ← smember_address f t; Ret (SNext (set_src p t))
  | SCastFrom tmp ty _ f =>
      '(o, cf) ← member (o_enums K) (o_members K) f;
      v ← read (rep cf) (s_mem t) (s_unit t + o);
      c ← some_or_ill (scalar_type (o_enums K) ty);
      '(q, qt) ← some_or_ill (assoc tmp (o_temps K));
      ct ← some_or_ill (scalar_type (o_enums K) qt);
      v ← implicit c ct (cast c v);
      m ← write (rep ct) (s_mem t) q v;
      Ret (SNext (set_smem m t))
  | SDollar _ f => '(p, _) ← smember_address f t; Ret (SNext (set_dollar p t))
  | SExpr e => '(_, _, m) ← stext e t; Ret (SNext (set_smem m t))
  | SSetLength e =>
      x ← some_or_ill (read_cpp e);
      '(p, c) ← lvalue (o_enums K) (o_members K) (s_unit t) (s_dollar t) x;
      len ← read uint64_t (s_mem t) (s_src t + Exec.len_offset "var_bytes");
      v ← implicit (CInt uint64_t) c len;
      m ← write (rep c) (s_mem t) p v;
      Ret (SNext (set_smem m t))
  | SCopyBytes k =>
      data ← read uint64_t (s_mem t) (s_src t + Exec.data_offset);
      len ← read uint64_t (s_mem t) (s_src t + Exec.len_offset k);
      emit_bytes data len t
  | SCopyRange =>
      start ← read uint64_t (s_mem t) (s_src t + Exec.start_offset);
      len ← read uint64_t (s_mem t) (s_src t + Exec.len_offset "var_stream_range");
      emit_bytes start len t
  | SSerializeInt w sg order =>
      f ← some_or_ill (int_serializer w sg order);
      '(r, pos, m) ← f (s_mem t) (s_src t) (out_pos t) (o_end K);
      Ret (SNext (set_sresult r pos (set_smem m t)))
  | SCheck =>
      Ret (match s_res t with Serializing.DONE => SNext t | r => SReturn r t end)
  end.

(** Sequential composition. *)
Definition then_emit (o : outcome sctl) (k : smach → outcome sctl) : outcome sctl :=
  c ← o; match c with SNext t => k t | SReturn r t => Ret (SReturn r t) end.

(** The case a switch selects, as in a parser. *)
Fixpoint smatches (c : cty) (v : Z) (labels : list string) (t : smach) : outcome bool :=
  match labels with
  | [] => Ret false
  | l :: labels =>
      '(cl, vl, _) ← stext l t;
      _ ← common c cl;
      if v =? vl then Ret true else smatches c v labels t
  end.
Fixpoint sselect (c : cty) (v : Z) (cases : list (code_case sline)) (t : smach) (i : nat)
    (dflt : option nat) : outcome (option nat) :=
  match cases with
  | [] => Ret dflt
  | mkCodeCase labels d _ :: cases =>
      b ← smatches c v labels t;
      if b : bool then Ret (Some i)
      else sselect c v cases t (S i) (if d then Some i else dflt)
  end.
Definition emit_switch (e : string) (cases : list (code_case sline)) (t : smach)
    : outcome (option nat * smach) :=
  '(c, v, m) ← stext e t;
  i ← sselect c v cases (set_smem m t) 0 None;
  Ret (i, set_smem m t).

Fixpoint emit_code (c : scode) (t : smach) : outcome sctl :=
  let emit_list := fix emit_list (l : list scode) (t : smach) : outcome sctl :=
    match l with
    | [] => Ret (SNext t)
    | c :: l => then_emit (emit_code c t) (emit_list l)
    end in
  let emit_nth := fix emit_nth (l : list (code_case sline)) (i : nat) (t : smach) : outcome sctl :=
    match l, i with
    | mkCodeCase _ _ body :: _, O => emit_list body t
    | _ :: l, S i => emit_nth l i t
    | [], _ => Ret (SNext t)
    end in
  match c with
  | Line l => emit_line l t
  | Block body => emit_list body t
  | Switch e cases =>
      '(i, t) ← emit_switch e cases t;
      match i with Some i => emit_nth cases i t | None => Ret (SNext t) end
  end.
Fixpoint emit_list (l : list scode) (t : smach) : outcome sctl :=
  match l with
  | [] => Ret (SNext t)
  | c :: l => then_emit (emit_code c t) (emit_list l)
  end.
Fixpoint emit_nth (l : list (code_case sline)) (i : nat) (t : smach) : outcome sctl :=
  match l, i with
  | mkCodeCase _ _ body :: _, O => emit_list body t
  | _ :: l, S i => emit_nth l i t
  | [], _ => Ret (SNext t)
  end.

(** [goto *state->instruction()]. *)
Fixpoint sgoto_code (a : Z) (c : scode) (t : smach) : option (outcome sctl) :=
  let sgoto_list := fix sgoto_list (l : list scode) (t : smach) : option (outcome sctl) :=
    match l with
    | [] => None
    | c :: l =>
        match sgoto_code a c t with
        | Some o => Some (then_emit o (emit_list l))
        | None => sgoto_list l t
        end
    end in
  let sgoto_cases := fix sgoto_cases (l : list (code_case sline)) (t : smach)
      : option (outcome sctl) :=
    match l with
    | [] => None
    | mkCodeCase _ _ body :: l =>
        match sgoto_list body t with Some o => Some o | None => sgoto_cases l t end
    end in
  match c with
  | Line (SLabel l) => if o_label K l =? a then Some (Ret (SNext t)) else None
  | Line _ => None
  | Block body => sgoto_list body t
  | Switch _ cases => sgoto_cases cases t
  end.
Definition sgoto_list (a : Z) := fix sgoto_list (l : list scode) (t : smach)
    : option (outcome sctl) :=
  match l with
  | [] => None
  | c :: l =>
      match sgoto_code a c t with
      | Some o => Some (then_emit o (emit_list l))
      | None => sgoto_list l t
      end
  end.

Definition sgoto_cases (a : Z) := fix sgoto_cases (l : list (code_case sline)) (t : smach)
    : option (outcome sctl) :=
  match l with
  | [] => None
  | mkCodeCase _ _ body :: l =>
      match sgoto_list a body t with Some o => Some o | None => sgoto_cases l t end
  end.

(** What a call returns: the result, [*bytes_written] if it is set, memory and state. *)
Record serialized := mkSerialized {
  z_result : Serializing.SerializeResult;
  z_bytes : option Z;
  z_mem : mem;
  z_state : ParserState.ParserState }.

Definition sfinish (o : outcome sctl) : outcome serialized :=
  c ← o;
  Ret (match c with
       | SNext t => mkSerialized Serializing.DONE (Some (out_pos t - o_start K)) (s_mem t) (s_state t)
       | SReturn r t => mkSerialized r None (s_mem t) (s_state t)
       end).

(** The generated function, called with a unit and a parser state. *)
Definition serialize_call (body : list scode) (m : mem) (unit : Z) (state : ParserState.ParserState)
    : outcome serialized :=
  if negb (ParserState.instruction state =? 0) then
    p ← ParserState.peek 8 state;
    unit ← read uint64_t m p;
    match sgoto_list (ParserState.instruction state) body
            (mkS m state unit 0 None Serializing.NEXT) with
    | Some o => sfinish o
    | None => Abort "goto"
    end
  else
    '(_, state) ← ParserState.push_reserve 8 state;
    p ← ParserState.peek 8 state;
    m ← write uint64_t m p unit;
    sfinish (emit_list body
               (mkS m (ParserState.set_stream_pos (o_start K) state) unit 0 None Serializing.NEXT)).

End Emit.
End Emit.
Import Emit.

(** ** Lists of code *)

Section EmitLemmas.
  Context (K : scontext).

Lemma emit_list_app b b' t :
  emit_list K (b ++ b') t = then_emit (emit_list K b t) (emit_list K b').
Proof using Type.
  revert t. induction b as [|c b IH]; intros t; [done|]. cbn [app emit_list].
  destruct (emit_code K c t) as [[]| | |]; try done. apply IH.
Qed.

Lemma then_emit_nil o : then_emit o (emit_list K []) = o.
Proof using Type. by destruct o as [[]| | |]. Qed.

Lemma emit_one c t : emit_list K [c] t = emit_code K c t.
Proof using Type. apply then_emit_nil. Qed.

(** The label of an instruction. *)
Lemma emit_block l b t :
  emit_code K (Block (Line (SLabel l) :: Line (SAdvanceTo l) :: b)) t =
  emit_list K b (set_sstate (ParserState.advanceToInstruction (o_label K l) (s_state t)) t).
Proof using Type. reflexivity. Qed.

Lemma emit_src_field cu f k t :
  emit_list K (Line (SSrcField cu f) :: k) t =
  match assoc f (o_members K) with
  | Some (o, _) => emit_list K k (set_src (s_unit t + o) t)
  | None => ill_formed
  end.
Proof using Type.
  cbn [emit_list emit_code emit_line]. unfold smember_address.
  by destruct (assoc f (o_members K)) as [[o ty]|].
Qed.

End EmitLemmas.

Lemma int_serializer_spec w sg o g :
  int_serializer w sg o = Some g →
  ∃ n order, IntSerializer n order g ∧ ByteOrder order ∧ 8 * Z.of_nat n = w.
Proof.
  unfold int_serializer. destruct (List.find _ _) as [c|] eqn:E; [|done]. intros [= <-].
  apply List.find_some in E as [Hin Ht]. apply list_elem_of_In in Hin.
  destruct (int_codecs_ok c Hin) as [_ Hs]. exists (sizeof (c_type c)), (c_order c).
  bool_to_prop. split_and!; [done|apply _|done].
Qed.

(** ** The start of a call *)

(** The first state of a call. *)
Definition start_serializing (K : scontext) (m : mem) (unit : Z) (st : ParserState.ParserState)
    : outcome smach :=
  '(_, st) ← ParserState.push_reserve 8 st;
  p ← ParserState.peek 8 st;
  m ← write uint64_t m p unit;
  Ret (mkS m (ParserState.set_stream_pos (o_start K) st) unit 0 None Serializing.NEXT).

Lemma serialize_start K body m unit st :
  ParserState.instruction st = 0 →
  serialize_call K body m unit st = t ← start_serializing K m unit st; sfinish K (emit_list K body t).
Proof.
  intros Hi. unfold serialize_call, start_serializing. rewrite Hi. cbn [negb Z.eqb].
  destruct (ParserState.push_reserve 8 st) as [[q st1]| | |]; try done. cbn [mbind outcome_bind].
  destruct (ParserState.peek 8 st1); try done. cbn [mbind outcome_bind]. by destruct (write uint64_t m _ unit).
Qed.
