(* ===== verification/RoundTrip.v ===== *)
(** * Serializing what was parsed

    The parser and the serializer that are generated for a unit are inverse to each other: a
    serializer that gets a parsed unit writes the bytes the parser read.  The code of the two for
    one item is related by [trip]: whatever the parser did, the serializer reproduces from the
    members and the bytes the parser left, as long as these are kept.  [ordered] is what a unit
    must satisfy for this: expressions only look at members that were parsed before, and the
    conversions of transformed fields lose nothing. *)

From S2P Require Import Prelude Util Runtime Ident Ast Units Translate Generate Exec Resume Incremental Deliver Emit.
Import Runtime.Memory Runtime.MemoryLemmas Translate.Cpp.
Import Units.Units Generate.Generator Generate.ParserGenerator Generate.SerializerGenerator.
Import Exec.Types Exec.Eval Exec.Exec Emit.Emit.

Local Open Scope Z_scope.

(** ** What an expression reads *)

(** The members a pure expression without [$$] reads. *)
Fixpoint reads (x : cexpr) : option (list string) :=
  match x with
  | XLit _ | XBool _ | XEnum _ _ => Some []
  | XMember (XSelf _) f => Some [f]
  | XNot a | XCast _ a => reads a
  | XBin _ a b => ra ← reads a; rb ← reads b; Some (ra ++ rb)
  | XCond c t f => rc ← reads c; rt ← reads t; rf ← reads f; Some (rc ++ rt ++ rf)
  | XNull | XName _ | XSelf _ | XDollar _ | XMember _ _ | XAssign _ _ => None
  end.
Definition text_reads (s : string) : option (list string) := x ← read_cpp s; reads x.

Section EvalReads.
  Context (es : enums) (members : list (string * (Z * string))) (u : Z) (d : option Z).
  Context (m m' : mem).

(** The scalar members [ns] have the same values. *)
Definition same_members (ns : list string) : Prop :=
  ∀ f o c, f ∈ ns → member es members f = Ret (o, c) →
    load_bytes (sizeof (rep c)) m' (u + o) = load_bytes (sizeof (rep c)) m (u + o).

Definition both {A} (x y : A * mem) : Prop := x.1 = y.1 ∧ x.2 = m ∧ y.2 = m'.

Lemma same_members_app l l' : same_members (l ++ l') → same_members l ∧ same_members l'.
Proof using Type.
  intros H. split; intros f o c Hf; apply H; apply elem_of_app; auto.
Qed.

Ltac steps :=
  repeat first
    [ done
    | match goal with
      | |- orel _ (mbind _ ?x) (mbind _ ?x) =>
          apply (orel_bind eq); [apply orel_same|intros ? ? <-]
      | |- orel _ (mbind _ (eval _ _ _ _ ?a _)) (mbind _ (eval _ _ _ _ ?a _)) =>
          eapply (orel_bind both); [by eauto|intros [? ?] [? ?] (? & ? & ?); simpl in *; subst]
      | |- orel _ (if ?b then _ else _) (if ?b then _ else _) => destruct b
      | |- context [let '(_, _) := ?p in _] => is_var p; destruct p
      end ].

Lemma eval_reads x ns :
  reads x = Some ns → same_members ns →
  orel both (eval es members u None x m) (eval es members u d x m').
Proof using Type.
  revert ns. induction x as [z|b| |n|t l|t|t|a IH f|a IH|o a IHa b IHb|t a IH|a IHa b IHb|c IHc t IHt f IHf];
    intros ns Hr Hs; cbn [reads] in Hr; try done.
  - cbn [eval]. by steps.
  - cbn [eval]. by steps.
  - destruct a; try done. injection Hr as <-. cbn [eval lvalue].
    destruct (member es members f) as [[o c]| | |] eqn:E; try done. cbn [mbind outcome_bind].
    unfold read. rewrite (Hs f o c) by (done || by left).
    by destruct (load_bytes _ m _).
  - specialize (IH _ Hr Hs). cbn [eval]. by steps.
  - destruct (reads a) as [ra|]; [|done]. destruct (reads b) as [rb|]; [|done].
    injection Hr as <-. apply same_members_app in Hs as [Ha Hb].
    specialize (IHa _ eq_refl Ha). specialize (IHb _ eq_refl Hb).
    destruct o; cbn [eval]; by steps.
  - specialize (IH _ Hr Hs). cbn [eval]. by steps.
  - destruct (reads c) as [rc|]; [|done]. destruct (reads t) as [rt|]; [|done].
    destruct (reads f) as [rf|]; [|done].
    injection Hr as <-. apply same_members_app in Hs as [Hc [Ht Hf]%same_members_app].
    specialize (IHc _ eq_refl Hc). specialize (IHt _ eq_refl Ht). specialize (IHf _ eq_refl Hf).
    cbn [eval]. steps.
    match goal with |- orel _ (mbind _ (if ?b then _ else _)) _ => destruct b end.
    all: eapply (orel_bind both); [by eauto|]; intros [? ?] [? ?] (? & ? & ?); simpl in *; by subst.
Qed.

Lemma eval_text_reads s ns :
  text_reads s = Some ns → same_members ns →
  orel both (eval_text es members u None s m) (eval_text es members u d s m').
Proof using Type.
  intros Hr Hs. unfold text_reads in Hr. unfold eval_text. destruct (read_cpp s) as [x|]; [|done].
  cbn in Hr. cbn [some_or_ill mbind outcome_bind]. destruct (typeof es members x); try done.
  eapply (orel_bind both); [by eapply eval_reads|].
  intros [? ?] [? ?] (? & ? & ?); simpl in *; by subst.
Qed.

End EvalReads.

Lemma reads_pure x ns : reads x = Some ns → pure x = true.
Proof.
  revert ns. induction x as [z|b| |n|t l|t|t|a IH f|a IH|o a IHa b IHb|t a IH|a IHa b IHb|c IHc t IHt f IHf];
    intros ns H; cbn in *; try done; eauto.
  - by destruct a.
  - destruct (reads a); [|done]. destruct (reads b); [|done]. by rewrite (IHa _ eq_refl), (IHb _ eq_refl).
  - destruct (reads c); [|done]. destruct (reads t); [|done]. destruct (reads f); [|done].
    by rewrite (IHc _ eq_refl), (IHt _ eq_refl), (IHf _ eq_refl).
Qed.

(** ** What must be kept for the serializer *)

Section Trip.
  Context (C : context) (K : scontext) (F G : Z → Prop) (u size : Z) (A : UnitArea.UnitArea).

Definition in_input (a : Z) : Prop := c_start C ≤ a < c_end C.
Definition in_output (a : Z) : Prop := o_start K ≤ a < o_end K.
Definition area_end : Z := UnitArea.contents A + UnitArea.size_ A.
Definition in_contents (a : Z) : Prop := UnitArea.contents A ≤ a < area_end.

(** The bytes of member [f]. *)
Definition slot_of (f : string) (a : Z) : Prop :=
  ∃ o t sz al, assoc f (c_members C) = Some (o, t) ∧ size_align (c_enums C) t = Some (sz, al) ∧
    u + o ≤ a < u + o + sz.

(** The parser with locals [F] and the serializer with locals [G] work on one unit, of [size]
    bytes at [u] in the area [A]; the locals, the buffers and the area do not overlap. *)
Record setting : Prop := {
  tr_ok : call_ok C F u;
  tr_enums : o_enums K = c_enums C;
  tr_members : o_members K = c_members C;
  tr_within f o t sz al :
    assoc f (c_members C) = Some (o, t) → size_align (c_enums C) t = Some (sz, al) →
    0 ≤ o ∧ o + sz ≤ size;
  tr_unit : UnitArea.contents A ≤ u ∧ 0 ≤ size ∧ u + size ≤ area_end;
  tr_temps tmp q t sz al :
    assoc tmp (c_temps C) = Some (q, t) → size_align (c_enums C) t = Some (sz, al) →
    ∀ a, q ≤ a < q + sz → F a;
  tr_stemps tmp q t sz al :
    assoc tmp (o_temps K) = Some (q, t) → size_align (c_enums C) t = Some (sz, al) →
    ∀ a, q ≤ a < q + sz → G a;
  tr_area a : in_contents a → ¬ F a ∧ ¬ in_input a;
  tr_locals a : in_contents a ∨ in_input a → ¬ G a ∧ ¬ in_output a;
  tr_output a : in_output a → ¬ G a;
  tr_addresses : 0 ≤ c_start C ∧ c_end C < 2 ^ 64 ∧ 0 ≤ o_start K ∧ o_end K < 2 ^ 64;
  tr_length : o_end K - o_start K < 2 ^ 63 }.
  Context (H : setting).

Definition next (s : pmach) : Z := UnitArea.nextAllocPos_ (p_area s).

Definition inv (s : pmach) : Prop :=
  p_unit s = u ∧ good C s ∧ UnitArea.this (p_area s) = UnitArea.this A ∧
  UnitArea.size_ (p_area s) = UnitArea.size_ A ∧ u + size ≤ next s.

(** The members [D], the bytes allocated so far and the input. *)
Definition keep (D : list string) (s : pmach) (a : Z) : Prop :=
  (∃ f, f ∈ D ∧ slot_of f a) ∨ u + size ≤ a < next s ∨ in_input a.

(** What the parser may touch for member [f]. *)
Definition touch (f : string) (s : pmach) (a : Z) : Prop :=
  F a ∨ slot_of f a ∨ next s ≤ a < area_end.

Lemma inv_next s : inv s → UnitArea.contents A ≤ next s ≤ area_end.
Proof using Type.
  intros (_ & [_ [Hw _]] & Ht & Hs & _). unfold area_end, next, UnitAreaLemmas.area_wf, UnitArea.contents in *.
  rewrite Ht, Hs in Hw. lia.
Qed.

Lemma slot_in_unit f a : slot_of f a → u ≤ a < u + size.
Proof using H. intros (o & t & sz & al & H1 & H2 & Ha). destruct (tr_within H _ _ _ _ _ H1 H2). lia. Qed.

Lemma unit_in_contents a : u ≤ a < u + size → in_contents a.
Proof using H. intros Ha. pose proof (tr_unit H). unfold in_contents. lia. Qed.

Lemma slots_apart f f' a : f ≠ f' → slot_of f a → ¬ slot_of f' a.
Proof using H.
  intros Hne (o & t & sz & al & H1 & H2 & Ha) (o' & t' & sz' & al' & H1' & H2' & Ha').
  destruct (ok_disjoint _ _ _ (tr_ok H) _ _ _ _ _ _ _ _ _ _ Hne H1 H2 H1' H2'); lia.
Qed.

Lemma keep_local D s a : inv s → keep D s a → in_contents a ∨ in_input a.
Proof using H.
  intros Hi [(f & _ & Hs)|[Ha|Ha]]; [left|left|by right].
  - by eapply unit_in_contents, slot_in_unit.
  - pose proof (inv_next s Hi). pose proof (tr_unit H). unfold in_contents. lia.
Qed.

Lemma touch_keep f D s a : inv s → f ∉ D → keep D s a → ¬ touch f s a.
Proof using H.
  intros Hi Hf Hk Ht. pose proof (inv_next s Hi) as Hn. pose proof (tr_unit H).
  pose proof Hi as (_ & _ & _ & _ & Hu).
  destruct Ht as [HF|[Hs|Ha]].
  - destruct (keep_local _ _ _ Hi Hk) as [Hc|Hin].
    + by destruct (tr_area H a Hc).
    + apply (ok_input _ _ _ (tr_ok H) a); [unfold in_input in Hin; lia|done].
  - pose proof (slot_in_unit f a Hs) as Hsu. destruct Hk as [(f' & Hf' & Hs')|[Ha|Ha]].
    + eapply slots_apart; [|exact Hs|exact Hs']. by intros ->.
    + lia.
    + by destruct (tr_area H a (unit_in_contents a Hsu)).
  - destruct Hk as [(f' & _ & Hs')|[Hb|Hb]].
    + apply slot_in_unit in Hs'. lia.
    + lia.
    + assert (Hc : in_contents a) by (unfold in_contents; lia). by destruct (tr_area H a Hc).
Qed.

(** A step of the parser. *)
Record stepped (D : list string) (s s' : pmach) : Prop := {
  st_inv : inv s';
  st_pos : pos_of s ≤ pos_of s';
  st_next : next s ≤ next s';
  st_keep a : keep D s a → p_mem s' !! a = p_mem s !! a }.

Lemma stepped_touch f D s s' :
  inv s → f ∉ D → inv s' → pos_of s ≤ pos_of s' → next s ≤ next s' →
  agree (touch f s) (p_mem s) (p_mem s') → stepped D s s'.
Proof using H.
  intros Hi Hf Hi' Hp Hn [Ha _]. split; try done. intros a Hk. symmetry. apply Ha.
  by eapply touch_keep.
Qed.

Lemma keep_mono D D' s s' a : D ⊆ D' → next s ≤ next s' → keep D s a → keep D' s' a.
Proof using Type.
  intros HD Hn [(f & Hf & Hs)|[Ha|Ha]]; [left; eauto|right; left; lia|by right; right].
Qed.

(** ** What a serializer does with it *)

Definition ready (t : smach) : Prop :=
  s_unit t = u ∧ o_start K ≤ out_pos t ≤ o_end K ∧
  ∀ a, G a ∨ in_output a ∨ in_input a → is_Some (s_mem t !! a).
Definition holds (D : list string) (s : pmach) (t : smach) : Prop :=
  ∀ a, keep D s a → s_mem t !! a = p_mem s !! a.

(** [n] bytes were written, and nothing else but locals. *)
Record emitted (t t' : smach) (n : Z) (get : Z → option ascii) : Prop := {
  em_unit : s_unit t' = s_unit t;
  em_pos : out_pos t' = out_pos t + n;
  em_mem : agree (λ a, G a ∨ out_pos t ≤ a < out_pos t + n) (s_mem t) (s_mem t');
  em_bytes i : 0 ≤ i < n → s_mem t' !! (out_pos t + i) = get i }.

Lemma holds_back D D' s s' t : D ⊆ D' → stepped D s s' → holds D' s' t → holds D s t.
Proof using Type.
  intros HD Hst Ht a Ha. rewrite (Ht a); [by apply (st_keep _ _ _ Hst)|].
  eapply keep_mono; [done|by apply Hst|done].
Qed.

Lemma holds_emitted D s t t' n get :
  inv s → ready t → 0 ≤ n → out_pos t + n ≤ o_end K → emitted t t' n get → holds D s t → holds D s t'.
Proof using H.
  intros Hi (_ & Hp & _) Hn Hle [_ _ [Hm _] _] Ht a Ha. rewrite <- (Ht a Ha). symmetry. apply Hm.
  destruct (tr_locals H a (keep_local _ _ _ Hi Ha)) as [HG HO]. unfold in_output in HO.
  intros [?|?]; [done|lia].
Qed.

Lemma ready_emitted t t' n get :
  ready t → 0 ≤ n → out_pos t + n ≤ o_end K → emitted t t' n get → ready t'.
Proof using Type.
  intros (Hu & Hp & Hd) Hn Hle [Hu' Hp' [_ Hm] _]. split; [congruence|]. split; [lia|].
  intros a Ha. rewrite <- Hm. auto.
Qed.

Lemma emitted_trans t t1 t2 n n1 get :
  ready t → 0 ≤ n → 0 ≤ n1 → out_pos t + n + n1 ≤ o_end K →
  emitted t t1 n get → emitted t1 t2 n1 (λ i, get (n + i)) → emitted t t2 (n + n1) get.
Proof using H.
  intros (_ & Hp & _) Hn Hn1 Hle [Hu1 Hp1 Hm1 Hb1] [Hu2 Hp2 Hm2 Hb2].
  split; [congruence|lia| |].
  - eapply agree_trans; eapply agree_mono; [|exact Hm1| |exact Hm2].
    all: intros a [Ha|Ha]; [by left|right; lia].
  - intros i Hi. destruct (Z_lt_ge_dec i n) as [Hlt|Hge].
    + rewrite <- Hb1 by lia. symmetry. apply Hm2. intros [HG|Ha]; [|lia].
      eapply (tr_output H); [|exact HG]. unfold in_output. lia.
    + specialize (Hb2 (i - n) ltac:(lia)). rewrite Hp1 in Hb2.
      replace (out_pos t + i) with (out_pos t + n + (i - n)) by lia. rewrite Hb2. f_equal. lia.
Qed.

(** ** Parsing there and serializing back *)

Definition trip (D D' : list string) (pc : list pcode) (sc : list scode) : Prop :=
  D ⊆ D' ∧
  ∀ s s', inv s → exec_list C pc s = Ret (Next s') →
    stepped D s s' ∧
    ∀ t, ready t → holds D' s' t → out_pos t + (pos_of s' - pos_of s) ≤ o_end K →
      ∃ t', emit_list K sc t = Ret (SNext t') ∧
            emitted t t' (pos_of s' - pos_of s) (λ i, p_mem s !! (pos_of s + i)).

Lemma exec_one c s : exec_list C [c] s = exec_code C c s.
Proof using Type. apply (and_then_nil C). Qed.

Lemma emitted_none t get : emitted t t 0 get.
Proof using Type. split; [done|lia|apply agree_refl|lia]. Qed.

Lemma trip_nil D : trip D D [] [].
Proof using Type.
  split; [done|]. intros s s' Hi [= <-]. split; [by split; try lia|].
  intros t _ _ _. exists t. split; [done|]. rewrite Z.sub_diag. apply emitted_none.
Qed.

Lemma input_same D s s' i :
  stepped D s s' → inv s → 0 ≤ i → pos_of s + i < pos_of s' →
  p_mem s' !! (pos_of s + i) = p_mem s !! (pos_of s + i).
Proof using Type.
  intros Hst (_ & [Hp _] & _) Hi Hlt. apply (st_keep _ _ _ Hst). right; right.
  destruct (st_inv _ _ _ Hst) as (_ & [Hp' _] & _). unfold in_input. lia.
Qed.

Lemma trip_app D D1 D2 pc pc' sc sc' :
  trip D D1 pc sc → trip D1 D2 pc' sc' → trip D D2 (pc ++ pc') (sc ++ sc').
Proof using H.
  intros [Hd1 H1] [Hd2 H2]. split; [by etrans|]. intros s s' Hi Hx. rewrite exec_list_app in Hx.
  destruct (exec_list C pc s) as [[s1|r s1]| | |] eqn:E1; try done. cbn in Hx.
  destruct (H1 s s1 Hi E1) as [St1 E1']. destruct (H2 s1 s' (st_inv _ _ _ St1) Hx) as [St2 E2'].
  pose proof (st_pos _ _ _ St1) as P1. pose proof (st_pos _ _ _ St2) as P2.
  assert (Hkeep : ∀ a, keep D s a → keep D1 s1 a).
  { intros a. apply keep_mono; [done|apply St1]. }
  split.
  { split; [apply St2|lia| |].
    - pose proof (st_next _ _ _ St1). pose proof (st_next _ _ _ St2). lia.
    - intros a Ha. rewrite (st_keep _ _ _ St2), (st_keep _ _ _ St1); auto. }
  intros t Hr Ht Hle. assert (Hh1 : holds D1 s1 t) by (by eapply holds_back).
  destruct (E1' t Hr Hh1 ltac:(lia)) as (t1 & Et1 & Em1).
  pose proof (em_pos _ _ _ _ Em1) as Hp1.
  destruct (E2' t1) as (t2 & Et2 & Em2).
  { eapply ready_emitted; [exact Hr| | |exact Em1]; lia. }
  { eapply holds_emitted; [apply St2|exact Hr| | |exact Em1|done]; lia. }
  { lia. }
  exists t2. split.
  { rewrite emit_list_app, Et1. exact Et2. }
  replace (pos_of s' - pos_of s) with ((pos_of s1 - pos_of s) + (pos_of s' - pos_of s1)) by lia.
  eapply emitted_trans; [exact Hr|lia|lia|lia|exact Em1|].
  destruct Em2 as [Hu2 Hp2 Hm2 Hb2]. split; [done..|]. intros i Hi'. rewrite Hb2 by done.
  replace (pos_of s + (pos_of s1 - pos_of s + i)) with (pos_of s1 + i) by lia.
  apply (st_keep _ _ _ St1). right; right.
  destruct (st_inv _ _ _ St2) as (_ & [Hp' _] & _), Hi as (_ & [Hp _] & _). unfold in_input. lia.
Qed.

Lemma trip_block D D' l l' pc sc :
  trip D D' pc sc →
  trip D D' [Block (Line (PLabel l) :: Line (PAdvanceTo l) :: pc)]
            [Block (Line (SLabel l') :: Line (SAdvanceTo l') :: sc)].
Proof using Type.
  intros [Hd Hx]. split; [done|]. intros s s' Hi He. rewrite exec_one, exec_block in He.
  destruct (Hx (adv C l s) s' Hi He) as [St Em]. split; [by destruct St; split|].
  intros t Hr Ht Hle. rewrite emit_one, emit_block.
  destruct (Em (set_sstate (ParserState.advanceToInstruction (o_label K l') (s_state t)) t) Hr Ht Hle)
    as (t' & E & Em'). exists t'. split; [exact E|]. by destruct Em'; split.
Qed.

(** Code of the parser that has no counterpart. *)
Lemma trip_silent f D pc :
  f ∉ D →
  (∀ s s', inv s → exec_list C pc s = Ret (Next s') →
     inv s' ∧ pos_of s' = pos_of s ∧ next s' = next s ∧ agree (touch f s) (p_mem s) (p_mem s')) →
  trip D (f :: D) pc [].
Proof using H.
  intros Hf Hx. split; [set_solver|]. intros s s' Hi He.
  destruct (Hx s s' Hi He) as (Hi' & Hp & Hn & Ha). split.
  { eapply stepped_touch; try done; lia. }
  intros t _ _ _. exists t. split; [done|]. rewrite Hp, Z.sub_diag. apply emitted_none.
Qed.

(** *** Integers *)

Lemma int_codec_both w sg o f :
  int_parser w sg o = Some f →
  ∃ n order g, IntParser n order f ∧ int_serializer w sg o = Some g ∧ IntSerializer n order g ∧
    ByteOrder order ∧ 8 * Z.of_nat n = w.
Proof using Type.
  unfold int_parser, int_serializer. destruct (List.find _ _) as [c|] eqn:E; [|done].
  intros [= <-]. apply List.find_some in E as [Hin Ht]. apply list_elem_of_In in Hin.
  destruct (int_codecs_ok c Hin) as [Hp Hs]. exists (sizeof (c_type c)), (c_order c), (c_serialize c).
  bool_to_prop. split_and!; [done..|apply _|done].
Qed.

(** An integer that was parsed. *)
Lemma int_read w sg o k s s' :
  good C s → exec_list C (Line (PParseInt w sg o) :: Line PCheck :: k) s = Ret (Next s') →
  ∃ n order g bs m1, 8 * Z.of_nat n = w ∧ ByteOrder order ∧
    int_serializer w sg o = Some g ∧ IntSerializer n order g ∧
    load_bytes n (p_mem s) (pos_of s) = Some bs ∧ pos_of s + Z.of_nat n ≤ c_end C ∧
    store_bytes (order bs) (p_mem s) (p_dest s) = Some m1 ∧
    exec_list C k (set_result Parsing.DONE (pos_of s + Z.of_nat n) (set_mem m1 s)) = Ret (Next s').
Proof using H.
  intros [Hp _] He. cbn [exec_list exec_code exec_line] in He.
  destruct (int_parser w sg o) as [f|] eqn:Ef; [|done].
  destruct (int_codec_both _ _ _ _ Ef) as (n & order & g & Hf & Hg & Hser & Ho & Hn).
  cbn [some_or_ill mbind outcome_bind] in He. rewrite (Hf (p_mem s)) in He.
  pose proof (ok_size _ _ _ (tr_ok H)) as Hsz. rewrite short_of_spec in He by (unfold buffer; lia).
  destruct (Z.ltb_spec (c_end C - pos_of s) (Z.of_nat n)) as [?|Hle]; [done|].
  destruct (load_bytes n (p_mem s) (pos_of s)) as [bs|] eqn:El; [|done]. cbn [access mbind outcome_bind] in He.
  destruct (store_bytes (order bs) (p_mem s) (p_dest s)) as [m1|] eqn:Es; [|done].
  exists n, order, g, bs, m1. split_and!; [done..|lia|done|exact He].
Qed.

(** An integer that is written: [order bs] is in memory, [bs] comes out. *)
Lemma int_emit w sg o n order g bs t :
  int_serializer w sg o = Some g → IntSerializer n order g → ByteOrder order →
  length bs = n → ready t → load_bytes n (s_mem t) (s_src t) = Some (order bs) →
  out_pos t + Z.of_nat n ≤ o_end K →
  ∃ t', emit_list K [Line (SSerializeInt w sg o); Line SCheck] t = Ret (SNext t') ∧
        emitted t t' (Z.of_nat n) (λ i, bs !! Z.to_nat i).
Proof using H.
  intros Hg Hser Ho Hlen (Hu & Hp & Hd) Hl Hle. pose proof (tr_length H) as Hsz.
  destruct (serializer_done n order g (s_mem t) (s_src t) (out_pos t) (o_end K) (order bs))
    as (m' & E & Hl' & Hout & Hdom); [split; lia|lia|done| |].
  { apply load_is_Some. intros i Hi. apply Hd. right; left. unfold in_output. lia. }
  rewrite order_inv in Hl'.
  exists (set_sresult Serializing.DONE (out_pos t + Z.of_nat n) (set_smem m' t)). split.
  { cbn [emit_list emit_code emit_line]. rewrite Hg. cbn [some_or_ill mbind outcome_bind]. by rewrite E. }
  split; [done|done| |].
  - split; cbn.
    + intros a Ha. symmetry. apply Hout. unfold outside. lia.
    + intros a. by rewrite Hdom.
  - intros i Hi. cbn. replace i with (Z.of_nat (Z.to_nat i)) at 1 by lia.
    apply (load_lookup n); [done|lia].
Qed.

Lemma holds_load D s t p n :
  holds D s t → (∀ a, p ≤ a < p + Z.of_nat n → keep D s a) →
  load_bytes n (s_mem t) p = load_bytes n (p_mem s) p.
Proof using Type. intros Ht Hk. apply load_ext. intros i Hi. apply Ht, Hk. lia. Qed.

Lemma emitted_get t t' n get get' :
  emitted t t' n get → (∀ i, 0 ≤ i < n → get i = get' i) → emitted t t' n get'.
Proof using Type. intros [? ? ? Hb] Hg. split; try done. intros i Hi. rewrite Hb by done. auto. Qed.

Lemma src_field_run cu f k t :
  emit_list K (Line (SSrcField cu f) :: k) t =
  match assoc f (c_members C) with
  | Some (o, _) => emit_list K k (set_src (s_unit t + o) t)
  | None => ill_formed
  end.
Proof using H. by rewrite emit_src_field, (tr_members H). Qed.

Lemma emitted_src p t t' n get : emitted (set_src p t) t' n get → emitted t t' n get.
Proof using Type. intros [? ? ? ?]. by split. Qed.

Lemma inv_dest d s : inv s → inv (set_dest d s).
Proof using Type. done. Qed.

(** The state after a step that only moved the position and changed memory. *)
Lemma inv_moved r p m s :
  inv s → c_start C ≤ p ≤ c_end C → inv (set_result r p (set_mem m s)).
Proof using Type. intros (Hu & [_ Ha] & Ht & Hs & Hn) Hp. by split_and!. Qed.

Lemma slot_room f o t sz al n a :
  assoc f (c_members C) = Some (o, t) → size_align (c_enums C) t = Some (sz, al) → n ≤ sz →
  u + o ≤ a < u + o + n → slot_of f a.
Proof using Type. intros Hf Hz Hn Ha. exists o, t, sz, al. split_and!; try done; lia. Qed.

Lemma trip_int D cu cu' f w sg o :
  f ∉ D → int_fits C f w →
  trip D (f :: D) [Line (PDestField cu f); Line (PParseInt w sg o); Line PCheck]
                  [Line (SSrcField cu' f); Line (SSerializeInt w sg o); Line SCheck].
Proof using H.
  intros Hf Hfit. split; [set_solver|]. intros s s' Hi He. rewrite dest_field_run in He.
  destruct (assoc f (c_members C)) as [[off ty]|] eqn:Ef; [|done].
  destruct (Hfit _ _ Ef) as (sz & al & Hz & Hw).
  pose proof Hi as (Hu & Hg & _). rewrite Hu in He.
  destruct (int_read _ _ _ _ (set_dest (u + off) s) _ Hg He)
    as (n & order & g & bs & m1 & Hn & Ho & Hser & Hig & Hl & Hle & Hst & [= <-]).
  unfold pos_of in *. cbn [p_mem p_state p_dest set_dest] in Hl, Hle, Hst.
  assert (Hlen : length (order bs) = n) by (rewrite order_length; by eapply length_load).
  assert (Hslot : ∀ a, u + off ≤ a < u + off + Z.of_nat n → slot_of f a).
  { intros a Ha. eapply slot_room; [done|done| |exact Ha]. lia. }
  split.
  { eapply (stepped_touch f); [done|done| |unfold pos_of; cbn; lia|done|].
    - apply inv_moved; [done|]. destruct Hg as [Hp _]. unfold pos_of in *. cbn in *. lia.
    - cbn. eapply store_within; [exact Hst|]. intros a Ha. rewrite Hlen in Ha. right; left. auto. }
  intros t Hr Ht Hle'. unfold pos_of in Hle' |- *. cbn in Hle'.
  rewrite src_field_run, Ef. pose proof Hr as (Hut & _). rewrite Hut.
  destruct (int_emit w sg o n order g bs (set_src (u + off) t)) as (t' & E & Em); try done.
  { by eapply length_load. }
  { cbn. erewrite (holds_load _ _ t); [|exact Ht|].
    - cbn. rewrite <- Hlen. by eapply load_store.
    - intros a Ha. left. exists f. split; [by left|auto]. }
  { change (out_pos (set_src (u + off) t)) with (out_pos t). lia. }
  exists t'. split; [exact E|]. apply emitted_src in Em.
  replace (_ - _) with (Z.of_nat n) by (cbn; lia).
  eapply emitted_get; [exact Em|]. intros i Hi'. cbn.
  replace i with (Z.of_nat (Z.to_nat i)) at 2 by lia. symmetry. eapply load_lookup; [exact Hl|lia].
Qed.

(** *** Bytes *)

Lemma set_len_run kd e ns k s s' :
  text_reads e = Some ns →
  exec_list C (Line (PSetLen kd e) :: k) s = Ret (Next s') →
  ∃ c v len m1,
    eval_text (c_enums C) (c_members C) (p_unit s) None e (p_mem s) = Ret (c, v, p_mem s) ∧
    implicit c (CInt uint64_t) v = Ret len ∧ 0 ≤ len < 2 ^ 64 ∧
    write uint64_t (p_mem s) (p_dest s + len_offset kd) len = Ret m1 ∧
    exec_list C k (set_mem m1 s) = Ret (Next s').
Proof using Type.
  intros Hr He. cbn [exec_list exec_code exec_line] in He.
  destruct (eval_text _ _ _ None e _) as [[[c v] m]| | |] eqn:E; try done. cbn [mbind outcome_bind] in He.
  assert (m = p_mem s) as ->.
  { eapply eval_text_pure; [|exact E]. unfold text_reads, pure_text in *.
    destruct (read_cpp e); [|done]. by eapply reads_pure. }
  destruct (implicit c _ v) as [len| | |] eqn:Ei; try done. cbn [mbind outcome_bind] in He.
  destruct (write uint64_t _ _ len) as [m1| | |] eqn:Ew; try done.
  exists c, v, len, m1. split_and!; try done; unfold implicit in Ei; destruct c; try done.
  all: injection Ei as <-; unfold cast, convert; cbn [rep is_signed uint64_t];
    apply (uwrap_range 64); lia.
Qed.

Lemma container_kept f o ty a :
  assoc f (c_members C) = Some (o, ty) → ty ∈ container_types →
  u + o ≤ a < u + o + 16 → slot_of f a.
Proof using H.
  intros Hf Hty Ha. eapply (slot_room f o ty 16 8 16); [done| |lia|done].
  by apply (container_size C F u (tr_ok H)).
Qed.

Lemma read_agree_at W T m m' p :
  agree W m m' → (∀ a, p ≤ a < p + Z.of_nat (sizeof T) → ¬ W a) → read T m' p = read T m p.
Proof using Type. intros Hm Hw. unfold read. by rewrite (load_agree W (sizeof T) m m' p). Qed.

Lemma memcpy_load m d src len m' :
  memcpy m d src len = Ret m' → 0 ≤ len →
  ∃ bs, load_bytes (Z.to_nat len) m' d = Some bs ∧ load_bytes (Z.to_nat len) m src = Some bs.
Proof using Type.
  unfold memcpy. intros Hm Hl. destruct (Z.eqb_spec len 0) as [->|?]; [by exists []|]. case_bool; [done|].
  destruct (load_bytes _ m src) as [bs|] eqn:El; [|done]. cbn in Hm. exists bs. split; [|done].
  destruct (store_bytes bs m d) as [x|] eqn:E; [|done]. injection Hm as <-.
  rewrite <- (length_load _ _ _ _ El). by eapply load_store.
Qed.

(** What [allocateCopyBytes] left in memory. *)
Record copied (s s' : pmach) (d len : Z) : Prop := {
  cp_inv : inv s';
  cp_len : 0 ≤ len < 2 ^ 63;
  cp_pos : pos_of s' = pos_of s + len;
  cp_next : next s' = next s + len;
  cp_read_len : read uint64_t (p_mem s') d = Ret len;
  cp_read_data : read uint64_t (p_mem s') (d + 8) = Ret (next s);
  cp_bytes : ∃ bs, load_bytes (Z.to_nat len) (p_mem s') (next s) = Some bs ∧
                   load_bytes (Z.to_nat len) (p_mem s) (pos_of s) = Some bs }.

Lemma bytes_run kd e ns o s s' :
  text_reads e = Some ns → len_offset kd = 0 → inv s →
  exec_list C [Line (PSetLen kd e); Line (PAllocateCopy kd); Line PCheck] (set_dest (u + o) s) =
    Ret (Next s') →
  ∃ c v len m1 m2 m3 a',
    eval_text (c_enums C) (c_members C) u None e (p_mem s) = Ret (c, v, p_mem s) ∧
    implicit c (CInt uint64_t) v = Ret len ∧ 0 ≤ len < 2 ^ 63 ∧
    write uint64_t (p_mem s) (u + o) len = Ret m1 ∧ memcpy m1 (next s) (pos_of s) len = Ret m2 ∧
    write uint64_t m2 (u + o + 8) (next s) = Ret m3 ∧
    UnitArea.allocate len (p_area s) = Some (next s, a') ∧ pos_of s + len ≤ c_end C ∧
    next s + len ≤ area_end ∧
    s' = set_result Parsing.DONE (pos_of s + len) (set_area a' (set_mem m3 (set_dest (u + o) s))).
Proof using H.
  intros Hr Hlo Hi He. destruct (set_len_run _ _ _ _ _ _ Hr He)
    as (c & v & len & m1 & Hev & Him & Hlen & Hw & He1). clear He.
  pose proof Hi as (Hu & [Hp [Hwf Hsm]] & Hth & Hsz & Hnx).
  cbn [p_unit set_dest p_mem p_dest] in Hev, Hw. rewrite Hu in Hev. rewrite Hlo, Z.add_0_r in Hw.
  cbn [exec_list exec_code exec_line p_mem set_mem p_dest set_dest p_area] in He1.
  rewrite Hlo, Z.add_0_r in He1. rewrite (write_read64 _ _ _ _ Hw Hlen) in He1.
  cbn [mbind outcome_bind] in He1.
  destruct (read uint64_t m1 _) as [d0| | |] in He1; try done. cbn [mbind outcome_bind] in He1.
  change (pos_of (set_mem m1 (set_dest (u + o) s))) with (pos_of s) in He1.
  unfold Parsing.allocateCopyBytes in He1.
  destruct (Parsing.short_of_len len (pos_of s) (c_end C)) eqn:Es.
  { cbn in He1. by destruct (pointer_add _ _ _). }
  destruct (UnitArea.allocate len (p_area s)) as [[q a']|] eqn:Ea.
  2: { cbn in He1. by destruct (pointer_add _ _ _). }
  destruct (UnitAreaLemmas.allocate_wf len (p_area s) q a' ltac:(lia) Hwf Ea) as (Hwf' & Hth' & Hsz' & -> & Hnx').
  change (UnitArea.nextAllocPos_ (p_area s)) with (next s) in *.
  assert (Hlen' : len < 2 ^ 63 ∧ next s + len ≤ area_end).
  { unfold area_end, next, UnitAreaLemmas.area_wf, UnitArea.contents in *.
    rewrite Hth', Hsz', Hth, Hsz in Hwf'. rewrite Hth, Hsz in Hwf. lia. }
  rewrite BytesLemmas.short_of_len_spec in Es
    by (pose proof (ok_size _ _ _ (tr_ok H)); unfold buffer; lia).
  apply Z.ltb_ge in Es. pose proof (tr_addresses H) as Hadr.
  destruct (memcpy m1 (next s) (pos_of s) len) as [m2| | |] eqn:Ec; try done. cbn [mbind outcome_bind] in He1.
  rewrite uwrap_small in He1 by lia. destruct (pointer_add _ _ _) eqn:Eb; try done.
  cbn [mbind outcome_bind] in He1. change (u + o + data_offset) with (u + o + 8) in He1.
  destruct (write uint64_t m2 (u + o + 8) (next s)) as [m3| | |] eqn:Ew; try done.
  injection He1 as <-. exists c, v, len, m1, m2, m3, a'. split_and!; try done; lia.
Qed.

Lemma write_agree_at T m p v m' :
  write T m p v = Ret m' → agree (λ a, p ≤ a < p + Z.of_nat (sizeof T)) m m'.
Proof using Type. by intros [_ ?]%write_load. Qed.

Lemma bytes_parsed kd e ns f o ty s s' :
  text_reads e = Some ns → len_offset kd = 0 → inv s →
  assoc f (c_members C) = Some (o, ty) → ty ∈ container_types →
  exec_list C [Line (PSetLen kd e); Line (PAllocateCopy kd); Line PCheck] (set_dest (u + o) s) =
    Ret (Next s') →
  ∃ c v len,
    eval_text (c_enums C) (c_members C) u None e (p_mem s) = Ret (c, v, p_mem s) ∧
    implicit c (CInt uint64_t) v = Ret len ∧ copied s s' (u + o) len ∧
    agree (touch f s) (p_mem s) (p_mem s').
Proof using H.
  intros Hr Hlo Hi Hf Hty He. destruct (bytes_run _ _ _ _ _ _ Hr Hlo Hi He)
    as (c & v & len & m1 & m2 & m3 & a' & Hev & Him & Hlen & Hw1 & Hc & Hw3 & Ha & Hle & Hnl & ->).
  pose proof Hi as (Hu & [Hp [Hwf Hsm]] & Hth & Hsz & Hnx).
  destruct (UnitAreaLemmas.allocate_wf len (p_area s) _ a' ltac:(lia) Hwf Ha) as (Hwf' & Hth' & Hsz' & _ & Hnx').
  destruct (tr_within H f o ty 16 8 Hf (container_size C F u (tr_ok H) ty Hty)) as [Ho1 Ho2].
  pose proof (inv_next s Hi) as Hin. pose proof (tr_unit H) as Hsu.
  pose proof (write_agree_at _ _ _ _ _ Hw1) as A1. pose proof (write_agree_at _ _ _ _ _ Hw3) as A3.
  change (Z.of_nat (sizeof uint64_t)) with 8 in A1, A3.
  assert (A2 : agree (λ a, next s ≤ a < next s + len) m1 m2) by (eapply memcpy_within; [exact Hc|lia|done]).
  exists c, v, len. split_and!; [done..| |].
  - split; cbn.
    + refine (conj Hu (conj (conj _ (conj Hwf' _)) (conj _ (conj _ _)))).
      * unfold pos_of in *. cbn. lia.
      * cbn. lia.
      * cbn. congruence.
      * cbn. congruence.
      * unfold next in *. cbn. lia.
    + done.
    + done.
    + unfold next. cbn. by rewrite Hnx'.
    + rewrite (read_agree_at _ _ _ _ _ A3), (read_agree_at _ _ _ _ _ A2) by (cbn; lia).
      eapply write_read64; [exact Hw1|lia].
    + eapply write_read64; [exact Hw3|]. unfold UnitAreaLemmas.area_wf, next, UnitArea.contents, UnitArea.sizeof_this in *. lia.
    + destruct (memcpy_load _ _ _ _ _ Hc ltac:(lia)) as (bs & Hb2 & Hb1). exists bs.
      rewrite <- (load_agree _ _ m2 m3 _ A3) by (intros x Hx; cbn in *; lia). split; [done|].
      rewrite <- Hb1. apply (load_agree _ _ _ _ _ A1). intros x Hx Hx'.
      assert (Hcx : in_contents x) by (unfold in_contents; lia).
      apply (tr_area H x Hcx). unfold in_input. lia.
  - cbn. eapply agree_trans; [|eapply agree_trans]; eapply agree_mono; [|exact A1| |exact A2| |exact A3].
    + intros x Hx. right; left. eapply container_kept; [done..|cbn in Hx; lia].
    + intros x Hx. right; right. cbn in Hx. lia.
    + intros x Hx. right; left. eapply container_kept; [done..|cbn in Hx; lia].
Qed.

Lemma ranges_disjoint p q len :
  (∀ a, p ≤ a < p + len → ¬ q ≤ a < q + len) → BytesLemmas.disjoint_ranges p q len.
Proof using Type.
  intros Hd. unfold BytesLemmas.disjoint_ranges. specialize (Hd (Z.max p q)). lia.
Qed.

Lemma pointer_add_ok pos len : len < 2 ^ 63 → pointer_add pos len (pos + len) = Ret tt.
Proof using Type.
  intros Hl%Z.ltb_lt. unfold pointer_add. by rewrite Hl, Z.eqb_refl, orb_true_r.
Qed.

Lemma bytes_emit l src len bs t :
  emit_line K l t = emit_bytes K src len t → ready t → 0 ≤ len < 2 ^ 63 →
  load_bytes (Z.to_nat len) (s_mem t) src = Some bs → out_pos t + len ≤ o_end K →
  (∀ a, src ≤ a < src + len → ¬ in_output a) →
  ∃ t', emit_list K [Line l; Line SCheck] t = Ret (SNext t') ∧
        emitted t t' len (λ i, bs !! Z.to_nat i).
Proof using H.
  intros El (Hu & Hp & Hd) Hlen Hl Hle Hsrc. pose proof (tr_length H) as Hsz.
  pose proof (tr_addresses H) as Hadr. cbn [emit_list emit_code]. rewrite El. unfold emit_bytes, Serializing.copyBytes_out.
  rewrite BytesLemmas.short_of_len_spec by (unfold buffer; lia).
  destruct (Z.ltb_spec (o_end K - out_pos t) len) as [?|_]; [lia|].
  destruct (BytesLemmas.memcpy_ok (s_mem t) (out_pos t) src len bs) as (m' & Hc & Hl' & _); [lia| |done| |].
  { apply ranges_disjoint. intros a Ha Hs. apply (Hsrc a Hs). unfold in_output. lia. }
  { apply load_is_Some. intros i Hi. apply Hd. right; left. unfold in_output. lia. }
  pose proof (memcpy_within (λ a, G a ∨ out_pos t ≤ a < out_pos t + len) _ _ _ _ _ Hc ltac:(lia) (λ a Ha, or_intror Ha)) as Hag.
  rewrite Hc. cbn [mbind outcome_bind]. rewrite uwrap_small by lia. 
  rewrite pointer_add_ok by lia.
  cbn. eexists. split; [done|]. split; [done|done|done|].
  intros i Hi. cbn. replace i with (Z.of_nat (Z.to_nat i)) at 1 by lia.
  apply (load_lookup (Z.to_nat len)); [done|lia].
Qed.

Lemma holds_read D s t T p :
  holds D s t → (∀ a, p ≤ a < p + Z.of_nat (sizeof T) → keep D s a) →
  read T (s_mem t) p = read T (p_mem s) p.
Proof using Type. intros Ht Hk. unfold read. by rewrite (holds_load D s t). Qed.

Lemma container_keep D f o ty s k n :
  assoc f (c_members C) = Some (o, ty) → ty ∈ container_types → f ∈ D → 0 ≤ k → k + n ≤ 16 →
  ∀ a, u + o + k ≤ a < u + o + k + n → keep D s a.
Proof using H. intros Hf Hty Hin Hk Hn a Ha. left. exists f. split; [done|]. eapply container_kept; [done..|lia]. Qed.

(** The bytes of the message that went to a container come back. *)
Lemma loaded_get n m p bs i :
  load_bytes (Z.to_nat n) m p = Some bs → 0 ≤ i < n → bs !! Z.to_nat i = m !! (p + i).
Proof using Type.
  intros Hl Hi. replace i with (Z.of_nat (Z.to_nat i)) at 2 by lia. symmetry.
  eapply load_lookup; [exact Hl|lia].
Qed.

Lemma trip_bytes D cu cu' f kd e ns :
  f ∉ D → container C f → len_offset kd = 0 → text_reads e = Some ns →
  trip D (f :: D)
    [Line (PDestField cu f); Line (PSetLen kd e); Line (PAllocateCopy kd); Line PCheck]
    [Line (SSrcField cu' f); Line (SCopyBytes kd); Line SCheck].
Proof using H.
  intros Hf Hcont Hlo Hr. split; [set_solver|]. intros s s' Hi He. rewrite dest_field_run in He.
  destruct (assoc f (c_members C)) as [[o ty]|] eqn:Ef; [|done]. pose proof (Hcont _ _ Ef) as Hty.
  pose proof Hi as (Hu & _). rewrite Hu in He.
  destruct (bytes_parsed kd e ns f o ty s s' Hr Hlo Hi Ef Hty He) as (c & v & len & _ & _ & Hcp & Hag).
  destruct Hcp as [Hi' Hlen Hpos Hnext Hrl Hrd Hby]. split.
  { eapply (stepped_touch f); [done..|lia|lia|done]. }
  intros t Hrt Ht Hle. rewrite Hpos in Hle |- *. replace (pos_of s + len - pos_of s) with len in * by lia.
  rewrite src_field_run, Ef. pose proof Hrt as (Hut & _). rewrite Hut.
  destruct Hby as (bs & Hb' & Hb). pose proof (inv_next s Hi) as Hin. pose proof (inv_next s' Hi') as Hin'.
  assert (Hkd : ∀ a, next s ≤ a < next s + len → keep (f :: D) s' a).
  { intros a Ha. right; left. destruct Hi as (_ & _ & _ & _ & Hn). lia. }
  destruct (bytes_emit (SCopyBytes kd) (next s) len bs (set_src (u + o) t)) as (t' & E & Em); try done.
  { cbn [emit_line s_mem s_src set_src]. rewrite Hlo, Z.add_0_r. change data_offset with 8.
    rewrite (holds_read (f :: D) s' t uint64_t (u + o + 8)), (holds_read (f :: D) s' t uint64_t (u + o)), Hrd, Hrl.
    - done.
    - done.
    - rewrite <- (Z.add_0_r (u + o)). eapply container_keep; [done|done|by left|done|done].
    - done.
    - eapply container_keep; [done|done|by left|done|done]. }
  { cbn. rewrite (holds_load (f :: D) s' t); [done..|]. intros a Ha. apply Hkd. lia. }
  { intros a Ha. eapply (tr_locals H a), keep_local; [exact Hi'|]. by apply Hkd. }
  exists t'. split; [exact E|]. apply emitted_src in Em. eapply emitted_get; [exact Em|].
  intros i Hi''. by eapply loaded_get.
Qed.

(** *** Ranges of the input *)

(** The length does not reach into the sign bit of [ssize_t]. *)
Definition narrow (e : string) : Prop :=
  ∀ m c v m' len, eval_text (c_enums C) (c_members C) u None e m = Ret (c, v, m') →
    implicit c (CInt uint64_t) v = Ret len → len < 2 ^ 63.

Lemma range_run e ns o s s' :
  text_reads e = Some ns → narrow e → inv s →
  exec_list C [Line (PSetLen "var_stream_range" e); Line PRangeStart; Line PAdvanceRange; Line PCheck]
    (set_dest (u + o) s) = Ret (Next s') →
  ∃ len m1 m2, 0 ≤ len < 2 ^ 63 ∧ write uint64_t (p_mem s) (u + o + 8) len = Ret m1 ∧
    write uint64_t m1 (u + o) (pos_of s) = Ret m2 ∧ pos_of s + len ≤ c_end C ∧
    s' = set_result Parsing.DONE (pos_of s + len) (set_mem m2 (set_dest (u + o) s)).
Proof using H.
  intros Hr Hnar Hi He. destruct (set_len_run _ _ _ _ _ _ Hr He)
    as (c & v & len & m1 & Hev & Him & Hlen & Hw & He1). clear He.
  pose proof Hi as (Hu & [Hp _] & _). cbn [p_unit set_dest p_mem p_dest] in Hev, Hw. rewrite Hu in Hev.
  pose proof (Hnar _ _ _ _ _ Hev Him) as Hlen'. change (len_offset "var_stream_range") with 8 in Hw.
  cbn [exec_list exec_code exec_line p_mem set_mem p_dest set_dest] in He1. unfold start_offset in He1.
  rewrite Z.add_0_r in He1. change (pos_of (set_mem m1 (set_dest (u + o) s))) with (pos_of s) in He1.
  destruct (write uint64_t m1 (u + o) (pos_of s)) as [m2| | |] eqn:Ew; try done.
  cbn [and_then mbind outcome_bind p_mem p_dest set_mem set_dest] in He1.
  change (len_offset "var_stream_range") with 8 in He1.
  pose proof (write_agree_at _ _ _ _ _ Ew) as A2. change (Z.of_nat (sizeof uint64_t)) with 8 in A2.
  rewrite (read_agree_at _ _ _ _ _ A2), (write_read64 _ _ _ _ Hw Hlen) in He1 by (cbn; lia).
  cbn [mbind outcome_bind] in He1.
  change (pos_of (set_mem m2 (set_mem m1 (set_dest (u + o) s)))) with (pos_of s) in He1.
  pose proof (ok_size _ _ _ (tr_ok H)) as Hsz. pose proof (tr_addresses H) as Hadr.
  unfold Parsing.advance in He1. rewrite BytesLemmas.short_of_len_spec in He1 by (unfold buffer; lia).
  destruct (Z.ltb_spec (c_end C - pos_of s) len) as [?|Hle].
  { by destruct (pointer_add _ _ _). }
  rewrite uwrap_small in He1 by lia. destruct (pointer_add _ _ _); try done.
  injection He1 as <-. exists len, m1, m2. split_and!; try done; lia.
Qed.

Lemma trip_range D cu cu' f e ns :
  f ∉ D → container C f → text_reads e = Some ns → narrow e →
  trip D (f :: D)
    [Line (PDestField cu f); Line (PSetLen "var_stream_range" e); Line PRangeStart;
     Line PAdvanceRange; Line PCheck]
    [Line (SSrcField cu' f); Line SCopyRange; Line SCheck].
Proof using H.
  intros Hf Hcont Hr Hnar. split; [set_solver|]. intros s s' Hi He. rewrite dest_field_run in He.
  destruct (assoc f (c_members C)) as [[o ty]|] eqn:Ef; [|done]. pose proof (Hcont _ _ Ef) as Hty.
  pose proof Hi as (Hu & [Hp _] & _). rewrite Hu in He.
  destruct (range_run e ns o s s' Hr Hnar Hi He) as (len & m1 & m2 & Hlen & Hw1 & Hw2 & Hle & ->).
  pose proof (write_agree_at _ _ _ _ _ Hw1) as A1. pose proof (write_agree_at _ _ _ _ _ Hw2) as A2.
  change (Z.of_nat (sizeof uint64_t)) with 8 in A1, A2. pose proof (tr_addresses H) as Hadr.
  set (s' := set_result _ _ _). assert (Hi' : inv s') by (apply inv_moved; [done|lia]).
  assert (Hpos : pos_of s' = pos_of s + len) by done.
  assert (Hag : agree (touch f s) (p_mem s) (p_mem s')).
  { eapply agree_trans; eapply agree_mono; [|exact A1| |exact A2].
    all: intros x Hx; cbn in Hx; right; left; eapply container_kept; [done..|lia]. }
  assert (Hst : stepped D s s') by (eapply (stepped_touch f); [done..|lia|done|done]). split; [done|].
  intros t Hrt Ht Hle'. rewrite Hpos in Hle' |- *. replace (pos_of s + len - pos_of s) with len in * by lia.
  rewrite src_field_run, Ef. pose proof Hrt as (Hut & _ & Hmap). rewrite Hut.
  assert (Hkd : ∀ a, pos_of s ≤ a < pos_of s + len → keep (f :: D) s' a ∧ in_input a).
  { intros a Ha. assert (in_input a) by (unfold in_input; lia). split; [by right; right|done]. }
  assert (is_Some (load_bytes (Z.to_nat len) (s_mem t) (pos_of s))) as [bs Hb].
  { apply load_is_Some. intros i Hi0. apply Hmap. right; right. apply Hkd. lia. }
  destruct (bytes_emit SCopyRange (pos_of s) len bs (set_src (u + o) t)) as (t' & E & Em); try done.
  { cbn [emit_line s_mem s_src set_src]. change start_offset with 0. rewrite Z.add_0_r.
    change (len_offset "var_stream_range") with 8.
    rewrite (holds_read (f :: D) s' t uint64_t (u + o + 8)), (holds_read (f :: D) s' t uint64_t (u + o)).
    - change (p_mem s') with m2.
      rewrite (write_read64 _ _ _ _ Hw2), (read_agree_at _ _ _ _ _ A2), (write_read64 _ _ _ _ Hw1) by (cbn; lia).
      done.
    - done.
    - rewrite <- (Z.add_0_r (u + o)). eapply container_keep; [done|done|by left|done|done].
    - done.
    - eapply container_keep; [done|done|by left|done|done]. }
  { intros a Ha. eapply (tr_locals H a). right. by apply Hkd. }
  exists t'. split; [exact E|]. apply emitted_src in Em. eapply emitted_get; [exact Em|].
  intros i Hi''. cbv beta. rewrite (loaded_get _ _ _ _ _ Hb Hi''), (Ht _ (proj1 (Hkd (pos_of s + i) ltac:(lia)))).
  apply (input_same D s s'); [done|done|lia|lia].
Qed.

(** *** Transformed integers *)

Lemma uwrap_uwrap w w' x : 0 ≤ w ≤ w' → uwrap w (uwrap w' x) = uwrap w x.
Proof using Type.
  intros Hw. unfold uwrap. apply Z.mod_mod_divide. exists (2 ^ (w' - w)).
  rewrite <- Z.pow_add_r by lia. f_equal. lia.
Qed.

Lemma uwrap_convert w T x : 0 ≤ w ≤ width T → uwrap w (convert T x) = uwrap w x.
Proof using Type.
  intros Hw. unfold convert. destruct (is_signed T); [|by apply uwrap_uwrap].
  rewrite <- (uwrap_uwrap w (width T) (swrap _ _)) by done. rewrite uwrap_swrap. by apply uwrap_uwrap.
Qed.

Lemma uwrap_read w T m p v bs :
  read T m p = Ret v → load_bytes (sizeof T) m p = Some bs → 0 ≤ w ≤ width T →
  uwrap w v = uwrap w (le_decode bs).
Proof using Type.
  unfold read. intros Hr Hl Hw. rewrite Hl in Hr. injection Hr as <-. by apply uwrap_convert.
Qed.

(** A cast that is not to [bool] keeps the low bits, and so does the conversion after it. *)
Lemma uwrap_cast w c v v' :
  c ≠ CBool → 0 ≤ w ≤ width (rep c) → implicit c c (cast c v) = Ret v' → uwrap w v' = uwrap w v.
Proof using Type.
  intros Hc Hw Hi. unfold implicit, cast in Hi. destruct c as [T| |n]; [|done|].
  - injection Hi as <-. by rewrite !uwrap_convert.
  - destruct (String.eqb n n); [|done]. injection Hi as <-. by rewrite uwrap_convert.
Qed.

Lemma cast_field_run cu f t tmp q qt c0 s s' :
  assoc tmp (c_temps C) = Some (q, qt) → scalar_type (c_enums C) qt = Some c0 →
  exec_code C (Line (PCastField cu f t tmp)) s = Ret (Next s') →
  ∃ v c o ft cf v' m, read (rep c0) (p_mem s) q = Ret v ∧ scalar_type (c_enums C) t = Some c ∧
    assoc f (c_members C) = Some (o, ft) ∧ scalar_type (c_enums C) ft = Some cf ∧
    implicit c cf (cast c v) = Ret v' ∧ write (rep cf) (p_mem s) (p_unit s + o) v' = Ret m ∧
    s' = set_mem m s.
Proof using Type.
  intros Hq Hc0 He. cbn [exec_code exec_line] in He. rewrite Hq in He. cbn [some_or_ill mbind outcome_bind] in He.
  rewrite Hc0 in He. cbn [some_or_ill mbind outcome_bind] in He.
  destruct (read (rep c0) (p_mem s) q) as [v| | |]; try done. cbn [mbind outcome_bind] in He.
  destruct (scalar_type (c_enums C) t) as [c|]; [|done]. cbn [some_or_ill mbind outcome_bind] in He.
  unfold member_address in He. destruct (assoc f (c_members C)) as [[o ft]|]; [|done].
  cbn [some_or_ill mbind outcome_bind] in He. unfold assign in He.
  destruct (scalar_type (c_enums C) ft) as [cf|] eqn:Ecf; [|done]. cbn [some_or_ill mbind outcome_bind] in He.
  destruct (implicit c cf (cast c v)) as [v'| | |] eqn:Ei; try done. cbn [mbind outcome_bind] in He.
  destruct (write (rep cf) _ _ v') as [m| | |] eqn:Ew; try done. injection He as <-.
  by exists v, c, o, ft, cf, v', m.
Qed.

(** The temporaries of a transformed field of serialized width [w]. *)
Record transform_fits (f t : string) (w : Z) (tmp tmp' t' : string) : Prop := {
  tf_temp : temp_fits C tmp w;
  tf_member o ft cf : assoc f (c_members C) = Some (o, ft) → scalar_type (c_enums C) ft = Some cf → ft = t;
  tf_wide c : scalar_type (c_enums C) t = Some c → c ≠ CBool ∧ w ≤ width (rep c);
  tf_stemp : ∃ q T, assoc tmp' (o_temps K) = Some (q, t') ∧ scalar_type (c_enums C) t' = Some (CInt T) ∧
               width T = w }.

Lemma scalar_slot f o ft cf a :
  assoc f (c_members C) = Some (o, ft) → scalar_type (c_enums C) ft = Some cf →
  u + o ≤ a < u + o + Z.of_nat (sizeof (rep cf)) → slot_of f a.
Proof using Type.
  intros Hf Hs Ha. eapply (slot_room f o ft _ _ (Z.of_nat (sizeof (rep cf)))); [done| |reflexivity|done].
  unfold size_align. by rewrite Hs.
Qed.

(** What parsing a transformed field leaves. *)
Lemma transform_parsed D cu f t w tmp tmp' t' sg o s s' :
  f ∉ D → transform_fits f t w tmp tmp' t' → inv s →
  exec_list C [Line (PDestTemp tmp); Line (PParseInt w sg o); Line PCheck; Line (PCastField cu f t tmp)] s =
    Ret (Next s') →
  ∃ n order g bs off c v', 8 * Z.of_nat n = w ∧ ByteOrder order ∧
    int_serializer w sg o = Some g ∧ IntSerializer n order g ∧
    load_bytes n (p_mem s) (pos_of s) = Some bs ∧ stepped D s s' ∧
    pos_of s' = pos_of s + Z.of_nat n ∧
    assoc f (c_members C) = Some (off, t) ∧ scalar_type (c_enums C) t = Some c ∧
    read (rep c) (p_mem s') (u + off) = Ret v' ∧ uwrap w v' = le_decode (order bs).
Proof using H.
  intros Hf [Htf Hmem Hwide _] Hi He. rewrite dest_temp_run in He.
  destruct (assoc tmp (c_temps C)) as [[q qt]|] eqn:Eq; [|done].
  destruct (Htf _ _ Eq) as (c0 & Hc0 & Hw0). pose proof Hi as (Hu & Hg & _).
  destruct (int_read w sg o _ (set_dest q s) _ Hg He)
    as (n & order & g & bs & m1 & Hn & Ho & Hser & Hig & Hl & Hle & Hst & He1).
  change (pos_of (set_dest q s)) with (pos_of s) in *. cbn [p_mem set_dest p_dest] in Hl, Hst.
  rewrite exec_one in He1. apply (cast_field_run _ _ _ _ _ _ _ _ _ Eq Hc0) in He1
    as (v & c & off & ft & cf & v' & m & Hrd & Hc & Hof & Hcf & Him & Hwr & ->).
  pose proof (Hmem _ _ _ Hof Hcf) as ->. rewrite Hc in Hcf. injection Hcf as <-.
  destruct (Hwide _ Hc) as [Hnb Hwc]. cbn [p_mem p_unit set_result set_mem set_dest] in Hrd, Hwr.
  rewrite Hu in Hwr.
  assert (Hlen : length (order bs) = n) by (rewrite order_length; by eapply length_load).
  assert (Hn0 : n = sizeof (rep c0)) by (unfold width in Hw0; lia).
  pose proof (load_store _ _ _ _ Hst) as Hls. rewrite Hlen in Hls.
  destruct (write_load _ _ _ _ _ Hwr) as [Hlw Haw].
  exists n, order, g, bs, off, c, (convert (rep c) (le_decode (le_encode (sizeof (rep c)) (uwrap (width (rep c)) v')))).
  assert (Hw : 0 ≤ w) by lia. split_and!; try done.
  - eapply (stepped_touch f); [done|done| |unfold pos_of; cbn; lia|done|].
    + apply (inv_moved _ _ m (set_dest q s)); [done|]. destruct Hg as [Hp _]. unfold pos_of in *. cbn in *. lia.
    + cbn. eapply agree_trans.
      * eapply (store_within (touch f s)); [exact Hst|]. intros a Ha. left. eapply (tr_temps H); [exact Eq| |].
        { unfold size_align. by rewrite Hc0. }
        lia.
      * eapply agree_mono; [|exact Haw]. intros a Ha. right; left. by eapply scalar_slot.
  - unfold read. cbn [p_mem set_mem]. by rewrite Hlw.
  - rewrite uwrap_convert, le_decode_encode by lia. rewrite !uwrap_uwrap by (unfold width in *; lia).
    rewrite (uwrap_cast w c v v') by (done || lia).
    rewrite (uwrap_read w (rep c0) m1 q v (order bs)); [|done|by rewrite <- Hn0|lia].
    rewrite <- Hn, <- Hlen. apply uwrap_decode.
Qed.

Lemma trip_temp D cu cu' f t w tmp tmp' t' sg o :
  f ∉ D → transform_fits f t w tmp tmp' t' →
  trip D (f :: D)
    [Line (PDestTemp tmp); Line (PParseInt w sg o); Line PCheck; Line (PCastField cu f t tmp)]
    [Line (SCastFrom tmp' t' cu' f); Line (SSrcTemp tmp'); Line (SSerializeInt w sg o); Line SCheck].
Proof using H.
  intros Hf Htf. split; [set_solver|]. intros s s' Hi He.
  destruct (transform_parsed D cu f t w tmp tmp' t' sg o s s' Hf Htf Hi He)
    as (n & order & g & bs & off & c & v' & Hn & Ho & Hser & Hig & Hl & Hst & Hpos & Hof & Hc & Hrd & Huw).
  split; [done|]. intros t0 Hrt Ht Hle. rewrite Hpos in Hle |- *.
  replace (pos_of s + Z.of_nat n - pos_of s) with (Z.of_nat n) in * by lia.
  destruct (tf_stemp _ _ _ _ _ _ Htf) as (q & T & Hq & HT & HwT).
  pose proof Hrt as (Hut & Hp & Hmap).
  assert (HnT : n = sizeof T) by (unfold width in HwT; lia).
  assert (Hlen : length (order bs) = n) by (rewrite order_length; by eapply length_load).
  assert (HqG : ∀ a, q ≤ a < q + Z.of_nat n → G a).
  { intros a Ha. eapply (tr_stemps H); [exact Hq|unfold size_align; by rewrite HT|cbn; lia]. }
  assert (Hread : read (rep c) (s_mem t0) (u + off) = Ret v').
  { rewrite (holds_read (f :: D) s' t0); [done|done|]. intros a Ha. left. exists f.
    split; [by left|by eapply scalar_slot]. }
  set (v3 := cast (CInt T) (cast (CInt T) v')).
  assert (Hv3 : le_encode n (uwrap (width T) v3) = order bs).
  { subst v3. cbn [cast rep]. rewrite !uwrap_convert, HwT, Huw by (unfold width; lia).
    rewrite <- Hlen. apply le_encode_decode. }
  assert (is_Some (store_bytes (order bs) (s_mem t0) q)) as [m Hm].
  { apply store_is_Some, load_is_Some. intros i Hi'. apply Hmap. left. apply HqG. lia. }
  set (t1 := set_src q (set_smem m t0)).
  assert (Hrun : emit_list K [Line (SCastFrom tmp' t' cu' f); Line (SSrcTemp tmp'); Line (SSerializeInt w sg o); Line SCheck] t0
    = emit_list K [Line (SSerializeInt w sg o); Line SCheck] t1).
  { cbn [emit_list emit_code emit_line]. rewrite (tr_enums H), (tr_members H).
    unfold member. rewrite Hof. cbn [some_or_ill mbind outcome_bind]. rewrite Hc.
    cbn [some_or_ill mbind outcome_bind]. rewrite Hut, Hread. cbn [mbind outcome_bind].
    rewrite HT, Hq. cbn [some_or_ill mbind outcome_bind]. rewrite HT. cbn [some_or_ill mbind outcome_bind].
    unfold implicit. fold v3. cbn [mbind outcome_bind rep]. unfold write. rewrite <- HnT, Hv3, Hm. done. }
  assert (Hag : agree (λ a, G a ∨ out_pos t0 ≤ a < out_pos t0 + 0) (s_mem t0) m).
  { eapply store_within; [exact Hm|]. intros a Ha. left. apply HqG. lia. }
  assert (Hem : emitted t0 t1 0 (λ i, bs !! Z.to_nat i)).
  { split; [done|cbn; unfold out_pos; cbn; lia|done|lia]. }
  destruct (int_emit w sg o n order g bs t1) as (t2 & E & Em); try done.
  { by eapply length_load. }
  { eapply ready_emitted; [exact Hrt| | |exact Hem]; lia. }
  { cbn. rewrite <- Hlen. by eapply load_store. }
  exists t2. rewrite Hrun. split; [done|].
  eapply emitted_get; [eapply (emitted_trans _ _ _ 0 (Z.of_nat n)); [done|lia|lia|lia|exact Hem|exact Em]|].
  intros i Hi'. cbv beta. eapply (loaded_get (Z.of_nat n)); [by rewrite Nat2Z.id|lia].
Qed.

(** *** Items without bytes *)

Lemma trip_weaken D D' D'' pc sc : trip D D' pc sc → D' ⊆ D'' → trip D D'' pc sc.
Proof using Type.
  intros [Hd Hx] Hs. split; [by etrans|]. intros s s' Hi He. destruct (Hx s s' Hi He) as [St Em].
  split; [done|]. intros t Hr Ht. apply Em; [done|]. intros a Ha. apply Ht.
  eapply keep_mono; [done|reflexivity|done].
Qed.

Lemma trip_dest D cu cu' f :
  trip D (f :: D) [Line (PDestField cu f)] [Line (SSrcField cu' f)].
Proof using H.
  split; [set_solver|]. intros s s' Hi He. rewrite dest_field_run in He.
  destruct (assoc f (c_members C)) as [[o ty]|] eqn:Ef; [|done]. injection He as <-.
  split; [by split|]. intros t Hr _ _. rewrite src_field_run, Ef. eexists. split; [done|].
  change (pos_of (set_dest _ s)) with (pos_of s). rewrite Z.sub_diag.
  split; [done|cbn; unfold out_pos; cbn; lia|apply agree_refl|lia].
Qed.

Lemma assign_field_run cu f e s s' :
  pure_text e = true → p_unit s = u →
  exec_code C (Line (PAssignField cu f e)) s = Ret (Next s') →
  ∃ m, s' = set_mem m s ∧ agree (slot_of f) (p_mem s) m.
Proof using Type.
  intros Hp Hu He. cbn [exec_code exec_line] in He.
  destruct (eval_text _ _ _ None e (p_mem s)) as [[[c v] m0]| | |] eqn:Ee; try done.
  pose proof (eval_text_pure _ _ _ _ _ _ _ _ _ Hp Ee) as ->. cbn [mbind outcome_bind] in He.
  unfold member_address, assign in He. destruct (assoc f (c_members C)) as [[o ft]|] eqn:Ef; [|done].
  cbn [some_or_ill mbind outcome_bind] in He.
  destruct (scalar_type (c_enums C) ft) as [cf|] eqn:Ec; [|done]. cbn [some_or_ill mbind outcome_bind] in He.
  destruct (implicit c cf v) as [v'| | |]; try done. cbn [mbind outcome_bind p_mem set_mem] in He.
  destruct (write (rep cf) (p_mem s) _ v') as [m| | |] eqn:Ew; try done. injection He as <-.
  exists m. split; [done|]. eapply agree_mono; [|by apply (write_agree_at _ _ _ _ _ Ew)].
  intros a Ha. eapply scalar_slot; [done..|]. rewrite Hu in Ha. exact Ha.
Qed.

Lemma trip_variable D l f pc :
  f ∉ D → pc = [] ∨ (∃ cu e, pc = [Line (PAssignField cu f e)] ∧ pure_text e = true) →
  trip D (f :: D) [Block (Line (PLabel l) :: Line (PAdvanceTo l) :: pc)] [].
Proof using H.
  intros Hf Hpc. apply trip_silent; [done|]. intros s s' Hi He. rewrite exec_one, exec_block in He.
  destruct Hpc as [->|(cu & e & -> & Hp)].
  - injection He as <-. split_and!; try done; apply agree_refl.
  - rewrite exec_one in He. destruct (assign_field_run cu f e (adv C l s) s' Hp) as (m & -> & Ha);
      [by destruct Hi|done|]. split_and!; try done. eapply agree_mono; [|exact Ha]. intros a ?. by right; left.
Qed.

(** *** Switches *)

(** A text that only reads members of [D]. *)
Definition reads_in (D : list string) (e : string) : Prop := ∃ ns, text_reads e = Some ns ∧ ns ⊆ D.

Lemma holds_same_members D s t ns :
  holds D s t → ns ⊆ D → same_members (c_enums C) (c_members C) u (p_mem s) (s_mem t) ns.
Proof using Type.
  intros Ht Hs f o c Hf (ft & Hof & Hft & _)%(member_scalar C). apply (holds_load D); [done|].
  intros a Ha. left. exists f. split; [by apply Hs|by eapply scalar_slot].
Qed.

Lemma text_same D s t e c v m :
  holds D s t → s_unit t = u → reads_in D e →
  eval_text (c_enums C) (c_members C) u None e (p_mem s) = Ret (c, v, m) →
  m = p_mem s ∧ stext K e t = Ret (c, v, s_mem t).
Proof using H.
  intros Ht Hu (ns & Hr & Hs) He.
  pose proof (eval_text_reads (c_enums C) (c_members C) u (s_dollar t) (p_mem s) (s_mem t) e ns Hr
    (holds_same_members D s t ns Ht Hs)) as Hrel.
  rewrite He in Hrel. unfold stext. rewrite (tr_enums H), (tr_members H), Hu.
  destruct (eval_text _ _ u (s_dollar t) e (s_mem t)) as [[[c' v'] m']| | |]; try done.
  destruct Hrel as (E1 & E2 & E3). cbn in E1, E2, E3. by simplify_eq.
Qed.

Lemma matches_same D s t c v ls b :
  holds D s t → s_unit t = u → p_unit s = u → Forall (reads_in D) ls →
  matches C c v ls s = Ret b → smatches K c v ls t = Ret b.
Proof using H.
  intros Ht Hu Hu' Hls. revert b. induction Hls as [|l ls Hl _ IH]; intros b Hm; [done|].
  cbn [matches smatches] in *. rewrite Hu' in Hm.
  destruct (eval_text _ _ u None l (p_mem s)) as [[[cl vl] m]| | |] eqn:E; try done.
  destruct (text_same D s t l cl vl m Ht Hu Hl E) as [_ ->]. cbn [mbind outcome_bind] in *.
  destruct (common c cl); try done. cbn [mbind outcome_bind] in *.
  destruct (v =? vl); [done|]. by apply IH.
Qed.

(** The cases of the two switches for one field: labels read members of [D0], [D] grows through
    the cases. *)
Inductive case_trips (D0 : list string)
    : list string → list string → list (code_case pline) → list (code_case sline) → Prop :=
  | case_trips_nil D : case_trips D0 D D [] []
  | case_trips_cons D D1 D2 ls d pc sc pcs scs :
      Forall (reads_in D0) ls → trip D D1 pc sc → case_trips D0 D1 D2 pcs scs →
      case_trips D0 D D2 (mkCodeCase ls d pc :: pcs) (mkCodeCase ls d sc :: scs).

Lemma case_trips_mono D0 D D' pcs scs : case_trips D0 D D' pcs scs → D ⊆ D'.
Proof using Type. induction 1 as [|D D1 D2 ls d pc sc pcs scs _ [Hd _] _ IH]; [done|by etrans]. Qed.

Lemma select_same D0 D D' pcs scs s t c v i d r :
  case_trips D0 D D' pcs scs → holds D0 s t → s_unit t = u → p_unit s = u →
  select C c v pcs s i d = Ret r → sselect K c v scs t i d = Ret r.
Proof using H.
  intros Hc Ht Hu Hu'. revert i d r.
  induction Hc as [D|D D1 D2 ls d0 pc sc pcs scs Hls Htr Hrest IH]; intros i d r Hs; [done|].
  cbn [select sselect] in *. destruct (matches C c v ls s) as [b| | |] eqn:E; try done.
  rewrite (matches_same D0 s t c v ls b Ht Hu Hu' Hls E). cbn [mbind outcome_bind] in *.
  destruct b; [done|]. by apply IH.
Qed.

(** The selected case. *)
Lemma nth_trip D0 D D' pcs scs i s s' :
  case_trips D0 D D' pcs scs → inv s → exec_nth C pcs i s = Ret (Next s') →
  stepped D s s' ∧
  ∀ t, ready t → holds D' s' t → out_pos t + (pos_of s' - pos_of s) ≤ o_end K →
    ∃ t', emit_nth K scs i t = Ret (SNext t') ∧
          emitted t t' (pos_of s' - pos_of s) (λ i, p_mem s !! (pos_of s + i)).
Proof using Type.
  intros Hc. revert i. induction Hc as [D|D D1 D2 ls d0 pc sc pcs scs Hls Htr Hrest IH]; intros i Hi He.
  - destruct i; apply (trip_nil D s s' Hi He) || by apply (proj2 (trip_nil D) s s' Hi He).
  - destruct i as [|i]; cbn [exec_nth emit_nth] in *.
    + apply (trip_weaken D D1 D2) in Htr; [|by eapply case_trips_mono]. by apply Htr.
    + destruct (IH i Hi He) as [St Em]. split; [|done]. destruct St as [H1 H2 H3 H4]. split; try done.
      intros a Ha. apply H4. eapply keep_mono; [apply Htr|reflexivity|done].
Qed.

Lemma trip_switch D D' e pcs scs :
  reads_in D e → case_trips D D D' pcs scs → trip D D' [Switch e pcs] [Switch e scs].
Proof using H.
  intros He Hc. split; [by eapply case_trips_mono|]. intros s s' Hi Hx. rewrite exec_one in Hx.
  change (exec_code C (Switch e pcs) s) with
    ('(i, s) ← exec_switch C e pcs s;
     match i with Some i => exec_nth C pcs i s | None => Ret (Next s) end) in Hx.
  destruct (exec_switch C e pcs s) as [[i s1]| | |] eqn:Esw; try done. cbn [mbind outcome_bind] in Hx.
  pose proof Hi as (Hu & _). unfold exec_switch in Esw. rewrite Hu in Esw.
  destruct (eval_text _ _ u None e (p_mem s)) as [[[c v] m]| | |] eqn:Ee; try done.
  assert (m = p_mem s) as ->.
  { eapply eval_text_pure; [|exact Ee]. destruct He as (ns & Hr & _). unfold text_reads, pure_text in *.
    destruct (read_cpp e); [|done]. by eapply reads_pure. }
  assert (Hsm : set_mem (p_mem s) s = s) by (by destruct s).
  cbn [mbind outcome_bind] in Esw. rewrite Hsm in Esw. destruct (select C c v pcs s 0 None) as [i0| | |] eqn:Es; try done.
  injection Esw as <- <-.
  assert (Hgo : stepped D s s' ∧ ∀ t, ready t → holds D' s' t →
    out_pos t + (pos_of s' - pos_of s) ≤ o_end K →
    ∃ t', match i0 with Some i => emit_nth K scs i t | None => Ret (SNext t) end = Ret (SNext t') ∧
          emitted t t' (pos_of s' - pos_of s) (λ i, p_mem s !! (pos_of s + i))).
  { destruct i0 as [i|]; [by eapply nth_trip|].
    apply (trip_weaken D D D' [] []); [apply trip_nil|by eapply case_trips_mono|done|done]. }
  destruct Hgo as [St Em]. split; [done|]. intros t Hr Ht Hle.
  assert (Hh : holds D s t) by (eapply holds_back; [by eapply case_trips_mono|done|done]).
  pose proof Hr as (Hut & _). destruct (text_same D s t e c v _ Hh Hut He Ee) as [_ Hst].
  assert (Hst' : set_smem (s_mem t) t = t) by (by destruct t).
  destruct (Em t Hr Ht Hle) as (t' & Et & Emt). exists t'. split; [|done]. rewrite emit_one.
  change (emit_code K (Switch e scs) t) with
    ('(i, t) ← emit_switch K e scs t;
     match i with Some i => emit_nth K scs i t | None => Ret (SNext t) end).
  unfold emit_switch. rewrite Hst. cbn [mbind outcome_bind]. rewrite Hst'.
  rewrite (select_same D D D' pcs scs s t c v 0 None i0 Hc Hh Hut Hu Es). exact Et.
Qed.

End Trip.
