(* ===== verification/Replay.v ===== *)
(** * Generated serializers invert generated parsers

    [ordered] is the condition on units, [field_trip] and [items_trip] show that the code both
    generators write for a unit that satisfies it is related by [RoundTrip.trip], and the theorem
    puts the calls together: a serialize function that gets the unit a parse function made, in
    however many calls, writes the bytes that were read. *)

From S2P Require Import Prelude Util Runtime Ident Ast Units Translate Generate Exec Resume Incremental Deliver Emit RoundTrip.
Import Runtime.Memory Runtime.MemoryLemmas Translate.Translate Translate.Cpp Ident.Id.
Import Units.Units Generate.Generator Generate.ParserGenerator Generate.SerializerGenerator.
Import Generate.UnitClass Exec.Types Exec.Eval Exec.Exec Emit.Emit.

Local Open Scope Z_scope.

(** ** Ordered units *)

Section Ordered.
  Context (us : units) (options : Options) (es : enums) (members : list (string * (Z * string))).

(** A text, and the text of an expression, that only reads members of [D]. *)
Definition reads_from (D : list string) (s : string) : bool :=
  match text_reads s with Some ns => bool_decide (ns ⊆ D) | None => false end.
Definition expr_reads_from (D : list string) (e : expr) : bool :=
  match expression_text us e with Ret s => reads_from D s | _ => false end.

Definition int_typed (x : cexpr) : option int_type :=
  match typeof es members x with Ret (CInt T) => Some T | _ => None end.

(** An unsigned value below 2^32. *)
Definition small_unsigned (x : cexpr) : bool :=
  match x with
  | XMember (XSelf _) _ | XCast _ _ | XBin BPlus _ _ | XBin BMinus _ _ =>
      match int_typed x with
      | Some T => negb (is_signed T) && (sizeof T <=? 4)%nat
      | None => false
      end
  | _ => false
  end.

(** A length that the serializer assigns to is a member. *)
Definition assigned (e : expr) : bool :=
  match e with mkExpr _ (EOperator OpAttribute _) => true | _ => false end.
Definition is_member (x : cexpr) : bool := match x with XMember (XSelf _) _ => true | _ => false end.

(** The length of a byte field reads what was parsed before, is an integer, and for a pointer
    into the input cannot be negative. *)
Definition ordered_length (D : list string) (b : item_base) (input_pointer : bool) : bool :=
  match attr_lookup "length" (attributes_ b) with
  | Some a =>
      match attr_value a with
      | Some e =>
          match expression_text us e with
          | Ret s =>
              match read_cpp s with
              | Some x => reads_from D s && bool_decide (is_Some (int_typed x)) &&
                          implb input_pointer (small_unsigned x) && implb (assigned e) (is_member x)
              | None => false
              end
          | _ => false
          end
      | None => false
      end
  | None => false
  end.

(** The type of a transformed field has all values of its serialized type. *)
Definition widens (b : item_base) (w : Z) : bool :=
  match item_type b with
  | Some t =>
      match type_text us t with
      | Ret s =>
          match scalar_type es s with
          | Some c => negb (bool_decide (c = CBool)) && (w <=? width (rep c))
          | None => false
          end
      | _ => false
      end
  | None => false
  end.

Definition ordered_type (D : list string) (b : item_base) (t : ty) : bool :=
  match kind t with
  | TBytes => ordered_length D b (negb (app_accessible b) && input_pointers options)
  | TString => ordered_length D b false
  | TInteger w _ => implb (transformed b) (widens b w)
  | _ => true
  end.

(** The member of an item, which must be new. *)
Definition add_name (b : item_base) (D : list string) : option (list string) :=
  match name (item_id b) with
  | Ret n => if bool_decide (unitFieldName n ∈ D) then None else Some (unitFieldName n :: D)
  | _ => None
  end.

Definition ordered_atomic (b : item_base) (D : list string) : option (list string) :=
  match serialized_type b with
  | Some t => if ordered_type D b t then add_name b D else None
  | None => None
  end.

(** The names of the members after a field, if it is in order. *)
Fixpoint ordered_field (f : field) (D : list string) : option (list string) :=
  let ordered_fields := fix ordered_fields (l : list field) (D : list string) : option (list string) :=
    match l with [] => Some D | f :: l => D ← ordered_field f D; ordered_fields l D end in
  let ordered_cases := fix ordered_cases (D0 : list string) (l : list case) (D : list string)
      : option (list string) :=
    match l with
    | [] => Some D
    | mkCase es items _ :: l =>
        if forallb (expr_reads_from D0) es then D ← ordered_fields items D; ordered_cases D0 l D
        else None
    end in
  match f with
  | mkField b _ FAtomicType => ordered_atomic b D
  | mkField _ _ (FSwitch (Some e) cases) =>
      if expr_reads_from D e then ordered_cases D cases D else None
  | _ => Some D
  end.
Fixpoint ordered_fields (l : list field) (D : list string) : option (list string) :=
  match l with [] => Some D | f :: l => D ← ordered_field f D; ordered_fields l D end.
Fixpoint ordered_cases (D0 : list string) (l : list case) (D : list string) : option (list string) :=
  match l with
  | [] => Some D
  | mkCase es items _ :: l =>
      if forallb (expr_reads_from D0) es then D ← ordered_fields items D; ordered_cases D0 l D
      else None
  end.

(** The expression a variable gets its value from does not assign. *)
Definition pure_expr (e : option expr) : bool :=
  match e with
  | Some e => match expression_text us e with Ret s => pure_text s | _ => true end
  | None => true
  end.
Definition ordered_variable (b : item_base) (d : option expr) (D : list string) : option (list string) :=
  let value := match attr_lookup "parse" (attributes_ b) with Some a => attr_value a | None => d end in
  if pure_expr value then add_name b D else None.

(** Only atomic fields have a length that the serializer updates. *)
Definition keeps_length (f : field) : bool :=
  match f with
  | mkField _ _ FAtomicType => true
  | mkField b _ _ => negb (is_byte_type (serialized_type b) && has_attr "length" b)
  end.

Fixpoint ordered (l : list item) (D : list string) : option (list string) :=
  match l with
  | [] => Some D
  | IField f :: l => if keeps_length f then D ← ordered_field f D; ordered l D else None
  | IVariable b d :: l => D ← ordered_variable b d D; ordered l D
  | IProperty _ _ :: l => ordered l D
  end.

Lemma reads_from_in D s : reads_from D s = true → reads_in D s.
Proof using Type.
  unfold reads_from, reads_in. destruct (text_reads s) as [ns|]; [|done]. intros Hd.
  bool_to_prop. by exists ns.
Qed.

Lemma add_name_new b D D' f :
  add_name b D = Some D' → name (item_id b) = Ret f → D' = unitFieldName f :: D ∧ unitFieldName f ∉ D.
Proof using Type.
  unfold add_name. intros H Hf. rewrite Hf in H. case_bool_decide; [done|]. by injection H as <-.
Qed.

End Ordered.

Lemma convert_unsigned T v : is_signed T = false → 0 ≤ convert T v < 2 ^ width T.
Proof. intros HT. unfold convert. rewrite HT. apply uwrap_range. unfold width. lia. Qed.

Lemma small_unsigned_range es members u d x T m v m' :
  int_typed es members x = Some T → small_unsigned es members x = true →
  eval es members u d x m = Ret (v, m') → 0 ≤ v < 2 ^ width T.
Proof.
  intros HT Hs He. assert (Hu : is_signed T = false).
  { unfold small_unsigned in Hs. rewrite HT in Hs.
    destruct x as [| | | | | | |[] ?| |[] ? ?| | |]; try done; by bool_to_prop. }
  unfold int_typed in HT.
  destruct x as [| | | | | | |[] f| |o a b|t a| |]; try done; cbn [eval lvalue typeof] in He, HT.
  - destruct (member es members f) as [[o c]| | |]; try done. cbn [mbind outcome_bind] in He, HT.
    destruct c; try done. injection HT as ->. destruct (read _ m _) eqn:Er; try done.
    injection He as <- <-. unfold read in Er. destruct (load_bytes _ m _); [|done].
    injection Er as <-. by apply convert_unsigned.
  - destruct o; try done; destruct (typeof es members a) as [ca| | |]; try done;
      destruct (typeof es members b) as [cb| | |]; try done; cbn [mbind outcome_bind] in He, HT.
    all: destruct (common ca cb); try done; cbn [mbind outcome_bind] in He.
    all: destruct (eval _ _ _ _ a m) as [[va ma]| | |]; try done; cbn [mbind outcome_bind] in He.
    all: destruct (eval _ _ _ _ b ma) as [[vb mb]| | |]; try done; cbn [mbind outcome_bind] in He.
    all: destruct (arithmetic ca); try done; cbn [some_or_ill mbind outcome_bind] in He, HT.
    all: destruct (arithmetic cb); try done; cbn [some_or_ill mbind outcome_bind] in He, HT.
    all: injection HT as HT; rewrite HT in He; unfold result in He; rewrite Hu in He.
    all: injection He as <- <-; apply uwrap_range; unfold width; lia.
  - destruct (scalar_type es t) as [c|]; [|done]. cbn [some_or_ill mbind outcome_bind] in He, HT.
    destruct c; try done. injection HT as ->. destruct (typeof es members a); try done.
    cbn [mbind outcome_bind] in He. destruct (eval _ _ _ _ a m) as [[va ma]| | |]; try done.
    injection He as <- <-. by apply convert_unsigned.
Qed.

Lemma small_unsigned_narrow C u s x :
  read_cpp s = Some x → small_unsigned (c_enums C) (c_members C) x = true → narrow C u s.
Proof.
  intros Hx Hs m c v m' len He Hi. unfold eval_text in He. rewrite Hx in He.
  cbn [some_or_ill mbind outcome_bind] in He.
  destruct (int_typed (c_enums C) (c_members C) x) as [T|] eqn:HT.
  2: { unfold small_unsigned in Hs. rewrite HT in Hs.
       by destruct x as [| | | | | | |[] ?| |[] ? ?| | |]. }
  assert (H4 : (sizeof T ≤ 4)%nat).
  { unfold small_unsigned in Hs. rewrite HT in Hs.
    destruct x as [| | | | | | |[] ?| |[] ? ?| | |]; try done; bool_to_prop; by apply Nat.leb_le. }
  destruct (typeof _ _ x) as [c0| | |] eqn:Et; try done. cbn [mbind outcome_bind] in He.
  destruct (eval _ _ _ _ x m) as [[v0 m0]| | |] eqn:Ev; try done. injection He as <- <- <-.
  pose proof (small_unsigned_range _ _ _ _ _ _ _ _ _ HT Hs Ev) as Hr.
  unfold int_typed in HT. rewrite Et in HT. destruct c0; try done. injection HT as ->.
  injection Hi as <-. unfold cast, convert. cbn [rep is_signed uint64_t].
  change (width uint64_t) with 64. assert (2 ^ width T ≤ 2 ^ 32) by (apply Z.pow_le_mono_r; unfold width; lia).
  rewrite uwrap_small by lia. lia.
Qed.

(** ** The serializer generator *)

(** Temporaries are only added. *)
Definition grows (h h' : gstate) : Prop := gen_wf h' ∧ temp_vars_ h `prefix_of` temp_vars_ h'.

Lemma grows_refl h : gen_wf h → grows h h.
Proof. by split. Qed.
Lemma grows_trans h h1 h2 : grows h h1 → grows h1 h2 → grows h h2.
Proof. intros [_ H1] [H2 H3]. split; [done|by etrans]. Qed.

Section SerializerGrows.
  Context (us : units) (u : unit_type) (options : Options).

(** The loops inside [visit_field_out]. *)
Fixpoint out_fields (l : list field) (g : gstate) : outcome (list scode * gstate) :=
  match l with
  | [] => Ret ([], g)
  | x :: l =>
      '(c, g) ← serialize_item u (fbase x) (visit_field_out us u options x) g;
      '(r, g) ← out_fields l g;
      Ret (c ++ r, g)
  end.
Fixpoint out_cases (l : list case) (g : gstate) : outcome (list (code_case sline) * gstate) :=
  match l with
  | [] => Ret ([], g)
  | mkCase es items d :: l =>
      labels ← translate_all us es;
      '(c, g) ← out_fields items g;
      '(r, g) ← out_cases l g;
      Ret (mkCodeCase labels d c :: r, g)
  end.
Lemma visit_switch_out b fb e cases g :
  visit_field_out us u options (mkField b fb (FSwitch (Some e) cases)) g =
  e_text ← expression_text us e; '(cs, g) ← out_cases cases g; Ret ([Switch e_text cs], g).
Proof using Type. reflexivity. Qed.

Lemma serialize_type_grows b ip t h d h' :
  gen_wf h → serialize_type us b ip t h = Ret (d, h') → grows h h'.
Proof using Type.
  intros Hh H. pose proof (reset_wf _ Hh) as Hr. pose proof (log_wf _ Hr) as Hl.
  unfold serialize_type in H. destruct (kind t); destruct_Ret H; injection H as <- <-; by split.
Qed.

Lemma visit_AtomicType_out_grows b h d h' :
  gen_wf h → visit_AtomicType_out us u options b h = Ret (d, h') → grows h h'.
Proof using Type.
  intros Hh H. unfold visit_AtomicType_out in H.
  destruct (serialized_type_of_item b) as [st| | |]; try done. cbn [mbind outcome_bind] in H.
  destruct (transformed b).
  - destruct (type_text us st) as [s| | |]; try done. cbn [mbind outcome_bind] in H.
    destruct (addTemp s h) as [n h1] eqn:Ea. destruct (addTemp_step s h n h1 Hh Ea) as [[W _ T _ _] _].
    match type of H with mbind _ ?p = _ => destruct p as [[pre h2]| | |] eqn:Ep; try done end.
    cbn [mbind outcome_bind] in H.
    destruct (serialize_type _ _ _ st h2) as [[c h3]| | |] eqn:Es; try done. injection H as <- <-.
    assert (H2 : grows h h2).
    { destruct (has_attr "transform_to" b); [|destruct (has_attr "transform" b)];
        destruct_Ret Ep; injection Ep as <- <-; split; try done. by apply log_wf. }
    eapply grows_trans; [exact H2|]. eapply serialize_type_grows; [apply H2|exact Es].
  - destruct_Ret H. injection H as <- <-. by eapply serialize_type_grows.
Qed.

Lemma serialize_item_grows b visit h d h' :
  gen_wf h → (∀ h d h', gen_wf h → visit h = Ret (d, h') → grows h h') →
  serialize_item u b visit h = Ret (d, h') → grows h h'.
Proof using Type.
  intros Hh Hv H. unfold serialize_item in H. destruct_Ret H. cbn [newInstructionLabel] in H. cbn in H.
  destruct_Ret H. injection H as <- <-.
  match goal with E : visit _ = _ |- _ => apply Hv in E as [? ?] end; [by split|].
  destruct Hh. split; cbn; try done; lia.
Qed.

Definition field_grows (f : field) : Prop :=
  ∀ h d h', gen_wf h → visit_field_out us u options f h = Ret (d, h') → grows h h'.
Definition case_grows (cs : case) : Prop :=
  match cs with mkCase _ items _ => Forall field_grows items end.

Lemma out_fields_grows l h d h' :
  Forall field_grows l → gen_wf h → out_fields l h = Ret (d, h') → grows h h'.
Proof using Type.
  intros Hl. revert h d h'. induction Hl as [|f l Hf _ IH]; intros h d h' Hh H; cbn [out_fields] in H.
  { injection H as <- <-. by apply grows_refl. }
  destruct_Ret H. injection H as <- <-.
  match goal with E : serialize_item _ _ _ _ = _ |- _ => apply serialize_item_grows in E; [|done..] end.
  eapply grows_trans; [done|]. eapply IH; [|done].
  by match goal with E : grows h _ |- _ => apply E end.
Qed.

Lemma out_cases_grows l h d h' :
  Forall case_grows l → gen_wf h → out_cases l h = Ret (d, h') → grows h h'.
Proof using Type.
  intros Hl. revert h d h'. induction Hl as [|[es items df] l Hf _ IH]; intros h d h' Hh H; cbn [out_cases] in H.
  { injection H as <- <-. by apply grows_refl. }
  destruct_Ret H. injection H as <- <-.
  match goal with E : out_fields _ _ = _ |- _ => apply out_fields_grows in E; [|done..] end.
  eapply grows_trans; [done|]. eapply IH; [|done].
  by match goal with E : grows h _ |- _ => apply E end.
Qed.

Lemma visit_field_out_grows f : field_grows f.
Proof using Type.
  apply (field_nested_ind field_grows case_grows); [|done].
  intros b fb k IH h d h' Hh H. destruct k as [| | | | |e cases| |].
  1: by eapply visit_AtomicType_out_grows.
  5: { destruct e as [e|]; [|injection H as <- <-; by apply grows_refl].
       rewrite visit_switch_out in H. destruct_Ret H. injection H as <- <-. by eapply out_cases_grows. }
  all: injection H as <- <-; split; try done. by apply log_wf.
Qed.

End SerializerGrows.

(** ** The two pieces of code for a field *)

Section GeneratedTrip.
  Context (us : units) (ut : unit_type) (options : Options).
  Context (C : context) (K : scontext) (F G : Z → Prop) (u size : Z) (A : UnitArea.UnitArea).
  Context (H : setting C K F G u size A).
  Context (ms tms stms : list (string * string)).
  Context (Hes : ∀ t, t ∈ container_types → assoc t (c_enums C) = None).
  Context (Hms : NoDup ms.*1).
  Context (Hmem : ∀ f o t, assoc f (c_members C) = Some (o, t) → (f, t) ∈ ms).
  Context (Htms : NoDup tms.*1).
  Context (Htmp : ∀ n q t, assoc n (c_temps C) = Some (q, t) → (n, t) ∈ tms).
  Context (Hstmp : ∀ n t, (n, t) ∈ stms → ∃ q, assoc n (o_temps K) = Some (q, t)).

Abbreviation trips := (trip C K G u size A).
Abbreviation ordered_f := (ordered_field us options (c_enums C) (c_members C)).

(** What [ordered_length] says of the text both generators use. *)
Lemma ordered_length_text D b ip a e s :
  ordered_length us (c_enums C) (c_members C) D b ip = true →
  attr_lookup "length" (attributes_ b) = Some a → attr_expr a = Ret e → expression_text us e = Ret s →
  ∃ ns, text_reads s = Some ns ∧ ns ⊆ D ∧ (ip = true → narrow C u s) ∧
    ∃ x T, read_cpp s = Some x ∧ int_typed (c_enums C) (c_members C) x = Some T ∧
           (assigned e = true → is_member x = true).
Proof using Type.
  unfold ordered_length, attr_expr. intros Ho Ha He Hs. rewrite Ha in Ho.
  destruct (attr_value a) as [e'|]; [|done]. injection He as ->. rewrite Hs in Ho.
  destruct (read_cpp s) as [x|] eqn:Hx; [|done]. rewrite !andb_true_iff in Ho. destruct Ho as [[[Hr Ht] Hn] Hm].
  apply reads_from_in in Hr as (ns & Hr & Hns). exists ns. bool_to_prop. destruct Ht as [T HT].
  split_and!; [done|done| |exists x, T; split_and!; [done..|]].
  - intros ->. cbn in Hn. by eapply small_unsigned_narrow.
  - intros Has. by rewrite Has in Hm.
Qed.

(** [visit(AtomicType)] of a field that is not transformed. *)
Lemma type_trip D b ip ty cu cu' f fm g c g' h d h' :
  supported_atomic us options b = true →
  ip = (negb (app_accessible b) && input_pointers options)%bool →
  ordered_type us options (c_enums C) (c_members C) D b ty = true →
  addSingleUnitField us options b true = Ret fm → fm ⊆ ms → name (item_id b) = Ret f →
  item_type b = Some ty → serialized_type b = Some ty → unitFieldName f ∉ D →
  parse_type us b ip ty g = Ret (c, g') → serialize_type us b ip ty h = Ret (d, h') →
  trips D (unitFieldName f :: D) (Line (PDestField cu (unitFieldName f)) :: c)
    (Line (SSrcField cu' (unitFieldName f)) :: d).
Proof using H Hes Hms Hmem.
  intros Hs Hip Ho Hfm Hin Hf Ht Hst Hnew Hp Hd. unfold supported_atomic in Hs.
  rewrite !andb_true_iff in Hs. destruct Hs as [[[_ Hw] Hpo] _]. rewrite Hst in Hw. cbn in Hw.
  unfold parse_type in Hp. unfold serialize_type in Hd. unfold ordered_type in Ho.
  destruct (kind ty) eqn:Hk; try (injection Hp as <- <-; injection Hd as <- <-; apply (trip_dest C K F G u size A H)).
  - rewrite <- Hip in Ho. destruct_Ret Hp. injection Hp as <- <-. rename E into Hp. injection Hd as <- <-.
    unfold visit_type_Bytes in Hp. unfold visit_type_Bytes_out.
    destruct (attr_lookup "length" (attributes_ b)) as [a'|] eqn:Ha.
    2: { unfold ordered_length in Ho. by rewrite Ha in Ho. }
    destruct_Ret Hp.
    destruct (ordered_length_text _ _ _ _ _ _ Ho Ha ltac:(done) ltac:(done)) as (ns & Hr & _ & Hnar & _).
    assert (Hcont : container C (unitFieldName f))
      by (eapply (field_container us options C ms Hms Hmem b fm ty); auto).
    destruct ip; injection Hp as <-; cbn [negb].
    + eapply (trip_range C K F G u size A H); try done. by apply Hnar.
    + by eapply (trip_bytes C K F G u size A H).
  - destruct_Ret Hp. injection Hp as <- <-. rename E into Hp. injection Hd as <- <-.
    unfold visit_type_String in Hp. unfold visit_type_String_out.
    destruct (attr_lookup "length" (attributes_ b)) as [a'|] eqn:Ha.
    2: { unfold ordered_length in Ho. by rewrite Ha in Ho. }
    destruct_Ret Hp. injection Hp as <-.
    destruct (ordered_length_text _ _ _ _ _ _ Ho Ha ltac:(done) ltac:(done)) as (ns & Hr & _ & _ & _).
    assert (Hcont : container C (unitFieldName f))
      by (eapply (field_container us options C ms Hms Hmem b fm ty); auto).
    by eapply (trip_bytes C K F G u size A H).
  - destruct_Ret Hp. injection Hp as <- <-. destruct_Ret Hd. injection Hd as <- <-.
    unfold visit_type_Integer, visit_type_Integer_out in *.
    destruct (byteOrderLabel us b) as [bo| | |]; try done. cbn [mbind outcome_bind] in *. simplify_eq.
    apply (trip_int C K F G u size A H); [done|]. by eapply (field_int us options C ms Hes Hms Hmem b fm ty).
Qed.

(** The temporaries and the member of a transformed field. *)
Lemma transform_ok b fm st s w sg it t f n n' :
  implb (parsing_only b) (store_parsing_only options) = true →
  addSingleUnitField us options b true = Ret fm → fm ⊆ ms → name (item_id b) = Ret f →
  kind st = TInteger w sg → machine_width w = true → type_text us st = Ret s →
  item_type b = Some it → type_text us it = Ret t → widens us (c_enums C) b w = true →
  (n, s) ∈ tms → (n', s) ∈ stms →
  transform_fits C K (unitFieldName f) t w n n' s.
Proof using Hes Hms Hmem Htms Htmp Hstmp.
  intros Hpo Hfm Hin Hf Hk Hw Hs Hit Ht Hwd Hn Hn'.
  apply type_text_kind in Hs. rewrite Hk in Hs. subst s.
  destruct (int_type_scalar (c_enums C) w sg Hw) as (T & HT & HW). split.
  - intros q t' Hq. apply Htmp in Hq. rewrite (assoc_unique _ _ _ _ Htms Hq Hn). by exists (CInt T).
  - intros o ft cf Hof Hcf.
    pose proof (field_member us options C ms Hms Hmem b fm f o ft Hpo Hfm Hin Hf Hof) as Hx.
    destruct (_ && input_pointers options); [subst ft|destruct Hx as (it' & Hit' & Ht')].
    + unfold scalar_type in Hcf. cbn in Hcf. by rewrite Hes in Hcf by elem_dec.
    + rewrite Hit in Hit'. injection Hit' as <-. rewrite Ht in Ht'. by injection Ht' as ->.
  - intros c Hc. unfold widens in Hwd. rewrite Hit, Ht, Hc in Hwd. by bool_to_prop.
  - destruct (Hstmp _ _ Hn') as [q Hq]. by exists q, T.
Qed.

Lemma atomic_trip D D' b fm g c g' h d h' :
  gen_wf g → gen_wf h → supported_atomic us options b = true →
  ordered_atomic us options (c_enums C) (c_members C) b D = Some D' →
  addSingleUnitField us options b true = Ret fm → fm ⊆ ms →
  visit_AtomicType us ut options b g = Ret (c, g') →
  visit_AtomicType_out us ut options b h = Ret (d, h') →
  temp_vars_ g' `prefix_of` tms → temp_vars_ h' `prefix_of` stms → trips D D' c d.
Proof using H Hes Hms Hmem Htms Htmp Hstmp.
  intros Hg Hh Hs Ho Hfm Hin Hc Hd Hpre Hpre'. unfold visit_AtomicType in Hc. unfold visit_AtomicType_out in Hd.
  unfold ordered_atomic in Ho. unfold serialized_type_of_item in *.
  destruct (serialized_type b) as [st|] eqn:Hst; [|done]. cbn [mbind outcome_bind] in Hc, Hd.
  destruct (ordered_type us options _ _ D b st) eqn:Hot; [|done].
  pose proof Hs as Hs'. unfold supported_atomic in Hs'. rewrite !andb_true_iff in Hs'.
  destruct Hs' as [[[_ Hw] Hpo] Ht]. destruct (transformed b) eqn:Etr.
  - apply andb_prop in Ht as [Hint Hto]. rewrite Hst in Hint, Hw. cbn in Hint, Hw. rewrite Hto in Hc, Hd.
    destruct (kind st) as [| | | | | | | | | |w sg| | | | | | | | | | | | |] eqn:Hk; try done.
    unfold ordered_type in Hot. rewrite Hk, Etr in Hot. cbn in Hot.
    destruct (type_text us st) as [s| | |] eqn:Es; try done. cbn [mbind outcome_bind] in Hc, Hd.
    destruct (addTemp s g) as [n g1] eqn:Ea. destruct (addTemp_step s g n g1 Hg Ea) as [_ Hn].
    destruct (addTemp s h) as [n' h1] eqn:Ea'. destruct (addTemp_step s h n' h1 Hh Ea') as [_ Hn'].
    unfold parse_type in Hc. unfold serialize_type in Hd. rewrite Hk in Hc, Hd.
    unfold visit_type_Integer, visit_type_Integer_out in *.
    destruct (byteOrderLabel us b) as [bo| | |]; try done. cbn [mbind outcome_bind] in Hc, Hd.
    destruct (exprCurrentUnit ut) as [cu| | |]; try done. cbn [mbind outcome_bind] in Hc, Hd.
    destruct (name (item_id b)) as [f| | |] eqn:Hf; try done. cbn [mbind outcome_bind] in Hc, Hd.
    unfold type_of_item in Hc. destruct (item_type b) as [it|] eqn:Hit; [|done]. cbn [mbind outcome_bind] in Hc.
    destruct (type_text us it) as [t| | |] eqn:Et; try done. cbn [mbind outcome_bind] in Hc.
    injection Hc as <- <-. injection Hd as <- <-. cbn [app].
    destruct (add_name_new b D D' f Ho Hf) as [-> Hnew].
    apply (trip_temp C K F G u size A H); [done|].
    eapply transform_ok; try done; eapply elem_of_prefix; [exact Hn|exact Hpre|exact Hn'|exact Hpre'].
  - unfold has_serialized_type in Ht. unfold serialized_type in Hst.
    destruct (serialized_type_ b) as [|] eqn:Eb; [done|].
    destruct (exprCurrentUnit ut) as [cu| | |]; try done. cbn [mbind outcome_bind] in Hc, Hd.
    destruct (name (item_id b)) as [f| | |] eqn:Hf; try done. cbn [mbind outcome_bind] in Hc, Hd.
    destruct_Ret Hc. injection Hc as <- <-. destruct_Ret Hd. injection Hd as <- <-.
    destruct (add_name_new b D D' f Ho Hf) as [-> Hnew].
    eapply type_trip; try done. unfold serialized_type. by rewrite Eb.
Qed.

(** [parse] and [serialize] of an item. *)
Lemma item_trip D D' b visit visit' g c g' h d h' :
  (∀ g c h d, gen_wf g → gen_wf h → visit g = Ret (c, g') → visit' h = Ret (d, h') → trips D D' c d) →
  gen_wf g → gen_wf h →
  parse_item ut b visit g = Ret (c, g') → serialize_item ut b visit' h = Ret (d, h') → trips D D' c d.
Proof using Type.
  intros Hv Hg Hh Hc Hd. unfold parse_item in Hc. unfold serialize_item in Hd.
  destruct (unit_id_name ut) as [un| | |]; try done. cbn [mbind outcome_bind] in Hc, Hd.
  destruct (name (item_id b)) as [n| | |]; try done. cbn in Hc, Hd.
  destruct_Ret Hc. injection Hc as <- <-. destruct_Ret Hd. injection Hd as <- <-.
  apply trip_block. eapply Hv; [| |done|done]; [by destruct Hg; split; cbn; try lia|by destruct Hh; split; cbn; try lia].
Qed.

Abbreviation shape f := (visit_field_shape us ut options C ms tms Hes Hms Hmem Htms Htmp f).

(** What is shown of every field. *)
Definition field_trips (f : field) : Prop :=
  ∀ D D' fm g c g' h d h', gen_wf g → gen_wf h → supported_field us options f = true →
  ordered_f f D = Some D' → field_members us options f = Ret fm → fm ⊆ ms →
  visit_field us ut options f g = Ret (c, g') → visit_field_out us ut options f h = Ret (d, h') →
  temp_vars_ g' `prefix_of` tms → temp_vars_ h' `prefix_of` stms → trips D D' c d.
Definition case_fields_trips (cs : case) : Prop :=
  match cs with mkCase _ items _ => Forall field_trips items end.

Lemma fields_trip l :
  Forall field_trips l →
  ∀ D D' fm g c g' h d h', gen_wf g → gen_wf h → supported_fields us options l = true →
  ordered_fields us options (c_enums C) (c_members C) l D = Some D' →
  fields_members us options l = Ret fm → fm ⊆ ms →
  parse_fields us ut options l g = Ret (c, g') → out_fields us ut options l h = Ret (d, h') →
  temp_vars_ g' `prefix_of` tms → temp_vars_ h' `prefix_of` stms → trips D D' c d.
Proof using H Hes Hms Hmem Htms Htmp Hstmp.
  induction 1 as [|f l Hf _ IH]; intros D D' fm g c g' h d h' Hg Hh Hs Ho Hm Hin Hc Hd Hp Hp';
    cbn in Hs, Ho, Hm, Hc, Hd.
  { simplify_eq. apply trip_nil. }
  apply andb_prop in Hs as [Hs1 Hs2].
  destruct (ordered_f f D) as [D1|] eqn:Ho1; [|done]. cbn in Ho.
  destruct_Ret Hm. injection Hm as <-. destruct_Ret Hc. injection Hc as <- <-. destruct_Ret Hd. injection Hd as <- <-.
  assert (Hin1 : a ⊆ ms) by (clear -Hin; set_solver).
  assert (Hin2 : a0 ⊆ ms) by (clear -Hin; set_solver).
  rename E1 into Ec, E2 into Ec', E3 into Ed, E4 into Ed'.
  pose proof (parse_item_shape ut C tms _ _ _ _ _ Hg
    (λ g c g' Hg Hv, shape f g c g' _ Hg Hs1 ltac:(eassumption) Hin1 Hv) Ec) as [Hgs _].
  pose proof (serialize_item_grows ut _ _ _ _ _ Hh (visit_field_out_grows us ut options f) Ed) as Hgr.
  destruct (parse_fields_shape us ut options C ms tms l (Forall_true _ l (λ f, shape f)) g0 l1 g1 a0
    ltac:(apply Hgs) Hs2 E0 Hin2 Ec') as [[_ _ Hpre _ _] _].
  destruct (out_fields_grows us ut options l _ _ _ (Forall_true _ l (visit_field_out_grows us ut options))
    ltac:(apply Hgr) Ed') as [_ Hpre'].
  apply (trip_app C K F G u size A H D D1 D').
  - eapply item_trip; [|exact Hg|exact Hh|exact Ec|exact Ed]. intros ? ? ? ? Hw Hw' Hv Hv'.
    eapply (Hf _ _ _ _ _ _ _ _ _ Hw Hw' Hs1 Ho1 E Hin1 Hv Hv'); by (etrans; [eassumption|]).
  - by eapply (IH D1 D' a0 _ _ _ _ _ _ (gs_wf _ _ _ Hgs) (proj1 Hgr) Hs2 Ho eq_refl Hin2 Ec' Ed').
Qed.

Lemma any_case_shape cs : case_shape us ut options C ms tms cs.
Proof using Hes Hms Hmem Htms Htmp. destruct cs. apply Forall_true. intros f. apply (shape f). Qed.
Lemma any_case_grows cs : case_grows us ut options cs.
Proof using Type. destruct cs. apply Forall_true. apply visit_field_out_grows. Qed.

Lemma translate_reads D es ls :
  forallb (expr_reads_from us D) es = true → translate_all us es = Ret ls → Forall (reads_in D) ls.
Proof using Type.
  revert ls. induction es as [|e es IH]; intros ls Hr Ht; cbn in Hr, Ht.
  { injection Ht as <-. constructor. }
  apply andb_prop in Hr as [Hr1 Hr2]. destruct_Ret Ht. injection Ht as <-. constructor; [|by apply IH].
  unfold expr_reads_from in Hr1. rewrite E in Hr1. by apply reads_from_in.
Qed.

Lemma cases_trip l :
  Forall case_fields_trips l →
  ∀ D0 D D' fm g c g' h d h', gen_wf g → gen_wf h → supported_cases us options l = true →
  ordered_cases us options (c_enums C) (c_members C) D0 l D = Some D' →
  cases_members us options l = Ret fm → fm ⊆ ms →
  visit_cases us ut options l g = Ret (c, g') → out_cases us ut options l h = Ret (d, h') →
  temp_vars_ g' `prefix_of` tms → temp_vars_ h' `prefix_of` stms →
  case_trips C K G u size A D0 D D' c d.
Proof using H Hes Hms Hmem Htms Htmp Hstmp.
  induction 1 as [|[es items df] l Hf _ IH]; intros D0 D D' fm g c g' h d h' Hg Hh Hs Ho Hm Hin Hc Hd Hp Hp';
    cbn in Hs, Ho, Hm, Hc, Hd.
  { simplify_eq. constructor. }
  apply andb_prop in Hs as [Hs1 Hs2]. destruct (forallb _ es) eqn:Hlab; [|done].
  destruct (ordered_fields us options _ _ items D) as [D1|] eqn:Ho1; [|done]. cbn in Ho.
  destruct_Ret Hm. injection Hm as <-. destruct (translate_all us es) as [ls| | |] eqn:Els; try done.
  cbn [mbind outcome_bind] in Hc, Hd. destruct_Ret Hc. injection Hc as <- <-. destruct_Ret Hd. injection Hd as <- <-.
  assert (Hin1 : a ⊆ ms) by (clear -Hin; set_solver).
  assert (Hin2 : a0 ⊆ ms) by (clear -Hin; set_solver).
  rename E1 into Ec, E2 into Ec', E3 into Ed, E4 into Ed'.
  destruct (parse_fields_shape us ut options C ms tms items (Forall_true _ items (λ f, shape f)) g _ _ a
    Hg Hs1 E Hin1 Ec) as [Hgs _].
  pose proof (out_fields_grows us ut options items _ _ _ (Forall_true _ items (visit_field_out_grows us ut options))
    Hh Ed) as Hgr.
  destruct (visit_cases_shape us ut options C ms tms l (Forall_true _ l any_case_shape) _ _ _ _
    (gs_wf _ _ _ Hgs) Hs2 E0 Hin2 Ec') as [[_ _ Hpre _ _] _].
  destruct (out_cases_grows us ut options l _ _ _ (Forall_true _ l any_case_grows) (proj1 Hgr) Ed') as [_ Hpre'].
  apply (case_trips_cons _ _ _ _ _ _ _ _ D1).
  - by eapply translate_reads.
  - eapply (fields_trip items Hf D D1 a _ _ _ _ _ _ Hg Hh Hs1 Ho1 E Hin1 Ec Ed); by (etrans; [eassumption|]).
  - by eapply (IH D0 D1 D' a0 _ _ _ _ _ _ (gs_wf _ _ _ Hgs) (proj1 Hgr) Hs2 Ho eq_refl Hin2 Ec' Ed').
Qed.

Lemma field_trip f : field_trips f.
Proof using H Hes Hms Hmem Htms Htmp Hstmp.
  apply (field_nested_ind field_trips case_fields_trips); [|done].
  intros b fb k IH D D' fm g c g' h d h' Hg Hh Hs Ho Hm Hin Hc Hd Hp Hp'.
  destruct k as [| | | | |e cases| |].
  1: exact (atomic_trip D D' b fm g c g' h d h' Hg Hh Hs Ho Hm Hin Hc Hd Hp Hp').
  5: { destruct e as [e|]; [|cbn in Ho, Hc, Hd; simplify_eq; apply trip_nil].
       rewrite visit_switch in Hc. rewrite visit_switch_out in Hd.
       change (ordered_f (mkField b fb (FSwitch (Some e) cases)) D) with
         (if expr_reads_from us D e then ordered_cases us options (c_enums C) (c_members C) D cases D else None) in Ho.
       destruct (expr_reads_from us D e) eqn:Hr; [|done]. unfold expr_reads_from in Hr.
       destruct (expression_text us e) as [s| | |]; try done. cbn [mbind outcome_bind] in Hc, Hd.
       destruct_Ret Hc. injection Hc as <- <-. destruct_Ret Hd. injection Hd as <- <-.
       apply (trip_switch C K F G u size A H); [by apply reads_from_in|].
       by eapply (cases_trip cases IH D D D' fm _ _ _ _ _ _ Hg Hh Hs Ho Hm Hin). }
  all: cbn in Ho, Hc, Hd; simplify_eq; apply trip_nil.
Qed.

(** ** The lengths the serializer updates *)

Lemma scalar_int_size es t T : scalar_type es t = Some (CInt T) → (sizeof T ≤ 8)%nat.
Proof using Type.
  unfold scalar_type. destruct (assoc t builtin_types) as [c|] eqn:E; [|by destruct (assoc t es)].
  intros [= ->]. cbn [assoc builtin_types] in E.
  repeat (case_match; [first [injection E as <-; cbn; lia|done]|]); done.
Qed.

(** The lines change nothing but [serialize_src]. *)
Definition settled (D : list string) (s : pmach) (ls : list scode) : Prop :=
  ∀ t, s_unit t = u → holds C u size D s t → ∃ p, emit_list K ls t = Ret (SNext (set_src p t)).

Lemma settled_nil D s : settled D s [].
Proof using Type. intros t _ _. exists (s_src t). by destruct t. Qed.

Lemma settled_app D s ls ls' : settled D s ls → settled D s ls' → settled D s (ls ++ ls').
Proof using Type.
  intros H1 H2 t Hu Ht. rewrite emit_list_app. destruct (H1 t Hu Ht) as [p ->].
  destruct (H2 (set_src p t) Hu Ht) as [p' Hp]. exists p'. exact Hp.
Qed.

Lemma settled_later D D' s s' ls :
  D ⊆ D' → stepped C u size A D s s' → settled D s ls → settled D' s' ls.
Proof using Type. intros HD Hst Hs t Hu Ht. apply Hs; [done|]. by eapply holds_back. Qed.

(** A value that went from a member to a length goes back unchanged. *)
Lemma length_back T bs :
  (sizeof T ≤ 8)%nat → length bs = sizeof T →
  le_encode (sizeof T) (uwrap (width T) (convert T (convert uint64_t (convert T (le_decode bs))))) = bs.
Proof using Type.
  intros HT Hl. rewrite uwrap_convert by (unfold width; lia).
  rewrite (uwrap_convert (width T) uint64_t) by (unfold width; cbn; lia).
  rewrite uwrap_convert by (unfold width; lia). unfold width. rewrite <- Hl, uwrap_decode.
  apply le_encode_decode.
Qed.

Lemma length_settled D cu cu' f kd e ns x T s s1 :
  container C f → len_offset kd = 0 → text_reads e = Some ns → ns ⊆ D → f ∉ D →
  read_cpp e = Some x → int_typed (c_enums C) (c_members C) x = Some T → is_member x = true →
  inv C u size A s →
  exec_list C [Line (PDestField cu f); Line (PSetLen kd e); Line (PAllocateCopy kd); Line PCheck] s =
    Ret (Next s1) →
  settled (f :: D) s1 [Line (SSrcField cu' f); Line (SSetLength e)].
Proof using H.
  intros Hcont Hlo Hr Hns Hnew Hx HT Hm Hi He t Hu Ht. rewrite dest_field_run in He.
  destruct (assoc f (c_members C)) as [[o ty]|] eqn:Ef; [|done]. pose proof (Hcont _ _ Ef) as Hty.
  pose proof Hi as (Hus & _). rewrite Hus in He.
  destruct (bytes_parsed C K F G u size A H kd e ns f o ty s s1 Hr Hlo Hi Ef Hty He)
    as (c & v & len & Hev & Him & Hcp & Hag). destruct Hcp as [Hi' Hlen Hpos Hnext Hrl _ _].
  assert (Hst : stepped C u size A D s s1) by (eapply (stepped_touch C K F G u size A H f); [done..|lia|lia|done]).
  assert (Hh : holds C u size D s t) by (eapply holds_back; [|exact Hst|exact Ht]; intros z Hz; by right).
  destruct x as [| | | | | | |[] g| | | | |]; try done. unfold text_reads in Hr. rewrite Hx in Hr.
  cbn in Hr. injection Hr as <-. unfold eval_text in Hev. rewrite Hx in Hev. unfold int_typed in HT.
  cbn [some_or_ill mbind outcome_bind typeof eval lvalue] in Hev, HT.
  destruct (member (c_enums C) (c_members C) g) as [[og cg]| | |] eqn:Eg; try done.
  cbn [mbind outcome_bind] in Hev, HT. destruct cg; try done. injection HT as ->.
  destruct (member_scalar C g og (CInt T) Eg) as (gt & Hg & Hgt & _). pose proof (scalar_int_size _ _ _ Hgt) as HT8.
  unfold read in Hev. cbn [rep] in Hev.
  destruct (load_bytes (sizeof T) (p_mem s) (u + og)) as [bs|] eqn:El; [|done].
  injection Hev as <- <-. injection Him as <-.
  exists (u + o). rewrite (src_field_run C K F G u size A H), Ef, emit_one, Hu.
  cbn [emit_code emit_line s_mem s_src set_src s_unit s_dollar]. rewrite Hx.
  cbn [some_or_ill mbind outcome_bind lvalue]. rewrite (tr_enums _ _ _ _ _ _ _ H), (tr_members _ _ _ _ _ _ _ H), Eg.
  cbn [mbind outcome_bind]. change (len_offset "var_bytes") with 0. rewrite Z.add_0_r.
  rewrite (holds_read C u size (f :: D) s1 t uint64_t (u + o)) by
    (done || (rewrite <- (Z.add_0_r (u + o)); eapply container_keep; [done..|by left|done|done])).
  rewrite Hrl, Hu. cbn [mbind outcome_bind implicit cast rep]. rewrite write_again.
  - by destruct t.
  - rewrite (holds_load C u size D s t) with (1 := Hh).
    + rewrite El. cbn [cast rep]. by rewrite length_back by (done || by eapply length_load).
    + intros a Ha. left. exists g. split; [apply Hns; by left|]. by eapply (scalar_slot C u g og gt (CInt T)).
Qed.

(** [updateLengthForField] of an atomic field. *)
Lemma atomic_settled D D1 b fb fm g c g' ls s s1 :
  supported_atomic us options b = true →
  ordered_atomic us options (c_enums C) (c_members C) b D = Some D1 →
  addSingleUnitField us options b true = Ret fm → fm ⊆ ms →
  visit_AtomicType us ut options b g = Ret (c, g') →
  updateLengthForField us ut (mkField b fb FAtomicType) = Ret ls →
  inv C u size A s → exec_list C c s = Ret (Next s1) → settled D1 s1 ls.
Proof using H Hms Hmem.
  intros Hs Ho Hfm Hin Hc Hl Hi He. cbn [updateLengthForField] in Hl.
  destruct (is_byte_type (serialized_type b) && app_accessible b) eqn:Hb; [|injection Hl as <-; apply settled_nil].
  apply andb_prop in Hb as [Hb Hacc].
  destruct (attr_lookup "length" (attributes_ b)) as [a|] eqn:Ha; [|injection Hl as <-; apply settled_nil].
  destruct (attr_value a) as [e|] eqn:Hv; [|injection Hl as <-; apply settled_nil].
  destruct (assigned e) eqn:Has.
  2: { assert (ls = []) as ->; [|apply settled_nil].
       destruct e as [sc []]; try (by injection Hl).
       match goal with k : op_kind |- _ => by destruct k; try injection Hl end. }
  assert (∃ s0 cu f, expression_text us e = Ret s0 ∧ exprCurrentUnit ut = Ret cu ∧ name (item_id b) = Ret f ∧
    ls = [Line (SSrcField cu (unitFieldName f)); Line (SSetLength s0)]) as (tx & cu & f & Htx & Hcu & Hf & ->).
  { destruct e as [sc []]; try done. match goal with k : op_kind |- _ => destruct k; try done end. destruct_Ret Hl. injection Hl as <-. by eexists _, _, _. }
  clear Hl. unfold visit_AtomicType in Hc. unfold ordered_atomic in Ho. unfold serialized_type_of_item in Hc.
  destruct (serialized_type b) as [st|] eqn:Hst; [|done]. cbn [mbind outcome_bind] in Hc.
  destruct (ordered_type us options _ _ D b st) eqn:Hot; [|done].
  destruct (add_name_new b D D1 f Ho Hf) as [-> Hnew].
  unfold supported_atomic in Hs. rewrite !andb_true_iff in Hs. destruct Hs as [[[_ _] Hpo] Ht].
  rewrite Hst in Ht. cbn in Hb, Ht. destruct (transformed b).
  { apply andb_prop in Ht as [Hint _]. by destruct (kind st). }
  assert (Hit : item_type b = Some st).
  { unfold serialized_type in Hst. unfold has_serialized_type in Ht. by destruct (serialized_type_ b). }
  rewrite Hcu, Hf, Hacc in Hc. cbn [mbind outcome_bind negb andb] in Hc.
  assert (He' : attr_expr a = Ret e) by (unfold attr_expr; by rewrite Hv).
  assert (Hcont : container C (unitFieldName f)).
  { eapply (field_container us options C ms Hms Hmem b fm st); try done.
    destruct (kind st); try done; auto. }
  unfold ordered_type in Hot. rewrite Hacc in Hot. unfold parse_type in Hc.
  destruct (kind st); try done; unfold visit_type_Bytes, visit_type_String in Hc; rewrite Ha, He' in Hc;
    cbn [mbind outcome_bind] in Hc; rewrite Htx in Hc; injection Hc as <- <-; cbn [negb andb] in Hot, He;
    destruct (ordered_length_text _ _ _ _ _ _ Hot Ha He' Htx) as (ns & Hr & Hns & _ & x & T & Hx & HT & Hm).
  - by eapply (length_settled D cu cu (unitFieldName f) "var_bytes" tx ns x T s); auto.
  - by eapply (length_settled D cu cu (unitFieldName f) "var_string" tx ns x T s); auto.
Qed.

Lemma serialize_fields_grows l h d h' :
  gen_wf h → serialize_fields us ut options l h = Ret (d, h') → grows h h'.
Proof using Type.
  revert h d h'. induction l as [|i l IH]; intros h d h' Hh Hd; cbn [serialize_fields] in Hd.
  { injection Hd as <- <-. by apply grows_refl. }
  destruct i as [| |f]; [by eapply IH..|]. destruct_Ret Hd. injection Hd as <- <-.
  match goal with E : serialize_item _ _ _ _ = _ |- _ =>
    apply serialize_item_grows in E; [|done|apply visit_field_out_grows] end.
  eapply grows_trans; [done|]. eapply IH; [|done]. by match goal with E : grows h _ |- _ => apply E end.
Qed.

(** The code of the two generators for some items, and the lengths that are updated for them. *)
Definition items_trips (D D' : list string) (c : list pcode) (d ls : list scode) : Prop :=
  trips D D' c d ∧
  ∀ s s', inv C u size A s → exec_list C c s = Ret (Next s') → settled D' s' ls.

Lemma items_trips_app D D1 D' c c' d d' ls ls' :
  items_trips D D1 c d ls → items_trips D1 D' c' d' ls' →
  items_trips D D' (c ++ c') (d ++ d') (ls ++ ls').
Proof using H.
  intros [H1 S1] [H2 S2]. split; [by eapply (trip_app C K F G u size A H)|].
  intros s s' Hi He. rewrite exec_list_app in He.
  destruct (exec_list C c s) as [[s1|r s1]| | |] eqn:E1; try done. cbn in He.
  destruct (proj2 H1 s s1 Hi E1) as [St1 _].
  destruct (proj2 H2 s1 s' (st_inv _ _ _ _ _ _ _ St1) He) as [St2 _].
  apply settled_app; [|by eapply S2; [apply St1|]].
  eapply settled_later; [apply H2|exact St2|by eapply S1].
Qed.

Lemma parse_item_block b visit g c g' :
  parse_item ut b visit g = Ret (c, g') →
  ∃ l body g1, c = [Block (Line (PLabel l) :: Line (PAdvanceTo l) :: body)] ∧ visit g1 = Ret (body, g').
Proof using Type.
  unfold parse_item. intros Hc. destruct_Ret Hc. cbn in Hc. destruct_Ret Hc. injection Hc as <- <-.
  by eexists _, _, _.
Qed.

Lemma field_item_trips D D' f fm g c g' h d h' ls :
  gen_wf g → gen_wf h → supported_field us options f = true → keeps_length f = true →
  ordered_f f D = Some D' → field_members us options f = Ret fm → fm ⊆ ms →
  parse_item ut (fbase f) (visit_field us ut options f) g = Ret (c, g') →
  serialize_item ut (fbase f) (visit_field_out us ut options f) h = Ret (d, h') →
  updateLengthForField us ut f = Ret ls →
  temp_vars_ g' `prefix_of` tms → temp_vars_ h' `prefix_of` stms → items_trips D D' c d ls.
Proof using H Hes Hms Hmem Htms Htmp Hstmp.
  intros Hg Hh Hs Hkl Ho Hm Hin Hc Hd Hl Hp Hp'. split.
  { eapply item_trip; [|exact Hg|exact Hh|exact Hc|exact Hd]. intros ? ? ? ? Hw Hw' Hv Hv'.
    exact (field_trip f _ _ _ _ _ _ _ _ _ Hw Hw' Hs Ho Hm Hin Hv Hv' Hp Hp'). }
  intros s s' Hi He. apply parse_item_block in Hc as (l & body & g1 & -> & Hv).
  rewrite exec_one, exec_block in He. destruct f as [b fb k].
  destruct k; [by eapply (atomic_settled D D' b fb fm g1 body g' ls (adv C l s))|..].
  all: cbn in Hl; assert (ls = []) as ->; [|apply settled_nil].
  all: unfold keeps_length, has_attr in Hkl; destruct (is_byte_type _); [|by injection Hl].
  all: destruct (app_accessible b); [|by injection Hl].
  all: destruct (attr_lookup "length" _); [done|by injection Hl].
Qed.

Lemma variable_item_trips D D' b df g c g' :
  ordered_variable us b df D = Some D' →
  parse_item ut b (visit_parsed_item us ut options (IVariable b df)) g = Ret (c, g') →
  items_trips D D' c [] [].
Proof using H.
  intros Ho Hc. unfold parse_item in Hc. unfold ordered_variable in Ho.
  destruct (unit_id_name ut) as [un| | |]; try done. cbn [mbind outcome_bind] in Hc.
  destruct (name (item_id b)) as [n| | |] eqn:Hn; try done. cbn in Hc. destruct_Ret Hc.
  destruct_Ret E. injection E as <- <-. injection Hc as <- <-.
  destruct (pure_expr us _) eqn:Hpe; [|done]. destruct (add_name_new b D D' n Ho Hn) as [-> Hnew].
  split; [|intros; apply settled_nil]. apply (trip_variable C K F G u size A H); [done|].
  unfold visit_Variable in E0. rewrite Hn in E0. unfold attr_expr in E0.
  destruct (attr_lookup "parse" (attributes_ b)) as [pa|].
  - right. destruct_Ret E0. injection E0 as <-. destruct (attr_value pa) as [e|]; [|done].
    simplify_eq. cbn in Hpe. rewrite E2 in Hpe. by eexists _, _.
  - destruct df as [e|]; [|left; by injection E0]. right. destruct_Ret E0. injection E0 as <-.
    cbn in Hpe. rewrite E1 in Hpe. by eexists _, _.
Qed.

Lemma variable_item_wf b df g c g' :
  gen_wf g → parse_item ut b (visit_parsed_item us ut options (IVariable b df)) g = Ret (c, g') → gen_wf g'.
Proof using Type.
  intros Hg Hc. unfold parse_item in Hc. destruct_Ret Hc. cbn in Hc. destruct_Ret Hc. injection Hc as <- <-.
  match goal with E : mbind _ (visit_Variable _ _ _ _) = _ |- _ => destruct_Ret E; injection E as <- <- end.
  destruct Hg. split; cbn; try done; lia.
Qed.

(** The items of a unit. *)
Lemma items_trip l :
  ∀ D D' fm g c g' h d h' ls, gen_wf g → gen_wf h → supported us options l = true →
  ordered us options (c_enums C) (c_members C) l D = Some D' →
  unit_members us options l = Ret fm → fm ⊆ ms →
  parse_items us ut options l g = Ret (c, g') → serialize_fields us ut options l h = Ret (d, h') →
  update_lengths us ut l = Ret ls →
  temp_vars_ g' `prefix_of` tms → temp_vars_ h' `prefix_of` stms → items_trips D D' c d ls.
Proof using H Hes Hms Hmem Htms Htmp Hstmp.
  induction l as [|i l IH]; intros D D' fm g c g' h d h' ls Hg Hh Hs Ho Hm Hin Hc Hd Hl Hp Hp';
    cbn in Hs, Ho, Hm, Hd, Hl.
  { cbn in Hc. simplify_eq. split; [apply trip_nil|]. intros. apply settled_nil. }
  destruct i as [b df|b pr|f]; cbn in Hc.
  - destruct (ordered_variable us b df D) as [D1|] eqn:Ho1; [|done]. cbn in Ho.
    destruct_Ret Hm. injection Hm as <-. destruct_Ret Hc. injection Hc as <- <-.
    rename E1 into Ec, E2 into Ec'.
    assert (Hin2 : a0 ⊆ ms) by (clear -Hin; set_solver).
    assert (Hgs : gen_wf g0) by exact (variable_item_wf b df g _ _ Hg Ec).
    apply (items_trips_app D D1 D' _ _ [] d [] ls); [exact (variable_item_trips D D1 b df g _ _ Ho1 Ec)|].
    by eapply (IH _ _ _ _ _ _ _ _ _ _ Hgs Hh Hs Ho eq_refl Hin2 Ec').
  - by eapply (IH _ _ _ _ _ _ _ _ _ _ Hg Hh Hs Ho Hm Hin Hc).
  - apply andb_prop in Hs as [Hs1 Hs2]. destruct (keeps_length f) eqn:Hkl; [|done].
    destruct (ordered_f f D) as [D1|] eqn:Ho1; [|done]. cbn in Ho.
    destruct_Ret Hm. injection Hm as <-. destruct_Ret Hc. injection Hc as <- <-.
    destruct_Ret Hd. injection Hd as <- <-. destruct_Ret Hl. injection Hl as <-.
    rename E1 into Ec, E2 into Ec', E3 into Ed, E4 into Ed'.
    assert (Hin1 : a ⊆ ms) by (clear -Hin; set_solver).
    assert (Hin2 : a0 ⊆ ms) by (clear -Hin; set_solver).
    destruct (parse_item_shape ut C tms _ _ _ _ _ Hg
      (λ g c g' Hg Hv, shape f g c g' _ Hg Hs1 E Hin1 Hv) Ec) as [Hgs _].
    pose proof (serialize_item_grows ut _ _ _ _ _ Hh (visit_field_out_grows us ut options f) Ed) as Hgr.
    destruct (parse_items_shape us ut options C ms tms Hes Hms Hmem Htms Htmp l _ _ _ _
      (gs_wf _ _ _ Hgs) Hs2 E0 Hin2 Ec') as [[_ _ Hpre _ _] _].
    destruct (serialize_fields_grows l _ _ _ (proj1 Hgr) Ed') as [_ Hpre'].
    apply (items_trips_app D D1 D').
    + eapply (field_item_trips D D1 f a g _ _ h _ _ _ Hg Hh Hs1 Hkl Ho1 E Hin1 Ec Ed); [done|..];
        by (etrans; [eassumption|]).
    + by eapply (IH _ _ _ _ _ _ _ _ _ _ (gs_wf _ _ _ Hgs) (proj1 Hgr) Hs2 Ho eq_refl Hin2 Ec' Ed').
Qed.

End GeneratedTrip.

(** ** Compiled serializers *)

(** What the C++ compiler makes of a serialize function: its code, the members of the unit class
    and the temporaries in the frame of a call. *)
Record compiled_out := mkCompiledOut {
  z_body : list scode;
  z_members : list (string * (Z * string));
  z_temps : list (string * (Z * string));
  z_frame_end : Z }.

Definition compile_out (us : units) (u : unit_type) (options : Options) (es : enums) (frame : Z)
    (g : gstate) : outcome compiled_out :=
  '(p, _, _) ← run_serializer us u options g;
  ms ← unit_members us options (unit_items u);
  if bool_decide (NoDup ms.*1) then
    '(members, _) ← some_or_ill (layout es ms 0);
    '(tmps, frame_end) ← some_or_ill (layout es (s_temps p) frame);
    Ret (mkCompiledOut (s_body p) members tmps frame_end)
  else ill_formed.

Definition out_context (es : enums) (z : compiled_out) (label : string → Z) (start e : Z) : scontext :=
  mkSContext es (z_members z) (z_temps z) label start e.

Lemma variables_wf us ut l h1 vs h2 :
  gen_wf h1 → serialize_variables us ut l h1 = Ret (vs, h2) → gen_wf h2.
Proof.
  revert h1 vs. induction l as [|i l IH]; intros h1 vs Hh1 Hv; cbn in Hv; [by simplify_eq|].
  destruct i; [|by eapply IH..]. destruct_Ret Hv. injection Hv as <- <-.
  eapply IH; [|done]. by apply reset_wf.
Qed.

Lemma compile_out_parts us ut options es frame h z :
  compile_out us ut options es frame h = Ret z → gen_wf h →
  ∃ ls h1 vs h2 fs h3 ms e, update_lengths us ut (unit_items ut) = Ret ls ∧ gen_wf h1 ∧
    serialize_variables us ut (unit_items ut) h1 = Ret (vs, h2) ∧ gen_wf h2 ∧
    serialize_fields us ut options (unit_items ut) h2 = Ret (fs, h3) ∧
    z_body z = ls ++ Line SBlank :: vs ++ Line SBlank :: fs ∧
    unit_members us options (unit_items ut) = Ret ms ∧ NoDup ms.*1 ∧
    layout es ms 0 = Some (z_members z, e) ∧ layout es (temp_vars_ h3) frame = Some (z_temps z, z_frame_end z).
Proof.
  intros Hz Hh. unfold compile_out in Hz. destruct (run_serializer us ut options h) as [[[p2 ok2] h']| | |] eqn:Er; try done.
  cbn [mbind outcome_bind] in Hz. destruct (unit_members us options (unit_items ut)) as [ms| | |]; try done.
  cbn [mbind outcome_bind] in Hz. case_bool_decide as Hn; [|done].
  destruct (layout es ms 0) as [[members e]|] eqn:Elay; [|done]. cbn [some_or_ill mbind outcome_bind] in Hz.
  destruct (layout es (s_temps p2) frame) as [[tmps fe]|] eqn:El; [|done].
  cbn [some_or_ill mbind outcome_bind] in Hz. injection Hz as <-. cbn.
  unfold run_serializer in Er. cbn in Er. destruct_Ret Er. injection Er as <- <- <-. cbn in El.
  match goal with
  | E : update_lengths _ _ _ = Ret ?ls, E1 : serialize_variables _ _ _ ?h1 = Ret (?vs, ?h2),
    E2 : serialize_fields _ _ _ _ _ = Ret (?fs, ?h3) |- _ =>
      assert (Hh1 : gen_wf h1) by (destruct Hh; split; cbn; try done; lia);
      pose proof (variables_wf _ _ _ _ _ _ Hh1 E1); exists ls, h1, vs, h2, fs, h3, ms, e
  end.
  by split_and!.
Qed.

(** The code of the variables, with the values that parsing gave them, changes nothing but
    [dollar]: the [&serialize] expressions undo the [&parse] expressions. *)
Definition variables_settled (us : units) (u : unit_type) (K : scontext) (t : smach) : Prop :=
  ∀ g vs g' p, serialize_variables us u (unit_items u) g = Ret (vs, g') →
    ∃ d, emit_list K vs (set_src p t) =
           Ret (SNext (mkS (s_mem t) (s_state t) (s_unit t) p d (s_res t))).

(** What the calls need of memory: the input, the area, the output and the frame of the serializer
    do not overlap, and neither do the entries of the two stacks with what is still needed. *)
Record out_env (z : compiled_out) (frame start emax out out_end : Z) (area : UnitArea.UnitArea)
    (st st2 : ParserState.ParserState) : Prop := {
  oe_area a :
    UnitArea.contents area ≤ a < UnitArea.contents area + UnitArea.size_ area →
    ¬ start ≤ a < emax ∧ ¬ frame ≤ a < z_frame_end z ∧ ¬ out ≤ a < out_end ∧
    ¬ ParserState.stack_top_ st2 ≤ a < ParserState.stack_top_ st2 + 8;
  oe_input a :
    start ≤ a < emax →
    ¬ frame ≤ a < z_frame_end z ∧ ¬ out ≤ a < out_end ∧
    ¬ ParserState.stack_top_ st ≤ a < ParserState.stack_top_ st + 8 ∧
    ¬ ParserState.stack_top_ st2 ≤ a < ParserState.stack_top_ st2 + 8;
  oe_output a : out ≤ a < out_end → ¬ frame ≤ a < z_frame_end z;
  oe_addresses : 0 ≤ start ∧ emax < 2 ^ 64 ∧ 0 ≤ out ∧ out_end < 2 ^ 64;
  oe_length : 0 ≤ out_end - out < 2 ^ 63;
  oe_new : ParserState.instruction st2 = 0 }.

(** Every variable of a layout has an address. *)
Lemma layout_assoc lay_es vars pos l e n t :
  layout lay_es vars pos = Some (l, e) → NoDup vars.*1 → (n, t) ∈ vars → ∃ q, assoc n l = Some (q, t).
Proof.
  revert pos l. induction vars as [|[n' t'] vars IH]; intros pos l Hl Hn Hin; [by apply not_elem_of_nil in Hin|].
  cbn in Hl, Hn. apply list.NoDup_cons in Hn as [Hn1 Hn2].
  destruct (size_align lay_es t') as [[sz al]|]; [|done]. cbn in Hl.
  destruct (layout lay_es vars _) as [[l' e']|] eqn:E; [|done]. cbn in Hl. injection Hl as <- <-. cbn [assoc].
  apply elem_of_cons in Hin as [[= -> ->]|Hin]; [rewrite String.eqb_refl; by eexists|].
  destruct (String.eqb_spec n n') as [->|_]; [|by eapply IH].
  exfalso. apply Hn1, list_elem_of_fmap. by exists (n', t).
Qed.

Section Calls.
  Context (us : units) (ut : unit_type) (options : Options) (es : enums) (frame frame2 : Z) (g h : gstate).
  Context (k : compiled) (Hk : compile us ut options es frame g = Ret k).
  Context (z : compiled_out) (Hz : compile_out us ut options es frame2 h = Ret z).
  Context (Hg : gen_wf g) (Hh : gen_wf h) (Hs : supported us options (unit_items ut) = true).
  Context (D : list string) (Hord : ordered us options es (k_members k) (unit_items ut) [] = Some D).
  Context (Hes : ∀ t, t ∈ container_types → assoc t es = None).
  Context (label label2 : string → Z) (Hinj : Inj eq eq label) (Hnz : ∀ l, label l ≠ 0).
  Context (start emax : Z) (area : UnitArea.UnitArea) (st : ParserState.ParserState).
  Context (Henv : call_env k frame start emax area st).
  Context (out out_end : Z) (st2 : ParserState.ParserState).
  Context (Hout : out_env z frame2 start emax out out_end area st st2).

Definition frame_out (a : Z) : Prop := frame2 ≤ a < z_frame_end z.

Lemma compile_out_inv :
  ∃ ls h1 vs h2 fs h3, update_lengths us ut (unit_items ut) = Ret ls ∧
    serialize_variables us ut (unit_items ut) h1 = Ret (vs, h2) ∧ gen_wf h2 ∧
    serialize_fields us ut options (unit_items ut) h2 = Ret (fs, h3) ∧
    z_body z = ls ++ Line SBlank :: vs ++ Line SBlank :: fs ∧ z_members z = k_members k ∧
    layout es (temp_vars_ h3) frame2 = Some (z_temps z, z_frame_end z).
Proof using Hk Hz Hh.
  clear Hout. destruct (compile_inv _ _ _ _ _ _ _ Hk) as (p & ok & g' & ms & e & _ & Hms & _ & Hlay & _).
  destruct (compile_out_parts _ _ _ _ _ _ _ Hz Hh)
    as (ls & h1 & vs & h2 & fs & h3 & ms' & e' & Hls & _ & Hvs & Hh2 & Hfs & Hb & Hms' & _ & Hlay' & Ht).
  exists ls, h1, vs, h2, fs, h3. split_and!; try done. congruence.
Qed.

(** The two calls as a [setting]. *)
Lemma calls_setting e a :
  start ≤ e ≤ emax → UnitArea.allocate_item (k_size k) area = Some (UnitArea.nextPos area, a) →
  setting (with_end e (call_context es k label start)) (out_context es z label2 out out_end)
    (frame_of frame k) frame_out (UnitArea.nextPos area) (k_size k) area.
Proof using Hk Hz Hh Hes Hinj Hnz Henv Hout.
  intros He Ha. pose proof (compiled_fresh _ _ _ _ _ _ _ Hk Hes label Hinj Hnz _ _ _ _ Henv) as Hfr.
  pose proof (fresh_ok_less (call_context es k label start) _ _ _ _ e emax He Hfr) as Hfe.
  destruct compile_out_inv as (ls & h1 & vs & h2 & fs & h3 & _ & _ & _ & _ & _ & Hmem & Hlay).
  destruct (layout_spec _ _ _ _ _ Hlay) as [_ Hts].
  pose proof (unit_facts (call_context es k label start) _ _ _ _ e Hfe a _ Ha) as (_ & _ & _ & Hu1 & Hu2).
  destruct Hout as [Oa Oi Oo Oadr Olen _]. split; try done.
  - by apply (call_ok2 (call_context es k label start) _ _ area st e Hfe a).
  - apply (f_members _ _ _ _ _ Hfe).
  - split_and!; [done|apply (f_size _ _ _ _ _ Hfe)|done].
  - apply (f_temps _ _ _ _ _ Hfe).
  - intros tmp q t sz al Hq Hsz x Hx. cbn in Hq. destruct (Hts tmp q t Hq) as [_ Hb].
    specialize (Hb _ _ Hsz). unfold frame_out. lia.
  - intros x Hx. unfold in_contents, area_end in Hx. split.
    + apply (f_locals _ _ _ _ _ Hfe). lia.
    + destruct (Oa x ltac:(lia)) as [Hi _]. unfold in_input. cbn. lia.
  - intros x [Hx|Hx]; unfold in_contents, area_end, in_input, in_output, frame_out in *; cbn in *.
    + destruct (Oa x ltac:(lia)) as (_ & H1 & H2 & _). by split.
    + destruct (Oi x ltac:(lia)) as (H1 & H2 & _). by split.
  - cbn. lia.
  - cbn. lia.
Qed.

(** The body of the parser and the two parts of the serializer. *)
Lemma compiled_trip e a :
  start ≤ e ≤ emax → UnitArea.allocate_item (k_size k) area = Some (UnitArea.nextPos area, a) →
  ∃ ls h1 vs h2 fs, serialize_variables us ut (unit_items ut) h1 = Ret (vs, h2) ∧
    z_body z = ls ++ Line SBlank :: vs ++ Line SBlank :: fs ∧
    items_trips (with_end e (call_context es k label start)) (out_context es z label2 out out_end)
      frame_out (UnitArea.nextPos area) (k_size k) area [] D (k_body k) fs ls.
Proof using Hk Hz Hg Hh Hs Hord Hes Hinj Hnz Henv Hout.
  intros He Ha. pose proof (calls_setting e a He Ha) as H.
  destruct (compile_inv _ _ _ _ _ _ _ Hk) as (p & ok & g' & ms & e0 & Hp & Hms & Hn & Hlay & _ & Htl & Hb).
  destruct compile_out_inv as (ls & h1 & vs & h2 & fs & h3 & Hls & Hvs & Hh2 & Hfs & Hbody & Hmem & Hlay2).
  exists ls, h1, vs, h2, fs. split_and!; [done..|].
  destruct (layout_spec _ _ _ _ _ Hlay) as [_ Hml]. destruct (layout_spec _ _ _ _ _ Htl) as [_ Html].
  destruct (run_parser_temps _ _ _ _ _ _ _ _ Hg Hs Hms Hn Hp) as [_ Hnt].
  destruct (serialize_fields_grows us ut options _ _ _ _ Hh2 Hfs) as [Hh3 _].
  unfold run_parser in Hp. cbn in Hp. destruct_Ret Hp. injection Hp as <- <- <-. cbn in Htl, Hb, Hnt, Html.
  rewrite Hb. refine (items_trip us ut options _ _ _ _ _ _ _ H ms (temp_vars_ g0) (temp_vars_ h3)
    _ Hn _ Hnt _ _ (unit_items ut) [] D ms _ _ _ _ _ _ _ _ Hh2 Hs Hord Hms _ E Hfs Hls _ _); try done.
  - intros f o t Hf. by apply (Hml f o t).
  - intros n q t Hq. by apply (Html n q t).
  - intros n t Hin. eapply layout_assoc; [exact Hlay2|apply Hh3|exact Hin].
  - destruct Hg; split; cbn; try done; lia.
Qed.

Abbreviation PC e := (with_end e (call_context es k label start)).
Abbreviation SC := (out_context es z label2 out out_end).
Abbreviation unit_at := (UnitArea.nextPos area).

(** A first call that is done ran through its whole body. *)
Lemma done_call e m r :
  start ≤ e ≤ emax → parse_call (PC e) (k_body k) (k_size k) m area st = Ret r →
  r_result r = Parsing.DONE →
  ∃ a s s', UnitArea.allocate_item (k_size k) area = Some (unit_at, a) ∧
    inv (PC e) unit_at (k_size k) area s ∧ pos_of s = start ∧
    (∀ x, start ≤ x < emax → p_mem s !! x = m !! x) ∧
    exec_list (PC e) (k_body k) s = Ret (Next s') ∧
    p_mem s' = r_mem r ∧ r_bytes r = Some (pos_of s' - start).
Proof using Hk Hg Hs Hes Hinj Hnz Henv Hout.
  intros He Hc Hd. pose proof (compiled_fresh _ _ _ _ _ _ _ Hk Hes label Hinj Hnz _ _ _ _ Henv) as Hfr.
  pose proof (fresh_ok_less (call_context es k label start) _ _ _ _ e emax He Hfr) as Hfe.
  rewrite (first_call (PC e) _ _ area st e Hfe _ (env_new _ _ _ _ _ _ Henv) (PC e)) in Hc by auto.
  destruct (ParserState.push_reserve 8 st) as [[q st1]| | |] eqn:Epush; try done. cbn [mbind outcome_bind] in Hc.
  destruct (UnitArea.allocate_item (k_size k) area) as [[u a]|] eqn:Ea; [|by injection Hc as <-].
  destruct (f_area _ _ _ _ _ Hfe) as [Hwf _].
  destruct (UnitAreaLemmas.allocate_wf _ _ _ _ (f_size _ _ _ _ _ Hfe) Hwf Ea) as (_ & Hth & Hsz & Hu & Hnx).
  change (UnitArea.nextAllocPos_ area) with unit_at in Hu. subst u.
  destruct (ParserState.peek 8 st1) as [p| | |] eqn:Ep; try done. cbn [mbind outcome_bind] in Hc.
  pose proof (push_peek st st1 q p Epush Ep) as ->.
  destruct (write uint64_t m _ unit_at) as [m1| | |] eqn:Ew; try done. cbn [mbind outcome_bind] in Hc.
  destruct (exec_list (PC e) (k_body k) _) as [[s'|rs s']| | |] eqn:Ex; try done; cbn in Hc; injection Hc as <-.
  2: { cbn in Hd. subst rs. destruct (compiled_shape _ _ _ _ _ _ _ Hk Hg Hs Hes label start e) as [Hsh _].
       destruct (exec_not_done (PC e)) as (_ & _ & Hn). by destruct (Hn _ Hsh _ _ Ex). }
  pose proof (unit_facts (call_context es k label start) _ _ _ _ e Hfe a _ Ea) as (Hsm & _).
  exists a, (first_state (PC e) m1 a st1 unit_at), s'.
  split; [done|split; [|split; [done|split; [|done]]]].
  - refine (conj eq_refl (conj (conj _ Hsm) (conj Hth (conj Hsz _)))).
    + unfold pos_of. cbn. lia.
    + unfold next. cbn. lia.
  - intros x Hx. cbn. symmetry. apply (write_agree_at _ _ _ _ _ Ew). cbn.
    destruct (oe_input _ _ _ _ _ _ _ _ _ Hout x Hx) as (_ & _ & Hst & _). exact Hst.
Qed.

Lemma start_inv m0 t :
  start_serializing SC m0 unit_at st2 = Ret t →
  s_unit t = unit_at ∧ out_pos t = out ∧
  agree (λ a, ParserState.stack_top_ st2 ≤ a < ParserState.stack_top_ st2 + 8) m0 (s_mem t).
Proof using Type.
  unfold start_serializing. intros Ht.
  destruct (ParserState.push_reserve 8 st2) as [[q st1]| | |] eqn:Epush; try done. cbn [mbind outcome_bind] in Ht.
  destruct (ParserState.peek 8 st1) as [p| | |] eqn:Ep; try done. cbn [mbind outcome_bind] in Ht.
  pose proof (push_peek st2 st1 q p Epush Ep) as ->.
  destruct (write uint64_t m0 _ unit_at) as [m1| | |] eqn:Ew; try done. injection Ht as <-.
  split_and!; [done..|]. exact (write_agree_at _ _ _ _ _ Ew).
Qed.

(** What the parser left is what the serializer finds. *)
Lemma start_holds e s' m0 t :
  start ≤ e ≤ emax → setting (PC e) SC (frame_of frame k) frame_out unit_at (k_size k) area →
  inv (PC e) unit_at (k_size k) area s' → agree (frame_of frame k) (p_mem s') m0 →
  start_serializing SC m0 unit_at st2 = Ret t →
  holds (PC e) unit_at (k_size k) D s' t.
Proof using Hout.
  intros He H Hi Hm Ht x Hx. destruct (start_inv m0 t Ht) as (_ & _ & [Hag _]).
  pose proof (keep_local (PC e) SC _ _ _ _ _ H D s' x Hi Hx) as Hloc.
  assert (Hst : ¬ ParserState.stack_top_ st2 ≤ x < ParserState.stack_top_ st2 + 8).
  { destruct Hloc as [Hc|Hin].
    - by destruct (oe_area _ _ _ _ _ _ _ _ _ Hout x Hc) as (_ & _ & _ & ?).
    - unfold in_input in Hin. cbn in Hin.
      by destruct (oe_input _ _ _ _ _ _ _ _ _ Hout x ltac:(lia)) as (_ & _ & _ & ?). }
  assert (HF : ¬ frame_of frame k x).
  { destruct Hloc as [Hc|Hin]; [by destruct (tr_area _ _ _ _ _ _ _ H x Hc)|].
    apply (ok_input _ _ _ (tr_ok _ _ _ _ _ _ _ H) x). unfold in_input in Hin. lia. }
  rewrite <- (Hag x Hst). symmetry. by apply Hm.
Qed.

Lemma call_inverts e m r m0 t n :
  start ≤ e ≤ emax → parse_call (PC e) (k_body k) (k_size k) m area st = Ret r →
  r_result r = Parsing.DONE → r_bytes r = Some n → agree (frame_of frame k) (r_mem r) m0 →
  start_serializing SC m0 unit_at st2 = Ret t → variables_settled us ut SC t →
  (∀ a, frame_out a ∨ out ≤ a < out_end ∨ start ≤ a < emax → is_Some (m0 !! a)) →
  n ≤ out_end - out →
  ∃ y, serialize_call SC (z_body z) m0 unit_at st2 = Ret y ∧ z_result y = Serializing.DONE ∧
    z_bytes y = Some n ∧ ∀ i, 0 ≤ i < n → z_mem y !! (out + i) = m !! (start + i).
Proof using Hk Hz Hg Hh Hs Hord Hes Hinj Hnz Henv Hout.
  intros He Hc Hd Hn Hm Ht Hvar Hmap Hle.
  destruct (done_call e m r He Hc Hd) as (a & s & s' & Ha & Hi & Hps & Hin & Hx & Hms & Hb).
  pose proof (calls_setting e a He Ha) as H.
  destruct (compiled_trip e a He Ha) as (ls & h1 & vs & h2 & fs & Hvs & Hbody & [[_ Htrip] Hset]).
  destruct (Htrip s s' Hi Hx) as [Hst Hemit]. rewrite Hn in Hb. injection Hb as Hb. rewrite <- Hms in Hm.
  pose proof (start_holds e s' m0 t He H (st_inv _ _ _ _ _ _ _ Hst) Hm Ht) as Hh0.
  destruct (start_inv m0 t Ht) as (Hu & Hpos & [_ Hdom]).
  destruct (Hset s s' Hi Hx t Hu Hh0) as [p Hls]. destruct (Hvar _ _ _ p Hvs) as [d Hvar'].
  pose proof (oe_length _ _ _ _ _ _ _ _ _ Hout) as Hol.
  destruct (Hemit (mkS (s_mem t) (s_state t) (s_unit t) p d (s_res t))) as (t' & Ht' & Hem).
  { split; [done|]. unfold out_pos in *. cbn. split; [lia|]. intros x Hx'. apply Hdom, Hmap.
    unfold in_output, in_input in Hx'. cbn in Hx'. naive_solver lia. }
  { exact Hh0. }
  { unfold out_pos in *. cbn. lia. }
  exists (mkSerialized Serializing.DONE (Some (out_pos t' - out)) (s_mem t') (s_state t')).
  destruct Hem as [_ Hp' _ Hby]. unfold out_pos in Hp', Hby, Hpos. cbn in Hp', Hby. rewrite Hpos in Hp', Hby.
  split.
  { rewrite serialize_start by apply Hout. rewrite Ht. cbn [mbind outcome_bind]. rewrite Hbody.
    rewrite emit_list_app, Hls. cbn [then_emit mbind outcome_bind emit_list emit_code emit_line].
    fold (emit_list SC). rewrite emit_list_app, Hvar'.
    cbn [then_emit mbind outcome_bind emit_list emit_code emit_line]. by rewrite Ht'. }
  cbn. split_and!; [done|unfold out_pos; f_equal; lia|]. intros i Hi'. rewrite Hby by lia. rewrite Hps.
  apply Hin. destruct (st_inv _ _ _ _ _ _ _ Hst) as (_ & [Hp2 _] & _). cbn in Hp2. lia.
Qed.

End Calls.

(** ** A message with a variable that is computed in both directions *)

Module Echo.
Import Incremental.Sample.

Definition dollar : expr :=
  new_expr (EParserState DOLLARDOLLAR None (Some (mkTy Ast.plain (TUnit 0))) (int_ty 32)).
Definition four : expr := new_expr (EConstant (CInteger 4 64 false)).
(** The items of [Sample.message]; the variable also says how the length follows from it. *)
Definition message : unit_type :=
  mkUnit []
    (take 4 (unit_items Sample.message) ++
     [IVariable (base_of "size" (int_ty 32) None
        [mkAttr "parse" (Some (new_expr (EOperator OpPlus [member_of_self "len"; four]))) false;
         mkAttr "serialize" (Some (new_expr (EOperator OpAttributeAssign
           [self; new_expr (EMemberAttribute (mkID ["len"])); new_expr (EOperator OpMinus [dollar; four])])))
           false]) None])
    false (Some (mkID ["Message"])) None.
Definition us : units := {[ 0%nat := message ]}.

Definition parser : compiled :=
  match compile us message options es frame newGenerator with
  | Ret k => k
  | _ => mkCompiled [] [] 0 [] 0
  end.
Definition frame2 : Z := 4100.
Definition serializer : compiled_out :=
  match compile_out us message options es frame2 newGenerator with
  | Ret z => z
  | _ => mkCompiledOut [] [] [] 0
  end.
Definition C : context := call_context es parser label 3000.
Definition K : scontext := out_context es serializer label 5000 5008.
Definition stack2 : ParserState.ParserState := ParserState.newParserState 1100 32.
Definition memory : mem :=
  list_to_map (zeros 1000 32 ++ zeros 1100 32 ++ zeros 2000 112 ++ zeros 4000 8 ++ zeros 4100 8 ++
               zeros 5000 8 ++ input bytes).

(** What the parser leaves, in three calls, and the first state of the serializer. *)
Definition parsed : call_result :=
  match parse_loop C (k_size parser) (k_body parser) scramble 3001 [3002; 3004; 3006] memory area stack with
  | Ret (r, _) => r
  | _ => mkCall Parsing.NEXT None ∅ area stack
  end.
Definition started : smach :=
  match start_serializing K (r_mem parsed) (UnitArea.nextPos area) stack2 with
  | Ret t => t
  | _ => mkS ∅ stack2 0 0 None Serializing.NEXT
  end.

Lemma call_env_ok : call_env parser frame 3000 3006 area stack.
Proof.
  split; change (k_frame_end parser) with 4001; unfold apart; try done.
  - intros a. unfold frame, area, UnitArea.contents, UnitArea.sizeof_this. cbn. lia.
  - intros a. unfold frame. lia.
  - intros a. unfold frame. cbn. lia.
  - intros a. unfold area, UnitArea.contents, UnitArea.sizeof_this. cbn. lia.
Qed.

Lemma out_env_ok : out_env serializer frame2 3000 3006 5000 5008 area stack stack2.
Proof.
  split; change (z_frame_end serializer) with 4101;
    unfold frame2, area, stack, stack2, UnitArea.contents, UnitArea.sizeof_this; cbn; try done; intros; lia.
Qed.

Lemma same_frame : k_frame_end parser = k_frame_end Sample.parser.
Proof. vm_compute. reflexivity. Qed.
Lemma scramble_ok m : agree (frame_of frame parser) m (scramble m).
Proof.
  unfold frame_of. rewrite same_frame. exact (scramble_frame m).
Qed.

Lemma variables_ok : variables_settled us message K started.
Proof.
  intros g vs g' p Hv. cbv [serialize_variables] in Hv.
  assert (vs = [Line (SDollar "UNIT(Message)" "size");
                Line (SExpr "(SELF(Message).len = (DOLLAR(uint32_t) - 4))")]) as ->.
  { revert Hv. vm_compute. by intros [= <- _]. }
  exists (Some 2048). vm_compute. reflexivity.
Qed.

Lemma mapped_ok a : frame2 ≤ a < 4101 ∨ 5000 ≤ a < 5008 ∨ 3000 ≤ a < 3006 → is_Some (r_mem parsed !! a).
Proof.
  assert (H : Forall (λ a, is_Some (r_mem parsed !! a)) (4100 :: seqZ 5000 8 ++ seqZ 3000 6)).
  { apply (bool_decide_unpack _). vm_compute. exact I. }
  rewrite list.Forall_forall in H. intros Ha. apply H. unfold frame2 in Ha.
  apply elem_of_cons. rewrite elem_of_app, !elem_of_seqZ. lia.
Qed.

End Echo.

(** C3: Serializing what was parsed: the serialize function of a supported unit, called with the
    unit that the parse function of the same unit made, writes exactly the bytes that were read,
    and reports as many, however often the parser was suspended.  The unit must be [ordered]: its
    bytes and strings have a length, lengths and switches read fields that come before, and a
    transform keeps all values of the serialized type ([widens]).  The code of its [&serialize]
    attributes, run on the parsed unit, must leave the unit as it is ([variables_settled]), and the
    output must have room. *)
Theorem serialize_parsed us u options es frame frame2 g h k z D label label2 start emax area st
    out out_end st2 scramble m e ends r e' n m0 t :
  compile us u options es frame g = Ret k → compile_out us u options es frame2 h = Ret z →
  gen_wf g → gen_wf h → supported us options (unit_items u) = true →
  ordered us options es (k_members k) (unit_items u) [] = Some D →
  (∀ t, t ∈ container_types → assoc t es = None) → Inj eq eq label → (∀ l, label l ≠ 0) →
  call_env k frame start emax area st → out_env z frame2 start emax out out_end area st st2 →
  (∀ m, agree (frame_of frame k) m (scramble m)) → start ≤ e → growing e ends emax →
  parse_loop (call_context es k label start) (k_size k) (k_body k) scramble e ends m area st = Ret (r, e') →
  r_result r = Parsing.DONE → r_bytes r = Some n → agree (frame_of frame k) (r_mem r) m0 →
  start_serializing (out_context es z label2 out out_end) m0 (UnitArea.nextPos area) st2 = Ret t →
  variables_settled us u (out_context es z label2 out out_end) t →
  (∀ a, frame2 ≤ a < z_frame_end z ∨ out ≤ a < out_end ∨ start ≤ a < emax → is_Some (m0 !! a)) →
  n ≤ out_end - out →
  ∃ y, serialize_call (out_context es z label2 out out_end) (z_body z) m0 (UnitArea.nextPos area) st2 = Ret y ∧
    z_result y = Serializing.DONE ∧ z_bytes y = Some n ∧
    ∀ i, 0 ≤ i < n → z_mem y !! (out + i) = m !! (start + i).
Proof.
  intros Hk Hz Hg Hh Hs Hord Hes Hinj Hnz Henv Hout Hsc He Hgr Hl Hd Hn Hm Ht Hvar Hmap Hle.
  pose proof (compiled_loop _ _ _ _ _ _ _ Hk Hg Hs Hes _ Hinj Hnz _ _ _ _ Henv m e ends _ Hsc He Hgr) as Hr.
  rewrite Hl in Hr. destruct (reparse_loop _ _ _ e ends m area st) as [[r2 e2]| | |] eqn:E2; try done.
  destruct Hr as [(Hres & Hb & _ & _ & Hmm) Hee]. cbn in Hres, Hb, Hmm, Hee. subst e2.
  apply (reparse_last es k label start emax area st m e ends r2 e' He Hgr) in E2 as [He' E2].
  eapply (call_inverts us u options es frame frame2 g h k Hk z Hz Hg Hh Hs D Hord Hes label label2 Hinj Hnz
    start emax area st Henv out out_end st2 Hout e' m r2 m0 t n He' E2); try done; try congruence.
  eapply agree_trans; [apply agree_sym; exact Hmm|exact Hm].
Qed.

Lemma serialize_parsed_witness :
  ∃ y, serialize_call Echo.K (z_body Echo.serializer) (r_mem Echo.parsed)
         (UnitArea.nextPos Incremental.Sample.area) Echo.stack2 = Ret y ∧
    z_result y = Serializing.DONE ∧ z_bytes y = Some 6 ∧
    ∀ i, 0 ≤ i < 6 → z_mem y !! (5000 + i) = Echo.memory !! (3000 + i).
Proof.
  apply (serialize_parsed Echo.us Echo.message Incremental.Sample.options Incremental.Sample.es
    Incremental.Sample.frame Echo.frame2 newGenerator newGenerator Echo.parser Echo.serializer
    ["size"; "tail"; "extra"; "payload"; "len"; "opcode"] Incremental.Sample.label Incremental.Sample.label
    3000 3006 Incremental.Sample.area Incremental.Sample.stack 5000 5008 Echo.stack2
    Incremental.Sample.scramble Echo.memory 3001 [3002; 3004; 3006] Echo.parsed 3006 6 (r_mem Echo.parsed)
    Echo.started).
  - vm_compute. reflexivity.
  - vm_compute. reflexivity.
  - apply newGenerator_wf.
  - apply newGenerator_wf.
  - vm_compute. reflexivity.
  - vm_compute. reflexivity.
  - apply Incremental.Sample.enums_ok.
  - apply Incremental.Sample.label_inj'.
  - done.
  - apply Echo.call_env_ok.
  - apply Echo.out_env_ok.
  - apply Echo.scramble_ok.
  - lia.
  - cbn. lia.
  - vm_compute. reflexivity.
  - vm_compute. reflexivity.
  - vm_compute. reflexivity.
  - apply agree_refl.
  - vm_compute. reflexivity.
  - apply Echo.variables_ok.
  - apply Echo.mapped_ok.
  - lia.
Defined.
