(* ===== verification/Suspend.v ===== *)
(** * Suspended serializers

    A serializer whose output buffer is full returns [OUT_BUF_FULL] and is called again with more
    room behind what it has written.  As [Resume.v] does for parsers, this file shows that the
    instructions [SerializerGenerator] writes can be interrupted: they depend neither on the
    locals of the call ([sim_out]) nor on the end of the buffer, as long as there is room
    ([repeats]), and code made of them goes on where it stopped ([suspends]). *)

From S2P Require Import Prelude Util Runtime Translate Generate Exec Resume Emit.
Import Runtime.Memory Runtime.MemoryLemmas Translate.Cpp Generate.SerializerGenerator.
Import Exec.Types Exec.Eval Exec.Exec Emit.Emit.

Local Open Scope Z_scope.

(** ** Expressions without [dollar] *)

Definition text_dollars (s : string) : list string :=
  match read_cpp s with Some x => dollars x | None => [] end.

(** Both sides of an equation do the same first step. *)
Ltac same_step :=
  match goal with
  | |- mbind _ ?x = mbind _ ?x => destruct x as [?| | |]; [cbn [mbind outcome_bind]|done..]
  | |- context [let '(_, _) := ?p in _] => is_var p; destruct p
  | |- (if ?b then _ else _) = (if ?b then _ else _) => destruct b
  end.

Lemma eval_no_dollar es members u d x m :
  dollars x = [] → eval es members u d x m = eval es members u None x m.
Proof.
  revert m. induction x as [z|b| |n|t l|t|t|a IH f|a IH|o a IHa b IHb|t a IH|a IHa b IHb|c IHc t IHt f IHf];
    intros m Hd; cbn [dollars] in Hd; try done.
  - cbn [eval]. by rewrite IH.
  - apply app_eq_nil in Hd as [Ha Hb].
    destruct o; cbn [eval]; rewrite IHa by done;
      repeat first [ done | same_step | rewrite IHb by done ].
  - cbn [eval]. by rewrite IH.
  - apply app_eq_nil in Hd as [Ha Hb]. cbn [eval]. rewrite IHb by done. by destruct a.
  - apply app_eq_nil in Hd as [Hc [Ht Hf]%app_eq_nil]. cbn [eval]. rewrite IHc by done.
    repeat first [ done | same_step ].
    match goal with |- mbind _ (if ?b then _ else _) = _ => destruct b end; by rewrite ?IHt, ?IHf by done.
Qed.

Lemma eval_text_no_dollar es members u d s m :
  text_dollars s = [] → eval_text es members u d s m = eval_text es members u None s m.
Proof.
  unfold text_dollars, eval_text. destruct (read_cpp s) as [x|]; [|done]. intros Hd.
  cbn [some_or_ill mbind outcome_bind]. by rewrite (eval_no_dollar _ _ _ d).
Qed.

(** ** What a serializer relies on *)

Definition with_room (e : Z) (K : scontext) : scontext :=
  mkSContext (o_enums K) (o_members K) (o_temps K) (o_label K) (o_start K) e.
(** The unit class, the temporaries and the labels, as a parser has them. *)
Definition as_context (K : scontext) : context :=
  mkContext (o_enums K) (o_members K) (o_temps K) (o_label K) (o_start K) (o_end K).

(** Where a container of type [t] has its pointer and its length. *)
Definition is_range (t : string) : bool := String.eqb t "dr::unit::var_stream_range".
Definition data_at (t : string) : Z := if is_range t then start_offset else data_offset.
Definition len_at (t : string) : Z :=
  len_offset (if is_range t then "var_stream_range" else "var_bytes").

Section Serializer.
  Context (K : scontext) (F : Z → Prop) (u : Z).

(** The data of the containers is not in the frame of the call. *)
Definition pointers (m : mem) : Prop :=
  ∀ f o t data len, assoc f (o_members K) = Some (o, t) → t ∈ container_types →
    read uint64_t m (u + o + data_at t) = Ret data → read uint64_t m (u + o + len_at t) = Ret len →
    len < 2 ^ 63 ∧ apart F data len.

(** [F] are the addresses of the locals, [u] that of the unit; the output ends at [o_end K]. *)
Record out_ok : Prop := {
  oo_call : call_ok (as_context K) F u;
  oo_temps tmp q t sz al :
    assoc tmp (o_temps K) = Some (q, t) → size_align (o_enums K) t = Some (sz, al) →
    ∀ a, q ≤ a < q + sz → F a;
  oo_output f o t sz al :
    assoc f (o_members K) = Some (o, t) → size_align (o_enums K) t = Some (sz, al) →
    apart (λ a, o_start K ≤ a < o_end K) (u + o) sz;
  oo_addresses : 0 ≤ o_start K ∧ o_end K < 2 ^ 64 }.

(** Where a serializer writes: its locals, the output and the scalar members. *)
Definition writable (a : Z) : Prop :=
  F a ∨ o_start K ≤ a < o_end K ∨
  ∃ f o c, member (o_enums K) (o_members K) f = Ret (o, c) ∧
           u + o ≤ a < u + o + Z.of_nat (sizeof (rep c)).

(** States that differ in locals only, with a position below [e]. *)
Definition sim_out (t t' : smach) : Prop :=
  agree F (s_mem t) (s_mem t') ∧ s_state t = s_state t' ∧ s_unit t = s_unit t'.
Definition srel (c c' : sctl) : Prop :=
  match c, c' with
  | SNext t, SNext t' => sim_out t t'
  | SReturn r t, SReturn r' t' => r = r' ∧ sim_out t t'
  | _, _ => False
  end.
Definition good_out (e : Z) (t : smach) : Prop :=
  s_unit t = u ∧ o_start K ≤ out_pos t ≤ e ∧ pointers (s_mem t).
Definition kept (e : Z) (t : smach) (o : outcome sctl) : Prop :=
  match o with
  | Ret (SNext t') | Ret (SReturn _ t') =>
      good_out e t' ∧ same_stack (s_state t) (s_state t') ∧ agree writable (s_mem t) (s_mem t')
  | _ => True
  end.

Section Ok.
Context (Hok : out_ok).

Lemma writable_frame a : F a → writable a.
Proof using Type. by left. Qed.
Lemma writable_scalar f o c :
  member (o_enums K) (o_members K) f = Ret (o, c) →
  ∀ a, u + o ≤ a < u + o + Z.of_nat (sizeof (rep c)) → writable a.
Proof using Type. intros Hf a Ha. right; right. eauto. Qed.

Lemma container_unwritten f o t a :
  assoc f (o_members K) = Some (o, t) → t ∈ container_types → u + o ≤ a < u + o + 16 → ¬ writable a.
Proof using Hok.
  intros Hf Ht Ha. pose proof (container_size (as_context K) F u (oo_call Hok) t Ht) as Hz.
  intros [HF|[Ho|(f' & o' & c & Hm & Hs)]].
  - by apply (ok_members _ _ _ (oo_call Hok) f o t 16 8 Hf Hz a).
  - by apply (oo_output Hok f o t 16 8 Hf Hz a).
  - by apply (container_apart (as_context K) F u (oo_call Hok) f o t f' o' c Hf Ht Hm a).
Qed.

Lemma data_len_at t : 0 ≤ data_at t ≤ 8 ∧ 0 ≤ len_at t ≤ 8.
Proof using Type. unfold data_at, len_at. destruct (is_range t); by vm_compute. Qed.

(** The pointers stay, whatever a serializer writes. *)
Lemma pointers_kept m m' : agree writable m m' → pointers m → pointers m'.
Proof using Hok.
  intros Hm Hp f o t data len Hf Ht Hd Hl. destruct (data_len_at t) as [Hda Hla].
  rewrite <- (read_agree writable uint64_t m m') in Hd, Hl; try done;
    try (by eapply Hp); intros a Ha; change (Z.of_nat (sizeof uint64_t)) with 8 in Ha;
    eapply container_unwritten; try done; lia.
Qed.

Lemma sim_out_sym t t' : sim_out t t' → sim_out t' t.
Proof using Type. intros (? & ? & ?). split_and!; [by apply agree_sym|done..]. Qed.
Lemma sim_out_trans t1 t2 t3 : sim_out t1 t2 → sim_out t2 t3 → sim_out t1 t3.
Proof using Type. intros (? & ? & ?) (? & ? & ?). split_and!; [by eapply agree_trans|congruence..]. Qed.
Lemma sim_good_out e t t' : sim_out t t' → good_out e t → good_out e t'.
Proof using Hok.
  intros (Hm & Hs & Hu) (Hu' & Hp & Hpt). split_and!; [congruence|unfold out_pos in *; rewrite <- Hs; lia..|].
  eapply pointers_kept; [|done]. eapply agree_mono; [|done]. apply writable_frame.
Qed.

Lemma good_out_more e e' t : e ≤ e' → good_out e t → good_out e' t.
Proof using Type. intros He (? & ? & ?). split_and!; try done; lia. Qed.

Lemma kept_trans e t o k :
  kept e t o → (∀ t', o = Ret (SNext t') → good_out e t' → kept e t' (k t')) → kept e t (then_emit o k).
Proof using Type.
  intros Ho Hk. destruct o as [[t'|r t']| | |]; try done. cbn in *. destruct Ho as (Hg & Hs & Ha).
  specialize (Hk t' eq_refl Hg). unfold kept, same_stack in *.
  destruct (k t') as [[t2|r t2]| | |]; try done; destruct Hk as (? & (? & ? & ?) & ?); split_and!; try done;
    try (by eapply agree_trans); naive_solver congruence.
Qed.

(** *** Lines that write to the output *)

(** Line [l] writes [len] bytes behind the position, as [st] says, if there is room. *)
Definition writes (l : sline) (t : smach) (len : Z) (st : outcome mem) : Prop :=
  0 ≤ len ∧
  (∀ e, o_start K ≤ out_pos t ≤ e → e ≤ o_end K → emit_line (with_room e K) l t =
     if e - out_pos t <? len then Ret (SNext (set_sresult Serializing.OUT_BUF_FULL (out_pos t) t))
     else m ← st; Ret (SNext (set_sresult Serializing.DONE (out_pos t + len) (set_smem m t)))) ∧
  (∀ m, st = Ret m → agree (λ a, out_pos t ≤ a < out_pos t + len) (s_mem t) m).

(** The same from two states: both fail in the same way, or both write. *)
Definition both_write (l : sline) (t t' : smach) : Prop :=
  (∃ o, (∀ c, o ≠ Ret c) ∧
        ∀ e, emit_line (with_room e K) l t = o ∧ emit_line (with_room e K) l t' = o) ∨
  ∃ len st st', writes l t len st ∧ writes l t' len st' ∧ orel (agree F) st st'.

Lemma int_both_write w sg o t t' :
  (∀ n, 8 * Z.of_nat n = w → load_bytes n (s_mem t) (s_src t) = load_bytes n (s_mem t') (s_src t')) →
  sim_out t t' → both_write (SSerializeInt w sg o) t t'.
Proof using Hok.
  intros Hl (Hm & Hs & Hu). pose proof (ok_size _ _ _ (oo_call Hok)) as Hsz. cbn in Hsz.
  destruct (int_serializer w sg o) as [f|] eqn:Ef.
  2: { left. exists ill_formed. split; [done|]. intros e. cbn [emit_line]. by rewrite Ef. }
  destruct (int_serializer_spec _ _ _ _ Ef) as (n & order & Hf & Ho & Hn). right.
  set (st := λ t : smach, bs ← access (load_bytes n (s_mem t) (s_src t));
                          access (store_bytes (order bs) (s_mem t) (out_pos t))).
  assert (Hw : ∀ t, writes (SSerializeInt w sg o) t (Z.of_nat n) (st t)).
  { clear -Hf Ho Hn Ef Hsz. intros t. split; [lia|]. split.
    - intros e Hp He. cbn [emit_line]. rewrite Ef. cbn [some_or_ill mbind outcome_bind]. rewrite (Hf (s_mem t)).
      change (o_end (with_room e K)) with e. rewrite short_of_spec by (unfold buffer; lia).
      destruct (e - out_pos t <? Z.of_nat n); [done|]. unfold st.
      destruct (load_bytes n _ _) as [bs|]; [|done]. cbn [access mbind outcome_bind].
      by destruct (store_bytes (order bs) _ _).
    - intros m E. unfold st in E. destruct (load_bytes n _ _) as [bs|] eqn:El; [|done]. cbn in E.
      destruct (store_bytes (order bs) _ _) as [m'|] eqn:Es; [|done]. injection E as <-.
      eapply store_within; [done|]. rewrite order_length, (length_load _ _ _ _ El). done. }
  exists (Z.of_nat n), (st t), (st t'). split_and!; [done..|]. unfold st. rewrite <- (Hl n Hn).
  destruct (load_bytes n _ _) as [bs|]; [|done]. cbn [access mbind outcome_bind].
  unfold out_pos. rewrite <- Hs. by apply access_store.
Qed.

(** A copy of [len] bytes at [data]. *)
Lemma copy_both_write l data len t t' :
  (∀ e, emit_line (with_room e K) l t = emit_bytes (with_room e K) data len t ∧
        emit_line (with_room e K) l t' = emit_bytes (with_room e K) data len t') →
  0 ≤ len < 2 ^ 63 → apart F data len → sim_out t t' → both_write l t t'.
Proof using Hok.
  intros Hl Hlen Ha (Hm & Hs & Hu). pose proof (ok_size _ _ _ (oo_call Hok)) as Hsz. cbn in Hsz.
  destruct (oo_addresses Hok) as [Had1 Had2]. right.
  assert (Hw : ∀ t, (∀ e, emit_line (with_room e K) l t = emit_bytes (with_room e K) data len t) →
            writes l t len (memcpy (s_mem t) (out_pos t) data len)).
  { clear -Hlen Hsz Had1 Had2. intros t Hl. split; [lia|]. split.
    - intros e Hp He. rewrite Hl. unfold emit_bytes, Serializing.copyBytes_out, pointer_add.
      change (o_end (with_room e K)) with e. change (o_start (with_room e K)) with (o_start K).
      rewrite BytesLemmas.short_of_len_spec by (unfold buffer; lia).
      destruct (Z.ltb_spec (e - out_pos t) len); cbn [mbind outcome_bind].
      { by rewrite Z.eqb_refl. }
      destruct (memcpy _ _ _ _) as [m| | |]; try done. cbn [mbind outcome_bind].
      rewrite uwrap_small by lia. by rewrite (proj2 (Z.ltb_lt len _)), Z.eqb_refl, orb_true_r by lia.
    - intros m E. eapply memcpy_within; [done|lia|done]. }
  exists len, (memcpy (s_mem t) (out_pos t) data len), (memcpy (s_mem t') (out_pos t') data len).
  split_and!; [apply Hw; intros e; apply Hl..|]. unfold out_pos. rewrite <- Hs. unfold memcpy.
  destruct (len =? 0); [done|]. case_bool; [done|].
  rewrite (access_load F _ (s_mem t) (s_mem t')) by (try done; intros a ?; apply Ha; lia).
  apply (orel_bind eq); [apply orel_same|]. intros ? ? <-. by apply access_store.
Qed.

(** *** Code that can be repeated *)

(** From two states that differ in locals only: the code keeps the state good, ends in the same way,
    and with more room it does the same, unless it returned [OUT_BUF_FULL] having changed nothing. *)
Definition repeats_at (b : list scode) (t t' : smach) : Prop :=
  ∀ e, e ≤ o_end K → good_out e t →
    kept e t (emit_list (with_room e K) b t) ∧
    orel srel (emit_list (with_room e K) b t) (emit_list (with_room e K) b t') ∧
    ∀ e', e ≤ e' ≤ o_end K →
      match emit_list (with_room e K) b t with
      | Ret (SNext t1) => emit_list (with_room e' K) b t = Ret (SNext t1)
      | Ret (SReturn r t1) => r = Serializing.OUT_BUF_FULL ∧ sim_out t t1
      | _ => True
      end.
Definition repeats (b : list scode) : Prop :=
  ∀ t t', s_unit t = u → pointers (s_mem t) → sim_out t t' → repeats_at b t t'.

Lemma kept_refl e t : good_out e t → kept e t (Ret (SNext t)).
Proof using Type. intros. by split_and!; try apply agree_refl. Qed.

Lemma repeats_nil : repeats [].
Proof using Type. intros t t' _ _ H e He Hg. split_and!; [by apply kept_refl|done|done]. Qed.

Lemma stuck_repeats l b t t' o :
  (∀ c, o ≠ Ret c) →
  (∀ e, emit_line (with_room e K) l t = o ∧ emit_line (with_room e K) l t' = o) →
  repeats_at (Line l :: b) t t'.
Proof using Type.
  intros Ho Hl e He Hg. cbn [emit_list emit_code]. destruct (Hl e) as [-> ->].
  destruct o as [c| | |]; [by destruct (Ho c)|done..].
Qed.

(** A line that changes only locals. *)
Lemma step_repeats l b t t' t1 t1' :
  (∀ e, emit_line (with_room e K) l t = Ret (SNext t1)) →
  (∀ e, emit_line (with_room e K) l t' = Ret (SNext t1')) →
  sim_out t t1 → repeats_at b t1 t1' → repeats_at (Line l :: b) t t'.
Proof using Hok.
  intros Hl Hl' Hs Hb e He Hg. destruct (Hb e He) as (Hk & Hsim & Hmore); [by eapply sim_good_out|].
  cbn [emit_list emit_code]. rewrite Hl, Hl'. cbn [then_emit mbind outcome_bind].
  split_and!; [|done|].
  - destruct Hs as (Hm & Hst & _). unfold kept in *. rewrite Hst.
    destruct (emit_list _ b t1) as [[t2|r t2]| | |]; try done; destruct Hk as (? & ? & ?); split_and!; try done;
      (eapply agree_trans; [|done]; eapply agree_mono; [|done]; apply writable_frame).
  - intros e' He'. specialize (Hmore e' He'). rewrite Hl. cbn [then_emit mbind outcome_bind].
    destruct (emit_list _ b t1) as [[t2|r t2]| | |]; try done. destruct Hmore. split; [done|].
    by eapply sim_out_trans.
Qed.

Definition checked (l : sline) : list scode := [Line l; Line SCheck].

Lemma checked_repeats l t t' : both_write l t t' → sim_out t t' → repeats_at (checked l) t t'.
Proof using Hok.
  intros [(o & Ho & Hl)|(len & st & st' & (Hlen & Hw & Hin) & (_ & Hw' & _) & Hst)] Hs;
    [by eapply stuck_repeats|].
  intros e He Hg. pose proof Hg as (Hu & Hp & Hpt). pose proof Hs as (Hm & Hs1 & Hu1).
  cbn [checked emit_list emit_code]. rewrite Hw, Hw' by (done || (unfold out_pos in *; rewrite <- ?Hs1; lia)).
  assert (Hpp : out_pos t' = out_pos t) by (unfold out_pos; by rewrite Hs1). rewrite Hpp.
  destruct (Z.ltb_spec (e - out_pos t) len) as [Hlt|Hle]; cbn.
  { split_and!; try done; [by split_and!; cbn; rewrite ?Hs1|].
    intros e' _. split; [done|]. split_and!; [apply agree_refl| |done]. cbn. unfold out_pos. by destruct (s_state t). }
  destruct st as [m| | |], st' as [m'| | |]; try done. cbn in Hst |- *. refine (conj _ (conj _ _)).
  - assert (Hag : agree writable (s_mem t) m).
    { eapply agree_mono; [|by apply Hin]. intros a Ha. cbv beta in Ha. right; left. lia. }
    refine (conj (conj Hu (conj _ (pointers_kept _ _ Hag Hpt))) (conj _ Hag)); [|done].
    unfold out_pos in *. cbn. lia.
  - refine (conj Hst (conj _ Hu1)). cbn. by rewrite Hs1.
  - intros e' He'. rewrite Hw by lia. rewrite (proj2 (Z.ltb_ge (e' - out_pos t) len)) by lia. done.
Qed.

(** *** The instructions of fields *)

Definition bytes_member (f : string) : Prop :=
  ∀ o t, assoc f (o_members K) = Some (o, t) → t ∈ container_types ∧ is_range t = false.
Definition range_member (f : string) : Prop :=
  ∀ o t, assoc f (o_members K) = Some (o, t) → t = "dr::unit::var_stream_range".

Inductive satomic : list scode → Prop :=
  | sa_none : satomic []
  | sa_src cu f : satomic [Line (SSrcField cu f)]
  | sa_int cu f w sg o :
      int_fits (as_context K) f w →
      satomic (Line (SSrcField cu f) :: checked (SSerializeInt w sg o))
  | sa_bytes cu f k :
      len_offset k = 0 → bytes_member f → satomic (Line (SSrcField cu f) :: checked (SCopyBytes k))
  | sa_range cu f : range_member f → satomic (Line (SSrcField cu f) :: checked SCopyRange)
  | sa_temp tmp ty cu f w sg o :
      temp_fits (as_context K) tmp w →
      satomic (Line (SCastFrom tmp ty cu f) :: Line (SSrcTemp tmp) :: checked (SSerializeInt w sg o)).

(** The end of the buffer changes nothing else. *)
Ltac same_context e :=
  change (o_enums (with_room e K)) with (o_enums K); change (o_members (with_room e K)) with (o_members K);
  change (o_temps (with_room e K)) with (o_temps K).
Ltac same_context_in e H :=
  change (o_enums (with_room e K)) with (o_enums K) in H;
  change (o_members (with_room e K)) with (o_members K) in H.

Lemma src_repeats cu f b :
  (∀ o ty t t', assoc f (o_members K) = Some (o, ty) → s_unit t = u → sim_out t t' →
     s_src t = u + o → s_src t' = u + o → pointers (s_mem t) → repeats_at b t t') →
  repeats (Line (SSrcField cu f) :: b).
Proof using Hok.
  intros Hb t t' Hu Hpt Hs. pose proof Hs as (_ & _ & Hu').
  destruct (assoc f (o_members K)) as [[o ty]|] eqn:Ef.
  - apply (step_repeats (SSrcField cu f) b t t' (set_src (u + o) t) (set_src (u + o) t')); try done.
    1, 2: intros e1; cbn [emit_line]; unfold smember_address; same_context e1; rewrite Ef; cbn [some_or_ill mbind outcome_bind]; by rewrite <- ?Hu', Hu.
    by apply (Hb o ty).
  - apply (stuck_repeats (SSrcField cu f) b t t' ill_formed); try done. intros e1. cbn [emit_line].
    unfold smember_address. same_context e1. by rewrite Ef.
Qed.

Lemma member_load f o ty w n t t' :
  assoc f (o_members K) = Some (o, ty) → int_fits (as_context K) f w → 8 * Z.of_nat n = w →
  sim_out t t' → load_bytes n (s_mem t) (u + o) = load_bytes n (s_mem t') (u + o).
Proof using Hok.
  intros Hf Hfit Hn (Hm & _ & _). destruct (Hfit o ty Hf) as (sz & al & Hz & Hw).
  apply (load_agree F n _ _ _ Hm). intros a Ha.
  apply (ok_members _ _ _ (oo_call Hok) f o ty sz al Hf Hz). lia.
Qed.

(** The copy of a container. *)
Lemma container_repeats l f o ty t t' :
  assoc f (o_members K) = Some (o, ty) → ty ∈ container_types →
  (∀ e t, s_src t = u + o → emit_line (with_room e K) l t =
     data ← read uint64_t (s_mem t) (u + o + data_at ty);
     len ← read uint64_t (s_mem t) (u + o + len_at ty);
     emit_bytes (with_room e K) data len t) →
  sim_out t t' → s_src t = u + o → s_src t' = u + o → pointers (s_mem t) →
  repeats_at (checked l) t t'.
Proof using Hok.
  intros Hf Hty Hl Hs Hp Hp' Hpt. destruct (data_len_at ty) as [Hda Hla]. pose proof Hs as (Hm & _ & _).
  assert (Hread : ∀ k, 0 ≤ k ≤ 8 → read uint64_t (s_mem t') (u + o + k) = read uint64_t (s_mem t) (u + o + k)).
  { intros k Hk. symmetry. apply (read_agree F uint64_t _ _ _ Hm). intros a Ha HF.
    change (Z.of_nat (sizeof uint64_t)) with 8 in Ha.
    apply (container_unwritten f o ty a Hf Hty); [lia|]. by apply writable_frame. }
  apply checked_repeats; [|done].
  destruct (read uint64_t (s_mem t) (u + o + data_at ty)) as [data| | |] eqn:Ed.
  1: destruct (read uint64_t (s_mem t) (u + o + len_at ty)) as [len| | |] eqn:El.
  1: { destruct (Hpt f o ty data len Hf Hty Ed El) as [Hlen Hap].
       pose proof (read_uint64_range (s_mem t) _ _ El) as Hr.
       eapply (copy_both_write l data len); [|lia|done|done]. intros e.
       rewrite (Hl e t Hp), (Hl e t' Hp'), !Hread by done. by rewrite Ed, El. }
  all: left; eexists; (split; [|intros e1; rewrite (Hl e1 t Hp), (Hl e1 t' Hp'), !Hread by done;
                               rewrite Ed, ?El; cbn [mbind outcome_bind]; split; reflexivity]); done.
Qed.

(** A conversion: the address and type of the temporary, and the value for it. *)
Definition cast_value (tmp ty f : string) (m : mem) : outcome (Z * cty * Z) :=
  '(o, cf) ← member (o_enums K) (o_members K) f;
  v ← read (rep cf) m (u + o);
  c ← some_or_ill (scalar_type (o_enums K) ty);
  '(q, qt) ← some_or_ill (assoc tmp (o_temps K));
  ct ← some_or_ill (scalar_type (o_enums K) qt);
  v ← implicit c ct (cast c v);
  Ret (q, ct, v).

Lemma cast_line e tmp ty cu f t :
  s_unit t = u →
  emit_line (with_room e K) (SCastFrom tmp ty cu f) t =
    '(q, ct, v) ← cast_value tmp ty f (s_mem t); m ← write (rep ct) (s_mem t) q v; Ret (SNext (set_smem m t)).
Proof using Type.
  intros Hu. cbn [emit_line]. same_context e. rewrite Hu. unfold cast_value.
  repeat match goal with
  | |- mbind _ ?x = mbind _ (mbind _ ?x) => destruct x as [?| | |]; cbn [mbind outcome_bind]; try done
  | |- context [let '(_, _) := ?p in _] => is_var p; destruct p
  end.
Qed.

Lemma cast_value_agree tmp ty f m m' : agree F m m' → cast_value tmp ty f m = cast_value tmp ty f m'.
Proof using Hok.
  intros Hm. unfold cast_value. destruct (member (o_enums K) (o_members K) f) as [[o cf]| | |] eqn:E; try done.
  cbn [mbind outcome_bind]. rewrite (read_agree F (rep cf) m m'); [done|done|].
  exact (member_apart (as_context K) F u (oo_call Hok) f o cf E).
Qed.

Lemma cast_value_temp tmp ty f m q ct v :
  cast_value tmp ty f m = Ret (q, ct, v) →
  ∃ qt, assoc tmp (o_temps K) = Some (q, qt) ∧ scalar_type (o_enums K) qt = Some ct.
Proof using Type.
  unfold cast_value. intros H. destruct_binds H. injection H as <- <- <-.
  destruct (assoc tmp (o_temps K)) as [[q qt]|]; [|done].
  match goal with E : some_or_ill (Some _) = _ |- _ => injection E as <- <- end.
  exists qt. split; [done|]. by destruct (scalar_type (o_enums K) qt); simplify_eq/=.
Qed.

Lemma temp_repeats tmp ty cu f w sg o :
  temp_fits (as_context K) tmp w →
  repeats (Line (SCastFrom tmp ty cu f) :: Line (SSrcTemp tmp) :: checked (SSerializeInt w sg o)).
Proof using Hok.
  intros Hfit t t' Hu Hpt Hs. pose proof Hs as (Hm & Hst & Hu').
  assert (Hl : ∀ e t1, s_unit t1 = u → agree F (s_mem t) (s_mem t1) →
    emit_line (with_room e K) (SCastFrom tmp ty cu f) t1 =
    '(q, ct, v) ← cast_value tmp ty f (s_mem t); m ← write (rep ct) (s_mem t1) q v; Ret (SNext (set_smem m t1))).
  { intros e t1 Hu1 Hm1. by rewrite cast_line, <- (cast_value_agree _ _ _ _ _ Hm1). }
  assert (Hl1 := λ e, Hl e t Hu (agree_refl _ _)). assert (Hl2 := λ e, Hl e t' (eq_trans (eq_sym Hu') Hu) Hm).
  clear Hl. destruct (cast_value tmp ty f (s_mem t)) as [[[q ct] v]| | |] eqn:Ev.
  2-4: by eapply stuck_repeats; [|intros e1; rewrite Hl1, Hl2; split; reflexivity].
  cbn [mbind outcome_bind] in Hl1, Hl2. pose proof (write_agree F (rep ct) _ _ q v Hm) as Hw.
  destruct (write (rep ct) (s_mem t) q v) as [m| | |] eqn:E1, (write (rep ct) (s_mem t') q v) as [m'| | |] eqn:E2;
    try done; cbn in Hw; try subst.
  2-4: by eapply stuck_repeats; [|intros e1; rewrite Hl1, Hl2; split; reflexivity].
  destruct (cast_value_temp _ _ _ _ _ _ _ Ev) as (qt & Hq & Hc).
  assert (Hz : size_align (o_enums K) qt = Some (Z.of_nat (sizeof (rep ct)), Z.of_nat (sizeof (rep ct))))
    by (unfold size_align; by rewrite Hc).
  apply (step_repeats _ _ t t' (set_smem m t) (set_smem m' t') Hl1 Hl2).
  { split_and!; try done. eapply write_within; [done|]. by eapply (oo_temps Hok). }
  apply (step_repeats _ _ _ _ (set_src q (set_smem m t)) (set_src q (set_smem m' t'))).
  1, 2: intros e; cbn [emit_line]; same_context e; by rewrite Hq.
  { by split_and!; try apply agree_refl. }
  apply checked_repeats; [|by split_and!]. apply int_both_write; [|by split_and!].
  intros n Hn. destruct (Hfit q qt Hq) as (c & Hc' & Hw'). cbn in Hc'. rewrite Hc in Hc'. injection Hc' as <-.
  assert (n = sizeof (rep ct)) as -> by (unfold width in Hw'; lia).
  cbn. apply write_load in E1 as [-> _]. apply write_load in E2 as [-> _]. done.
Qed.

Lemma satomic_repeats b : satomic b → repeats b.
Proof using Hok.
  destruct 1 as [|cu f|cu f w sg o Hf|cu f k Hk Hf|cu f Hf|tmp ty cu f w sg o Ht].
  - apply repeats_nil.
  - apply src_repeats. intros o ty t t' _ Hu Hs _ _ Hpt. by apply repeats_nil.
  - apply src_repeats. intros off ty t t' Hm Hu Hs Hp Hp' Hpt. apply checked_repeats; [|done].
    apply int_both_write; [|done]. intros n Hn. rewrite Hp, Hp'. by eapply member_load.
  - apply src_repeats. intros off ty t t' Hm Hu Hs Hp Hp' Hpt. destruct (Hf off ty Hm) as [Hty Hr].
    apply (container_repeats _ f off ty); try done. intros e t1 Hp1. cbn [emit_line]. rewrite Hp1, Hk.
    unfold data_at, len_at. by rewrite Hr.
  - apply src_repeats. intros off ty t t' Hm Hu Hs Hp Hp' Hpt. pose proof (Hf off ty Hm) as ->.
    apply (container_repeats _ f off "dr::unit::var_stream_range"); try done; [elem_dec|].
    intros e t1 Hp1. cbn [emit_line]. by rewrite Hp1.
  - by apply temp_repeats.
Qed.

(** ** Code that goes on where it stopped *)

(** The code [run], with labels [ls], into which [go] jumps: when the buffer is full it has stopped
    at one of its labels, and jumping there with more room does what a run with that room does. *)
Record suspends (ls : list string) (run : Z → smach → outcome sctl)
    (go : Z → Z → smach → option (outcome sctl)) : Prop := {
  su_keep e t : e ≤ o_end K → good_out e t → kept e t (run e t);
  su_sim e t t' : e ≤ o_end K → good_out e t → sim_out t t' → orel srel (run e t) (run e t');
  su_more e e' t t1 :
    e ≤ e' ≤ o_end K → good_out e t → run e t = Ret (SNext t1) → run e' t = Ret (SNext t1);
  su_full e e' t r t1 :
    e ≤ e' ≤ o_end K → good_out e t → run e t = Ret (SReturn r t1) →
    r = Serializing.OUT_BUF_FULL ∧
    ∃ l, l ∈ ls ∧ ParserState.instruction (s_state t1) = o_label K l ∧
      ∀ t1', sim_out t1 t1' → ∃ o, go e' (o_label K l) t1' = Some o ∧ orel srel o (run e' t);
  su_absent e a t : (∀ l, l ∈ ls → o_label K l ≠ a) → go e a t = None }.

Lemma then_emit_rel x y k k' :
  orel srel x y → (∀ t t', x = Ret (SNext t) → y = Ret (SNext t') → sim_out t t' → orel srel (k t) (k' t')) →
  orel srel (then_emit x k) (then_emit y k').
Proof using Type.
  intros H Hk. destruct x as [[t|r t]| | |], y as [[t'|r' t']| | |]; try done; cbn in H |- *. by apply Hk.
Qed.

Lemma suspends_nil : suspends [] (λ e t, Ret (SNext t)) (λ e a t, None).
Proof using Type. split; try done. Qed.

Lemma suspends_seq ls1 run1 go1 ls2 run2 go2 :
  Inj eq eq (o_label K) → (∀ l, l ∈ ls1 → l ∉ ls2) → suspends ls1 run1 go1 → suspends ls2 run2 go2 →
  suspends (ls1 ++ ls2) (λ e t, then_emit (run1 e t) (run2 e))
    (λ e a t, match go1 e a t with Some o => Some (then_emit o (run2 e)) | None => go2 e a t end).
Proof using Hok.
  intros Hinj Hd H1 H2.
  assert (Hkeep : ∀ e t, e ≤ o_end K → good_out e t → kept e t (then_emit (run1 e t) (run2 e))).
  { intros e t He Hg. apply kept_trans; [by apply (su_keep _ _ _ H1)|]. intros. by apply (su_keep _ _ _ H2). }
  assert (Hgood : ∀ e t t1, e ≤ o_end K → good_out e t → run1 e t = Ret (SNext t1) → good_out e t1).
  { intros e t t1 He Hg E. pose proof (su_keep _ _ _ H1 e t He Hg) as Hk. rewrite E in Hk. apply Hk. }
  split; [done|..].
  - intros e t t' He Hg Hs. apply then_emit_rel; [by apply (su_sim _ _ _ H1)|].
    intros t1 t1' E _ Hs1. apply (su_sim _ _ _ H2); [done|by eapply Hgood|done].
  - intros e e' t t1 He Hg E. destruct (run1 e t) as [[t2|r t2]| | |] eqn:E1; try done. cbn in E.
    rewrite (su_more _ _ _ H1 e e' t t2 He Hg E1). cbn.
    apply (su_more _ _ _ H2 e); [done|eapply Hgood; [|done|done]; lia|done].
  - intros e e' t r t1 He Hg E. destruct (run1 e t) as [[t2|r2 t2]| | |] eqn:E1; try done; cbn in E.
    + assert (Hg2 : good_out e t2) by (eapply Hgood; [|done|done]; lia).
      destruct (su_full _ _ _ H2 e e' t2 r t1 He Hg2 E) as (Hr & l & Hl & Hi & Hgo).
      split; [done|]. exists l. split; [by apply elem_of_app; right|split; [done|]]. intros t1' Hs.
      rewrite (su_absent _ _ _ H1).
      2: { intros x Hx Ex. apply (inj _) in Ex as ->. by apply (Hd l). }
      rewrite (su_more _ _ _ H1 e e' t t2 He Hg E1). by apply Hgo.
    + injection E as -> ->. destruct (su_full _ _ _ H1 e e' t r t1 He Hg E1) as (Hr & l & Hl & Hi & Hgo).
      split; [done|]. exists l. split; [by apply elem_of_app; left|split; [done|]]. intros t1' Hs.
      destruct (Hgo t1' Hs) as (o & -> & Ho). eexists; split; [done|].
      apply then_emit_rel; [done|]. intros s s' -> E' Hs1. apply (su_sim _ _ _ H2); [lia| |done].
      eapply sim_good_out; [by apply sim_out_sym|]. eapply Hgood; [|by eapply good_out_more; [|exact Hg]; lia|done]. lia.
  - intros e a t Ha. rewrite (su_absent _ _ _ H1), (su_absent _ _ _ H2); [done|..];
      intros l Hl; apply Ha, elem_of_app; auto.
Qed.

Definition advance (l : string) (t : smach) : smach :=
  set_sstate (ParserState.advanceToInstruction (o_label K l) (s_state t)) t.

Lemma sim_advance l t t' : sim_out t t' → sim_out (advance l t) (advance l t').
Proof using Type. intros (? & Hs & ?). split_and!; cbn; try done. by rewrite Hs. Qed.

(** A label before code that can be repeated. *)
Lemma suspends_label l b :
  repeats b →
  suspends [l] (λ e t, emit_list (with_room e K) b (advance l t))
    (λ e a t, if o_label K l =? a then Some (emit_list (with_room e K) b (advance l t)) else None).
Proof using Hok.
  intros Hb. assert (Hat : ∀ e t t', good_out e t → sim_out t t' → repeats_at b (advance l t) (advance l t')).
  { intros e t t' (Hu & _ & Hp) Hs. by apply Hb, sim_advance. }
  assert (Hrefl : ∀ t, sim_out t t) by (intros t; by split_and!; try apply agree_refl).
  split.
  - intros e t He Hg. exact (proj1 (Hat e t t Hg (Hrefl t) e He Hg)).
  - intros e t t' He Hg Hs. exact (proj1 (proj2 (Hat e t t' Hg Hs e He Hg))).
  - intros e e' t t1 He Hg E. destruct (Hat e t t Hg (Hrefl t) e ltac:(lia) Hg) as (_ & _ & Hm).
    specialize (Hm e' He). by rewrite E in Hm.
  - intros e e' t r t1 He Hg E. destruct (Hat e t t Hg (Hrefl t) e ltac:(lia) Hg) as (_ & _ & Hm).
    specialize (Hm e' He). rewrite E in Hm. destruct Hm as [-> Hs]. split; [done|]. exists l.
    split; [by left|]. destruct Hs as (Hm & Hst & Hu). split; [by rewrite <- Hst|].
    intros t1' (Hm' & Hst' & Hu'). rewrite Z.eqb_refl. eexists; split; [done|].
    assert (Hs : sim_out (advance l t) (advance l t1')).
    { split_and!; [by eapply agree_trans| |cbn in *; congruence]. cbn. rewrite <- Hst', <- Hst. done. }
    assert (Hg' : good_out e' (advance l t1')).
    { eapply sim_good_out; [exact Hs|]. eapply good_out_more; [|exact Hg]. lia. }
    destruct Hg' as (Hu1 & Hp1 & Hpt1).
    exact (proj1 (proj2 (Hb _ _ Hu1 Hpt1 (sim_out_sym _ _ Hs) e' ltac:(lia) (conj Hu1 (conj Hp1 Hpt1))))).
  - intros e a t Ha. rewrite (proj2 (Z.eqb_neq _ _)); [done|]. apply Ha. by left.
Qed.

(** *** Switches *)

Definition plain_labels (cases : list (code_case sline)) : Prop :=
  Forall (λ c, match c with mkCodeCase ls _ _ => Forall (λ l, text_dollars l = []) ls end) cases.

Lemma stext_rel e l t t' :
  text_dollars l = [] → s_unit t = u → sim_out t t' →
  orel (same_value F) (stext (with_room e K) l t) (stext (with_room e K) l t').
Proof using Hok.
  intros Hd Hu (Hm & _ & Hu'). unfold stext. same_context e. rewrite <- Hu', Hu.
  rewrite (eval_text_no_dollar _ _ _ (s_dollar t)), (eval_text_no_dollar _ _ _ (s_dollar t')) by done.
  exact (text_agree (as_context K) F u (oo_call Hok) l _ _ Hm).
Qed.

Lemma emit_switch_rel e txt cases t t' :
  text_dollars txt = [] → plain_labels cases → s_unit t = u → sim_out t t' →
  orel (λ x y, x.1 = y.1 ∧ sim_out x.2 y.2) (emit_switch (with_room e K) txt cases t)
                                             (emit_switch (with_room e K) txt cases t').
Proof using Hok.
  intros Hd Hls Hu Hs. unfold emit_switch. pose proof (stext_rel e txt t t' Hd Hu Hs) as H.
  destruct (stext _ txt t) as [[[c v] m]| | |], (stext _ txt t') as [[[c' v'] m']| | |]; try done;
    cbn [orel] in H; [|by subst..].
  destruct H as [[= <- <-] Hm1]. cbn [snd] in Hm1. cbn [mbind outcome_bind].
  assert (Hs1 : sim_out (set_smem m t) (set_smem m' t')) by (destruct Hs as (_ & ? & ?); by split_and!).
  assert (Hmatch : ∀ ls, Forall (λ l, text_dollars l = []) ls →
    smatches (with_room e K) c v ls (set_smem m t) = smatches (with_room e K) c v ls (set_smem m' t')).
  { induction 1 as [|l ls Hl _ IH]; [done|]. cbn [smatches].
    pose proof (stext_rel e l _ _ Hl (Hu : s_unit (set_smem m t) = u) Hs1) as Ht.
    destruct (stext _ l (set_smem m t)) as [[[cl vl] ml]| | |],
      (stext _ l (set_smem m' t')) as [[[cl' vl'] ml']| | |]; try done; cbn [orel] in Ht; [|by subst..].
    destruct Ht as [[= <- <-] _]. cbn [mbind outcome_bind]. destruct (common c cl); try done.
    cbn [mbind outcome_bind]. by destruct (v =? vl). }
  assert (Hsel : ∀ cs i d, plain_labels cs → sselect (with_room e K) c v cs (set_smem m t) i d =
                                            sselect (with_room e K) c v cs (set_smem m' t') i d).
  { intros cs i d Hcs. revert i d. induction Hcs as [|[ls d0 b] cs Hl _ IH]; intros i d; [done|].
    cbn [sselect]. rewrite Hmatch by done.
    destruct (smatches _ c v ls _) as [[]| | |]; try done. cbn [mbind outcome_bind]. apply IH. }
  rewrite Hsel by done. by destruct (sselect _ c v cases _ 0 None).
Qed.

Lemma stext_within e l t c v m :
  text_dollars l = [] → s_unit t = u → stext (with_room e K) l t = Ret (c, v, m) →
  agree writable (s_mem t) m.
Proof using Type.
  intros Hd Hu H. unfold stext in H. same_context_in e H. rewrite Hu in H.
  rewrite (eval_text_no_dollar _ _ _ (s_dollar t)) in H by done.
  eapply (text_within _ _ u None writable writable_scalar); [|exact H]. by intros x _ t' p c' _ Hx.
Qed.

Lemma emit_switch_mem e txt cases t i t1 :
  text_dollars txt = [] → s_unit t = u → emit_switch (with_room e K) txt cases t = Ret (i, t1) →
  ∃ m, t1 = set_smem m t ∧ agree writable (s_mem t) m.
Proof using Type.
  unfold emit_switch. intros Hd Hu H. destruct (stext _ txt t) as [[[c v] m]| | |] eqn:E; try done.
  cbn [mbind outcome_bind] in H. destruct (sselect _ _ _ _ _ _ _); try done. cbn in H. injection H as <- <-.
  exists m. split; [done|]. by eapply stext_within.
Qed.

Definition run_switch (txt : string) (cases : list (code_case sline)) (e : Z) (t : smach) : outcome sctl :=
  '(i, t) ← emit_switch (with_room e K) txt cases t;
  match i with Some i => emit_nth (with_room e K) cases i t | None => Ret (SNext t) end.

Lemma suspends_switch l txt cases ls :
  Inj eq eq (o_label K) → text_dollars txt = [] → plain_labels cases → l ∉ ls →
  (∀ i, suspends ls (λ e, emit_nth (with_room e K) cases i) (λ e a t, sgoto_cases (with_room e K) a cases t)) →
  suspends (l :: ls) (λ e t, run_switch txt cases e (advance l t))
    (λ e a t, if o_label K l =? a then Some (run_switch txt cases e (advance l t))
              else sgoto_cases (with_room e K) a cases t).
Proof using Hok.
  intros Hinj Hd Hls Hl Hn.
  assert (Hsw : ∀ e t i t1, good_out e t → emit_switch (with_room e K) txt cases (advance l t) = Ret (i, t1) →
    good_out e t1 ∧ same_stack (s_state t) (s_state t1) ∧ agree writable (s_mem t) (s_mem t1)).
  { intros e t i t1 (Hu & Hp & Hpt) E. apply emit_switch_mem in E as (m & -> & Hag); try done.
    exact (conj (conj Hu (conj Hp (pointers_kept _ _ Hag Hpt))) (conj (conj eq_refl (conj eq_refl eq_refl)) Hag)). }
  assert (Hsim : ∀ e t t', e ≤ o_end K → good_out e t → sim_out t t' →
            orel srel (run_switch txt cases e (advance l t)) (run_switch txt cases e (advance l t'))).
  { intros e t t' He Hg Hs. unfold run_switch.
    pose proof (emit_switch_rel e txt cases _ _ Hd Hls (proj1 Hg : s_unit (advance l t) = u) (sim_advance l _ _ Hs)) as H.
    destruct (emit_switch _ txt cases (advance l t)) as [[i t1]| | |] eqn:E,
      (emit_switch _ txt cases (advance l t')) as [[i' t1']| | |]; try done; cbn in H; [|by subst..].
    destruct H as [<- Hs1]. cbn [mbind outcome_bind]. destruct i as [i|]; [|done].
    apply (su_sim _ _ _ (Hn i)); [done|by eapply Hsw|done]. }
  split; [|done|..].
  - intros e t He Hg. unfold run_switch. destruct (emit_switch _ txt cases _) as [[i t1]| | |] eqn:E; try done.
    destruct (Hsw e t i t1 Hg E) as (Hg1 & (? & ? & ?) & Ha1). cbn [mbind outcome_bind]. destruct i as [i|]; [|by split_and!].
    pose proof (su_keep _ _ _ (Hn i) e t1 He Hg1) as Hk. unfold kept, same_stack in *.
    destruct (emit_nth _ cases i t1) as [[t2|r t2]| | |]; try done; destruct Hk as (? & (? & ? & ?) & ?);
      split_and!; try done; try congruence; by eapply agree_trans.
  - intros e e' t t1 He Hg E. unfold run_switch in *. change (emit_switch (with_room e' K)) with (emit_switch (with_room e K)).
    destruct (emit_switch _ txt cases _) as [[i t2]| | |] eqn:Esw; try done. cbn [mbind outcome_bind] in *.
    destruct i as [i|]; [|done]. apply (su_more _ _ _ (Hn i) e); [done|by eapply Hsw|done].
  - intros e e' t r t1 He Hg E. unfold run_switch in E. destruct (emit_switch _ txt cases _) as [[i t2]| | |] eqn:Esw; try done.
    cbn [mbind outcome_bind] in E. destruct i as [i|]; [|done].
    destruct (su_full _ _ _ (Hn i) e e' t2 r t1 He) as (Hr & x & Hx & Hi & Hgo); [by eapply Hsw|done|].
    split; [done|]. exists x. split; [by right|split; [done|]]. intros t1' Hs.
    rewrite (proj2 (Z.eqb_neq _ _)) by (intros Ex; apply (inj _) in Ex as ->; done).
    unfold run_switch. change (emit_switch (with_room e' K)) with (emit_switch (with_room e K)). rewrite Esw. by apply Hgo.
  - intros e a t Ha. rewrite (proj2 (Z.eqb_neq _ _)) by (apply Ha; by left).
    destruct cases as [|c cases]; [done|]. apply (su_absent _ _ _ (Hn 0%nat)). intros x Hx. apply Ha. by right.
Qed.

(** *** The shape of generated serializers *)

Inductive sinstr : scode → Prop :=
  | sinstr_atomic l b : satomic b → sinstr (Block (Line (SLabel l) :: Line (SAdvanceTo l) :: b))
  | sinstr_switch l e cases :
      text_dollars e = [] → plain_labels cases → scases cases →
      sinstr (Block [Line (SLabel l); Line (SAdvanceTo l); Switch e cases])
with scases : list (code_case sline) → Prop :=
  | scases_nil : scases []
  | scases_cons labels d body cases :
      sinstrs body → scases cases → scases (mkCodeCase labels d body :: cases)
with sinstrs : list scode → Prop :=
  | sinstrs_nil : sinstrs []
  | sinstrs_cons c l : sinstr c → sinstrs l → sinstrs (c :: l).


End Ok.
End Serializer.

Scheme sinstr_mind := Minimality for sinstr Sort Prop
  with scases_mind := Minimality for scases Sort Prop
  with sinstrs_mind := Minimality for sinstrs Sort Prop.
Combined Scheme sinstr_mutind from sinstr_mind, scases_mind, sinstrs_mind.

(** The labels of a piece of code. *)
Fixpoint slabels_of (c : scode) : list string :=
  match c with
  | Line (SLabel l) => [l]
  | Line _ => []
  | Block body => concat (map slabels_of body)
  | Switch _ cases => concat (map scase_labels cases)
  end
with scase_labels (c : code_case sline) : list string :=
  match c with mkCodeCase _ _ body => concat (map slabels_of body) end.
Definition slabels_list (l : list scode) : list string := concat (map slabels_of l).
Definition slabels_cases (l : list (code_case sline)) : list string := concat (map scase_labels l).

Lemma slabels_list_app c c' : slabels_list (c ++ c') = slabels_list c ++ slabels_list c'.
Proof. unfold slabels_list. by rewrite map_app, concat_app. Qed.

Section Resumption.
  Context (K : scontext) (F : Z → Prop) (u : Z) (Hok : out_ok K F u) (Hinj : Inj eq eq (o_label K)).

Abbreviation suspends_list ls l :=
  (suspends K F u ls (λ e, emit_list (with_room e K) l) (λ e a t, sgoto_list (with_room e K) a l t)).
Abbreviation suspends_nth ls l i :=
  (suspends K F u ls (λ e, emit_nth (with_room e K) l i) (λ e a t, sgoto_cases (with_room e K) a l t)).
Abbreviation suspends_code ls c :=
  (suspends K F u ls (λ e, emit_code (with_room e K) c) (λ e a t, sgoto_code (with_room e K) a c t)).

Lemma satomic_labels b : satomic K b → slabels_list b = [] ∧ ∀ e a t, sgoto_list (with_room e K) a b t = None.
Proof using Type. by destruct 1. Qed.

(** Functions that agree everywhere. *)
Lemma suspends_ext ls run go run' go' :
  (∀ e t, run e t = run' e t) → (∀ e a t, go e a t = go' e a t) →
  suspends K F u ls run go → suspends K F u ls run' go'.
Proof using Type.
  intros Hr Hg [H1 H2 H3 H4 H5]. split.
  - intros e t. rewrite <- Hr. apply H1.
  - intros e t t'. rewrite <- !Hr. apply H2.
  - intros e e' t t1. rewrite <- !Hr. apply H3.
  - intros e e' t r t1. rewrite <- Hr. intros He Hgd E. destruct (H4 e e' t r t1 He Hgd E) as (? & l & ? & ? & Hgo).
    split; [done|]. exists l. split_and!; [done..|]. intros t1' Hs. rewrite <- Hg, <- Hr. by apply Hgo.
  - intros e a t. rewrite <- Hg. apply H5.
Qed.

Lemma disjoint_labels (ls ls' : list string) : NoDup (ls ++ ls') → ∀ l, l ∈ ls → l ∉ ls'.
Proof using Type. by intros (_ & Hd & _)%list.NoDup_app. Qed.

(** One of two pieces of code runs, and jumps may go into both. *)
Lemma suspends_left ls1 ls2 run run2 go go2 :
  suspends K F u ls1 run go → suspends K F u ls2 run2 go2 →
  suspends K F u (ls1 ++ ls2) run
    (λ e a t, match go e a t with Some o => Some o | None => go2 e a t end).
Proof using Type.
  intros [H1 H2 H3 H4 H5] [_ _ _ _ H6]. split; try done.
  - intros e e' t r t1 He Hg E. destruct (H4 e e' t r t1 He Hg E) as (? & l & Hl & ? & Hgo).
    split; [done|]. exists l. split_and!; [by apply elem_of_app; left|done|]. intros t1' Hs.
    destruct (Hgo t1' Hs) as (o & -> & ?). by exists o.
  - intros e a t Ha. rewrite H5, H6; [done|..]; intros l Hl; apply Ha, elem_of_app; auto.
Qed.

Lemma suspends_right ls1 ls2 run run2 go go2 :
  (∀ l, l ∈ ls1 → l ∉ ls2) → suspends K F u ls1 run go → suspends K F u ls2 run2 go2 →
  suspends K F u (ls1 ++ ls2) run2
    (λ e a t, match go e a t with Some o => Some o | None => go2 e a t end).
Proof using Hinj.
  intros Hd [_ _ _ _ H5] [H1 H2 H3 H4 H6]. split; try done.
  - intros e e' t r t1 He Hg E. destruct (H4 e e' t r t1 He Hg E) as (? & l & Hl & ? & Hgo).
    split; [done|]. exists l. split_and!; [by apply elem_of_app; right|done|]. intros t1' Hs.
    rewrite H5; [by apply Hgo|]. intros x Hx Ex. apply (inj _) in Ex as ->. by apply (Hd l).
  - intros e a t Ha. rewrite H5, H6; [done|..]; intros l Hl; apply Ha, elem_of_app; auto.
Qed.

Lemma sgoto_list_cons K' a c l t :
  sgoto_list K' a (c :: l) t =
  match sgoto_code K' a c t with
  | Some o => Some (then_emit o (emit_list K' l))
  | None => sgoto_list K' a l t
  end.
Proof using Type. reflexivity. Qed.

Lemma sgoto_block e a l b t :
  sgoto_code (with_room e K) a (Block (Line (SLabel l) :: Line (SAdvanceTo l) :: b)) t =
  if o_label K l =? a then Some (emit_list (with_room e K) b (advance K l t))
  else sgoto_list (with_room e K) a b t.
Proof using Type.
  trans (sgoto_list (with_room e K) a (Line (SLabel l) :: Line (SAdvanceTo l) :: b) t); [reflexivity|].
  rewrite !sgoto_list_cons. cbn [sgoto_code]. change (o_label (with_room e K) l) with (o_label K l).
  destruct (o_label K l =? a); reflexivity.
Qed.

Lemma shape_suspends :
  (∀ c, sinstr K c → NoDup (slabels_of c) → suspends_code (slabels_of c) c) ∧
  (∀ l, scases K l → NoDup (slabels_cases l) → ∀ i, suspends_nth (slabels_cases l) l i) ∧
  (∀ l, sinstrs K l → NoDup (slabels_list l) → suspends_list (slabels_list l) l).
Proof using Hok Hinj.
  apply sinstr_mutind.
  - intros l b Hb _. destruct (satomic_labels b Hb) as [El Hgo].
    change (slabels_of (Block _)) with (l :: slabels_list b). rewrite El.
    eapply suspends_ext; [..|apply (suspends_label K F u Hok l b), (satomic_repeats K F u Hok), Hb].
    + intros e t. by rewrite emit_block.
    + intros e a t. by rewrite sgoto_block, Hgo.
  - intros l txt cases Hd Hls _ IH Hnd.
    assert (El : slabels_list [Switch txt cases] = slabels_cases cases).
    { unfold slabels_list. cbn [map concat slabels_of]. by rewrite app_nil_r. }
    change (slabels_of (Block _)) with (l :: slabels_list [Switch txt cases]) in *. rewrite El in *.
    apply list.NoDup_cons in Hnd as [Hl Hnd].
    eapply suspends_ext; [..|by apply (suspends_switch K F u Hok l txt cases _ Hinj Hd Hls Hl), IH].
    + intros e t. by rewrite emit_block, emit_one.
    + intros e a t. rewrite sgoto_block, sgoto_list_cons.
      change (sgoto_code (with_room e K) a (Switch txt cases) t) with (sgoto_cases (with_room e K) a cases t).
      destruct (o_label K l =? a).
      * by rewrite emit_one.
      * destruct (sgoto_cases _ a cases t); [|done]. by rewrite then_emit_nil.
  - intros _ i. eapply suspends_ext; [..|apply suspends_nil]; by destruct i.
  - intros ls d body cases _ IHb _ IHc Hnd i.
    change (slabels_cases (mkCodeCase ls d body :: cases)) with (slabels_list body ++ slabels_cases cases) in *.
    pose proof Hnd as (Hnb & _ & Hnc)%list.NoDup_app. specialize (IHb Hnb). specialize (IHc Hnc).
    destruct i as [|i].
    + apply (suspends_left _ _ _ _ _ _ IHb (IHc 0%nat)).
    + apply (suspends_right _ _ _ _ _ _ (disjoint_labels _ _ Hnd) IHb (IHc i)).
  - intros _. eapply suspends_ext; [..|apply suspends_nil]; done.
  - intros c l _ IHc _ IHl Hnd. change (slabels_list (c :: l)) with (slabels_of c ++ slabels_list l) in *.
    pose proof Hnd as (Hnc & _ & Hnl)%list.NoDup_app.
    eapply suspends_ext; [..|apply (suspends_seq K F u Hok _ _ _ _ _ _ Hinj (disjoint_labels _ _ Hnd) (IHc Hnc) (IHl Hnl))].
    + reflexivity.
    + intros e a t. by rewrite sgoto_list_cons.
Qed.

(** ** Before the fields *)

(** The updates of lengths and the variables: [dollar] has the type of the variable. *)
Inductive opening : list scode → Prop :=
  | op_nil : opening []
  | op_blank b : opening b → opening (Line SBlank :: b)
  | op_length cu f e b :
      text_dollars e = [] → opening b →
      opening (Line (SSrcField cu f) :: Line (SSetLength e) :: b)
  | op_variable cu f e b :
      (∀ o t, assoc f (o_members K) = Some (o, t) → Forall (λ t', t' = t) (text_dollars e)) → opening b →
      opening (Line (SDollar cu f) :: Line (SExpr e) :: b).

Lemma opening_app b b' : opening b → opening b' → opening (b ++ b').
Proof using Type. induction 1; cbn; [done|intros; by constructor; auto..]. Qed.

Lemma opening_labels b : opening b → slabels_list b = [] ∧ ∀ e a t l,
  sgoto_list (with_room e K) a (b ++ l) t = sgoto_list (with_room e K) a l t.
Proof using Type.
  induction 1 as [|b _ [El Hg]|cu f e b _ _ [El Hg]|cu f e b _ _ [El Hg]]; [done|..];
    (split; [exact El|]; intros e0 a t l; cbn [app]; rewrite !sgoto_list_cons; cbn [sgoto_code]; apply Hg).
Qed.

(** They do not look at the end of the buffer and write scalar members only. *)
Definition opened (t : smach) (o : outcome sctl) : Prop :=
  match o with
  | Ret (SNext t1) => s_state t1 = s_state t ∧ s_unit t1 = u ∧ agree (writable K F u) (s_mem t) (s_mem t1)
  | Ret (SReturn _ _) => False
  | _ => True
  end.

Lemma opened_trans t t1 o :
  s_state t1 = s_state t → agree (writable K F u) (s_mem t) (s_mem t1) → opened t1 o → opened t o.
Proof using Type.
  intros Hs Hm. unfold opened. destruct o as [[t2|r t2]| | |]; try done.
  intros (? & ? & ?). split_and!; [congruence|done|by eapply agree_trans].
Qed.

Lemma text_scalar e d s t c v m :
  (∀ t' p c, t' ∈ text_dollars s → lvalue (o_enums K) (o_members K) u d (XDollar t') = Ret (p, c) →
     ∀ a, p ≤ a < p + Z.of_nat (sizeof (rep c)) → writable K F u a) →
  s_unit t = u → s_dollar t = d → stext (with_room e K) s t = Ret (c, v, m) →
  agree (writable K F u) (s_mem t) m.
Proof using Type.
  intros Hd Hu Hdt H. unfold stext in H. change (o_enums (with_room e K)) with (o_enums K) in H.
  change (o_members (with_room e K)) with (o_members K) in H. rewrite Hu, Hdt in H.
  eapply (text_within _ _ u d _ (writable_scalar K F u)); [|exact H]. intros x Hx t' p c' Ht'.
  apply Hd. unfold text_dollars. by rewrite Hx.
Qed.

Lemma set_length_opened e txt t :
  text_dollars txt = [] → s_unit t = u → opened t (emit_line (with_room e K) (SSetLength txt) t).
Proof using Type.
  intros Hd Hu. cbn [emit_line]. unfold text_dollars in Hd. destruct (read_cpp txt) as [x|]; [|done].
  cbn [some_or_ill mbind outcome_bind]. rewrite Hu.
  change (o_enums (with_room e K)) with (o_enums K). change (o_members (with_room e K)) with (o_members K).
  destruct (lvalue _ _ u (s_dollar t) x) as [[p c]| | |] eqn:E; try done. cbn [mbind outcome_bind].
  destruct (read uint64_t _ _); try done. cbn [mbind outcome_bind].
  destruct (implicit _ c _) as [v| | |]; try done. cbn [mbind outcome_bind].
  destruct (write (rep c) _ p v) as [m| | |] eqn:Ew; try done. cbn. split_and!; [done..|].
  eapply write_within; [done|]. eapply (lvalue_within _ _ u (s_dollar t) _ (writable_scalar K F u)); [|done].
  intros t' ? ? Ht'. rewrite Hd in Ht'. by apply not_elem_of_nil in Ht'.
Qed.

Lemma variable_opened e cu f txt t k :
  (∀ o ty, assoc f (o_members K) = Some (o, ty) → Forall (λ t', t' = ty) (text_dollars txt)) → s_unit t = u →
  (∀ t1, s_unit t1 = u → opened t1 (k t1)) →
  opened t (then_emit (emit_line (with_room e K) (SDollar cu f) t)
             (λ t, then_emit (emit_line (with_room e K) (SExpr txt) t) k)).
Proof using Type.
  intros Hd Hu Hk. cbn [emit_line]. unfold smember_address. change (o_members (with_room e K)) with (o_members K).
  destruct (assoc f (o_members K)) as [[o ty]|] eqn:Ef; [|done]. cbn [some_or_ill mbind outcome_bind then_emit].
  specialize (Hd o ty eq_refl). rewrite Hu.
  destruct (stext (with_room e K) txt (set_dollar (u + o) t)) as [[[c v] m]| | |] eqn:E; try done.
  cbn [mbind outcome_bind then_emit].
  apply (opened_trans t (set_smem m (set_dollar (u + o) t))); [done| |by apply Hk].
  eapply (text_scalar e (Some (u + o)) txt (set_dollar (u + o) t)); [|done|done|exact E].
  intros t' p c' Ht' Hl. rewrite list.Forall_forall in Hd. rewrite (Hd t' Ht') in Hl. cbn in Hl.
  destruct (scalar_type (o_enums K) ty) as [c0|] eqn:Es; [|done]. injection Hl as <- <-.
  apply (writable_scalar K F u f). unfold member. rewrite Ef. cbn. by rewrite Es.
Qed.

Lemma opening_run b e t : opening b → s_unit t = u → opened t (emit_list (with_room e K) b t).
Proof using Type.
  intros Hb. revert t. induction Hb as [|b _ IH|cu f txt b Hd _ IH|cu f txt b Hd _ IH]; intros t Hu.
  - cbn. split_and!; [done..|apply agree_refl].
  - by apply IH.
  - rewrite emit_src_field. destruct (assoc f (o_members (with_room e K))) as [[o ty]|]; [|done].
    set (t0 := set_src (s_unit t + o) t). cbn [emit_list emit_code].
    pose proof (set_length_opened e txt t0 Hd Hu) as H.
    destruct (emit_line _ (SSetLength txt) t0) as [[t1|r t1]| | |]; try done. destruct H as (Hs & Hu1 & Ha).
    cbn [then_emit mbind outcome_bind].
    apply (opened_trans t t1 _ Hs Ha), IH, Hu1.
  - by apply variable_opened.
Qed.

Lemma opening_same b e e' t : opening b → emit_list (with_room e K) b t = emit_list (with_room e' K) b t.
Proof using Type.
  intros Hb. revert t. induction Hb as [|b _ IH|cu f txt b _ _ IH|cu f txt b _ _ IH]; intros t; cbn [emit_list emit_code].
  - done.
  - apply IH.
  - change (emit_line (with_room e' K) (SSrcField cu f)) with (emit_line (with_room e K) (SSrcField cu f)).
    change (emit_line (with_room e' K) (SSetLength txt)) with (emit_line (with_room e K) (SSetLength txt)).
    destruct (emit_line _ (SSrcField cu f) t) as [[t1|]| | |]; try done. cbn [then_emit mbind outcome_bind].
    destruct (emit_line _ (SSetLength txt) t1) as [[t2|]| | |]; try done. apply IH.
  - change (emit_line (with_room e' K) (SDollar cu f)) with (emit_line (with_room e K) (SDollar cu f)).
    change (emit_line (with_room e' K) (SExpr txt)) with (emit_line (with_room e K) (SExpr txt)).
    destruct (emit_line _ (SDollar cu f) t) as [[t1|]| | |]; try done. cbn [then_emit mbind outcome_bind].
    destruct (emit_line _ (SExpr txt) t1) as [[t2|]| | |]; try done. apply IH.
Qed.

End Resumption.

(** ** Calls *)

(** The same result, up to the locals. *)
Definition serialized_rel (F : Z → Prop) (r r' : serialized) : Prop :=
  z_result r = z_result r' ∧ z_bytes r = z_bytes r' ∧ z_state r = z_state r' ∧ agree F (z_mem r) (z_mem r').

Lemma sfinish_rel K F o o' : orel (srel F) o o' → orel (serialized_rel F) (sfinish K o) (sfinish K o').
Proof.
  intros H. destruct o as [[t|r t]| | |], o' as [[t'|r' t']| | |]; try done; cbn in H |- *.
  - destruct H as (? & Hs & ?). unfold out_pos. rewrite Hs. by split_and!.
  - destruct H as (-> & ? & Hs & ?). by split_and!.
Qed.

Lemma peek_same_stack n s s' : same_stack s s' → ParserState.peek n s' = ParserState.peek n s.
Proof.
  intros (H1 & H2 & H3). unfold ParserState.peek, ParserState.has_object, ParserState.stack_space.
  by rewrite <- H1, <- H2, <- H3.
Qed.

(** What a first call relies on: [F] are the addresses of the locals of all calls, the unit is at
    [u], and there is room up to [o_end K]. *)
Record first_ok (K : scontext) (F : Z → Prop) (u : Z) (m : mem) (st : ParserState.ParserState) : Prop := {
  fo_ok : out_ok K F u;
  fo_label : Inj eq eq (o_label K);
  fo_label_nz l : o_label K l ≠ 0;
  fo_unit : 0 ≤ u < 2 ^ 64;
  fo_pointers : pointers K F u m;
  fo_stack : apart F (ParserState.stack_top_ st) 8;
  fo_stack_output : apart (λ a, o_start K ≤ a < o_end K) (ParserState.stack_top_ st) 8;
  fo_stack_unit f o t sz al :
    assoc f (o_members K) = Some (o, t) → size_align (o_enums K) t = Some (sz, al) →
    apart (λ a, u + o ≤ a < u + o + sz) (ParserState.stack_top_ st) 8;
  fo_new : ParserState.instruction st = 0 }.

Section Call.
  Context (K : scontext) (F : Z → Prop) (u : Z) (m : mem) (st : ParserState.ParserState).
  Context (Hok : first_ok K F u m st).
  Context (pre fields : list scode) (Hpre : opening K pre) (Hfields : sinstrs K fields).
  Context (Hlabels : NoDup (slabels_list fields)).

Abbreviation body := (pre ++ fields).

(** The entry of the stack is not written. *)
Lemma stack_unwritten : apart (writable K F u) (ParserState.stack_top_ st) 8.
Proof using Hok.
  intros a Ha [HF|[Ho|(f & o & c & Hm & Hs)]].
  - by apply (fo_stack _ _ _ _ _ Hok a).
  - by apply (fo_stack_output _ _ _ _ _ Hok a).
  - destruct (member_scalar (as_context K) f o c Hm) as (t & Hf & _ & Hz).
    by apply (fo_stack_unit _ _ _ _ _ Hok f o t _ _ Hf Hz a).
Qed.

(** The first state: good, with the unit on the stack. *)
Lemma start_good e t0 :
  o_start K ≤ e → start_serializing K m u st = Ret t0 →
  good_out K F u e t0 ∧ ParserState.peek 8 (s_state t0) = Ret (ParserState.stack_top_ st) ∧
  read uint64_t (s_mem t0) (ParserState.stack_top_ st) = Ret u ∧
  agree (λ a, ParserState.stack_top_ st ≤ a < ParserState.stack_top_ st + 8) m (s_mem t0).
Proof using Hok.
  intros He. unfold start_serializing, ParserState.push_reserve. case_bool; [|done].
  cbn [mbind outcome_bind]. destruct (ParserState.peek 8 _) as [p| | |] eqn:Ep; try done.
  cbn [mbind outcome_bind]. destruct (write uint64_t m p u) as [m0| | |] eqn:Ew; try done. intros [= <-].
  assert (p = ParserState.stack_top_ st) as ->.
  { unfold ParserState.peek in Ep. case_bool; [|done]. injection Ep as <-. cbn. lia. }
  split_and!; [|exact Ep|exact (write_read64 _ _ _ _ Ew (fo_unit _ _ _ _ _ Hok))|by apply write_load in Ew as [_ Ew]].
  split_and!; [done|done|exact He|]. intros f o t data len Hf Ht Hd Hl.
  destruct (data_len_at t) as [Hda Hla]. apply write_load in Ew as [_ Ew].
  pose proof (container_size (as_context K) F u (oo_call _ _ _ (fo_ok _ _ _ _ _ Hok)) t Ht) as Hz.
  assert (Hr : ∀ k, 0 ≤ k ≤ 8 → read uint64_t m0 (u + o + k) = read uint64_t m (u + o + k)).
  { intros k Hk. symmetry. apply (read_agree _ uint64_t m m0 _ Ew). intros a Ha Hs.
    change (Z.of_nat (sizeof uint64_t)) with 8 in *.
    apply (fo_stack_unit _ _ _ _ _ Hok f o t _ _ Hf Hz a Hs). lia. }
  cbn in Hd, Hl. rewrite Hr in Hd, Hl by done. by eapply (fo_pointers _ _ _ _ _ Hok).
Qed.

(** A call whose buffer was full, called again with more room, ends as if it had had the room. *)
Lemma serialize_again e e' r1 m1 u' :
  o_start K ≤ e → e ≤ e' ≤ o_end K →
  serialize_call (with_room e K) body m u st = Ret r1 → z_result r1 = Serializing.OUT_BUF_FULL →
  agree F (z_mem r1) m1 →
  orel (serialized_rel F) (serialize_call (with_room e' K) body m1 u' (z_state r1))
    (serialize_call (with_room e' K) body m u st).
Proof using Hok Hpre Hfields Hlabels.
  intros Hs He H1 Hfull Hm1. pose proof (fo_new _ _ _ _ _ Hok) as Hnew. pose proof (fo_ok _ _ _ _ _ Hok) as Hout.
  rewrite serialize_start in H1 by done. rewrite (serialize_start (with_room e' K) body m u st) by done.
  change (start_serializing (with_room e' K) m u st) with (start_serializing K m u st).
  change (start_serializing (with_room e K) m u st) with (start_serializing K m u st) in H1.
  destruct (start_serializing K m u st) as [t0| | |] eqn:Et; try done. cbn [mbind outcome_bind] in *.
  destruct (start_good e t0 Hs Et) as (Hg0 & Hpeek & Hread & _). destruct Hg0 as (Hu0 & Hp0 & Hpt0).
  rewrite emit_list_app in H1. rewrite emit_list_app. rewrite <- (opening_same K pre e e' t0 Hpre).
  pose proof (opening_run K F u pre e t0 Hpre Hu0) as Hop.
  destruct (emit_list (with_room e K) pre t0) as [[t1|]| | |]; try done. destruct Hop as (Hs1 & Hu1 & Ha1).
  cbn [then_emit mbind outcome_bind] in *.
  assert (Hg1 : good_out K F u e t1).
  { split_and!; [done|unfold out_pos in *; rewrite Hs1; lia..|by eapply pointers_kept]. }
  destruct (shape_suspends K F u Hout (fo_label _ _ _ _ _ Hok)) as (_ & _ & Hsus).
  destruct (Hsus fields Hfields Hlabels) as [Hkeep _ _ Hresume _].
  specialize (Hkeep e t1 ltac:(lia) Hg1).
  destruct (emit_list (with_room e K) fields t1) as [[t2|r t2]| | |] eqn:E; try done; injection H1 as <-; [done|].
  cbn in Hm1, Hfull |- *. destruct Hkeep as ((Hu2 & _) & Hst & Ha2).
  destruct (Hresume e e' t1 r t2 He Hg1 E) as (_ & l & _ & Hi & Hgo).
  unfold serialize_call at 1. rewrite Hi. rewrite (proj2 (Z.eqb_neq (o_label K l) 0)) by apply (fo_label_nz _ _ _ _ _ Hok).
  cbn [negb]. rewrite (peek_same_stack 8 _ _ Hst), Hs1, Hpeek. cbn [mbind outcome_bind].
  assert (read uint64_t m1 (ParserState.stack_top_ st) = Ret u) as ->.
  { rewrite <- (read_agree F uint64_t (s_mem t2) m1 _ Hm1) by apply (fo_stack _ _ _ _ _ Hok).
    rewrite <- (read_agree (writable K F u) uint64_t (s_mem t0) (s_mem t2)); [done| |apply stack_unwritten].
    by eapply agree_trans. }
  cbn [mbind outcome_bind]. rewrite (proj2 (opening_labels K pre Hpre)).
  destruct (Hgo (mkS m1 (s_state t2) u 0 None Serializing.NEXT)) as (o & -> & Ho).
  { by split_and!. }
  by apply sfinish_rel.
Qed.

(** A call writes locals, output, scalar members and its stack entry, and reports at most the room. *)
Lemma serialize_first_safe e r :
  o_start K ≤ e ≤ o_end K → serialize_call (with_room e K) body m u st = Ret r →
  agree (λ a, writable K F u a ∨ ParserState.stack_top_ st ≤ a < ParserState.stack_top_ st + 8) m (z_mem r) ∧
  (z_result r = Serializing.DONE ∧ (∃ n, z_bytes r = Some n ∧ 0 ≤ n ≤ e - o_start K) ∨
   z_result r = Serializing.OUT_BUF_FULL ∧ z_bytes r = None).
Proof using Hok Hpre Hfields Hlabels.
  intros He H. pose proof (fo_new _ _ _ _ _ Hok) as Hnew. pose proof (fo_ok _ _ _ _ _ Hok) as Hout.
  rewrite serialize_start in H by done.
  change (start_serializing (with_room e K) m u st) with (start_serializing K m u st) in H.
  destruct (start_serializing K m u st) as [t0| | |] eqn:Et; try done. cbn [mbind outcome_bind] in *.
  destruct (start_good e t0 (proj1 He) Et) as ((Hu0 & Hp0 & Hpt0) & _ & _ & Ha0).
  rewrite emit_list_app in H. pose proof (opening_run K F u pre e t0 Hpre Hu0) as Hop.
  destruct (emit_list (with_room e K) pre t0) as [[t1|]| | |]; try done. destruct Hop as (Hs1 & Hu1 & Ha1).
  cbn [then_emit mbind outcome_bind] in *.
  assert (Hg1 : good_out K F u e t1).
  { split_and!; [done|unfold out_pos in *; rewrite Hs1; lia..|by eapply pointers_kept]. }
  destruct (shape_suspends K F u Hout (fo_label _ _ _ _ _ Hok)) as (_ & _ & Hsus).
  destruct (Hsus fields Hfields Hlabels) as [Hkeep _ _ Hresume _].
  specialize (Hkeep e t1 ltac:(lia) Hg1).
  assert (Hag : ∀ m', agree (writable K F u) (s_mem t1) m' →
    agree (λ a, writable K F u a ∨ ParserState.stack_top_ st ≤ a < ParserState.stack_top_ st + 8) m m').
  { intros m' Hm'. eapply agree_trans; [eapply agree_mono; [|exact Ha0]; auto|].
    eapply agree_mono; [|by eapply agree_trans]. auto. }
  destruct (emit_list (with_room e K) fields t1) as [[t2|r2 t2]| | |] eqn:E; try done; injection H as <-;
    destruct Hkeep as ((_ & Hp2 & _) & _ & Ha2); (split; [by apply Hag|]).
  - left. split; [done|]. eexists; split; [done|]. change (o_start (with_room e K)) with (o_start K). lia.
  - right. destruct (Hresume e e t1 r2 t2 ltac:(lia) Hg1 E) as (-> & _). done.
Qed.

End Call.

(** ** Serializing incrementally

    [serialize_loop] calls the serializer with more and more room, [e :: ends], until it returns
    something else than [OUT_BUF_FULL]; between two calls the locals are lost ([scramble]).
    [reserialize_loop] starts anew each time. *)
Section Loops.
  Context (K : scontext) (body : list scode) (scramble : mem → mem).

Fixpoint serialize_loop (e : Z) (ends : list Z) (m : mem) (unit : Z) (st : ParserState.ParserState)
    : outcome (serialized * Z) :=
  r ← serialize_call (with_room e K) body m unit st;
  match z_result r, ends with
  | Serializing.OUT_BUF_FULL, e' :: ends => serialize_loop e' ends (scramble (z_mem r)) unit (z_state r)
  | _, _ => Ret (r, e)
  end.

Fixpoint reserialize_loop (e : Z) (ends : list Z) (m : mem) (unit : Z) (st : ParserState.ParserState)
    : outcome (serialized * Z) :=
  r ← serialize_call (with_room e K) body m unit st;
  match z_result r, ends with
  | Serializing.OUT_BUF_FULL, e' :: ends => reserialize_loop e' ends m unit st
  | _, _ => Ret (r, e)
  end.
End Loops.

Section Incremental.
  Context (K : scontext) (F : Z → Prop) (u : Z) (m : mem) (st : ParserState.ParserState).
  Context (Hok : first_ok K F u m st) (scramble : mem → mem).
  Context (pre fields : list scode) (Hpre : opening K pre) (Hfields : sinstrs K fields).
  Context (Hlabels : NoDup (slabels_list fields)).
  Context (Hscramble : ∀ m, agree F m (scramble m)).

Definition serialize_rel (x y : serialized * Z) : Prop := serialized_rel F x.1 y.1 ∧ x.2 = y.2.

Lemma serialize_suspended ends e e0 r0 m0 :
  o_start K ≤ e0 → e0 ≤ e → growing e ends (o_end K) →
  serialize_call (with_room e0 K) (pre ++ fields) m u st = Ret r0 →
  z_result r0 = Serializing.OUT_BUF_FULL → agree F (z_mem r0) m0 →
  orel serialize_rel (serialize_loop K (pre ++ fields) scramble e ends m0 u (z_state r0))
    (reserialize_loop K (pre ++ fields) e ends m u st).
Proof using Hok Hpre Hfields Hlabels Hscramble.
  revert e e0 r0 m0. induction ends as [|e' ends IH]; intros e e0 r0 m0 Hs He Hg H0 Ho Hm;
    pose proof (growing_le _ _ _ Hg) as Hle.
  all: pose proof (serialize_again K F u m st Hok pre fields Hpre Hfields Hlabels e0 e r0 m0 u Hs
                    (conj He Hle) H0 Ho Hm) as H.
  all: cbn [serialize_loop reserialize_loop].
  all: destruct (serialize_call (with_room e K) (pre ++ fields) m0 u _) as [r| | |] eqn:E,
    (serialize_call (with_room e K) (pre ++ fields) m u st) as [r'| | |] eqn:E'; try done; cbn in H |- *;
    [|by subst..].
  - pose proof H as (Hr & _). rewrite Hr. by destruct (z_result r').
  - pose proof H as (Hr & _ & Hst & Ha). rewrite Hr.
    destruct (z_result r') eqn:Er; try by split.
    rewrite Hst. destruct Hg as [He' Hg]. eapply (IH e' e r'); try done; [lia|].
    eapply agree_trans; [by apply agree_sym|apply Hscramble].
Qed.

Lemma serialize_loop_equiv e ends :
  o_start K ≤ e → growing e ends (o_end K) →
  orel serialize_rel (serialize_loop K (pre ++ fields) scramble e ends m u st)
    (reserialize_loop K (pre ++ fields) e ends m u st).
Proof using Hok Hpre Hfields Hlabels Hscramble.
  intros Hs Hg. assert (Hrefl : ∀ r : serialized * Z, serialize_rel r r).
  { intros r. split; [|done]. by split_and!; try apply agree_refl. }
  destruct ends as [|e' ends]; cbn [serialize_loop reserialize_loop];
    destruct (serialize_call (with_room e K) (pre ++ fields) m u st) as [r| | |] eqn:E; try done; cbn [mbind outcome_bind].
  - destruct (z_result r); apply Hrefl.
  - destruct (z_result r) eqn:Er; try apply Hrefl. destruct Hg as [He Hg]. by eapply serialize_suspended.
Qed.

End Incremental.
