(* ===== verification/Outgoing.v ===== *)
(** * Generated serializers work incrementally

    What [SerializerGenerator] writes for a unit has the shape [Suspend.v] asks for.  Hence a
    generated serializer that is called again whenever its output buffer has grown ends like one
    that had all the room from the start, and it writes nothing outside the output, its locals, its
    stack entry and the scalar members of the unit. *)

From S2P Require Import Prelude Util Runtime Ident Ast Units Translate Generate Exec Resume Incremental Deliver Emit RoundTrip Replay Suspend.
Import Util.Chars Util.Strings Util.StringLemmas Ident.Id Units.Units Translate.Translate Translate.Cpp.
Import Runtime.Memory Generate.Generator Generate.ParserGenerator Generate.SerializerGenerator Generate.UnitClass.
Import Exec.Types Exec.Eval Exec.Exec Emit.Emit.

Local Open Scope Z_scope.

(** ** Units the theorems are about *)

Section Flushable.
  Context (us : units) (options : Options).

(** The text of an expression does not use [$$], or gives it the type [t] only. *)
Definition without_dollar (e : expr) : bool :=
  match expression_text us e with Ret s => bool_decide (text_dollars s = []) | _ => true end.
Definition dollar_typed (t : string) (e : expr) : bool :=
  match expression_text us e with
  | Ret s => bool_decide (Forall (λ t', t' = t) (text_dollars s))
  | _ => true
  end.

Definition is_string (t : option ty) : bool :=
  match t with Some t => match kind t with TString => true | _ => false end | None => false end.

(** A string that is only kept as a pointer to the input is no [var_string]. *)
Definition flushable_atomic (b : item_base) : bool :=
  negb (is_string (serialized_type b) && negb (app_accessible b) && input_pointers options).
Fixpoint flushable_field (f : field) : bool :=
  let flushable_fields := fix flushable_fields (l : list field) : bool :=
    match l with [] => true | f :: l => flushable_field f && flushable_fields l end in
  let flushable_cases := fix flushable_cases (l : list case) : bool :=
    match l with
    | [] => true
    | mkCase es items _ :: l => forallb without_dollar es && flushable_fields items && flushable_cases l
    end in
  match f with
  | mkField b _ FAtomicType => flushable_atomic b
  | mkField _ _ (FSwitch (Some e) cases) => without_dollar e && flushable_cases cases
  | _ => true
  end.
Definition flushable_length (b : item_base) : bool :=
  match attr_lookup "length" (attributes_ b) with
  | Some a => match attr_value a with Some e => without_dollar e | None => true end
  | None => true
  end.
Definition flushable_variable (b : item_base) : bool :=
  implb (parsing_only b) (store_parsing_only options) &&
  match attr_lookup "serialize" (attributes_ b), item_type b with
  | Some a, Some t =>
      match attr_value a, type_text us t with
      | Some e, Ret t => dollar_typed t e
      | _, _ => true
      end
  | _, _ => true
  end.
Fixpoint flushable (l : list item) : bool :=
  match l with
  | [] => true
  | IField f :: l => flushable_length (fbase f) && flushable_field f && flushable l
  | IVariable b _ :: l => flushable_variable b && flushable l
  | _ :: l => flushable l
  end.

End Flushable.

(** ** The shape of generated serializers *)

Section SerializerShape.
  Context (us : units) (u : unit_type) (options : Options) (K : scontext).
  Context (ms tms : list (string * string)).
  Context (Hes : ∀ t, t ∈ container_types → assoc t (o_enums K) = None).
  Context (Hms : NoDup ms.*1).
  Context (Hmem : ∀ f o t, assoc f (o_members K) = Some (o, t) → (f, t) ∈ ms).
  Context (Htms : NoDup tms.*1).
  Context (Htmp : ∀ n q t, assoc n (o_temps K) = Some (q, t) → (n, t) ∈ tms).

(** What [visit] writes for an item. *)
Definition svisited (c : list scode) : Prop :=
  satomic K c ∨ ∃ e cases, c = [Switch e cases] ∧ text_dollars e = [] ∧ plain_labels cases ∧ scases K cases.

Lemma sinstrs_app c c' : sinstrs K c → sinstrs K c' → sinstrs K (c ++ c').
Proof using Type. intros H H'. induction H; [done|]. cbn. by constructor. Qed.

Lemma serialize_item_shape b visit g c g' :
  gen_wf g →
  (∀ g c g', gen_wf g → visit g = Ret (c, g') → generates tms g g' (slabels_list c) (svisited c)) →
  serialize_item u b visit g = Ret (c, g') → generates tms g g' (slabels_list c) (sinstrs K c).
Proof using Type.
  intros Hg Hv H. unfold serialize_item in H. destruct_Ret H. cbn [newInstructionLabel] in H. cbn in H.
  destruct_Ret H. injection H as <- <-.
  match goal with H : visit _ = _ |- _ => apply Hv in H; [|by destruct Hg; split; cbn; try lia] end.
  match goal with H : generates _ _ _ _ _ |- _ => destruct H as [[W L T N F] P] end. cbn in L, T, F.
  split.
  - unfold slabels_list. cbn [map concat slabels_of]. rewrite app_nil_r.
    split; [done|lia|done| |].
    + constructor; [|done]. intros Hin. rewrite list.Forall_forall in F.
      destruct (F _ Hin) as (k & d & Hk & El). apply label_inj in El; destruct Hg; lia.
    + constructor.
      * eexists _, _. split; [|reflexivity]. lia.
      * eapply list.Forall_impl; [done|]. intros x. apply numbered_mono; lia.
  - intros Ht. constructor; [|constructor]. destruct (P Ht) as [Ha|(e & cases & -> & Hd & Hl & Hc)].
    + by constructor.
    + by constructor.
Qed.

Lemma serialize_type_shape b ip ty cu f fm g c g' :
  gen_wf g → supported_atomic us options b = true → flushable_atomic options b = true →
  ip = negb (app_accessible b) && input_pointers options →
  addSingleUnitField us options b true = Ret fm → fm ⊆ ms → name (item_id b) = Ret f →
  item_type b = Some ty → serialized_type b = Some ty →
  serialize_type us b ip ty g = Ret (c, g') →
  generates tms g g' (slabels_list c) (satomic K (Line (SSrcField cu (unitFieldName f)) :: c)).
Proof using Hes Hms Hmem.
  intros Hg Hs Hfl Hip Hfm Hin Hf Ht Hst H. unfold supported_atomic in Hs.
  rewrite !andb_true_iff in Hs. destruct Hs as [[[Hpure Hw] Hpo] _]. rewrite Hst in Hw. cbn in Hw.
  assert (Hdone : ∀ g', gen_wf g' → lastLabelId_ g' = lastLabelId_ g → temp_vars_ g' = temp_vars_ g →
            gen_step g g' []).
  { intros g1 H1 H2 H3. split; [done|lia|by rewrite H3|constructor|constructor]. }
  assert (Hr := reset_wf g Hg). assert (Hl := log_wf _ Hr).
  assert (Hmt : ∀ o t, assoc (unitFieldName f) (o_members K) = Some (o, t) →
    if ip then t = "dr::unit::var_stream_range" else type_text us ty = Ret t).
  { intros o t Ho. pose proof (field_member us options (as_context K) ms Hms Hmem b fm f o t Hpo Hfm Hin Hf Ho) as Hx.
    rewrite <- Hip, Ht in Hx. destruct ip; [done|]. by destruct Hx as (ty' & [= <-] & ?). }
  unfold serialize_type in H. destruct (kind ty) eqn:Hk; try (injection H as <- <-;
    split; [by apply Hdone|]; intros _; by constructor).
  - injection H as <- <-. split; [by destruct ip; apply Hdone|]. intros _. unfold visit_type_Bytes_out. destruct ip.
    + apply sa_range. intros o t. apply Hmt.
    + apply sa_bytes; [done|]. intros o t Ho. specialize (Hmt o t Ho). apply type_text_kind in Hmt.
      rewrite Hk in Hmt. subst t. split; [elem_dec|done].
  - injection H as <- <-. split; [by apply Hdone|]. intros _. unfold visit_type_String_out.
    apply sa_bytes; [done|]. intros o t Ho. specialize (Hmt o t Ho).
    unfold flushable_atomic in Hfl. rewrite Hst in Hfl. cbn in Hfl. rewrite Hk in Hfl. cbn in Hfl.
    rewrite <- Hip in Hfl. destruct ip; [done|]. apply type_text_kind in Hmt.
    rewrite Hk in Hmt. subst t. split; [elem_dec|done].
  - unfold visit_type_Integer_out in H. destruct (byteOrderLabel us b) as [bo| | |]; cbn [mbind outcome_bind] in H; try done.
    injection H as <- <-. split; [by apply Hdone|]. intros _. apply sa_int.
    by eapply (field_int us options (as_context K) ms Hes Hms Hmem b fm ty).
Qed.

(** [visit(AtomicType)]. *)
Lemma visit_AtomicType_out_shape b fm g c g' :
  gen_wf g → supported_atomic us options b = true → flushable_atomic options b = true →
  addSingleUnitField us options b true = Ret fm → fm ⊆ ms →
  visit_AtomicType_out us u options b g = Ret (c, g') →
  generates tms g g' (slabels_list c) (satomic K c).
Proof using Hes Hms Hmem Htms Htmp.
  intros Hg Hs Hfl Hfm Hin H. unfold visit_AtomicType_out in H. unfold serialized_type_of_item in H.
  destruct (serialized_type b) as [st|] eqn:Hst; [|done]. cbn [mbind outcome_bind] in H.
  pose proof Hs as Hs'. unfold supported_atomic in Hs'. rewrite !andb_true_iff in Hs'.
  destruct Hs' as [[[_ Hw] _] Ht]. destruct (transformed b) eqn:Etr.
  - apply andb_prop in Ht as [Hi Hto]. rewrite Hst in Hi, Hw. cbn in Hi, Hw.
    destruct (kind st) as [| | | | | | | | | |w sg| | | | | | | | | | | | |] eqn:Hk; try done.
    destruct (type_text us st) as [s| | |] eqn:Es; try done. cbn [mbind outcome_bind] in H.
    destruct (addTemp s g) as [n g1] eqn:Ea. destruct (addTemp_step s g n g1 Hg Ea) as [Hstep Hn].
    rewrite Hto in H. destruct (exprCurrentUnit u) as [cu| | |]; try done. cbn [mbind outcome_bind] in H.
    destruct (name (item_id b)) as [f| | |]; try done. cbn [mbind outcome_bind] in H.
    unfold serialize_type in H. rewrite Hk in H. unfold visit_type_Integer_out in H.
    destruct (byteOrderLabel us b) as [bo| | |]; try done. cbn [mbind outcome_bind] in H.
    injection H as <- <-. cbn [app].
    split; [by destruct Hstep; split; try done; apply reset_wf|].
    intros Hpre. apply sa_temp. intros q t Hq. apply Htmp in Hq.
    apply type_text_kind in Es. rewrite Hk in Es.
    assert (t = s) as ->.
    { eapply assoc_unique; [exact Htms|exact Hq|]. eapply elem_of_prefix; [exact Hn|exact Hpre]. }
    subst s. destruct (int_type_scalar (o_enums K) w sg Hw) as (T & HT & HW). by exists (CInt T).
  - unfold has_serialized_type in Ht. unfold serialized_type in Hst.
    destruct (serialized_type_ b) as [|] eqn:Eb; [done|].
    destruct_Ret H. injection H as <- <-.
    match goal with Hp : serialize_type _ _ _ _ _ = _ |- _ =>
      eapply serialize_type_shape in Hp; [exact Hp|..]; try done end.
    unfold serialized_type. by rewrite Eb.
Qed.

(** The loops inside [flushable_field]. *)
Fixpoint flushable_fields (l : list field) : bool :=
  match l with [] => true | f :: l => flushable_field us options f && flushable_fields l end.
Fixpoint flushable_cases (l : list case) : bool :=
  match l with
  | [] => true
  | mkCase es items _ :: l => forallb (without_dollar us) es && flushable_fields items && flushable_cases l
  end.

(** What holds of every field. *)
Definition field_out_shape (f : field) : Prop :=
  ∀ g c g' fm, gen_wf g → supported_field us options f = true → flushable_field us options f = true →
  field_members us options f = Ret fm → fm ⊆ ms →
  visit_field_out us u options f g = Ret (c, g') → generates tms g g' (slabels_list c) (svisited c).
Definition case_out_shape (cs : case) : Prop :=
  match cs with mkCase _ items _ => Forall field_out_shape items end.

Lemma out_fields_shape l :
  Forall field_out_shape l →
  ∀ g c g' fm, gen_wf g → supported_fields us options l = true → flushable_fields l = true →
  fields_members us options l = Ret fm → fm ⊆ ms → out_fields us u options l g = Ret (c, g') →
  generates tms g g' (slabels_list c) (sinstrs K c).
Proof using Type.
  induction 1 as [|f l Hf _ IH]; intros g c g' fm Hg Hs Hfl Hm Hin H; cbn in Hs, Hfl, Hm, H.
  { injection H as <- <-. apply generates_refl; [done|constructor]. }
  apply andb_prop in Hs as [Hs1 Hs2], Hfl as [Hfl1 Hfl2]. destruct_Ret Hm. injection Hm as <-. destruct_Ret H.
  injection H as <- <-. rewrite slabels_list_app.
  assert (Hin1 : a ⊆ ms) by (clear -Hin; set_solver).
  assert (Hin2 : a0 ⊆ ms) by (clear -Hin; set_solver).
  match goal with Hp : serialize_item _ _ _ _ = _ |- _ => eapply serialize_item_shape in Hp; [|done|] end.
  2: { intros ? ? ? Hw Hv. by eapply Hf. }
  eapply generates_trans; [done|done| |apply sinstrs_app]. eapply IH; try done.
  by match goal with Hp : generates _ g _ _ _ |- _ => apply Hp end.
Qed.

Lemma translate_plain es ls :
  forallb (without_dollar us) es = true → translate_all us es = Ret ls → Forall (λ l, text_dollars l = []) ls.
Proof using Type.
  revert ls. induction es as [|e es IH]; intros ls Hd H; cbn in Hd, H; [by injection H as <-|].
  apply andb_prop in Hd as [H1 H2]. destruct_Ret H. injection H as <-. constructor; [|by apply IH].
  unfold without_dollar in H1. match goal with E : expression_text us e = _ |- _ => rewrite E in H1 end.
  by bool_to_prop.
Qed.

Lemma out_cases_shape l :
  Forall case_out_shape l →
  ∀ g cs g' fm, gen_wf g → supported_cases us options l = true → flushable_cases l = true →
  cases_members us options l = Ret fm → fm ⊆ ms → out_cases us u options l g = Ret (cs, g') →
  generates tms g g' (slabels_cases cs) (plain_labels cs ∧ scases K cs).
Proof using Type.
  induction 1 as [|[es items d] l Hf _ IH]; intros g c g' fm Hg Hs Hfl Hm Hin H; cbn in Hs, Hfl, Hm, H.
  { injection H as <- <-. apply generates_refl; [done|split; constructor]. }
  apply andb_prop in Hs as [Hs1 Hs2], Hfl as [[Hfl0 Hfl1]%andb_prop Hfl2].
  destruct_Ret Hm. injection Hm as <-. destruct_Ret H.
  injection H as <- <-.
  match goal with E : translate_all us es = _ |- _ => pose proof (translate_plain _ _ Hfl0 E) as Hpl end.
  assert (Hin1 : a ⊆ ms) by (clear -Hin; set_solver).
  assert (Hin2 : a0 ⊆ ms) by (clear -Hin; set_solver).
  match goal with Hp : out_fields _ _ _ items _ = _ |- _ =>
    eapply (out_fields_shape items Hf) in Hp; [|done..] end.
  eapply (generates_trans _ _ _ _ _ _ _ _ _ Hg); [done| |].
  - eapply IH; try done. by match goal with Hp : generates _ g _ _ _ |- _ => apply Hp end.
  - intros H1 [H2 H3]. split; by constructor.
Qed.

Lemma visit_field_out_shape f : field_out_shape f.
Proof using Hes Hms Hmem Htms Htmp.
  apply (field_nested_ind field_out_shape case_out_shape); [|done].
  intros b fb k IH g c g' fm Hg Hs Hfl Hm Hin H. destruct k as [| | | | |e cases| |].
  1: { destruct (visit_AtomicType_out_shape b fm g c g' Hg Hs Hfl Hm Hin H) as [H1 H2].
       split; [done|]. intros Ht. left. auto. }
  5: { destruct e as [e|].
       - rewrite visit_switch_out in H. destruct_Ret H. injection H as <- <-.
         cbn in Hfl. apply andb_prop in Hfl as [Hfl1 Hfl2].
         match goal with Hv : out_cases _ _ _ _ _ = _ |- _ =>
           eapply (out_cases_shape cases IH) in Hv; [destruct Hv as [H1 H2]|done..] end.
         split.
         + unfold slabels_list. cbn. by rewrite app_nil_r.
         + intros Ht. right. destruct (H2 Ht). eexists _, _. split_and!; try done.
           unfold without_dollar in Hfl1.
           match goal with E : expression_text us e = _ |- _ => rewrite E in Hfl1 end. by bool_to_prop.
       - injection H as <- <-. apply generates_refl; [done|]. left. constructor. }
  all: injection H as <- <-; split; [|intros _; left; constructor].
  all: try by apply gen_step_refl.
  split; [by apply log_wf|cbn; lia|done|constructor|constructor].
Qed.

(** The fields of a unit. *)
Lemma serialize_fields_shape l :
  ∀ g c g' fm, gen_wf g → supported us options l = true → flushable us options l = true →
  unit_members us options l = Ret fm → fm ⊆ ms → serialize_fields us u options l g = Ret (c, g') →
  generates tms g g' (slabels_list c) (sinstrs K c).
Proof using Hes Hms Hmem Htms Htmp.
  induction l as [|i l IH]; intros g c g' fm Hg Hs Hfl Hm Hin H; cbn in Hs, Hm, H, Hfl.
  { injection H as <- <-. apply generates_refl; [done|constructor]. }
  destruct i as [b d|b pr|f].
  - apply andb_prop in Hfl as [_ Hfl]. destruct_Ret Hm. injection Hm as <-.
    eapply IH; try done. clear -Hin; set_solver.
  - by eapply IH.
  - apply andb_prop in Hs as [Hs1 Hs2], Hfl as [[_ Hfl1]%andb_prop Hfl2]. destruct_Ret Hm. injection Hm as <-.
    destruct_Ret H. injection H as <- <-. rewrite slabels_list_app.
    match goal with Hp : serialize_item _ _ _ _ = _ |- _ => eapply serialize_item_shape in Hp; [|done|] end.
    2: { intros ? ? ? Hw Hv. eapply visit_field_out_shape; try done. clear -Hin. set_solver. }
    eapply generates_trans; [done|done| |apply sinstrs_app]. eapply IH; try done; [|clear -Hin; set_solver].
    by match goal with Hp : generates _ g _ _ _ |- _ => apply Hp end.
Qed.

(** The lengths and the variables. *)
Lemma updateLength_lines f c :
  updateLengthForField us u f = Ret c →
  c = [] ∨ ∃ a e s cu n, attr_lookup "length" (attributes_ (fbase f)) = Some a ∧ attr_value a = Some e ∧
    expression_text us e = Ret s ∧ c = [Line (SSrcField cu n); Line (SSetLength s)].
Proof using Type.
  destruct f as [b fb k]. unfold updateLengthForField. cbn [fbase]. intros E.
  assert (E' : c = [] ∨
    match attr_lookup "length" (attributes_ b) with
    | Some a =>
        match attr_value a with
        | Some (mkExpr sc (EOperator OpAttribute ops)) =>
            length_str ← expression_text us (mkExpr sc (EOperator OpAttribute ops));
            cu ← exprCurrentUnit u; f ← name (item_id b);
            Ret [Line (SSrcField cu (unitFieldName f)); Line (SSetLength length_str)]
        | _ => Ret []
        end
    | None => Ret []
    end = Ret c).
  { destruct k; try (left; by injection E as <-); (destruct (is_byte_type _ && _); [by right|left; by injection E as <-]). }
  destruct E' as [->|E']; [by left|]. clear E.
  destruct (attr_lookup "length" _) as [a|]; [|left; by injection E' as <-].
  destruct (attr_value a) as [[sc x]|] eqn:Ea; [|left; by injection E' as <-].
  destruct x; try (left; by injection E' as <-). destruct kind; try (left; by injection E' as <-).
  right. destruct_Ret E'. injection E' as <-. by eexists a, _, _, _, _.
Qed.

Lemma update_lengths_opening l c :
  flushable us options l = true → update_lengths us u l = Ret c → opening K c.
Proof using Type.
  revert c. induction l as [|i l IH]; intros c Hfl H; cbn in H, Hfl; [injection H as <-; constructor|].
  destruct i as [b d|b pr|f].
  - apply andb_prop in Hfl as [_ Hfl]. by apply IH.
  - by apply IH.
  - apply andb_prop in Hfl as [[Hfl1 _]%andb_prop Hfl2].
    destruct (updateLengthForField us u f) as [c1| | |] eqn:E; try done. cbn [mbind outcome_bind] in H.
    destruct (update_lengths us u l) as [c2| | |]; try done. injection H as <-.
    apply opening_app; [|by apply IH].
    destruct (updateLength_lines f c1 E) as [->|(a & e & s & cu & n & Ha & He & Hs & ->)]; repeat constructor.
    unfold flushable_length in Hfl1. rewrite Ha, He in Hfl1. unfold without_dollar in Hfl1. rewrite Hs in Hfl1.
    by bool_to_prop.
Qed.

Lemma visit_Variable_out_opening b c fm :
  flushable_variable us options b = true → addSingleUnitField us options b false = Ret fm → fm ⊆ ms →
  visit_Variable_out us u b = Ret c → opening K c.
Proof using Hms Hmem.
  intros Hfl Hm Hin H. unfold flushable_variable in Hfl. apply andb_prop in Hfl as [Hpo Hd].
  unfold visit_Variable_out in H. destruct (attr_lookup "serialize" _) as [a|]; [|injection H as <-; constructor].
  destruct (exprCurrentUnit u) as [cu| | |]; try done. cbn [mbind outcome_bind] in H.
  destruct (name (item_id b)) as [f| | |] eqn:Hf; try done. cbn [mbind outcome_bind] in H.
  unfold attr_expr in H. destruct (attr_value a) as [e|]; [|done]. cbn [mbind outcome_bind] in H.
  destruct (expression_text us e) as [s| | |] eqn:Es; try done. injection H as <-.
  apply op_variable; [|constructor]. intros o t Ho. apply Hmem in Ho.
  unfold addSingleUnitField in Hm. destruct (parsing_only b && _) eqn:Ep.
  { apply andb_prop in Ep as [E1 E2]. rewrite E1 in Hpo. cbn in Hpo. by rewrite Hpo in E2. }
  rewrite Hf in Hm. cbn [mbind outcome_bind] in Hm. unfold type_of_item in Hm.
  destruct (item_type b) as [ty|]; [|done]. cbn [mbind outcome_bind] in Hm.
  destruct (type_text us ty) as [tt| | |] eqn:Et; try done. injection Hm as <-. cbn [andb] in Hin.
  assert (t = tt) as ->.
  { eapply assoc_unique; [exact Hms|exact Ho|]. apply Hin. by apply list_elem_of_singleton. }
  unfold dollar_typed in Hd. rewrite Es in Hd. by bool_to_prop.
Qed.

Lemma serialize_variables_opening l :
  ∀ g c g' fm, gen_wf g → flushable us options l = true → unit_members us options l = Ret fm → fm ⊆ ms →
  serialize_variables us u l g = Ret (c, g') → opening K c ∧ gen_wf g' ∧ temp_vars_ g `prefix_of` temp_vars_ g'.
Proof using Hms Hmem.
  induction l as [|i l IH]; intros g c g' fm Hg Hfl Hm Hin H; cbn in H, Hfl, Hm; [injection H as <- <-; split; [constructor|done]|].
  destruct i as [b d|b pr|f].
  - apply andb_prop in Hfl as [Hfl1 Hfl2]. destruct_Ret Hm. injection Hm as <-.
    destruct (visit_Variable_out us u b) as [c1| | |] eqn:E1; try done. cbn [mbind outcome_bind] in H.
    destruct (serialize_variables us u l (reset_errors g)) as [[c2 g2]| | |] eqn:E2; try done. injection H as <- <-.
    eapply (IH (reset_errors g)) in E2 as (H2 & Hg2 & Hp); [|by apply reset_wf|done..|clear -Hin; set_solver].
    split; [|done]. apply opening_app; [|done].
    eapply visit_Variable_out_opening; [done|done|clear -Hin; set_solver|done].
  - by eapply IH.
  - apply andb_prop in Hfl as [_ Hfl]. destruct_Ret Hm. injection Hm as <-.
    eapply IH; try done. clear -Hin; set_solver.
Qed.

End SerializerShape.

(** ** Compiled serializers *)

(** What the calls need of memory: the members of the unit at [unit], the output, the frame and the
    entry of the stack do not overlap, the data of the containers is outside the frame, and the
    state is new. *)
Record flush_env (es : enums) (z : compiled_out) (frame out out_end unit : Z) (m : mem)
    (st : ParserState.ParserState) : Prop := {
  fe_unit f o t sz al :
    assoc f (z_members z) = Some (o, t) → size_align es t = Some (sz, al) →
    ∀ a, unit + o ≤ a < unit + o + sz →
      ¬ frame ≤ a < z_frame_end z ∧ ¬ out ≤ a < out_end ∧
      ¬ ParserState.stack_top_ st ≤ a < ParserState.stack_top_ st + 8;
  fe_output a : out ≤ a < out_end → ¬ frame ≤ a < z_frame_end z;
  fe_stack a :
    ParserState.stack_top_ st ≤ a < ParserState.stack_top_ st + 8 →
    ¬ frame ≤ a < z_frame_end z ∧ ¬ out ≤ a < out_end;
  fe_addresses : 0 ≤ unit < 2 ^ 64 ∧ 0 ≤ out ∧ out_end < 2 ^ 64;
  fe_length : 0 ≤ out_end - out < 2 ^ 63;
  fe_pointers :
    pointers (out_context es z (λ _, 0) out out_end) (λ a, frame ≤ a < z_frame_end z) unit m;
  fe_new : ParserState.instruction st = 0 }.

Section Compiled.
  Context (us : units) (ut : unit_type) (options : Options) (es : enums) (frame : Z) (g : gstate).
  Context (z : compiled_out) (Hz : compile_out us ut options es frame g = Ret z) (Hg : gen_wf g).
  Context (Hs : supported us options (unit_items ut) = true).
  Context (Hfl : flushable us options (unit_items ut) = true).
  Context (Hes : ∀ t, t ∈ container_types → assoc t es = None).
  Context (label : string → Z) (Hinj : Inj eq eq label) (Hnz : ∀ l, label l ≠ 0).
  Context (out out_end unit : Z) (m : mem) (st : ParserState.ParserState).
  Context (Henv : flush_env es z frame out out_end unit m st).

Abbreviation K := (out_context es z label out out_end).
Definition locals_of (a : Z) : Prop := frame ≤ a < z_frame_end z.

Lemma compiled_first : first_ok K locals_of unit m st.
Proof using Hz Hg Hes Hinj Hnz Henv.
  destruct (compile_out_parts _ _ _ _ _ _ _ Hz Hg)
    as (ls & h1 & vs & h2 & fs & h3 & ms & e & _ & _ & _ & _ & _ & _ & _ & _ & Hm & Ht).
  destruct (layout_spec _ _ _ _ _ Ht) as [_ Hts].
  destruct Henv as [Hu Ho Hst Had Hl Hp Hnew]. split; try done.
  - split; cbn; [split; cbn|..]; try done.
    + intros f o t sz al Hf Hsz a Ha. by destruct (Hu f o t sz al Hf Hsz a Ha).
    + intros f o t sz al f' o' t' sz' al' Hne Hf Ha Hf' Ha'.
      by eapply (layout_disjoint _ _ _ _ _ _ _ _ _ _ _ _ _ _ _ Hm).
    + intros a Ha. apply Ho. lia.
    + lia.
    + intros tmp q t sz al Hq Hsz a Ha. destruct (Hts tmp q t Hq) as [_ Hb]. specialize (Hb _ _ Hsz).
      unfold locals_of. lia.
    + intros f o t sz al Hf Hsz a Ha. by destruct (Hu f o t sz al Hf Hsz a Ha) as (_ & ? & _).
    + lia.
  - lia.
  - intros a Ha. by destruct (Hst a Ha).
  - intros a Ha. by destruct (Hst a Ha).
  - intros f o t sz al Hf Hsz a Ha Hin. by destruct (Hu f o t sz al Hf Hsz a Hin) as (_ & _ & ?).
Qed.

(** The body is an opening and the instructions of the fields. *)
Lemma compiled_out_shape :
  ∃ pre fields, z_body z = pre ++ fields ∧ opening K pre ∧ sinstrs K fields ∧ NoDup (slabels_list fields).
Proof using Hz Hg Hs Hfl Hes.
  destruct (compile_out_parts _ _ _ _ _ _ _ Hz Hg)
    as (ls & h1 & vs & h2 & fs & h3 & ms & e & Hls & Hh1 & Hvs & Hh2 & Hfs & Hb & Hms & Hn & Hm & Ht).
  destruct (layout_spec _ _ _ _ _ Hm) as [_ Hml]. destruct (layout_spec _ _ _ _ _ Ht) as [_ Htl].
  assert (Hmem : ∀ f o t, assoc f (o_members K) = Some (o, t) → (f, t) ∈ ms) by (intros f o t Hf; by apply (Hml f o t)).
  assert (Htmp : ∀ n q t, assoc n (o_temps K) = Some (q, t) → (n, t) ∈ temp_vars_ h3) by (intros n q t Hq; by apply (Htl n q t)).
  destruct (serialize_fields_grows us ut options _ _ _ _ Hh2 Hfs) as [Hh3 _].
  destruct (serialize_fields_shape us ut options K ms (temp_vars_ h3) Hes Hn Hmem (wf_nodup _ Hh3) Htmp
    _ h2 fs h3 ms Hh2 Hs Hfl Hms (reflexivity ms) Hfs) as [[_ _ _ Hnd _] Hgen].
  exists (ls ++ Line SBlank :: vs ++ [Line SBlank]), fs. split_and!.
  - rewrite Hb, <- app_assoc. cbn. by rewrite <- app_assoc.
  - apply opening_app; [by eapply update_lengths_opening|]. apply op_blank, opening_app.
    + by destruct (serialize_variables_opening us ut options K ms Hn Hmem _ h1 vs h2 ms Hh1 Hfl Hms (reflexivity ms) Hvs).
    + repeat constructor.
  - by apply Hgen.
  - exact Hnd.
Qed.

Lemma compiled_out_loop e ends scramble :
  (∀ m, agree locals_of m (scramble m)) → out ≤ e → growing e ends out_end →
  orel (serialize_rel locals_of) (serialize_loop K (z_body z) scramble e ends m unit st)
    (reserialize_loop K (z_body z) e ends m unit st).
Proof using All.
  intros Hsc He Hgr. destruct compiled_out_shape as (pre & fs & -> & Hpre & Hf & Hl).
  by apply (serialize_loop_equiv K locals_of unit m st compiled_first scramble pre fs Hpre Hf Hl Hsc).
Qed.

(** A loop that starts anew ends with a first call. *)
Lemma reserialize_last e ends r e' :
  out ≤ e → growing e ends out_end →
  reserialize_loop K (z_body z) e ends m unit st = Ret (r, e') →
  out ≤ e' ≤ out_end ∧ serialize_call (with_room e' K) (z_body z) m unit st = Ret r.
Proof using Type.
  revert e. induction ends as [|e1 ends IH]; intros e He Hgr H; cbn in H;
    pose proof (growing_le _ _ _ Hgr);
    destruct (serialize_call (with_room e K) _ m unit st) as [r1| | |] eqn:E; try done;
    cbn [mbind outcome_bind] in H.
  - assert (Ret (r1, e) = Ret (r, e')) as [= <- <-] by (by destruct (z_result r1)). split; [lia|done].
  - destruct Hgr as [He1 Hgr]. destruct (z_result r1); try (injection H as <- <-; split; [lia|done]).
    apply (IH e1); [lia|done|done].
Qed.

(** What a serializer may write. *)
Definition may_write_out (a : Z) : Prop :=
  locals_of a ∨ out ≤ a < out_end ∨
  ParserState.stack_top_ st ≤ a < ParserState.stack_top_ st + 8 ∨
  ∃ f o c, member es (z_members z) f = Ret (o, c) ∧ unit + o ≤ a < unit + o + Z.of_nat (sizeof (rep c)).

Lemma compiled_out_safe e ends scramble r e' :
  (∀ m, agree locals_of m (scramble m)) → out ≤ e → growing e ends out_end →
  serialize_loop K (z_body z) scramble e ends m unit st = Ret (r, e') →
  agree may_write_out m (z_mem r) ∧
  (z_result r = Serializing.DONE ∧ (∃ n, z_bytes r = Some n ∧ 0 ≤ n ≤ e' - out) ∨
   z_result r = Serializing.OUT_BUF_FULL ∧ z_bytes r = None).
Proof using All.
  intros Hsc He Hgr H. pose proof (compiled_out_loop e ends scramble Hsc He Hgr) as Hr. rewrite H in Hr.
  destruct (reserialize_loop _ _ e ends m unit st) as [[r2 e2]| | |] eqn:E2; try done.
  destruct Hr as [(Hres & Hb & _ & Hm) Hee]. cbn in Hres, Hb, Hm, Hee. subst e2.
  apply reserialize_last in E2 as [He' E2]; [|done..].
  destruct compiled_out_shape as (pre & fs & Hbody & Hpre & Hf & Hl). rewrite Hbody in E2.
  destruct (serialize_first_safe K locals_of unit m st compiled_first pre fs Hpre Hf Hl e' r2 He' E2) as [Ha Hd].
  split; [|by rewrite Hres, Hb].
  eapply agree_trans; [|eapply agree_mono; [|by apply agree_sym]; intros a Hx; by left].
  eapply agree_mono; [|exact Ha]. intros a [[Hx|[Hx|Hx]]|Hx]; unfold may_write_out; auto.
Qed.

End Compiled.

(** ** The message of [Replay.Echo], with a buffer that grows *)

Module Sample.
Import Replay.Echo Incremental.Sample.

Definition unit_at : Z := UnitArea.nextPos area.
(** The frame of the serializer is overwritten between two calls. *)
Definition scramble_out (m : mem) : mem := default m (store_bytes ["255"%char] m frame2).
Definition Kout : scontext := out_context es serializer Incremental.Sample.label 5000 5008.
Definition members : list (string * string) :=
  match unit_members us options (unit_items message) with Ret ms => ms | _ => [] end.
Definition extent : Z := match layout es members 0 with Some (_, e) => e | None => 0 end.

Lemma frame_end : z_frame_end serializer = 4101.
Proof. vm_compute. reflexivity. Qed.
Lemma extent_value : layout es members 0 = Some (z_members serializer, extent) ∧ extent = 36.
Proof. vm_compute. split; reflexivity. Qed.

(** The containers that were parsed point to the unit area. *)
Definition pointers_check (m : mem) : bool :=
  forallb (λ x : string * (Z * string), let '(_, (o, t)) := x in
    if bool_decide (t ∈ container_types) then
      match read uint64_t m (unit_at + o + data_at t), read uint64_t m (unit_at + o + len_at t) with
      | Ret data, Ret len => (len <? 2 ^ 63) && ((data + len <=? 4100) || (4101 <=? data))
      | _, _ => true
      end
    else true) (z_members serializer).

Lemma assoc_elem {A} (k : string) (l : list (string * A)) a : assoc k l = Some a → (k, a) ∈ l.
Proof.
  induction l as [|[k' b] l IH]; cbn; [done|]. destruct (String.eqb_spec k k') as [->|_].
  - intros [= ->]. by left.
  - intros H. right. auto.
Qed.

Lemma pointers_checked m :
  pointers_check m = true →
  pointers (out_context es serializer (λ _, 0) 5000 5008) (λ a, frame2 ≤ a < z_frame_end serializer) unit_at m.
Proof.
  intros H f o t data len Hf Ht Hd Hl. unfold pointers_check in H. rewrite forallb_forall in H.
  specialize (H (f, (o, t))). cbn in Hf. apply assoc_elem, list_elem_of_In in Hf. specialize (H Hf). cbn beta iota in H.
  rewrite bool_decide_eq_true_2, Hd, Hl in H by done. bool_to_prop.
  split; [lia|]. intros a Ha Hx. rewrite frame_end in Hx. unfold frame2 in Hx. lia.
Qed.

Lemma flush_ok : flush_env es serializer frame2 5000 5008 unit_at (r_mem parsed) stack2.
Proof.
  destruct extent_value as [Hlay Hext]. split.
  - intros f o t sz al Hf Hsz a Ha. rewrite frame_end.
    destruct (layout_spec _ _ _ _ _ Hlay) as [_ Hl]. destruct (Hl f o t Hf) as [_ Hb]. specialize (Hb _ _ Hsz).
    change (ParserState.stack_top_ stack2) with 1100. change unit_at with 2016 in Ha.
    rewrite Hext in Hb. unfold frame2. clear -Ha Hb. split_and!; lia.
  - intros a. rewrite frame_end. unfold frame2. lia.
  - intros a. rewrite frame_end. change (ParserState.stack_top_ stack2) with 1100. unfold frame2. lia.
  - by vm_compute.
  - lia.
  - apply pointers_checked. vm_compute. reflexivity.
  - done.
Qed.

Lemma scramble_out_ok m : agree (locals_of frame2 serializer) m (scramble_out m).
Proof.
  unfold scramble_out. destruct (store_bytes _ m frame2) as [m'|] eqn:E; [|apply agree_refl].
  eapply store_within; [done|]. intros a Ha. cbn in Ha. unfold locals_of, frame2 in *. rewrite frame_end. lia.
Qed.

End Sample.

(** C4: A generated serializer that is called again with a larger buffer, every time its buffer was
    full, ends like a serializer that starts anew with that room: same result, same number of
    bytes, same parser state, and the same memory up to its locals, which may be lost between
    two calls.  For supported units that are [flushable]: lengths, switches and labels do not read
    [$$], a local of the serialize function that a resumed call does not set again, no string is
    kept as a pointer into the input, and a variable with [&serialize] has a member. *)
Theorem incremental_serialize us u options es frame g z label out out_end unit m st scramble e ends :
  compile_out us u options es frame g = Ret z → gen_wf g →
  supported us options (unit_items u) = true → flushable us options (unit_items u) = true →
  (∀ t, t ∈ container_types → assoc t es = None) →
  Inj eq eq label → (∀ l, label l ≠ 0) →
  flush_env es z frame out out_end unit m st →
  (∀ m, agree (locals_of frame z) m (scramble m)) →
  out ≤ e → growing e ends out_end →
  orel (serialize_rel (locals_of frame z))
    (serialize_loop (out_context es z label out out_end) (z_body z) scramble e ends m unit st)
    (reserialize_loop (out_context es z label out out_end) (z_body z) e ends m unit st).
Proof. intros Hz Hg Hs Hfl Hes Hinj Hnz Henv Hsc. by apply (compiled_out_loop us u options es frame g z). Qed.

Lemma incremental_serialize_witness :
  orel (serialize_rel (locals_of Echo.frame2 Echo.serializer))
    (serialize_loop Sample.Kout (z_body Echo.serializer) Sample.scramble_out 5001 [5003; 5005; 5006]
       (r_mem Echo.parsed) Sample.unit_at Echo.stack2)
    (reserialize_loop Sample.Kout (z_body Echo.serializer) 5001 [5003; 5005; 5006]
       (r_mem Echo.parsed) Sample.unit_at Echo.stack2) ∧
  match serialize_loop Sample.Kout (z_body Echo.serializer) Sample.scramble_out 5001 [5003; 5005; 5006]
          (r_mem Echo.parsed) Sample.unit_at Echo.stack2 with
  | Ret (y, e) => z_result y = Serializing.DONE ∧ z_bytes y = Some 6 ∧ e = 5006 ∧
      load_bytes 6 (z_mem y) 5000 = Some Incremental.Sample.bytes
  | _ => False
  end.
Proof.
  split; [|vm_compute; split_and!; reflexivity].
  apply (incremental_serialize Echo.us Echo.message Incremental.Sample.options Incremental.Sample.es
    Echo.frame2 newGenerator Echo.serializer Incremental.Sample.label 5000 5008 Sample.unit_at
    (r_mem Echo.parsed) Echo.stack2 Sample.scramble_out 5001 [5003; 5005; 5006]).
  - vm_compute. reflexivity.
  - apply newGenerator_wf.
  - vm_compute. reflexivity.
  - vm_compute. reflexivity.
  - apply Incremental.Sample.enums_ok.
  - apply Incremental.Sample.label_inj'.
  - done.
  - apply Sample.flush_ok.
  - apply Sample.scramble_out_ok.
  - lia.
  - cbn. lia.
Defined.

(** C5: Memory safety of the runs that return, for supported units that are [flushable] (as above:
    no [$$] in lengths, switches and labels, no string kept as a pointer into the input): however
    often it is suspended, a generated serializer changes nothing but the output, the scalar
    members of the unit (lengths and variables), its entry of the stack and its locals; it ends
    with [DONE] and at most as many bytes as there is room, or for want of room.  A run that moves
    a position by 2^63 or more has undefined behaviour and does not return; any other position
    the code computes is taken as it is, inside the buffer or not. *)
Theorem serialize_safe us u options es frame g z label out out_end unit m st scramble e ends r e' :
  compile_out us u options es frame g = Ret z → gen_wf g →
  supported us options (unit_items u) = true → flushable us options (unit_items u) = true →
  (∀ t, t ∈ container_types → assoc t es = None) →
  Inj eq eq label → (∀ l, label l ≠ 0) →
  flush_env es z frame out out_end unit m st →
  (∀ m, agree (locals_of frame z) m (scramble m)) →
  out ≤ e → growing e ends out_end →
  serialize_loop (out_context es z label out out_end) (z_body z) scramble e ends m unit st = Ret (r, e') →
  agree (may_write_out es frame z out out_end unit st) m (z_mem r) ∧
  (z_result r = Serializing.DONE ∧ (∃ n, z_bytes r = Some n ∧ 0 ≤ n ≤ e' - out) ∨
   z_result r = Serializing.OUT_BUF_FULL ∧ z_bytes r = None).
Proof.
  intros Hz Hg Hs Hfl Hes Hinj Hnz Henv Hsc He Hgr Hl.
  exact (compiled_out_safe us u options es frame g z Hz Hg Hs Hfl Hes label Hinj Hnz out out_end unit m st Henv
    e ends scramble r e' Hsc He Hgr Hl).
Qed.

(** With room for five of the six bytes. *)
Lemma serialize_safe_witness :
  ∃ r e', serialize_loop Sample.Kout (z_body Echo.serializer) Sample.scramble_out 5001 [5003; 5005]
            (r_mem Echo.parsed) Sample.unit_at Echo.stack2 = Ret (r, e') ∧
    z_result r = Serializing.OUT_BUF_FULL ∧
    agree (may_write_out Incremental.Sample.es Echo.frame2 Echo.serializer 5000 5008 Sample.unit_at Echo.stack2)
      (r_mem Echo.parsed) (z_mem r).
Proof.
  assert (Hfull : match serialize_loop Sample.Kout (z_body Echo.serializer) Sample.scramble_out 5001 [5003; 5005]
            (r_mem Echo.parsed) Sample.unit_at Echo.stack2 with
          | Ret (r, _) => z_result r = Serializing.OUT_BUF_FULL | _ => False end)
    by (vm_compute; reflexivity).
  destruct (serialize_loop _ _ _ _ _ _ _ _) as [[r e']| | |] eqn:E; [|destruct Hfull..].
  exists r, e'. split; [done|split; [done|]].
  refine (proj1 (serialize_safe Echo.us Echo.message Incremental.Sample.options Incremental.Sample.es
    Echo.frame2 newGenerator Echo.serializer Incremental.Sample.label 5000 5008 Sample.unit_at
    (r_mem Echo.parsed) Echo.stack2 Sample.scramble_out 5001 [5003; 5005] r e' _ _ _ _ _ _ _ _ _ _ _ E)).
  - vm_compute. reflexivity.
  - apply newGenerator_wf.
  - vm_compute. reflexivity.
  - vm_compute. reflexivity.
  - apply Incremental.Sample.enums_ok.
  - done.
  - apply Sample.flush_ok.
  - apply Sample.scramble_out_ok.
  - lia.
  - cbn. lia.
Defined.
