(* ===== verification/CodeGen.v ===== *)
(** * The code generator ([src/src/generation/output/code_generator.cpp])

    [CodeGenerator] turns the declarations of a module into the classes, functions and enums of
    a file, with the classes that [ParserGenerator::run] and [SerializerGenerator::run] fill;
    the data of a file is that of the vendored library libkode
    ([src/externals/libkode/file.cpp], [class.cpp], [function.cpp], [style.cpp]).  Printing the
    file is not modelled.

    [function_] points to the function that was added last: it is null exactly when the file
    has no function.  [unit_cls_] is the class with the name of the unit, since
    [insertClass] keeps the names of classes apart. *)

From S2P Require Import Prelude Util Ident Ast Units Translate Generate.
Import Util.Strings Ident.Id Units.Units Translate.Translate Generate.Generator.

(** ** Files of code *)

Module KodeFile.

(** [Style::makeIdentifier]: [at(0)] throws for an empty string. *)
Definition replace_char (a b : ascii) (s : string) : string :=
  String.string_of_list_ascii (map (λ c, if Ascii.eqb c a then b else c) (String.list_ascii_of_string s)).
Definition makeIdentifier (str : string) : outcome string :=
  let id := fold_left (λ s c, replace_char c "_" s) ["-"; "."; "/"; ":"; " "]%char str in
  match id with
  | EmptyString => Throw (StdRuntimeError "basic_string::at")
  | String c _ => Ret (if Util.Chars.isdigit c then String "_" id else id)
  end.

Record Function := mkFunction {
  fn_name : string;
  fn_returnType : string;
  fn_private : bool;
  fn_arguments : list (string * string);  (* with the default, which can be empty *)
  fn_body : string }.
Record MemberVariable := mkMember { mv_name : string; mv_type : string }.
Definition newMember (name type : string) : outcome MemberVariable :=
  n ← makeIdentifier name; Ret (mkMember n type).

Inductive Class := mkClass {
  cls_name : string;
  cls_parent : string;
  cls_headerIncludes : list string;
  cls_members : list MemberVariable;
  cls_functions : list Function;
  cls_nested : list Class;
  cls_macros : list string }.
Definition newClass (name : string) : Class := mkClass name "" [] [] [] [] [].

(** [addHeaderInclude], [addMemberVariable], [addFunction], [addNestedClass] and
    [addDeclarationMacro]. *)
Definition addHeaderInclude (i : string) (c : Class) : Class :=
  if String.eqb i "" || bool_decide (i ∈ cls_headerIncludes c) then c
  else mkClass (cls_name c) (cls_parent c) (cls_headerIncludes c ++ [i]) (cls_members c) (cls_functions c)
         (cls_nested c) (cls_macros c).
Definition addMemberVariable (v : MemberVariable) (c : Class) : Class :=
  mkClass (cls_name c) (cls_parent c) (cls_headerIncludes c) (cls_members c ++ [v]) (cls_functions c)
    (cls_nested c) (cls_macros c).
Definition addFunction (f : Function) (c : Class) : Class :=
  mkClass (cls_name c) (cls_parent c) (cls_headerIncludes c) (cls_members c) (cls_functions c ++ [f])
    (cls_nested c) (cls_macros c).
Definition addNestedClass (n c : Class) : Class :=
  mkClass (cls_name c) (cls_parent c) (cls_headerIncludes c) (cls_members c) (cls_functions c)
    (cls_nested c ++ [mkClass (cls_name n) (cls_name c) (cls_headerIncludes n) (cls_members n)
                        (cls_functions n) (cls_nested n) (cls_macros n)]) (cls_macros c).
Definition addDeclarationMacro (m : string) (c : Class) : Class :=
  mkClass (cls_name c) (cls_parent c) (cls_headerIncludes c) (cls_members c) (cls_functions c)
    (cls_nested c) (cls_macros c ++ [m]).

Record Enum := mkEnum { enum_name : string; enum_labels : list (string * Z) }.
Record File := mkFile {
  mHeaderFilename : string;
  mImplFilename : string;
  mNameSpace : string;
  mHeaderCode : string;
  mClasses : list Class;
  mFileFunctions : list Function;
  mFileEnums : list Enum }.

(** [insertClass] replaces a class of the same name. *)
Fixpoint insert_class (c : Class) (l : list Class) : list Class :=
  match l with
  | [] => [c]
  | x :: l => if String.eqb (cls_name x) (cls_name c) then c :: l else x :: insert_class c l
  end.
Definition set_classes (l : list Class) (f : File) : File :=
  mkFile (mHeaderFilename f) (mImplFilename f) (mNameSpace f) (mHeaderCode f) l (mFileFunctions f)
    (mFileEnums f).
Definition set_functions (l : list Function) (f : File) : File :=
  mkFile (mHeaderFilename f) (mImplFilename f) (mNameSpace f) (mHeaderCode f) (mClasses f) l (mFileEnums f).
Definition insertClass (c : Class) (f : File) : outcome File :=
  if String.eqb (cls_name c) "" then Abort "!newClass.name().empty()"
  else Ret (set_classes (insert_class c (mClasses f)) f).
Definition addFileFunction (fn : Function) (f : File) : File :=
  set_functions (mFileFunctions f ++ [fn]) f.
Definition addFileEnum (e : Enum) (f : File) : File :=
  mkFile (mHeaderFilename f) (mImplFilename f) (mNameSpace f) (mHeaderCode f) (mClasses f)
    (mFileFunctions f) (mFileEnums f ++ [e]).

(** A change of the class with this name, and of the last function. *)
Definition update_class (name : string) (g : Class → Class) (f : File) : File :=
  set_classes (map (λ c, if String.eqb (cls_name c) name then g c else c) (mClasses f)) f.
Definition update_last (g : Function → Function) (f : File) : File :=
  match reverse (mFileFunctions f) with
  | [] => f
  | fn :: l => set_functions (reverse l ++ [g fn]) f
  end.

End KodeFile.
Import KodeFile.

(** ** The classes of parsers and serializers *)

Module ClassGenerators.

(** The end of [ParserGenerator::run]; [consts_] and the code for it stay empty. *)
Definition macros (l : list string) (c : Class) : Class := fold_left (λ c m, addDeclarationMacro m c) l c.
Definition with_member (name type : string) (c : Class) : outcome Class :=
  v ← newMember name type; Ret (addMemberVariable v c).
Definition block_state : outcome Class := with_member "unit" "char*" (newClass "BlockState").
Definition parser_class (p : ParserGenerator.parse_function) (cls : Class) : outcome Class :=
  let cls := macros ["#define POS state->stream_pos()"; "#define BLOCKSTATE state->peek<BlockState>()";
                     "#define UNIT(type) reinterpret_cast<type*>(unit)";
                     "#define UNITPP(type) reinterpret_cast<type**>(&BLOCKSTATE->unit)";
                     "#define SELF(type) (*UNIT(type))"] cls in
  let cls := addNestedClass (newClass "ParserConstants") cls in
  cls ← with_member "consts_" "ParserConstants" cls;
  let cls := addFunction (mkFunction "initParserConstants" "void" true [] "") cls in
  bs ← block_state;
  let cls := addNestedClass bs cls in
  Ret (addFunction (mkFunction "parse" "dr::parsing::ParseResult" false
         [("char* in_buf_start", ""); ("char* in_buf_end", ""); ("dr::unit::UnitArea* area", "");
          ("dr::parsing::ParserState* state", ""); ("size_t* bytes_read", "")]
         (ParserGenerator.parse_body_text p)) cls).

(** The end of [SerializerGenerator::run]. *)
Definition serializer_class (p : SerializerGenerator.serialize_function) (cls : Class) : outcome Class :=
  let cls := macros ["#define POS state->stream_pos()"; "#define BLOCKSTATE state->peek<BlockState>()";
                     "#define UNIT(type) reinterpret_cast<type*>(unit)";
                     "#define UNITPP(type) reinterpret_cast<type**>(&BLOCKSTATE->unit)";
                     "#define SELF(type) (*UNIT(type))"; "#define DOLLARP(type) reinterpret_cast<type*>(dollar)";
                     "#define DOLLAR(type) (*DOLLARP(type))"] cls in
  let cls := addNestedClass (newClass "SerializerConstants") cls in
  cls ← with_member "consts_" "SerializerConstants" cls;
  let cls := addFunction (mkFunction "initSerializerConstants" "void" true [] "") cls in
  bs ← block_state;
  let cls := addNestedClass bs cls in
  Ret (addFunction (mkFunction "serialize" "dr::serializing::SerializeResult" false
         [("char* unit", ""); ("char* out_buf_start", ""); ("char* out_buf_end", "");
          ("dr::parsing::ParserState* state", ""); ("size_t* bytes_written", "")]
         (SerializerGenerator.serialize_body_text p)) cls).

End ClassGenerators.
Import ClassGenerators.

(** ** [CodeGenerator] *)

Module CodeGenerator.

(** The declarations of a module; [imported] is the linkage. *)
Inductive declaration :=
  | DeclFunction (imported : bool) (id : ID) (body : string)
  | DeclTransform (imported : bool) (id : ID)
  | DeclConstant (id : ID)
  | DeclType (imported : bool) (id : ID) (t : ty)
  | DeclUnit (imported : bool) (id : ID) (u : unit_type)
  | DeclInstantiation (imported : bool) (compacted_units : list (ID * unit_type)).

(** [file_], the state of the two generators, and [errors_]. *)
Record cstate := mkC {
  file_ : File;
  parser_generator_ : gstate;
  serializer_generator_ : gstate;
  c_errors : Z }.
Definition set_file (f : File) (s : cstate) : cstate :=
  mkC f (parser_generator_ s) (serializer_generator_ s) (c_errors s).
Definition set_errors (e : Z) (s : cstate) : cstate :=
  mkC (file_ s) (parser_generator_ s) (serializer_generator_ s) e.

(** The constructor. *)
Definition newCodeGenerator (file_name name_space : string) : cstate :=
  mkC (mkFile (file_name +:+ ".h") (file_name +:+ ".cpp") name_space
         (Kode.mText (Kode.addLine "namespace dr = diffingo::runtime;" Kode.newCode)) [] [] [])
    newGenerator newGenerator 0.

Section CodeGenerator.
  Context (us : units) (options : Options).

(** [visit(function::Result)] and [visit(function::Parameter)]. *)
Definition visit_Result (t : ty) (s : cstate) : outcome cstate :=
  match mFileFunctions (file_ s) with
  | [] => Abort "null function_"
  | _ =>
      text ← type_text us t;
      Ret (set_file (update_last (λ fn, mkFunction (fn_name fn) text (fn_private fn) (fn_arguments fn)
                                          (fn_body fn)) (file_ s)) s)
  end.
Definition visit_Parameter (p : param) (s : cstate) : outcome cstate :=
  match mFileFunctions (file_ s), p with
  | [], _ => Ret s
  | _, mkParam id t _ default_value =>
      text ← type_text us t;
      n ← match id with Some id => name id | None => Abort "null node_ptr" end;
      d ← match default_value with Some e => expression_text us e | None => Ret ""%string end;
      Ret (set_file (update_last (λ fn, mkFunction (fn_name fn) (fn_returnType fn) (fn_private fn)
             (fn_arguments fn ++ [(text +:+ " " +:+ functionParamName n, d)]) (fn_body fn)) (file_ s)) s)
  end.
Fixpoint visit_Parameters (l : list param) (s : cstate) : outcome cstate :=
  match l with
  | [] => Ret s
  | p :: l => s ← visit_Parameter p s; visit_Parameters l s
  end.

(** [addUnitField] of the members of a unit. *)
Fixpoint addUnitFields (n : string) (l : list (string * string)) (s : cstate) : outcome cstate :=
  match l with
  | [] => Ret s
  | (m, t) :: l =>
      v ← newMember m t;
      addUnitFields n l (set_file (update_class n (addMemberVariable v) (file_ s)) s)
  end.

(** [visit(declaration::Type)] of a unit.  Processing a child of the unit resets the count of
    errors. *)
Definition has_children (u : unit_type) : bool :=
  match unit_params u, unit_items u, unit_id u with [], [], None => false | _, _, _ => true end.
Definition visit_Unit (id : ID) (u : unit_type) (s : cstate) : outcome cstate :=
  n ← name id;
  f ← insertClass (newClass (unitName n)) (file_ s);
  let f := update_class (unitName n) (λ c, addHeaderInclude "cstdint" (addHeaderInclude "stddef.h"
             (addHeaderInclude "runtime/runtime.h" c))) f in
  '(pf, ok, pg) ← ParserGenerator.run_parser us u options (parser_generator_ s);
  cls ← parser_class pf (newClass (unitParserName n));
  f ← insertClass cls f;
  '(sf, ok', sg) ← SerializerGenerator.run_serializer us u options (serializer_generator_ s);
  cls ← serializer_class sf (newClass (unitSerializerName n));
  f ← insertClass cls f;
  let e := (c_errors s + (if ok : bool then 0 else 1) + (if ok' : bool then 0 else 1))%Z in
  s ← visit_Parameters (unit_params u) (mkC f pg sg e);
  ms ← UnitClass.unit_members us options (unit_items u);
  s ← addUnitFields (unitName n) ms s;
  Ret (if has_children u then set_errors 0 s else s).

Definition enum_decl (id : ID) (labels : list (ID * Z)) : outcome Enum :=
  ls ← (fix go l := match l with
                    | [] => Ret []
                    | (i, v) :: l => n ← name i; r ← go l; Ret ((enumLabel n, v) :: r)
                    end) labels;
  n ← name id;
  Ret (mkEnum (enumName n) ls).

(** [visit] of the declarations. *)
Definition visit_Type (id : ID) (t : ty) (s : cstate) : outcome cstate :=
  match kind t with
  | TEnum labels => e ← enum_decl id labels; Ret (set_file (addFileEnum e (file_ s)) s)
  | TFunction result args =>
      s ← match result with Some (r, _) => visit_Result r s | None => Ret s end;
      visit_Parameters args s
  | _ => Ret s
  end.
Fixpoint visit_Units (l : list (ID * unit_type)) (s : cstate) : outcome cstate :=
  match l with
  | [] => Ret s
  | (id, u) :: l => s ← visit_Unit id u (set_errors 0 s); visit_Units l s
  end.
Definition visit_declaration (d : declaration) (s : cstate) : outcome cstate :=
  match d with
  | DeclFunction false id body =>
      n ← name id;
      Ret (set_file (addFileFunction (mkFunction (functionName n) "" false [] body) (file_ s)) s)
  | DeclType false id t => visit_Type id t s
  | DeclUnit false id u => visit_Unit id u s
  | DeclInstantiation false compacted => visit_Units compacted s
  | _ => Ret s
  end.

(** [run]: the file and whether every declaration was processed without an error. *)
Definition skipped (d : declaration) : bool :=
  match d with DeclUnit _ _ _ => instantiation_only options | _ => false end.
Fixpoint process_all (l : list declaration) (s : cstate) (result : bool) : outcome (bool * cstate) :=
  match l with
  | [] => Ret (result, s)
  | d :: l =>
      if skipped d then process_all l s result
      else
        s ← visit_declaration d (set_errors 0 s);
        process_all l s (result && (c_errors s =? 0)%Z)
  end.
Definition run_generator (decls : list declaration) (s : cstate) : outcome (bool * cstate) :=
  process_all decls s true.

End CodeGenerator.
End CodeGenerator.
Import CodeGenerator.

(** ** The classes of the generated file *)

Section Classes.
  Context (us : units) (options : Options).

(** The units that get classes. *)
Definition generated (d : declaration) : list (ID * unit_type) :=
  match d with
  | DeclUnit false id u => if instantiation_only options then [] else [(id, u)]
  | DeclInstantiation false l => l
  | _ => []
  end.
Definition class_names (p : ID * unit_type) : list string :=
  match name p.1 with
  | Ret n => [unitName n; unitParserName n; unitSerializerName n]
  | _ => []
  end.

Fixpoint new_members (l : list (string * string)) : outcome (list MemberVariable) :=
  match l with
  | [] => Ret []
  | (m, t) :: l => v ← newMember m t; r ← new_members l; Ret (v :: r)
  end.

(** The three classes of a unit: its members, its parser and its serializer, made from the
    same unit, with generators that may have made others before. *)
Definition unit_classes (p : ID * unit_type) (l : list Class) : Prop :=
  ∃ n ms vs pf sf cp cs gp gs,
    name p.1 = Ret n ∧
    UnitClass.unit_members us options (unit_items p.2) = Ret ms ∧ new_members ms = Ret vs ∧
    (∃ r, ParserGenerator.run_parser us p.2 options gp = Ret (pf, r.1, r.2)) ∧
    parser_class pf (newClass (unitParserName n)) = Ret cp ∧
    (∃ r, SerializerGenerator.run_serializer us p.2 options gs = Ret (sf, r.1, r.2)) ∧
    serializer_class sf (newClass (unitSerializerName n)) = Ret cs ∧
    l = [mkClass (unitName n) "" ["runtime/runtime.h"; "stddef.h"; "cstdint"] vs [] [] []; cp; cs].

Lemma insert_class_new c l : cls_name c ∉ map cls_name l → insert_class c l = l ++ [c].
Proof using.
  induction l as [|x l IH]; [done|]. cbn. intros [Hx Hl]%not_elem_of_cons.
  destruct (String.eqb_spec (cls_name x) (cls_name c)) as [E|]; [congruence|]. by rewrite IH.
Qed.

Lemma insertClass_new c f f' :
  insertClass c f = Ret f' → cls_name c ∉ map cls_name (mClasses f) →
  mClasses f' = mClasses f ++ [c].
Proof using.
  unfold insertClass. destruct (String.eqb _ _); [done|]. intros [= <-] H. cbn. by apply insert_class_new.
Qed.

Lemma update_class_at n g f l c r :
  mClasses f = l ++ c :: r → cls_name c = n → n ∉ map cls_name l → n ∉ map cls_name r →
  mClasses (update_class n g f) = l ++ g c :: r.
Proof using.
  intros Hf <- Hl Hr. unfold update_class. cbn. rewrite Hf, map_app. cbn. rewrite String.eqb_refl.
  assert (Hid : ∀ l, cls_name c ∉ map cls_name l →
    map (λ x, if String.eqb (cls_name x) (cls_name c) then g x else x) l = l).
  { clear. induction l as [|x l IH]; [done|]. cbn. intros [Hx Hl]%not_elem_of_cons. rewrite IH by done.
    by destruct (String.eqb_spec (cls_name x) (cls_name c)). }
  by rewrite !Hid.
Qed.

Lemma update_last_classes g f : mClasses (update_last g f) = mClasses f.
Proof using. unfold update_last. by destruct (reverse (mFileFunctions f)). Qed.

Lemma visit_Parameters_classes l s s' :
  visit_Parameters us l s = Ret s' → mClasses (file_ s') = mClasses (file_ s).
Proof using.
  revert s. induction l as [|p l IH]; intros s; cbn [visit_Parameters]; [by intros [= <-]|].
  intros H. destruct (visit_Parameter us p s) as [s1| | |] eqn:E; try done. rewrite (IH _ H). clear -E.
  unfold visit_Parameter in E. destruct (mFileFunctions (file_ s)); [by injection E as <-|].
  destruct p as [id t c d]. destruct_Ret E. injection E as <-. cbn. apply update_last_classes.
Qed.

Lemma addUnitFields_classes n ms s s' l c r :
  addUnitFields n ms s = Ret s' → mClasses (file_ s) = l ++ c :: r → cls_name c = n →
  n ∉ map cls_name l → n ∉ map cls_name r →
  ∃ vs, new_members ms = Ret vs ∧
    mClasses (file_ s') = l ++ mkClass n (cls_parent c) (cls_headerIncludes c) (cls_members c ++ vs)
                                 (cls_functions c) (cls_nested c) (cls_macros c) :: r.
Proof using.
  revert s c. induction ms as [|[m t] ms IH]; intros s c; cbn [addUnitFields new_members].
  - intros [= <-] Hs <- _ _. exists []. split; [done|]. rewrite app_nil_r, Hs. by destruct c.
  - intros H Hs Hn Hl Hr. destruct (newMember m t) as [v| | |]; try done. cbn [mbind outcome_bind] in *.
    destruct (IH _ (addMemberVariable v c) H) as (vs & Hvs & Hs'); [|done..|].
    { by apply update_class_at with (c := c). }
    rewrite Hvs. exists (v :: vs). split; [done|]. rewrite Hs'. cbn. by rewrite <- app_assoc.
Qed.

Lemma parser_class_name pf c c' : parser_class pf c = Ret c' → cls_name c' = cls_name c.
Proof using. unfold parser_class. intros H. destruct_Ret H. cbn in *. destruct_Ret E. by injection H as <-; injection E as <-. Qed.

Lemma serializer_class_name pf c c' : serializer_class pf c = Ret c' → cls_name c' = cls_name c.
Proof using. unfold serializer_class. intros H. destruct_Ret H. cbn in *. destruct_Ret E. by injection H as <-; injection E as <-. Qed.

Lemma unit_class_names p l : unit_classes p l → map cls_name l = class_names p.
Proof using.
  intros (n & ms & vs & pf & sf & cp & cs & gp & gs & Hn & _ & _ & _ & Hp & _ & Hs & ->).
  unfold class_names. rewrite Hn. cbn. by rewrite (parser_class_name _ _ _ Hp), (serializer_class_name _ _ _ Hs).
Qed.

Lemma unit_class_includes n :
  addHeaderInclude "cstdint" (addHeaderInclude "stddef.h" (addHeaderInclude "runtime/runtime.h" (newClass n))) =
  mkClass n "" ["runtime/runtime.h"; "stddef.h"; "cstdint"] [] [] [] [].
Proof using. done. Qed.

(** Three new names at the end. *)
Lemma three_new {A} (l : list A) a b c :
  NoDup (l ++ [a; b; c]) →
  (a ∉ l) ∧ (a ∉ [b; c]) ∧ (b ∉ l ++ [a]) ∧ (c ∉ l ++ [a; b]).
Proof using.
  intros (Hl & Hd & Hn)%list.NoDup_app. apply list.NoDup_cons in Hn as [Ha Hn].
  apply list.NoDup_cons in Hn as [Hb _].
  assert (Hout : ∀ x, x ∈ [a; b; c] → x ∉ l) by (intros x Hx Hin; by apply (Hd x)).
  split_and!; [apply Hout; set_solver|done| |]; intros [H|H]%elem_of_app; revert H;
    first [apply Hout; set_solver|set_solver].
Qed.

Lemma bind_Ret {A B} (m : outcome A) (f : A → outcome B) r :
  m ≫= f = Ret r → ∃ a, m = Ret a ∧ f a = Ret r.
Proof using. destruct m; [eauto|done..]. Qed.

(** Three new classes go to the end. *)
Lemma insert_three n cp cs f f1 f2 f3 :
  insertClass (newClass n) f = Ret f1 →
  insertClass cp (update_class n (λ c, addHeaderInclude "cstdint" (addHeaderInclude "stddef.h"
    (addHeaderInclude "runtime/runtime.h" c))) f1) = Ret f2 →
  insertClass cs f2 = Ret f3 →
  NoDup (map cls_name (mClasses f) ++ [n; cls_name cp; cls_name cs]) →
  mClasses f3 = mClasses f ++
    [mkClass n "" ["runtime/runtime.h"; "stddef.h"; "cstdint"] [] [] [] []; cp; cs].
Proof using.
  intros E1 E2 E3 (Hn1 & Hn2 & Hp & Hser)%three_new. rewrite <- (unit_class_includes n).
  apply insertClass_new in E1; [|done].
  apply insertClass_new in E2;
    rewrite (update_class_at n _ f1 (mClasses f) (newClass n) [] E1 eq_refl Hn1 (not_elem_of_nil n)) in *;
    [|by rewrite map_app].
  apply insertClass_new in E3; [|by rewrite E2, !map_app, <- app_assoc].
  by rewrite E3, E2, <- !app_assoc.
Qed.

(** A unit whose names are new adds its three classes at the end. *)
Lemma visit_Unit_classes id u s s' :
  visit_Unit us options id u s = Ret s' →
  NoDup (map cls_name (mClasses (file_ s)) ++ class_names (id, u)) →
  ∃ l, unit_classes (id, u) l ∧ mClasses (file_ s') = mClasses (file_ s) ++ l.
Proof using.
  unfold visit_Unit. intros (n & En & H)%bind_Ret. apply bind_Ret in H as (f1 & E1 & H).
  apply bind_Ret in H as ([[pf ok] pg] & Ep & H). apply bind_Ret in H as (cp & Ec & H).
  apply bind_Ret in H as (f2 & E2 & H). apply bind_Ret in H as ([[sf ok'] sg] & Es & H).
  apply bind_Ret in H as (cs & Ecs & H). apply bind_Ret in H as (f3 & E3 & H).
  apply bind_Ret in H as (s4 & E4 & H). apply bind_Ret in H as (ms & Em & H).
  apply bind_Ret in H as (s5 & E5 & H).
  pose proof (parser_class_name _ _ _ Ec) as Np. pose proof (serializer_class_name _ _ _ Ecs) as Ns.
  unfold class_names. cbn [fst]. rewrite En. intros Hnd.
  assert (F3 := insert_three _ _ _ _ _ _ _ E1 E2 E3). rewrite Np, Ns in F3. specialize (F3 Hnd).
  apply three_new in Hnd as (Hn1 & Hn2 & _). apply visit_Parameters_classes in E4. cbn [file_] in E4.
  rewrite F3 in E4. destruct (addUnitFields_classes _ _ _ _ _ _ _ E5 E4) as (vs & Hvs & Hs5); [done|done| |].
  { cbn [map]. by rewrite Np, Ns. }
  eexists. split; [|].
  - exists n, ms, vs, pf, sf, cp, cs, (parser_generator_ s), (serializer_generator_ s).
    split; [exact En|]. split; [exact Em|]. split; [exact Hvs|]. split; [exists (ok, pg); exact Ep|].
    split; [exact Ec|]. split; [exists (ok', sg); exact Es|]. split; [exact Ecs|reflexivity].
  - assert (file_ s' = file_ s5) as -> by (destruct (has_children u); injection H as <-; reflexivity).
    exact Hs5.
Qed.

Lemma Forall2_app_concat us1 l1 us2 l2 :
  Forall2 unit_classes us1 l1 → Forall2 unit_classes us2 l2 →
  Forall2 unit_classes (us1 ++ us2) (l1 ++ l2) ∧ concat (l1 ++ l2) = concat l1 ++ concat l2.
Proof using. intros H1 H2. split; [by apply Forall2_app|apply concat_app]. Qed.

Lemma visit_Units_classes l s s' :
  visit_Units us options l s = Ret s' →
  NoDup (map cls_name (mClasses (file_ s)) ++ (l ≫= class_names)) →
  ∃ ls, Forall2 unit_classes l ls ∧ mClasses (file_ s') = mClasses (file_ s) ++ concat ls.
Proof using.
  revert s. induction l as [|[id u] l IH]; intros s; cbn [visit_Units].
  { intros [= <-] _. exists []. by rewrite app_nil_r. }
  intros H Hnd. rewrite bind_cons, app_assoc in Hnd.
  destruct (visit_Unit us options id u _) as [s1| | |] eqn:E; try done.
  destruct (visit_Unit_classes _ _ _ _ E) as (c & Hc & Hs1).
  { by apply list.NoDup_app in Hnd as (? & _). }
  cbn in Hs1. destruct (IH _ H) as (ls & Hls & Hs').
  { by rewrite Hs1, map_app, (unit_class_names _ _ Hc). }
  exists (c :: ls). split; [by constructor|]. rewrite Hs', Hs1. cbn. by rewrite app_assoc.
Qed.

Lemma visit_declaration_classes d s s' :
  visit_declaration us options d s = Ret s' → skipped options d = false →
  NoDup (map cls_name (mClasses (file_ s)) ++ (generated d ≫= class_names)) →
  ∃ ls, Forall2 unit_classes (generated d) ls ∧ mClasses (file_ s') = mClasses (file_ s) ++ concat ls.
Proof using.
  intros H Hsk Hnd.
  assert (Hsame : generated d = [] → mClasses (file_ s') = mClasses (file_ s) →
    ∃ ls, Forall2 unit_classes (generated d) ls ∧ mClasses (file_ s') = mClasses (file_ s) ++ concat ls).
  { intros -> ->. exists []. by rewrite app_nil_r. }
  destruct d as [[] id body|[] id|id|[] id t|[] id u|[] l]; cbn [visit_declaration generated] in *;
    try (injection H as <-; by apply Hsame).
  - destruct_Ret H. injection H as <-. by apply Hsame.
  - apply Hsame; [done|]. unfold visit_Type in H. destruct (kind t); try (by injection H as <-).
    + destruct_Ret H. by injection H as <-.
    + destruct_Ret H. rewrite (visit_Parameters_classes _ _ _ H). destruct result as [[r b]|]; [|by injection E as <-].
      unfold visit_Result in E. destruct (mFileFunctions (file_ s)); [done|]. destruct_Ret E. injection E as <-.
      cbn. apply update_last_classes.
  - cbn in Hsk. rewrite Hsk in *. cbn in Hnd. rewrite app_nil_r in Hnd.
    destruct (visit_Unit_classes _ _ _ _ H Hnd) as (c & Hc & Hs). exists [c].
    split; [by repeat constructor|]. cbn. by rewrite app_nil_r.
  - by apply visit_Units_classes.
Qed.

(** C22: When the code generator returns and the names of the classes differ, the file has exactly
    the classes of the units, in the order of the declarations: every unit that is not
    imported, or every unit of an instantiation, has a class with its members followed by its
    parser and its serializer, and no others.  With [instantiation_only], units that are
    only declared have no classes. *)
Theorem generated_classes decls s r s' :
  mClasses (file_ s) = [] → NoDup ((decls ≫= generated) ≫= class_names) →
  run_generator us options decls s = Ret (r, s') →
  ∃ ls, Forall2 unit_classes (decls ≫= generated) ls ∧ mClasses (file_ s') = concat ls.
Proof using.
  intros Hs Hnd Hr. unfold run_generator in Hr.
  cut (∃ ls, Forall2 unit_classes (decls ≫= generated) ls ∧ mClasses (file_ s') = mClasses (file_ s) ++ concat ls).
  { by rewrite Hs. }
  assert (Hnd' : NoDup (map cls_name (mClasses (file_ s)) ++ ((decls ≫= generated) ≫= class_names))) by (by rewrite Hs).
  clear Hs Hnd. revert s Hr Hnd'. generalize true. induction decls as [|d decls IH]; intros b s Hr Hnd.
  { injection Hr as <- <-. exists []. by rewrite app_nil_r. }
  cbn [process_all] in Hr. rewrite bind_cons, bind_app, app_assoc in Hnd.
  destruct (skipped options d) eqn:Hsk.
  { assert (generated d = []) as Hg.
    { destruct d as [| | | |[] id u|]; cbn in *; try done. by rewrite Hsk. }
    rewrite bind_cons, Hg. apply (IH b); [done|]. by rewrite Hg, app_nil_r in Hnd. }
  destruct (visit_declaration us options d _) as [s1| | |] eqn:E; try done.
  destruct (visit_declaration_classes _ _ _ E Hsk) as (l1 & H1 & Hs1).
  { by apply list.NoDup_app in Hnd as (? & _). }
  cbn in Hs1. destruct (IH _ _ Hr) as (l2 & H2 & Hs2).
  { rewrite Hs1, map_app. replace (map cls_name (concat l1)) with (generated d ≫= class_names); [done|].
    clear -H1. induction H1 as [|p c ps cs Hc _ IH]; [done|]. rewrite bind_cons. cbn. by rewrite map_app, IH, (unit_class_names _ _ Hc). }
  exists (l1 ++ l2). destruct (Forall2_app_concat _ _ _ _ H1 H2) as [HF Hcat].
  rewrite bind_cons. split; [done|]. by rewrite Hcat, app_assoc, Hs2, Hs1.
Qed.
End Classes.

(** ** Errors of the generators

    A unit that has children, which every unit with a name has, loses the errors of its
    parser and serializer: the children are processed after them, and each starts with no
    errors.  So the code generator reports success whatever its parts report. *)

Definition named (p : ID * unit_type) : bool := has_children p.2.

Lemma visit_Unit_errors us options id u s s' :
  has_children u = true → visit_Unit us options id u s = Ret s' → c_errors s' = 0%Z.
Proof.
  unfold visit_Unit. intros Hc (n & En & H)%bind_Ret. apply bind_Ret in H as (f1 & E1 & H).
  apply bind_Ret in H as ([[pf ok] pg] & Ep & H). apply bind_Ret in H as (cp & Ec & H).
  apply bind_Ret in H as (f2 & E2 & H). apply bind_Ret in H as ([[sf ok'] sg] & Es & H).
  apply bind_Ret in H as (cs & Ecs & H). apply bind_Ret in H as (f3 & E3 & H).
  apply bind_Ret in H as (s4 & E4 & H). apply bind_Ret in H as (ms & Em & H).
  apply bind_Ret in H as (s5 & E5 & H). rewrite Hc in H. by injection H as <-.
Qed.

Lemma visit_Parameters_errors us l s s' :
  visit_Parameters us l s = Ret s' → c_errors s' = c_errors s.
Proof.
  revert s. induction l as [|p l IH]; intros s; cbn [visit_Parameters]; [by intros [= <-]|].
  intros (s1 & E & H)%bind_Ret. rewrite (IH _ H). clear -E. unfold visit_Parameter in E.
  destruct (mFileFunctions (file_ s)); [by injection E as <-|]. destruct p as [id t c d].
  destruct_Ret E. by injection E as <-.
Qed.

Lemma visit_Units_errors us options l s s' :
  forallb named l = true → visit_Units us options l s = Ret s' → c_errors s = 0%Z → c_errors s' = 0%Z.
Proof.
  revert s. induction l as [|[id u] l IH]; intros s; cbn [visit_Units]; [by intros _ [= <-]|].
  intros [Hu Hl]%andb_prop (s1 & E & H)%bind_Ret _. apply (IH s1); [done|done|].
  by eapply visit_Unit_errors.
Qed.

Lemma generator_errors_forgotten us options decls s r s' :
  forallb (λ d, forallb named (generated options d)) decls = true →
  run_generator us options decls s = Ret (r, s') → r = true.
Proof.
  intros Hn. unfold run_generator. cut (∀ b, process_all us options decls s b = Ret (r, s') → r = b); [auto|].
  revert s Hn. induction decls as [|d decls IH]; intros s Hn b; cbn [process_all]; [by intros [= <- _]|].
  apply andb_prop in Hn as [Hd Hn]. destruct (skipped options d) eqn:Hs; [by apply IH|].
  intros (s1 & E & H)%bind_Ret. rewrite (IH _ Hn _ H).
  enough (c_errors s1 = 0%Z) as -> by (by rewrite andb_true_r).
  destruct d as [[] id body|[] id|id|[] id t|[] id u|[] l]; cbn [visit_declaration] in E;
    try (by injection E as <-).
  - destruct_Ret E. by injection E as <-.
  - unfold visit_Type in E. destruct (kind t); try (by injection E as <-).
    + destruct_Ret E. by injection E as <-.
    + apply bind_Ret in E as (s2 & E2 & E). rewrite (visit_Parameters_errors _ _ _ _ E).
      destruct result as [[x y]|]; [|by injection E2 as <-]. unfold visit_Result in E2.
      destruct (mFileFunctions _); [done|]. destruct_Ret E2. by injection E2 as <-.
  - cbn in Hs, Hd. rewrite Hs in Hd. cbn in Hd. rewrite andb_true_r in Hd. by eapply visit_Unit_errors.
  - by eapply visit_Units_errors.
Qed.

(** ** An example *)

Definition sample_unit : unit_type :=
  mkUnit [] [IField (mkField (set_unit_ptr 0 (newItem (Some (mkID ["x"%string]))
                      (Some (mkTy plain (TInteger 16 false))) [] 0).1)
               (mkFieldBase None [] []) FAtomicType)] false (Some (mkID ["U"%string])) None.
Definition sample_units : units := {[ 0%nat := sample_unit ]}.
Definition sample_options : Options := mkOptions false false true.
Definition sample_decls : list declaration :=
  [DeclType true (mkID ["ByteOrder"%string]) (mkTy plain (TEnum []));
   DeclUnit false (mkID ["U"%string]) sample_unit;
   DeclType false (mkID ["E"%string]) (mkTy plain (TEnum [(mkID ["a"%string], 1%Z)]))].

Lemma generated_classes_witness :
  ∃ s', run_generator sample_units sample_options sample_decls (newCodeGenerator "u" "ns") = Ret (true, s') ∧
    map cls_name (mClasses (file_ s')) = ["U"; "UParser"; "USerializer"]%string ∧
    ∃ ls, Forall2 (unit_classes sample_units sample_options)
            (sample_decls ≫= generated sample_options) ls ∧ mClasses (file_ s') = concat ls.
Proof.
  destruct (run_generator sample_units sample_options sample_decls (newCodeGenerator "u" "ns"))
    as [[r s']| | |] eqn:E; try (vm_compute in E; discriminate).
  assert (Hn : map cls_name (mClasses (file_ (match run_generator sample_units sample_options sample_decls
    (newCodeGenerator "u" "ns") with Ret (_, s) => s | _ => newCodeGenerator "" "" end))) =
    ["U"; "UParser"; "USerializer"]%string) by (vm_compute; reflexivity).
  assert (Hr : match run_generator sample_units sample_options sample_decls (newCodeGenerator "u" "ns") with
    Ret (r, _) => r | _ => false end = true) by (vm_compute; reflexivity).
  rewrite E in Hn, Hr. subst r. exists s'. split; [reflexivity|]. split; [exact Hn|].
  apply (generated_classes sample_units sample_options sample_decls (newCodeGenerator "u" "ns") true s').
  - reflexivity.
  - apply (bool_decide_unpack _). vm_compute. exact I.
  - exact E.
Defined.
