(* ===== verification/Nodes.v ===== *)
(** * The syntax tree as the passes see it

    The passes over a module work on the graph of nodes: declarations, types, expressions,
    items and attributes point to each other with [node_ptr]s, which are handles of shared
    cells ([Graph.v]), and a pass replaces nodes in their cells while a visitor walks over
    them.  This file has the classes the passes look into, as objects of a heap, with the
    operations on them ([src/src/spec/ast/node.h], [type/type.h], [type/unit.cpp],
    [type/enum.cpp], [module.cpp]), and the traversal of [visitor.h] over a heap that changes
    under it.

    Identifiers are values here: no pass visits or replaces an [ID] node, so the [ID]s among
    the children of a node are left out.  A null [node_ptr] is [None]. *)

From S2P Require Import Prelude Util Ident Scope.
Import Util.Strings Ident.Id.

(** ** Objects *)

Module Nodes.

Abbreviation cell := nat.
Abbreviation node := nat.

(** The classes of [type::Type]; [TdOther] is a class without members the passes use. *)
Inductive tdata :=
  | TdUnknown (id : option ID)
  | TdUnknownElementType (expression : cell)
  | TdEnum (labels : list ID) (scope_ : option nat)
  | TdBitset (labels : list ID) (scope_ : option nat)
  | TdUnit (parameters items : list cell) (scope_ : nat)
  | TdList (element_type : cell)
  | TdInteger (width : Z) (signed : bool)
  | TdBytes | TdString | TdRegExp | TdFunction
  | TdOther (klass : string).

(** The classes of [expression::Expression]. *)
Inductive state_kind := SELF | DOLLARDOLLAR | PARAMETER.
Inductive xdata :=
  | XdID (id : ID)
  | XdType (contained_type : cell)
  | XdFunction (function : cell)
  | XdTransform (transform : cell)
  | XdVariable (variable : cell)
  | XdParserState (kind : state_kind) (id : option ID) (unit_ type : cell)
  | XdConstant (constant : cell)
  | XdCtor (ctor : cell)
  | XdLambda (elem_id : ID) (elem_expr : cell)
  | XdFind (list_expr : cell)
  | XdOther (klass : string).

(** The members of [unit::item::Item], and its classes. *)
Record idata := mkItemData {
  i_id : ID;
  i_anonymous : bool;
  i_type : option cell;
  i_serialized_type : option cell;
  i_attributes : cell;
  i_scope : nat;
  i_unit : option node }.
Inductive fdata :=
  | FdAtomicType
  | FdConstant (constant : cell)
  | FdCtor (ctor : cell)
  | FdUnknown (referenced_id : option ID)
  | FdUnit
  | FdSwitch (expression : option cell) (cases : list cell)
  | FdVector (contained_field length : cell)
  | FdList (contained_field : cell).
Inductive item_kind :=
  | IkVariable (default_value : option cell)
  | IkProperty (property : cell)
  | IkField (condition : option cell) (parameters sinks : list cell) (f : fdata).

Inductive Linkage := EXPORTED | PRIVATE | IMPORTED.

Inductive data :=
  | DModule (id : ID) (scope_ : nat) (decls_ : list cell) (properties_ : cell)
  | DDeclType (id : ID) (linkage : Linkage) (type : cell)
  | DDeclConstant (id : ID) (linkage : Linkage) (value : cell)
  | DDeclFunction (id : ID) (linkage : Linkage) (function : cell)
  | DDeclTransform (id : ID) (linkage : Linkage) (transform : cell)
  | DInstantiation (id unit_id : ID) (unit_ : option cell)
  | DType (id : option ID) (scope_ : string) (t : tdata)
  | DExpr (scope_ : string) (x : xdata)
  | DItem (b : idata) (k : item_kind)
  | DCase (expressions items : list cell) (default_ : bool)
  | DParameter (id : option ID) (type : cell)
  | DFunction (id : ID) (type : cell)
  | DTransform (id : ID) (wire_type internal_type : cell)
  | DLocal (id : ID) (type : option cell)
  | DConstant (label : option ID) (type : cell)
  | DAttributeMap (attrs_ : list (string * cell))
  | DAttribute (key : string) (value : option cell)
  | DOther (klass : string).

(** An object: its class with the members, [children_] and [node_ptr__]. *)
Record nobj := mkObj { n_data : data; n_children : list cell; n_ref : option cell }.
Record heap := mkHeap { cells : list node; objs : list nobj }.

Definition get (h : heap) (c : cell) : option node := cells h !! c.
Definition obj_at (h : heap) (c : cell) : option nobj := get h c ≫= λ n, objs h !! n.
Definition data_at (h : heap) (c : cell) : option data := n_data <$> obj_at h c.
Definition children_at (h : heap) (c : cell) : list cell := from_option n_children [] (obj_at h c).

Definition set_obj (n : node) (o : nobj) (h : heap) : heap := mkHeap (cells h) (<[n := o]> (objs h)).
Definition set_cell (c : cell) (n : node) (h : heap) : heap := mkHeap (<[c := n]> (cells h)) (objs h).

(** ** The state of a pass

    [current] is the stack of nodes being visited, the innermost first; [visited] the nodes
    already visited, which the code keeps as [node_ptr]s and compares by the node they point
    to; [id_counter] numbers anonymous items. *)
Record pstate := mkState {
  st_heap : heap;
  st_scopes : Scope.store cell;
  current : list cell;
  visited : list cell;
  errors : Z;
  id_counter : Z }.

Definition M (A : Type) : Type := pstate → outcome (A * pstate).
#[export] Instance M_ret : MRet M := λ A a s, Ret (a, s).
#[export] Instance M_bind : MBind M := λ A B f m s, '(a, s) ← m s; f a s.

Definition lift {A} (o : outcome A) : M A := λ s, a ← o; Ret (a, s).
Definition gets {A} (f : pstate → A) : M A := λ s, Ret (f s, s).
Definition set_heap (h : heap) : M unit := λ s,
  Ret (tt, mkState h (st_scopes s) (current s) (visited s) (errors s) (id_counter s)).
Definition set_scopes (st : Scope.store cell) : M unit := λ s,
  Ret (tt, mkState (st_heap s) st (current s) (visited s) (errors s) (id_counter s)).
(** [log] with the level of an error. *)
Definition log_error : M unit := λ s,
  Ret (tt, mkState (st_heap s) (st_scopes s) (current s) (visited s) (errors s + 1) (id_counter s)).
Definition next_id : M Z := λ s,
  Ret (id_counter s + 1,
       mkState (st_heap s) (st_scopes s) (current s) (visited s) (errors s) (id_counter s + 1))%Z.

(** [*c]: the node of a pointer. *)
Definition deref (c : cell) : M (node * nobj) := λ s,
  match get (st_heap s) c with
  | Some n =>
      match objs (st_heap s) !! n with
      | Some o => Ret ((n, o), s)
      | None => Abort "dangling node"
      end
  | None => Abort "null node_ptr"
  end.
Definition data_of (c : cell) : M data := '(_, o) ← deref c; mret (n_data o).
Definition set_data (c : cell) (d : data) : M unit :=
  '(n, o) ← deref c;
  h ← gets st_heap;
  set_heap (set_obj n (mkObj d (n_children o) (n_ref o)) h).

(** [newNodePtr(std::make_shared<T>(...))]: an object with these children and a pointer to it. *)
Definition newNode (d : data) (children : list cell) : M cell :=
  h ← gets st_heap;
  let c := length (cells h) in
  _ ← set_heap (mkHeap (cells h ++ [length (objs h)]) (objs h ++ [mkObj d children (Some c)]));
  mret c.
Definition opt (c : option cell) : list cell := match c with Some c => [c] | None => [] end.

(** [node_ptr::replace]. *)
Definition replace (c other : cell) : M unit :=
  '(n, o) ← deref c;
  '(n', _) ← deref other;
  h ← gets st_heap;
  set_heap (set_cell c n' (set_obj n (mkObj (n_data o) (n_children o) None) h)).

(** [addChild] and [removeChild], which removes all children with the node. *)
Definition addChild (c child : cell) : M unit :=
  '(n, o) ← deref c;
  h ← gets st_heap;
  set_heap (set_obj n (mkObj (n_data o) (n_children o ++ [child]) (n_ref o)) h).
Definition removeChild (c child : cell) : M unit :=
  '(n, o) ← deref c;
  h ← gets st_heap;
  set_heap (set_obj n (mkObj (n_data o) (filter (λ d, get h d ≠ get h child) (n_children o)) (n_ref o)) h).

(** [nodePtr]: the pointer a node was created with. *)
Definition nodePtr (c : cell) : M cell :=
  '(_, o) ← deref c;
  lift (match n_ref o with Some c => Ret c | None => Abort "no node_ptr associated with node" end).

(** ** Scopes *)

Definition newScope : M nat :=
  st ← gets st_scopes;
  let '(sc, st) := Scope.newScope None st in
  _ ← set_scopes st; mret sc.
Definition scope_insert (id : ID) (value : cell) (use_scope : bool) (sc : nat) : M unit :=
  st ← gets st_scopes;
  '(_, st) ← lift (Scope.insert id value use_scope sc st);
  set_scopes st.
Definition scope_set_parent (parent : option nat) (sc : nat) : M unit :=
  st ← gets st_scopes; set_scopes (Scope.set_parent parent sc st).
Definition scope_addChild (id : ID) (child sc : nat) : M unit :=
  st ← gets st_scopes; set_scopes (Scope.addChild id child sc st).
(** [lookup(id, true)] recurses along the parents, without end if there are more steps than
    scopes. *)
Definition scope_lookup (sc : nat) (id : ID) : M (list cell) :=
  st ← gets st_scopes;
  lift (match Scope.lookup (S (size (Scope.scopes st))) st sc id true with
        | NoFuel => Abort "stack overflow"
        | o => o
        end).

(** ** Traversal *)

(** [current<T>()]: the innermost node of a class. *)
Fixpoint current_where {A} (p : data → option A) (h : heap) (l : list cell) : option (cell * A) :=
  match l with
  | [] => None
  | c :: l =>
      match data_at h c ≫= p with
      | Some a => Some (c, a)
      | None => current_where p h l
      end
  end.
Definition is_module (d : data) : option (ID * nat) :=
  match d with DModule id sc _ _ => Some (id, sc) | _ => None end.
Definition current_module : M (ID * nat) :=
  h ← gets st_heap;
  l ← gets current;
  lift (match current_where is_module h l with
        | Some (_, m) => Ret m
        | None => Abort "null node_ptr"
        end).

Definition module_name (m : ID * nat) : M string := lift (name m.1).

(** Whether a cell of the set points to the node, as if the set were kept in order when cells in
    it are pointed elsewhere; [std::set] does not do that. *)
Definition is_visited (s : pstate) (c : cell) : bool :=
  existsb (λ d, bool_decide (get (st_heap s) d = get (st_heap s) c)) (visited s).

(** [_visited.insert(node)] and [pushCurrent(node)], and [popCurrent()]. *)
Definition enter (c : cell) (s : pstate) : pstate :=
  mkState (st_heap s) (st_scopes s) (c :: current s) (c :: visited s) (errors s) (id_counter s).
Definition leave (s : pstate) : pstate :=
  mkState (st_heap s) (st_scopes s) (tail (current s)) (visited s) (errors s) (id_counter s).

Section Traversal.
  (** [node->accept(this, node)]: the visit methods of the classes of the node. *)
  Context (accept : cell → M unit).

Definition each (f : cell → pstate → outcome pstate) : list cell → pstate → outcome pstate :=
  fix each l s :=
    match l with
    | [] => Ret s
    | c :: l => s ← f c s; each l s
    end.

(** [preOrder]: the children are those of the node the pointer holds after the visit.  No pass
    changes the children of a node while it visits them, so the list is read once. *)
Fixpoint preOrder (fuel : nat) (c : cell) (s : pstate) : outcome pstate :=
  if is_visited s c then Ret s
  else
    match fuel with
    | O => NoFuel
    | S fuel =>
        '(_, s) ← accept c (enter c s);
        match obj_at (st_heap s) c with
        | None => Abort "null node_ptr"
        | Some o =>
            s ← each (preOrder fuel) (n_children o) s;
            Ret (leave s)
        end
    end.

(** [processAllPreOrder]. *)
Definition reset (s : pstate) : pstate :=
  mkState (st_heap s) (st_scopes s) (current s) [] 0 (id_counter s).
Definition processAllPreOrder (fuel : nat) (c : cell) (s : pstate) : outcome (bool * pstate) :=
  s ← preOrder fuel c (reset s);
  Ret (errors s =? 0, s)%Z.

End Traversal.

(** Another visitor on the same nodes: it has a stack, a set and a count of its own. *)
Definition nested (run : pstate → outcome (bool * pstate)) : M bool := λ s,
  '(b, s') ← run (mkState (st_heap s) (st_scopes s) [] [] 0 (id_counter s));
  Ret (b, mkState (st_heap s') (st_scopes s') (current s) (visited s) (errors s) (id_counter s')).

End Nodes.
