(* ===== verification/ScopePass.v ===== *)
(** * Scopes of a module ([src/src/generation/preprocessing/scope_builder.cpp])

    The first pass declares the built-in type, function and transforms, then enters every
    declaration into the scope of the module and gives enums and bitsets a scope with their
    labels.  [accept] of a pass calls its visit methods for the classes of a node. *)

From S2P Require Import Prelude Util Ident Scope Nodes.
Import Util.Strings Ident.Id Nodes.Nodes.

Module ScopeBuilder.

(** [Enum::typeScope] and [Bitset::typeScope]: made on the first call, with a constant for
    every label. *)
Fixpoint insert_labels (labels : list ID) (p : cell) (sc : nat) : M unit :=
  match labels with
  | [] => mret tt
  | l :: labels =>
      val ← newNode (DConstant (Some l) p) [];
      expr ← newNode (DExpr "" (XdConstant val)) [val];
      _ ← scope_insert l expr false sc;
      insert_labels labels p sc
  end.
Definition typeScope (labels : list ID) (scope_ : option nat) (set : nat → data) (type : cell)
    : M nat :=
  match scope_ with
  | Some sc => mret sc
  | None =>
      sc ← newScope;
      _ ← set_data type (set sc);
      p ← nodePtr type;
      _ ← insert_labels labels p sc;
      mret sc
  end.

(** [type->set_id(id)] and [type->set_scope(scope)]. *)
Definition set_type_id (id : ID) (type : cell) : M unit :=
  d ← data_of type;
  match d with
  | DType _ sc t => set_data type (DType (Some id) sc t)
  | _ => lift (Abort "type")
  end.
Definition set_type_scope (scope : string) (type : cell) : M unit :=
  d ← data_of type;
  match d with
  | DType i _ t => set_data type (DType i scope t)
  | _ => lift (Abort "type")
  end.

(** [visit] of the declarations. *)
Definition visit_Type (id : ID) (type : cell) : M unit :=
  module ← current_module;
  let scope := module.2 in
  expr ← newNode (DExpr "" (XdType type)) [type];
  _ ← scope_insert id expr true scope;
  d ← data_of type;
  _ ← match d with
      | DType i sc (TdBitset labels ts) =>
          tscope ← typeScope labels ts (λ ts, DType i sc (TdBitset labels (Some ts))) type;
          _ ← scope_set_parent (Some scope) tscope;
          scope_addChild id tscope scope
      | DType i sc (TdEnum labels ts) =>
          tscope ← typeScope labels ts (λ ts, DType i sc (TdEnum labels (Some ts))) type;
          _ ← scope_set_parent (Some scope) tscope;
          scope_addChild id tscope scope
      | _ => mret tt
      end;
  _ ← set_type_id id type;
  n ← module_name module;
  set_type_scope n type.
Definition visit_Constant (id : ID) (value : cell) : M unit :=
  module ← current_module; scope_insert id value true module.2.
Definition visit_Function (id : ID) (func : cell) : M unit :=
  module ← current_module;
  expr ← newNode (DExpr "" (XdFunction func)) [];
  scope_insert id expr true module.2.
Definition visit_Transform (id : ID) (transform : cell) : M unit :=
  module ← current_module;
  expr ← newNode (DExpr "" (XdTransform transform)) [];
  scope_insert id expr true module.2.

Definition accept (c : cell) : M unit :=
  d ← data_of c;
  match d with
  | DDeclType id _ type => visit_Type id type
  | DDeclConstant id _ value => visit_Constant id value
  | DDeclFunction id _ f => visit_Function id f
  | DDeclTransform id _ t => visit_Transform id t
  | _ => mret tt
  end.

(** [Module::addDeclaration]; a declared unit also learns its module, which no pass uses. *)
Definition addDeclaration (decl module : cell) : M unit :=
  d ← data_of module;
  match d with
  | DModule id sc decls props =>
      _ ← set_data module (DModule id sc (decls ++ [decl]) props);
      addChild module decl
  | _ => lift (Abort "module")
  end.

Definition an_id (s : string) : ID := mkID [s].

(** A transform between a string in the message and an integer in the unit. *)
Definition add_transform (n : string) (width : Z) (module : cell) : M unit :=
  wire ← newNode (DType None "" TdString) [];
  internal ← newNode (DType None "" (TdInteger width false)) [];
  transform ← newNode (DTransform (an_id n) wire internal) [wire; internal];
  decl ← newNode (DDeclTransform (an_id n) IMPORTED transform) [transform];
  addDeclaration decl module.
Definition addBuiltins (module : cell) : M unit :=
  bo_enum ← newNode (DType None "" (TdEnum [an_id "big"; an_id "little"] None)) [];
  bo_decl ← newNode (DDeclType (an_id "ByteOrder") IMPORTED bo_enum) [bo_enum];
  _ ← addDeclaration bo_decl module;
  uc_type ← newNode (DType None "" TdFunction) [];
  uc_func ← newNode (DFunction (an_id "uppercase") uc_type) [uc_type];
  uc_decl ← newNode (DDeclFunction (an_id "uppercase") IMPORTED uc_func) [uc_func];
  _ ← addDeclaration uc_decl module;
  _ ← add_transform "stringEncodedUint64" 64 module;
  _ ← add_transform "hexStringEncodedUint64" 64 module;
  add_transform "stringEncodedUint32" 32 module.

Definition run (fuel : nat) (module : cell) (s : pstate) : outcome (bool * pstate) :=
  '(_, s) ← addBuiltins module s;
  processAllPreOrder accept fuel module s.

End ScopeBuilder.
