(* ===== verification/UnitScopePass.v ===== *)
(** * Scopes of units ([src/src/generation/preprocessing/unit_scope_builder.cpp])

    The pass fills the scopes of units and items with [self], the parameters and [$$]. *)

From S2P Require Import Prelude Util Ident Scope Nodes.
Import Util.Strings Ident.Id Nodes.Nodes.

Module UnitScopeBuilder.

(** [_flatten]: the items of the cases of a switch come before it; fuel bounds the nesting,
    which without a cycle is at most the number of nodes. *)
Fixpoint flatten (fuel : nat) (h : heap) (i : cell) : outcome (list cell) :=
  match fuel with
  | O => NoFuel
  | S fuel =>
      let flatten_all := fix flatten_all (l : list cell) : outcome (list cell) :=
        match l with
        | [] => Ret []
        | f :: l => a ← flatten fuel h f; b ← flatten_all l; Ret (a ++ b)
        end in
      let flatten_cases := fix flatten_cases (l : list cell) : outcome (list cell) :=
        match l with
        | [] => Ret []
        | c :: l =>
            match data_at h c with
            | Some (DCase _ items _) => a ← flatten_all items; b ← flatten_cases l; Ret (a ++ b)
            | _ => Abort "case"
            end
        end in
      match data_at h i with
      | Some (DItem _ (IkField _ _ _ (FdSwitch _ cases))) => l ← flatten_cases cases; Ret (l ++ [i])
      | Some _ => Ret [i]
      | None => Abort "null node_ptr"
      end
  end.
Fixpoint flatten_items (fuel : nat) (h : heap) (l : list cell) : outcome (list cell) :=
  match l with
  | [] => Ret []
  | i :: l => a ← flatten fuel h i; b ← flatten_items fuel h l; Ret (a ++ b)
  end.

Fixpoint insert_parameters (l : list cell) (unit_ uscope : nat) : M unit :=
  match l with
  | [] => mret tt
  | p :: l =>
      d ← data_of p;
      match d with
      | DParameter (Some id) type =>
          e ← newNode (DExpr "" (XdParserState PARAMETER (Some id) unit_ type)) [unit_; type];
          _ ← scope_insert id e false uscope;
          insert_parameters l unit_ uscope
      | _ => lift (Abort "p->id()")
      end
  end.

(** The type of [$$]: regular expressions yield bytes, and [ParserState] makes an unknown type
    of null. *)
Definition dollar_type (t : option cell) : M cell :=
  match t with
  | None => newNode (DType None "" (TdUnknown None)) []
  | Some t =>
      d ← data_of t;
      match d with
      | DType _ _ TdRegExp => newNode (DType None "" TdBytes) []
      | _ => mret t
      end
  end.
Definition visit_item (unit_ : cell) (uscope : nat) (i : cell) : M unit :=
  d ← data_of i;
  match d with
  | DItem b _ =>
      _ ← scope_set_parent (Some uscope) (i_scope b);
      n ← lift (name (i_id b));
      _ ← scope_addChild (mkID ["__item_" +:+ n]) (i_scope b) uscope;
      dd ← dollar_type (i_type b);
      e ← newNode (DExpr "" (XdParserState DOLLARDOLLAR None unit_ dd)) [unit_; dd];
      scope_insert (mkID ["$$"]) e false (i_scope b)
  | _ => lift (Abort "item")
  end.
Fixpoint visit_items (unit_ : cell) (uscope : nat) (l : list cell) : M unit :=
  match l with
  | [] => mret tt
  | i :: l => _ ← visit_item unit_ uscope i; visit_items unit_ uscope l
  end.

Definition visit_Type (type : cell) : M unit :=
  d ← data_of type;
  match d with
  | DType _ _ (TdUnit params items uscope) =>
      e ← newNode (DExpr "" (XdParserState SELF None type type)) [type; type];
      _ ← scope_insert (mkID ["self"]) e false uscope;
      module ← current_module;
      _ ← scope_set_parent (Some module.2) uscope;
      _ ← insert_parameters params type uscope;
      h ← gets st_heap;
      l ← lift (match flatten_items (S (length (objs h))) h items with
                | NoFuel => Abort "stack overflow"
                | o => o
                end);
      visit_items type uscope l
  | _ => mret tt
  end.
Definition accept (c : cell) : M unit :=
  d ← data_of c;
  match d with
  | DDeclType _ _ type => visit_Type type
  | _ => mret tt
  end.
Definition run (fuel : nat) (module : cell) (s : pstate) : outcome (bool * pstate) :=
  processAllPreOrder accept fuel module s.

End UnitScopeBuilder.
