(* ===== verification/IdPass.v ===== *)
(** * Identifier resolution ([src/src/generation/preprocessing/id_resolver.cpp])

    The pass replaces identifier expressions, named types and fields of a named type by what
    the scopes say they stand for, in the cells of the nodes, while it walks over them. *)

From S2P Require Import Prelude Util Ident Scope Nodes ScopePass.
Import Util.Strings Ident.Id Nodes.Nodes.

Module IdResolver.

(** [IdExprReplacer]: replaces the expressions that are the identifier [old]. *)
Definition replacer_accept (old : ID) (new_ : cell) (c : cell) : M unit :=
  d ← data_of c;
  match d with
  | DExpr _ (XdID id) =>
      if String.eqb (pathAsString id None) (pathAsString old None) then replace c new_ else mret tt
  | _ => mret tt
  end.
Definition replacer_run (old : ID) (new_ : cell) (node : cell) : M bool := λ s,
  nested (processAllPreOrder (replacer_accept old new_) (S (length (cells (st_heap s)))) node) s.

Section IdResolver.
  Context (report_unresolved_ : bool).

Definition report : M unit := if report_unresolved_ then log_error else mret tt.

(** The scope an expression is looked up in: that of the innermost item or unit. *)
Definition has_scope (d : data) : option nat :=
  match d with
  | DItem b _ => Some (i_scope b)
  | DType _ _ (TdUnit _ _ sc) => Some sc
  | _ => None
  end.

(** [visit(expression::ID)]. *)
Definition visit_ID (c : cell) (id : ID) : M unit :=
  module ← current_module;
  h ← gets st_heap;
  l ← gets current;
  let scope := match current_where has_scope h l with Some (_, sc) => sc | None => module.2 end in
  vals ← scope_lookup scope id;
  vals ← (match vals with
          | _ :: _ => mret vals
          | [] =>
              if isScoped id then
                n ← module_name module;
                match path_ id with
                | front :: path =>
                    if String.eqb front n then scope_lookup scope (mkID path) else mret vals
                | [] => mret vals
                end
              else mret vals
          end);
  match vals with
  | [] => report
  | [val] =>
      _ ← (if isScoped id then
             d ← data_of val;
             match d with
             | DExpr _ x => set_data val (DExpr (Id.scope id) x)
             | _ => lift (Abort "expression")
             end
           else mret tt);
      replace c val
  | _ => log_error
  end.

(** [visit(expression::Lambda)]. *)
Definition is_find (d : data) : option cell :=
  match d with DExpr _ (XdFind l) => Some l | _ => None end.
Definition has_child (h : heap) (c child : cell) : bool :=
  existsb (λ d, bool_decide (get h d = get h child)) (children_at h c).
Definition visit_Lambda (c : cell) (elem_id : ID) (elem_expr : cell) : M unit :=
  h ← gets st_heap;
  l ← gets current;
  elem_type ← (match current_where is_find h l with
               | Some (find_expr, l_expr) =>
                   if has_child h find_expr c then
                     t ← newNode (DType None "" (TdUnknownElementType l_expr)) [l_expr]; mret (Some t)
                   else (_ ← log_error; mret None)
               | None => _ ← log_error; mret None
               end);
  var ← newNode (DLocal elem_id elem_type) (opt elem_type);
  var_expr ← newNode (DExpr "" (XdVariable var)) [var];
  _ ← replacer_run elem_id var_expr elem_expr;
  mret tt.

(** The unique value of an identifier in the scope of the module, as [visit] of the other
    classes looks it up. *)
Definition lookup_one (id : ID) : M (option cell) :=
  module ← current_module;
  vals ← scope_lookup module.2 id;
  match vals with
  | [] => _ ← report; mret None
  | [val] => mret (Some val)
  | _ => _ ← log_error; mret None
  end.

(** [visit(Instantiation)]. *)
Definition visit_Instantiation (c : cell) (iid id : ID) : M unit :=
  val ← lookup_one id;
  match val with
  | None => mret tt
  | Some val =>
      d ← data_of val;
      match d with
      | DExpr _ (XdType tv) =>
          d ← data_of tv;
          match d with
          | DType _ _ (TdUnit _ _ _) => set_data c (DInstantiation iid id (Some tv))
          | _ => log_error
          end
      | _ => log_error
      end
  end.

(** [visit(type::Unknown)]. *)
Definition visit_Unknown (c : cell) (id : ID) : M unit :=
  val ← lookup_one id;
  match val with
  | None => mret tt
  | Some val =>
      d ← data_of val;
      match d with
      | DExpr _ (XdType tv) =>
          module ← current_module;
          d ← data_of tv;
          match d with
          | DType tid _ _ =>
              _ ← (if (match tid with Some i => negb (isScoped i && isScoped id) | None => true end)
                   then
                     _ ← ScopeBuilder.set_type_id id tv;
                     if isScoped id then mret tt
                     else (n ← module_name module; ScopeBuilder.set_type_scope n tv)
                   else mret tt);
              replace c tv
          | _ => lift (Abort "type")
          end
      | _ => log_error
      end
  end.

(** The constructors of fields: [Item] with an identifier of its own for null, a map of the
    attributes and a scope, [Field], and the class. *)
Definition new_item_id (id : option ID) : M (ID * bool) :=
  match id with
  | Some id => mret (id, false)
  | None => n ← next_id; mret (mkID ["__anon" +:+ pretty n], true)
  end.
Definition new_field (id : option ID) (type : option cell) (condition : option cell)
    (attrs : list (string * cell)) (params sinks : list cell) (f : fdata) (own : list cell) : M cell :=
  am ← newNode (DAttributeMap attrs) attrs.*2;
  sc ← newScope;
  '(id, anon) ← new_item_id id;
  newNode (DItem (mkItemData id anon type None am sc None) (IkField condition params sinks f))
    (opt type ++ [am] ++ params ++ sinks ++ own).

(** [Field::createByType]; a list type that contains itself has no end: the recursion is deeper
    than there are list types, and the program ends with a full stack. *)
Fixpoint createByType (fuel : nat) (type : cell) (id : option ID) (condition : option cell)
    (attrs : list (string * cell)) (params sinks : list cell) : M cell :=
  match fuel with
  | O => lift (Abort "stack overflow")
  | S fuel =>
      d ← data_of type;
      match d with
      | DType _ _ (TdUnit _ _ _) => new_field id (Some type) condition attrs params sinks FdUnit []
      | DType _ _ (TdList element) =>
          field ← createByType fuel element None None [] [] [];
          bytes ← newNode (DType None "" TdBytes) [];
          l ← new_field id (Some bytes) condition attrs [] sinks (FdList field) [field];
          ld ← data_of l;
          fd ← data_of field;
          match ld, fd with
          | DItem lb _, DItem fb _ =>
              _ ← scope_set_parent (Some (i_scope lb)) (i_scope fb); mret l
          | _, _ => lift (Abort "item")
          end
      | _ => new_field id (Some type) condition attrs [] sinks FdAtomicType []
      end
  end.
Definition is_list_obj (o : nobj) : bool :=
  match n_data o with DType _ _ (TdList _) => true | _ => false end.
Definition list_types (h : heap) : nat := length (filter is_list_obj (objs h)).

(** [set_unit] of a field, which a container passes on; new fields are never switches. *)
Fixpoint set_unit (fuel : nat) (u : option node) (c : cell) : M unit :=
  match fuel with
  | O => lift (Abort "stack overflow")
  | S fuel =>
      d ← data_of c;
      match d with
      | DItem b k =>
          _ ← set_data c (DItem (mkItemData (i_id b) (i_anonymous b) (i_type b) (i_serialized_type b)
                                   (i_attributes b) (i_scope b) u) k);
          match k with
          | IkField _ _ _ (FdList f) | IkField _ _ _ (FdVector f _) => set_unit fuel u f
          | _ => mret tt
          end
      | _ => lift (Abort "item")
      end
  end.
Definition set_anonymous (c : cell) : M unit :=
  d ← data_of c;
  match d with
  | DItem b k =>
      set_data c (DItem (mkItemData (i_id b) true (i_type b) (i_serialized_type b)
                           (i_attributes b) (i_scope b) (i_unit b)) k)
  | _ => lift (Abort "item")
  end.

(** [node->unit().get()]. *)
Definition unit_of (b : idata) : M (option node) :=
  match i_unit b with
  | None => mret None
  | Some u =>
      h ← gets st_heap;
      match objs h !! u ≫= n_ref with
      | Some c => mret (get h c)
      | None => lift (Abort "no node_ptr associated with node")
      end
  end.

(** [visit(field::Unknown)]. *)
Definition new_known_field (expr : cell) (b : idata) (condition : option cell)
    (params sinks : list cell) (attrs : list (string * cell)) : M (option cell) :=
  h ← gets st_heap;
  d ← data_of expr;
  match d with
  | DExpr _ (XdCtor ctor) =>
      t ← newNode (DType None "" TdBytes) [];
      f ← new_field (Some (i_id b)) (Some t) condition attrs [] sinks (FdCtor ctor) [ctor];
      mret (Some f)
  | DExpr _ (XdConstant constant) =>
      cd ← data_of constant;
      match cd with
      | DConstant _ t =>
          f ← new_field (Some (i_id b)) (Some t) condition attrs [] sinks (FdConstant constant) [constant];
          mret (Some f)
      | _ => lift (Abort "constant")
      end
  | DExpr _ (XdType t) =>
      f ← createByType (S (list_types h)) t (Some (i_id b)) condition attrs params sinks;
      mret (Some f)
  | _ => _ ← log_error; mret None
  end.
Definition visit_field_Unknown (c : cell) (b : idata) (condition : option cell)
    (params sinks : list cell) (referenced_id : option ID) : M unit :=
  match referenced_id with
  | None => lift (Throw (AstInternalError "field::Unknown without referenced ID"))
  | Some id =>
      expr ← lookup_one id;
      match expr with
      | None => mret tt
      | Some expr =>
          am ← data_of (i_attributes b);
          match am with
          | DAttributeMap attrs =>
              nfield ← new_known_field expr b condition params sinks attrs;
              match nfield with
              | None => mret tt
              | Some nfield =>
                  nd ← data_of nfield;
                  match nd with
                  | DItem nb _ =>
                      st ← gets st_scopes;
                      _ ← scope_set_parent (Scope.parent_of st (i_scope b)) (i_scope nb);
                      _ ← (if i_anonymous b then set_anonymous nfield else mret tt);
                      u ← unit_of b;
                      h ← gets st_heap;
                      _ ← set_unit (S (length (objs h))) u nfield;
                      replace c nfield
                  | _ => lift (Abort "item")
                  end
              end
          | _ => lift (Abort "attributes")
          end
      end
  end.

Definition accept (c : cell) : M unit :=
  d ← data_of c;
  match d with
  | DExpr _ (XdID id) => visit_ID c id
  | DExpr _ (XdLambda elem_id elem_expr) => visit_Lambda c elem_id elem_expr
  | DInstantiation iid id _ => visit_Instantiation c iid id
  | DType _ _ (TdUnknown (Some id)) => visit_Unknown c id
  | DItem b (IkField condition params sinks (FdUnknown rid)) =>
      visit_field_Unknown c b condition params sinks rid
  | _ => mret tt
  end.

Definition run (fuel : nat) (module : cell) (s : pstate) : outcome (bool * pstate) :=
  processAllPreOrder accept fuel module s.

End IdResolver.
End IdResolver.
