(* ===== verification/TransformPass.v ===== *)
(** * Transforms ([src/src/generation/preprocessing/transform_resolver.cpp])

    The pass separates the type of an item in the message from its type in the unit. *)

From S2P Require Import Prelude Util Ident Scope Nodes.
Import Util.Strings Ident.Id Nodes.Nodes.

Module TransformResolver.

(** [Item::set_serialized_type] and [Item::set_type]. *)
Definition set_serialized_type (c : cell) (t : option cell) : M unit :=
  d ← data_of c;
  match d with
  | DItem b k =>
      _ ← (match i_serialized_type b with Some old => removeChild c old | None => mret tt end);
      _ ← set_data c (DItem (mkItemData (i_id b) (i_anonymous b) (i_type b) t (i_attributes b)
                               (i_scope b) (i_unit b)) k);
      match t with Some t => addChild c t | None => mret tt end
  | _ => lift (Abort "item")
  end.
Definition set_type (c t : cell) : M unit :=
  d ← data_of c;
  match d with
  | DItem b k =>
      _ ← (match i_type b with Some old => removeChild c old | None => mret tt end);
      _ ← set_data c (DItem (mkItemData (i_id b) (i_anonymous b) (Some t) (i_serialized_type b)
                               (i_attributes b) (i_scope b) (i_unit b)) k);
      addChild c t
  | _ => lift (Abort "item")
  end.

(** [node->attributes()->lookup(key)], with the value of the attribute. *)
Definition lookup_attribute (key : string) (am : cell) : M (option (option cell)) :=
  d ← data_of am;
  match d with
  | DAttributeMap attrs =>
      match Attribute.find_key key attrs with
      | None => mret None
      | Some a =>
          d ← data_of a;
          match d with
          | DAttribute _ v => mret (Some v)
          | _ => lift (Abort "attribute")
          end
      end
  | _ => lift (Abort "attributes")
  end.

(** [visit(Item)]. *)
Definition visit_Item (c : cell) (b : idata) : M unit :=
  a ← lookup_attribute "transform_to" (i_attributes b);
  match a with
  | None => mret tt
  | Some v =>
      d ← (match v with Some v => d ← data_of v; mret (Some d) | None => mret None end);
      match d with
      | Some (DExpr _ (XdID id)) =>
          _ ← set_serialized_type c (i_type b);
          type ← newNode (DType None "" (TdUnknown (Some id))) [];
          set_type c type
      | Some (DExpr _ (XdType type)) =>
          _ ← set_serialized_type c (i_type b);
          set_type c type
      | _ => _ ← log_error; _ ← set_serialized_type c (i_type b); lift (Abort "null node_ptr")
      end
  end.

Definition accept (c : cell) : M unit :=
  d ← data_of c;
  match d with
  | DItem b _ => visit_Item c b
  | _ => mret tt
  end.
Definition run (fuel : nat) (module : cell) (s : pstate) : outcome (bool * pstate) :=
  processAllPreOrder accept fuel module s.

End TransformResolver.

(** ** What a transform does to an item *)

Section Visit.
  Import TransformResolver.

Lemma deref_eq c s n o :
  get (st_heap s) c = Some n → objs (st_heap s) !! n = Some o → deref c s = Ret ((n, o), s).
Proof. intros Hc Ho. unfold deref. by rewrite Hc, Ho. Qed.

Lemma data_of_eq c s d : data_at (st_heap s) c = Some d → data_of c s = Ret (d, s).
Proof.
  unfold data_at, obj_at. destruct (get (st_heap s) c) as [n|] eqn:Hc; [|done]. cbn.
  destruct (objs (st_heap s) !! n) as [o|] eqn:Ho; [|done]. intros [= <-].
  unfold data_of, mbind, M_bind. by rewrite (deref_eq c s n o Hc Ho).
Qed.

(** The heap with another object behind a cell. *)
Definition with_obj (n : node) (o : nobj) (s : pstate) : pstate :=
  mkState (set_obj n o (st_heap s)) (st_scopes s) (current s) (visited s) (errors s) (id_counter s).

Lemma with_obj_get n o s c : get (st_heap (with_obj n o s)) c = get (st_heap s) c.
Proof. done. Qed.

Lemma with_obj_lookup n o s :
  is_Some (objs (st_heap s) !! n) → objs (st_heap (with_obj n o s)) !! n = Some o.
Proof. intros [o' Ho]. apply list_lookup_insert_eq. by eapply lookup_lt_Some. Qed.

Lemma set_data_eq c d s n o :
  get (st_heap s) c = Some n → objs (st_heap s) !! n = Some o →
  Nodes.set_data c d s = Ret (tt, with_obj n (mkObj d (n_children o) (n_ref o)) s).
Proof. intros Hc Ho. unfold Nodes.set_data, mbind, M_bind. by rewrite (deref_eq c s n o Hc Ho). Qed.

Lemma addChild_eq c e s n o :
  get (st_heap s) c = Some n → objs (st_heap s) !! n = Some o →
  addChild c e s = Ret (tt, with_obj n (mkObj (n_data o) (n_children o ++ [e]) (n_ref o)) s).
Proof. intros Hc Ho. unfold addChild, mbind, M_bind. by rewrite (deref_eq c s n o Hc Ho). Qed.

Lemma removeChild_eq c e s n o :
  get (st_heap s) c = Some n → objs (st_heap s) !! n = Some o →
  removeChild c e s = Ret (tt, with_obj n (mkObj (n_data o)
    (filter (λ d, get (st_heap s) d ≠ get (st_heap s) e) (n_children o)) (n_ref o)) s).
Proof. intros Hc Ho. unfold removeChild, mbind, M_bind. by rewrite (deref_eq c s n o Hc Ho). Qed.

Lemma newNode_eq d ch s :
  newNode d ch s = Ret (length (cells (st_heap s)),
    mkState (mkHeap (cells (st_heap s) ++ [length (objs (st_heap s))])
               (objs (st_heap s) ++ [mkObj d ch (Some (length (cells (st_heap s))))]))
      (st_scopes s) (current s) (visited s) (errors s) (id_counter s)).
Proof. done. Qed.

Lemma filter_get (f g : cell → option node) x (l : list cell) :
  (∀ d, d ∈ l → f d = g d) → filter (λ d, f d ≠ x) l = filter (λ d, g d ≠ x) l.
Proof.
  induction l as [|y l IH]; [done|]. intros H.
  rewrite !list.filter_cons, IH by (intros d Hd; apply H; by right). by rewrite (H y) by (by left).
Qed.

Definition with_types (type serialized : option cell) (b : idata) : idata :=
  mkItemData (i_id b) (i_anonymous b) type serialized (i_attributes b) (i_scope b) (i_unit b).

Lemma with_obj_twice n o o' s : with_obj n o (with_obj n o' s) = with_obj n o s.
Proof. unfold with_obj, set_obj. cbn. by rewrite list_insert_insert_eq. Qed.

Lemma obj_data c s n o :
  get (st_heap s) c = Some n → objs (st_heap s) !! n = Some o → data_at (st_heap s) c = Some (n_data o).
Proof. intros Hc Ho. unfold data_at, obj_at. rewrite Hc. cbn. by rewrite Ho. Qed.

Lemma set_serialized_type_eq c t s n b k ch ref :
  get (st_heap s) c = Some n → objs (st_heap s) !! n = Some (mkObj (DItem b k) ch ref) →
  i_serialized_type b = None →
  set_serialized_type c (Some t) s =
  Ret (tt, with_obj n (mkObj (DItem (with_types (i_type b) (Some t) b) k) (ch ++ [t]) ref) s).
Proof.
  intros Hc Ho Hb. unfold set_serialized_type, mbind, M_bind.
  rewrite (data_of_eq c s (DItem b k)) by apply (obj_data c s n _ Hc Ho).
  cbn. rewrite Hb. cbn. rewrite (set_data_eq c _ s n _ Hc Ho). cbn.
  set (s1 := with_obj n _ s). pose proof (with_obj_lookup n _ s ltac:(by eexists) : objs (st_heap s1) !! n = Some _) as H1.
  rewrite (addChild_eq c t s1 n _ Hc H1). cbn. unfold s1. by rewrite with_obj_twice.
Qed.

Lemma set_type_eq c t s n b k ch ref old :
  get (st_heap s) c = Some n → objs (st_heap s) !! n = Some (mkObj (DItem b k) ch ref) →
  i_type b = Some old →
  set_type c t s =
  Ret (tt, with_obj n (mkObj (DItem (with_types (Some t) (i_serialized_type b) b) k)
    (filter (λ d, get (st_heap s) d ≠ get (st_heap s) old) ch ++ [t]) ref) s).
Proof.
  intros Hc Ho Hb. unfold set_type, mbind, M_bind.
  rewrite (data_of_eq c s (DItem b k)) by apply (obj_data c s n _ Hc Ho).
  cbn. rewrite Hb. rewrite (removeChild_eq c old s n _ Hc Ho). cbn.
  set (s1 := with_obj n _ s). pose proof (with_obj_lookup n _ s ltac:(by eexists) : objs (st_heap s1) !! n = Some _) as H1.
  rewrite (set_data_eq c _ s1 n _ Hc H1). cbn. unfold s1. rewrite with_obj_twice.
  set (s2 := with_obj n _ s). pose proof (with_obj_lookup n _ s ltac:(by eexists) : objs (st_heap s2) !! n = Some _) as H2.
  rewrite (addChild_eq c t s2 n _ Hc H2). cbn. unfold s2. by rewrite with_obj_twice.
Qed.

(** [set_type] after [set_serialized_type], with any type. *)
Lemma retype c t t' s n b k ch ref :
  get (st_heap s) c = Some n →
  objs (st_heap s) !! n = Some (mkObj (DItem (with_types (Some t) (Some t) b) k) (ch ++ [t]) ref) →
  ∃ s', set_type c t' s = Ret (tt, s') ∧
    data_at (st_heap s') c = Some (DItem (with_types (Some t') (Some t) b) k) ∧
    children_at (st_heap s') c = filter (λ d, get (st_heap s) d ≠ get (st_heap s) t) ch ++ [t'] ∧
    (∀ d m, get (st_heap s) d = Some m → m ≠ n → data_at (st_heap s') d = data_at (st_heap s) d).
Proof.
  intros Hc Ho. rewrite (set_type_eq c t' s n _ k (ch ++ [t]) ref t Hc Ho) by done.
  set (o := mkObj _ _ _). eexists. split; [reflexivity|].
  assert (H3 : objs (st_heap (with_obj n o s)) !! n = Some o) by (apply with_obj_lookup; by eexists).
  split_and!.
  - by rewrite (obj_data c (with_obj n o s) n o Hc H3).
  - unfold children_at, obj_at. change (get _ c) with (get (st_heap s) c). rewrite Hc.
    cbn [mbind option_bind]. rewrite H3. unfold o. cbn [from_option n_children].
    rewrite list.filter_app, list.filter_cons_False by (by intros []). by rewrite app_nil_r.
  - intros d m Hd Hm. unfold data_at, obj_at. rewrite with_obj_get, Hd. cbn.
    by rewrite list_lookup_insert_ne.
Qed.

(** The two ways a type is given. *)
Definition type_value (x : xdata) : bool :=
  match x with XdID _ | XdType _ => true | _ => false end.

(** C30: The visit of an item with the attribute [transform_to].  The type of the item in the
    message is its old type.  Its type in the unit is the type the value of the attribute stands
    for, when that is a type expression, as it is once identifiers are resolved; it is a new
    unknown type with the given name, when the value is still an identifier.  As [set_type]
    removes all children that are the old type, the type in the message is no longer among the
    children of the item. *)
Theorem transform_visit c b k t attrs a key v sc x s n ch ref :
  get (st_heap s) c = Some n → objs (st_heap s) !! n = Some (mkObj (DItem b k) ch ref) →
  i_type b = Some t → i_serialized_type b = None →
  data_at (st_heap s) (i_attributes b) = Some (DAttributeMap attrs) →
  Attribute.find_key "transform_to" attrs = Some a →
  data_at (st_heap s) a = Some (DAttribute key (Some v)) →
  data_at (st_heap s) v = Some (DExpr sc x) → type_value x = true →
  (∀ d, d ∈ t :: ch → d < length (cells (st_heap s)))%nat →
  ∃ t' s', visit_Item c b s = Ret (tt, s') ∧
    data_at (st_heap s') c = Some (DItem (with_types (Some t') (Some t) b) k) ∧
    match x with
    | XdID id => data_at (st_heap s) t' = None ∧
                 data_at (st_heap s') t' = Some (DType None "" (TdUnknown (Some id)))
    | XdType t0 => t' = t0
    | _ => False
    end ∧
    children_at (st_heap s') c = filter (λ d, get (st_heap s) d ≠ get (st_heap s) t) ch ++ [t'].
Proof.
  intros Hc Ho Ht Hs Ham Ha Hattr Hv Hx Hch. unfold visit_Item, lookup_attribute, mbind, M_bind.
  rewrite (data_of_eq _ _ _ Ham). cbn. rewrite Ha. rewrite (data_of_eq _ _ _ Hattr). cbn.
  rewrite (data_of_eq _ _ _ Hv). cbn.
  set (s1 := with_obj n (mkObj (DItem (with_types (Some t) (Some t) b) k) (ch ++ [t]) ref) s).
  assert (Hs1 : set_serialized_type c (Some t) s = Ret (tt, s1)).
  { rewrite (set_serialized_type_eq c t s n b k ch ref Hc Ho Hs). by rewrite Ht. }
  assert (H1 : objs (st_heap s1) !! n = Some (mkObj (DItem (with_types (Some t) (Some t) b) k) (ch ++ [t]) ref))
    by (apply with_obj_lookup; by eexists).
  destruct x as [id|t0| | | | | | | | | ]; try done; rewrite Ht, Hs1; cbn.
  - rewrite newNode_eq. cbn [mbind outcome_bind]. set (t' := length (cells (st_heap s))).
    change (length (cells (st_heap s1))) with t'. set (s2 := mkState _ _ _ _ _ _).
    assert (Hlt : n < length (objs (st_heap s))) by (by eapply lookup_lt_Some).
    assert (Hget : ∀ d, d < t' → get (st_heap s2) d = get (st_heap s) d).
    { intros d Hd. unfold get. cbn. by rewrite lookup_app_l. }
    destruct (retype c t t' s2 n b k ch ref) as (s' & He & Hd & Hc' & Hf).
    { rewrite Hget; [done|by eapply lookup_lt_Some]. }
    { cbn. by apply lookup_app_l_Some. }
    exists t', s'. split_and!; [exact He|exact Hd| | |].
    + unfold data_at, obj_at, get. by rewrite lookup_ge_None_2.
    + rewrite (Hf t' (length (objs (st_heap s)))); [| |lia].
      * unfold data_at, obj_at, get. cbn. rewrite list_lookup_middle by done. cbn.
        rewrite list_lookup_middle by done. done.
      * unfold get. cbn. rewrite list_lookup_middle by done. by rewrite length_insert.
    + rewrite Hc'. f_equal. rewrite (Hget t) by (apply Hch; by left).
      apply filter_get. intros d Hd'. apply Hget, Hch. by right.
  - destruct (retype c t t0 s1 n b k ch ref Hc H1) as (s' & He & Hd & Hc' & _).
    exists t0, s'. by split_and!.
Qed.
End Visit.

(** An item of bytes that is transformed to a type that is known by now. *)
Definition transform_example : pstate :=
  mkState (mkHeap [0; 1; 2; 3; 4; 5]
             [mkObj (DType None "" TdBytes) [] (Some 0);
              mkObj (DExpr "" (XdType 5)) [5] (Some 1);
              mkObj (DAttribute "transform_to" (Some 1)) [1] (Some 2);
              mkObj (DAttributeMap [("transform_to", 2)]) [2] (Some 3);
              mkObj (DItem (mkItemData (mkID ["x"]) false (Some 0) None 3 0 None)
                       (IkField None [] [] FdAtomicType)) [0; 3] (Some 4);
              mkObj (DType (Some (mkID ["net"; "T"])) "net" (TdInteger 16 false)) [] (Some 5)])
    (Scope.mkStore ∅ ∅ ∅) [] [] 0 0.

Lemma transform_visit_witness :
  let b := mkItemData (mkID ["x"]) false (Some 0) None 3 0 None in
  ∃ t' s', TransformResolver.visit_Item 4 b transform_example = Ret (tt, s') ∧
    data_at (st_heap s') 4 = Some (DItem (with_types (Some t') (Some 0) b) (IkField None [] [] FdAtomicType)) ∧
    t' = 5 ∧
    children_at (st_heap s') 4 =
      filter (λ d, get (st_heap transform_example) d ≠ get (st_heap transform_example) 0) [0; 3] ++ [t'].
Proof.
  intros b.
  apply (transform_visit 4 b (IkField None [] [] FdAtomicType) 0 [("transform_to", 2)] 2 "transform_to" 1 ""
    (XdType 5) transform_example 4 [0; 3] (Some 4)); try reflexivity.
  intros d Hd. repeat (apply elem_of_cons in Hd as [->|Hd]; [cbn; lia|]). by apply not_elem_of_nil in Hd.
Defined.
