(* ===== verification/Evolve.v ===== *)
(** * Traversals that change the tree they walk over

    Weakest preconditions for the state monad of the passes, the traversal of [visitor.h] with
    an [accept] that changes the heap ([Traversals]: it terminates, and what it leaves behind
    is closed under children), and what identifier resolution changes ([evolve]): the
    operations of [Nodes.v] one by one. *)

From S2P Require Import Prelude Util Ident Scope Nodes ScopePass IdPass.
Import Util.Strings Ident.Id Nodes.Nodes.

(** ** Weakest preconditions

    [wp m Q s]: from [s], [m] does not run out of fuel, and [Q] holds if it returns. *)
Definition wp {A} (m : M A) (Q : A → pstate → Prop) (s : pstate) : Prop :=
  match m s with
  | Ret (a, s') => Q a s'
  | NoFuel => False
  | _ => True
  end.

Lemma wp_bind {A B} (m : M A) (f : A → M B) Q s :
  wp m (λ a s', wp (f a) Q s') s → wp (m ≫= f) Q s.
Proof. unfold wp, mbind, M_bind. by destruct (m s) as [[a s']| | |]. Qed.

Lemma wp_ret {A} (a : A) (Q : A → pstate → Prop) s : Q a s → wp (mret a) Q s.
Proof. done. Qed.

Lemma wp_mono {A} (m : M A) (Q Q' : A → pstate → Prop) s :
  wp m Q s → (∀ a s', Q a s' → Q' a s') → wp m Q' s.
Proof. unfold wp. destruct (m s) as [[a s']| | |]; auto. Qed.

Lemma wp_gets {A} (f : pstate → A) (Q : A → pstate → Prop) s : Q (f s) s → wp (gets f) Q s.
Proof. done. Qed.

Lemma wp_lift {A} (o : outcome A) (Q : A → pstate → Prop) s :
  o ≠ NoFuel → (∀ a, o = Ret a → Q a s) → wp (lift o) Q s.
Proof. unfold wp, lift. destruct o; cbn; auto. Qed.

Lemma wp_Ret {A} (m : M A) (Q : A → pstate → Prop) s a s' : wp m Q s → m s = Ret (a, s') → Q a s'.
Proof. unfold wp. intros H E. by rewrite E in H. Qed.

Lemma wp_abort {A} w (Q : A → pstate → Prop) s : wp (lift (Abort w)) Q s.
Proof. done. Qed.

Lemma wp_throw {A} e (Q : A → pstate → Prop) s : wp (lift (Throw e)) Q s.
Proof. done. Qed.

(** ** Traversals that change the heap

    [R] relates the states before and after a part of the traversal, [mu] bounds the nodes it
    can still visit, and [G s c] holds of a cell the visit is done with: no later step points
    it elsewhere or changes its children. *)

Section Traversals.
  Context (accept : cell → M unit) (Inv : pstate → Prop) (R : pstate → pstate → Prop).
  Context (mu : pstate → nat) (G : pstate → cell → Prop).
  Context `{!PreOrder R}.
  Context (R_leave : ∀ s s', R s s' → R s (leave s')).
  Context (Inv_leave : ∀ s, Inv s → Inv (leave s)).
  Context (Inv_visited : ∀ s, Inv s → (length (visited s) ≤ mu s)%nat).
  Context (mu_leave : ∀ s, mu (leave s) = mu s).
  Context (accept_ok : ∀ c s, Inv s → is_visited s c = false →
    wp (accept c) (λ _ s', Inv s' ∧ R s s' ∧ visited s' = c :: visited s ∧ (mu s' ≤ mu s)%nat ∧
                           (errors s' = errors s → G s' c)) (enter c s)).

(** What a part of the traversal does: [enough] says that it has the fuel it needs. *)
Definition advances (enough : Prop) (s : pstate) (o : outcome pstate) : Prop :=
  match o with
  | Ret s' => Inv s' ∧ R s s' ∧ visited s `suffix_of` visited s' ∧ (mu s' ≤ mu s)%nat
  | NoFuel => ¬ enough
  | _ => True
  end.

Lemma advances_weaken (P Q : Prop) s o : advances P s o → (Q → P) → advances Q s o.
Proof. destruct o; cbn; tauto. Qed.

Lemma each_advances (enough : Prop) f l s :
  Inv s →
  (∀ c s', Inv s' → visited s `suffix_of` visited s' → (mu s' ≤ mu s)%nat →
     advances enough s' (f c s')) →
  advances enough s (each f l s).
Proof using PreOrder0.
  intros Hi Hf. cut (∀ s', Inv s' → R s s' → visited s `suffix_of` visited s' → (mu s' ≤ mu s)%nat →
    advances enough s (each f l s')).
  { intros H. apply H; done || lia. }
  induction l as [|c l IH]; intros s' Hi' HR Hsuf Hmu; [done|]. cbn [each].
  pose proof (Hf c s' Hi' Hsuf Hmu) as H.
  destruct (f c s') as [s1| | |]; try done. destruct H as (H1 & H2 & H3 & H4). cbn [mbind outcome_bind].
  apply IH; [done|by etrans|by etrans|lia].
Qed.

Lemma preOrder_advances fuel c s :
  Inv s → advances (mu s < fuel + length (visited s))%nat s (preOrder accept fuel c s).
Proof using Inv_leave Inv_visited PreOrder0 R_leave accept_ok mu_leave.
  revert c s. induction fuel as [|fuel IH]; intros c s Hi; cbn [preOrder];
    destruct (is_visited s c) eqn:Ev; try done.
  { pose proof (Inv_visited s Hi). cbn. lia. }
  pose proof (accept_ok c s Hi Ev) as Ha. unfold wp in Ha.
  destruct (accept c (enter c s)) as [[[] s1]| | |]; try done. destruct Ha as (Hi1 & HR1 & Hv1 & Hmu1 & _).
  cbn [mbind outcome_bind]. destruct (obj_at (st_heap s1) c) as [o|] eqn:Eo; [|done].
  assert (He : advances (mu s < S fuel + length (visited s))%nat s1
    (each (preOrder accept fuel) (n_children o) s1)).
  { apply each_advances; [done|]. intros d s2 Hi2 Hsuf Hmu2.
    apply suffix_length in Hsuf. rewrite Hv1 in Hsuf. cbn in Hsuf.
    eapply advances_weaken; [by apply IH|]. lia. }
  destruct (each _ _ s1) as [s2| | |]; try done. destruct He as (Hi2 & HR2 & Hsuf2 & Hmu2).
  cbn [mbind outcome_bind advances]. split_and!; [by apply Inv_leave|apply R_leave; by etrans| |].
  - cbn. rewrite Hv1 in Hsuf2. etrans; [|exact Hsuf2]. by exists [c].
  - rewrite mu_leave. lia.
Qed.

(** A cell is seen when a visited cell has the same node. *)
Definition seen (s : pstate) (c : cell) : Prop :=
  ∃ v, v ∈ visited s ∧ get (st_heap s) v = get (st_heap s) c.
Definition all_good (s : pstate) : Prop := ∀ v, v ∈ visited s → G s v.
Definition closed_since (s s' : pstate) : Prop :=
  ∀ v, v ∈ visited s' → v ∈ visited s ∨ ∀ d, d ∈ children_at (st_heap s') v → seen s' d.

  Context (R_errors : ∀ s s', R s s' → (errors s ≤ errors s')%Z).
  Context (G_get : ∀ s c d, get (st_heap s) c = get (st_heap s) d → G s c → G s d).
  Context (G_stable : ∀ s s' c, R s s' → G s c →
    G s' c ∧ get (st_heap s') c = get (st_heap s) c ∧
    children_at (st_heap s') c = children_at (st_heap s) c).
  Context (G_leave : ∀ s c, G s c → G (leave s) c).

Lemma seen_mono s s' c :
  R s s' → all_good s → visited s `suffix_of` visited s' → seen s c → seen s' c.
Proof using G_get G_stable.
  intros HR HG [k Hk] (v & Hv & Hget). exists v.
  destruct (G_stable s s' v HR (HG v Hv)) as (_ & Hv' & _).
  destruct (G_stable s s' c HR (G_get s v c Hget (HG v Hv))) as (_ & Hc' & _).
  split; [rewrite Hk; apply elem_of_app; by right|congruence].
Qed.

Lemma closed_trans s s1 s2 :
  R s1 s2 → all_good s1 → visited s1 `suffix_of` visited s2 →
  closed_since s s1 → closed_since s1 s2 → closed_since s s2.
Proof using G_get G_stable.
  intros HR HG Hs H1 H2 v Hv. destruct (H2 v Hv) as [Hv1|]; [|by right].
  destruct (H1 v Hv1) as [|Hc]; [by left|]. right. intros d Hd.
  destruct (G_stable s1 s2 v HR (HG v Hv1)) as (_ & _ & Hch). rewrite Hch in Hd.
  by apply (seen_mono s1); auto.
Qed.

Definition covers (l : list cell) (s s' : pstate) : Prop :=
  all_good s' ∧ (∀ c, c ∈ l → seen s' c) ∧ closed_since s s'.

Lemma each_covers fuel l s s' :
  Inv s → all_good s → each (preOrder accept fuel) l s = Ret s' → errors s' = errors s →
  (∀ c s s', Inv s → all_good s → preOrder accept fuel c s = Ret s' → errors s' = errors s →
     covers [c] s s') →
  covers l s s'.
Proof using All.
  intros Hi HG He Herr Hf. revert s Hi HG He Herr.
  induction l as [|c l IH]; intros s Hi HG He Herr.
  { injection He as ->. split_and!; [done|by intros c ?%not_elem_of_nil|intros v Hv; by left]. }
  cbn [each] in He. destruct (preOrder accept fuel c s) as [s1| | |] eqn:E1; try done.
  cbn [mbind outcome_bind] in He. pose proof (preOrder_advances fuel c s Hi) as Ha.
  rewrite E1 in Ha. destruct Ha as (Hi1 & HR1 & Hsuf1 & _).
  assert (Ha2 : advances False s1 (each (preOrder accept fuel) l s1)).
  { apply each_advances; [done|]. intros d s2 Hi2 _ _.
    eapply advances_weaken; [by apply preOrder_advances|done]. }
  rewrite He in Ha2. destruct Ha2 as (Hi2 & HR2 & Hsuf2 & _).
  pose proof (R_errors _ _ HR1). pose proof (R_errors _ _ HR2).
  destruct (Hf c s s1) as (HG1 & Hs1 & Hc1); [done..|lia|].
  destruct (IH s1) as (HG2 & Hs2 & Hc2); [done..|lia|].
  split_and!; [done| |by apply (closed_trans s s1)].
  intros d [->|Hd]%elem_of_cons; [|by auto].
  apply (seen_mono s1); [done..|apply Hs1; by left].
Qed.

Lemma preOrder_covers fuel c s s' :
  Inv s → all_good s → preOrder accept fuel c s = Ret s' → errors s' = errors s →
  covers [c] s s'.
Proof using All.
  revert c s s'. induction fuel as [|fuel IH]; intros c s s' Hi HG; cbn [preOrder];
    destruct (is_visited s c) eqn:Ev; try done.
  1,2: intros [= <-] _; split_and!; [done| |intros v Hv; by left];
    intros d ->%list_elem_of_singleton; apply existsb_exists in Ev as (v & Hv & Heq%bool_decide_eq_true);
    exists v; by rewrite list_elem_of_In.
  pose proof (accept_ok c s Hi Ev) as Ha. unfold wp in Ha.
  destruct (accept c (enter c s)) as [[[] s1]| | |]; try done. destruct Ha as (Hi1 & HR1 & Hv1 & _ & HG1).
  cbn [mbind outcome_bind]. destruct (obj_at (st_heap s1) c) as [o|] eqn:Eo; [|done].
  assert (He : advances False s1 (each (preOrder accept fuel) (n_children o) s1)).
  { apply each_advances; [done|]. intros d s2 Hi2 _ _.
    eapply advances_weaken; [by apply preOrder_advances|done]. }
  destruct (each _ _ s1) as [s2| | |] eqn:E2; try done. destruct He as (_ & HR2 & Hsuf2 & _).
  cbn [mbind outcome_bind]. intros [= <-] Herr. cbn in Herr.
  pose proof (R_errors _ _ HR1). pose proof (R_errors _ _ HR2).
  assert (HGc : G s1 c) by (apply HG1; lia).
  assert (HGs1 : all_good s1).
  { intros v. rewrite Hv1. intros [->|Hv]%elem_of_cons; [done|]. by apply (G_stable s s1); auto. }
  destruct (each_covers fuel (n_children o) s1 s2) as (HG2 & Hs2 & Hc2); [done..|lia|by eauto|].
  destruct (G_stable s1 s2 c HR2 HGc) as (_ & _ & Hch).
  assert (Hvc : c ∈ visited s2).
  { destruct Hsuf2 as [k ->]. rewrite Hv1. set_solver. }
  split_and!.
  - intros v Hv. apply G_leave, HG2, Hv.
  - intros d ->%list_elem_of_singleton. by exists c.
  - intros v Hv. destruct (Hc2 v Hv) as [Hv'|Hcl]; [|right; exact Hcl].
    rewrite Hv1 in Hv'. apply elem_of_cons in Hv' as [->|]; [|by left].
    right. intros d Hd. apply Hs2. cbn in Hd. rewrite Hch in Hd. unfold children_at in Hd.
    by rewrite Eo in Hd.
Qed.

End Traversals.

(** ** What resolution changes *)

(** A node that still has to be resolved. *)
Definition pending (d : data) : bool :=
  match d with
  | DExpr _ (XdID _) => true
  | DType _ _ (TdUnknown (Some _)) => true
  | DItem _ (IkField _ _ _ (FdUnknown _)) => true
  | DInstantiation _ _ None => true
  | _ => false
  end.
(** A node whose visit makes new nodes. *)
Definition makes_nodes (d : data) : bool :=
  match d with
  | DExpr _ (XdLambda _ _) => true
  | DItem _ (IkField _ _ _ (FdUnknown _)) => true
  | _ => false
  end.
Definition is_list (d : data) : bool :=
  match d with DType _ _ (TdList _) => true | _ => false end.
Definition is_type_expr (d : data) : option cell :=
  match d with DExpr _ (XdType t) => Some t | _ => None end.
Definition plain (d : data) : Prop :=
  pending d = false ∧ makes_nodes d = false ∧ is_list d = false ∧ is_type_expr d = None.

(** The members of a node that the pass sets. *)
Inductive same_data : data → data → Prop :=
  | same_type i i' sc sc' t : same_data (DType i sc t) (DType i' sc' t)
  | same_expr sc sc' x : same_data (DExpr sc x) (DExpr sc' x)
  | same_inst i u o o' : (is_Some o → is_Some o') → same_data (DInstantiation i u o) (DInstantiation i u o')
  | same_item b b' k : same_data (DItem b k) (DItem b' k)
  | same_eq d : same_data d d.
#[export] Hint Constructors same_data : dgo.

#[export] Instance same_data_preorder : PreOrder same_data.
Proof.
  split; [intros d; constructor|]. intros d1 d2 d3 H1 H2.
  inversion H1; subst; inversion H2; subst; eauto with dgo.
Qed.

Lemma same_pending d d' : same_data d d' → pending d' = true → pending d = true.
Proof.
  intros H. destruct H as [| |i u o o' Ho| |]; try done. destruct o as [c|]; [|done].
  destruct (Ho ltac:(eauto)) as [c' ->]. done.
Qed.

Lemma same_makes d d' : same_data d d' → makes_nodes d' = makes_nodes d.
Proof. by intros []. Qed.

Lemma same_list d d' : same_data d d' → is_list d' = is_list d.
Proof. by intros []. Qed.

Lemma same_type_expr d d' : same_data d d' → is_type_expr d' = is_type_expr d.
Proof. by intros []. Qed.

Lemma same_plain d d' : same_data d d' → plain d → plain d'.
Proof.
  intros H (H1 & H2 & H3 & H4).
  split_and!; [|by rewrite (same_makes _ _ H)|by rewrite (same_list _ _ H)|by rewrite (same_type_expr _ _ H)].
  destruct (pending d') eqn:E; [|done]. by rewrite (same_pending _ _ H E) in H1.
Qed.

Lemma same_type_of d sc t : same_data (DExpr sc (XdType t)) d → ∃ sc', d = DExpr sc' (XdType t).
Proof. inversion 1; subst; eauto. Qed.

Lemma same_from_type d sc t : same_data d (DExpr sc (XdType t)) → ∃ sc', d = DExpr sc' (XdType t).
Proof. inversion 1; subst; eauto. Qed.

Definition same_obj (o o' : nobj) : Prop :=
  n_children o' = n_children o ∧ same_data (n_data o) (n_data o').
#[export] Instance same_obj_preorder : PreOrder same_obj.
Proof.
  split; [by split|]. intros o1 o2 o3 [] []. split; [congruence|by etrans].
Qed.

Definition holds_at (p : data → bool) (s : pstate) (c : cell) : Prop :=
  ∃ d, data_at (st_heap s) c = Some d ∧ p d = true.

(** [evolve]: objects keep their children and their class, new objects are resolved, and only
    a cell that is pending may get another node; the values of scopes stay. *)
Record evolve (s s' : pstate) : Prop := {
  ev_cell c n : get (st_heap s) c = Some n →
    get (st_heap s') c = Some n ∨ holds_at pending s c;
  ev_obj n o : objs (st_heap s) !! n = Some o →
    ∃ o', objs (st_heap s') !! n = Some o' ∧ same_obj o o';
  ev_new n o : objs (st_heap s) !! n = None → objs (st_heap s') !! n = Some o → plain (n_data o);
  ev_scopes : Scope.lists (st_scopes s') = Scope.lists (st_scopes s);
  ev_errors : (errors s ≤ errors s')%Z }.

(** [within k P]: at most [k] new cells, of old cells only those in [P] can come to hold a node
    whose visit makes nodes; the traversal is where it was. *)
Record within (k : nat) (P : cell → Prop) (s s' : pstate) : Prop := {
  wi_low : (length (cells (st_heap s)) ≤ length (cells (st_heap s')))%nat;
  wi_high : (length (cells (st_heap s')) ≤ length (cells (st_heap s)) + k)%nat;
  wi_makes c : holds_at makes_nodes s' c → holds_at makes_nodes s c ∨ P c;
  wi_lists : IdResolver.list_types (st_heap s') = IdResolver.list_types (st_heap s);
  wi_visited : visited s' = visited s;
  wi_current : current s' = current s }.

Lemma data_at_Some h c d :
  data_at h c = Some d ↔ ∃ n o, get h c = Some n ∧ objs h !! n = Some o ∧ n_data o = d.
Proof.
  unfold data_at, obj_at. destruct (get h c) as [n|]; cbn; [|naive_solver].
  destruct (objs h !! n) as [o|] eqn:E; cbn; naive_solver.
Qed.

Lemma evolve_back s s' c n d :
  evolve s s' → get (st_heap s) c = Some n → get (st_heap s') c = Some n →
  data_at (st_heap s') c = Some d →
  plain d ∨ ∃ d0, data_at (st_heap s) c = Some d0 ∧ same_data d0 d.
Proof.
  intros [_ Ho Hn _ _] Hc Hc' (n' & o' & Hget & Hobj & <-)%data_at_Some. rewrite Hc' in Hget.
  injection Hget as <-. destruct (objs (st_heap s) !! n) as [o|] eqn:E; [|left; by eauto].
  right. exists (n_data o). rewrite data_at_Some. destruct (Ho n o E) as (o2 & Ho2 & [_ Hs]).
  split; [by eauto|]. congruence.
Qed.

#[export] Instance evolve_preorder : PreOrder evolve.
Proof.
  split.
  - intros s. split; [by auto|intros n o ->; eauto|congruence|done|lia].
    intros. eexists; split; [done|reflexivity].
  - intros s1 s2 s3 H12 H23. split.
    + intros c n Hc. destruct (ev_cell _ _ H12 c n Hc) as [Hc2|]; [|by right].
      destruct (ev_cell _ _ H23 c n Hc2) as [|(d & Hd & Hp)]; [by left|right].
      destruct (evolve_back s1 s2 c n d H12 Hc Hc2 Hd) as [[Hpl _]|(d0 & Hd0 & Hs)]; [congruence|].
      exists d0. eauto using same_pending.
    + intros n o Hn. destruct (ev_obj _ _ H12 n o Hn) as (o2 & Hn2 & H2).
      destruct (ev_obj _ _ H23 n o2 Hn2) as (o3 & Hn3 & H3). exists o3. split; [done|by etrans].
    + intros n o Hn Hn3. destruct (objs (st_heap s2) !! n) as [o2|] eqn:E.
      * destruct (ev_obj _ _ H23 n o2 E) as (o3 & Hn3' & [_ H3]).
        apply (same_plain (n_data o2)); [congruence|]. by apply (ev_new _ _ H12 n).
      * by apply (ev_new _ _ H23 n).
    + by rewrite (ev_scopes _ _ H23), (ev_scopes _ _ H12).
    + pose proof (ev_errors _ _ H12). pose proof (ev_errors _ _ H23). lia.
Qed.

Lemma evolve_enter c s : evolve s (enter c s).
Proof.
  split; cbn; [by left| |congruence|done|done]. intros n o Hn. eexists; split; [done|reflexivity].
Qed.

Lemma evolve_leave s s' : evolve s s' → evolve s (leave s').
Proof. by intros []. Qed.

Lemma within_refl k P s : within k P s s.
Proof. split; auto; lia. Qed.

Lemma within_trans k1 k2 P s1 s2 s3 :
  within k1 P s1 s2 → within k2 P s2 s3 → within (k1 + k2) P s1 s3.
Proof.
  intros [] []. split; [lia|lia| |congruence..]. naive_solver.
Qed.

Lemma within_weaken k k' (P Q : cell → Prop) s s' :
  within k P s s' → (k ≤ k')%nat → (∀ c, P c → Q c) → within k' Q s s'.
Proof. intros [] Hk HQ. split; [lia|lia|naive_solver|done..]. Qed.

(** A node that is not pending stays where it is. *)
Definition resolved_at (s : pstate) (c : cell) : Prop :=
  ∃ d, data_at (st_heap s) c = Some d ∧ pending d = false.

Lemma evolve_data s s' c d :
  evolve s s' → data_at (st_heap s) c = Some d → pending d = false →
  get (st_heap s') c = get (st_heap s) c ∧
  children_at (st_heap s') c = children_at (st_heap s) c ∧
  ∃ d', data_at (st_heap s') c = Some d' ∧ same_data d d'.
Proof.
  intros H Hd Hp. pose proof Hd as (n & o & Hc & Ho & Hod)%data_at_Some.
  destruct (ev_cell _ _ H c n Hc) as [Hc'|(d2 & Hd2 & Hp2)]; [|congruence].
  destruct (ev_obj _ _ H n o Ho) as (o' & Ho' & [Hch Hs]). split_and!; [congruence| |].
  - unfold children_at, obj_at. rewrite Hc, Hc'. cbn. by rewrite Ho, Ho'.
  - exists (n_data o'). rewrite data_at_Some. split; [eauto|congruence].
Qed.

Lemma evolve_resolved s s' c :
  evolve s s' → resolved_at s c →
  resolved_at s' c ∧ get (st_heap s') c = get (st_heap s) c ∧
  children_at (st_heap s') c = children_at (st_heap s) c.
Proof.
  intros H (d & Hd & Hp). destruct (evolve_data s s' c d H Hd Hp) as (H1 & H2 & d' & Hd' & Hs).
  split_and!; [|done..]. exists d'. split; [done|]. destruct (pending d') eqn:E; [|done].
  by rewrite (same_pending _ _ Hs E) in Hp.
Qed.

(** ** The operations of the pass *)

Definition step (k : nat) (P : cell → Prop) (s s' : pstate) : Prop := evolve s s' ∧ within k P s s'.
Definition nowhere : cell → Prop := λ _, False.
(** A step that points no cell elsewhere. *)
Definition quiet (k : nat) (s s' : pstate) : Prop :=
  step k nowhere s s' ∧ ∀ c n, get (st_heap s) c = Some n → get (st_heap s') c = Some n.

Lemma step_refl k P s : step k P s s.
Proof. split; [reflexivity|apply within_refl]. Qed.

Lemma step_trans k1 k2 k P s1 s2 s3 :
  step k1 P s1 s2 → step k2 P s2 s3 → (k1 + k2 ≤ k)%nat → step k P s1 s3.
Proof.
  intros [E1 W1] [E2 W2] Hk. split; [by etrans|].
  eapply within_weaken; [by eapply within_trans|done|done].
Qed.

Lemma step_weaken k k' (P Q : cell → Prop) s s' :
  step k P s s' → (k ≤ k')%nat → (∀ c, P c → Q c) → step k' Q s s'.
Proof. intros [E W] ? ?. split; [done|by eapply within_weaken]. Qed.

Lemma quiet_refl k s : quiet k s s.
Proof. split; [apply step_refl|done]. Qed.

Lemma quiet_trans k1 k2 k s1 s2 s3 :
  quiet k1 s1 s2 → quiet k2 s2 s3 → (k1 + k2 ≤ k)%nat → quiet k s1 s3.
Proof. intros [H1 C1] [H2 C2] Hk. split; [by eapply step_trans|auto]. Qed.

Lemma quiet_step k k' P s s' : quiet k s s' → (k ≤ k')%nat → step k' P s s'.
Proof. intros [H _] Hk. by eapply step_weaken. Qed.

Lemma quiet_data k s s' c d :
  quiet k s s' → data_at (st_heap s) c = Some d →
  ∃ d', data_at (st_heap s') c = Some d' ∧ same_data d d'.
Proof.
  intros [[E _] C] (n & o & Hc & Ho & <-)%data_at_Some.
  destruct (ev_obj _ _ E n o Ho) as (o' & Ho' & [_ Hs]). exists (n_data o').
  split; [|done]. apply data_at_Some. exists n, o'. auto.
Qed.

Lemma quiet_same_heap k s s' :
  st_heap s' = st_heap s → Scope.lists (st_scopes s') = Scope.lists (st_scopes s) →
  (errors s ≤ errors s')%Z → visited s' = visited s → current s' = current s → quiet k s s'.
Proof.
  intros Hh Hl He Hv Hc. split; [split; split|];  unfold holds_at; rewrite ?Hh; auto; try lia.
  - intros n o Hn. eexists; split; [done|reflexivity].
  - congruence.
Qed.

Lemma list_types_insert cs os n o o' :
  os !! n = Some o → is_list (n_data o') = is_list (n_data o) →
  IdResolver.list_types (mkHeap cs (<[n := o']> os)) = IdResolver.list_types (mkHeap cs os).
Proof.
  intros Hn Hl. unfold IdResolver.list_types. cbn [objs].
  rewrite <- (take_drop_middle os n o Hn) at 2.
  rewrite insert_take_drop by (by eapply lookup_lt_Some).
  rewrite !list.filter_app, !length_app, !list.filter_cons.
  change (IdResolver.is_list_obj o') with (is_list (n_data o')). rewrite Hl. by destruct (decide _).
Qed.

Lemma list_types_app cs cs' os o :
  is_list (n_data o) = false →
  IdResolver.list_types (mkHeap cs (os ++ [o])) = IdResolver.list_types (mkHeap cs' os).
Proof.
  intros Hl. unfold IdResolver.list_types. cbn [objs].
  rewrite list.filter_app, length_app, list.filter_cons.
  change (IdResolver.is_list_obj o) with (is_list (n_data o)). rewrite Hl. rewrite decide_False by (by intros []). cbn. lia.
Qed.

Lemma wp_deref c (Q : node * nobj → pstate → Prop) s :
  (∀ n o, get (st_heap s) c = Some n → objs (st_heap s) !! n = Some o → Q (n, o) s) →
  wp (deref c) Q s.
Proof.
  intros H. unfold wp, deref. destruct (get (st_heap s) c) as [n|] eqn:E; [|done].
  destruct (objs (st_heap s) !! n) as [o|] eqn:E2; [|done]. by apply H.
Qed.

Lemma wp_data_of c (Q : data → pstate → Prop) s :
  (∀ d, data_at (st_heap s) c = Some d → Q d s) → wp (data_of c) Q s.
Proof.
  intros H. apply wp_bind, wp_deref. intros n o Hn Ho. apply wp_ret, H, data_at_Some. eauto.
Qed.

(** An object is set to one with the same children and class. *)
Lemma quiet_set_obj k s n o o' :
  objs (st_heap s) !! n = Some o → same_obj o o' →
  quiet k s (mkState (set_obj n o' (st_heap s)) (st_scopes s) (current s) (visited s) (errors s)
                (id_counter s)).
Proof.
  intros Ho Hs. split; [split; split|]; cbn; auto; try lia.
  - intros m o2 Hm. destruct (decide (n = m)) as [<-|].
    + rewrite list_lookup_insert_eq by (by eapply lookup_lt_Some). exists o'. split; congruence.
    + rewrite list_lookup_insert_ne by done. exists o2. split; [done|reflexivity].
  - intros m o2 Hm. destruct (decide (n = m)) as [<-|]; [congruence|].
    rewrite list_lookup_insert_ne by done. congruence.
  - intros c (d & (m & o2 & Hc & Hm & <-)%data_at_Some & Hd). cbn in Hc, Hm. left.
    unfold holds_at. setoid_rewrite data_at_Some. destruct (decide (n = m)) as [<-|].
    + rewrite list_lookup_insert_eq in Hm by (by eapply lookup_lt_Some). injection Hm as <-.
      exists (n_data o). split; [by eauto|]. by rewrite <- (same_makes _ _ (proj2 Hs)).
    + rewrite list_lookup_insert_ne in Hm by done. exists (n_data o2). split; [by eauto|done].
  - destruct (st_heap s) as [cs os]. cbn. apply (list_types_insert cs os n o); [done|]. by apply same_list, Hs.
Qed.

Lemma wp_set_data c d d' (Q : unit → pstate → Prop) s :
  data_at (st_heap s) c = Some d → same_data d d' →
  (∀ s', quiet 0 s s' → errors s' = errors s → data_at (st_heap s') c = Some d' → Q tt s') →
  wp (set_data c d') Q s.
Proof.
  intros (n & o & Hc & Ho & <-)%data_at_Some Hs HQ. apply wp_bind, wp_deref. intros n' o' Hc' Ho'.
  assert (n' = n) as -> by congruence. assert (o' = o) as -> by congruence.
  apply wp_bind, wp_gets. apply HQ; [by apply quiet_set_obj with o|done|].
  apply data_at_Some. exists n. eexists. cbn. split_and!; [done| |].
  - by rewrite list_lookup_insert_eq by (by eapply lookup_lt_Some).
  - done.
Qed.

Lemma wp_newNode d ch (Q : cell → pstate → Prop) s :
  plain d →
  (∀ s', quiet 1 s s' → errors s' = errors s →
     data_at (st_heap s') (length (cells (st_heap s))) = Some d →
     Q (length (cells (st_heap s))) s') →
  wp (newNode d ch) Q s.
Proof.
  intros Hp HQ. apply wp_bind, wp_gets. apply wp_bind. cbn. apply wp_ret.
  apply HQ; [split; [split; split|]; cbn| |]; auto.
  - intros c n Hc. left. by apply lookup_app_l_Some.
  - intros n o Hn. exists o. split; [by apply lookup_app_l_Some|reflexivity].
  - intros n o Hn. rewrite lookup_app_r by (by apply lookup_ge_None). intros H%list_lookup_singleton_Some.
    by destruct H as [_ <-].
  - lia.
  - rewrite length_app. lia.
  - rewrite length_app. cbn. lia.
  - intros c (d' & (n & o & Hc & Hn & <-)%data_at_Some & Hd). cbn in Hc, Hn. left.
    apply lookup_app_Some in Hn as [Hn|[Hge H%list_lookup_singleton_Some]].
    + exists (n_data o). split; [|done]. apply data_at_Some. exists n, o. split_and!; try done.
      apply lookup_app_Some in Hc as [Hc|[_ H%list_lookup_singleton_Some]]; [done|].
      destruct H as [_ <-]. apply lookup_lt_Some in Hn. lia.
    + destruct H as [_ <-]. cbn in Hd. destruct Hp as (_ & Hp & _ & _). congruence.
  - apply (list_types_app [] (cells (st_heap s))). apply Hp.
  - intros c n Hc. by apply lookup_app_l_Some.
  - apply data_at_Some. exists (length (objs (st_heap s))). eexists. cbn.
    unfold get. cbn. rewrite !list_lookup_middle by done. done.
Qed.

(** [replace] of a pending cell. *)
Lemma wp_replace c other d (Q : unit → pstate → Prop) s :
  holds_at pending s c → data_at (st_heap s) other = Some d →
  (∀ s', step 0 (.= c) s s' → errors s' = errors s → data_at (st_heap s') c = Some d →
     (∀ e, e ≠ c → data_at (st_heap s') e = data_at (st_heap s) e) → Q tt s') →
  wp (replace c other) Q s.
Proof.
  intros Hp Hd HQ. apply wp_bind, wp_deref. intros n o Hc Ho.
  apply wp_bind, wp_deref. intros n' o' Hc' Ho'. apply wp_bind, wp_gets.
  set (o0 := mkObj (n_data o) (n_children o) None).
  destruct (quiet_set_obj 0 s n o o0 Ho ltac:(done)) as [[E W] _].
  apply data_at_Some in Hd as (n2 & o2 & Hn2 & Ho2 & <-).
  assert (n2 = n') as -> by congruence. assert (o2 = o') as -> by congruence.
  assert (Hlt : c < length (cells (st_heap s))) by (by eapply lookup_lt_Some).
  apply HQ; [split|done| |].
  - destruct E as [_ E2 E3 E4 E5]. split; auto. intros c' m Hm.
    destruct (decide (c = c')) as [<-|]; [by right|left]. unfold get. cbn.
    by rewrite list_lookup_insert_ne.
  - destruct W as [W1 W2 W3 W4 W5 W6]. split; cbn in *; rewrite ?length_insert; try lia; auto.
    intros c' H. destruct (decide (c = c')) as [<-|]; [by right|]. left.
    destruct (W3 c') as [|[]]; [|done]. destruct H as (d & (m & o2 & Hm & Hm2 & <-)%data_at_Some & Hd).
    exists (n_data o2). split; [|done]. apply data_at_Some.
    unfold get in Hm. cbn in Hm, Hm2. rewrite list_lookup_insert_ne in Hm by done. eauto.
  - apply data_at_Some. exists n'. unfold get. cbn. rewrite list_lookup_insert_eq by done.
    destruct (decide (n = n')) as [<-|].
    + assert (o' = o) as -> by congruence. exists o0.
      by rewrite list_lookup_insert_eq by (by eapply lookup_lt_Some).
    + exists o'. by rewrite list_lookup_insert_ne.
  - intros e He. unfold data_at, obj_at, get. cbn. rewrite list_lookup_insert_ne by done.
    destruct (cells (st_heap s) !! e) as [m|]; [|done]. cbn.
    destruct (decide (n = m)) as [<-|]; [|by rewrite list_lookup_insert_ne].
    rewrite list_lookup_insert_eq by (by eapply lookup_lt_Some). by rewrite Ho.
Qed.

Lemma wp_log_error (Q : unit → pstate → Prop) s :
  (∀ s', quiet 0 s s' → errors s' = (errors s + 1)%Z → Q tt s') → wp log_error Q s.
Proof. intros HQ. apply HQ; [|done]. apply quiet_same_heap; done || (cbn; lia). Qed.

Lemma wp_next_id (Q : Z → pstate → Prop) s :
  (∀ z s', quiet 0 s s' → errors s' = errors s → Q z s') → wp next_id Q s.
Proof. intros HQ. apply HQ; [|done]. by apply quiet_same_heap. Qed.

Lemma wp_newScope (Q : nat → pstate → Prop) s :
  (∀ sc s', quiet 0 s s' → errors s' = errors s → Q sc s') → wp newScope Q s.
Proof. intros HQ. apply HQ; [|done]. by apply quiet_same_heap. Qed.

Lemma wp_set_parent p sc (Q : unit → pstate → Prop) s :
  (∀ s', quiet 0 s s' → errors s' = errors s → st_heap s' = st_heap s → Q tt s') →
  wp (scope_set_parent p sc) Q s.
Proof.
  intros HQ. apply HQ; [|done|done]. apply quiet_same_heap; try done.
  cbn. unfold Scope.set_parent. by destruct (Scope.scopes _ !! sc).
Qed.

(** The values of a scope are those of its lists. *)
Definition listed (s : pstate) (v : cell) : Prop :=
  ∃ l vs, Scope.lists (st_scopes s) !! l = Some vs ∧ v ∈ vs.

Lemma own_values_listed (st : Scope.store cell) d n vals v :
  Scope.own_values st d n = Some vals → v ∈ vals → ∃ l vs, Scope.lists st !! l = Some vs ∧ v ∈ vs.
Proof.
  unfold Scope.own_values. destruct (Scope.values d !! n) as [l|]; [|done]. cbn. intros [= <-] Hv.
  destruct (Scope.lists st !! l) as [vs|] eqn:E; [by eauto|]. by apply not_elem_of_nil in Hv.
Qed.

Lemma find_path_listed fuel (st : Scope.store cell) sc p b vals v :
  Scope.find_path fuel st sc p b = Ret vals → v ∈ vals →
  ∃ l vs, Scope.lists st !! l = Some vs ∧ v ∈ vs.
Proof.
  revert sc p. induction fuel as [|fuel IH]; intros sc p; cbn [Scope.find_path]; [done|].
  destruct (Scope.data_of st sc) as [d|]; [|done].
  assert (Hnil : Ret [] = Ret vals → v ∈ vals → ∃ l vs, Scope.lists st !! l = Some vs ∧ v ∈ vs).
  { intros [= <-] []%not_elem_of_nil. }
  destruct p as [|c0 p0]; [done|]. destruct (Scope.skip_own _ _) as [p| | |]; try done.
  cbn [mbind outcome_bind]. destruct p as [|c rest]; [done|].
  destruct (if (length rest =? 0)%nat then _ else None) as [vs|] eqn:E.
  - intros [= <-]. destruct (length rest =? 0)%nat; [|done]. by eapply own_values_listed.
  - destruct b; cbn [negb]; [|done].
    destruct (Scope.first_child _ _ _) as [[child n]|]; [by apply IH|done].
Qed.

Lemma lookup_listed fuel (st : Scope.store cell) sc id b vals v :
  Scope.lookup fuel st sc id b = Ret vals → v ∈ vals →
  ∃ l vs, Scope.lists st !! l = Some vs ∧ v ∈ vs.
Proof.
  revert sc. induction fuel as [|fuel IH]; intros sc; cbn [Scope.lookup]; [done|].
  assert (Hf : ∀ w, Scope.find st sc id b = Ret w → v ∈ w → ∃ l vs, Scope.lists st !! l = Some vs ∧ v ∈ vs).
  { unfold Scope.find. intros w. destruct (Scope.data_of st sc) as [d|]; [|done].
    destruct (Scope.own_values _ _ _) eqn:E; [|by apply find_path_listed].
    intros [= <-]. by eapply own_values_listed. }
  destruct (Scope.find st sc id b) as [w| | |]; try done. cbn [mbind outcome_bind].
  destruct w as [|x w]; [|intros [= <-]; by apply Hf].
  destruct (Scope.parent_of st sc); [|intros [= <-]; by apply Hf].
  destruct b; [by apply IH|intros [= <-]; by apply Hf].
Qed.

Lemma wp_scope_lookup sc id (Q : list cell → pstate → Prop) s :
  (∀ vals, (∀ v, v ∈ vals → listed s v) → Q vals s) → wp (scope_lookup sc id) Q s.
Proof.
  intros HQ. apply wp_bind, wp_gets, wp_lift.
  - by destruct (Scope.lookup _ _ _ _ _).
  - intros vals H. apply HQ. intros v Hv. eapply lookup_listed; [|exact Hv].
    destruct (Scope.lookup _ _ _ _ _) eqn:E; try done. rewrite E. exact H.
Qed.

Lemma wp_current_module (Q : ID * nat → pstate → Prop) s :
  (∀ m, Q m s) → wp current_module Q s.
Proof.
  intros HQ. do 2 apply wp_bind, wp_gets. apply wp_lift; [|by auto].
  by destruct (current_where _ _ _) as [[]|].
Qed.

Lemma name_fuel id : name id ≠ NoFuel.
Proof. unfold name. by destruct (path_ id !! _). Qed.

Lemma wp_module_name m (Q : string → pstate → Prop) s : (∀ n, Q n s) → wp (module_name m) Q s.
Proof. intros HQ. apply wp_lift; [apply name_fuel|by auto]. Qed.

(** ** Scopes whose values are resolved *)

Definition settled_value (s : pstate) (v : cell) : Prop :=
  ∃ d, data_at (st_heap s) v = Some d ∧ pending d = false ∧
       (∀ sc t, d = DExpr sc (XdType t) → resolved_at s t).
Definition settled (s : pstate) : Prop := ∀ v, listed s v → settled_value s v.

Lemma settled_evolve s s' : evolve s s' → settled s → settled s'.
Proof.
  intros H Hs v (l & vs & Hl & Hv). destruct (Hs v) as (d & Hd & Hp & Ht).
  { exists l, vs. by rewrite <- (ev_scopes _ _ H). }
  destruct (evolve_data s s' v d H Hd Hp) as (_ & _ & d' & Hd' & Hsame).
  exists d'. split_and!; [done| |].
  - destruct (pending d') eqn:E; [|done]. by rewrite (same_pending _ _ Hsame E) in Hp.
  - intros sc t ->. destruct (same_from_type _ _ _ Hsame) as [sc' ->].
    by apply (evolve_resolved s s'), (Ht sc' t).
Qed.
