(* ===== verification/Resolve.v ===== *)
(** * Identifier resolution leaves no identifier behind

    The traversal of [IdResolver] terminates although it changes the tree it walks over, and
    when the pass that reports unresolved identifiers succeeds, every node that is reachable
    from the module is resolved: there is no identifier expression, no unknown type with a
    name, no unknown field and no instantiation without its unit.  This needs scopes whose
    values are resolved themselves; without that, an alias of an alias stays unresolved in a
    pass that succeeds. *)

From S2P Require Import Prelude Util Ident Scope Nodes ScopePass IdPass Evolve.
Import Util.Strings Ident.Id Nodes.Nodes.

(** ** Kinds of nodes

    A [node_ptr<T>] may only point to a [T], which [replace] does not check.  Types, expressions
    and the three kinds of items are told apart, and every other class. *)

Inductive kind := KType | KExpr | KField | KVariable | KProperty | KOther (n : nat).
Definition kind_of (d : data) : kind :=
  match d with
  | DType _ _ _ => KType
  | DExpr _ _ => KExpr
  | DItem _ (IkField _ _ _ _) => KField
  | DItem _ (IkVariable _) => KVariable
  | DItem _ (IkProperty _) => KProperty
  | DModule _ _ _ _ => KOther 0
  | DDeclType _ _ _ => KOther 1
  | DDeclConstant _ _ _ => KOther 2
  | DDeclFunction _ _ _ => KOther 3
  | DDeclTransform _ _ _ => KOther 4
  | DInstantiation _ _ _ => KOther 5
  | DCase _ _ _ => KOther 6
  | DParameter _ _ => KOther 7
  | DFunction _ _ => KOther 8
  | DTransform _ _ _ => KOther 9
  | DLocal _ _ => KOther 10
  | DConstant _ _ => KOther 11
  | DAttributeMap _ => KOther 12
  | DAttribute _ _ => KOther 13
  | DOther _ => KOther 14
  end.
Definition kind_at (s : pstate) (c : cell) : option kind := kind_of <$> data_at (st_heap s) c.

Lemma same_kind d d' : same_data d d' → kind_of d' = kind_of d.
Proof. by intros []. Qed.

(** Every cell keeps the kind of its node. *)
Definition kinds (s s' : pstate) : Prop := ∀ c k, kind_at s c = Some k → kind_at s' c = Some k.
#[export] Instance kinds_preorder : PreOrder kinds.
Proof. split; [by intros s c k|]. intros s1 s2 s3 H1 H2 c k H. auto. Qed.

Lemma quiet_kinds k s s' : quiet k s s' → kinds s s'.
Proof.
  intros H c kc. unfold kind_at. destruct (data_at (st_heap s) c) as [d|] eqn:E; [|done].
  destruct (quiet_data _ _ _ _ _ H E) as (d' & -> & Hs). cbn. by rewrite (same_kind _ _ Hs).
Qed.

(** Type expressions have types, and the values of scopes are expressions. *)
Definition well_kinded (s : pstate) : Prop :=
  (∀ n o t, objs (st_heap s) !! n = Some o → is_type_expr (n_data o) = Some t → kind_at s t = Some KType) ∧
  (∀ v, listed s v → kind_at s v = Some KExpr).

Lemma well_kinded_evolve s s' : evolve s s' → kinds s s' → well_kinded s → well_kinded s'.
Proof.
  intros H K [Ht Hv]. split.
  - intros n o' t Hn Htype. apply K. destruct (objs (st_heap s) !! n) as [o|] eqn:E.
    + destruct (ev_obj _ _ H n o E) as (o2 & Ho2 & [_ Hs]). assert (o2 = o') as -> by congruence.
      apply (Ht n o t E). by rewrite <- (same_type_expr _ _ Hs).
    + destruct (ev_new _ _ H n o' E Hn) as (_ & _ & _ & Hp). congruence.
  - intros v (l & vs & Hl & Hin). apply K, Hv. exists l, vs. by rewrite <- (ev_scopes _ _ H).
Qed.

Lemma well_kinded_type s v sc t :
  well_kinded s → data_at (st_heap s) v = Some (DExpr sc (XdType t)) → kind_at s t = Some KType.
Proof. intros [Ht _] (n & o & _ & Ho & Hd)%data_at_Some. apply (Ht n o t Ho). by rewrite Hd. Qed.

(** ** New fields *)

(** [made k s c s']: up to [k] new cells and no error, and [c] is a resolved field. *)
Definition made (k : nat) (s : pstate) (c : cell) (s' : pstate) : Prop :=
  quiet k s s' ∧ errors s' = errors s ∧ resolved_at s' c ∧ kind_at s' c = Some KField.
Definition known (f : fdata) : Prop := match f with FdUnknown _ => False | _ => True end.

Lemma made_quiet j k s c s1 s2 :
  quiet j s s1 → errors s1 = errors s → made k s1 c s2 → made (j + k) s c s2.
Proof.
  intros H He (H2 & He2 & Hr & Hk). split_and!; [by eapply quiet_trans|congruence|done|done].
Qed.

Lemma wp_new_item_id id (Q : ID * bool → pstate → Prop) s :
  (∀ r s', quiet 0 s s' → errors s' = errors s → Q r s') → wp (IdResolver.new_item_id id) Q s.
Proof.
  intros HQ. destruct id as [id|]; [apply wp_ret, HQ; [apply quiet_refl|done]|].
  apply wp_bind, wp_next_id. intros z s' H He. by apply wp_ret, HQ.
Qed.

Lemma wp_new_field id t cond attrs params sinks f own s :
  known f →
  wp (IdResolver.new_field id t cond attrs params sinks f own) (λ c s', made 2 s c s') s.
Proof.
  intros Hf. apply wp_bind, wp_newNode; [done|]. intros s1 H1 E1 _.
  apply wp_bind, wp_newScope. intros sc s2 H2 E2. apply wp_bind, wp_new_item_id. intros [i anon] s3 H3 E3.
  apply wp_newNode; [by destruct f|]. intros s4 H4 E4 D4. split_and!; [|congruence| |].
  - eapply (quiet_trans 1 1); [|done|lia]. eapply (quiet_trans 1 0); [|done|lia].
    by eapply (quiet_trans 1 0).
  - eexists. split; [done|]. by destruct f.
  - unfold kind_at. by rewrite D4.
Qed.

Lemma wp_createByType fuel t id cond attrs params sinks s :
  wp (IdResolver.createByType fuel t id cond attrs params sinks) (λ c s', made (3 * fuel) s c s') s.
Proof.
  revert t id cond attrs params sinks s. induction fuel as [|fuel IH]; intros; [done|].
  cbn [IdResolver.createByType]. apply wp_bind, wp_data_of. intros d _.
  assert (Hatomic : ∀ params f, known f →
    wp (IdResolver.new_field id (Some t) cond attrs params sinks f [])
      (λ c s', made (3 * S fuel) s c s') s).
  { intros ps f Hf. eapply wp_mono; [by apply wp_new_field|]. intros c s' (H & He & Hr & Hk).
    split_and!; [|done..]. by apply (quiet_trans 2 0 _ _ s'); [|apply quiet_refl|lia]. }
  destruct d as [| | | | | |ti tsc td| | | | | | | | | | |]; try by apply Hatomic.
  destruct td as [| | | | |element| | | | | |]; try by apply Hatomic.
  apply wp_bind. eapply wp_mono; [apply IH|]. intros field s1 (H1 & E1 & R1 & K1).
  apply wp_bind, wp_newNode; [done|]. intros s2 H2 E2 _.
  apply wp_bind. eapply wp_mono; [by apply wp_new_field|]. intros l s3 (H3 & E3 & R3 & K3).
  do 2 (apply wp_bind, wp_data_of; intros [] _; try done).
  apply wp_bind, wp_set_parent. intros s4 H4 E4 Hh. apply wp_ret. split_and!; [|congruence| |].
  - eapply (quiet_trans (3 * fuel + 3) 0); [|done|lia]. eapply (quiet_trans (3 * fuel + 1) 2); [|done|lia].
    eapply (quiet_trans (3 * fuel) 1); [done|done|lia].
  - unfold resolved_at. by rewrite Hh.
  - unfold kind_at. by rewrite Hh.
Qed.

Lemma wp_set_unit fuel u c (Q : unit → pstate → Prop) s :
  (∀ s', quiet 0 s s' → errors s' = errors s → Q tt s') → wp (IdResolver.set_unit fuel u c) Q s.
Proof.
  revert c Q s. induction fuel as [|fuel IH]; intros c Q s HQ; [done|]. cbn [IdResolver.set_unit].
  apply wp_bind, wp_data_of. intros d Hd. destruct d as [| | | | | | | |b k| | | | | | | | |]; try done.
  apply wp_bind. eapply wp_set_data; [done|constructor|]. intros s1 H1 E1 _.
  destruct k as [| |? ? ? f]; try (by apply wp_ret, HQ). destruct f; try (by apply wp_ret, HQ).
  all: apply IH; intros s2 H2 E2; apply HQ; [by eapply quiet_trans|congruence].
Qed.

Lemma wp_set_anonymous c (Q : unit → pstate → Prop) s :
  (∀ s', quiet 0 s s' → errors s' = errors s → Q tt s') → wp (IdResolver.set_anonymous c) Q s.
Proof.
  intros HQ. apply wp_bind, wp_data_of. intros d Hd.
  destruct d as [| | | | | | | |b k| | | | | | | | |]; try done.
  eapply wp_set_data; [done|constructor|auto].
Qed.

Lemma wp_unit_of b (Q : option node → pstate → Prop) s : (∀ u, Q u s) → wp (IdResolver.unit_of b) Q s.
Proof.
  intros HQ. unfold IdResolver.unit_of. destruct (i_unit b) as [u|]; [|by apply wp_ret].
  apply wp_bind, wp_gets. destruct (objs (st_heap s) !! u ≫= n_ref); [by apply wp_ret|done].
Qed.

(** ** The replacement of lambda variables *)

(** The visited cells are different and exist. *)
Definition visited_ok (s : pstate) : Prop :=
  NoDup (visited s) ∧ ∀ v, v ∈ visited s → (v < length (cells (st_heap s)))%nat.

Lemma visited_ok_bound s : visited_ok s → (length (visited s) ≤ length (cells (st_heap s)))%nat.
Proof.
  intros [Hn Hr]. trans (length (seq 0 (length (cells (st_heap s))))); [|by rewrite length_seq].
  apply submseteq_length, NoDup_submseteq; [done|]. intros v Hv. apply elem_of_seq.
  specialize (Hr v Hv). lia.
Qed.

Lemma visited_ok_enter s s' c d :
  visited_ok s → is_visited s c = false → data_at (st_heap s) c = Some d →
  visited s' = c :: visited s → (length (cells (st_heap s)) ≤ length (cells (st_heap s')))%nat →
  visited_ok s'.
Proof.
  intros [Hn Hr] Hv (n & o & Hc & _)%data_at_Some Hv' Hl. unfold visited_ok. rewrite Hv'.
  assert (Hnew : c ∉ visited s).
  { intros Hin. assert (is_visited s c = true); [|congruence]. apply existsb_exists. exists c.
    rewrite <- list_elem_of_In. split; [done|by apply bool_decide_eq_true]. }
  split; [by apply list.NoDup_cons|]. intros v [->|H]%elem_of_cons; [|specialize (Hr v H); lia].
  apply lookup_lt_Some in Hc. lia.
Qed.

Section Replacer.
  Context (old : ID) (new_ : cell).

(** The replacement is a variable, and stays one. *)
Definition replacer_inv (s : pstate) : Prop :=
  visited_ok s ∧ ∃ sc v, data_at (st_heap s) new_ = Some (DExpr sc (XdVariable v)).
Definition replacer_rel (s s' : pstate) : Prop :=
  evolve s s' ∧ length (cells (st_heap s')) = length (cells (st_heap s)) ∧
  IdResolver.list_types (st_heap s') = IdResolver.list_types (st_heap s) ∧ kinds s s' ∧
  ∀ c, holds_at makes_nodes s' c → holds_at makes_nodes s c.

#[local] Instance replacer_rel_preorder : PreOrder replacer_rel.
Proof using.
  split; [intros s; split_and!; try done; reflexivity|].
  intros s1 s2 s3 (? & ? & ? & ? & ?) (? & ? & ? & ? & ?).
  split_and!; [by etrans|congruence|congruence|by etrans|auto].
Qed.

Lemma replacer_accept_ok c s :
  replacer_inv s → is_visited s c = false →
  wp (IdResolver.replacer_accept old new_ c)
    (λ _ s', replacer_inv s' ∧ replacer_rel s s' ∧ visited s' = c :: visited s ∧
             (length (cells (st_heap s')) ≤ length (cells (st_heap s)))%nat ∧
             (errors s' = errors s → True)) (enter c s).
Proof using.
  intros [Hv (sc & v & Hnew)] Hnv. apply wp_bind, wp_data_of. intros d Hd. cbn in Hd.
  assert (Hskip : replacer_inv (enter c s) ∧ replacer_rel s (enter c s)).
  { split; [split; [by eapply visited_ok_enter|by eauto]|]. split_and!; try done.
    - by apply evolve_enter.
    - by intros e k. }
  assert (wp (mret ()) (λ _ s', replacer_inv s' ∧ replacer_rel s s' ∧ visited s' = c :: visited s ∧
             (length (cells (st_heap s')) ≤ length (cells (st_heap s)))%nat ∧
             (errors s' = errors s → True)) (enter c s)).
  { by destruct Hskip; apply wp_ret. }
  destruct d as [| | | | | | |vsc x| | | | | | | | | |]; try done. destruct x; try done.
  destruct (String.eqb _ _); [|done].
  eapply wp_replace; [by eexists|done|]. intros s' [E W] He Hdc Hother.
  assert (Hlen : length (cells (st_heap s')) = length (cells (st_heap s))).
  { pose proof (wi_low _ _ _ _ W). pose proof (wi_high _ _ _ _ W). cbn in *. lia. }
  split_and!; [| |by rewrite (wi_visited _ _ _ _ W)|lia|done].
  - split; [eapply visited_ok_enter; [done..|by rewrite (wi_visited _ _ _ _ W)|lia]|].
    destruct (evolve_data (enter c s) s' new_ _ E Hnew eq_refl) as (_ & _ & d' & Hd' & Hs).
    inversion Hs; subst; eauto.
  - split_and!; [by etrans; [apply Hskip|]|done|apply (wi_lists _ _ _ _ W)| |].
    { intros e k. unfold kind_at. destruct (decide (e = c)) as [->|]; [|by rewrite Hother].
      by rewrite Hd, Hdc. }
    intros c' Hc'. destruct (wi_makes _ _ _ _ W c' Hc') as [| ->]; [done|].
    destruct Hc' as (d & Hd' & Hm). rewrite Hdc in Hd'. injection Hd' as <-. done.
Qed.

(** The nested visitor terminates; it makes no nodes and points only identifiers elsewhere. *)
Lemma wp_replacer_run node (Q : bool → pstate → Prop) s :
  (∃ sc v, data_at (st_heap s) new_ = Some (DExpr sc (XdVariable v))) →
  (∀ b s', step 0 nowhere s s' → kinds s s' → errors s' = errors s → Q b s') →
  wp (IdResolver.replacer_run old new_ node) Q s.
Proof using.
  intros Hnew HQ. unfold wp, IdResolver.replacer_run, nested, processAllPreOrder.
  set (s0 := reset _). assert (Hi : replacer_inv s0).
  { split; [|done]. split; [by constructor|by intros v ?%not_elem_of_nil]. }
  pose proof (preOrder_advances (IdResolver.replacer_accept old new_) replacer_inv replacer_rel
    (λ s, length (cells (st_heap s))) (λ _ _, True)) as Ha.
  specialize (Ha ltac:(by intros s1 s2 (?%evolve_leave & ? & ? & ? & ?))).
  specialize (Ha ltac:(done) ltac:(by intros s1 [?%visited_ok_bound _]) ltac:(done) replacer_accept_ok
    (S (length (cells (st_heap s)))) node s0 Hi).
  destruct (preOrder _ _ node s0) as [s1| | |]; try done; cbn in Ha |- *; [|lia].
  destruct Ha as (_ & (E & Hl & Ht & Hk & Hm) & _). apply HQ; [|exact Hk|done]. split; [|split; cbn; try done].
  - destruct E as [E1 E2 E3 E4 _]. by split.
  - cbn in Hl. lia.
  - cbn in Hl. lia.
  - intros c (d & Hd & Hp). left. apply Hm. by exists d.
Qed.
End Replacer.

(** ** Visits *)

Section Visits.
  Context (report_unresolved_ : bool).

(** What a visit of [c] does. *)
Definition visit_ok (k : nat) (c : cell) (s s' : pstate) : Prop :=
  step k (.= c) s s' ∧
  (report_unresolved_ = true → settled s → errors s' = errors s → resolved_at s' c) ∧
  (well_kinded s → kinds s s').

Lemma visit_ok_error k c s s' :
  quiet 0 s s' → errors s' = (errors s + 1)%Z → visit_ok k c s s'.
Proof. intros H He. split_and!; [eapply quiet_step; [done|lia]|lia|]. intros _. by eapply quiet_kinds. Qed.

Lemma visit_ok_quiet j k c s s1 s' :
  quiet j s s1 → errors s1 = errors s → visit_ok 0 c s1 s' → (j ≤ k)%nat → visit_ok k c s s'.
Proof.
  intros H He (H2 & Hr & Hk) Hj. pose proof (quiet_kinds _ _ _ H) as K.
  split_and!; [eapply step_trans; [by eapply quiet_step|done|lia]| |].
  - intros Hrep Hs He'. apply Hr; [done| |congruence]. by eapply settled_evolve, Hs; apply H.
  - intros Hw. etrans; [exact K|]. apply Hk. by eapply well_kinded_evolve, Hw; [apply H|].
Qed.

Lemma wp_log k c s : wp log_error (λ _ s', visit_ok k c s s') s.
Proof. apply wp_log_error. intros s' H He. by apply visit_ok_error. Qed.

Lemma wp_report k c s : wp (IdResolver.report report_unresolved_) (λ _ s', visit_ok k c s s') s.
Proof.
  unfold IdResolver.report. destruct report_unresolved_ eqn:Er; [apply wp_log|].
  apply wp_ret. split_and!; [apply step_refl|congruence|done].
Qed.

(** A pending cell is made to point to the node of another. *)
Lemma visit_ok_replace c v s :
  holds_at pending s c → (settled s → resolved_at s v) → (well_kinded s → kind_at s v = kind_at s c) →
  wp (replace c v) (λ _ s', visit_ok 0 c s s') s.
Proof.
  intros Hp Hr Hk. destruct (data_at (st_heap s) v) as [d|] eqn:Ed.
  - eapply wp_replace; [done|done|]. intros s' H2 He2 Hd Hother. split_and!; [done| |].
    + intros _ Hs _. destruct (Hr Hs) as (d' & Hd' & Hpd). exists d. split; [done|congruence].
    + intros Hw e k. destruct (decide (e = c)) as [->|].
      * rewrite <- Hk by done. unfold kind_at. by rewrite Hd, Ed.
      * unfold kind_at. by rewrite Hother.
  - unfold wp, replace, deref, mbind, M_bind. cbn. unfold data_at, obj_at in Ed.
    destruct (get (st_heap s) c) as [n|]; [|done]. cbn. destruct (objs _ !! n); [|done]. cbn.
    destruct (get (st_heap s) v) as [m|]; [|done]. cbn in Ed. by destruct (objs _ !! m).
Qed.

Lemma settled_resolved s v : settled s → listed s v → resolved_at s v.
Proof. intros Hs Hv. destruct (Hs v Hv) as (d & Hd & Hp & _). by exists d. Qed.

Lemma wp_visit_ID c sc id s :
  data_at (st_heap s) c = Some (DExpr sc (XdID id)) →
  wp (IdResolver.visit_ID report_unresolved_ c id) (λ _ s', visit_ok 0 c s s') s.
Proof.
  intros Hc. unfold IdResolver.visit_ID. apply wp_bind, wp_current_module. intros m.
  do 2 apply wp_bind, wp_gets. apply wp_bind, wp_scope_lookup. intros vals Hv.
  apply wp_bind. eapply (wp_mono _ (λ vals s', s' = s ∧ ∀ v, v ∈ vals → listed s v)).
  { destruct vals as [|v vals]; [|by apply wp_ret]. destruct (isScoped id); [|by apply wp_ret].
    apply wp_bind, wp_module_name. intros n. destruct (path_ id) as [|front path]; [by apply wp_ret|].
    destruct (String.eqb front n); [|by apply wp_ret]. apply wp_scope_lookup. auto. }
  clear vals Hv. intros vals s' [-> Hv]. destruct vals as [|v [|]]; [apply wp_report| |apply wp_log].
  specialize (Hv v ltac:(by left)). apply wp_bind. destruct (isScoped id).
  - apply wp_bind, wp_data_of. intros d Hd. destruct d as [| | | | | | |vsc x| | | | | | | | | |]; try done.
    eapply wp_set_data; [done|constructor|]. intros s1 H1 He1 Hd1.
    destruct (quiet_data _ _ _ _ _ H1 Hc) as (dc & Hdc & Hs).
    eapply wp_mono; [apply visit_ok_replace|].
    + exists dc. split; [done|]. by inversion Hs.
    + intros Hset. apply settled_resolved; [done|]. destruct Hv as (l & vs & Hl & Hv).
      exists l, vs. by rewrite (ev_scopes _ _ (proj1 (proj1 H1))).
    + intros Hw. rewrite (quiet_kinds _ _ _ H1 c KExpr) by (unfold kind_at; by rewrite Hc).
      unfold kind_at. by rewrite Hd1.
    + intros [] s' H2. by eapply visit_ok_quiet.
  - apply wp_ret, visit_ok_replace; [by eexists|intros Hs; by apply settled_resolved|].
    intros [_ Hw]. rewrite (Hw v Hv). unfold kind_at. by rewrite Hc.
Qed.

(** [lookup_one] finds a value, or the pass has an error to report. *)
Lemma wp_lookup_one c id (Q : option cell → pstate → Prop) s :
  (∀ s', visit_ok 0 c s s' → Q None s') → (∀ v, listed s v → Q (Some v) s) →
  wp (IdResolver.lookup_one report_unresolved_ id) Q s.
Proof.
  intros HN HS. apply wp_bind, wp_current_module. intros m. apply wp_bind, wp_scope_lookup.
  intros vals Hv. destruct vals as [|v [|]].
  - apply wp_bind. eapply wp_mono; [apply (wp_report 0 c)|]. intros [] s' H. by apply wp_ret, HN.
  - apply wp_ret, HS, Hv. by left.
  - apply wp_bind. eapply wp_mono; [apply (wp_log 0 c)|]. intros [] s' H. by apply wp_ret, HN.
Qed.

Lemma wp_visit_Instantiation c iid id u s :
  data_at (st_heap s) c = Some (DInstantiation iid id u) →
  wp (IdResolver.visit_Instantiation report_unresolved_ c iid id) (λ _ s', visit_ok 0 c s s') s.
Proof.
  intros Hc. apply wp_bind, (wp_lookup_one c); [by intros s' H; apply wp_ret|]. intros v Hv.
  apply wp_bind, wp_data_of. intros d Hd. destruct d as [| | | | | | |vsc x| | | | | | | | | |]; try apply wp_log.
  destruct x; try apply wp_log. apply wp_bind, wp_data_of. intros d' Hd'.
  destruct d' as [| | | | | |ti tsc t| | | | | | | | | | |]; try apply wp_log. destruct t; try apply wp_log.
  eapply wp_set_data; [done|by constructor|]. intros s' H1 He1 Hd1.
  split_and!; [by eapply quiet_step|intros _ _ _; by eexists|intros _; by eapply quiet_kinds].
Qed.

(** [set_id] and [set_scope] of a type. *)
Lemma wp_set_type_id id t (Q : unit → pstate → Prop) s :
  (∀ s', quiet 0 s s' → errors s' = errors s → Q tt s') → wp (ScopeBuilder.set_type_id id t) Q s.
Proof.
  intros HQ. apply wp_bind, wp_data_of. intros [] Hd; try done.
  eapply wp_set_data; [done|constructor|auto].
Qed.

Lemma wp_set_type_scope n t (Q : unit → pstate → Prop) s :
  (∀ s', quiet 0 s s' → errors s' = errors s → Q tt s') → wp (ScopeBuilder.set_type_scope n t) Q s.
Proof.
  intros HQ. apply wp_bind, wp_data_of. intros [] Hd; try done.
  eapply wp_set_data; [done|constructor|auto].
Qed.

Lemma wp_visit_Unknown c ti tsc id s :
  data_at (st_heap s) c = Some (DType ti tsc (TdUnknown (Some id))) →
  wp (IdResolver.visit_Unknown report_unresolved_ c id) (λ _ s', visit_ok 0 c s s') s.
Proof.
  intros Hc. apply wp_bind, (wp_lookup_one c); [by intros s' H; apply wp_ret|]. intros v Hv.
  apply wp_bind, wp_data_of. intros d Hd. destruct d as [| | | | | | |vsc x| | | | | | | | | |]; try apply wp_log.
  destruct x as [|tv| | | | | | | | |]; try apply wp_log. apply wp_bind, wp_current_module. intros m.
  apply wp_bind, wp_data_of. intros d' Hd'.
  destruct d' as [| | | | | |ti' tsc' t| | | | | | | | | | |]; try done. apply wp_bind.
  eapply (wp_mono _ (λ _ s', quiet 0 s s' ∧ errors s' = errors s)).
  { destruct (match ti' with Some i => _ | None => true end); [|apply wp_ret; split; [apply quiet_refl|done]].
    apply wp_bind, wp_set_type_id. intros s1 H1 He1.
    destruct (isScoped id); [by apply wp_ret|]. apply wp_bind, wp_module_name. intros n.
    apply wp_set_type_scope. intros s2 H2 He2. split; [by eapply quiet_trans|congruence]. }
  intros [] s1 [H1 He1]. destruct (quiet_data _ _ _ _ _ H1 Hc) as (dc & Hdc & Hs).
  eapply wp_mono; [apply visit_ok_replace|].
  - exists dc. split; [done|]. by inversion Hs.
  - intros Hset. destruct (Hset v) as (d & Hd1 & _ & Ht).
    { destruct Hv as (l & vs & Hl & Hv). exists l, vs. by rewrite (ev_scopes _ _ (proj1 (proj1 H1))). }
    destruct (quiet_data _ _ _ _ _ H1 Hd) as (d2 & Hd2 & Hs2).
    destruct (same_type_of _ _ _ Hs2) as [sc' ->]. apply (Ht sc'). congruence.
  - intros Hw. destruct (quiet_data _ _ _ _ _ H1 Hd) as (d2 & Hd2 & Hs2).
    destruct (same_type_of _ _ _ Hs2) as [sc' ->]. rewrite (well_kinded_type s1 v sc' tv Hw Hd2).
    symmetry. apply (quiet_kinds _ _ _ H1). unfold kind_at. by rewrite Hc.
  - intros [] s' H2. by eapply visit_ok_quiet.
Qed.

(** The nodes that the visit of a field or a lambda makes. *)
Definition new_nodes (s : pstate) : nat := (3 * S (IdResolver.list_types (st_heap s)))%nat.

Lemma wp_new_known_field c expr b cond params sinks attrs s :
  wp (IdResolver.new_known_field expr b cond params sinks attrs)
    (λ r s', match r with
             | None => visit_ok 0 c s s'
             | Some f => made (new_nodes s) s f s'
             end) s.
Proof.
  apply wp_bind, wp_gets. apply wp_bind, wp_data_of. intros d _.
  assert (Hlog : wp (log_error ≫= λ _ : unit, mret None) (λ (r : option cell) s',
    match r with None => visit_ok 0 c s s' | Some f => made (new_nodes s) s f s' end) s).
  { apply wp_bind. eapply wp_mono; [apply (wp_log 0 c)|]. intros [] s' H. by apply wp_ret. }
  destruct d as [| | | | | | |vsc x| | | | | | | | | |]; try exact Hlog.
  destruct x; try exact Hlog; clear Hlog.
  - apply wp_bind. eapply wp_mono; [apply wp_createByType|]. intros f s' H. by apply wp_ret.
  - apply wp_bind, wp_data_of. intros d' _. destruct d'; try done.
    apply wp_bind. eapply wp_mono; [by apply wp_new_field|]. intros f s' (H & E & R & K). apply wp_ret.
    split_and!; [|done..]. apply (quiet_trans 2 0 _ _ s'); [done|apply quiet_refl|unfold new_nodes; lia].
  - apply wp_bind, wp_newNode; [done|]. intros s1 H1 E1 _.
    apply wp_bind. eapply wp_mono; [by apply wp_new_field|]. intros f s' (H & E & R & K). apply wp_ret.
    split_and!; [|congruence|done|done]. apply (quiet_trans 1 2 _ _ s1); [done|done|unfold new_nodes; lia].
Qed.

Lemma wp_visit_field_Unknown c b cond params sinks rid s :
  data_at (st_heap s) c = Some (DItem b (IkField cond params sinks (FdUnknown rid))) →
  wp (IdResolver.visit_field_Unknown report_unresolved_ c b cond params sinks rid)
    (λ _ s', visit_ok (new_nodes s) c s s') s.
Proof.
  intros Hc. destruct rid as [id|]; [|done]. cbn [IdResolver.visit_field_Unknown].
  assert (Hweak : ∀ s', visit_ok 0 c s s' → visit_ok (new_nodes s) c s s').
  { intros s' (H1 & H2 & H3). split_and!; [|done..]. eapply step_weaken; [done|lia|done]. }
  apply wp_bind, (wp_lookup_one c); [by intros s' H; apply wp_ret, Hweak|]. intros v Hv.
  apply wp_bind, wp_data_of. intros am _. destruct am; try done.
  apply wp_bind. eapply wp_mono; [apply (wp_new_known_field c)|].
  intros [f|] s1 H; [|by apply wp_ret, Hweak]. destruct H as (H1 & E1 & R1 & K1).
  apply wp_bind, wp_data_of. intros nd Hnd. destruct nd as [| | | | | | | |nb nk| | | | | | | | |]; try done.
  apply wp_bind, wp_gets. apply wp_bind, wp_set_parent. intros s2 H2 E2 _.
  apply wp_bind. eapply (wp_mono _ (λ _ s', quiet 0 s1 s' ∧ errors s' = errors s)).
  { destruct (i_anonymous b); [|apply wp_ret; split; [done|congruence]].
    apply wp_set_anonymous. intros s3 H3 E3. split; [by eapply quiet_trans|congruence]. }
  intros [] s3 [H3 E3]. apply wp_bind, wp_unit_of. intros u. apply wp_bind, wp_gets.
  apply wp_bind, wp_set_unit. intros s4 H4 E4.
  assert (H14 : quiet 0 s1 s4) by (by eapply quiet_trans).
  assert (H04 : quiet (new_nodes s) s s4) by (eapply quiet_trans; [done|done|lia]).
  destruct (quiet_data _ _ _ _ _ H04 Hc) as (dc & Hdc & Hs).
  eapply wp_mono; [apply visit_ok_replace|].
  - exists dc. split; [done|]. by inversion Hs.
  - intros _. apply (evolve_resolved s1 s4); [apply H14|done].
  - intros _. rewrite (quiet_kinds _ _ _ H14 f KField K1), (quiet_kinds _ _ _ H04 c KField); [done|].
    unfold kind_at. by rewrite Hc.
  - intros [] s' H. eapply visit_ok_quiet; [done|congruence|done|lia].
Qed.

Lemma wp_visit_Lambda c sc elem_id elem_expr s :
  data_at (st_heap s) c = Some (DExpr sc (XdLambda elem_id elem_expr)) →
  wp (IdResolver.visit_Lambda c elem_id elem_expr) (λ _ s', visit_ok (new_nodes s) c s s') s.
Proof.
  intros Hc. do 2 apply wp_bind, wp_gets.
  apply wp_bind. eapply (wp_mono _ (λ _ s', quiet 1 s s')).
  { assert (Hlog : wp (log_error ≫= λ _ : unit, mret None) (λ (_ : option cell) s', quiet 1 s s') s).
    { apply wp_bind, wp_log_error. intros s' H _. apply wp_ret.
      by eapply (quiet_trans 0 0); [|apply quiet_refl|lia]. }
    destruct (current_where _ _ _) as [[f l]|]; [|done]. destruct (IdResolver.has_child _ f c); [|done].
    apply wp_bind, wp_newNode; [done|]. intros s' H _ _. by apply wp_ret. }
  intros et s1 H1. apply wp_bind, wp_newNode; [done|]. intros s2 H2 E2 _.
  apply wp_bind, wp_newNode; [done|]. intros s3 H3 E3 D3.
  apply wp_bind, wp_replacer_run; [by eauto|]. intros b s4 H4 K4 E4. apply wp_ret.
  assert (H : step 3 nowhere s s4).
  { eapply step_trans; [|done|]; [|by rewrite Nat.add_0_r]. eapply (step_trans 2 1); [|apply H3|lia].
    eapply (step_trans 1 1); [apply H1|apply H2|lia]. }
  split_and!; [eapply step_weaken; [done|unfold new_nodes; lia|done]| |].
  - intros _ _ _. apply (evolve_resolved s s4); [apply H|]. by eexists.
  - intros _. etrans; [by eapply quiet_kinds|]. etrans; [by eapply quiet_kinds|].
    etrans; [by eapply quiet_kinds|done].
Qed.

(** [accept] on every class of node. *)
Lemma wp_accept c s :
  wp (IdResolver.accept report_unresolved_ c)
    (λ _ s', ∃ d, data_at (st_heap s) c = Some d ∧
                  visit_ok (if makes_nodes d then new_nodes s else 0) c s s') s.
Proof.
  apply wp_bind, wp_data_of. intros d Hd.
  assert (Hskip : pending d = false → wp (mret ()) (λ _ s', ∃ d, data_at (st_heap s) c = Some d ∧
    visit_ok (if makes_nodes d then new_nodes s else 0) c s s') s).
  { intros Hp. apply wp_ret. exists d. split; [done|].
    split_and!; [apply step_refl|intros; by exists d|done]. }
  assert (Hmono : ∀ m : M unit,
    wp m (λ _ s', visit_ok (if makes_nodes d then new_nodes s else 0) c s s') s →
    wp m (λ _ s', ∃ d, data_at (st_heap s) c = Some d ∧
      visit_ok (if makes_nodes d then new_nodes s else 0) c s s') s).
  { intros m Hm. eapply wp_mono; [exact Hm|]. eauto. }
  destruct d as [| | | | |iid uid u|ti tsc t|xsc x|b k| | | | | | | | |]; try by apply Hskip.
  - by apply Hmono, (wp_visit_Instantiation _ _ _ u).
  - destruct t as [[id|]| | | | | | | | | | |]; try by apply Hskip. by eapply Hmono, wp_visit_Unknown.
  - destruct x; try (by apply Hskip).
    + by eapply Hmono, wp_visit_ID.
    + by eapply Hmono, wp_visit_Lambda.
  - destruct k as [| |cond ps ss f]; try by apply Hskip. destruct f; try by apply Hskip.
    by apply Hmono, wp_visit_field_Unknown.
Qed.
End Visits.

(** ** The traversal *)

(** The cells still to be visited whose visit makes nodes, and the bound on the nodes that the
    traversal visits. *)
Definition makes_at (h : heap) (c : cell) : bool :=
  match data_at h c with Some d => makes_nodes d | None => false end.
Definition makers (s : pstate) : list cell :=
  filter (λ c, (c ∉ visited s) ∧ makes_at (st_heap s) c = true) (seq 0 (length (cells (st_heap s)))).
Definition measure (s : pstate) : nat :=
  (length (cells (st_heap s)) + new_nodes s * length (makers s))%nat.

Lemma makes_at_holds s c : makes_at (st_heap s) c = true ↔ holds_at makes_nodes s c.
Proof. unfold makes_at, holds_at. destruct (data_at _ c); naive_solver. Qed.

Lemma elem_of_makers s c : c ∈ makers s ↔ (c ∉ visited s) ∧ holds_at makes_nodes s c.
Proof.
  unfold makers. rewrite list_elem_of_filter, elem_of_seq, makes_at_holds. split; [tauto|].
  intros [Hv Hm]. split; [done|]. destruct Hm as (d & (n & o & Hc & _)%data_at_Some & _).
  apply lookup_lt_Some in Hc. lia.
Qed.

Lemma makers_visit k c s s' d :
  c ∉ visited s → data_at (st_heap s) c = Some d → within k (.= c) (enter c s) s' →
  (length (makers s') + (if makes_nodes d then 1 else 0) ≤ length (makers s))%nat.
Proof.
  intros Hc Hd W.
  assert (Hsub : ∀ x, x ∈ makers s' → x ∈ makers s ∧ x ≠ c).
  { intros x. rewrite !elem_of_makers, (wi_visited _ _ _ _ W). cbn. intros [Hx Hm].
    apply not_elem_of_cons in Hx as [Hne Hx]. split; [split; [done|]|done].
    by destruct (wi_makes _ _ _ _ W x Hm). }
  assert (Hnd : ∀ t, NoDup (makers t)) by (intros t; apply list.NoDup_filter, NoDup_seq).
  destruct (makes_nodes d) eqn:Em.
  - rewrite Nat.add_1_r. change (S (length (makers s'))) with (length (c :: makers s')).
    apply submseteq_length, NoDup_submseteq.
    + apply list.NoDup_cons. split; [|done]. intros Hin. by apply (Hsub c Hin).
    + intros x [->|Hx]%elem_of_cons; [|by apply Hsub]. apply elem_of_makers.
      split; [done|by exists d].
  - rewrite Nat.add_0_r. apply submseteq_length, NoDup_submseteq; [done|]. intros x Hx. by apply Hsub.
Qed.

Section Run.
  Context (report_unresolved_ : bool).

Lemma accept_step c s :
  visited_ok s → is_visited s c = false →
  wp (IdResolver.accept report_unresolved_ c)
    (λ _ s', visited_ok s' ∧ evolve s s' ∧ visited s' = c :: visited s ∧ (measure s' ≤ measure s)%nat ∧
             (report_unresolved_ = true → settled s → errors s' = errors s → resolved_at s' c) ∧
             (well_kinded s → kinds s s'))
    (enter c s).
Proof using.
  intros Hv Hnv. eapply wp_mono; [apply wp_accept|]. intros [] s' (d & Hd & [E W] & Hr & Hk). cbn in Hd.
  pose proof (wi_visited _ _ _ _ W) as Hvis. pose proof (wi_low _ _ _ _ W) as Hlow. cbn in Hvis, Hlow.
  pose proof (visited_ok_enter s s' c d Hv Hnv Hd Hvis Hlow) as Hv'.
  split_and!; [done|by etrans; [apply evolve_enter|]|done| | |exact Hk].
  - assert (Hc : c ∉ visited s).
    { destruct Hv' as [Hn _]. rewrite Hvis in Hn. by apply list.NoDup_cons in Hn as [? _]. }
    pose proof (makers_visit _ c s s' d Hc Hd W) as Hm. pose proof (wi_high _ _ _ _ W) as Hhigh.
    unfold measure, new_nodes. rewrite (wi_lists _ _ _ _ W). cbn in Hhigh |- *.
    unfold new_nodes in Hhigh. cbn in Hhigh. destruct (makes_nodes d); nia.
  - intros Hrep Hs He. by apply Hr.
Qed.

Lemma visited_ok_reset s : visited_ok (reset s).
Proof using. split; [by constructor|by intros v ?%not_elem_of_nil]. Qed.

Lemma id_traversal fuel module s :
  advances visited_ok evolve measure (measure (reset s) < fuel)%nat (reset s)
    (preOrder (IdResolver.accept report_unresolved_) fuel module (reset s)).
Proof using.
  eapply advances_weaken.
  - apply (preOrder_advances _ _ _ _ (λ _ _, True)); try done; [apply evolve_leave| | |].
    + intros s1 H1%visited_ok_bound. unfold measure. lia.
    + intros c s1 H1 H2. eapply wp_mono; [by apply accept_step|naive_solver].
    + apply visited_ok_reset.
  - cbn. lia.
Qed.

(** The walk of identifier resolution over the nodes ends on every graph, cyclic ones and ones
    with dangling pointers included, although it adds nodes: the fuel is the number of cells and,
    for every cell whose node is a lambda or an unknown field, three more cells per list type and
    one set of three.  The recursions inside a visit are not part of this: [createByType] on a
    list type that contains itself, and a lookup along a cyclic chain of scopes, fill the stack. *)
Theorem id_resolution_terminates fuel module s :
  (length (cells (st_heap s)) +
   3 * S (IdResolver.list_types (st_heap s)) *
     length (filter (λ c, makes_at (st_heap s) c = true) (seq 0 (length (cells (st_heap s)))))
   < fuel)%nat →
  IdResolver.run report_unresolved_ fuel module s ≠ NoFuel.
Proof using.
  intros Hf. unfold IdResolver.run, processAllPreOrder. pose proof (id_traversal fuel module s) as Ha.
  destruct (preOrder _ fuel module (reset s)) as [s1| | |]; try done. destruct Ha.
  eapply Nat.le_lt_trans; [|exact Hf].
  unfold measure, new_nodes, makers. cbn [reset st_heap visited].
  apply Nat.add_le_mono_l, Nat.mul_le_mono_l, submseteq_length, NoDup_submseteq.
  - apply list.NoDup_filter, NoDup_seq.
  - intros x. rewrite !list_elem_of_filter. tauto.
Qed.

(** C18: Resolution keeps the kind of the node behind every pointer: an expression is replaced by an
    expression, a type by a type, a field by a field, whatever is found in the scopes, as long
    as the values of scopes are expressions and the parts of type expressions are types; and
    it stays so.  [node_ptr::replace] does not check it. *)
Theorem id_resolution_kinds fuel module s b s' :
  well_kinded s → IdResolver.run report_unresolved_ fuel module s = Ret (b, s') →
  (∀ c k, kind_at s c = Some k → kind_at s' c = Some k) ∧ well_kinded s'.
Proof using.
  intros Hw Hr. unfold IdResolver.run, processAllPreOrder in Hr.
  destruct (preOrder _ fuel module (reset s)) as [s1| | |] eqn:E; try done. injection Hr as _ <-.
  assert (HP : PreOrder (λ s s', evolve s s' ∧ kinds s s')).
  { split; [intros x; split; reflexivity|]. intros x y z [] []. split; by etrans. }
  assert (Ha : advances (λ s, visited_ok s ∧ well_kinded s) (λ s s', evolve s s' ∧ kinds s s') measure
    (measure (reset s) < fuel + length (visited (reset s)))%nat (reset s) (Ret s1)).
  { rewrite <- E. apply (preOrder_advances _ _ _ _ (λ _ _, True)); try done.
    - by intros s2 s3 [?%evolve_leave ?].
    - intros s2 [H2%visited_ok_bound _]. unfold measure. lia.
    - intros c s2 [H2 H3] Hnv. eapply wp_mono; [by apply accept_step|].
      intros [] s3 (H4 & H5 & H6 & H7 & _ & H8). split_and!; auto. eapply well_kinded_evolve; eauto.
    - split; [apply visited_ok_reset|exact Hw]. }
  destruct Ha as ([_ Hw'] & [_ Hk] & _). by split.
Qed.

End Run.

(** Nodes that are reached from a cell through children. *)
Inductive reaches (h : heap) (c : cell) : cell → Prop :=
  | reaches_self : reaches h c c
  | reaches_child d e : reaches h c d → e ∈ children_at h d → reaches h c e.

(** nothing is left unresolved. *)
Theorem id_resolution_complete fuel module s s' :
  settled s → IdResolver.run true fuel module s = Ret (true, s') →
  ∀ c, reaches (st_heap s') module c → resolved_at s' c.
Proof.
  intros Hs Hrun c Hc. unfold IdResolver.run, processAllPreOrder in Hrun.
  destruct (preOrder _ fuel module (reset s)) as [s1| | |] eqn:E; try done.
  cbn [mbind outcome_bind] in Hrun. injection Hrun as He <-. apply Z.eqb_eq in He.
  pose proof (preOrder_covers (IdResolver.accept true) (λ s, visited_ok s ∧ settled s) evolve measure
    resolved_at) as Ha.
  destruct (Ha evolve_leave ltac:(done) ltac:(intros s2 [H1%visited_ok_bound _]; unfold measure; lia)
    ltac:(done)) with (fuel := fuel) (c := module) (s := reset s) (s' := s1) as (HG & Hseen & Hcl).
  - intros c2 s2 [H1 H2] Hnv. eapply wp_mono; [by apply accept_step|].
    intros [] s3 (H3 & H4 & H5 & H6 & H7 & _). split_and!; try done; [by eapply settled_evolve|auto].
  - intros s2 s3 H2. apply (ev_errors _ _ H2).
  - intros s2 c2 d2 Hget (d & Hd & Hp). exists d. split; [|done]. unfold data_at, obj_at in *. by rewrite <- Hget.
  - apply evolve_resolved.
  - done.
  - split; [apply visited_ok_reset|exact Hs].
  - by intros v ?%not_elem_of_nil.
  - done.
  - done.
  - assert (Hall : seen s1 c).
    { induction Hc as [|d e _ (v & Hv & Hget) He']; [apply Hseen; by left|].
      destruct (Hcl v Hv) as [?%not_elem_of_nil|Hd]; [done|]. apply Hd.
      unfold children_at, obj_at in *. by rewrite Hget. }
    destruct Hall as (v & Hv & Hget). destruct (HG v Hv) as (d & Hd & Hp). exists d. split; [|done].
    unfold data_at, obj_at in *. by rewrite <- Hget.
Qed.

(** ** An example

    A unit with a field of a declared type, and an instantiation of the unit. *)
Definition empty_state : pstate := mkState (mkHeap [] []) (Scope.mkStore ∅ ∅ ∅) [] [] 0 0.
Definition one (s : string) : ID := mkID [s].
Definition new_module (decls : list cell) : M cell :=
  props ← newNode (DAttributeMap []) [];
  sc ← newScope;
  newNode (DModule (one "M") sc decls props) (props :: decls).
Definition example_module : M cell :=
  int ← newNode (DType None "" (TdInteger 16 false)) [];
  dT ← newNode (DDeclType (one "T") EXPORTED int) [int];
  am ← newNode (DAttributeMap []) [];
  sc ← newScope;
  x ← newNode (DItem (mkItemData (one "x") false None None am sc None)
                 (IkField None [] [] (FdUnknown (Some (one "T"))))) [am];
  usc ← newScope;
  u ← newNode (DType None "" (TdUnit [] [x] usc)) [x];
  dU ← newNode (DDeclType (one "U") EXPORTED u) [u];
  inst ← newNode (DInstantiation (one "i") (one "U") None) [];
  new_module [dT; dU; inst].
Definition built (m : M cell) : pstate :=
  match m empty_state with Ret (_, s) => s | _ => empty_state end.
Definition final (o : outcome (bool * pstate)) : pstate :=
  match o with Ret (_, s) => s | _ => empty_state end.
Definition example_state : pstate := Eval vm_compute in built example_module.
Definition scoped_state : pstate := Eval vm_compute in final (ScopeBuilder.run 60 8 example_state).

Lemma empty_settled s : Scope.lists (st_scopes s) = ∅ → settled s.
Proof. intros H v (l & vs & Hl & _). by rewrite H, lookup_empty in Hl. Qed.

Lemma id_resolution_terminates_witness :
  IdResolver.run true 13 8 example_state ≠ NoFuel.
Proof.
  apply (id_resolution_terminates true 13 8 example_state).
  vm_compute. lia.
Defined.

(** [well_kinded] by evaluation. *)
Definition well_kinded_check (s : pstate) : bool :=
  forallb (λ o, match is_type_expr (n_data o) with
                | Some t => match kind_at s t with Some KType => true | _ => false end
                | None => true
                end) (objs (st_heap s)) &&
  forallb (λ p, forallb (λ v, match kind_at s v with Some KExpr => true | _ => false end) p.2)
    (map_to_list (Scope.lists (st_scopes s))).

Lemma well_kinded_check_sound s : well_kinded_check s = true → well_kinded s.
Proof.
  intros [H1 H2]%andb_prop. rewrite forallb_forall in H1, H2. split.
  - intros n o t Hn Ht. specialize (H1 o). rewrite Ht in H1.
    destruct (kind_at s t) as [[]|]; try done; by specialize (H1 ltac:(eapply list_elem_of_In, list_elem_of_lookup_2; done)).
  - intros v (l & vs & Hl & Hv). specialize (H2 (l, vs)). rewrite forallb_forall in H2.
    specialize (H2 ltac:(apply list_elem_of_In, elem_of_map_to_list; done) v ltac:(by apply list_elem_of_In)).
    by destruct (kind_at s v) as [[]|].
Qed.

Lemma id_resolution_kinds_witness :
  let s' := final (IdResolver.run true 60 8 scoped_state) in
  (∀ c k, kind_at scoped_state c = Some k → kind_at s' c = Some k) ∧ well_kinded s'.
Proof.
  intros s'. apply (id_resolution_kinds true 60 8 scoped_state true s').
  - apply well_kinded_check_sound. vm_compute. reflexivity.
  - vm_compute. reflexivity.
Defined.
