(* ===== verification/Settle.v ===== *)
(** * The passes keep the scopes settled

    The values of the scopes are resolved nodes from the first pass on, if no declared type is
    an alias and no declared constant is an identifier: each pass enters only such values, and
    none makes a resolved node unresolved.  With [Resolve.v] this gives the result of
    [Compiler::executePasses] ([Compile.v]). *)

From S2P Require Import Prelude Util Ident Scope Nodes ScopePass UnitScopePass IdPass TransformPass Evolve Resolve.
Import Util.Strings Ident.Id Nodes.Nodes.

(** ** States that keep their nodes *)

(** A node can change, but it stays resolved, and declarations and type expressions stay as
    they are. *)
Definition carries (d d' : data) : Prop :=
  (pending d' = true → pending d = true) ∧
  match d' with
  | DExpr _ (XdType t) => ∃ sc, d = DExpr sc (XdType t)
  | DDeclType _ _ _ | DDeclConstant _ _ _ => d = d'
  | _ => True
  end.
#[export] Instance carries_preorder : PreOrder carries.
Proof.
  split.
  - intros d. split; [done|]. destruct d; try done. destruct x; eauto.
  - intros d1 d2 d3 [P12 M12] [P23 M23]. split; [auto|].
    destruct d3 as [| | | | | | |sc x| | | | | | | | | |]; try done; [by subst..|].
    destruct x; try done. destruct M23 as [sc2 ->]. exact M12.
Qed.

Lemma same_carries d d' : same_data d d' → carries d d'.
Proof.
  intros H. split; [by apply same_pending|]. destruct H; try done.
  - destruct x; eauto.
  - destruct d as [| | | | | | |sc x| | | | | | | | | |]; try done. destruct x; eauto.
Qed.

Definition keeps (s s' : pstate) : Prop :=
  ∀ c d, data_at (st_heap s) c = Some d → ∃ d', data_at (st_heap s') c = Some d' ∧ carries d d'.
#[export] Instance keeps_preorder : PreOrder keeps.
Proof.
  split; [intros s c d Hd; exists d; split; [done|reflexivity]|].
  intros s1 s2 s3 H12 H23 c d Hd. destruct (H12 c d Hd) as (d2 & Hd2 & C2).
  destruct (H23 c d2 Hd2) as (d3 & Hd3 & C3). exists d3. split; [done|by etrans].
Qed.

Lemma keeps_resolved s s' c : keeps s s' → resolved_at s c → resolved_at s' c.
Proof.
  intros H (d & Hd & Hp). destruct (H c d Hd) as (d' & Hd' & [Hc _]). exists d'. split; [done|].
  destruct (pending d'); [|done]. by rewrite Hc in Hp.
Qed.

Lemma keeps_value s s' v : keeps s s' → settled_value s v → settled_value s' v.
Proof.
  intros H (d & Hd & Hp & Ht). destruct (H v d Hd) as (d' & Hd' & [Hc Hm]). exists d'. split_and!; [done| |].
  - destruct (pending d'); [|done]. by rewrite Hc in Hp.
  - intros sc t ->. destruct Hm as [sc' ->]. by eapply keeps_resolved, Ht.
Qed.

(** Declared types and constants are resolved. *)
Definition good_decl (s : pstate) (d : data) : Prop :=
  match d with
  | DDeclType _ _ t => resolved_at s t
  | DDeclConstant _ _ v => settled_value s v
  | _ => True
  end.
Definition good_decls (s : pstate) : Prop := ∀ c d, data_at (st_heap s) c = Some d → good_decl s d.

Lemma good_decl_keeps s s' d : keeps s s' → good_decl s d → good_decl s' d.
Proof. intros H. destruct d; cbn; auto; [by apply keeps_resolved|by apply keeps_value]. Qed.

(** [goes W s s']: from a state that satisfies [W], nodes are kept and [W] holds again, where
    [W] is [settled], or [settled] and [good_decls]. *)
Definition tidy (decls : bool) (s : pstate) : Prop :=
  settled s ∧ if decls then good_decls s else True.

Section Operations.
  Context (decls : bool).

Definition goes (s s' : pstate) : Prop := keeps s s' ∧ tidy decls s'.

Lemma goes_refl s : tidy decls s → goes s s.
Proof using. intros H. split; [reflexivity|done]. Qed.

Lemma goes_trans s1 s2 s3 : goes s1 s2 → goes s2 s3 → goes s1 s3.
Proof using. intros [H1 _] [H2 H3]. split; [by etrans|done]. Qed.

(** The scopes and the other parts of the state do not matter as long as the values do. *)
Lemma tidy_frame s s' :
  st_heap s' = st_heap s → (∀ v, listed s' v → listed s v ∨ settled_value s v) →
  tidy decls s → goes s s'.
Proof using.
  intros Hh Hl [Hs Hd].
  assert (K : keeps s s').
  { intros c d Hc. exists d. rewrite Hh. split; [done|reflexivity]. }
  split; [done|]. split.
  - intros v Hv. apply (keeps_value s); [done|]. destruct (Hl v Hv) as [Hv'|]; [by apply Hs|done].
  - destruct decls; [|done]. intros c d Hc. rewrite Hh in Hc. by eapply good_decl_keeps, Hd.
Qed.

Lemma tidy_lists s s' :
  st_heap s' = st_heap s → Scope.lists (st_scopes s') = Scope.lists (st_scopes s) →
  tidy decls s → goes s s'.
Proof using.
  intros Hh Hl. apply tidy_frame; [done|]. intros v (l & vs & Hv). rewrite Hl in Hv. left. by exists l, vs.
Qed.

(** The heap changes, and what is new in it is good. *)
Lemma tidy_heap s s' :
  keeps s s' → Scope.lists (st_scopes s') = Scope.lists (st_scopes s) →
  (∀ c d, decls = true → data_at (st_heap s') c = Some d → good_decl s' d) →
  tidy decls s → goes s s'.
Proof using.
  intros K Hl Hg [Hs Hd]. split; [done|]. split.
  - intros v (l & vs & Hv). apply (keeps_value s); [done|]. apply Hs. rewrite Hl in Hv. by exists l, vs.
  - destruct decls eqn:E; [|done]. intros c d. by apply Hg.
Qed.

Lemma wp_goes_newNode d ch (Q : cell → pstate → Prop) s :
  tidy decls s → (decls = true → good_decl s d) →
  (∀ c s', goes s s' → data_at (st_heap s') c = Some d → Q c s') →
  wp (newNode d ch) Q s.
Proof using.
  intros Ht Hg HQ. apply wp_bind, wp_gets. apply wp_bind. cbn. apply wp_ret.
  set (s' := mkState _ _ _ _ _ _).
  assert (K : keeps s s').
  { intros c d0 (n & o & Hc & Ho & <-)%data_at_Some. exists (n_data o). split; [|reflexivity].
    apply data_at_Some. exists n, o. split_and!; [by apply lookup_app_l_Some..|done]. }
  apply HQ.
  - apply tidy_heap; [done|done| |done]. intros c d0 Hdecls (n & o & Hc & Ho & <-)%data_at_Some. cbn in Hc, Ho.
    apply (good_decl_keeps s); [done|].
    apply lookup_app_Some in Ho as [Ho|[_ [_ <-]%list_lookup_singleton_Some]]; [|by apply Hg].
    apply lookup_app_Some in Hc as [Hc|[_ [_ <-]%list_lookup_singleton_Some]].
    + destruct Ht as [_ Ht]. rewrite Hdecls in Ht. apply (Ht c). apply data_at_Some. eauto.
    + apply lookup_lt_Some in Ho. lia.
  - apply data_at_Some. exists (length (objs (st_heap s))). eexists. unfold get. cbn.
    rewrite !list_lookup_middle by done. done.
Qed.

Lemma goes_set_obj s n o o' :
  tidy decls s → objs (st_heap s) !! n = Some o → carries (n_data o) (n_data o') →
  goes s (mkState (set_obj n o' (st_heap s)) (st_scopes s) (current s) (visited s) (errors s)
            (id_counter s)).
Proof using.
  intros Ht Ho Hc. set (s' := mkState _ _ _ _ _ _).
  assert (Hget : ∀ m, objs (st_heap s') !! m = if decide (n = m) then Some o' else objs (st_heap s) !! m).
  { intros m. cbn. destruct (decide (n = m)) as [<-|]; [|by apply list_lookup_insert_ne].
    by rewrite list_lookup_insert_eq by (by eapply lookup_lt_Some). }
  assert (K : keeps s s').
  { intros c d (m & om & Hcm & Hm & <-)%data_at_Some. destruct (decide (n = m)) as [<-|Hne].
    - exists (n_data o'). split; [|congruence]. apply data_at_Some. exists n, o'.
      rewrite Hget, decide_True by done. done.
    - exists (n_data om). split; [|reflexivity]. apply data_at_Some. exists m, om.
      rewrite Hget, decide_False by done. done. }
  apply tidy_heap; [done|done| |done]. intros c d Hdecls (m & om & Hcm & Hm & <-)%data_at_Some.
  rewrite Hget in Hm. destruct Ht as [_ Ht]. rewrite Hdecls in Ht.
  apply (good_decl_keeps s); [done|]. destruct (decide (n = m)) as [<-|Hne].
  - injection Hm as <-. pose proof (Ht c (n_data o) ltac:(apply data_at_Some; by eauto)) as Hg.
    destruct Hc as [_ Hm]. destruct (n_data o'); try done; by rewrite Hm in Hg.
  - apply (Ht c). apply data_at_Some. by exists m, om.
Qed.

Lemma wp_goes_set_data c d d' (Q : unit → pstate → Prop) s :
  tidy decls s → data_at (st_heap s) c = Some d → carries d d' →
  (∀ s', goes s s' → data_at (st_heap s') c = Some d' → Q tt s') → wp (set_data c d') Q s.
Proof using.
  intros Ht (n & o & Hc & Ho & <-)%data_at_Some Hs HQ. apply wp_bind, wp_deref. intros n' o' Hc' Ho'.
  assert (n' = n) as -> by congruence. assert (o' = o) as -> by congruence.
  apply wp_bind, wp_gets. apply HQ; [by apply goes_set_obj with o|].
  apply data_at_Some. exists n. eexists. unfold get. cbn. split_and!; [done| |].
  - by rewrite list_lookup_insert_eq by (by eapply lookup_lt_Some).
  - done.
Qed.

Lemma wp_goes_addChild c child (Q : unit → pstate → Prop) s :
  tidy decls s → (∀ s', goes s s' → Q tt s') → wp (addChild c child) Q s.
Proof using.
  intros Ht HQ. apply wp_bind, wp_deref. intros n o Hc Ho. apply wp_bind, wp_gets.
  by apply HQ, goes_set_obj with o.
Qed.

Lemma wp_goes_removeChild c child (Q : unit → pstate → Prop) s :
  tidy decls s →
  (∀ s', goes s s' → data_at (st_heap s') c = data_at (st_heap s) c → Q tt s') →
  wp (removeChild c child) Q s.
Proof using.
  intros Ht HQ. apply wp_bind, wp_deref. intros n o Hc Ho. apply wp_bind, wp_gets.
  apply HQ; [by apply goes_set_obj with o|]. unfold data_at, obj_at. cbn. unfold get in *. cbn.
  rewrite Hc. cbn. rewrite list_lookup_insert_eq by (by eapply lookup_lt_Some). by rewrite Ho.
Qed.

Lemma wp_goes_newScope (Q : nat → pstate → Prop) s :
  tidy decls s → (∀ sc s', goes s s' → st_heap s' = st_heap s → Q sc s') → wp newScope Q s.
Proof using. intros Ht HQ. apply HQ; [by apply tidy_lists|done]. Qed.

Lemma wp_goes_set_parent p sc (Q : unit → pstate → Prop) s :
  tidy decls s → (∀ s', goes s s' → Q tt s') → wp (scope_set_parent p sc) Q s.
Proof using.
  intros Ht HQ. apply HQ, tidy_lists; try done. cbn. unfold Scope.set_parent.
  by destruct (Scope.scopes _ !! sc).
Qed.

Lemma wp_goes_scope_addChild id child sc (Q : unit → pstate → Prop) s :
  tidy decls s → (∀ s', goes s s' → Q tt s') → wp (scope_addChild id child sc) Q s.
Proof using.
  intros Ht HQ. apply HQ, tidy_lists; try done. cbn. unfold Scope.addChild, Scope.update_data.
  by destruct (Scope.data_handle (st_scopes s) sc), (Scope.data_of (st_scopes s) sc).
Qed.

Lemma insert_name_listed name value sc (st : Scope.store cell) l vs v :
  Scope.lists (Scope.insert_name name value sc st) !! l = Some vs → v ∈ vs →
  v = value ∨ ∃ l vs, Scope.lists st !! l = Some vs ∧ v ∈ vs.
Proof using.
  unfold Scope.insert_name. destruct (Scope.data_handle st sc) as [h|]; [|by eauto].
  destruct (Scope.data_of st sc) as [d|]; [|by eauto].
  destruct (Scope.values d !! name) as [l0|]; cbn; intros Hl Hv;
    apply lookup_insert_Some in Hl as [[<- <-]|[_ Hl]]; eauto.
  - apply elem_of_app in Hv as [Hv| ->%list_elem_of_singleton]; [|by left]. right.
    destruct (Scope.lists st !! l0) as [w|] eqn:E; [by eauto|]. by apply not_elem_of_nil in Hv.
  - apply list_elem_of_singleton in Hv. by left.
Qed.

Lemma wp_goes_scope_insert id value b sc (Q : unit → pstate → Prop) s :
  tidy decls s → settled_value s value → (∀ s', goes s s' → Q tt s') →
  wp (scope_insert id value b sc) Q s.
Proof using.
  intros Ht Hv HQ. apply wp_bind, wp_gets. apply wp_bind, wp_lift.
  - unfold Scope.insert. destruct b; [done|]. by destruct (name id) eqn:E; try (by apply name_fuel in E).
  - intros [r st] Hi. apply HQ. apply tidy_frame; [done| |done]. intros v (l & vs & Hl & Hin). cbn in Hl.
    assert (∃ n, st = Scope.insert_name n value sc (st_scopes s)) as [n ->].
    { unfold Scope.insert in Hi. destruct (if b then Ret (pathAsString id None) else name id); try done.
      cbn in Hi. injection Hi as _ <-. by eexists. }
    destruct (insert_name_listed _ _ _ _ _ _ _ Hl Hin) as [->|]; [by right|by left].
Qed.

Lemma wp_goes_log_error (Q : unit → pstate → Prop) s :
  tidy decls s → (∀ s', goes s s' → Q tt s') → wp log_error Q s.
Proof using. intros Ht HQ. by apply HQ, tidy_lists. Qed.
End Operations.

(** ** Traversals *)

Lemma preOrder_tidy decls accept fuel c s s' :
  (∀ c s, tidy decls s → wp (accept c) (λ _ s', goes decls s s') s) →
  preOrder accept fuel c s = Ret s' → tidy decls s → tidy decls s'.
Proof.
  intros Ha. revert c s s'. induction fuel as [|fuel IH]; intros c s s'; cbn [preOrder];
    destruct (is_visited s c); try done; try (by intros [= <-]).
  intros H Ht. pose proof (Ha c (enter c s) Ht) as Hc. unfold wp in Hc.
  destruct (accept c (enter c s)) as [[[] s1]| | |]; try done. destruct Hc as [_ Hc].
  cbn [mbind outcome_bind] in H. destruct (obj_at (st_heap s1) c) as [o|]; [|done].
  destruct (each _ _ s1) as [s2| | |] eqn:E; try done. injection H as <-.
  cut (tidy decls s2); [by destruct decls|]. revert s1 Hc E. induction (n_children o) as [|x l IHl]; intros s1 Hc E.
  { by injection E as <-. }
  cbn [each] in E. destruct (preOrder accept fuel x s1) as [s3| | |] eqn:E3; try done.
  eapply IHl; [|exact E]. by eapply IH.
Qed.

Lemma processAll_tidy decls accept fuel c s s' b :
  (∀ c s, tidy decls s → wp (accept c) (λ _ s', goes decls s s') s) →
  processAllPreOrder accept fuel c s = Ret (b, s') → tidy decls s → tidy decls s'.
Proof.
  intros Ha Hr Ht. unfold processAllPreOrder in Hr.
  destruct (preOrder accept fuel c (reset s)) as [s1| | |] eqn:E; try done. injection Hr as _ <-.
  by eapply preOrder_tidy.
Qed.

(** [goes_ok] and [goes_chain]: a chain of steps is a step and ends in a tidy state. *)
Ltac goes_ok :=
  match goal with
  | |- tidy _ _ => first [done | match goal with H : goes _ _ ?s |- tidy _ ?s => exact (proj2 H) end]
  end.
Ltac goes_chain :=
  match goal with
  | |- goes _ ?s ?s => apply goes_refl; goes_ok
  | H : goes ?b ?s ?m |- goes ?b ?s ?s' =>
      first [exact H | apply (goes_trans b s m s' H); clear H; goes_chain]
  end.

(** ** [ScopeBuilder] *)

Lemma new_value_settled s s' c sc x :
  data_at (st_heap s') c = Some (DExpr sc x) →
  match x with XdType t => resolved_at s t | XdID _ => False | _ => True end →
  keeps s s' → settled_value s' c.
Proof.
  intros Hd Hx K. eexists. split_and!; [done|by destruct x|]. intros sc' t [= _ ->].
  by eapply keeps_resolved.
Qed.

Lemma wp_insert_labels labels p sc (Q : unit → pstate → Prop) s :
  tidy true s → (∀ s', goes true s s' → Q tt s') → wp (ScopeBuilder.insert_labels labels p sc) Q s.
Proof.
  revert s. induction labels as [|l labels IH]; intros s Ht HQ; cbn [ScopeBuilder.insert_labels].
  { by apply wp_ret, HQ, goes_refl. }
  apply wp_bind, (wp_goes_newNode true); [done..|]. intros val s1 H1 _.
  apply wp_bind, (wp_goes_newNode true); [goes_ok|done|]. intros expr s2 H2 D2.
  apply wp_bind, (wp_goes_scope_insert true); [goes_ok|by eapply (new_value_settled s1), H2|].
  intros s3 H3. apply IH; [goes_ok|]. intros s4 H4. apply HQ.
  goes_chain.
Qed.

Lemma wp_nodePtr c (Q : cell → pstate → Prop) s : (∀ p, Q p s) → wp (nodePtr c) Q s.
Proof.
  intros HQ. apply wp_bind, wp_deref. intros n o _ _. apply wp_lift; [by destruct (n_ref o)|auto].
Qed.

Lemma wp_typeScope labels ts set type d (Q : nat → pstate → Prop) s :
  tidy true s → data_at (st_heap s) type = Some d → (∀ ts, carries d (set ts)) →
  (∀ sc s', goes true s s' → Q sc s') → wp (ScopeBuilder.typeScope labels ts set type) Q s.
Proof.
  intros Ht Hd Hc HQ. destruct ts as [ts|]; cbn [ScopeBuilder.typeScope].
  { by apply wp_ret, HQ, goes_refl. }
  apply wp_bind, (wp_goes_newScope true); [done|]. intros sc s1 H1 Hh1.
  apply wp_bind. eapply (wp_goes_set_data true); [goes_ok|by rewrite Hh1|done|]. intros s2 H2 _.
  apply wp_bind, wp_nodePtr. intros p. apply wp_bind, wp_insert_labels; [goes_ok|]. intros s3 H3.
  apply wp_ret, HQ. goes_chain.
Qed.

Lemma wp_goes_set_type_id decls id t (Q : unit → pstate → Prop) s :
  tidy decls s → (∀ s', goes decls s s' → Q tt s') → wp (ScopeBuilder.set_type_id id t) Q s.
Proof.
  intros Ht HQ. apply wp_bind, wp_data_of. intros [] Hd; try done.
  eapply (wp_goes_set_data decls); [done|done|apply same_carries; constructor|auto].
Qed.

Lemma wp_goes_set_type_scope decls n t (Q : unit → pstate → Prop) s :
  tidy decls s → (∀ s', goes decls s s' → Q tt s') → wp (ScopeBuilder.set_type_scope n t) Q s.
Proof.
  intros Ht HQ. apply wp_bind, wp_data_of. intros [] Hd; try done.
  eapply (wp_goes_set_data decls); [done|done|apply same_carries; constructor|auto].
Qed.

Lemma wp_declare_Type id t s :
  tidy true s → resolved_at s t →
  wp (ScopeBuilder.visit_Type id t) (λ _ s', goes true s s') s.
Proof.
  intros Ht Hr. apply wp_bind, wp_current_module. intros m.
  apply wp_bind, (wp_goes_newNode true); [done..|]. intros expr s1 H1 D1.
  apply wp_bind, (wp_goes_scope_insert true); [goes_ok|by eapply (new_value_settled s), H1|].
  intros s2 H2. apply wp_bind, wp_data_of. intros d Hd.
  apply wp_bind. eapply (wp_mono _ (λ _ s', goes true s2 s')).
  { assert (Hlink : ∀ sc (s3 : pstate), goes true s2 s3 →
      wp (scope_set_parent (Some m.2) sc ≫= λ _ : unit, scope_addChild id sc m.2) (λ _ s', goes true s2 s') s3).
    { intros sc s3 H3. apply wp_bind, (wp_goes_set_parent true); [goes_ok|]. intros s4 H4.
      apply (wp_goes_scope_addChild true); [goes_ok|]. intros s5 H5. goes_chain. }
    assert (Hnone : wp (mret ()) (λ _ s', goes true s2 s') s2).
    { apply wp_ret, goes_refl. goes_ok. }
    destruct d as [| | | | | |i sc td| | | | | | | | | | |]; try exact Hnone.
    destruct td; try exact Hnone; apply wp_bind; (eapply wp_typeScope; [goes_ok|done|by intros ts|auto]). }
  intros [] s3 H3. apply wp_bind, (wp_goes_set_type_id true); [goes_ok|]. intros s4 H4.
  apply wp_bind, wp_module_name. intros n. apply (wp_goes_set_type_scope true); [goes_ok|].
  intros s5 H5. goes_chain.
Qed.

Lemma scope_accept_tidy c s :
  tidy true s → wp (ScopeBuilder.accept c) (λ _ s', goes true s s') s.
Proof.
  intros Ht. apply wp_bind, wp_data_of. intros d Hd.
  pose proof (proj2 Ht c d Hd) as Hg. cbn in Hg.
  destruct d; try by apply wp_ret, goes_refl.
  - by apply wp_declare_Type.
  - apply wp_bind, wp_current_module. intros m. by apply (wp_goes_scope_insert true).
  - apply wp_bind, wp_current_module. intros m. apply wp_bind, (wp_goes_newNode true); [done..|].
    intros e s1 H1 D1. apply (wp_goes_scope_insert true); [goes_ok|by eapply (new_value_settled s), H1|].
    intros s2 H2. goes_chain.
  - apply wp_bind, wp_current_module. intros m. apply wp_bind, (wp_goes_newNode true); [done..|].
    intros e s1 H1 D1. apply (wp_goes_scope_insert true); [goes_ok|by eapply (new_value_settled s), H1|].
    intros s2 H2. goes_chain.
Qed.

Lemma wp_addDeclaration decl module (Q : unit → pstate → Prop) s :
  tidy true s → (∀ s', goes true s s' → Q tt s') → wp (ScopeBuilder.addDeclaration decl module) Q s.
Proof.
  intros Ht HQ. apply wp_bind, wp_data_of. intros [] Hd; try done.
  apply wp_bind. eapply (wp_goes_set_data true); [done|done|done|]. intros s1 H1 _.
  apply (wp_goes_addChild true); [goes_ok|]. intros s2 H2. apply HQ. goes_chain.
Qed.

Lemma wp_add_transform n w module (Q : unit → pstate → Prop) s :
  tidy true s → (∀ s', goes true s s' → Q tt s') → wp (ScopeBuilder.add_transform n w module) Q s.
Proof.
  intros Ht HQ. unfold ScopeBuilder.add_transform.
  do 4 (apply wp_bind, (wp_goes_newNode true); [goes_ok|done|]; intros ? ? ? _).
  apply wp_addDeclaration; [goes_ok|]. intros s5 H5. apply HQ. goes_chain.
Qed.

Lemma addBuiltins_tidy module s :
  tidy true s → wp (ScopeBuilder.addBuiltins module) (λ _ s', goes true s s') s.
Proof.
  intros Ht. unfold ScopeBuilder.addBuiltins.
  apply wp_bind, (wp_goes_newNode true); [done..|]. intros e s1 H1 D1.
  apply wp_bind, (wp_goes_newNode true); [goes_ok|by intros _; eexists|]. intros d s2 H2 _.
  apply wp_bind, wp_addDeclaration; [goes_ok|]. intros s3 H3.
  do 3 (apply wp_bind, (wp_goes_newNode true); [goes_ok|done|]; intros ? ? ? _).
  apply wp_bind, wp_addDeclaration; [goes_ok|]. intros s7 H7.
  do 2 (apply wp_bind, wp_add_transform; [goes_ok|]; intros ? ?).
  apply wp_add_transform; [goes_ok|]. intros s10 H10. goes_chain.
Qed.

Lemma scope_builder_tidy fuel module s s' b :
  tidy true s → ScopeBuilder.run fuel module s = Ret (b, s') → tidy true s'.
Proof.
  intros Ht Hr. unfold ScopeBuilder.run in Hr. pose proof (addBuiltins_tidy module s Ht) as Ha.
  unfold wp in Ha. destruct (ScopeBuilder.addBuiltins module s) as [[[] s1]| | |]; try done.
  eapply processAll_tidy; [apply scope_accept_tidy|exact Hr|apply Ha].
Qed.

(** ** [UnitScopeBuilder] *)

Lemma wp_insert_parameters l u sc (Q : unit → pstate → Prop) s :
  tidy false s → (∀ s', goes false s s' → Q tt s') →
  wp (UnitScopeBuilder.insert_parameters l u sc) Q s.
Proof.
  revert s. induction l as [|p l IH]; intros s Ht HQ; cbn [UnitScopeBuilder.insert_parameters].
  { by apply wp_ret, HQ, goes_refl. }
  apply wp_bind, wp_data_of. intros [] _; try done. destruct id as [id|]; [|done].
  apply wp_bind, (wp_goes_newNode false); [done..|]. intros e s1 H1 D1.
  apply wp_bind, (wp_goes_scope_insert false); [goes_ok|by eapply (new_value_settled s), H1|].
  intros s2 H2. apply IH; [goes_ok|]. intros s3 H3. apply HQ. goes_chain.
Qed.

Lemma wp_dollar_type t (Q : cell → pstate → Prop) s :
  tidy false s → (∀ c s', goes false s s' → Q c s') → wp (UnitScopeBuilder.dollar_type t) Q s.
Proof.
  intros Ht HQ. assert (Hnew : ∀ d, wp (newNode d []) Q s).
  { intros d. apply (wp_goes_newNode false); [done..|]. intros c s' H _. by apply HQ. }
  destruct t as [t|]; cbn [UnitScopeBuilder.dollar_type]; [|apply Hnew].
  apply wp_bind, wp_data_of. intros d _.
  destruct d as [| | | | | |i sc td| | | | | | | | | | |]; try by apply wp_ret, HQ, goes_refl.
  destruct td; try (by apply wp_ret, HQ, goes_refl). apply Hnew.
Qed.

Lemma wp_visit_item u sc i (Q : unit → pstate → Prop) s :
  tidy false s → (∀ s', goes false s s' → Q tt s') → wp (UnitScopeBuilder.visit_item u sc i) Q s.
Proof.
  intros Ht HQ. apply wp_bind, wp_data_of. intros [] _; try done.
  apply wp_bind, (wp_goes_set_parent false); [done|]. intros s1 H1.
  apply wp_bind, wp_lift; [apply name_fuel|]. intros n _.
  apply wp_bind, (wp_goes_scope_addChild false); [goes_ok|]. intros s2 H2.
  apply wp_bind, wp_dollar_type; [goes_ok|]. intros dd s3 H3.
  apply wp_bind, (wp_goes_newNode false); [goes_ok|done|]. intros e s4 H4 D4.
  apply (wp_goes_scope_insert false); [goes_ok|by eapply (new_value_settled s3), H4|].
  intros s5 H5. apply HQ. goes_chain.
Qed.

Lemma wp_visit_items u sc l (Q : unit → pstate → Prop) s :
  tidy false s → (∀ s', goes false s s' → Q tt s') → wp (UnitScopeBuilder.visit_items u sc l) Q s.
Proof.
  revert s. induction l as [|i l IH]; intros s Ht HQ; cbn [UnitScopeBuilder.visit_items].
  { by apply wp_ret, HQ, goes_refl. }
  apply wp_bind, wp_visit_item; [done|]. intros s1 H1. apply IH; [goes_ok|]. intros s2 H2. apply HQ. goes_chain.
Qed.

Lemma unit_scope_accept_tidy c s :
  tidy false s → wp (UnitScopeBuilder.accept c) (λ _ s', goes false s s') s.
Proof.
  intros Ht. apply wp_bind, wp_data_of. intros d _. destruct d as [|id l type| | | | | | | | | | | | | | | |];
    try by apply wp_ret, goes_refl.
  apply wp_bind, wp_data_of. intros d _.
  destruct d as [| | | | | |i sc td| | | | | | | | | | |]; try by apply wp_ret, goes_refl.
  destruct td; try by apply wp_ret, goes_refl.
  apply wp_bind, (wp_goes_newNode false); [done..|]. intros e s1 H1 D1.
  apply wp_bind, (wp_goes_scope_insert false); [goes_ok|by eapply (new_value_settled s), H1|].
  intros s2 H2. apply wp_bind, wp_current_module. intros m.
  apply wp_bind, (wp_goes_set_parent false); [goes_ok|]. intros s3 H3.
  apply wp_bind, wp_insert_parameters; [goes_ok|]. intros s4 H4.
  apply wp_bind, wp_gets. apply wp_bind, wp_lift.
  { by destruct (UnitScopeBuilder.flatten_items _ _ _). }
  intros items' _. apply wp_visit_items; [goes_ok|]. intros s5 H5. goes_chain.
Qed.

(** ** [TransformResolver] *)

Lemma item_carries b b' k : carries (DItem b k) (DItem b' k).
Proof. apply same_carries. constructor. Qed.

Lemma wp_set_serialized_type c t (Q : unit → pstate → Prop) s :
  tidy false s → (∀ s', goes false s s' → Q tt s') → wp (TransformResolver.set_serialized_type c t) Q s.
Proof.
  intros Ht HQ. apply wp_bind, wp_data_of. intros d Hd. destruct d as [| | | | | | | |b k| | | | | | | | |]; try done.
  apply wp_bind. eapply (wp_mono _ (λ _ s', goes false s s' ∧ data_at (st_heap s') c = Some (DItem b k))).
  { destruct (i_serialized_type b); [|by apply wp_ret; split; [apply goes_refl|]].
    apply (wp_goes_removeChild false); [done|]. intros s1 H1 D1. by rewrite D1. }
  intros [] s1 [H1 D1]. apply wp_bind. eapply (wp_goes_set_data false); [goes_ok|done|apply item_carries|].
  intros s2 H2 _. destruct t; [|apply wp_ret, HQ; goes_chain].
  apply (wp_goes_addChild false); [goes_ok|]. intros s3 H3. apply HQ. goes_chain.
Qed.

Lemma wp_set_type c t (Q : unit → pstate → Prop) s :
  tidy false s → (∀ s', goes false s s' → Q tt s') → wp (TransformResolver.set_type c t) Q s.
Proof.
  intros Ht HQ. apply wp_bind, wp_data_of. intros d Hd. destruct d as [| | | | | | | |b k| | | | | | | | |]; try done.
  apply wp_bind. eapply (wp_mono _ (λ _ s', goes false s s' ∧ data_at (st_heap s') c = Some (DItem b k))).
  { destruct (i_type b); [|by apply wp_ret; split; [apply goes_refl|]].
    apply (wp_goes_removeChild false); [done|]. intros s1 H1 D1. by rewrite D1. }
  intros [] s1 [H1 D1]. apply wp_bind. eapply (wp_goes_set_data false); [goes_ok|done|apply item_carries|].
  intros s2 H2 _. apply (wp_goes_addChild false); [goes_ok|]. intros s3 H3. apply HQ. goes_chain.
Qed.

Lemma wp_lookup_attribute key am (Q : option (option cell) → pstate → Prop) s :
  (∀ r, Q r s) → wp (TransformResolver.lookup_attribute key am) Q s.
Proof.
  intros HQ. apply wp_bind, wp_data_of. intros [] _; try done.
  destruct (Attribute.find_key key attrs_) as [a|]; [|by apply wp_ret].
  apply wp_bind, wp_data_of. intros [] _; try done. by apply wp_ret.
Qed.

Lemma transform_accept_tidy c s :
  tidy false s → wp (TransformResolver.accept c) (λ _ s', goes false s s') s.
Proof.
  intros Ht. apply wp_bind, wp_data_of. intros d _.
  destruct d as [| | | | | | | |b k| | | | | | | | |]; try by apply wp_ret, goes_refl.
  apply wp_bind, wp_lookup_attribute. intros [v|]; [|by apply wp_ret, goes_refl].
  apply wp_bind. eapply (wp_mono _ (λ _ s', s' = s)).
  { destruct v as [v|]; [|by apply wp_ret]. apply wp_bind, wp_data_of. intros d _. by apply wp_ret. }
  intros r s' ->.
  assert (Hbad : wp (log_error ≫= λ _ : unit, TransformResolver.set_serialized_type c (i_type b) ≫=
    λ _ : unit, lift (Abort "null node_ptr")) (λ (_ : unit) s', goes false s s') s).
  { apply wp_bind, (wp_goes_log_error false); [done|]. intros s1 H1.
    apply wp_bind, wp_set_serialized_type; [goes_ok|]. by intros s2 H2. }
  destruct r as [d|]; [|done]. destruct d as [| | | | | | |sc x| | | | | | | | | |]; try done.
  destruct x; try done; apply wp_bind, wp_set_serialized_type; try done; intros s1 H1.
  - apply wp_bind, (wp_goes_newNode false); [goes_ok|done|]. intros t s2 H2 _.
    apply wp_set_type; [goes_ok|]. intros s3 H3. goes_chain.
  - apply wp_set_type; [goes_ok|]. intros s2 H2. goes_chain.
Qed.

(** ** The passes *)

Lemma id_run_settled report fuel module s s' b :
  settled s → IdResolver.run report fuel module s = Ret (b, s') → settled s'.
Proof.
  unfold IdResolver.run, processAllPreOrder. intros Hs Hr.
  pose proof (id_traversal report fuel module s) as Ha.
  destruct (preOrder _ fuel module (reset s)) as [s1| | |]; try done. injection Hr as _ <-.
  eapply (settled_evolve (reset s)); [apply Ha|exact Hs].
Qed.

Lemma unit_scope_run_settled fuel module s s' b :
  settled s → UnitScopeBuilder.run fuel module s = Ret (b, s') → settled s'.
Proof. intros Hs Hr. by eapply (processAll_tidy false), (conj Hs I); [apply unit_scope_accept_tidy|]. Qed.

Lemma transform_run_settled fuel module s s' b :
  settled s → TransformResolver.run fuel module s = Ret (b, s') → settled s'.
Proof. intros Hs Hr. by eapply (processAll_tidy false), (conj Hs I); [apply transform_accept_tidy|]. Qed.
