(* ===== verification/Compile.v ===== *)
(** * The compiler ([src/src/generation/compiler.cpp])

    [Compiler::executePasses] runs the passes one after the other, and [Compiler::run] parses
    the specification and its includes, merges them into one module, runs the passes and the
    code generator.  The parser is a parameter here (its model, [OnDemand.v], builds the values of
    declarations, not the graph of nodes the passes work on), as are the file system, the printer
    and the generator; the two passes on instantiations, which [Deps.v] and [Inst.v] have on
    units, are parameters of the sequence of passes. *)

From S2P Require Import Prelude Util Ident Scope Nodes ScopePass UnitScopePass IdPass TransformPass Evolve Resolve Settle.
Import Util.Strings Ident.Id Nodes.Nodes.

Module Compiler.

(** [Pass::run] with the module. *)
Abbreviation pass := (cell → pstate → outcome (bool * pstate)).

Definition executePass (module : cell) (p : pass) : M bool := p module.

Definition executePasses (fuel : nat) (inst_dep_resolver inst_type_generator : pass) (module : cell)
    : M bool :=
  b ← executePass module (ScopeBuilder.run fuel);
  if negb b then mret false else
  b ← executePass module (IdResolver.run false fuel);
  if negb b then mret false else
  b ← executePass module (UnitScopeBuilder.run fuel);
  if negb b then mret false else
  b ← executePass module (IdResolver.run false fuel);
  if negb b then mret false else
  b ← executePass module (TransformResolver.run fuel);
  if negb b then mret false else
  b ← executePass module inst_dep_resolver;
  if negb b then mret false else
  b ← executePass module inst_type_generator;
  if negb b then mret false else
  b ← executePass module (IdResolver.run true fuel);
  if negb b then mret false else
  mret true.

(** [AttributeMap::add], and [Module::addProperty] and [Module::addDeclarations]. *)
Definition add_attribute (am attr : cell) : M unit :=
  d ← data_of am;
  a ← data_of attr;
  match d, a with
  | DAttributeMap attrs, DAttribute key _ =>
      _ ← match Attribute.find_key key attrs with
          | Some old => removeChild am old
          | None => mret tt
          end;
      _ ← set_data am (DAttributeMap (Attribute.insert_key key attr (Attribute.erase_key key attrs)));
      addChild am attr
  | _, _ => lift (Abort "attributes")
  end.
Definition properties (m : cell) : M cell :=
  d ← data_of m;
  match d with DModule _ _ _ props => mret props | _ => lift (Abort "module") end.
Definition declarations (m : cell) : M (list cell) :=
  d ← data_of m;
  match d with DModule _ _ decls _ => mret decls | _ => lift (Abort "module") end.
Definition addProperty (prop m : cell) : M unit := am ← properties m; add_attribute am prop.
Fixpoint addDeclarations (decls : list cell) (m : cell) : M unit :=
  match decls with
  | [] => mret tt
  | d :: decls => _ ← ScopeBuilder.addDeclaration d m; addDeclarations decls m
  end.
Fixpoint addProperties (props : list cell) (m : cell) : M unit :=
  match props with
  | [] => mret tt
  | p :: props => _ ← addProperty p m; addProperties props m
  end.

(** The body of the loop over the includes, after parsing: the declarations of [m] go to the
    end of those of [m2], and the properties of [m] go to [m]. *)
Definition merge (m m2 : cell) : M unit :=
  decls ← declarations m;
  _ ← addDeclarations decls m2;
  am ← properties m;
  d ← data_of am;
  match d with
  | DAttributeMap attrs => addProperties attrs.*2 m
  | _ => lift (Abort "attributes")
  end.

Section Run.
  (** [files]: the content of the files that can be opened; [parse] with the includes it
      collects; [beside]: the path of an include of a file. *)
  Context (files : string → option string) (parse : string → string → M (option cell * list string)).
  Context (beside : string → string → string) (print_ast : option (cell → M unit)).
  Context (passes : cell → M bool) (codeGen : cell → M unit).

(** [fs.open]: a stream that is already open stays open, at the end of its file. *)
Definition open_ (fs : option string) (name : string) : option string :=
  match fs with Some _ => Some ""%string | None => files name end.

(** The loop over the includes; [None] is the early return. *)
Fixpoint include_all (file : string) (includes : list string) (fs : option string) (m : cell)
    : M (option cell) :=
  match includes with
  | [] => mret (Some m)
  | incl :: includes =>
      let filename := beside file incl in
      match open_ fs filename with
      | None => mret None
      | Some content =>
          '(m2, _) ← parse content filename;
          match m2 with
          | None => lift (Abort "null node_ptr")
          | Some m2 => _ ← merge m m2; include_all file includes (Some content) m2
          end
      end
  end.

(** The result is the exit status: [true] is failure. *)
Definition run (file : string) : M bool :=
  match open_ None file with
  | None => mret true
  | Some content =>
      '(m, includes) ← parse content file;
      match m with
      | None => mret true
      | Some m =>
          m ← include_all file (reverse includes) None m;
          match m with
          | None => mret true
          | Some m =>
              _ ← match print_ast with Some p => p m | None => mret tt end;
              b ← passes m;
              if negb b then mret true
              else (_ ← codeGen m; mret false)
          end
      end
  end.

End Run.
End Compiler.
Import Compiler.

(** ** Theorems *)

(** The two passes on instantiations enter nothing into scopes. *)
Section Passes.
  Context (inst_dep inst_type : pass).
  Context (dep_settled : ∀ m s b s', settled s → inst_dep m s = Ret (b, s') → settled s').
  Context (type_settled : ∀ m s b s', settled s → inst_type m s = Ret (b, s') → settled s').

(** A pass that succeeded, in a sequence that succeeds. *)
Lemma executePass_true module (p : pass) (rest : M bool) s s' :
  (b ← executePass module p; if negb b then mret false else rest) s = Ret (true, s') →
  ∃ s1, p module s = Ret (true, s1) ∧ rest s1 = Ret (true, s').
Proof.
  unfold mbind, M_bind, executePass. destruct (p module s) as [[b s1]| | |]; try done.
  cbn. destruct b; [by eauto|done].
Qed.

(** A module whose passes all succeed has nothing left to resolve. *)
Lemma executePasses_resolves fuel module s s' :
  settled s → good_decls s →
  executePasses fuel inst_dep inst_type module s = Ret (true, s') →
  ∀ c, reaches (st_heap s') module c → resolved_at s' c.
Proof using dep_settled type_settled.
  intros Hs Hg H.
  apply executePass_true in H as (s1 & H1 & H). apply executePass_true in H as (s2 & H2 & H).
  apply executePass_true in H as (s3 & H3 & H). apply executePass_true in H as (s4 & H4 & H).
  apply executePass_true in H as (s5 & H5 & H). apply executePass_true in H as (s6 & H6 & H).
  apply executePass_true in H as (s7 & H7 & H). apply executePass_true in H as (s8 & H8 & H).
  injection H as ->.
  pose proof (proj1 (scope_builder_tidy _ _ _ _ _ (conj Hs Hg) H1)) as S1.
  pose proof (id_run_settled _ _ _ _ _ _ S1 H2) as S2.
  pose proof (unit_scope_run_settled _ _ _ _ _ S2 H3) as S3.
  pose proof (id_run_settled _ _ _ _ _ _ S3 H4) as S4.
  pose proof (transform_run_settled _ _ _ _ _ S4 H5) as S5.
  by eapply id_resolution_complete, H8; eapply type_settled, H7; eapply dep_settled, H6.
Qed.

End Passes.

(** ** The modules of included files *)

Lemma add_attribute_tidy am attr (Q : unit → pstate → Prop) s :
  tidy true s → (∀ s', goes true s s' → Q tt s') → wp (add_attribute am attr) Q s.
Proof.
  intros Ht HQ. apply wp_bind, wp_data_of. intros d Hd. apply wp_bind, wp_data_of. intros a _.
  destruct d as [| | | | | | | | | | | | | | |attrs| |]; try done. destruct a; try done.
  apply wp_bind. eapply (wp_mono _ (λ _ s', goes true s s' ∧ data_at (st_heap s') am = Some (DAttributeMap attrs))).
  { destruct (Attribute.find_key _ _); [|by apply wp_ret; split; [apply goes_refl|]].
    apply (wp_goes_removeChild true); [done|]. intros s1 H1 D1. by rewrite D1. }
  intros [] s1 [H1 D1]. apply wp_bind. eapply (wp_goes_set_data true); [goes_ok|done|done|].
  intros s2 H2 _. apply (wp_goes_addChild true); [goes_ok|]. intros s3 H3. apply HQ. goes_chain.
Qed.

Lemma addDeclarations_tidy decls m (Q : unit → pstate → Prop) s :
  tidy true s → (∀ s', goes true s s' → Q tt s') → wp (addDeclarations decls m) Q s.
Proof.
  revert s. induction decls as [|d decls IH]; intros s Ht HQ; cbn [addDeclarations].
  { by apply wp_ret, HQ, goes_refl. }
  apply wp_bind, wp_addDeclaration; [done|]. intros s1 H1. apply IH; [goes_ok|]. intros s2 H2.
  apply HQ. goes_chain.
Qed.

Lemma wp_module_part {A} (f : ID → nat → list cell → cell → A) m (Q : A → pstate → Prop) s :
  (∀ a, Q a s) →
  wp (d ← data_of m; match d with DModule i sc l p => mret (f i sc l p) | _ => lift (Abort "module") end) Q s.
Proof. intros HQ. apply wp_bind, wp_data_of. intros [] _; try done. by apply wp_ret. Qed.

Lemma addProperties_tidy props m (Q : unit → pstate → Prop) s :
  tidy true s → (∀ s', goes true s s' → Q tt s') → wp (addProperties props m) Q s.
Proof.
  revert s. induction props as [|p props IH]; intros s Ht HQ; cbn [addProperties].
  { by apply wp_ret, HQ, goes_refl. }
  apply wp_bind, wp_bind, wp_module_part. intros am. apply add_attribute_tidy; [done|]. intros s1 H1.
  apply IH; [goes_ok|]. intros s2 H2. apply HQ. goes_chain.
Qed.

Lemma merge_tidy m m2 s : tidy true s → wp (merge m m2) (λ _ s', goes true s s') s.
Proof.
  intros Ht. apply wp_bind, wp_module_part. intros decls.
  apply wp_bind, addDeclarations_tidy; [done|]. intros s1 H1.
  apply wp_bind, wp_module_part. intros am. apply wp_bind, wp_data_of. intros [] _; try done.
  apply addProperties_tidy; [goes_ok|]. intros s2 H2. goes_chain.
Qed.

Section Run.
  Context (files : string → option string) (parse : string → string → M (option cell * list string)).
  Context (beside : string → string → string) (print_ast : option (cell → M unit)).
  Context (inst_dep inst_type : pass) (codeGen : cell → M unit) (fuel : nat).

  (** What the driver may read: the files, and nothing where a stream is open already. *)
Definition readable (content : string) : Prop :=
    content = ""%string ∨ ∃ name, files name = Some content.

  (** No file of the specification declares an alias: the modules made from them have no declared
      type or constant that is unresolved itself.  The printer changes nothing; the passes on
      instantiations enter nothing unresolved into scopes. *)
  Context (parse_tidy : ∀ content name s r s',
    readable content → tidy true s → parse content name s = Ret (r, s') → tidy true s').
  Context (print_pure : ∀ p m s s', print_ast = Some p → p m s = Ret (tt, s') → s' = s).
  Context (dep_settled : ∀ m s b s', settled s → inst_dep m s = Ret (b, s') → settled s').
  Context (type_settled : ∀ m s b s', settled s → inst_type m s = Ret (b, s') → settled s').

Lemma open_readable fs name content : open_ files fs name = Some content → readable content.
Proof using Type. destruct fs; [intros [= <-]; by left|]. right. by exists name. Qed.

Lemma include_all_tidy file includes fs m s r s' :
  tidy true s → include_all files parse beside file includes fs m s = Ret (r, s') → tidy true s'.
Proof using parse_tidy.
  revert fs m s. induction includes as [|i includes IH]; intros fs m s Ht; cbn [include_all].
  { by intros [= _ <-]. }
  destruct (open_ files fs (beside file i)) as [content|] eqn:Eo; [|by intros [= _ <-]].
  unfold mbind, M_bind. destruct (parse content (beside file i) s) as [[[m2 l] s1]| | |] eqn:E; try done.
  cbn. apply parse_tidy in E; [|by eapply open_readable|done]. destruct m2 as [m2|]; [|done].
  pose proof (merge_tidy m m2 s1 E) as Hm. unfold wp in Hm.
  destruct (merge m m2 s1) as [[[] s2]| | |]; try done. apply IH, Hm.
Qed.

(** C13: When the driver succeeds on a specification none of whose files declares an alias, code
    was generated from a module [m] in which no reachable node is pending: no identifier
    expression, no named unknown type, no unknown field, no instantiation without a unit.  An
    alias is a declared type or constant that is itself a name; [self_alias_accepted] and
    [alias_chain_accepted] below show that such modules are accepted with nodes left unresolved.
    The parser, the file system, the printer, the generator and the two passes on instantiations
    are arbitrary, as long as the printer changes nothing and these passes enter nothing
    unresolved into scopes. *)
Theorem generation_resolved file s s' :
  tidy true s →
  run files parse beside print_ast (executePasses fuel inst_dep inst_type) codeGen file s = Ret (false, s') →
  ∃ m s1, codeGen m s1 = Ret (tt, s') ∧ ∀ c, reaches (st_heap s1) m c → resolved_at s1 c.
Proof using All.
  intros Ht. unfold run. destruct (open_ files None file) as [content|] eqn:Eo; [|done].
  unfold mbind, M_bind. destruct (parse content file s) as [[[m l] s1]| | |] eqn:E1; try done.
  cbn. apply parse_tidy in E1; [|by eapply open_readable|done]. destruct m as [m|]; [|done].
  destruct (include_all _ _ _ file (reverse l) None m s1) as [[r s2]| | |] eqn:E2; try done.
  apply include_all_tidy in E2; [|done]. cbn. destruct r as [m2|]; [|done].
  assert (Hp : ∀ s3, match print_ast with Some p => p m2 | None => mret tt end s2 = Ret (tt, s3) → s3 = s2).
  { intros s3. destruct print_ast as [p|] eqn:Ep; [by apply print_pure|by intros [= ->]]. }
  destruct (match print_ast with Some p => p m2 | None => mret tt end s2) as [[[] s3]| | |]; try done.
  rewrite (Hp s3 eq_refl). cbn.
  destruct (executePasses fuel inst_dep inst_type m2 s2) as [[b s4]| | |] eqn:E4; try done. cbn.
  destruct b; [|done]. cbn. destruct (codeGen m2 s4) as [[[] s5]| | |] eqn:E5; try done.
  intros [= <-]. exists m2, s4. split; [done|]. destruct E2 as [E2 E3].
  by eapply (executePasses_resolves inst_dep inst_type).
Qed.

End Run.

(** Only the first of the includes is read: the stream is not closed in the loop, so a second
    [open] leaves it at the end of the file. *)
Lemma include_open files files' parse beside file includes content m s :
  include_all files parse beside file includes (Some content) m s =
  include_all files' parse beside file includes (Some content) m s.
Proof.
  revert content m s. induction includes as [|i includes IH]; intros content m s; [done|].
  cbn [include_all open_]. unfold mbind, M_bind. destruct (parse _ _ s) as [[[m2 l] s1]| | |]; try done. cbn.
  destruct m2 as [m2|]; [|done]. destruct (merge m m2 s1) as [[[] s2]| | |]; try done. apply IH.
Qed.

(** C36: Of the included files only the first of the loop is read: the result is the same for
    file systems that agree on it, whatever the other files hold or whether they exist. *)
Theorem one_include_read files files' parse beside file incl includes m s :
  files (beside file incl) = files' (beside file incl) →
  include_all files parse beside file (incl :: includes) None m s =
  include_all files' parse beside file (incl :: includes) None m s.
Proof.
  intros H. cbn [include_all open_]. rewrite H. destruct (files' _) as [content|]; [|done].
  unfold mbind, M_bind. destruct (parse _ _ s) as [[[m2 l] s1]| | |]; try done. cbn.
  destruct m2 as [m2|]; [|done]. destruct (merge m m2 s1) as [[[] s2]| | |]; try done. apply include_open.
Qed.

(** ** Order of the declarations *)

(** Data of other cells: an operation on an object with other data does not touch it. *)
Lemma data_at_set_obj h n o o' c d :
  objs h !! n = Some o → data_at h c = Some d → n_data o ≠ d → data_at (set_obj n o' h) c = Some d.
Proof.
  intros Ho (m & om & Hc & Hm & Hd)%data_at_Some Hne. apply data_at_Some. exists m, om.
  split_and!; [done| |done]. cbn. rewrite list_lookup_insert_ne; [done|]. intros ->. congruence.
Qed.

Lemma data_at_set_children h n o ch ref c :
  objs h !! n = Some o → data_at (set_obj n (mkObj (n_data o) ch ref) h) c = data_at h c.
Proof.
  intros Ho. unfold data_at, obj_at. unfold get. cbn. destruct (cells h !! c) as [m|]; [|done]. cbn.
  destruct (decide (n = m)) as [<-|]; [|by rewrite list_lookup_insert_ne].
  rewrite list_lookup_insert_eq by (by eapply lookup_lt_Some). by rewrite Ho.
Qed.

Lemma wp_addChild_data c child (Q : unit → pstate → Prop) s :
  (∀ s', (∀ e, data_at (st_heap s') e = data_at (st_heap s) e) → Q tt s') → wp (addChild c child) Q s.
Proof.
  intros HQ. apply wp_bind, wp_deref. intros n o Hc Ho. apply wp_bind, wp_gets. apply HQ.
  intros e. by apply data_at_set_children.
Qed.

Lemma wp_removeChild_data c child (Q : unit → pstate → Prop) s :
  (∀ s', (∀ e, data_at (st_heap s') e = data_at (st_heap s) e) → Q tt s') → wp (removeChild c child) Q s.
Proof.
  intros HQ. apply wp_bind, wp_deref. intros n o Hc Ho. apply wp_bind, wp_gets. apply HQ.
  intros e. by apply data_at_set_children.
Qed.

Lemma wp_set_data_other c d d' e de (Q : unit → pstate → Prop) s :
  data_at (st_heap s) c = Some d → data_at (st_heap s) e = Some de → d ≠ de →
  (∀ s', data_at (st_heap s') c = Some d' → data_at (st_heap s') e = Some de → Q tt s') →
  wp (set_data c d') Q s.
Proof.
  intros (n & o & Hc & Ho & <-)%data_at_Some He Hne HQ. apply wp_bind, wp_deref. intros n' o' Hc' Ho'.
  assert (n' = n) as -> by congruence. assert (o' = o) as -> by congruence.
  apply wp_bind, wp_gets. apply HQ; [|by eapply data_at_set_obj].
  apply data_at_Some. exists n. eexists. unfold get. cbn. split_and!; [done| |].
  - by rewrite list_lookup_insert_eq by (by eapply lookup_lt_Some).
  - done.
Qed.

Lemma wp_set_data_self c d' (Q : unit → pstate → Prop) s :
  (∀ s', data_at (st_heap s') c = Some d' → Q tt s') → wp (set_data c d') Q s.
Proof.
  intros HQ. apply wp_bind, wp_deref. intros n o Hc Ho. apply wp_bind, wp_gets. apply HQ.
  apply data_at_Some. exists n. eexists. unfold get. cbn. split_and!; [done| |].
  - by rewrite list_lookup_insert_eq by (by eapply lookup_lt_Some).
  - done.
Qed.

Lemma wp_addDeclarations_data decls m i sc l p (Q : unit → pstate → Prop) s :
  data_at (st_heap s) m = Some (DModule i sc l p) →
  (∀ s', data_at (st_heap s') m = Some (DModule i sc (l ++ decls) p) → Q tt s') →
  wp (addDeclarations decls m) Q s.
Proof.
  revert l s. induction decls as [|d decls IH]; intros l s Hm HQ; cbn [addDeclarations].
  { apply wp_ret, HQ. by rewrite app_nil_r. }
  apply wp_bind, wp_bind, wp_data_of. intros dm Hdm. rewrite Hm in Hdm. injection Hdm as <-.
  apply wp_bind, wp_set_data_self. intros s1 H1. apply wp_addChild_data. intros s2 H2.
  eapply IH; [by rewrite H2|]. intros s3 H3. apply HQ. by rewrite <- app_assoc in H3.
Qed.

Lemma wp_addProperties_data props m e i sc l p (Q : unit → pstate → Prop) s :
  data_at (st_heap s) e = Some (DModule i sc l p) →
  (∀ s', data_at (st_heap s') e = Some (DModule i sc l p) → Q tt s') →
  wp (addProperties props m) Q s.
Proof.
  revert s. induction props as [|a props IH]; intros s He HQ; cbn [addProperties]; [by apply wp_ret, HQ|].
  apply wp_bind, wp_bind, wp_module_part. intros am.
  apply wp_bind, wp_data_of. intros d Hd. apply wp_bind, wp_data_of. intros da _.
  destruct d as [| | | | | | | | | | | | | | |attrs| |]; try done. destruct da; try done.
  apply wp_bind. eapply (wp_mono _ (λ _ s', ∀ e, data_at (st_heap s') e = data_at (st_heap s) e)).
  { destruct (Attribute.find_key _ _); [|by apply wp_ret]. by apply wp_removeChild_data. }
  intros [] s1 H1. apply wp_bind. apply (wp_set_data_other am (DAttributeMap attrs) _ e (DModule i sc l p));
    [by rewrite H1|by rewrite H1|done|].
  intros s2 _ H2. apply wp_addChild_data. intros s3 H3. apply IH; [by rewrite H3|done].
Qed.

(** The declarations of an included file come before those of the file that includes it. *)
Theorem include_declarations_first m m2 i sc l p i2 sc2 l2 p2 s s' :
  data_at (st_heap s) m = Some (DModule i sc l p) →
  data_at (st_heap s) m2 = Some (DModule i2 sc2 l2 p2) →
  merge m m2 s = Ret (tt, s') →
  data_at (st_heap s') m2 = Some (DModule i2 sc2 (l2 ++ l) p2).
Proof.
  intros Hm Hm2 Hr.
  assert (H : wp (merge m m2) (λ _ s', data_at (st_heap s') m2 = Some (DModule i2 sc2 (l2 ++ l) p2)) s).
  { apply wp_bind. apply wp_bind, wp_data_of. intros d Hd. rewrite Hm in Hd. injection Hd as <-.
    apply wp_ret, wp_bind. eapply wp_addDeclarations_data; [done|]. intros s1 H1.
    apply wp_bind, wp_module_part. intros am. apply wp_bind, wp_data_of. intros [] _; try done.
    by eapply wp_addProperties_data. }
  exact (wp_Ret _ _ _ _ _ H Hr).
Qed.

(** ** The example of [Resolve.v], compiled *)

Definition no_pass : pass := λ _ s, Ret (true, s).

(** A module of aliases. *)
Definition alias_module (aliases : list (string * string)) : M cell :=
  (fix go l decls :=
     match l with
     | [] => new_module decls
     | (a, b) :: l =>
         t ← newNode (DType None "" (TdUnknown (Some (one b)))) [];
         d ← newNode (DDeclType (one a) EXPORTED t) [t];
         go l (decls ++ [d])
     end) aliases [].
(** A file system with the example in one file, and a parser that makes aliases of any other
    text. *)
Definition example_files (name : string) : option string :=
  if String.eqb name "spec" then Some "example"%string else None.
Definition example_parse (content name : string) : M (option cell * list string) :=
  if String.eqb content "example" then m ← example_module; mret (Some m, [])
  else if String.eqb content "" then mret (None, [])
  else m ← alias_module [("A", "A")]%string; mret (Some m, []).

Lemma new_module_tidy decls s : tidy true s → wp (new_module decls) (λ _ s', goes true s s') s.
Proof.
  intros Ht. unfold new_module. apply wp_bind, (wp_goes_newNode true); [done..|]. intros props s1 H1 _.
  apply wp_bind, (wp_goes_newScope true); [goes_ok|]. intros sc s2 H2 _.
  apply (wp_goes_newNode true); [goes_ok|done|]. intros m s3 H3 _. goes_chain.
Qed.

Lemma example_module_tidy s : tidy true s → wp example_module (λ _ s', tidy true s') s.
Proof.
  intros Ht. unfold example_module.
  apply wp_bind, (wp_goes_newNode true); [done..|]. intros int s1 H1 D1.
  apply wp_bind, (wp_goes_newNode true); [goes_ok|by intros _; eexists|]. intros dT s2 H2 _.
  apply wp_bind, (wp_goes_newNode true); [goes_ok|done|]. intros am s3 H3 _.
  apply wp_bind, (wp_goes_newScope true); [goes_ok|]. intros sc s4 H4 _.
  apply wp_bind, (wp_goes_newNode true); [goes_ok|done|]. intros x s5 H5 _.
  apply wp_bind, (wp_goes_newScope true); [goes_ok|]. intros usc s6 H6 _.
  apply wp_bind, (wp_goes_newNode true); [goes_ok|done|]. intros u s7 H7 D7.
  apply wp_bind, (wp_goes_newNode true); [goes_ok|by intros _; eexists|]. intros dU s8 H8 _.
  apply wp_bind, (wp_goes_newNode true); [goes_ok|done|]. intros inst s9 H9 _.
  eapply wp_mono; [apply new_module_tidy; goes_ok|]. intros m s10 H10. exact (proj2 H10).
Qed.

Lemma example_parse_tidy content name s r s' :
  readable example_files content → tidy true s → example_parse content name s = Ret (r, s') → tidy true s'.
Proof.
  intros [->|[n Hn]] Ht; [by intros [= _ <-]|]. unfold example_files in Hn.
  destruct (String.eqb n "spec"); [|done]. injection Hn as <-. intros Hr.
  refine (wp_Ret _ (λ _ s', tidy true s') _ _ _ _ Hr). apply wp_bind.
  eapply wp_mono; [by apply example_module_tidy|]. intros m s1 H1. by apply wp_ret.
Qed.

(** The example compiles, and its field becomes a field of an atomic type. *)
Lemma generation_resolved_witness :
  let s' := final (run example_files example_parse (λ _ i, i) None
                     (executePasses 60 no_pass no_pass) (λ _, mret tt) "spec" empty_state) in
  (∃ (m : cell) s1, (mret tt : M unit) s1 = Ret (tt, s') ∧ ∀ c, reaches (st_heap s1) m c → resolved_at s1 c) ∧
  ∃ b, data_at (st_heap s') 3 = Some (DItem b (IkField None [] [] FdAtomicType)) ∧ i_type b = Some 0.
Proof.
  intros s'. split.
  - apply (generation_resolved example_files example_parse (λ _ i, i) None no_pass no_pass
      (λ _, mret tt) 60 example_parse_tidy ltac:(done) ltac:(by intros m s1 b s2 Hs [= _ <-])
      ltac:(by intros m s1 b s2 Hs [= _ <-]) "spec" empty_state s').
    + split; [by apply empty_settled|]. intros c d (n & o & Hn & _)%data_at_Some. by destruct c.
    + vm_compute. reflexivity.
  - vm_compute. eexists. split; reflexivity.
Defined.

Lemma one_include_read_witness :
  let incl := λ files, include_all files example_parse (λ _ i, i) "spec" ["a"; "b"]%string None 8
                         (built example_module) in
  incl (λ f, if String.eqb f "a" then Some "1" else None)%string =
  incl (λ f, if String.eqb f "a" then Some "1" else Some "2")%string.
Proof.
  intros incl. unfold incl.
  apply (one_include_read (λ f, if String.eqb f "a" then Some "1" else None)%string
    (λ f, if String.eqb f "a" then Some "1" else Some "2")%string example_parse (λ _ i, i) "spec" "a" ["b"]%string).
  reflexivity.
Defined.

Definition two_modules : pstate :=
  Eval vm_compute in built (m ← new_module [3; 4]; _ ← new_module [5]; mret m).

Lemma include_declarations_first_witness :
  data_at (st_heap (match merge 1 3 two_modules with Ret (_, s') => s' | _ => two_modules end)) 3 =
  Some (DModule (one "M") 1 ([5] ++ [3; 4]) 2).
Proof.
  apply (include_declarations_first 1 3 (one "M") 0 [3; 4] 0 (one "M") 1 [5] 2 two_modules); vm_compute; reflexivity.
Defined.

(** Without the condition on the declarations, a type that is declared as itself and a chain of
    eight aliases are left unresolved by passes that succeed. *)
Definition unresolved_after (m : M cell) : outcome (bool * list cell) :=
  '(m, s) ← m empty_state;
  '(b, s) ← executePasses 300 no_pass no_pass m s;
  Ret (b, filter (λ c, match data_at (st_heap s) c with Some d => pending d | None => false end = true)
            (seq 0 (length (cells (st_heap s))))).

Lemma self_alias_accepted : unresolved_after (alias_module [("A", "A")]%string) = Ret (true, [0]).
Proof. vm_compute. reflexivity. Qed.

Lemma alias_chain_accepted :
  unresolved_after (alias_module [("A", "B"); ("B", "C"); ("C", "D"); ("D", "E"); ("E", "F"); ("F", "G");
                                  ("G", "H"); ("H", "ByteOrder")]%string)
  = Ret (true, [0; 2; 4; 6; 8; 10; 12; 14]).
Proof. vm_compute. reflexivity. Qed.
