(* ===== verification/Regex.v ===== *)
(** * Regular expressions and the longest match

    The patterns of a flex specification ([src/src/spec/parser/scanner.ll]) as a data type with
    the language of each pattern ([matches]), an executable matcher by derivatives ([accepts],
    equal to the language), and what a flex scanner does with the patterns of its rules: it
    takes the longest prefix of the input one of them matches, and among the rules that match
    it the first ([longest], with its specification [select_spec]). *)

From S2P Require Import Prelude Util.
Import Util.Chars Util.Strings Util.StringLemmas.

(** ** Patterns *)

Module Regex.

(** [Nothing] is the pattern without a match, [Chr p] a character class. *)
Inductive re :=
  | Nothing
  | Empty
  | Chr (p : ascii → bool)
  | Seq (a b : re)
  | Or (a b : re)
  | Star (a : re).

Inductive matches : re → string → Prop :=
  | M_Empty : matches Empty ""
  | M_Chr p c : p c = true → matches (Chr p) (String c "")
  | M_Seq a b s t : matches a s → matches b t → matches (Seq a b) (s +:+ t)
  | M_OrL a b s : matches a s → matches (Or a b) s
  | M_OrR a b s : matches b s → matches (Or a b) s
  | M_Star0 a : matches (Star a) ""
  | M_Star a s t : matches a s → matches (Star a) t → matches (Star a) (s +:+ t).

(** Sequences and alternatives in the form derivatives keep small. *)
Definition seq (a b : re) : re :=
  match a, b with
  | Nothing, _ => Nothing
  | _, Nothing => Nothing
  | Empty, b => b
  | a, b => Seq a b
  end.
Definition or (a b : re) : re :=
  match a, b with
  | Nothing, b => b
  | a, Nothing => a
  | a, b => Or a b
  end.

Fixpoint nullable (r : re) : bool :=
  match r with
  | Nothing | Chr _ => false
  | Empty | Star _ => true
  | Seq a b => nullable a && nullable b
  | Or a b => nullable a || nullable b
  end.

Fixpoint deriv (c : ascii) (r : re) : re :=
  match r with
  | Nothing | Empty => Nothing
  | Chr p => if p c then Empty else Nothing
  | Seq a b => if nullable a then or (seq (deriv c a) b) (deriv c b) else seq (deriv c a) b
  | Or a b => or (deriv c a) (deriv c b)
  | Star a => seq (deriv c a) (Star a)
  end.

Fixpoint derivs (s : string) (r : re) : re :=
  match s with
  | EmptyString => r
  | String c s => derivs s (deriv c r)
  end.

Definition accepts (r : re) (s : string) : bool := nullable (derivs s r).

Definition is_nothing (r : re) : bool := match r with Nothing => true | _ => false end.

(** The patterns the flex notation abbreviates: a string, [a+] and [a?]. *)
Fixpoint lit (s : string) : re :=
  match s with
  | EmptyString => Empty
  | String c EmptyString => Chr (Ascii.eqb c)
  | String c s => Seq (Chr (Ascii.eqb c)) (lit s)
  end.
Definition plus (a : re) : re := Seq a (Star a).
Definition opt (a : re) : re := Or a Empty.
Definition any_of (l : string) : re :=
  Chr (λ c, match str_find (String c "") l with Some _ => true | None => false end).

(** ** The longest match *)

Fixpoint first_nullable (rs : list re) : option nat :=
  match rs with
  | [] => None
  | r :: rs => if nullable r then Some 0 else S <$> first_nullable rs
  end.

(** One character at a time, with what is left of every pattern: the length of the longest
    match so far with its rule, until no pattern is left. *)
Fixpoint longest (rs : list re) (best : option (nat * nat)) (n : nat) (s : string)
    : option (nat * nat) :=
  let best := match first_nullable rs with Some i => Some (n, i) | None => best end in
  match s with
  | EmptyString => best
  | String c s =>
      let rs := map (deriv c) rs in
      if forallb is_nothing rs then best else longest rs best (S n) s
  end.

End Regex.
Import Regex.

(** ** The language of a pattern *)

Module RegexLemmas.

Lemma matches_nothing s : ¬ matches Nothing s.
Proof. inversion 1. Qed.

Lemma matches_empty s : matches Empty s ↔ s = "".
Proof. split; [by inversion 1|intros ->; constructor]. Qed.

Lemma matches_chr p s : matches (Chr p) s ↔ ∃ c, p c = true ∧ s = String c "".
Proof. split; [inversion 1; eauto|intros (c & ? & ->); by constructor]. Qed.

Lemma matches_seq a b s : matches (Seq a b) s ↔ ∃ t u, s = (t +:+ u) ∧ matches a t ∧ matches b u.
Proof. split; [inversion 1; eauto|intros (t & u & -> & ? & ?); by constructor]. Qed.

Lemma matches_or a b s : matches (Or a b) s ↔ matches a s ∨ matches b s.
Proof. split; [inversion 1; auto|intros [?|?]; [by apply M_OrL|by apply M_OrR]]. Qed.

Lemma seq_spec a b s : matches (seq a b) s ↔ matches (Seq a b) s.
Proof.
  assert (H1 : matches Nothing s ↔ matches (Seq a Nothing) s).
  { rewrite matches_seq. split; [by intros ?%matches_nothing|].
    by intros (t & u & _ & _ & ?%matches_nothing). }
  assert (H2 : matches Nothing s ↔ matches (Seq Nothing b) s).
  { rewrite matches_seq. split; [by intros ?%matches_nothing|].
    by intros (t & u & _ & ?%matches_nothing & _). }
  assert (H3 : matches b s ↔ matches (Seq Empty b) s).
  { rewrite matches_seq. split.
    - intros H. exists "", s. split; [done|]. split; [constructor|done].
    - intros (t & u & -> & ->%matches_empty & H). done. }
  destruct a, b; simpl; try done.
Qed.

Lemma or_spec a b s : matches (or a b) s ↔ matches (Or a b) s.
Proof.
  assert (H1 : matches a s ↔ matches (Or a Nothing) s).
  { rewrite matches_or. split; [by left|]. by intros [?|?%matches_nothing]. }
  assert (H2 : matches b s ↔ matches (Or Nothing b) s).
  { rewrite matches_or. split; [by right|]. by intros [?%matches_nothing|?]. }
  destruct a, b; simpl; try done.
Qed.

Lemma nullable_spec r : nullable r = true ↔ matches r "".
Proof.
  induction r as [| |p|a IHa b IHb|a IHa b IHb|a IHa]; simpl.
  - split; [done|]. by intros ?%matches_nothing.
  - split; [constructor|done].
  - split; [done|]. by intros (c & _ & ?)%matches_chr.
  - rewrite andb_true_iff, IHa, IHb, matches_seq. split.
    + intros [??]. by exists "", "".
    + intros (t & u & E & ? & ?). by destruct t, u.
  - rewrite orb_true_iff, IHa, IHb, matches_or. done.
  - split; [constructor|done].
Qed.

(** A word of [a*] that is not empty begins with a word of [a] that is not empty. *)
Lemma matches_star_cons a c s :
  matches (Star a) (String c s) ↔
  ∃ t u, s = (t +:+ u) ∧ matches a (String c t) ∧ matches (Star a) u.
Proof.
  split.
  - intros H. remember (Star a) as r eqn:Er. remember (String c s) as w eqn:Ew.
    revert s Ew. induction H as [| | | | | |a' t u Ht _ Hu IH]; intros s' Ew; try done.
    injection Er as ->. destruct t as [|c' t].
    + by apply IH.
    + simpl in Ew. injection Ew as -> <-. by exists t, u.
  - intros (t & u & -> & Ht & Hu). by apply (M_Star a (String c t) u).
Qed.

Lemma deriv_spec c r s : matches (deriv c r) s ↔ matches r (String c s).
Proof.
  revert s. induction r as [| |p|a IHa b IHb|a IHa b IHb|a IHa]; intros s; simpl.
  - split; by intros ?%matches_nothing.
  - split; [by intros ?%matches_nothing|by intros ?%matches_empty].
  - rewrite matches_chr. destruct (p c) eqn:E.
    + rewrite matches_empty. split; [intros ->; by exists c|].
      by intros (c' & _ & [= _ ->]).
    + split; [by intros ?%matches_nothing|]. intros (c' & E' & [= <- _]). congruence.
  - assert (H1 : matches (seq (deriv c a) b) s ↔
      ∃ t u, s = (t +:+ u) ∧ matches a (String c t) ∧ matches b u).
    { rewrite seq_spec, matches_seq. by setoid_rewrite IHa. }
    rewrite matches_seq. destruct (nullable a) eqn:En.
    + rewrite or_spec, matches_or, H1, IHb. apply nullable_spec in En. split.
      * intros [(t & u & -> & ? & ?)|?]; [by exists (String c t), u|by exists "", (String c s)].
      * intros ([|c' t] & u & E & ? & ?); simpl in E; [by rewrite E; right|].
        injection E as -> ->. left. by exists t, u.
    + rewrite H1. split.
      * intros (t & u & -> & ? & ?). by exists (String c t), u.
      * intros ([|c' t] & u & E & Ha & ?); simpl in E.
        -- apply nullable_spec in Ha. congruence.
        -- injection E as -> ->. by exists t, u.
  - by rewrite or_spec, !matches_or, IHa, IHb.
  - rewrite seq_spec, matches_seq, matches_star_cons. by setoid_rewrite IHa.
Qed.

Lemma derivs_spec s r t : matches (derivs s r) t ↔ matches r (s +:+ t).
Proof.
  revert r. induction s as [|c s IH]; intros r; simpl; [done|]. by rewrite IH, deriv_spec.
Qed.

Lemma accepts_spec r s : accepts r s = true ↔ matches r s.
Proof. unfold accepts. by rewrite nullable_spec, derivs_spec, append_nil_r. Qed.

#[export] Instance matches_dec r s : Decision (matches r s).
Proof.
  destruct (accepts r s) eqn:E; [left|right].
  - by apply accepts_spec.
  - intros H%accepts_spec. congruence.
Defined.

Lemma is_nothing_spec r : is_nothing r = true → r = Nothing.
Proof. by destruct r. Qed.

Lemma derivs_nothing s : derivs s Nothing = Nothing.
Proof. by induction s. Qed.

(** *** Abbreviations *)

Lemma matches_lit s t : matches (lit s) t ↔ t = s.
Proof.
  revert t. induction s as [|c s IH]; intros t; [apply matches_empty|].
  assert (Hc : ∀ u, matches (Chr (Ascii.eqb c)) u ↔ u = String c "").
  { intros u. rewrite matches_chr. split.
    - by intros (d & <-%Ascii.eqb_eq & ->).
    - intros ->. exists c. by rewrite Ascii.eqb_refl. }
  destruct s as [|c' s]; [apply Hc|].
  change (lit (String c (String c' s))) with (Seq (Chr (Ascii.eqb c)) (lit (String c' s))).
  rewrite matches_seq. setoid_rewrite Hc. setoid_rewrite IH. split.
  - by intros (u & v & -> & -> & ->).
  - intros ->. by exists (String c ""), (String c' s).
Qed.

Lemma matches_plus a s : matches (plus a) s ↔ ∃ t u, s = (t +:+ u) ∧ matches a t ∧ matches (Star a) u.
Proof. apply matches_seq. Qed.

Lemma matches_star_chr p s : matches (Star (Chr p)) s ↔ str_forall p s = true.
Proof.
  induction s as [|c s IH].
  - split; [done|constructor].
  - rewrite matches_star_cons. simpl. rewrite andb_true_iff, <- IH. setoid_rewrite matches_chr. split.
    + intros (t & u & -> & (d & ? & [= <- ->]) & ?). done.
    + intros [??]. exists "", s. eauto.
Qed.

End RegexLemmas.
Export RegexLemmas.

(** ** The longest match *)

Module Longest.

(** The rule chosen for a text: the first that matches all of it. *)
Definition chooses (rs : list re) (w : string) (i : nat) : Prop :=
  (∃ r, rs !! i = Some r ∧ matches r w) ∧ ∀ j r, j < i → rs !! j = Some r → ¬ matches r w.

Lemma first_nullable_spec rs :
  match first_nullable rs with
  | Some i => chooses rs "" i
  | None => ∀ r, r ∈ rs → ¬ matches r ""
  end.
Proof.
  induction rs as [|r rs IH]; simpl.
  - intros r Hr. set_solver.
  - destruct (nullable r) eqn:E.
    + split; [exists r; by rewrite <- nullable_spec|]. lia.
    + assert (Hr : ¬ matches r "") by (rewrite <- nullable_spec; congruence).
      destruct (first_nullable rs) as [i|]; simpl.
      * destruct IH as [(r' & ? & ?) H2]. split; [by exists r'|].
        intros [|j] r'' Hj Hl; [by injection Hl as <-|]. apply (H2 j); [lia|done].
      * intros r' [->|?]%elem_of_cons; auto.
Qed.

Lemma chooses_deriv c rs w i : chooses (map (deriv c) rs) w i ↔ chooses rs (String c w) i.
Proof.
  unfold chooses. setoid_rewrite list_lookup_fmap. split.
  - intros [(r & Hr & Hm) H2]. apply fmap_Some in Hr as (r0 & Hr & ->). split.
    + exists r0. by rewrite <- deriv_spec.
    + intros j r' Hj Hl. rewrite <- deriv_spec. apply (H2 j); [done|]. by rewrite Hl.
  - intros [(r & Hr & Hm) H2]. split.
    + exists (deriv c r). by rewrite Hr, deriv_spec.
    + intros j r' Hj (r0 & Hl & ->)%fmap_Some. rewrite deriv_spec. by apply (H2 j).
Qed.

(** What [longest] promises: a prefix a rule matches, with the first rule that does, and no
    longer prefix that some rule matches; or no prefix that some rule matches. *)
Definition longest_match (rs : list re) (s : string) (o : option (nat * nat)) : Prop :=
  match o with
  | Some (n, i) =>
      (∃ w rest, s = (w +:+ rest) ∧ n = String.length w ∧ chooses rs w i) ∧
      ∀ w rest r, s = (w +:+ rest) → r ∈ rs → matches r w → String.length w ≤ n
  | None => ∀ w rest r, s = (w +:+ rest) → r ∈ rs → ¬ matches r w
  end.

Definition shift (n : nat) (best o : option (nat * nat)) : option (nat * nat) :=
  match o with Some (m, i) => Some (n + m, i) | None => best end.

Lemma longest_shift rs best n s :
  ∃ o, longest rs best n s = shift n best o ∧ longest_match rs s o.
Proof.
  revert rs best n. induction s as [|c s IH]; intros rs best n; simpl;
    pose proof (first_nullable_spec rs) as Hf.
  - exists ((λ i, (0, i)) <$> first_nullable rs). destruct (first_nullable rs) as [i|]; simpl.
    + split; [by rewrite Nat.add_0_r|]. split; [by exists "", ""|].
      intros w rest r E _ _. destruct w; [simpl; lia|done].
    + split; [done|]. intros w rest r E Hr. destruct w; [by apply Hf|done].
  - set (best' := match first_nullable rs with Some i => Some (n, i) | None => best end).
    assert (Hstop : (∀ w rest r, s = (w +:+ rest) → r ∈ rs → ¬ matches r (String c w)) →
      ∃ o, best' = shift n best o ∧ longest_match rs (String c s) o).
    { intros Hno. exists ((λ i, (0, i)) <$> first_nullable rs). unfold best'.
      destruct (first_nullable rs) as [i|]; simpl.
      - split; [by rewrite Nat.add_0_r|]. split; [by exists "", (String c s)|].
        intros w rest r E Hr Hm. destruct w as [|c' w]; [simpl; lia|].
        simpl in E. injection E as <- E. by destruct (Hno w rest r E Hr).
      - split; [done|]. intros w rest r E Hr. destruct w as [|c' w]; [by apply Hf|].
        simpl in E. injection E as <- E. by apply (Hno w rest). }
    destruct (forallb is_nothing (map (deriv c) rs)) eqn:En.
    { apply Hstop. intros w rest r _ Hr. rewrite <- deriv_spec.
      rewrite forallb_forall in En. rewrite (is_nothing_spec (deriv c r)).
      - apply matches_nothing.
      - apply En. apply in_map, list_elem_of_In, Hr. }
    destruct (IH (map (deriv c) rs) best' (S n)) as (o & -> & Ho).
    destruct o as [[m i]|]; simpl in Ho |- *.
    + exists (Some (S m, i)). simpl. split; [by rewrite Nat.add_succ_r|].
      destruct Ho as [(w & rest & -> & -> & Hc) Hmax]. split.
      * exists (String c w), rest. split; [done|]. split; [done|]. by apply chooses_deriv.
      * intros w' rest' r E Hr Hm. destruct w' as [|c' w']; [simpl; lia|].
        simpl in E. injection E as <- E. simpl. apply le_n_S.
        apply (Hmax w' rest' (deriv c r)); [done| |by apply deriv_spec].
        by apply list_elem_of_fmap_2.
    + apply Hstop. intros w rest r E Hr. rewrite <- deriv_spec.
      apply (Ho w rest); [done|]. by apply list_elem_of_fmap_2.
Qed.

Lemma longest_match_unique rs s o o' : longest_match rs s o → longest_match rs s o' → o = o'.
Proof.
  assert (Hc : ∀ w i r, chooses rs w i → rs !! i = Some r → r ∈ rs ∧ matches r w).
  { intros w i r [(r' & H1 & H2) _] H3. simplify_eq. split; [by eapply list_elem_of_lookup_2|done]. }
  assert (Hsome : ∀ n i, longest_match rs s (Some (n, i)) → ¬ longest_match rs s None).
  { intros n i [(w & rest & E & _ & [(r & ? & ?) _]) _] Hno.
    apply (Hno w rest r E); [by eapply list_elem_of_lookup_2|done]. }
  destruct o as [[n i]|], o' as [[n' i']|];
    [|intros H H'; by destruct (Hsome n i)|intros H H'; by destruct (Hsome n' i')|done].
  intros [(w & rest & E & -> & C) M] [(w' & rest' & E' & -> & C') M'].
  destruct C as [(r & Hr & Hm) C], C' as [(r' & Hr' & Hm') C'].
  assert (String.length w = String.length w').
  { pose proof (M w' rest' r' E' ltac:(by eapply list_elem_of_lookup_2) Hm').
    pose proof (M' w rest r E ltac:(by eapply list_elem_of_lookup_2) Hm). lia. }
  assert (w = w') as <-.
  { subst s. by destruct (app_inj_length w rest w' rest'). }
  assert (i = i') as <-; [|done].
  destruct (Nat.lt_trichotomy i i') as [?|[?|?]]; [|done|].
  - by destruct (C' i r).
  - by destruct (C i' r').
Qed.

(** The longest match from the start of the input. *)
Definition select (rs : list re) (s : string) : option (nat * nat) := longest rs None 0 s.

Lemma select_match rs s : longest_match rs s (select rs s).
Proof.
  unfold select. destruct (longest_shift rs None 0 s) as (o & -> & Ho).
  by destruct o as [[m i]|].
Qed.

Lemma select_unique rs s o : longest_match rs s o → select rs s = o.
Proof. intros H. eapply longest_match_unique; [apply select_match|done]. Qed.

(** Flex' rule, as a characterisation of what is selected. *)
Lemma select_spec rs s o : select rs s = o ↔ longest_match rs s o.
Proof. split; [intros <-; apply select_match|apply select_unique]. Qed.

End Longest.
