(* ===== verification/Scanner.v ===== *)
(** * The scanner and the driver of specifications ([src/src/spec/parser/scanner.ll],
    [scanner.h], [driver.h], [driver.cpp])

    [Tokens] has the tokens of [parser.yy], [Rules] the patterns and the rules of the three
    start conditions with their actions, [Lexer] one call of [yylex] ([lex]) on a state with the
    input that is left, the start conditions, what [yymore] keeps and the location, and the
    calls of a parser one after the other ([tokens]), [Driving] the driver around them.

    A location is a class of the generated parser and [strtod] is a function of the C library:
    both are parameters. *)

From S2P Require Import Prelude Util Ident Ast Regex.
Import Util.Chars Util.Strings Util.StringLemmas Util.Numbers Util.Escapes Regex.Regex Regex.Longest.

Module Tokens.

(** [Parser::token] with the semantic value the scanner stores; [CHAR c] is the code of a
    character. *)
Inductive token :=
  | SCOPED_IDENT (sval : string) | DOLLAR_IDENT (sval : string) | PATH_IDENT (sval : string)
  | IDENT (sval : string) | ATTRIBUTE (sval : string) | PROPERTY (sval : string)
  | CINTEGER (ival : Z) | CBOOL (bval : bool) | CSTRING (sval : string) | CBYTES (sval : string)
  | CREGEXP (sval : string) | CDOUBLE (dval : double) | CPPCODE (sval : string)
  | END
  | ANY | AS | BITFIELD | BITSET | BOOL | BYTES | CADDR | CAST | CONST | DOUBLE | ELSE | ENUM
  | EXPORT | FOR | FIND | IF | IMPORT | IN | INCLUDE | INSTANTIATE
  | INT | INT8 | INT16 | INT32 | INT64 | LIST | MAP | MOD | MODULE | SET | SINK | STRING | SWITCH
  | THEN | TUPLE | TYPE | UINT | UINT8 | UINT16 | UINT32 | UINT64 | UNIT | VAR | VECTOR | VOID
  | AND | ARROW | BEGINCODE | DARROW | DOTDOT | EQ | ENDCODE | GEQ | HASATTR | LEQ
  | MINUSASSIGN | MINUSMINUS | NEQ | OR | PLUSASSIGN | PLUSPLUS | POW | SHIFTLEFT | SHIFTRIGHT
  | NONE
  | CHAR (c : ascii).

End Tokens.
Export Tokens.

Module Rules.

(** ** The regexp helpers *)

Definition quote : ascii := "034"%char.
Definition newline : ascii := "010"%char.
Definition tab : ascii := "009"%char.

Definition letter (c : ascii) : bool := islower c || isupper c || Ascii.eqb c "_".
Definition word_char (c : ascii) : bool := letter c || isdigit c.
Definition id_char (c : ascii) : bool := word_char c || Ascii.eqb c "-".
Definition is_blank (c : ascii) : bool := Ascii.eqb c " " || Ascii.eqb c tab.
Definition hexdigit (c : ascii) : bool :=
  isdigit c || between 97 102 c || between 65 70 c.
(** [.] *)
Definition not_newline (c : ascii) : bool := negb (Ascii.eqb c newline).

Definition attribute : re := Seq (lit "&") (Seq (Chr letter) (Star (Chr word_char))).
Definition blank : re := Chr is_blank.
Definition comment : re := Seq (Star (Chr is_blank)) (Seq (lit "#") (Star (Chr not_newline))).
Definition hexs : re := plus (Chr hexdigit).
Definition id : re := Or (Seq (Chr letter) (Star (Chr id_char))) (lit "$$").
Definition int : re := Seq (opt (any_of "+-")) (plus (Chr isdigit)).
Definition double_ : re :=
  Seq (opt (any_of "-+")) (Seq (plus (Chr isdigit)) (Seq (lit ".") (plus (Chr isdigit)))).
Definition property : re := Seq (lit "%") (Seq (Chr letter) (Star (Chr id_char))).
(** [(\\.|[^\\<c>])*]: characters or escaped characters, up to a [c]. *)
Definition escaped (c : ascii) : re :=
  Star (Or (Seq (lit "\") (Chr not_newline))
           (Chr (λ d, negb (Ascii.eqb d "\") && negb (Ascii.eqb d c)))).
Definition string_ : re := Seq (Chr (Ascii.eqb quote)) (Seq (escaped quote) (Chr (Ascii.eqb quote))).

(** ** The actions *)

Inductive cond := INITIAL | RE | EC.

(** What a rule does with [yytext]: [Step], [Lines] and [Eat] go on scanning, as do [Invalid],
    which reports an error, and [Echo], flex' own rule for a character no rule matches;
    [CodeLine] and [CodeChar] go on with [yymore]; the others return. *)
Inductive action :=
  | Step | Lines | Eat
  | Return (f : string → outcome token)
  | BeginCode | EndOfCode | CodeLine | CodeChar
  | Invalid | Echo.

(** [std::string(yytext)]: the text up to its first NUL. *)
Fixpoint c_str (s : string) : string :=
  match s with
  | EmptyString => ""
  | String c s => if Ascii.eqb c "000" then "" else String c (c_str s)
  end.

(** [std::string(yytext, pos, strlen(yytext) - less)]: the length is a [size_t], which is more
    than any string has when the difference is negative. *)
Definition substr (pos less : nat) (s : string) : outcome string :=
  let s := c_str s in
  let strlen := String.length s in
  if strlen <? pos then Abort "std::out_of_range"
  else Ret (str_take (if strlen <? less then strlen else strlen - less) (str_drop pos s)).

(** [strtoll] on a sign and digits: the digits of the base from the start, and the nearest
    [long long] if the value is none. *)
Fixpoint digits_from (base acc : Z) (s : string) : Z :=
  match s with
  | EmptyString => acc
  | String c s =>
      match atoi_digit base c with
      | Some d => digits_from base (acc * base + d) s
      | None => acc
      end
  end.
Definition strtoll (s : string) (base : Z) : Z :=
  let v :=
    match s with
    | String c s' =>
        if Ascii.eqb c "-" then (- digits_from base 0 s')%Z
        else if Ascii.eqb c "+" then digits_from base 0 s'
        else digits_from base 0 s
    | EmptyString => 0%Z
    end in
  Z.max (- 2 ^ 63) (Z.min (2 ^ 63 - 1) v).

(** ** The rules *)

Definition keywords : list (string * token) := [
  ("any", ANY); ("as", AS); ("bitfield", BITFIELD); ("bitset", BITSET); ("bool", BOOL);
  ("bytes", BYTES); ("caddr", CADDR); ("cast", CAST); ("const", CONST); ("double", DOUBLE);
  ("else", ELSE); ("enum", ENUM); ("export", EXPORT); ("for", FOR); ("find", FIND); ("if", IF);
  ("import", IMPORT); ("in", IN); ("include", INCLUDE); ("instantiate", INSTANTIATE);
  ("int", INT); ("int8", INT8); ("int16", INT16); ("int32", INT32); ("int64", INT64);
  ("list", LIST); ("map", MAP); ("mod", MOD); ("module", MODULE); ("set", SET); ("sink", SINK);
  ("string", STRING); ("switch", SWITCH); ("then", THEN); ("tuple", TUPLE); ("type", TYPE);
  ("uint", UINT); ("uint8", UINT8); ("uint16", UINT16); ("uint32", UINT32); ("uint64", UINT64);
  ("unit", UNIT); ("var", VAR); ("vector", VECTOR); ("void", VOID)].

(** The operators before and after the rule of [%{]. *)
Definition operators1 : list (string * token) := [("&&", AND); ("->", ARROW)].
Definition operators2 : list (string * token) := [
  ("=>", DARROW); ("..", DOTDOT); ("%}", ENDCODE); ("==", EQ); (">=", GEQ); ("?.", HASATTR);
  ("<=", LEQ); ("-=", MINUSASSIGN); ("--", MINUSMINUS); ("!=", NEQ); ("||", OR);
  ("+=", PLUSASSIGN); ("++", PLUSPLUS); ("**", POW); ("<<", SHIFTLEFT); (">>", SHIFTRIGHT)].
Definition literals : list (string * token) := [
  ("False", CBOOL false); ("True", CBOOL true); ("None", NONE)].

Abbreviation rule := (re * action)%type.
Definition fixed (p : string * token) : rule := (lit p.1, Return (λ _, Ret p.2)).
Definition sval (f : string → token) : action := Return (λ yytext, Ret (f (c_str yytext))).
Definition punctuation : string := "][$?.,=:;<>(){}/|*/&^%!+-".
Definition first_char (s : string) : ascii := default "000"%char (String.get 0 s).
Definition yytext0 : action := Return (λ yytext, Ret (CHAR (first_char yytext))).

Section Strtod.
  Context (strtod : string → double).

(** The rules with values. *)
Definition value_rules : list rule := [
  (attribute, sval ATTRIBUTE);
  (property, sval PROPERTY);
  (double_, Return (λ yytext, Ret (CDOUBLE (strtod yytext))));
  (int, Return (λ yytext, Ret (CINTEGER (strtoll yytext 10))));
  (Seq (lit "0x") hexs, Return (λ yytext, Ret (CINTEGER (strtoll (str_drop 2 yytext) 16))));
  (string_, Return (λ yytext, s ← substr 1 2 yytext; s ← expandEscapes s; Ret (CSTRING s)));
  (Seq (lit "b") string_,
   Return (λ yytext, s ← substr 2 3 yytext; s ← expandEscapes s; Ret (CBYTES s)));
  (Seq id (plus (Seq (lit "/") id)), sval PATH_IDENT);
  (id, sval IDENT);
  (Seq id (plus (Seq (lit "::") id)), sval SCOPED_IDENT);
  (Seq (lit "$") id, Return (λ yytext, Ret (DOLLAR_IDENT (c_str (str_drop 1 yytext)))));
  (any_of punctuation, yytext0)].

Definition default_rule : rule := (Chr (λ _, true), Echo).

Definition initial_rules : list rule :=
  [(plus blank, Step); (plus (Chr (Ascii.eqb newline)), Lines); (comment, Eat)] ++
  map fixed keywords ++ map fixed operators1 ++ [(lit "%{", BeginCode)] ++ map fixed operators2 ++
  map fixed literals ++ value_rules ++ [(Chr not_newline, Invalid); default_rule].

Definition re_rules : list rule := [
  (escaped "/", sval CREGEXP);
  (any_of (String "/" (String "\" (String newline ""))), yytext0);
  default_rule].

Definition ec_rules : list rule := [
  (lit "%}", EndOfCode);
  (Chr (Ascii.eqb newline), CodeLine);
  (Chr not_newline, CodeChar);
  default_rule].

(** The start conditions are exclusive. *)
Definition rules (c : cond) : list rule :=
  match c with INITIAL => initial_rules | RE => re_rules | EC => ec_rules end.

(** The text the scanner takes from the input in a start condition, and its action. *)
Definition next (c : cond) (input : string) : option (nat * action) :=
  '(n, i) ← select (rules c).*1 input;
  '(_, a) ← rules c !! i;
  Some (n, a).

End Strtod.

End Rules.
Export Rules.

(** ** [yylex] *)

Module Lexer.

(** The class [location] of the generated parser. *)
Class Locations (L : Type) := {
  step : L → L;
  columns : Z → L → L;
  lines : Z → L → L }.

Section Lexer.
  Context {L : Type} `{!Locations L} (strtod : string → double).

(** [more] is the text kept by [yymore], [errors] what the rule for invalid characters adds to
    the driver's [errors_]. *)
Record scanner := mkScanner {
  input : string;
  start : cond;
  stack : list cond;
  more : string;
  yylloc : L;
  errors : Z }.

Definition new_scanner (text : string) (l : L) : scanner := mkScanner text INITIAL [] "" l 0.

Definition set_loc (f : L → L) (s : scanner) : scanner :=
  mkScanner (input s) (start s) (stack s) (more s) (f (yylloc s)) (errors s).
Definition set_input (i : string) (s : scanner) : scanner :=
  mkScanner i (start s) (stack s) (more s) (yylloc s) (errors s).
Definition set_more (m : string) (s : scanner) : scanner :=
  mkScanner (input s) (start s) (stack s) m (yylloc s) (errors s).
Definition count_error (s : scanner) : scanner :=
  mkScanner (input s) (start s) (stack s) (more s) (yylloc s) (errors s + 1).

Definition yy_push_state (c : cond) (s : scanner) : scanner :=
  mkScanner (input s) c (start s :: stack s) (more s) (yylloc s) (errors s).
Definition yy_pop_state (s : scanner) : outcome scanner :=
  match stack s with
  | [] => Abort "start-condition stack underflow"
  | c :: st => Ret (mkScanner (input s) c st (more s) (yylloc s) (errors s))
  end.
Definition enablePatternMode (s : scanner) : scanner := yy_push_state RE s.
Definition disablePatternMode (s : scanner) : outcome scanner := yy_pop_state s.

(** The action of a rule on [yytext]; [YY_USER_ACTION] has run and [more] is empty. *)
Definition perform (a : action) (yytext : string) (s : scanner) : outcome (option token * scanner) :=
  let yyleng := Z.of_nat (String.length yytext) in
  match a with
  | Step => Ret (None, set_loc step s)
  | Lines => Ret (None, set_loc (lines yyleng) s)
  | Eat | Echo => Ret (None, s)
  | Return f => t ← f yytext; Ret (Some t, s)
  | BeginCode => Ret (Some BEGINCODE, yy_push_state EC s)
  | EndOfCode =>
      let n := String.length yytext - 2 in
      let s := set_input (str_drop n yytext +:+ input s) s in
      s ← yy_pop_state s;
      Ret (Some (CPPCODE (c_str (str_take n yytext))), s)
  | CodeLine => Ret (None, set_more yytext (set_loc (lines 1) s))
  | CodeChar => Ret (None, set_more yytext s)
  | Invalid => Ret (None, count_error s)
  end.

(** One match: the text, [YY_USER_ACTION], the action. *)
Definition match_one (s : scanner) : outcome (option token * scanner) :=
  match next strtod (start s) (input s) with
  | None => Abort "flex scanner jammed"
  | Some (n, a) =>
      let yytext := more s +:+ str_take n (input s) in
      perform a yytext
        (set_loc (columns (Z.of_nat (String.length yytext)))
          (set_more "" (set_input (str_drop n (input s)) s)))
  end.

(** [yylex]: matches until an action returns; at the end of the input [yyterminate()]. *)
Fixpoint lex_loop (fuel : nat) (s : scanner) : outcome (token * scanner) :=
  match fuel with
  | O => NoFuel
  | S fuel =>
      if String.eqb (input s) "" then Ret (END, s)
      else
        '(t, s) ← match_one s;
        match t with Some t => Ret (t, s) | None => lex_loop fuel s end
  end.
Definition lex (fuel : nat) (s : scanner) : outcome (token * scanner) :=
  lex_loop fuel (set_loc step s).

(** The tokens of a text, up to and without [END]: the calls of a parser that does not switch
    the mode.  [OnDemand.v] has the parser that does, at regular expressions. *)
Definition is_end (t : token) : bool := match t with END => true | _ => false end.
Fixpoint tokens (fuel : nat) (s : scanner) : outcome (list token * scanner) :=
  match fuel with
  | O => NoFuel
  | S fuel =>
      '(t, s) ← lex (S (String.length (input s))) s;
      if is_end t then Ret ([], s)
      else '(ts, s) ← tokens fuel s; Ret (t :: ts, s)
  end.
Definition scan (text : string) (l : L) : outcome (list token * scanner) :=
  tokens (S (2 * String.length text)) (new_scanner text l).

End Lexer.
Arguments scanner : clear implicits.

End Lexer.
Import Lexer.

(** ** The driver *)

Module Driving.
Section Driver.
  (** Modules of the syntax tree, and the parser bison generates: it drives the scanner and
      changes the driver by the semantic actions, or an exception leaves it. *)
  Context {L Module_ : Type} (initial : L).

Record driver := mkDriver {
  stream_name_ : string;
  module_ : option Module_;
  errors_ : Z;
  includes_ : list string }.

Definition new_driver : driver := mkDriver "" None 0 [].
Definition set_module (m : Module_) (d : driver) : driver :=
  mkDriver (stream_name_ d) (Some m) (errors_ d) (includes_ d).
Definition include (filename : string) (d : driver) : driver :=
  mkDriver (stream_name_ d) (module_ d) (errors_ d) (includes_ d ++ [filename]).
Definition error (d : driver) : driver :=
  mkDriver (stream_name_ d) (module_ d) (errors_ d + 1) (includes_ d).
Definition module (d : driver) : outcome Module_ :=
  match module_ d with Some m => Ret m | None => Abort "assert(module_)" end.

Definition parse (parser : scanner L → driver → outcome driver) (text stream_name : string)
    (d : driver) : outcome (option Module_ * driver) :=
  let d := mkDriver stream_name (module_ d) (errors_ d) (includes_ d) in
  d ← parser (new_scanner text initial) d;
  if (0 <? errors_ d)%Z
  then Ret (None, mkDriver (stream_name_ d) (module_ d) 0 (includes_ d))
  else m ← module d; Ret (Some m, d).

End Driver.
End Driving.
