(* ===== verification/Scanning.v ===== *)
(** * What the scanner does with a text

    Of [Scanner.v]: every call of [yylex] ends ([lex_total]) and so does the scanning of a text
    ([scan_total]); a code block is the text up to its first [%}] ([lex_code]); and the texts of
    tokens, written one after the other with white space between them, are scanned as these
    tokens ([scan_written]). *)

From S2P Require Import Prelude Util Ident Ast Units Translate Regex Scanner.
Import Util.Chars Util.Strings Util.StringLemmas Util.Numbers Util.Escapes Regex.Regex Regex.Longest.
Import Scanner.Lexer.

(** ** Escape sequences end *)

(** What a call may do that neither aborts nor runs out of fuel. *)
Definition ends {A} (P : A → Prop) (o : outcome A) : Prop :=
  match o with Ret a => P a | Throw _ => True | Abort _ | NoFuel => False end.

Module EscapesEnd.

Lemma ends_impl {A} (P Q : A → Prop) o : (∀ a, P a → Q a) → ends P o → ends Q o.
Proof. destruct o; simpl; auto. Qed.

Lemma atoi_loop_ends wrap base k s n first :
  ends (λ r, String.length r.2 ≤ String.length s) (atoi_loop wrap base k s n first).
Proof.
  revert s n first. induction k as [|k IH]; intros s n first; cbn [atoi_loop]; [cbn; lia|].
  destruct (atoi_digit base (head_char s)) as [d|]; [|by destruct first; cbn; lia].
  eapply ends_impl; [|apply IH]. intros [[??] s']; cbn [snd]. rewrite length_drop. lia.
Qed.

Lemma atoi_n_ends wrap base k s :
  ends (λ r, String.length r.2 ≤ String.length s) (atoi_n wrap base k s).
Proof.
  unfold atoi_n. case_bool; [|apply atoi_loop_ends].
  pose proof (atoi_loop_ends wrap base (k - 1) (str_drop 1 s) 0 true) as H.
  destruct (atoi_loop _ _ _ _ _ _) as [[[??]?]| | |]; cbn [ends snd mbind outcome_bind] in H |- *; try done.
  rewrite length_drop in H. lia.
Qed.

Lemma expand_hex_ends wrap k enc s :
  ends (λ r, String.length r.2 ≤ String.length s) (expand_hex wrap k enc s).
Proof.
  unfold expand_hex. pose proof (atoi_n_ends wrap 16 k s) as H.
  destruct (atoi_n _ _ _ _) as [[[??]?]| | |]; cbn in H |- *; try done.
  case_bool; [done|]. by destruct (enc _).
Qed.

Lemma expand_one_ends s : ends (λ r, String.length r.2 ≤ String.length s) (expand_one s).
Proof.
  destruct s as [|c s]; [done|]. cbn [expand_one].
  repeat (case_bool; [first [by cbn; lia | eapply ends_impl; [|apply expand_hex_ends]; cbn; lia]|]).
  done.
Qed.

Lemma expand_loop_ends fuel s d : String.length s < fuel → ends (λ _, True) (expand_loop fuel s d).
Proof.
  revert s d. induction fuel as [|fuel IH]; intros s d Hf; [lia|]. cbn [expand_loop].
  destruct s as [|c s]; [done|]. cbn [String.length] in Hf.
  case_bool; [apply IH; lia|]. pose proof (expand_one_ends s) as H.
  destruct (expand_one s) as [[e s']| | |]; cbn in H |- *; try done. apply IH. lia.
Qed.

Lemma expandEscapes_ends s : ends (λ _, True) (expandEscapes s).
Proof. apply expand_loop_ends. lia. Qed.

End EscapesEnd.
Import EscapesEnd.

(** ** Every call of the scanner ends *)

Module Progress.

Lemma c_str_length s : String.length (c_str s) ≤ String.length s.
Proof. induction s as [|c s IH]; cbn; [done|]. case_bool; cbn; lia. Qed.

Lemma substr_ends pos less s : pos ≤ String.length (c_str s) → ends (λ _, True) (substr pos less s).
Proof. intros H. unfold substr. cbv zeta. destruct (_ <? pos) eqn:E; [|done]. bool_to_prop. lia. Qed.

Section Strtod.
  Context (strtod : string → double).

(** The rule that is selected, on the text it matches. *)
Lemma next_Some c s n a :
  next strtod c s = Some (n, a) →
  ∃ w rest r i, s = w +:+ rest ∧ n = String.length w ∧ rules strtod c !! i = Some (r, a) ∧
    chooses (rules strtod c).*1 w i.
Proof.
  unfold next. pose proof (select_match (rules strtod c).*1 s) as H.
  destruct (select _ s) as [[m i]|]; [|done]. cbn. destruct H as [(w & rest & -> & -> & C) _].
  destruct (rules strtod c !! i) as [[r b]|] eqn:E; [|done]. cbn. intros [= <- <-].
  by exists w, rest, r, i.
Qed.

Lemma default_rule_in c : default_rule ∈ rules strtod c.
Proof.
  destruct c; cbn [rules]; unfold initial_rules, re_rules, ec_rules;
    rewrite ?elem_of_app, ?elem_of_cons; tauto.
Qed.

Lemma next_progress c s : s ≠ "" → ∃ n a, next strtod c s = Some (n, a) ∧ 1 ≤ n ≤ String.length s.
Proof.
  intros Hs. unfold next. pose proof (select_match (rules strtod c).*1 s) as H.
  destruct s as [|d s]; [done|].
  assert (Hd : (default_rule).1 ∈ (rules strtod c).*1) by (apply list_elem_of_fmap_2, default_rule_in).
  assert (Hm : matches (default_rule).1 (String d "")) by (apply matches_chr; by exists d).
  destruct (select _ _) as [[m i]|]; cbn [longest_match] in H.
  - destruct H as [(w & rest & E & -> & [(r & Hr & _) _]) Hmax].
    rewrite list_lookup_fmap in Hr. apply fmap_Some in Hr as ([r' a] & Hr & _).
    cbn [mbind option_bind]. rewrite Hr. cbn [mbind option_bind]. exists (String.length w), a.
    split; [done|]. rewrite E, length_append. specialize (Hmax (String d "") s _ eq_refl Hd Hm).
    cbn in Hmax. lia.
  - by destruct (H (String d "") s _ eq_refl Hd Hm).
Qed.

(** What the actions of the rules of a start condition may be. *)
Definition action_of (c : cond) (r : re) (a : action) : Prop :=
  match a with
  | BeginCode => c = INITIAL
  | EndOfCode => c = EC ∧ r = lit "%}"
  | CodeLine | CodeChar => c = EC
  | Return f => c ≠ EC ∧ ∀ w, matches r w → ends (λ t, t ≠ END) (f w)
  | _ => True
  end.

Lemma string_head w : matches string_ w → ∃ w', w = String quote w'.
Proof.
  unfold string_. intros (t & u & -> & (c & Hc & ->)%matches_chr & _)%matches_seq.
  apply Ascii.eqb_eq in Hc as <-. by exists u.
Qed.

Lemma quoted_ends pos less w (f : string → token) :
  (∀ s, f s ≠ END) → pos ≤ String.length (c_str w) →
  ends (λ t, t ≠ END) (s ← substr pos less w; s ← expandEscapes s; Ret (f s)).
Proof.
  intros Hf H. pose proof (substr_ends pos less w H) as H1.
  destruct (substr pos less w) as [s| | |]; try done. cbn [mbind outcome_bind].
  pose proof (expandEscapes_ends s) as H2. destruct (expandEscapes s); [apply Hf|done..].
Qed.

Lemma action_ok c : Forall (λ r, action_of c r.1 r.2) (rules strtod c).
Proof.
  assert (Hf : ∀ l, Forall (λ p, p.2 ≠ END) l → Forall (λ r, action_of INITIAL r.1 r.2) (map fixed l)).
  { intros l Hl. apply list.Forall_forall. intros r (p & -> & Hp)%list_elem_of_fmap.
    rewrite list.Forall_forall in Hl. split; [done|]. intros w _. by apply Hl. }
  destruct c; cbn [rules].
  - unfold initial_rules. rewrite !list.Forall_app, !list.Forall_cons. cbn [action_of fst snd].
    split_and!; try done; try (apply Hf; by repeat constructor). unfold value_rules.
    repeat (constructor; [|]); try done; cbn [action_of fst snd sval yytext0];
      try done; intros w Hw; (apply quoted_ends; [done|]).
    + apply string_head in Hw as [w' ->]. cbn. lia.
    + apply matches_seq in Hw as (t & u & -> & ->%matches_lit & [u' ->]%string_head). change (2 ≤ S (S (String.length (c_str u')))). lia.
  - repeat constructor; cbn; done.
  - repeat constructor; cbn; done.
Qed.

End Strtod.

Section Lex.
  Context {L : Type} `{!Locations L} (strtod : string → double).

(** Code blocks are not nested, the state below one is kept, and only code is kept by
    [yymore]. *)
Definition wf (s : scanner L) : Prop :=
  (EC ∉ stack s) ∧ (start s = EC → stack s ≠ []) ∧ (start s ≠ EC → more s = "").

(** Text put back is at the end of a code block, whose start condition is left. *)
Definition measure (s : scanner L) : nat :=
  2 * String.length (input s) + (if start s is EC then 1 else 0).

Lemma match_one_ends s :
  wf s → input s ≠ "" →
  ends (λ r, wf r.2 ∧ measure r.2 < measure s ∧ r.1 ≠ Some END ∧
             (r.1 = None → String.length (input r.2) < String.length (input s)))
    (match_one strtod s).
Proof.
  intros (W1 & W2 & W3) Hi. unfold match_one.
  destruct (next_progress strtod (start s) (input s) Hi) as (n & a & En & Hn). rewrite En. cbv zeta.
  apply next_Some in En as (w & rest & r & i & Es & -> & Hr & [(r' & Hr' & Hm) _]).
  rewrite list_lookup_fmap, Hr in Hr'. cbn in Hr'. injection Hr' as <-.
  pose proof (proj1 (list.Forall_forall _ _) (action_ok strtod (start s)) _
    (list_elem_of_lookup_2 _ _ _ Hr)) as Ha. cbn [fst snd] in Ha.
  rewrite Es, take_app_length, drop_app_length.
  pose proof (length_append w rest) as Hl. rewrite Es, Hl in Hn. clear Hi.
  unfold measure, wf. rewrite Es, Hl. destruct a; cbn -[String.append Nat.mul]; cbn [action_of] in Ha.
  all: try (split; [split_and!; done|]; split; [|split; [done|intros _; lia]]; destruct (start s); lia).
  - destruct Ha as [Hc Hf]. rewrite W3 by done. change ("" +:+ w) with w.
    specialize (Hf w Hm). destruct (f w) as [t| | |]; cbn -[Nat.mul] in Hf |- *; [|done..].
    split; [split_and!; done|]. split; [destruct (start s); lia|]. split; [|done]. by intros [= ->].
  - rewrite Ha. split; [split_and!; [by set_solver|done|done]|]. split; [lia|done].
  - destruct Ha as [Hc ->]. apply matches_lit in Hm as ->. rewrite Hc.
    unfold yy_pop_state. cbn -[Nat.mul String.append].
    destruct (stack s) as [|c st]; [by destruct W2|].
    replace (String.length (more s +:+ "%}") - 2)%nat with (String.length (more s))
      by (rewrite length_append; cbn; lia).
    rewrite drop_app_length. cbn -[Nat.mul String.append].
    split; [split_and!; [by set_solver| |done]|].
    + intros ->. destruct W1. by left.
    + split; [|done]. assert (c ≠ EC) by (intros ->; destruct W1; by left).
      rewrite length_append. cbn -[Nat.mul]. destruct c; [lia|lia|done].
Qed.

(** A call of [yylex] returns a token or an exception of [expandEscapes]; after a token that
    does not end the text there is less to do. *)
Lemma lex_loop_ends fuel s :
  wf s → String.length (input s) < fuel →
  ends (λ r, wf r.2 ∧ (r.1 = END ∧ input r.2 = "" ∨ r.1 ≠ END ∧ measure r.2 < measure s)) (lex_loop strtod fuel s).
Proof.
  revert s. induction fuel as [|fuel IH]; intros s Hw Hf; [lia|]. cbn [lex_loop].
  destruct (String.eqb_spec (input s) "") as [E|E]; [cbn; eauto|].
  pose proof (match_one_ends s Hw E) as H.
  destruct (match_one strtod s) as [[[t|] s']| | |]; cbn [ends mbind outcome_bind fst snd] in H |- *; try done.
  - destruct H as (? & ? & Ht & _). split; [done|]. right. split; [congruence|done].
  - destruct H as (? & ? & _ & Hl). specialize (Hl eq_refl).
    eapply ends_impl; [|apply (IH s'); [done|lia]]. intros r [? [?|[??]]]; (split; [done|]); [by left|right; split; [done|lia]].
Qed.

Lemma lex_ends s :
  wf s →
  ends (λ r, wf r.2 ∧ (r.1 = END ∧ input r.2 = "" ∨ r.1 ≠ END ∧ measure r.2 < measure s))
    (lex strtod (S (String.length (input s))) s).
Proof. intros Hw. apply (lex_loop_ends _ (set_loc step s)); [done|]. cbn. lia. Qed.

Lemma tokens_ends fuel s :
  wf s → measure s < fuel → ends (λ r, input r.2 = "") (tokens strtod fuel s).
Proof.
  revert s. induction fuel as [|fuel IH]; intros s Hw Hf; [lia|]. cbn [tokens].
  pose proof (lex_ends s Hw) as H.
  destruct (lex _ _ s) as [[t s']| | |]; cbn [ends mbind outcome_bind fst snd] in H |- *; try done.
  destruct H as [Hw' [[-> Hi]|[Ht H]]]; [done|].
  replace (is_end t) with false by (by destruct t).
  specialize (IH s' Hw' ltac:(lia)). by destruct (tokens _ _ s') as [[??]| | |].
Qed.

End Lex.
End Progress.
Import Progress.

(** ** Patterns that cannot match the same text

    Sufficient conditions, computed from the patterns: [disjoint] for no common word, [no_ext]
    for no word of the one that extends a word of the other by a character of white space. *)

Module Overlap.

Definition all_chars : list ascii := ascii_of_nat <$> List.seq 0 256.
Lemma all_chars_in c : In c all_chars.
Proof.
  apply list_elem_of_In, list_elem_of_fmap. exists (nat_of_ascii c).
  rewrite ascii_nat_embedding. split; [done|]. apply elem_of_seq.
  pose proof (nat_ascii_bounded c). lia.
Qed.

(** [forallb] and [existsb] that stop at the first answer, which matters for [vm_compute]. *)
Fixpoint all_of {A} (f : A → bool) (l : list A) : bool :=
  match l with [] => true | x :: l => if f x then all_of f l else false end.
Fixpoint one_of {A} (f : A → bool) (l : list A) : bool :=
  match l with [] => false | x :: l => if f x then true else one_of f l end.
Lemma all_of_spec {A} (f : A → bool) l : all_of f l = forallb f l.
Proof. induction l as [|x l IH]; [done|]. cbn. rewrite IH. by destruct (f x). Qed.
Lemma one_of_spec {A} (f : A → bool) l : one_of f l = existsb f l.
Proof. induction l as [|x l IH]; [done|]. cbn. rewrite IH. by destruct (f x). Qed.

Definition white : list ascii := [" "%char; tab; newline].

(** The characters in the words of a pattern, and those in each of its words. *)
Fixpoint can (r : re) (c : ascii) : bool :=
  match r with
  | Nothing | Empty => false
  | Chr p => p c
  | Seq a b | Or a b => can a c || can b c
  | Star a => can a c
  end.
Fixpoint must (r : re) (c : ascii) : bool :=
  match r with
  | Nothing => true
  | Empty | Star _ => false
  | Chr p => if p c then all_of (λ d, if p d then Ascii.eqb d c else true) all_chars else false
  | Seq a b => must a c || must b c
  | Or a b => must a c && must b c
  end.
Definition starts (r : re) (c : ascii) : bool := negb (is_nothing (deriv c r)).
Definition apart (a b : re) : bool :=
  all_of (λ c, if starts a c then negb (starts b c) else true) all_chars.

Fixpoint occurs (c : ascii) (s : string) : Prop :=
  match s with EmptyString => False | String d s => d = c ∨ occurs c s end.

Lemma occurs_app c s t : occurs c (s +:+ t) ↔ occurs c s ∨ occurs c t.
Proof. induction s as [|d s IH]; simpl; [tauto|]. rewrite IH. tauto. Qed.

Lemma can_spec r c s : matches r s → occurs c s → can r c = true.
Proof.
  induction 1 as [|p d Hp|a b s t _ IHa _ IHb|a b s _ IH|a b s _ IH|a|a s t _ IHa _ IHs]; simpl.
  - done.
  - by intros [<-|[]].
  - rewrite occurs_app, orb_true_iff. intuition.
  - rewrite orb_true_iff. intuition.
  - rewrite orb_true_iff. intuition.
  - done.
  - rewrite occurs_app. simpl in IHs. intuition.
Qed.

Lemma must_spec r c s : matches r s → must r c = true → occurs c s.
Proof.
  induction 1 as [|p d Hp|a b s t _ IHa _ IHb|a b s _ IH|a b s _ IH|a|a s t _ IHa _ IHs];
    cbn [must]; try done.
  - destruct (p c); [|done]. rewrite all_of_spec, forallb_forall. intros H.
    specialize (H d (all_chars_in d)). rewrite Hp in H. apply Ascii.eqb_eq in H. by left.
  - rewrite occurs_app, orb_true_iff. intuition.
  - rewrite andb_true_iff. intuition.
  - rewrite andb_true_iff. intuition.
Qed.

Lemma starts_spec r c s : matches r (String c s) → starts r c = true.
Proof.
  rewrite <- deriv_spec. unfold starts. destruct (deriv c r); try done. by intros ?%matches_nothing.
Qed.

Lemma apart_spec a b c s t : apart a b = true → matches a (String c s) → matches b (String c t) → False.
Proof.
  unfold apart. rewrite all_of_spec, forallb_forall. intros H Ha%starts_spec Hb%starts_spec.
  specialize (H c (all_chars_in c)). by rewrite Ha, Hb in H.
Qed.

(** The conditions, looking at up to [k] characters first. *)
Definition disjoint0 (a b : re) : bool :=
  if is_nothing a || is_nothing b then true
  else if (if nullable a && nullable b then false else apart a b) then true
  else one_of (λ c, if can b c then (if can a c then false else must b c) else must a c) all_chars.
Fixpoint disjoint (k : nat) (a b : re) : bool :=
  if disjoint0 a b then true else
  match k with
  | O => false
  | S k =>
      if nullable a && nullable b then false
      else all_of (λ c, disjoint k (deriv c a) (deriv c b)) all_chars
  end.

(** [r] has no word [w ++ c ++ _] with [w] in [b] and [c] white. *)
Definition no_ext0 (r b : re) : bool :=
  if is_nothing r || is_nothing b then true
  else if all_of (λ c, negb (can r c)) white then true
  else if nullable b then false else apart r b.
Fixpoint no_ext (k : nat) (r b : re) : bool :=
  if no_ext0 r b then true else
  match k with
  | O => false
  | S k =>
      if (if nullable b then all_of (λ c, is_nothing (deriv c r)) white else true)
      then all_of (λ c, no_ext k (deriv c r) (deriv c b)) all_chars else false
  end.

Lemma disjoint0_spec a b s : disjoint0 a b = true → matches a s → matches b s → False.
Proof.
  unfold disjoint0. intros H Ha Hb. destruct (is_nothing a || is_nothing b) eqn:E.
  { apply orb_prop in E as [E|E]; apply is_nothing_spec in E; subst; by eapply matches_nothing. }
  clear E. destruct (if nullable a && nullable b then false else apart a b) eqn:E.
  - destruct s as [|c s].
    + apply nullable_spec in Ha, Hb. by rewrite Ha, Hb in E.
    + destruct (_ && _); [done|]. by eapply apart_spec.
  - rewrite one_of_spec in H. apply existsb_exists in H as (c & _ & H).
    destruct (can b c) eqn:Eb; [destruct (can a c) eqn:Ea; [done|]|].
    + eapply must_spec in H; [|done]. eapply can_spec in H; [|exact Ha]. congruence.
    + eapply must_spec in H; [|done]. eapply can_spec in H; [|exact Hb]. congruence.
Qed.

Lemma disjoint_spec k a b s : disjoint k a b = true → matches a s → matches b s → False.
Proof.
  revert a b s. induction k as [|k IH]; intros a b s; cbn [disjoint];
    destruct (disjoint0 a b) eqn:E; try (intros _; by apply disjoint0_spec); [done|].
  destruct (nullable a && nullable b) eqn:En; [done|]. rewrite all_of_spec, forallb_forall.
  intros H Ha Hb. destruct s as [|c s].
  - apply nullable_spec in Ha, Hb. by rewrite Ha, Hb in En.
  - apply (IH _ _ s (H c (all_chars_in c))); by apply deriv_spec.
Qed.

Lemma no_ext0_spec r b w c x :
  no_ext0 r b = true → c ∈ white → matches b w → matches r (w +:+ String c x) → False.
Proof.
  unfold no_ext0. intros H Hc Hb Hr. destruct (is_nothing r || is_nothing b) eqn:E.
  { apply orb_prop in E as [E|E]; apply is_nothing_spec in E; subst; by eapply matches_nothing. }
  clear E. destruct (all_of _ white) eqn:E.
  - rewrite all_of_spec, forallb_forall in E. apply list_elem_of_In in Hc. specialize (E c Hc).
    rewrite (can_spec r c _ Hr) in E; [done|]. apply occurs_app. right. by left.
  - destruct (nullable b) eqn:En; [done|]. destruct w as [|d w].
    + apply nullable_spec in Hb. congruence.
    + by apply (apart_spec r b d (w +:+ String c x) w).
Qed.

Lemma no_ext_spec k r b w c x :
  no_ext k r b = true → c ∈ white → matches b w → matches r (w +:+ String c x) → False.
Proof.
  intros H Hc. revert r b w H. induction k as [|k IH]; intros r b w; cbn [no_ext];
    destruct (no_ext0 r b) eqn:E; try (intros _; by apply no_ext0_spec); [done|].
  destruct (if nullable b then _ else true) eqn:En; [|done]. rewrite all_of_spec, forallb_forall.
  intros H Hb Hr. destruct w as [|d w].
  - apply nullable_spec in Hb. rewrite Hb, all_of_spec, forallb_forall in En.
    apply list_elem_of_In in Hc. specialize (En c Hc). apply is_nothing_spec in En.
    change ("" +:+ String c x) with (String c x) in Hr.
    apply deriv_spec in Hr. rewrite En in Hr. by apply matches_nothing in Hr.
  - apply (IH _ _ w (H d (all_chars_in d))); by apply deriv_spec.
Qed.

End Overlap.
Import Overlap.

(** ** Which rule takes a text *)

Module Taking.

Section Select.
  Context (rs : list re).

(** No pattern has a word that goes on after [w] with white space. *)
Definition stops (w : string) : Prop :=
  ∀ r c x, r ∈ rs → c ∈ white → ¬ matches r (w +:+ String c x).

Lemma prefix_longer w rest w' rest' :
  w +:+ rest = w' +:+ rest' → String.length w < String.length w' →
  ∃ c y, rest = String c (y +:+ rest') ∧ w' = w +:+ String c y.
Proof.
  revert w'. induction w as [|d w IH]; intros [|d' w'] E Hl; simpl in Hl; try lia.
  - by exists d', w'.
  - cbn [String.append] in E. injection E as <- E.
    destruct (IH w' E ltac:(lia)) as (c & y & -> & ->). by exists c, y.
Qed.

Lemma select_stops w c x i :
  chooses rs w i → stops w → c ∈ white →
  select rs (w +:+ String c x) = Some (String.length w, i).
Proof.
  intros C S Hc. apply select_unique. split; [by exists w, (String c x)|].
  intros w' rest' r E Hr Hm. destruct (decide (String.length w' ≤ String.length w)); [done|].
  destruct (prefix_longer _ _ _ _ E ltac:(lia)) as (c' & y & [= <- ->] & ->).
  by destruct (S r c y Hr Hc).
Qed.

Lemma chooses_derivs w i : chooses (derivs w <$> rs) "" i → chooses rs w i.
Proof.
  revert rs. induction w as [|c w IH]; intros rs'.
  - unfold chooses. setoid_rewrite list_lookup_fmap. intros [(r & Hr & Hm) H]. split.
    + apply fmap_Some in Hr as (r' & ? & ->). by exists r'.
    + intros j r' Hj Hr'. apply (H j r' Hj). by rewrite Hr'.
  - intros H. apply chooses_deriv, IH. by rewrite <- list_fmap_compose.
Qed.

(** Both conditions, evaluated on a text. *)
Definition settles (w : string) (i : nat) : bool :=
  bool_decide (first_nullable (derivs w <$> rs) = Some i) &&
  forallb (λ c, forallb (λ r, is_nothing (deriv c (derivs w r))) rs) white.

Lemma settles_spec w i : settles w i = true → chooses rs w i ∧ stops w.
Proof.
  intros [H1%bool_decide_eq_true H2]%andb_prop. split.
  - apply chooses_derivs. pose proof (first_nullable_spec (derivs w <$> rs)) as H. by rewrite H1 in H.
  - intros r c x Hr Hc Hm. rewrite forallb_forall in H2.
    apply list_elem_of_In in Hc, Hr. specialize (H2 c Hc). rewrite forallb_forall in H2.
    specialize (H2 r Hr). apply is_nothing_spec in H2.
    rewrite <- derivs_spec, <- deriv_spec, H2 in Hm. by apply matches_nothing in Hm.
Qed.

(** Both conditions for the words of a pattern. *)
Lemma before_spec i r w :
  rs !! i = Some r → matches r w → Forall (λ r', ¬ matches r' w) (take i rs) → chooses rs w i.
Proof.
  intros Hr Hm Hb. split; [by exists r|]. intros j r' Hj Hr'. rewrite list.Forall_forall in Hb.
  apply Hb. apply list_elem_of_lookup_2 with j. by rewrite lookup_take_lt.
Qed.

Lemma disjoint_Forall k l r w :
  forallb (λ r', disjoint k r' r) l = true → matches r w → Forall (λ r', ¬ matches r' w) l.
Proof.
  intros H Hm. apply list.Forall_forall. intros r' Hr' Hm'. rewrite forallb_forall in H.
  apply list_elem_of_In in Hr'. by apply (disjoint_spec k r' r w (H r' Hr')).
Qed.

Lemma no_ext_stops k l r w :
  forallb (λ r', no_ext k r' r) l = true → matches r w →
  ∀ r' c x, r' ∈ l → c ∈ white → ¬ matches r' (w +:+ String c x).
Proof.
  intros H Hm r' c x Hr' Hc Hx. rewrite forallb_forall in H. apply list_elem_of_In in Hr'.
  by apply (no_ext_spec k r' r w c x (H r' Hr')).
Qed.

End Select.

End Taking.
Import Taking.

(** ** Strings *)

Module Quoting.

(** What is left of [string_] within a string, and after a backslash. *)
Definition inside : re := Seq (escaped quote) (Chr (Ascii.eqb quote)).
Definition after_backslash : re :=
  Seq (Seq (Chr not_newline) (escaped quote)) (Chr (Ascii.eqb quote)).

Lemma deriv_quote : deriv quote string_ = inside.
Proof. reflexivity. Qed.

Lemma deriv_block p n q e c :
  p c = false → q c = true → e c = false →
  let r := Seq (Star (Or (Seq (Chr p) (Chr n)) (Chr q))) (Chr e) in deriv c r = r.
Proof. intros Hp Hq He r. unfold r. cbn [deriv nullable]. by rewrite Hp, Hq, He. Qed.

Lemma deriv_inside c :
  deriv c inside =
  if Ascii.eqb quote c then Empty else if Ascii.eqb "\" c then after_backslash else inside.
Proof.
  destruct (Ascii.eqb_spec quote c) as [<-|H1]; [done|].
  destruct (Ascii.eqb_spec "\" c) as [<-|H2]; [done|].
  apply deriv_block; [by apply Ascii.eqb_neq| |by apply Ascii.eqb_neq].
  apply not_eq_sym, Ascii.eqb_neq in H1, H2. by rewrite H1, H2.
Qed.

Lemma deriv_after c : deriv c after_backslash = if not_newline c then inside else Nothing.
Proof. unfold after_backslash. cbn [deriv nullable]. by destruct (not_newline c). Qed.

Lemma derivs_cons c s r : derivs (String c s) r = derivs s (deriv c r).
Proof. reflexivity. Qed.

(** A string ends at its quote. *)
Lemma inside_ends w :
  (nullable (derivs w inside) = true → derivs w inside = Empty) ∧
  (nullable (derivs w after_backslash) = true → derivs w after_backslash = Empty).
Proof.
  assert (He : ∀ w, nullable (derivs w Empty) = true → derivs w Empty = Empty).
  { intros [|c w']; [done|]. rewrite derivs_cons. cbn [deriv]. by rewrite derivs_nothing. }
  induction w as [|c w [IH1 IH2]]; [done|].
  rewrite !derivs_cons, deriv_inside, deriv_after. split.
  - repeat case_bool; auto.
  - case_bool; [auto|]. by rewrite derivs_nothing.
Qed.

Lemma string_prefix w x : matches string_ w → matches string_ (w +:+ x) → x = "".
Proof.
  intros Hw Hx. destruct (string_head w Hw) as [w' ->].
  rewrite <- deriv_spec, deriv_quote, <- accepts_spec in Hw.
  change (String quote w' +:+ x) with (String quote (w' +:+ x)) in Hx.
  rewrite <- deriv_spec, deriv_quote, <- derivs_spec in Hx.
  rewrite (proj1 (inside_ends w') Hw) in Hx. by apply matches_empty.
Qed.

Lemma derivs_app s t r : derivs (s +:+ t) r = derivs t (derivs s r).
Proof. revert r. induction s as [|c s IH]; intros r; [done|]. apply IH. Qed.

Lemma derivs_escape_byte c : derivs (escape_byte c) inside = inside.
Proof. by destruct c as [[] [] [] [] [] [] [] []]. Qed.

Definition quoted (s : string) : string := String quote (s +:+ String quote "").

Lemma matches_escaped s : matches string_ (quoted (escapeBytes s)).
Proof.
  unfold quoted. rewrite <- deriv_spec, deriv_quote, <- accepts_spec. unfold accepts.
  rewrite derivs_app. replace (derivs (escapeBytes s) inside) with inside; [done|].
  induction s as [|c s IH]; [done|]. cbn [escapeBytes].
  by rewrite derivs_app, derivs_escape_byte.
Qed.

Lemma c_str_app s t : c_str s = s → c_str (s +:+ t) = s +:+ c_str t.
Proof.
  induction s as [|c s IH]; [done|]. rewrite append_cons. cbn [c_str].
  case_bool; [done|]. intros [= E]. by rewrite IH.
Qed.

Lemma c_str_escaped s : c_str (escapeBytes s) = escapeBytes s.
Proof.
  induction s as [|c s IH]; [done|]. cbn [escapeBytes].
  rewrite c_str_app by (by destruct c as [[] [] [] [] [] [] [] []]). by rewrite IH.
Qed.

Lemma c_str_quoted s : c_str (quoted (escapeBytes s)) = quoted (escapeBytes s).
Proof.
  unfold quoted. change (c_str (String quote ?t)) with (String quote (c_str t)).
  by rewrite c_str_app by apply c_str_escaped.
Qed.

Lemma expand_escaped s : expandEscapes (escapeBytes s) = Ret s.
Proof. unfold expandEscapes. rewrite EscapeLemmas.expand_escapeBytes; [done|].
  pose proof (EscapeLemmas.length_escapeBytes s). lia. Qed.

(** The text of a string, and of bytes, is read back. *)
Lemma substr_quoted p s :
  c_str p = p →
  substr (S (String.length p)) (S (S (String.length p))) (p +:+ quoted (escapeBytes s)) =
  Ret (escapeBytes s).
Proof.
  intros Hp. unfold substr. rewrite c_str_app, c_str_quoted by done. cbv zeta.
  unfold quoted. rewrite length_append. cbn [String.length]. rewrite length_append. cbn [String.length].
  replace (_ <? _) with false by (symmetry; apply Nat.ltb_ge; lia).
  replace (_ <? _) with false by (symmetry; apply Nat.ltb_ge; lia).
  replace (S (String.length p)) with (String.length p + 1)%nat by lia. rewrite drop_add, drop_app_length.
  change (str_drop 1 (String quote ?t)) with (str_drop 0 t).
  replace (_ - _)%nat with (String.length (escapeBytes s)) by lia.
  cbn [str_drop]. f_equal. destruct (escapeBytes s +:+ String quote "") eqn:E; rewrite <- E; apply take_app_length.
Qed.

End Quoting.
Import Quoting.

(** ** The texts of tokens *)

Module Written.
Section Written.
  Context (strtod : string → double).

Definition fixed_tokens : list (string * token) := keywords ++ operators1 ++ operators2 ++ literals.
(** The words that are no identifiers. *)
Definition reserved : list string := (keywords ++ literals).*1.

(** [written t w]: [w] is a text of the token [t]; of [BEGINCODE], which changes the start
    condition, there is none. *)
Inductive written : token → string → Prop :=
  | W_fixed w t : (w, t) ∈ fixed_tokens → written t w
  | W_char c : occurs c punctuation → written (CHAR c) (String c "")
  | W_ident w : matches id w → w ∉ reserved → written (IDENT w) w
  | W_scoped w : matches (Seq id (plus (Seq (lit "::") id))) w → written (SCOPED_IDENT w) w
  | W_path w : matches (Seq id (plus (Seq (lit "/") id))) w → written (PATH_IDENT w) w
  | W_dollar w : matches id w → written (DOLLAR_IDENT w) (String "$" w)
  | W_attribute w : matches attribute w → written (ATTRIBUTE w) w
  | W_property w : matches property w → written (PROPERTY w) w
  | W_double w : matches double_ w → written (CDOUBLE (strtod w)) w
  | W_integer z : (- 2 ^ 63 ≤ z < 2 ^ 63)%Z → written (CINTEGER z) (pretty z)
  | W_string s : written (CSTRING s) (quoted (escapeBytes s))
  | W_bytes s : written (CBYTES s) (String "b" (quoted (escapeBytes s))).

(** What the scanner needs of a text of a token. *)
Definition patterns : list re := (initial_rules strtod).*1.
Definition front : nat := 70.

Record taken (t : token) (w : string) : Prop := {
  taken_next : ∀ c x, c ∈ white →
    ∃ f, next strtod INITIAL (w +:+ String c x) = Some (String.length w, Return f) ∧ f w = Ret t;
  taken_head : ∃ c w', w = String c w' ∧ c ∉ "#"%char :: white }.

Lemma taken_intro i r f t w :
  initial_rules strtod !! i = Some (r, Return f) → f w = Ret t →
  chooses patterns w i → stops patterns w →
  (∃ c w', w = String c w' ∧ c ∉ "#"%char :: white) → taken t w.
Proof.
  intros Hi Hf C S Hh. split; [|done]. intros c x Hc. exists f. split; [|done].
  unfold next. cbn [rules]. change ((initial_rules strtod).*1) with patterns.
  rewrite (select_stops patterns w c x i C S Hc). cbn [mbind option_bind]. by rewrite Hi.
Qed.

(** *** Texts without a value *)

Definition head_ok (w : string) : bool :=
  match w with String c _ => negb (existsb (Ascii.eqb c) ("#"%char :: white)) | "" => false end.
Lemma head_ok_spec w : head_ok w = true → ∃ c w', w = String c w' ∧ c ∉ "#"%char :: white.
Proof using.
  destruct w as [|c w]; [done|]. cbn [head_ok]. intros H%negb_true_iff. exists c, w.
  split; [done|]. intros Hc%list_elem_of_In. apply not_true_iff_false in H. apply H.
  apply existsb_exists. exists c. split; [done|]. apply Ascii.eqb_refl.
Qed.

(** The rule that takes a text, found by evaluation. *)
Definition rule_of (w : string) : nat := default O (first_nullable (derivs w <$> patterns)).
Lemma settled_taken t w r f :
  initial_rules strtod !! rule_of w = Some (r, Return f) → f w = Ret t →
  settles patterns w (rule_of w) && head_ok w = true → taken t w.
Proof.
  intros Hi Hf [[C S]%settles_spec H]%andb_prop. eapply taken_intro; try done. by apply head_ok_spec.
Qed.

(** The rules of the fixed tokens, in their order. *)
Definition fixed_rules : list nat := List.seq 3 47 ++ List.seq 51 19.

Lemma fixed_taken p : p ∈ fixed_tokens → taken p.2 p.1.
Proof.
  assert (H1 : forallb (λ p, settles patterns p.1 (rule_of p.1) && head_ok p.1) fixed_tokens = true)
    by (vm_compute; reflexivity).
  assert (H2 : rule_of <$> fixed_tokens.*1 = fixed_rules) by (vm_compute; reflexivity).
  assert (H3 : (λ i, initial_rules strtod !! i) <$> fixed_rules = Some ∘ fixed <$> fixed_tokens)
    by reflexivity.
  intros Hp. rewrite forallb_forall in H1. apply (settled_taken p.2 p.1 (lit p.1) (λ _, Ret p.2)).
  - rewrite <- H2, <- !list_fmap_compose in H3. apply list_elem_of_lookup_1 in Hp as [k Hk].
    apply (f_equal (λ l, l !! k)) in H3. rewrite !list_lookup_fmap, Hk in H3. by injection H3.
  - done.
  - apply H1. by apply list_elem_of_In.
Qed.

Lemma char_taken c : occurs c punctuation → taken (CHAR c) (String c "").
Proof.
  assert (H : forallb (λ c, let w := String c "" in
    (rule_of w =? front + 11) && (settles patterns w (rule_of w) && head_ok w))
    (Strings.String.list_ascii_of_string punctuation) = true) by (vm_compute; reflexivity).
  intros Hc. rewrite forallb_forall in H. specialize (H c). cbv zeta in H.
  assert (Hin : In c (Strings.String.list_ascii_of_string punctuation)) by (cbn in Hc |- *; intuition).
  apply H, andb_prop in Hin as [Hr%Nat.eqb_eq Hs].
  apply (settled_taken _ _ (any_of punctuation) (λ yytext, Ret (CHAR (first_char yytext)))); [|done..].
  by rewrite Hr.
Qed.

(** *** Texts with a value *)

Lemma c_str_free r w : matches r w → can r "000" = false → c_str w = w.
Proof using.
  intros Hm Hr.
  assert (Hn : ¬ occurs "000" w).
  { intros Ho. pose proof (can_spec r _ w Hm Ho). congruence. }
  clear Hm. induction w as [|c w IH]; [done|]. cbn [c_str occurs] in Hn |- *.
  destruct (Ascii.eqb_spec c "000") as [->|_]; [by destruct Hn; left|].
  rewrite IH; [done|]. intros Ho. apply Hn. by right.
Qed.

Definition begins (r : re) : bool :=
  negb (nullable r) && forallb (λ c, negb (starts r c)) ("#"%char :: white).
Lemma begins_spec r w :
  begins r = true → matches r w → ∃ c w', w = String c w' ∧ c ∉ "#"%char :: white.
Proof using.
  intros [H1 H2]%andb_prop Hm. destruct w as [|c w].
  - apply nullable_spec in Hm. by rewrite Hm in H1.
  - exists c, w. split; [done|]. intros Hc%list_elem_of_In. rewrite forallb_forall in H2.
    specialize (H2 c Hc). apply starts_spec in Hm. by rewrite Hm in H2.
Qed.

Lemma value_taken k r f w t :
  value_rules strtod !! k = Some (r, Return f) → f w = Ret t → matches r w → begins r = true →
  Forall (λ r', ¬ matches r' w) (take (front + k) patterns) → stops patterns w →
  taken t w.
Proof.
  intros Hk Hf Hm Hb H1 H2.
  assert (Hi : initial_rules strtod !! (front + k)%nat = Some (r, Return f)).
  { change (initial_rules strtod) with
      (take front (initial_rules strtod) ++ value_rules strtod ++ drop 82 (initial_rules strtod)).
    rewrite lookup_app_r; change (length (take front (initial_rules strtod))) with front; [|lia].
    replace (front + k - front)%nat with k by lia.
    rewrite lookup_app_l; [done|]. by eapply lookup_lt_Some. }
  apply (taken_intro (front + k) r f); try done; [|by apply (begins_spec r)].
  apply (before_spec _ _ r); [|done..]. unfold patterns. by rewrite list_lookup_fmap, Hi.
Qed.

(** Of most patterns the conditions hold whatever the word. *)
Definition separate (k : nat) (r : re) : bool :=
  begins r && forallb (λ r', disjoint 2 r' r) (take (front + k) patterns) &&
  forallb (λ r', no_ext 2 r' r) patterns.
Lemma separate_taken k r f w t :
  separate k r = true → value_rules strtod !! k = Some (r, Return f) → matches r w →
  f w = Ret t → taken t w.
Proof.
  intros [[H1 H2]%andb_prop H3]%andb_prop Hk Hm Hf.
  apply (value_taken k r f w t); try done; [by eapply disjoint_Forall|].
  intros r' c x Hr Hc. by eapply no_ext_stops.
Qed.

(** A word is an identifier unless it is a reserved one. *)
Lemma ident_taken w : matches id w → w ∉ reserved → taken (IDENT w) w.
Proof.
  intros Hm Hw. apply (value_taken 8 id (λ yytext, Ret (IDENT (c_str yytext)))); try done.
  - by rewrite (c_str_free _ w Hm eq_refl).
  - change (take (front + 8) patterns) with
      (take 3 patterns ++ (lit <$> keywords.*1) ++ (take 19 (drop 48 patterns)) ++
       (lit <$> literals.*1) ++ take 8 (drop 70 patterns)).
    assert (Hlit : ∀ l, (∀ x, x ∈ l → x ∈ reserved) → Forall (λ r', ¬ matches r' w) (lit <$> l)).
    { intros l Hl. apply list.Forall_forall. intros r' (x & -> & Hx)%list_elem_of_fmap ->%matches_lit.
      by apply Hw, Hl. }
    assert (Hdis : ∀ l, forallb (λ r', disjoint 2 r' id) l = true → Forall (λ r', ¬ matches r' w) l).
    { intros l Hl. by eapply disjoint_Forall. }
    rewrite !list.Forall_app. unfold reserved in Hlit. setoid_rewrite fmap_app in Hlit.
    split_and!; [apply Hdis|apply Hlit|apply Hdis|apply Hlit|apply Hdis];
      try (vm_compute; reflexivity); intros x Hx; apply elem_of_app; auto.
  - intros r' c x Hr Hc. by eapply (no_ext_stops 2 patterns id).
Qed.

(** Strings and bytes end at their quote. *)
Lemma stops_except k r w :
  patterns !! k = Some r → matches r w → (∀ x, matches r (w +:+ x) → x = "") →
  forallb (λ r', no_ext 2 r' r) (take k patterns ++ drop (S k) patterns) = true → stops patterns w.
Proof.
  intros Hk Hm Hx Hl r' c x Hr Hc Hm'.
  rewrite <- (take_drop_middle patterns k r Hk) in Hr.
  apply elem_of_app in Hr as [Hr|[->|Hr]%elem_of_cons].
  - eapply (no_ext_stops 2 _ r w Hl Hm r' c x); [|done..]. apply elem_of_app. by left.
  - by apply Hx in Hm'.
  - eapply (no_ext_stops 2 _ r w Hl Hm r' c x); [|done..]. apply elem_of_app. by right.
Qed.

Lemma string_taken s : taken (CSTRING s) (quoted (escapeBytes s)).
Proof.
  pose proof (matches_escaped s) as Hm.
  eapply (value_taken 5 string_); [reflexivity| |done|by vm_compute|..].
  - cbn beta. rewrite (substr_quoted "" s eq_refl : substr 1 2 (quoted (escapeBytes s)) = _).
    cbn [mbind outcome_bind]. by rewrite expand_escaped.
  - eapply (disjoint_Forall 2); [|done]. vm_compute. reflexivity.
  - apply (stops_except 75 string_); [reflexivity|done| |vm_compute; reflexivity].
    intros x Hx. exact (string_prefix _ x Hm Hx).
Qed.

Lemma bytes_taken s : taken (CBYTES s) (String "b" (quoted (escapeBytes s))).
Proof.
  pose proof (matches_escaped s) as Hq.
  assert (Hb : ∀ u, matches (Seq (lit "b") string_) (String "b" u) ↔ matches string_ u).
  { intros u. rewrite matches_seq. split.
    - intros (t & v & E & ->%matches_lit & Hv). by injection E as ->.
    - intros Hu. exists "b", u. by rewrite matches_lit. }
  assert (Hm : matches (Seq (lit "b") string_) (String "b" (quoted (escapeBytes s)))) by by apply Hb.
  eapply (value_taken 6 (Seq (lit "b") string_)); [reflexivity| |done|by vm_compute|..].
  - cbn beta. change (String "b" ?t) with ("b" +:+ t).
    rewrite (substr_quoted "b" s eq_refl : substr 2 3 ("b" +:+ quoted (escapeBytes s)) = _).
    cbn [mbind outcome_bind]. by rewrite expand_escaped.
  - eapply (disjoint_Forall 2); [|done]. vm_compute. reflexivity.
  - apply (stops_except 76 (Seq (lit "b") string_)); [reflexivity|done| |vm_compute; reflexivity].
    intros x Hx. rewrite append_cons in Hx. apply Hb in Hx. exact (string_prefix _ x Hq Hx).
Qed.

(** *** Integers *)

Lemma digit_digit c : isdigit c = true → atoi_digit 10 c = Some (Cpp.digit_value c).
Proof using.
  intros H. unfold atoi_digit. rewrite H. unfold schar, Cpp.digit_value.
  unfold isdigit, between in H. bool_to_prop. replace (code c <? 128)%Z with true; [done|].
  symmetry. apply Z.ltb_lt. lia.
Qed.

Lemma digits_from_value s acc :
  str_forall isdigit s = true → digits_from 10 acc s = Cpp.digits_value acc s.
Proof using.
  revert acc. induction s as [|c s IH]; intros acc; [done|].
  cbn [str_forall digits_from Cpp.digits_value].
  intros [Hc Hs]%andb_prop. rewrite digit_digit by done. rewrite IH by done. f_equal. lia.
Qed.

Lemma strtoll_digits s : str_forall isdigit s = true → s ≠ "" →
  strtoll s 10 = Z.max (- 2 ^ 63) (Z.min (2 ^ 63 - 1) (Cpp.digits_value 0 s)).
Proof using.
  intros H Hs. destruct s as [|c s]; [done|]. unfold strtoll.
  pose proof H as [Hc _]%andb_prop.
  destruct (Ascii.eqb_spec c "-") as [->|_]; [done|]. destruct (Ascii.eqb_spec c "+") as [->|_]; [done|].
  by rewrite digits_from_value.
Qed.

Lemma pretty_Z_cases (z : Z) :
  ∃ n, (z = Z.of_N n ∧ pretty z = pretty n) ∨
       (z = - Z.of_N n ∧ (n ≠ 0)%N ∧ pretty z = String "-" (pretty n))%Z.
Proof using.
  destruct z as [|p|p].
  - exists 0%N. by left.
  - exists (Npos p). by left.
  - exists (Npos p). by right.
Qed.

Lemma strtoll_pretty z : (- 2 ^ 63 ≤ z < 2 ^ 63)%Z → strtoll (pretty z) 10 = z.
Proof using.
  intros Hz. destruct (pretty_Z_cases z) as [n [[-> ->]|(-> & Hn & ->)]];
    destruct (ReadLemmas.pretty_N_digits n) as (H1 & H2 & H3).
  - rewrite strtoll_digits, H2 by done. lia.
  - unfold strtoll. rewrite Ascii.eqb_refl, digits_from_value, H2 by done. lia.
Qed.

Lemma matches_digits s : str_forall isdigit s = true → s ≠ "" → matches (plus (Chr isdigit)) s.
Proof using.
  destruct s as [|c s]; [done|]. intros [Hc Hs]%andb_prop _. apply matches_plus.
  exists (String c ""), s. split; [done|]. split; [by constructor|by apply matches_star_chr].
Qed.

Lemma matches_pretty (z : Z) : matches int (pretty z).
Proof using.
  destruct (pretty_Z_cases z) as [n [[_ ->]|(_ & _ & ->)]];
    destruct (ReadLemmas.pretty_N_digits n) as (H1 & _ & H3); unfold int; apply matches_seq.
  - exists "", (pretty n). split; [done|]. split; [apply M_OrR; constructor|by apply matches_digits].
  - exists "-", (pretty n). split; [done|]. split; [by apply M_OrL, M_Chr|by apply matches_digits].
Qed.

(** *** Every text of a token is taken as the token *)

Lemma written_taken t w : written t w → taken t w.
Proof.
  destruct 1 as [w t H|c H|w H H'|w H|w H|w H|w H|w H|w H|z H|s|s].
  - by apply (fixed_taken (w, t)).
  - by apply char_taken.
  - by apply ident_taken.
  - eapply (separate_taken 9 (Seq id (plus (Seq (lit "::") id)))); [by vm_compute|reflexivity|done|].
    cbn beta. by rewrite (c_str_free _ w H eq_refl).
  - eapply (separate_taken 7 (Seq id (plus (Seq (lit "/") id)))); [by vm_compute|reflexivity|done|].
    cbn beta. by rewrite (c_str_free _ w H eq_refl).
  - eapply (separate_taken 10 (Seq (lit "$") id)); [by vm_compute|reflexivity| |].
    + apply matches_seq. exists "$", w. by rewrite matches_lit.
    + cbn [str_drop]. by rewrite (c_str_free id w H eq_refl).
  - eapply (separate_taken 0 attribute); [by vm_compute|reflexivity|done|].
    cbn beta. by rewrite (c_str_free _ w H eq_refl).
  - eapply (separate_taken 1 property); [by vm_compute|reflexivity|done|].
    cbn beta. by rewrite (c_str_free _ w H eq_refl).
  - by eapply (separate_taken 2 double_); [by vm_compute|reflexivity|done|].
  - eapply (separate_taken 3 int); [by vm_compute|reflexivity|apply matches_pretty|].
    cbn beta. by rewrite strtoll_pretty.
  - apply string_taken.
  - apply bytes_taken.
Qed.

End Written.
End Written.
Import Written.

(** ** White space and whole texts *)

Module Texts.
Section Texts.
  Context {L : Type} `{!Locations L} (strtod : string → double).

Definition white_space (u : string) : bool := str_forall (λ c, existsb (Ascii.eqb c) white) u.

Lemma white_in c : existsb (Ascii.eqb c) white = true ↔ c ∈ white.
Proof using.
  rewrite existsb_exists. setoid_rewrite <- list_elem_of_In. split.
  - by intros (d & Hd & ->%Ascii.eqb_eq).
  - intros Hc. exists c. by rewrite Ascii.eqb_refl.
Qed.

(** A text that begins a token, or nothing. *)
Definition token_start (rest : string) : Prop :=
  match rest with String c _ => c ∉ "#"%char :: white | "" => True end.

(** White characters at the start of [u ++ rest] are characters of [u]. *)
Lemma white_prefix w x u rest :
  w +:+ x = u +:+ rest → white_space w = true → token_start rest → ∃ v, u = w +:+ v ∧ x = v +:+ rest.
Proof using.
  revert u. induction w as [|c w IH]; intros u E Hw Hr; [by exists u|].
  apply andb_prop in Hw as [Hc%white_in Hw]. destruct u as [|d u].
  - change ("" +:+ rest) with rest in E. subst rest. destruct Hr. by right.
  - rewrite !append_cons in E. injection E as <- E. destruct (IH u E Hw Hr) as (v & -> & ->). by exists v.
Qed.

(** The rules for texts that begin with white space. *)
Lemma white_rules c s r a i :
  c ∈ white → rules strtod INITIAL !! i = Some (r, a) → matches r (String c s) →
  (i = 0 ∧ r = plus blank ∧ a = Step) ∨ (i = 1 ∧ r = plus (Chr (Ascii.eqb newline)) ∧ a = Lines) ∨
  (i = 2 ∧ r = comment) ∨ (82 ≤ i ∧ s = "" ∧ (a = Invalid ∨ a = Echo)).
Proof.
  intros Hc Hi Hm. cbn [rules] in Hi.
  assert (Hst : forallb (λ r, forallb (λ c, negb (starts r c)) white)
    (take 79 (drop 3 (initial_rules strtod).*1)) = true) by (vm_compute; reflexivity).
  destruct (decide (i < 3)) as [H3|H3]; [|destruct (decide (i < 82)) as [H82|H82]].
  - destruct i as [|[|[|i]]]; [..|lia]; injection Hi as <- <-; tauto.
  - exfalso. rewrite forallb_forall in Hst. specialize (Hst r).
    assert (Hr : take 79 (drop 3 (initial_rules strtod).*1) !! (i - 3)%nat = Some r).
    { rewrite lookup_take_lt by lia. rewrite lookup_drop. replace (3 + (i - 3))%nat with i by lia.
      by rewrite list_lookup_fmap, Hi. }
    apply list_elem_of_lookup_2, list_elem_of_In in Hr. apply Hst in Hr.
    rewrite forallb_forall in Hr. apply list_elem_of_In in Hc. apply Hr in Hc.
    apply starts_spec in Hm. by rewrite Hm in Hc.
  - right. right. right. split; [lia|].
    pose proof (lookup_lt_Some _ _ _ Hi) as Hlt. change (length (initial_rules strtod)) with 84%nat in Hlt.
    assert (i = 82 ∨ i = 83) as [-> | ->] by lia; injection Hi as <- <-;
      apply matches_chr in Hm as (d & _ & [= -> ->]); auto.
Qed.

Lemma plus_chr p w : matches (plus (Chr p)) w → str_forall p w = true.
Proof using.
  intros (t & u & -> & (c & Hc & ->)%matches_chr & Hu%matches_star_chr)%matches_plus.
  rewrite forall_app. cbn. by rewrite Hc.
Qed.

Lemma white_impl (p : ascii → bool) w :
  (∀ c, p c = true → c ∈ white) → str_forall p w = true → white_space w = true.
Proof using. intros H. apply forall_impl. intros c Hc. by apply white_in, H. Qed.

Lemma blank_white c : is_blank c = true → c ∈ white.
Proof using. intros [E|E]%orb_prop; apply Ascii.eqb_eq in E as ->; apply list_elem_of_In; cbn; auto. Qed.
Lemma newline_white c : Ascii.eqb newline c = true → c ∈ white.
Proof using. intros <-%Ascii.eqb_eq. apply list_elem_of_In. cbn. auto. Qed.

(** White space is taken by the rules that skip it. *)
Lemma white_step u rest :
  u ≠ "" → white_space u = true → token_start rest →
  ∃ w v a, u = w +:+ v ∧ w ≠ "" ∧ (a = Step ∨ a = Lines) ∧
    next strtod INITIAL (u +:+ rest) = Some (String.length w, a).
Proof.
  intros Hu Hw Hr.
  destruct (next_progress strtod INITIAL (u +:+ rest)) as (n & a & En & Hn).
  { intros E. by destruct u. }
  pose proof (next_Some strtod _ _ _ _ En) as (w & rest' & r & i & E & -> & Hi & [(r' & Hr' & Hm) C]).
  rewrite list_lookup_fmap, Hi in Hr'. cbn in Hr'. injection Hr' as <-.
  destruct u as [|c u]; [done|]. destruct w as [|c' w]; [cbn in Hn; lia|].
  pose proof E as E'. rewrite !append_cons in E'. injection E' as <- _.
  assert (Hc : c ∈ white) by (apply andb_prop in Hw as [Hc _]; by apply white_in).
  assert (Hskip : white_space (String c w) = true → a = Step ∨ a = Lines →
    ∃ w0 v a0, String c u = w0 +:+ v ∧ w0 ≠ "" ∧ (a0 = Step ∨ a0 = Lines) ∧
      next strtod INITIAL (String c u +:+ rest) = Some (String.length w0, a0)).
  { intros Hws Ha. destruct (white_prefix _ _ _ _ (eq_sym E) Hws Hr) as (v & Eu & _).
    by exists (String c w), v, a. }
  destruct (white_rules c w r a i Hc Hi Hm) as [(_ & -> & ->)|[(_ & -> & ->)|[[_ ->]|(Hi82 & -> & _)]]].
  - apply Hskip; [|by left]. apply plus_chr in Hm. by apply (white_impl is_blank); [apply blank_white|].
  - apply Hskip; [|by right]. apply plus_chr in Hm.
    by apply (white_impl (Ascii.eqb newline)); [apply newline_white|].
  - exfalso. unfold comment in Hm. apply matches_seq in Hm as (b & k & Eb & Hb & Hk).
    apply matches_seq in Hk as (h & k' & -> & ->%matches_lit & _). apply matches_star_chr in Hb.
    rewrite Eb, append_assoc in E.
    destruct (white_prefix b _ _ _ (eq_sym E) (white_impl _ b blank_white Hb) Hr) as (v & Ev & Er).
    rewrite append_assoc in Er. cbn [String.append] in Er. destruct v as [|d v].
    + change ("" +:+ rest) with rest in Er. subst rest. destruct Hr. by left.
    + rewrite append_cons in Er. injection Er as <- _. rewrite Ev in Hw. unfold white_space in Hw.
      rewrite forall_app in Hw. apply andb_prop in Hw as [_ Hw]. done.
  - exfalso. pose proof Hc as Hc'. apply list_elem_of_In in Hc'. destruct Hc' as [<-|[<-|[<-|[]]]].
    1,2: apply (C 0 (plus blank)); [lia|done|by apply accepts_spec].
    apply (C 1 (plus (Chr (Ascii.eqb newline)))); [lia|done|by apply accepts_spec].
Qed.

(** Between tokens. *)
Definition idle (s : scanner L) : Prop := start s = INITIAL ∧ stack s = [] ∧ more s = "" ∧ errors s = 0%Z.

Lemma skip_white u rest fuel s :
  input s = u +:+ rest → idle s → white_space u = true → token_start rest → String.length u < fuel →
  ∃ fuel' s', lex_loop strtod fuel s = lex_loop strtod fuel' s' ∧
    input s' = rest ∧ idle s' ∧ 0 < fuel'.
Proof.
  revert u s. induction fuel as [|fuel IH]; intros u s Ei Hs Hw Hr Hf; [lia|].
  destruct (decide (u = "")) as [->|Hu]; [exists (S fuel), s; split_and!; auto; lia|].
  destruct (white_step u rest Hu Hw Hr) as (w & v & a & -> & Hw0 & Ha & En).
  assert (Hl : 0 < String.length w) by (destruct w; [done|cbn; lia]).
  rewrite length_append in Hf. unfold white_space in Hw. rewrite forall_app in Hw.
  apply andb_prop in Hw as [_ Hv]. destruct Hs as (H1 & H2 & H3 & H4).
  cbn [lex_loop]. destruct (String.eqb_spec (input s) "") as [E|_].
  { rewrite Ei in E. destruct w; [done|]. done. }
  unfold match_one. rewrite H1, Ei, En, append_assoc, H3. cbv zeta.
  rewrite take_app_length, drop_app_length.
  destruct Ha as [-> | ->]; cbn [perform mbind outcome_bind];
    (apply (IH v); [done| |done..|lia]); by split_and!.
Qed.

Lemma lex_token fuel s t w c x :
  input s = w +:+ String c x → idle s → taken strtod t w → c ∈ white → 0 < fuel →
  ∃ s', lex_loop strtod fuel s = Ret (t, s') ∧ input s' = String c x ∧ idle s'.
Proof.
  intros Ei (H1 & H2 & H3 & H4) [Hn (d & w' & -> & _)] Hc Hf. destruct fuel as [|fuel]; [lia|].
  destruct (Hn c x Hc) as (f & En & Ef). cbn [lex_loop]. rewrite Ei, append_cons.
  cbn [String.eqb]. unfold match_one. rewrite H1, Ei, En, H3. cbv zeta.
  rewrite take_app_length, drop_app_length. change ("" +:+ ?w) with w. cbn [perform].
  rewrite Ef. cbn [mbind outcome_bind]. eexists. split; [done|]. by split_and!.
Qed.

(** A text of tokens, each with the white space that follows it. *)
Definition piece := (token * string * string)%type.
Definition piece_ok (p : piece) : Prop :=
  written strtod p.1.1 p.1.2 ∧ p.2 ≠ "" ∧ white_space p.2 = true.
Fixpoint text_of (l : list piece) : string :=
  match l with [] => "" | p :: l => p.1.2 +:+ p.2 +:+ text_of l end.
Definition tokens_of (l : list piece) : list token := (λ p, p.1.1) <$> l.

Lemma text_start l : Forall piece_ok l → token_start (text_of l).
Proof.
  destruct 1 as [|[[t w] u] l [Hw _] _]; [done|]. cbn [text_of fst snd] in *.
  destruct (written_taken strtod t w Hw) as [_ (c & w' & -> & Hc)]. done.
Qed.

Lemma written_not_end t w : written strtod t w → is_end t = false.
Proof.
  destruct 1 as [w t H|?|?|?|?|?|?|?|?|?|?|?]; try done.
  assert (Hf : forallb (λ p, negb (is_end p.2)) fixed_tokens = true) by done.
  rewrite forallb_forall in Hf. apply list_elem_of_In in H. specialize (Hf _ H).
  by apply negb_true_iff in Hf.
Qed.

Lemma tokens_written l : Forall piece_ok l → ∀ u s fuel,
  input s = u +:+ text_of l → idle s → white_space u = true → length l < fuel →
  ∃ s', tokens strtod fuel s = Ret (tokens_of l, s') ∧ input s' = "" ∧ idle s'.
Proof.
  induction 1 as [|[[t w] v] l (Hw & Hv0 & Hv) Hl IH]; intros u s fuel Ei Hs Hu Hf;
    (destruct fuel as [|fuel]; [lia|]); cbn [tokens text_of fst snd] in *.
  - destruct (skip_white u "" (S (String.length (input s))) (set_loc step s)) as (k & s' & E & Ei' & Hs' & Hk);
      try done. { rewrite Ei, length_append. lia. }
    unfold lex. rewrite E. destruct k as [|k]; [lia|]. cbn [lex_loop]. rewrite Ei'. cbn. eauto.
  - pose proof (text_start ((t, w, v) :: l) ltac:(by constructor)) as Hst.
    destruct (skip_white u (w +:+ v +:+ text_of l) (S (String.length (input s))) (set_loc step s))
      as (k & s' & E & Ei' & Hs' & Hk); try done. { rewrite Ei, length_append. lia. }
    destruct v as [|c v]; [done|]. pose proof Hv as [Hc _]%andb_prop. apply white_in in Hc.
    destruct (lex_token k s' t w c (v +:+ text_of l)) as (s2 & E2 & Ei2 & Hs2); try done.
    { by apply written_taken. }
    unfold lex. rewrite E, E2. cbn [mbind outcome_bind]. rewrite (written_not_end t w Hw).
    destruct (IH (String c v) s2 fuel) as (s3 & E3 & Ei3 & Hs3); try done; [cbn in Hf; lia|].
    exists s3. rewrite E3. done.
Qed.

Lemma text_length l : Forall piece_ok l → length l ≤ String.length (text_of l).
Proof.
  induction 1 as [|[[t w] v] l (_ & Hv0 & _) Hl IH]; [done|]. cbn [text_of length fst snd] in *.
  rewrite !length_append. destruct v; [done|]. cbn. lia.
Qed.

End Texts.
End Texts.
Import Texts.

(** ** Code blocks *)

Module Code.

Lemma next_ec strtod c rest :
  next strtod EC (String c rest) =
  if String.prefix "%}" (String c rest) then Some (2, EndOfCode)
  else Some (1, if Ascii.eqb newline c then CodeLine else CodeChar).
Proof.
  unfold next, select. cbn [rules ec_rules fmap list_fmap fst lit].
  destruct (Ascii.eqb_spec "%" c) as [<-|Hc].
  - destruct rest as [|d rest]; [done|]. destruct (Ascii.eqb_spec "}" d) as [<-|Hd].
    + destruct rest; done.
    + pose proof (proj2 (Ascii.eqb_neq _ _) Hd) as Ed.
      cbn [String.prefix]. destruct (ascii_dec "}" d) as [|_]; [done|].
      change (longest _ _ _ _) with
        (longest [Chr (Ascii.eqb "}"); Nothing; Empty; Empty] None 1 (String d rest)).
      cbn [longest map deriv]. by rewrite Ed.
  - pose proof (proj2 (Ascii.eqb_neq _ _) Hc) as Ec. unfold not_newline.
    destruct (Ascii.eqb_spec newline c) as [<-|Hn].
    + by destruct rest.
    + pose proof (proj2 (Ascii.eqb_neq _ _) (not_eq_sym Hn)) as En'.
      pose proof (proj2 (Ascii.eqb_neq _ _) Hn) as En.
      cbn [String.prefix]. destruct (ascii_dec "%" c) as [|_]; [done|].
      destruct rest; unfold longest; cbn [map deriv]; rewrite Ec, En, En'; done.
Qed.

Section Lex.
  Context {L : Type} `{!Locations L} (strtod : string → double).

(** One call within a code block: the text up to the end of the block, which is put back, or
    the end of the input. *)
Lemma lex_loop_code fuel s c st :
  start s = EC → stack s = c :: st → String.length (input s) < fuel →
  ∃ s', lex_loop strtod fuel s =
      Ret (match str_find "%}" (input s) with
           | Some n => CPPCODE (c_str (more s +:+ str_take n (input s)))
           | None => END
           end, s') ∧
    match str_find "%}" (input s) with
    | Some n => input s' = str_drop n (input s) ∧ start s' = c ∧ stack s' = st ∧ more s' = ""
    | None => input s' = ""
    end.
Proof.
  revert s. induction fuel as [|fuel IH]; intros s Hs Hst Hf; [lia|]. cbn [lex_loop].
  destruct (input s) as [|d rest] eqn:Ei; [by exists s|]. cbn [String.eqb].
  unfold match_one. rewrite Hs, Ei, next_ec. cbn [String.length] in Hf.
  destruct (String.prefix "%}" (String d rest)) eqn:Ep.
  - assert (Hfind : str_find "%}" (String d rest) = Some 0) by (cbn [str_find]; by rewrite Ep).
    rewrite Hfind. apply prefix_spec in Ep as [x Ex]. rewrite Ex. cbv zeta.
    cbn [perform]. unfold yy_pop_state, set_input, set_loc, set_more. cbn [stack input start more].
    change (str_take 2 ("%}" +:+ x)) with "%}". change (str_drop 2 ("%}" +:+ x)) with x.
    rewrite Hst. cbn [mbind outcome_bind].
    replace (String.length (more s +:+ "%}") - 2)%nat with (String.length (more s))
      by (rewrite length_append; cbn; lia).
    rewrite take_app_length, drop_app_length. cbn [str_take str_drop]. rewrite append_nil_r.
    eexists. split; [done|]. by split_and!.
  - assert (Hfind : str_find "%}" (String d rest) = S <$> str_find "%}" rest)
      by (cbn [str_find]; by rewrite Ep).
    rewrite Hfind. cbv zeta. change (str_take 1 (String d rest)) with (String d "").
    change (str_drop 1 (String d rest)) with rest.
    set (s1 := set_more (more s +:+ String d "") (set_input rest s)).
    assert (Hnext : ∃ s2, (perform (if Ascii.eqb newline d then CodeLine else CodeChar)
        (more s +:+ String d "") (set_loc (columns (Z.of_nat (String.length (more s +:+ String d ""))))
          (set_more "" (set_input rest s)))) = Ret (None, s2) ∧
        input s2 = rest ∧ start s2 = EC ∧ stack s2 = c :: st ∧ more s2 = more s +:+ String d "").
    { case_bool; cbn [perform]; eexists; split; [done| |done|]; by split_and!. }
    destruct Hnext as (s2 & -> & E1 & E2 & E3 & E4). cbn [mbind outcome_bind].
    destruct (IH s2 E2 E3 ltac:(rewrite E1; lia)) as (s' & -> & H'). exists s'.
    rewrite E1, E4 in *. destruct (str_find "%}" rest) as [n|]; cbn [fmap option_fmap option_map] in *.
    + split; [|done]. cbn [str_take]. by rewrite append_assoc.
    + done.
Qed.

End Lex.
End Code.
Import Code.

(** ** The properties *)

Section Claims.
  Context {L : Type} `{!Locations L} (strtod : string → double).

Lemma scan_pieces (l : list piece) (loc : L) :
  Forall (piece_ok strtod) l →
  ∃ s, scan strtod (text_of l) loc = Ret (tokens_of l, s) ∧ input s = "" ∧ errors s = 0%Z.
Proof.
  intros Hl. unfold scan.
  destruct (tokens_written strtod l Hl "" (new_scanner (text_of l) loc) (S (2 * String.length (text_of l))))
    as (s & E & Ei & Hs); try done.
  - pose proof (text_length strtod l Hl). lia.
  - exists s. split; [done|]. split; [done|]. apply Hs.
Qed.

(** The scanner, from its initial start condition and not switched to patterns, ends on every
    text: it returns its tokens, with all of the text read, or an escape sequence of a string
    throws. *)
Theorem scan_total text (l : L) :
  match scan strtod text l with
  | Ret (_, s) => input s = ""
  | Throw _ => True
  | Abort _ | NoFuel => False
  end.
Proof.
  pose proof (tokens_ends strtod (S (2 * String.length text)) (new_scanner text l)) as H.
  unfold scan, ends in *. destruct (tokens _ _ _) as [[ts s]| | |]; apply H; try lia.
  all: try (split; [set_solver|split; [done|done]]). all: cbn; lia.
Qed.

(** C24: A block of code is one token, the text up to the first [%}], of which the next call
    returns [ENDCODE]; a block without end is dropped at the end of the text. *)
Theorem lex_code s c st :
  start s = EC → stack s = c :: st →
  ∃ s', lex strtod (S (String.length (input s))) s =
      Ret (match str_find "%}" (input s) with
           | Some n => CPPCODE (c_str (more s +:+ str_take n (input s)))
           | None => END
           end, s') ∧
    match str_find "%}" (input s) with
    | Some n => input s' = str_drop n (input s) ∧ start s' = c ∧ stack s' = st ∧ more s' = ""
    | None => input s' = ""
    end.
Proof. intros Hs Hst. by apply (lex_loop_code _ _ (set_loc step s) c st); [..|cbn; lia]. Qed.

(** C12: Tokens survive being written: any texts of tokens ([written]), each followed by white
    space, are scanned as these tokens without an error. *)
Theorem scan_written (l : list piece) (loc : L) :
  Forall (piece_ok strtod) l →
  ∃ s, scan strtod (text_of l) loc = Ret (tokens_of l, s) ∧ input s = "" ∧ errors s = 0%Z.
Proof. apply scan_pieces. Qed.

(** In every start condition the scanner takes a text that is not empty: the longest prefix of
    the input that the pattern of a rule matches, with the first rule that matches it. *)
Theorem next_longest c s :
  s ≠ "" →
  ∃ w rest i r a, next strtod c s = Some (String.length w, a) ∧ s = w +:+ rest ∧ w ≠ "" ∧
    rules strtod c !! i = Some (r, a) ∧ matches r w ∧
    (∀ j r' a', j < i → rules strtod c !! j = Some (r', a') → ¬ matches r' w) ∧
    (∀ w' rest' r' a', s = w' +:+ rest' → (r', a') ∈ rules strtod c → matches r' w' →
      String.length w' ≤ String.length w).
Proof.
  intros Hs. destruct (next_progress strtod c s Hs) as (n & a & En & Hn).
  unfold next in En. pose proof (select_match (rules strtod c).*1 s) as H.
  destruct (select _ s) as [[m i]|]; [|done]. cbn [mbind option_bind] in En.
  destruct (rules strtod c !! i) as [[r b]|] eqn:Er; [|done]. cbn in En. injection En as <- <-.
  destruct H as [(w & rest & Es & -> & [(r' & Hr' & Hm) C]) Hmax].
  rewrite list_lookup_fmap, Er in Hr'. injection Hr' as <-.
  exists w, rest, i, r, b. split_and!; try done.
  - unfold next. rewrite (select_unique _ s (Some (String.length w, i))).
    + cbn [mbind option_bind]. by rewrite Er.
    + split; [|done]. exists w, rest. split_and!; [done..|]. split; [|done].
      exists r. by rewrite list_lookup_fmap, Er.
  - intros ->. cbn in Hn. lia.
  - intros j r' a' Hj Hr'. apply (C j r' Hj). by rewrite list_lookup_fmap, Hr'.
  - intros w' rest' r' a' E Hin. apply (Hmax w' rest' r' E).
    apply list_elem_of_fmap. by exists (r', a').
Qed.

End Claims.

(** ** Concrete inputs *)

Module Sample.

(** A line and a column, as the class [position] of the generated parser counts them. *)
#[export] Instance counting : Locations (Z * Z) :=
  {| step l := l; columns n l := (l.1, l.2 + n)%Z; lines n l := (l.1 + n, 1)%Z |}.
Definition decimal (s : string) : double := mkDouble (strtoll s 10) 0.

Definition line_of_text : list piece := [
  (MODULE, "module", " "); (IDENT "a-b", "a-b", " "); (CHAR ";", ";", String newline "");
  (CINTEGER (-5), "-5", " "); (CSTRING "x", quoted (escapeBytes "x"), "  ");
  (CBYTES (String "034" ""), String "b" (quoted (escapeBytes (String "034" ""))), " ")].

Lemma line_of_text_ok : Forall (piece_ok decimal) line_of_text.
Proof.
  assert (Hid : written decimal (IDENT "a-b") "a-b").
  { apply W_ident; [by apply accepts_spec|]. elem_dec. }
  repeat (constructor; [split; [|by vm_compute]|]); try done; cbn [fst snd].
  - apply W_fixed, list_elem_of_In. cbn. tauto.
  - apply W_char. vm_compute. tauto.
  - apply (W_integer decimal (-5)). lia.
  - apply W_string.
  - apply W_bytes.
Qed.

End Sample.

#[local] Existing Instance Sample.counting.

Lemma scan_written_witness :
  ∃ s, scan Sample.decimal (text_of Sample.line_of_text) (1, 1)%Z =
    Ret (tokens_of Sample.line_of_text, s) ∧ input s = "" ∧ errors s = 0%Z.
Proof. exact (scan_written Sample.decimal _ _ Sample.line_of_text_ok). Defined.

Lemma next_longest_witness :
  ∃ w rest i r a, next Sample.decimal INITIAL "int8 x" = Some (String.length w, a) ∧
    "int8 x" = w +:+ rest ∧ w ≠ "" ∧
    rules Sample.decimal INITIAL !! i = Some (r, a) ∧ matches r w ∧
    (∀ j r' a', j < i → rules Sample.decimal INITIAL !! j = Some (r', a') → ¬ matches r' w) ∧
    (∀ w' rest' r' a', "int8 x" = w' +:+ rest' → (r', a') ∈ rules Sample.decimal INITIAL →
      matches r' w' → String.length w' ≤ String.length w).
Proof. apply (next_longest Sample.decimal INITIAL "int8 x"). discriminate. Defined.

Lemma lex_code_witness :
  ∃ s, lex Sample.decimal 8
    (mkScanner (L:=Z * Z) "a; %} x" EC [INITIAL] "" (1, 1)%Z 0) = Ret (CPPCODE "a; ", s) ∧
    input s = "%} x" ∧ start s = INITIAL ∧ stack s = [] ∧ more s = "".
Proof.
  exact (lex_code Sample.decimal (mkScanner (L:=Z * Z) "a; %} x" EC [INITIAL] "" (1, 1)%Z 0)
    INITIAL [] eq_refl eq_refl).
Defined.
