(* ===== verification/Grammar.v ===== *)
(** * The grammar of expressions ([src/src/spec/parser/parser.yy])

    The rules of [expr2] for identifiers, constants, parentheses, tuples, unary and binary
    operators, conditionals, members, calls and indices, as derivation trees ([tree]) with the
    tokens of a tree ([yield]) and its semantic action ([action]).

    The grammar is ambiguous; bison resolves the conflicts of its automaton by the
    declarations [%left] of tokens: between reducing a rule and shifting a token it compares the
    precedence of the last token of the rule with the one of the token, and shifts if one of
    them has none.  [Parser] is that automaton on the trees of the fragment: a stack of rules
    with what has been read of them, and the steps that shift a token or reduce a rule.

    Left out of the fragment are [IF ... THEN], list comprehensions, [FIND], [CAST], sizes
    [|e|] and regular expressions. *)

From S2P Require Import Prelude Util Ident Ast Units Regex Scanner.
Import Ident.Id Units.Units.

Module Syntax.

(** ** Derivation trees *)

(** Rules of [scoped_id], [constant] and [ctor] with one token. *)
Inductive atom :=
  | AIdent (s : string) | AScoped (s : string)
  | AInteger (z : Z) | ABool (b : bool) | AString (s : string) | ADouble (d : double) | ANone
  | ABytes (s : string).

(** [INT8], ..., [UINT64]. *)
Inductive int_name := I8 | I16 | I32 | I64 | U8 | U16 | U32 | U64.

(** [expr op expr], in the order of [parser.yy]. *)
Inductive binary :=
  | BAssign | BLambda | BAnd | BOr | BBitAnd | BBitOr | BBitXor | BShiftLeft | BShiftRight | BPower
  | BPlus | BMinus | BMult | BDiv | BMod | BEqual | BIn | BLess | BPlusAssign | BMinusAssign
  | BNeq | BLeq | BGeq | BGreater.
Inductive prefix := PreIncr | PreDecr | PreDeref | PreNot.
Inductive postfix := PostIncr | PostDecr.

#[warnings="-register-all"]
Inductive tree :=
  | TAtom (a : atom)
  | TSized (n : int_name) (z : Z)
  | TWidth (signed : bool) (width z : Z)
  | TParen (e : tree)
  | TTuple (l : list tree)
  | TBin (b : binary) (l r : tree)
  | TPre (p : prefix) (e : tree)
  | TPost (e : tree) (p : postfix)
  | TCond (c a : tree)
  | TCondElse (c a b : tree)
  | TCall (f : tree) (l : list tree)
  | TIndex (a i : tree)
  | TIndexAssign (a i e : tree)
  | TAttr (a : tree) (m : string)
  | THasAttr (a : tree) (m : string)
  | TAttrAssign (a : tree) (m : string) (e : tree)
  | TMethod (a : tree) (m : string) (l : list tree).

(** ** Tokens *)

Definition atom_token (a : atom) : token :=
  match a with
  | AIdent s => IDENT s | AScoped s => SCOPED_IDENT s
  | AInteger z => CINTEGER z | ABool b => CBOOL b | AString s => CSTRING s
  | ADouble d => CDOUBLE d | ANone => NONE | ABytes s => CBYTES s
  end.
Definition int_token (n : int_name) : token :=
  match n with
  | I8 => INT8 | I16 => INT16 | I32 => INT32 | I64 => INT64
  | U8 => UINT8 | U16 => UINT16 | U32 => UINT32 | U64 => UINT64
  end.
Definition binary_token (b : binary) : token :=
  match b with
  | BAssign => CHAR "=" | BLambda => DARROW | BAnd => AND | BOr => OR
  | BBitAnd => CHAR "&" | BBitOr => CHAR "|" | BBitXor => CHAR "^"
  | BShiftLeft => SHIFTLEFT | BShiftRight => SHIFTRIGHT | BPower => POW
  | BPlus => CHAR "+" | BMinus => CHAR "-" | BMult => CHAR "*" | BDiv => CHAR "/" | BMod => MOD
  | BEqual => EQ | BIn => IN | BLess => CHAR "<"
  | BPlusAssign => PLUSASSIGN | BMinusAssign => MINUSASSIGN
  | BNeq => NEQ | BLeq => LEQ | BGeq => GEQ | BGreater => CHAR ">"
  end.
Definition prefix_token (p : prefix) : token :=
  match p with
  | PreIncr => PLUSPLUS | PreDecr => MINUSMINUS | PreDeref => CHAR "*" | PreNot => CHAR "!"
  end.
Definition postfix_token (p : postfix) : token :=
  match p with PostIncr => PLUSPLUS | PostDecr => MINUSMINUS end.

(** [opt_exprs] between parentheses. *)
Definition separated (l : list (list token)) : list token :=
  match l with
  | [] => []
  | x :: l => x ++ concat (map (λ y, CHAR "," :: y) l)
  end.
Definition in_parens (l : list (list token)) : list token := CHAR "(" :: separated l ++ [CHAR ")"].

Fixpoint yield (t : tree) : list token :=
  match t with
  | TAtom a => [atom_token a]
  | TSized n z => [int_token n; CHAR "("; CINTEGER z; CHAR ")"]
  | TWidth sg w z =>
      [if sg : bool then INT else UINT; CHAR "<"; CINTEGER w; CHAR ">"; CHAR "("; CINTEGER z; CHAR ")"]
  | TParen e => CHAR "(" :: yield e ++ [CHAR ")"]
  | TTuple l => in_parens (map yield l)
  | TBin b l r => yield l ++ binary_token b :: yield r
  | TPre p e => prefix_token p :: yield e
  | TPost e p => yield e ++ [postfix_token p]
  | TCond c a => yield c ++ CHAR "?" :: yield a
  | TCondElse c a b => yield c ++ CHAR "?" :: yield a ++ CHAR ":" :: yield b
  | TCall f l => yield f ++ in_parens (map yield l)
  | TIndex a i => yield a ++ CHAR "[" :: yield i ++ [CHAR "]"]
  | TIndexAssign a i e => yield a ++ CHAR "[" :: yield i ++ CHAR "]" :: CHAR "=" :: yield e
  | TAttr a m => yield a ++ [CHAR "."; IDENT m]
  | THasAttr a m => yield a ++ [HASATTR; IDENT m]
  | TAttrAssign a m e => yield a ++ CHAR "." :: IDENT m :: CHAR "=" :: yield e
  | TMethod a m l => yield a ++ CHAR "." :: IDENT m :: in_parens (map yield l)
  end.

(** ** Semantic actions *)

Section Action.
  (** [*driver->stream_name()], the file of the locations. *)
  Context (stream_name : string).

Definition makeOp (kind : op_kind) (ops : list expr) : expr := new_expr (EOperator kind ops).

(** [Integer($1, 64, loc(@$))]: the constructor has no such overload, so the location is
    converted to the parameter [sign], which is whether it is set. *)
Definition located : bool := negb (String.eqb stream_name "").

Definition atom_expr (a : atom) : expr :=
  new_expr
    match a with
    | AIdent s | AScoped s => EID (id_of_string s)
    | AInteger z => EConstant (CInteger z 64 located)
    | ABool b => EConstant (CBool b)
    | AString s => EConstant (CString s)
    | ADouble d => EConstant (CDouble d)
    | ANone => EConstant CNone
    | ABytes s => ECtor (CtorBytes s)
    end.

Definition int_type (n : int_name) : Z * bool :=
  match n with
  | I8 => (8, true) | I16 => (16, true) | I32 => (32, true) | I64 => (64, true)
  | U8 => (8, false) | U16 => (16, false) | U32 => (32, false) | U64 => (64, false)
  end%Z.

Definition tuple_expr (l : list expr) : expr := new_expr (EConstant (CTuple l)).
Definition member_expr (m : string) : expr := new_expr (EMemberAttribute (id_of_string m)).

(** The actions of [expr op expr]; a lambda needs an identifier on its left ([None] for the
    call of [error]). *)
Definition binary_expr (b : binary) (l r : expr) : option expr :=
  match b with
  | BAssign => Some (new_expr (EAssign l r))
  | BLambda => match l with mkExpr _ (EID id) => Some (new_expr (ELambda id r)) | _ => None end
  | BAnd => Some (makeOp OpLogicalAnd [l; r])
  | BOr => Some (makeOp OpLogicalOr [l; r])
  | BBitAnd => Some (makeOp OpBitAnd [l; r])
  | BBitOr => Some (makeOp OpBitOr [l; r])
  | BBitXor => Some (makeOp OpBitXor [l; r])
  | BShiftLeft => Some (makeOp OpShiftLeft [l; r])
  | BShiftRight => Some (makeOp OpShiftRight [l; r])
  | BPower => Some (makeOp OpPower [l; r])
  | BPlus => Some (makeOp OpPlus [l; r])
  | BMinus => Some (makeOp OpMinus [l; r])
  | BMult => Some (makeOp OpMult [l; r])
  | BDiv => Some (makeOp OpDiv [l; r])
  | BMod => Some (makeOp OpMod [l; r])
  | BEqual => Some (makeOp OpEqual [l; r])
  | BIn => Some (makeOp OpIn [l; r])
  | BLess => Some (makeOp OpLess [l; r])
  | BPlusAssign => Some (makeOp OpPlusAssign [l; r])
  | BMinusAssign => Some (makeOp OpMinusAssign [l; r])
  | BNeq => Some (makeOp OpNot [makeOp OpEqual [l; r]])
  | BLeq => Some (makeOp OpNot [makeOp OpGreater [l; r]])
  | BGeq => Some (makeOp OpNot [makeOp OpLess [l; r]])
  | BGreater => Some (makeOp OpNot [makeOp OpLogicalOr [makeOp OpLess [l; r]; makeOp OpEqual [l; r]]])
  end.
Definition prefix_kind (p : prefix) : op_kind :=
  match p with
  | PreIncr => OpIncrPrefix | PreDecr => OpDecrPrefix | PreDeref => OpDeref | PreNot => OpNot
  end.
Definition postfix_kind (p : postfix) : op_kind :=
  match p with PostIncr => OpIncrPostfix | PostDecr => OpDecrPostfix end.

Fixpoint action (t : tree) : option expr :=
  match t with
  | TAtom a => Some (atom_expr a)
  | TSized n z =>
      let '(w, sg) := int_type n in Some (new_expr (EConstant (CInteger z w sg)))
  | TWidth sg w z => Some (new_expr (EConstant (CInteger z (swrap 32 w) sg)))
  | TParen e => action e
  | TTuple l => l ← mapM action l; Some (tuple_expr l)
  | TBin b l r => l ← action l; r ← action r; binary_expr b l r
  | TPre p e => e ← action e; Some (makeOp (prefix_kind p) [e])
  | TPost e p => e ← action e; Some (makeOp (postfix_kind p) [e])
  | TCond c a => c ← action c; a ← action a; Some (new_expr (EConditional c a None))
  | TCondElse c a b =>
      c ← action c; a ← action a; b ← action b; Some (new_expr (EConditional c a (Some b)))
  | TCall f l => f ← action f; l ← mapM action l; Some (makeOp OpCall [f; tuple_expr l])
  | TIndex a i => a ← action a; i ← action i; Some (makeOp OpIndex [a; i])
  | TIndexAssign a i e =>
      a ← action a; i ← action i; e ← action e; Some (makeOp OpIndexAssign [a; i; e])
  | TAttr a m => a ← action a; Some (makeOp OpAttribute [a; member_expr m])
  | THasAttr a m => a ← action a; Some (makeOp OpHasAttribute [a; member_expr m])
  | TAttrAssign a m e =>
      a ← action a; e ← action e; Some (makeOp OpAttributeAssign [a; member_expr m; e])
  | TMethod a m l =>
      a ← action a; l ← mapM action l; Some (makeOp OpMethodCall [a; member_expr m; tuple_expr l])
  end.

End Action.

End Syntax.
Import Syntax.

(** ** The automaton *)

Module Parser.

(** What can be shifted after an expression, as the rest of a rule with the expression first. *)
Inductive cont := CBin (b : binary) | CPost (p : postfix) | CCond | CCall | CIndex | CAttr | CHas.

Definition char_cont (c : ascii) : option cont :=
  if Ascii.eqb c "=" then Some (CBin BAssign) else if Ascii.eqb c "&" then Some (CBin BBitAnd)
  else if Ascii.eqb c "|" then Some (CBin BBitOr) else if Ascii.eqb c "^" then Some (CBin BBitXor)
  else if Ascii.eqb c "+" then Some (CBin BPlus) else if Ascii.eqb c "-" then Some (CBin BMinus)
  else if Ascii.eqb c "*" then Some (CBin BMult) else if Ascii.eqb c "/" then Some (CBin BDiv)
  else if Ascii.eqb c "<" then Some (CBin BLess) else if Ascii.eqb c ">" then Some (CBin BGreater)
  else if Ascii.eqb c "?" then Some CCond else if Ascii.eqb c "(" then Some CCall
  else if Ascii.eqb c "[" then Some CIndex else if Ascii.eqb c "." then Some CAttr
  else None.
Definition cont_of (t : token) : option cont :=
  match t with
  | DARROW => Some (CBin BLambda) | AND => Some (CBin BAnd) | OR => Some (CBin BOr)
  | SHIFTLEFT => Some (CBin BShiftLeft) | SHIFTRIGHT => Some (CBin BShiftRight)
  | POW => Some (CBin BPower) | MOD => Some (CBin BMod) | EQ => Some (CBin BEqual)
  | IN => Some (CBin BIn) | PLUSASSIGN => Some (CBin BPlusAssign)
  | MINUSASSIGN => Some (CBin BMinusAssign) | NEQ => Some (CBin BNeq) | LEQ => Some (CBin BLeq)
  | GEQ => Some (CBin BGeq)
  | PLUSPLUS => Some (CPost PostIncr) | MINUSMINUS => Some (CPost PostDecr)
  | HASATTR => Some CHas
  | CHAR c => char_cont c
  | _ => None
  end.

(** The declarations [%left], the weakest first; all tokens of a line are left-associative. *)
Definition binary_prec (b : binary) : option nat :=
  match b with
  | BLambda => Some 1
  | BOr | BAnd => Some 2
  | BEqual | BNeq | BLeq | BGeq | BLess | BGreater => Some 3
  | BPlus | BMinus => Some 4
  | _ => None
  end.
Definition cont_prec (c : cont) : option nat := match c with CBin b => binary_prec b | _ => None end.

(** Shift the token ([true]) or reduce the rule? *)
Definition resolve (rule tok : option nat) : bool :=
  match rule, tok with Some p, Some q => p <? q | _, _ => true end.

(** Rules that have been read up to an expression at their end, or could end here: a rule with
    the precedence of its last token; [expr '?' expr], which may go on with a [':'];
    [expr '.' member_expr], which may go on with a ['='] or a tuple; [expr '[' expr ']'], which
    may go on with a ['=']. *)
Inductive open_rule := KPrec (p : option nat) | KCond | KAttr | KIndex.

Definition is_char (c : ascii) (t : token) : bool :=
  match t with CHAR d => Ascii.eqb d c | _ => false end.

Definition shifts (k : open_rule) (t : token) : bool :=
  match k with
  | KAttr => is_char "=" t || is_char "(" t
  | KIndex => is_char "=" t
  | KCond => is_char ":" t || (if cont_of t is Some _ then true else false)
  | KPrec p => match cont_of t with Some c => resolve p (cont_prec c) | None => false end
  end.
(** At the end of the input rules are reduced. *)
Definition goes_on (k : open_rule) (rest : list token) : bool :=
  match rest with [] => false | t :: _ => shifts k t end.

(** What is on the stack: rules without their last expression, the innermost first. *)
Inductive frame :=
  | FBin (l : tree) (b : binary)
  | FPre (p : prefix)
  | FCond (c : tree)
  | FElse (c a : tree)
  | FIndexAssign (a i : tree)
  | FAttrAssign (a : tree) (m : string)
  | FParen (l : list tree)
  | FCall (f : tree) (l : list tree)
  | FMethod (a : tree) (m : string) (l : list tree)
  | FIndex (a : tree).

(** The rules that end with the expression, and the tree they are reduced to. *)
Definition open_of (f : frame) : option open_rule :=
  match f with
  | FBin _ b => Some (KPrec (binary_prec b))
  | FPre _ | FElse _ _ | FIndexAssign _ _ | FAttrAssign _ _ => Some (KPrec None)
  | FCond _ => Some KCond
  | _ => None
  end.
Definition reduce (f : frame) (e : tree) : tree :=
  match f with
  | FBin l b => TBin b l e
  | FPre p => TPre p e
  | FCond c => TCond c e
  | FElse c a => TCondElse c a e
  | FIndexAssign a i => TIndexAssign a i e
  | FAttrAssign a m => TAttrAssign a m e
  | _ => e
  end.

(** [focus] is the expression just read, [None] when one is expected. *)
Record state := mkState { stack : list frame; focus : option tree; rest : list token }.

(** The last expression of a tuple; ['(' expr ')'] is shifted rather than reduced to a tuple. *)
Definition close_paren (l : list tree) (e : tree) : tree :=
  match l with [] => TParen e | _ => TTuple (l ++ [e]) end.

(** An expression is expected. *)
Definition integer_of (t : token) : option Z := match t with CINTEGER z => Some z | _ => None end.
Definition read_sized (n : int_name) (r : list token) : option (tree * list token) :=
  match r with
  | a :: z :: b :: r =>
      z ← integer_of z;
      if is_char "(" a && is_char ")" b then Some (TSized n z, r) else None
  | _ => None
  end.
Definition read_width (sg : bool) (r : list token) : option (tree * list token) :=
  match r with
  | a :: w :: b :: c :: z :: d :: r =>
      w ← integer_of w; z ← integer_of z;
      if is_char "<" a && is_char ">" b && is_char "(" c && is_char ")" d
      then Some (TWidth sg w z, r) else None
  | _ => None
  end.
Definition read_operand (ts : list token) : option (tree * list token) :=
  match ts with
  | IDENT s :: r => Some (TAtom (AIdent s), r)
  | SCOPED_IDENT s :: r => Some (TAtom (AScoped s), r)
  | CINTEGER z :: r => Some (TAtom (AInteger z), r)
  | CBOOL b :: r => Some (TAtom (ABool b), r)
  | CSTRING s :: r => Some (TAtom (AString s), r)
  | CDOUBLE d :: r => Some (TAtom (ADouble d), r)
  | NONE :: r => Some (TAtom ANone, r)
  | CBYTES s :: r => Some (TAtom (ABytes s), r)
  | INT8 :: r => read_sized I8 r | INT16 :: r => read_sized I16 r
  | INT32 :: r => read_sized I32 r | INT64 :: r => read_sized I64 r
  | UINT8 :: r => read_sized U8 r | UINT16 :: r => read_sized U16 r
  | UINT32 :: r => read_sized U32 r | UINT64 :: r => read_sized U64 r
  | INT :: r => read_width true r
  | UINT :: r => read_width false r
  | _ => None
  end.
Definition read_prefix (t : token) : option prefix :=
  match t with
  | PLUSPLUS => Some PreIncr
  | MINUSMINUS => Some PreDecr
  | CHAR c => if Ascii.eqb c "*" then Some PreDeref else if Ascii.eqb c "!" then Some PreNot else None
  | _ => None
  end.

Definition start_expr (s : state) : option state :=
  match read_operand (rest s) with
  | Some (e, r) => Some (mkState (stack s) (Some e) r)
  | None =>
      match rest s with
      | [] => None
      | t :: r =>
          match read_prefix t with
          | Some p => Some (mkState (FPre p :: stack s) None r)
          | None =>
              if is_char "(" t then Some (mkState (FParen [] :: stack s) None r)
              else if is_char ")" t then
                match stack s with
                | FParen [] :: st => Some (mkState st (Some (TTuple [])) r)
                | FCall f [] :: st => Some (mkState st (Some (TCall f [])) r)
                | FMethod a m [] :: st => Some (mkState st (Some (TMethod a m [])) r)
                | _ => None
                end
              else None
          end
      end
  end.

(** A token is shifted after the expression [e]. *)
Definition shift (e : tree) (st : list frame) (c : cont) (r : list token) : option state :=
  match e, c with
  | TAttr a m, CCall => Some (mkState (FMethod a m [] :: st) None r)
  | TAttr a m, CBin BAssign => Some (mkState (FAttrAssign a m :: st) None r)
  | TIndex a i, CBin BAssign => Some (mkState (FIndexAssign a i :: st) None r)
  | _, CBin b => Some (mkState (FBin e b :: st) None r)
  | _, CPost p => Some (mkState st (Some (TPost e p)) r)
  | _, CCond => Some (mkState (FCond e :: st) None r)
  | _, CCall => Some (mkState (FCall e [] :: st) None r)
  | _, CIndex => Some (mkState (FIndex e :: st) None r)
  | _, CAttr => match r with IDENT m :: r => Some (mkState st (Some (TAttr e m)) r) | _ => None end
  | _, CHas => match r with IDENT m :: r => Some (mkState st (Some (THasAttr e m)) r) | _ => None end
  end.

(** The expression [e] has been read and the rule below it is not reduced. *)
Definition continue (e : tree) (st : list frame) (ts : list token) : option state :=
  match ts with
  | [] => None
  | t :: r =>
      match cont_of t with
      | Some c => shift e st c r
      | None =>
          match st with
          | FCond c :: st => if is_char ":" t then Some (mkState (FElse c e :: st) None r) else None
          | FParen l :: st =>
              if is_char "," t then Some (mkState (FParen (l ++ [e]) :: st) None r)
              else if is_char ")" t then Some (mkState st (Some (close_paren l e)) r) else None
          | FCall f l :: st =>
              if is_char "," t then Some (mkState (FCall f (l ++ [e]) :: st) None r)
              else if is_char ")" t then Some (mkState st (Some (TCall f (l ++ [e]))) r) else None
          | FMethod a m l :: st =>
              if is_char "," t then Some (mkState (FMethod a m (l ++ [e]) :: st) None r)
              else if is_char ")" t then Some (mkState st (Some (TMethod a m (l ++ [e]))) r) else None
          | FIndex a :: st => if is_char "]" t then Some (mkState st (Some (TIndex a e)) r) else None
          | _ => None
          end
      end
  end.

Definition step (s : state) : option state :=
  match focus s with
  | None => start_expr s
  | Some e =>
      match stack s with
      | f :: st =>
          match open_of f with
          | Some k =>
              if goes_on k (rest s) then continue e (stack s) (rest s)
              else Some (mkState st (Some (reduce f e)) (rest s))
          | None => continue e (stack s) (rest s)
          end
      | [] => continue e [] (rest s)
      end
  end.

(** The tokens are an expression when they end with it on the empty stack. *)
Fixpoint run (fuel : nat) (s : state) : outcome (option tree) :=
  match stack s, focus s, rest s with
  | [], Some e, [] => Ret (Some e)
  | _, _, _ =>
      match fuel with
      | O => NoFuel
      | S fuel => match step s with Some s => run fuel s | None => Ret None end
      end
  end.
Definition parse (ts : list token) : outcome (option tree) :=
  run (3 * length ts + 2) (mkState [] None ts).

End Parser.
Import Parser.
