(* ===== verification/Precedence.v ===== *)
(** * What the parser of expressions accepts

    Of [Grammar.v]: a derivation tree is the one the automaton finds for its tokens exactly if
    the precedences allow it ([prec_ok]), so the parser finds the only allowed tree of a list of
    tokens and accepts every list that has one ([parse_spec]). *)

From S2P Require Import Prelude Util Ident Ast Units Regex Scanner Grammar.
Import Grammar.Syntax Grammar.Parser.

(** ** Trees the precedences allow *)

Module Allowed.

(** The tokens after the expressions at the left end of a tree, and the rules that end with
    its right end. *)
Fixpoint lspine (t : tree) : list token :=
  match t with
  | TBin b l _ => binary_token b :: lspine l
  | TPost e p => postfix_token p :: lspine e
  | TCond c _ | TCondElse c _ _ => CHAR "?" :: lspine c
  | TCall f _ => CHAR "(" :: lspine f
  | TIndex a _ | TIndexAssign a _ _ => CHAR "[" :: lspine a
  | TAttr a _ | TAttrAssign a _ _ | TMethod a _ _ => CHAR "." :: lspine a
  | THasAttr a _ => HASATTR :: lspine a
  | _ => []
  end.
Fixpoint rspine (t : tree) : list open_rule :=
  match t with
  | TBin b _ r => KPrec (binary_prec b) :: rspine r
  | TPre _ e | TIndexAssign _ _ e | TAttrAssign _ _ e => KPrec None :: rspine e
  | TCond _ a => KCond :: rspine a
  | TCondElse _ _ b => KPrec None :: rspine b
  | TAttr _ _ => [KAttr]
  | TIndex _ _ => [KIndex]
  | _ => []
  end.

(** Before the token [tok] all rules at the right end of [e] are reduced; under the rule [k]
    all tokens on the left spine of [e] are shifted. *)
Definition left_ok (e : tree) (tok : token) : bool := forallb (λ k, negb (shifts k tok)) (rspine e).
Definition right_ok (k : open_rule) (e : tree) : bool := forallb (shifts k) (lspine e).

Fixpoint prec_ok (t : tree) : bool :=
  match t with
  | TAtom _ | TSized _ _ | TWidth _ _ _ => true
  | TParen e => prec_ok e
  | TTuple l => negb (length l =? 1) && forallb prec_ok l
  | TBin b l r =>
      prec_ok l && left_ok l (binary_token b) && prec_ok r && right_ok (KPrec (binary_prec b)) r
  | TPre _ e => prec_ok e && right_ok (KPrec None) e
  | TPost e p => prec_ok e && left_ok e (postfix_token p)
  | TCond c a => prec_ok c && left_ok c (CHAR "?") && prec_ok a && right_ok KCond a
  | TCondElse c a b =>
      prec_ok c && left_ok c (CHAR "?") && prec_ok a && right_ok KCond a && left_ok a (CHAR ":") &&
      prec_ok b && right_ok (KPrec None) b
  | TCall f l => prec_ok f && left_ok f (CHAR "(") && forallb prec_ok l
  | TIndex a i => prec_ok a && left_ok a (CHAR "[") && prec_ok i
  | TIndexAssign a i e =>
      prec_ok a && left_ok a (CHAR "[") && prec_ok i && prec_ok e && right_ok (KPrec None) e
  | TAttr a _ => prec_ok a && left_ok a (CHAR ".")
  | THasAttr a _ => prec_ok a && left_ok a HASATTR
  | TAttrAssign a _ e => prec_ok a && left_ok a (CHAR ".") && prec_ok e && right_ok (KPrec None) e
  | TMethod a _ l => prec_ok a && left_ok a (CHAR ".") && forallb prec_ok l
  end.

(** The conditions of a rule one by one. *)
Ltac split_ok H := repeat match type of H with (_ && _)%bool = true =>
  let H' := fresh "Hok" in apply andb_prop in H as [H H'] end.

(** Induction with the elements of tuples. *)
Lemma tree_list_ind (P : tree → Prop) :
  (∀ a, P (TAtom a)) → (∀ n z, P (TSized n z)) → (∀ s w z, P (TWidth s w z)) →
  (∀ e, P e → P (TParen e)) → (∀ l, Forall P l → P (TTuple l)) →
  (∀ b l r, P l → P r → P (TBin b l r)) → (∀ p e, P e → P (TPre p e)) →
  (∀ e p, P e → P (TPost e p)) → (∀ c a, P c → P a → P (TCond c a)) →
  (∀ c a b, P c → P a → P b → P (TCondElse c a b)) →
  (∀ f l, P f → Forall P l → P (TCall f l)) → (∀ a i, P a → P i → P (TIndex a i)) →
  (∀ a i e, P a → P i → P e → P (TIndexAssign a i e)) → (∀ a m, P a → P (TAttr a m)) →
  (∀ a m, P a → P (THasAttr a m)) → (∀ a m e, P a → P e → P (TAttrAssign a m e)) →
  (∀ a m l, P a → Forall P l → P (TMethod a m l)) → ∀ t, P t.
Proof.
  intros H1 H2 H3 H4 H5 H6 H7 H8 H9 H10 H11 H12 H13 H14 H15 H16 H17. fix IH 1.
  assert (IHl : ∀ l, Forall P l) by (fix IHl 1; intros [|x l]; constructor; [apply IH|apply IHl]).
  intros [].
  1: apply H1. 1: apply H2. 1: apply H3. 1: apply H4. 2: apply H5. 3: apply H6. 5: apply H7.
  6: apply H8. 7: apply H9. 9: apply H10. 12: apply H11. 14: apply H12. 16: apply H13.
  19: apply H14. 20: apply H15. 21: apply H16. 23: apply H17.
  all: first [apply IH|apply IHl].
Qed.

End Allowed.
Import Allowed.

(** ** Tokens and continuations *)

Module Conts.

Definition cont_token (c : cont) : token :=
  match c with
  | CBin b => binary_token b
  | CPost p => postfix_token p
  | CCond => CHAR "?" | CCall => CHAR "(" | CIndex => CHAR "[" | CAttr => CHAR "."
  | CHas => HASATTR
  end.

Lemma cont_of_token c : cont_of (cont_token c) = Some c.
Proof. destruct c as [[]|[]| | | | |]; reflexivity. Qed.

Lemma is_char_true c t : is_char c t = true → t = CHAR c.
Proof. destruct t; try done. by intros ->%Ascii.eqb_eq. Qed.

Lemma cont_of_inv t c : cont_of t = Some c → t = cont_token c.
Proof.
  destruct t; try done; cbn [cont_of]; try (by intros [= <-]).
  unfold char_cont.
  repeat (match goal with |- context [Ascii.eqb ?a ?b] => destruct (Ascii.eqb_spec a b) as [->|_] end;
    [by intros [= <-]|]). done.
Qed.

Lemma attr_shifts t : shifts KAttr t = true → t = CHAR "=" ∨ t = CHAR "(".
Proof. intros [H|H]%orb_prop; apply is_char_true in H; auto. Qed.
Lemma index_shifts t : shifts KIndex t = true → t = CHAR "=".
Proof. apply is_char_true. Qed.

End Conts.
Import Conts.

(** ** The parser finds every allowed tree *)

Module Complete.

Definition steps : state → state → Prop := rtc (λ s s', step s = Some s').

(** Under the rule on the stack the tokens are shifted. *)
Definition allows (st : list frame) (ts : list token) : bool :=
  match st with
  | f :: _ => match open_of f with Some k => forallb (shifts k) ts | None => true end
  | [] => true
  end.
Definition ends_before (e : tree) (ts : list token) : bool :=
  match ts with [] => true | t :: _ => left_ok e t end.

Lemma step_continue st e t r :
  allows st [t] = true → step (mkState st (Some e) (t :: r)) = continue e st (t :: r).
Proof.
  unfold step, allows. cbn [focus stack rest]. destruct st as [|f st]; [done|].
  destruct (open_of f) as [k|]; [|done]. cbn [forallb goes_on]. by intros [-> _]%andb_prop.
Qed.

Lemma step_cont st e c r :
  allows st [cont_token c] = true →
  step (mkState st (Some e) (cont_token c :: r)) = shift e st c r.
Proof. intros H. rewrite step_continue by done. unfold continue. by rewrite cont_of_token. Qed.

Lemma step_reduce f st k e r :
  open_of f = Some k → goes_on k r = false →
  step (mkState (f :: st) (Some e) r) = Some (mkState st (Some (reduce f e)) r).
Proof. intros Hf Hg. unfold step. cbn [focus stack rest]. by rewrite Hf, Hg. Qed.

(** Where no special case of [shift] applies. *)
Lemma shift_plain e st c r :
  left_ok e (cont_token c) = true →
  shift e st c r =
  match c with
  | CBin b => Some (mkState (FBin e b :: st) None r)
  | CPost p => Some (mkState st (Some (TPost e p)) r)
  | CCond => Some (mkState (FCond e :: st) None r)
  | CCall => Some (mkState (FCall e [] :: st) None r)
  | CIndex => Some (mkState (FIndex e :: st) None r)
  | CAttr => match r with IDENT m :: r => Some (mkState st (Some (TAttr e m)) r) | _ => None end
  | CHas => match r with IDENT m :: r => Some (mkState st (Some (THasAttr e m)) r) | _ => None end
  end.
Proof. destruct e; try done; destruct c as [[]|[]| | | | |]; done. Qed.

Lemma allows_cons st t ts : allows st (t :: ts) = allows st [t] && allows st ts.
Proof.
  unfold allows. destruct st as [|f st]; [done|]. destruct (open_of f) as [k|]; [|done].
  cbn [forallb]. by rewrite andb_true_r.
Qed.

(** A token without precedence is shifted under any rule. *)
Lemma allows_no_prec st c : cont_prec c = None → allows st [cont_token c] = true.
Proof.
  intros Hc. unfold allows. destruct st as [|f st]; [done|].
  destruct (open_of f) as [k|] eqn:Ek; [|done]. cbn [forallb]. rewrite andb_true_r.
  destruct f; try done; injection Ek as <-; cbn [shifts]; rewrite cont_of_token, ?Hc; try done.
  - by destruct (binary_prec b).
  - apply orb_true_r.
Qed.

(** Tuples: [G] is the frame of the elements so far. *)
Record opens (G : list tree → frame) (close : list tree → tree) : Prop := {
  opens_rule l : open_of (G l) = None;
  opens_empty st r :
    start_expr (mkState (G [] :: st) None (CHAR ")" :: r)) = Some (mkState st (Some (close [])) r);
  opens_comma l e st r :
    continue e (G l :: st) (CHAR "," :: r) = Some (mkState (G (l ++ [e]) :: st) None r);
  opens_close l e st r :
    continue e (G l :: st) (CHAR ")" :: r) = Some (mkState st (Some (close (l ++ [e]))) r) }.

Definition paren (l : list tree) : tree := match l with [e] => TParen e | _ => TTuple l end.
Lemma opens_paren : opens FParen paren.
Proof.
  split; try done. intros l e st r. cbn. f_equal. f_equal. f_equal.
  destruct l as [|x [|y l]]; done.
Qed.
Lemma opens_call f : opens (FCall f) (TCall f).
Proof. by split. Qed.
Lemma opens_method a m : opens (FMethod a m) (TMethod a m).
Proof. by split. Qed.

(** What is to be proved of a tree. *)
Definition found (t : tree) : Prop :=
  prec_ok t = true → ∀ st r, allows st (lspine t) = true → ends_before t r = true →
  steps (mkState st None (yield t ++ r)) (mkState st (Some t) r).

Lemma left_ok_closed e t : cont_of t = None → is_char ":" t = false → left_ok e t = true.
Proof.
  intros Hc Hd. unfold left_ok. apply forallb_forall. intros k _. apply negb_true_iff.
  destruct k; cbn [shifts]; rewrite ?Hc, ?Hd; try done.
  - destruct (is_char "=" t) eqn:E1; [by apply is_char_true in E1 as ->|].
    destruct (is_char "(" t) eqn:E2; [by apply is_char_true in E2 as ->|]. done.
  - destruct (is_char "=" t) eqn:E1; [by apply is_char_true in E1 as ->|]. done.
Qed.

Lemma found_args G close l :
  opens G close → Forall found l → forallb prec_ok l = true → ∀ done st r,
  l ≠ [] →
  steps (mkState (G done :: st) None (separated (map yield l) ++ CHAR ")" :: r))
        (mkState st (Some (close (done ++ l))) r).
Proof.
  intros [H1 H2 H3 H4] Hl. induction Hl as [|x l Hx Hl IH]; intros Hp dn st r Hne; [done|].
  cbn [forallb] in Hp. apply andb_prop in Hp as [Hpx Hp]. cbn [map separated]. rewrite <- app_assoc.
  assert (Ha : ∀ ts, allows (G dn :: st) ts = true) by (intros ts; unfold allows; by rewrite H1).
  destruct l as [|y l].
  - cbn [map concat app]. etrans.
    + apply (Hx Hpx); [apply Ha|]. by apply left_ok_closed.
    + apply rtc_once. rewrite step_continue by apply Ha. by rewrite H4.
  - etrans; [apply (Hx Hpx); [apply Ha|by apply left_ok_closed]|].
    cbn [map concat app]. eapply rtc_l; [rewrite step_continue by apply Ha; apply H3|].
    specialize (IH Hp (dn ++ [x]) st r ltac:(done)). rewrite <- app_assoc in IH. exact IH.
Qed.

Lemma found_parens G close l st r :
  opens G close → Forall found l → forallb prec_ok l = true →
  steps (mkState (G [] :: st) None (separated (map yield l) ++ CHAR ")" :: r))
        (mkState st (Some (close l)) r).
Proof.
  intros HG Hl Hp. destruct l as [|x l].
  - apply rtc_once. apply (opens_empty G close HG).
  - by apply (found_args G close (x :: l) HG Hl Hp []).
Qed.

(** A rule whose last expression is read and then reduced. *)
Lemma found_last f k e st r :
  found e → prec_ok e = true → open_of f = Some k → right_ok k e = true →
  ends_before e r = true → goes_on k r = false →
  steps (mkState (f :: st) None (yield e ++ r)) (mkState st (Some (reduce f e)) r).
Proof.
  intros He Hp Hf Hr Hb Hg. etrans.
  - apply (He Hp); [|done]. unfold allows. by rewrite Hf.
  - apply rtc_once. by apply (step_reduce f st k).
Qed.

(** An expression followed by the rest of a rule that begins with it. *)
Lemma found_first e c st r :
  found e → prec_ok e = true → left_ok e (cont_token c) = true →
  allows st (cont_token c :: lspine e) = true →
  ∀ s, shift e st c r = Some s → steps (mkState st None (yield e ++ cont_token c :: r)) s.
Proof.
  intros He Hp Hl Ha s Hs. rewrite allows_cons in Ha. apply andb_prop in Ha as [Ha1 Ha2]. etrans.
  - by apply (He Hp).
  - apply rtc_once. by rewrite step_cont.
Qed.

Lemma ends_goes e k ks r : rspine e = k :: ks → ends_before e r = true →
  goes_on k r = false ∧ match r with [] => True | t :: _ => forallb (λ k, negb (shifts k t)) ks = true end.
Proof.
  intros E. destruct r as [|t r]; [done|]. unfold ends_before, left_ok. rewrite E. cbn [forallb goes_on].
  by intros [H%negb_true_iff ?]%andb_prop.
Qed.
Lemma ends_spine e e' k r :
  rspine e = k :: rspine e' → ends_before e r = true → goes_on k r = false ∧ ends_before e' r = true.
Proof. intros E H. destruct (ends_goes _ _ _ _ E H). split; [done|]. by destruct r. Qed.

Lemma found_paren e st ts :
  found e → prec_ok e = true →
  steps (mkState (FParen [] :: st) None (yield e ++ CHAR ")" :: ts)) (mkState st (Some (TParen e)) ts).
Proof.
  intros He Hp. assert (Hl : forallb prec_ok [e] = true) by (cbn; by rewrite Hp).
  pose proof (found_args FParen paren [e] opens_paren ltac:(by repeat constructor) Hl [] st ts
    ltac:(done)) as H.
  cbn [map separated concat] in H. by rewrite app_nil_r in H.
Qed.

(** The beginning of a rule, and a flat list of tokens. *)
Ltac read_first e c := eapply (found_first e c); try done; by rewrite shift_plain.
Ltac norm_app := repeat (rewrite <- ?app_assoc; cbn [app]).

Lemma all_found t : found t.
Proof.
  induction t as [a|n z|sg w z|e IH|l IH|b l r IHl IHr|p e IH|e p IH|c a IHc IHa|c a b IHc IHa IHb
    |f l IHf IHl|a i IHa IHi|a i e IHa IHi IHe|a m IHa|a m IHa|a m e IHa IHe|a m l IHa IHl]
    using tree_list_ind; intros Hp st ts Ha Hb; cbn [prec_ok] in Hp; split_ok Hp;
    cbn [yield]; norm_app.
  - apply rtc_once. by destruct a.
  - apply rtc_once. by destruct n.
  - apply rtc_once. by destruct sg.
  - eapply rtc_l; [reflexivity|]. by apply found_paren.
  - unfold in_parens. norm_app. eapply rtc_l; [reflexivity|].
    replace (TTuple l) with (paren l) by (destruct l as [|? [|]]; done).
    by apply (found_parens FParen paren l st ts opens_paren).
  - destruct (ends_spine (TBin b l r) r _ ts eq_refl Hb).
    etrans; [read_first l (CBin b)|].
    by eapply found_last.
  - destruct (ends_spine (TPre p e) e _ ts eq_refl Hb). eapply rtc_l; [by destruct p|].
    by eapply (found_last (FPre p)).
  - read_first e (CPost p).
  - destruct (ends_spine (TCond c a) a _ ts eq_refl Hb).
    etrans; [read_first c CCond|].
    by eapply (found_last (FCond c)).
  - destruct (ends_spine (TCondElse c a b) b _ ts eq_refl Hb).
    etrans; [read_first c CCond|].
    etrans; [apply (IHa Hok3); [done|done]|]. eapply rtc_l; [reflexivity|].
    by eapply (found_last (FElse c a)).
  - unfold in_parens. norm_app.
    etrans; [read_first f CCall|].
    by apply (found_parens _ _ _ _ _ (opens_call f)).
  - etrans; [read_first a CIndex|].
    etrans; [apply (IHi Hok); [done|by apply left_ok_closed]|]. by apply rtc_once.
  - etrans; [read_first a CIndex|].
    etrans; [apply (IHi Hok1); [done|by apply left_ok_closed]|]. eapply rtc_l; [reflexivity|].
    eapply rtc_l; [by rewrite (step_cont st (TIndex a i) (CBin BAssign)) by by apply allows_no_prec|].
    destruct (ends_spine (TIndexAssign a i e) e _ ts eq_refl Hb).
    by eapply (found_last (FIndexAssign a i)).
  - read_first a CAttr.
  - read_first a CHas.
  - etrans; [read_first a CAttr|].
    eapply rtc_l; [by rewrite (step_cont st (TAttr a m) (CBin BAssign)) by by apply allows_no_prec|].
    destruct (ends_spine (TAttrAssign a m e) e _ ts eq_refl Hb).
    by eapply (found_last (FAttrAssign a m)).
  - unfold in_parens. norm_app.
    etrans; [read_first a CAttr|].
    eapply rtc_l; [by rewrite (step_cont st (TAttr a m) CCall) by by apply allows_no_prec|].
    by apply (found_parens _ _ _ _ _ (opens_method a m)).
Qed.

End Complete.
Import Complete.

(** ** What it finds is allowed *)

Module Sound.

(** The tokens of what is on the stack. *)
Definition comma (l : list tree) : list token := concat (map (λ e, yield e ++ [CHAR ","]) l).
Definition frame_yield (f : frame) : list token :=
  match f with
  | FBin l b => yield l ++ [binary_token b]
  | FPre p => [prefix_token p]
  | FCond c => yield c ++ [CHAR "?"]
  | FElse c a => yield c ++ CHAR "?" :: yield a ++ [CHAR ":"]
  | FIndexAssign a i => yield a ++ CHAR "[" :: yield i ++ [CHAR "]"; CHAR "="]
  | FAttrAssign a m => yield a ++ [CHAR "."; IDENT m; CHAR "="]
  | FParen l => CHAR "(" :: comma l
  | FCall f l => yield f ++ CHAR "(" :: comma l
  | FMethod a m l => yield a ++ CHAR "." :: IDENT m :: CHAR "(" :: comma l
  | FIndex a => yield a ++ [CHAR "["]
  end.
Fixpoint stack_yield (st : list frame) : list token :=
  match st with [] => [] | f :: st => stack_yield st ++ frame_yield f end.

(** The left spine a rule will have, and the conditions on what has been read of it. *)
Definition lead (f : frame) : list token :=
  match f with
  | FBin l b => binary_token b :: lspine l
  | FPre _ | FParen _ => []
  | FCond c | FElse c _ => CHAR "?" :: lspine c
  | FIndexAssign a _ | FIndex a => CHAR "[" :: lspine a
  | FAttrAssign a _ | FMethod a _ _ => CHAR "." :: lspine a
  | FCall f _ => CHAR "(" :: lspine f
  end.
Definition frame_ok (f : frame) : bool :=
  match f with
  | FBin l b => prec_ok l && left_ok l (binary_token b)
  | FPre _ => true
  | FCond c => prec_ok c && left_ok c (CHAR "?")
  | FElse c a =>
      prec_ok c && left_ok c (CHAR "?") && prec_ok a && right_ok KCond a && left_ok a (CHAR ":")
  | FIndexAssign a i => prec_ok a && left_ok a (CHAR "[") && prec_ok i
  | FIndex a => prec_ok a && left_ok a (CHAR "[")
  | FAttrAssign a _ => prec_ok a && left_ok a (CHAR ".")
  | FParen l => forallb prec_ok l
  | FCall f l => prec_ok f && left_ok f (CHAR "(") && forallb prec_ok l
  | FMethod a _ l => prec_ok a && left_ok a (CHAR ".") && forallb prec_ok l
  end.
Fixpoint stack_ok (st : list frame) : bool :=
  match st with [] => true | f :: st => frame_ok f && allows st (lead f) && stack_ok st end.

(** Trees the next token may change into another rule. *)
Definition pending (e : tree) : Prop := match e with TAttr _ _ | TIndex _ _ => True | _ => False end.
Definition focus_ok (st : list frame) (e : tree) (r : list token) : Prop :=
  prec_ok e = true ∧ allows st (lspine e) = true ∧ (ends_before e r = true ∨ pending e).
Definition inv (ts : list token) (s : state) : Prop :=
  ts = stack_yield (stack s) ++ from_option yield [] (focus s) ++ rest s ∧
  stack_ok (stack s) = true ∧
  match focus s with Some e => focus_ok (stack s) e (rest s) | None => True end.

Lemma allows_nil st : allows st [] = true.
Proof. unfold allows. destruct st as [|f st]; [done|]. by destruct (open_of f). Qed.

Lemma ends_nil e r : rspine e = [] → ends_before e r = true.
Proof. intros E. destruct r; [done|]. unfold ends_before, left_ok. by rewrite E. Qed.

(** A tree without open ends. *)
Lemma focus_closed st e r :
  prec_ok e = true → allows st (lspine e) = true → rspine e = [] → focus_ok st e r.
Proof. intros. split_and!; [done|done|left; by apply ends_nil]. Qed.

Lemma separated_comma l e : separated (map yield (l ++ [e])) = comma l ++ yield e.
Proof.
  assert (H : ∀ l, concat (map (λ y, CHAR "," :: y) (map yield (l ++ [e]))) =
    match l with [] => CHAR "," :: yield e
    | _ => CHAR "," :: comma l ++ yield e end).
  { induction l0 as [|x l0 IH]; [cbn; by rewrite app_nil_r|]. cbn [map app concat]. rewrite IH.
    unfold comma. destruct l0 as [|y l0]; cbn; rewrite <- ?app_assoc; done. }
  destruct l as [|x l]; [cbn; by rewrite app_nil_r|]. cbn [map app separated]. rewrite H.
  unfold comma. destruct l as [|y l]; cbn; rewrite <- ?app_assoc; done.
Qed.
Lemma comma_snoc l e : comma (l ++ [e]) = comma l ++ yield e ++ [CHAR ","].
Proof. unfold comma. rewrite map_app, concat_app. cbn. by rewrite app_nil_r. Qed.

Lemma integer_of_spec t z : integer_of t = Some z → t = CINTEGER z.
Proof. destruct t; try done. by intros [= ->]. Qed.

Lemma read_operand_spec ts e r :
  read_operand ts = Some (e, r) → ts = yield e ++ r ∧ prec_ok e = true ∧ lspine e = [] ∧ rspine e = [].
Proof.
  assert (Hs : ∀ n ts, read_sized n ts = Some (e, r) →
    int_token n :: ts = yield e ++ r ∧ prec_ok e = true ∧ lspine e = [] ∧ rspine e = []).
  { intros n us. unfold read_sized. destruct us as [|a [|z [|b us]]]; try done.
    destruct (integer_of z) as [v|] eqn:Ez; [|done]. apply integer_of_spec in Ez as ->.
    cbn [mbind option_bind]. destruct (_ && _) eqn:E; [|done]. intros [= <- <-].
    apply andb_prop in E as [->%is_char_true ->%is_char_true]. done. }
  assert (Hw : ∀ sg ts, read_width sg ts = Some (e, r) →
    (if sg : bool then INT else UINT) :: ts = yield e ++ r ∧ prec_ok e = true ∧ lspine e = [] ∧ rspine e = []).
  { intros sg us. unfold read_width. destruct us as [|a [|w [|b [|c [|z [|d us]]]]]]; try done.
    destruct (integer_of w) as [v|] eqn:Ew; [|done]. apply integer_of_spec in Ew as ->.
    cbn [mbind option_bind].
    destruct (integer_of z) as [v'|] eqn:Ez; [|done]. apply integer_of_spec in Ez as ->.
    cbn [mbind option_bind]. destruct (_ && _) eqn:E; [|done]. intros [= <- <-].
    apply andb_prop in E as [[[->%is_char_true ->%is_char_true]%andb_prop ->%is_char_true]%andb_prop
      ->%is_char_true]. by destruct sg. }
  destruct ts as [|[] ts]; try done; cbn [read_operand]; try (by intros [= <- <-]).
  all: try (intros H; by apply Hs in H). all: intros H; by apply Hw in H.
Qed.

Lemma read_prefix_spec t p : read_prefix t = Some p → t = prefix_token p.
Proof.
  destruct t; try done; cbn [read_prefix]; try (by intros [= <-]).
  destruct (Ascii.eqb_spec c "*") as [->|_]; [by intros [= <-]|].
  destruct (Ascii.eqb_spec c "!") as [->|_]; [by intros [= <-]|done].
Qed.

Ltac flatten := cbn [stack_yield frame_yield reduce yield from_option stack focus rest map separated app];
  repeat (cbn [app]; rewrite <- ?app_assoc); cbn [app].

Lemma inv_start ts s s' : inv ts s → focus s = None → start_expr s = Some s' → inv ts s'.
Proof.
  destruct s as [st fo r]. intros (E & Hst & _) Hfo. cbn [stack focus rest] in *. subst fo.
  cbn [from_option app] in E. unfold start_expr. cbn [stack rest].
  destruct (read_operand r) as [[e r']|] eqn:Er.
  { intros [= <-]. apply read_operand_spec in Er as (-> & Hp & Hl & Hr). split; [done|].
    split; [done|]. apply focus_closed; [done| |done]. rewrite Hl. apply allows_nil. }
  destruct r as [|t r]; [done|]. destruct (read_prefix t) as [p|] eqn:Ep.
  { intros [= <-]. apply read_prefix_spec in Ep as ->. split; [|split; [|done]].
    - subst ts. by flatten.
    - cbn. by rewrite allows_nil, Hst. }
  destruct (is_char "(" t) eqn:Eo.
  { intros [= <-]. apply is_char_true in Eo as ->. split; [|split; [|done]].
    - subst ts. by flatten.
    - cbn. by rewrite allows_nil, Hst. }
  destruct (is_char ")" t) eqn:Ec; [|done]. apply is_char_true in Ec as ->.
  destruct st as [|[] st]; try done; destruct l; try done; intros [= <-];
    cbn [stack_ok frame_ok] in Hst; split_ok Hst; (split; [subst ts; by flatten|split; [done|]]);
    apply focus_closed; try done; try apply allows_nil; cbn [prec_ok forallb]; by rewrite ?Hst, ?Hok1, ?Hok2.
Qed.

(** A rule is only reduced where [expr '.' member_expr] and [expr '[' expr ']'] are. *)
Lemma pending_reduced e f k r :
  pending e → open_of f = Some k → goes_on k r = false → ends_before e r = true.
Proof.
  intros He Hf Hg. destruct r as [|t r]; [done|]. cbn [goes_on ends_before] in *.
  assert (Hn : ∀ c, cont_prec c = None → t ≠ cont_token c).
  { intros c Hc ->. pose proof (allows_no_prec [f] c Hc) as H. unfold allows in H.
    rewrite Hf in H. cbn in H. by rewrite Hg in H. }
  destruct e; try done; unfold left_ok; cbn [rspine forallb]; rewrite andb_true_r; apply negb_true_iff,
    not_true_iff_false; intros H.
  - apply index_shifts in H. by apply (Hn (CBin BAssign)).
  - apply attr_shifts in H as [H|H]; [by apply (Hn (CBin BAssign))|by apply (Hn CCall)].
Qed.

Lemma inv_reduce ts f st k e r :
  inv ts (mkState (f :: st) (Some e) r) → open_of f = Some k → goes_on k r = false →
  inv ts (mkState st (Some (reduce f e)) r).
Proof.
  intros (E & Hst & Hp & Ha & Hb) Hf Hg. cbn [stack focus rest stack_ok] in *. split_ok Hst.
  assert (Hb' : ends_before e r = true) by (destruct Hb; [done|by eapply pending_reduced]).
  assert (Hr : right_ok k e = true) by (unfold allows in Ha; by rewrite Hf in Ha).
  split; [|split; [done|]].
  - subst ts. destruct f; try done; by flatten.
  - assert (Hs : rspine (reduce f e) = k :: rspine e) by (destruct f; try done; by injection Hf as <-).
    assert (Hl : lspine (reduce f e) = lead f) by (by destruct f).
    assert (Hpe : prec_ok (reduce f e) = true).
    { destruct f; try done; injection Hf as <-; cbn [frame_ok reduce prec_ok] in *;
        by rewrite ?Hst, ?Hp, ?Hr. }
    cbn [focus stack rest]. split_and!; [done|by rewrite Hl|]. left.
    destruct r as [|t r]; [done|]. unfold ends_before, left_ok in *. rewrite Hs. cbn [forallb goes_on] in *.
    by rewrite Hg, Hb'.
Qed.

(** An expression followed by the token of a continuation. *)
Lemma inv_shift ts st e c r s :
  inv ts (mkState st (Some e) (cont_token c :: r)) → allows st [cont_token c] = true →
  shift e st c r = Some s → inv ts s.
Proof.
  intros (E & Hst & Hp & Ha & Hb) Hc Hs. cbn [stack focus rest] in *. subst ts.
  destruct (left_ok e (cont_token c)) eqn:Hl.
  - rewrite shift_plain in Hs by done.
    assert (Ha' : allows st (cont_token c :: lspine e) = true) by (by rewrite allows_cons, Hc, Ha).
    destruct c as [b|p| | | | |]; cbn [cont_token] in *.
    1,3,4,5: injection Hs as <-; (split; [by flatten|split; [|done]]);
      cbn [stack stack_ok frame_ok forallb lead]; by rewrite Hp, Hl, Ha', Hst.
    + injection Hs as <-. split; [by flatten|split; [done|]]. apply focus_closed; try done.
      cbn [prec_ok]. by rewrite Hp, Hl.
    + destruct r as [|[] r]; try done. injection Hs as <-. split; [by flatten|split; [done|]].
      split_and!; [cbn [prec_ok]; by rewrite Hp, Hl|done|by right].
    + destruct r as [|[] r]; try done. injection Hs as <-. split; [by flatten|split; [done|]].
      apply focus_closed; try done. cbn [prec_ok]. by rewrite Hp, Hl.
  - destruct Hb as [Hb|Hb]; [unfold ends_before in Hb; congruence|].
    unfold left_ok in Hl. destruct e; try done; cbn [rspine forallb] in Hl;
      rewrite andb_true_r in Hl; apply negb_false_iff in Hl; cbn [prec_ok] in Hp.
    + apply index_shifts in Hl. assert (c = CBin BAssign) as ->.
      { pose proof (cont_of_token c) as H. rewrite Hl in H. by injection H. }
      injection Hs as <-. split; [by flatten|split; [|done]].
      cbn [stack stack_ok frame_ok lead]. cbn [lspine] in Ha. by rewrite Hp, Ha, Hst.
    + apply attr_shifts in Hl as [Hl|Hl].
      * assert (c = CBin BAssign) as ->.
        { pose proof (cont_of_token c) as H. rewrite Hl in H. by injection H. }
        injection Hs as <-. split; [by flatten|split; [|done]].
        cbn [stack stack_ok frame_ok lead]. cbn [lspine] in Ha. by rewrite Hp, Ha, Hst.
      * assert (c = CCall) as ->.
        { pose proof (cont_of_token c) as H. rewrite Hl in H. by injection H. }
        injection Hs as <-. split; [by flatten|split; [|done]].
        cbn [stack stack_ok frame_ok lead forallb]. cbn [lspine] in Ha. by rewrite Hp, Ha, Hst.
Qed.

Lemma forallb_snoc l e : forallb prec_ok (l ++ [e]) = forallb prec_ok l && prec_ok e.
Proof. rewrite forallb_app. cbn. by rewrite andb_true_r. Qed.

(** Tuples: [G] is the frame of the elements so far, [close] the tree with one more. *)
Record tuple_frame (G : list tree → frame) (close : list tree → tree → tree) : Prop := {
  tf_ok l e : frame_ok (G (l ++ [e])) = frame_ok (G l) && prec_ok e;
  tf_lead l l' : lead (G l) = lead (G l');
  tf_yield l e : frame_yield (G (l ++ [e])) = frame_yield (G l) ++ yield e ++ [CHAR ","];
  tf_closed l e : frame_ok (G l) = true → prec_ok e = true → prec_ok (close l e) = true;
  tf_lspine l e : lspine (close l e) = lead (G l);
  tf_rspine l e : rspine (close l e) = [];
  tf_close l e : yield (close l e) = frame_yield (G l) ++ yield e ++ [CHAR ")"] }.

Lemma tuple_paren : tuple_frame FParen close_paren.
Proof.
  split; intros; try done; try (by destruct l).
  - apply forallb_snoc.
  - cbn [frame_yield]. by rewrite comma_snoc.
  - destruct l as [|x l]; [done|]. cbn [close_paren prec_ok]. cbn [frame_ok] in *.
    rewrite forallb_snoc, length_app, Nat.add_comm. cbn [length Nat.add Nat.eqb negb]. by rewrite H, H0.
  - destruct l as [|x l]; [done|]. cbn [close_paren yield frame_yield]. unfold in_parens.
    rewrite separated_comma. by flatten.
Qed.
Lemma tuple_call f : tuple_frame (FCall f) (λ l e, TCall f (l ++ [e])).
Proof.
  split; intros; try done.
  - cbn [frame_ok]. by rewrite forallb_snoc, andb_assoc.
  - cbn [frame_yield]. rewrite comma_snoc. by flatten.
  - cbn [prec_ok frame_ok] in *. split_ok H. by rewrite forallb_snoc, H, H0, Hok, Hok0.
  - cbn [yield frame_yield]. unfold in_parens. rewrite separated_comma. by flatten.
Qed.
Lemma tuple_method a m : tuple_frame (FMethod a m) (λ l e, TMethod a m (l ++ [e])).
Proof.
  split; intros; try done.
  - cbn [frame_ok]. by rewrite forallb_snoc, andb_assoc.
  - cbn [frame_yield]. rewrite comma_snoc. by flatten.
  - cbn [prec_ok frame_ok] in *. split_ok H. by rewrite forallb_snoc, H, H0, Hok, Hok0.
  - cbn [yield frame_yield]. unfold in_parens. rewrite separated_comma. by flatten.
Qed.

Lemma inv_tuple ts l st e t r s G close :
  tuple_frame G close → inv ts (mkState (G l :: st) (Some e) (t :: r)) →
  (if is_char "," t then Some (mkState (G (l ++ [e]) :: st) None r)
   else if is_char ")" t then Some (mkState st (Some (close l e)) r) else None) = Some s →
  inv ts s.
Proof.
  intros [T1 T2 T3 T4 T5 T6 T7] (E & Hst & Hp & _) Hs. cbn [stack focus rest stack_ok] in *. subst ts.
  split_ok Hst. destruct (is_char "," t) eqn:Et; [|destruct (is_char ")" t) eqn:Et'; [|done]].
  - apply is_char_true in Et as ->. injection Hs as <-.
    split; [cbn [stack stack_yield]; rewrite T3; by flatten|split; [|done]].
    cbn [stack stack_ok]. by rewrite T1, (T2 _ l), Hst, Hp, Hok, Hok0.
  - apply is_char_true in Et' as ->. injection Hs as <-.
    split; [cbn [stack focus rest from_option]; rewrite T7; by flatten|split; [done|]].
    apply focus_closed; [by apply T4|by rewrite T5|done].
Qed.

(** The tokens that do not follow an expression within a rule of the frames above. *)
Lemma inv_other ts st e t r s :
  inv ts (mkState st (Some e) (t :: r)) → cont_of t = None →
  continue e st (t :: r) = Some s → inv ts s.
Proof.
  intros Hi Hc Hs. unfold continue in Hs. rewrite Hc in Hs. destruct st as [|f st]; [done|].
  destruct f; try done; try first
    [ by eapply (inv_tuple _ _ _ _ _ _ _ _ _ tuple_paren) | by eapply (inv_tuple _ _ _ _ _ _ _ _ _ (tuple_call _))
    | by eapply (inv_tuple _ _ _ _ _ _ _ _ _ (tuple_method _ _)) ].
  all: destruct Hi as (E & Hst & Hp & Ha & Hb); cbn [stack focus rest stack_ok] in *; subst ts; split_ok Hst.
  - destruct (is_char ":" t) eqn:Et; [|done]. apply is_char_true in Et as ->. injection Hs as <-.
    split; [by flatten|split; [|done]]. cbn [stack stack_ok frame_ok lead] in *.
    assert (Hl : left_ok e (CHAR ":") = true) by (destruct Hb as [Hb|Hb]; [done|by destruct e]).
    unfold allows in Ha. cbn [open_of] in Ha. unfold right_ok. by rewrite Hst, Hp, Ha, Hl, Hok, Hok0.
  - cbn [frame_ok lead] in *. split_ok Hst.
    destruct (is_char "]" t) eqn:Et; [|done]. apply is_char_true in Et as ->. injection Hs as <-.
    split; [by flatten|split; [done|]]. split_and!; [|done|by right].
    cbn [prec_ok]. by rewrite Hst, Hp, Hok1.
Qed.

Lemma inv_continue ts st e r s :
  inv ts (mkState st (Some e) r) → allows st (take 1 r) = true →
  continue e st r = Some s → inv ts s.
Proof.
  intros Hi Ha Hs. destruct r as [|t r]; [done|]. cbn [take] in Ha.
  destruct (cont_of t) as [c|] eqn:Ec; [|by eapply inv_other].
  apply cont_of_inv in Ec as ->. unfold continue in Hs. rewrite cont_of_token in Hs.
  by eapply inv_shift.
Qed.

Lemma inv_step ts s s' : inv ts s → step s = Some s' → inv ts s'.
Proof.
  intros Hi Hs. unfold step in Hs. destruct s as [st [e|] r]; [|by eapply inv_start].
  cbn [focus stack rest] in Hs. destruct st as [|f st]; [by eapply inv_continue|].
  destruct (open_of f) as [k|] eqn:Ef.
  - destruct (goes_on k r) eqn:Eg.
    + eapply inv_continue; [done| |done]. unfold allows. rewrite Ef. destruct r; [done|].
      cbn [take forallb goes_on] in *. by rewrite Eg.
    + injection Hs as <-. by eapply inv_reduce.
  - eapply inv_continue; [done| |done]. unfold allows. by rewrite Ef.
Qed.

Lemma run_sound ts fuel s t : inv ts s → run fuel s = Ret (Some t) → yield t = ts ∧ prec_ok t = true.
Proof.
  revert s. induction fuel as [|fuel IH]; intros s Hi; cbn [run];
    destruct s as [[|f st] [e|] [|u r]]; cbn [stack focus rest]; try done.
  all: try (intros [= <-]; destruct Hi as (-> & _ & ? & _); cbn; by rewrite app_nil_r).
  all: destruct (step _) as [s'|] eqn:Es; [|done]; apply IH; by eapply inv_step.
Qed.

(** *** The automaton ends *)

Definition weight (s : state) : nat :=
  3 * length (rest s) + length (stack s) + (if focus s is Some _ then 0 else 1).

Lemma read_operand_length ts e r : read_operand ts = Some (e, r) → length r < length ts.
Proof.
  intros H. apply read_operand_spec in H as (-> & _). rewrite length_app.
  assert (0 < length (yield e)); [|lia].
  destruct (yield e) eqn:E; [|cbn; lia]. exfalso. revert E. clear.
  induction e; cbn; intros E; try done; by apply app_eq_nil in E as [_ ?].
Qed.

Lemma step_weight s s' : step s = Some s' → weight s' < weight s.
Proof.
  unfold step, weight. destruct s as [st [e|] r]; cbn [focus stack rest].
  - assert (Hc : ∀ st r, continue e st r = Some s' →
      weight s' < 3 * length r + length st).
    { clear st r. intros st r. unfold continue, weight. destruct r as [|t r]; [done|].
      destruct (cont_of t) as [c|].
      - intros Hs. assert (Hs' : ∃ f fo r', s' = mkState (f ++ st) fo r' ∧ length f ≤ 1 ∧ length r' ≤ length r).
        { destruct c as [b|p| | | | |].
          - destruct e, b; injection Hs as <-; by eexists [_], _, r.
          - destruct e; injection Hs as <-; eexists [], _, r; cbn; eauto with lia.
          - destruct e; injection Hs as <-; by eexists [_], _, r.
          - destruct e; injection Hs as <-; by eexists [_], _, r.
          - destruct e; injection Hs as <-; by eexists [_], _, r.
          - replace (shift e st CAttr r) with
              (match r with IDENT m :: r => Some (mkState st (Some (TAttr e m)) r) | _ => None end) in Hs
              by by destruct e.
            destruct r as [|[] r]; try done. injection Hs as <-. eexists [], _, r. cbn. eauto with lia.
          - replace (shift e st CHas r) with
              (match r with IDENT m :: r => Some (mkState st (Some (THasAttr e m)) r) | _ => None end) in Hs
              by by destruct e.
            destruct r as [|[] r]; try done. injection Hs as <-. eexists [], _, r. cbn. eauto with lia. }
        destruct Hs' as (f & fo & r' & -> & Hl & Hr). cbn. rewrite length_app. destruct fo; lia.
      - destruct st as [|[] st]; try done; repeat case_bool; try done; intros [= <-]; cbn; lia. }
    unfold weight in Hc. destruct st as [|f st]; [intros H; apply Hc in H; cbn in *; lia|].
    destruct (open_of f); [case_bool|]; [intros H; apply Hc in H; cbn in *; lia| |
      intros H; apply Hc in H; cbn in *; lia].
    intros [= <-]. cbn. lia.
  - unfold start_expr. cbn [stack rest]. destruct (read_operand r) as [[e r']|] eqn:Er.
    { intros [= <-]. apply read_operand_length in Er. cbn. lia. }
    destruct r as [|t r]; [done|]. destruct (read_prefix t); [intros [= <-]; cbn; lia|].
    destruct (is_char "(" t); [intros [= <-]; cbn; lia|]. destruct (is_char ")" t); [|done].
    destruct st as [|[] st]; try done; destruct l; try done; intros [= <-]; cbn; lia.
Qed.

Lemma run_ends fuel s : weight s < fuel → run fuel s ≠ NoFuel.
Proof.
  revert s. induction fuel as [|fuel IH]; intros s Hf; [lia|]. cbn [run].
  destruct s as [[|f st] [e|] [|u r]]; cbn [stack focus rest]; try done.
  all: destruct (step _) as [s'|] eqn:Es; [|done]; apply step_weight in Es; apply IH; lia.
Qed.

Lemma run_steps fuel s t :
  steps s (mkState [] (Some t) []) → run fuel s ≠ NoFuel → run fuel s = Ret (Some t).
Proof.
  intros H. revert fuel. remember (mkState [] (Some t) []) as s' eqn:E.
  induction H as [s|s s1 s2 Hs _ IH]; intros fuel Hf.
  - subst s. by destruct fuel.
  - specialize (IH E). destruct fuel as [|fuel]; cbn [run] in *;
      destruct s as [[|f st] [e|] [|u r]]; cbn [stack focus rest] in *; try done;
      rewrite Hs in Hf |- *; by apply IH.
Qed.

End Sound.
Import Sound.

Lemma parse_complete ts t : yield t = ts → prec_ok t = true → parse ts = Ret (Some t).
Proof.
  intros Hy Hp. apply run_steps; [|by apply run_ends; unfold weight; cbn; lia].
  pose proof (all_found t Hp [] [] eq_refl eq_refl) as H. by rewrite app_nil_r, Hy in H.
Qed.

Lemma parse_sound ts t : parse ts = Ret (Some t) → yield t = ts ∧ prec_ok t = true.
Proof. apply run_sound. by split. Qed.

Lemma parse_ends ts : ∃ o, parse ts = Ret o.
Proof.
  assert (Hr : ∀ fuel s, run fuel s ≠ NoFuel → ∃ o, run fuel s = Ret o).
  { induction fuel as [|fuel IH]; intros s; cbn [run];
      destruct s as [[|f st] [e|] [|u r]]; cbn [stack focus rest]; try done; try (by eexists).
    all: destruct (step _); [apply IH|by eexists]. }
  apply Hr, run_ends. unfold weight. cbn. lia.
Qed.

(** ** The properties *)

(** C10: The parser of expressions is the inverse of writing down the tokens of a tree, on the trees
    the precedences allow: it ends on every list of tokens, and it finds a tree exactly if this
    tree has these tokens and is allowed. *)
Theorem parse_spec ts :
  ∃ o, parse ts = Ret o ∧ ∀ t, o = Some t ↔ yield t = ts ∧ prec_ok t = true.
Proof.
  destruct (parse_ends ts) as [o Ho]. exists o. split; [done|]. intros t. split.
  - intros ->. by apply parse_sound.
  - intros [Hy Hp]. pose proof (parse_complete ts t Hy Hp) as H. rewrite Ho in H. by injection H.
Qed.
