(* ===== verification/ReadBack.v ===== *)
(** * Expressions written as texts

    The scanner ([Scanning.v]) and the parser of expressions ([Precedence.v]) together: every
    expression has a text, with parentheses around all operands, that is read back as it
    ([expression_read_back]).  And with the C++ the expressions are translated to ([Exec.v]):
    what the operators the grammar derives from others compute ([derived_comparisons]). *)

From S2P Require Import Prelude Util Runtime Ident Ast Units Translate Exec Resume Regex Scanner Scanning Grammar Precedence.
Import Scanner.Lexer Scanning.Written Scanning.Texts Grammar.Syntax Grammar.Parser Precedence.Allowed.
Import Regex.Regex Runtime.Memory Translate.Meaning Exec.Types Exec.Eval.

(** ** Parentheses around the operands *)

Module Parens.

Fixpoint wrap (t : tree) : tree :=
  match t with
  | TAtom _ | TSized _ _ | TWidth _ _ _ => t
  | TParen e => TParen (wrap e)
  | TTuple l => TTuple (map wrap l)
  | TBin b l r => TBin b (TParen (wrap l)) (TParen (wrap r))
  | TPre p e => TPre p (TParen (wrap e))
  | TPost e p => TPost (TParen (wrap e)) p
  | TCond c a => TCond (TParen (wrap c)) (TParen (wrap a))
  | TCondElse c a b => TCondElse (TParen (wrap c)) (TParen (wrap a)) (TParen (wrap b))
  | TCall f l => TCall (TParen (wrap f)) (map wrap l)
  | TIndex a i => TIndex (TParen (wrap a)) (wrap i)
  | TIndexAssign a i e => TIndexAssign (TParen (wrap a)) (wrap i) (TParen (wrap e))
  | TAttr a m => TAttr (TParen (wrap a)) m
  | THasAttr a m => THasAttr (TParen (wrap a)) m
  | TAttrAssign a m e => TAttrAssign (TParen (wrap a)) m (TParen (wrap e))
  | TMethod a m l => TMethod (TParen (wrap a)) m (map wrap l)
  end.

(** A tuple of one expression is read as the expression in parentheses. *)
Fixpoint no_single (t : tree) : bool :=
  match t with
  | TAtom _ | TSized _ _ | TWidth _ _ _ => true
  | TParen e | TPre _ e | TPost e _ | TAttr e _ | THasAttr e _ => no_single e
  | TTuple l => negb (length l =? 1) && forallb no_single l
  | TBin _ a b | TCond a b | TIndex a b | TAttrAssign a _ b => no_single a && no_single b
  | TCondElse a b c | TIndexAssign a b c => no_single a && no_single b && no_single c
  | TCall f l | TMethod f _ l => no_single f && forallb no_single l
  end.

Lemma forallb_wrap (f g : tree → bool) l :
  Forall (λ t, g t = true → f (wrap t) = true) l → forallb g l = true → forallb f (map wrap l) = true.
Proof.
  induction 1 as [|x l Hx _ IH]; [done|]. cbn. intros [??]%andb_prop. by rewrite Hx, IH.
Qed.

Lemma wrap_ok t : no_single t = true → prec_ok (wrap t) = true.
Proof.
  induction t as [a|n z|sg w z|e IH|l IH|b l r IHl IHr|p e IH|e p IH|c a IHc IHa|c a b IHc IHa IHb
    |f l IHf IHl|a i IHa IHi|a i e IHa IHi IHe|a m IHa|a m IHa|a m e IHa IHe|a m l IHa IHl]
    using tree_list_ind; cbn [no_single wrap prec_ok]; intros H; bool_to_prop;
    unfold left_ok, right_ok; cbn [rspine lspine forallb]; rewrite ?andb_true_r; auto with bool.
  all: repeat match goal with
    | |- (_ && _)%bool = true => apply andb_true_intro; split
    | |- forallb prec_ok (map wrap _) = true => by eapply forallb_wrap
    end; auto.
  rewrite length_map. by apply negb_true_iff, Nat.eqb_neq.
Qed.

Lemma mapM_wrap sn l :
  Forall (λ t, action sn (wrap t) = action sn t) l → mapM (action sn) (map wrap l) = mapM (action sn) l.
Proof. induction 1 as [|x l Hx _ IH]; [done|]. cbn [mapM map]. cbn. by rewrite Hx, IH. Qed.

Lemma wrap_action sn t : action sn (wrap t) = action sn t.
Proof.
  induction t using tree_list_ind; cbn [wrap action]; rewrite ?mapM_wrap by done;
    repeat match goal with H : action _ (wrap _) = _ |- _ => rewrite H; clear H end; done.
Qed.

(** The parentheses and commas are the only tokens that are added. *)
Lemma separated_Forall (P : token → Prop) l :
  P (CHAR ",") → Forall P (separated l) ↔ Forall (Forall P) l.
Proof.
  intros Hc. destruct l as [|x l]; [by split|]. cbn [separated]. rewrite list.Forall_app, list.Forall_cons.
  apply and_iff_compat_l. induction l as [|y l IH]; [by split|]. cbn [map concat].
  rewrite list.Forall_app, !list.Forall_cons, IH. tauto.
Qed.

Lemma separated_sub (P : token → Prop) l : Forall P (separated l) → Forall (Forall P) l.
Proof.
  destruct l as [|x l]; [by constructor|]. cbn [separated]. rewrite list.Forall_app. intros [Hx H].
  constructor; [done|]. clear Hx. induction l as [|y l IH]; [by constructor|].
  cbn [map concat] in H. rewrite list.Forall_app, list.Forall_cons in H. constructor; [tauto|]. tauto.
Qed.

Section Tokens.
  Context (P : token → Prop) (Hopen : P (CHAR "(")) (Hclose : P (CHAR ")")) (Hcomma : P (CHAR ",")).

Lemma in_parens_Forall l : Forall P (in_parens l) ↔ Forall (Forall P) l.
Proof using All.
  unfold in_parens. rewrite list.Forall_cons, list.Forall_app, list.Forall_singleton, separated_Forall by done.
  tauto.
Qed.

Lemma map_wrap_Forall l :
  Forall (λ t, Forall P (yield t) → Forall P (yield (wrap t))) l →
  Forall (Forall P) (map yield l) → Forall (Forall P) (map yield (map wrap l)).
Proof using All.
  induction 1 as [|x l Hx _ IH]; [done|]. cbn [map]. rewrite !list.Forall_cons. intros [??]. auto.
Qed.

Lemma wrap_tokens t : Forall P (yield t) → Forall P (yield (wrap t)).
Proof using All.
  induction t using tree_list_ind; cbn [wrap yield];
    rewrite ?in_parens_Forall, ?list.Forall_app, ?list.Forall_cons, ?list.Forall_app, ?list.Forall_cons,
      ?list.Forall_app, ?list.Forall_cons, ?in_parens_Forall, ?list.Forall_nil; try tauto.
  - by apply map_wrap_Forall.
  - intros [? ?]. split; [tauto|]. by apply map_wrap_Forall.
  - intros (? & ? & ? & ?). split_and!; try tauto. by apply map_wrap_Forall.
Qed.

End Tokens.

End Parens.
Import Parens.

(** ** Texts of tokens *)

Module Spelling.
Section Spelling.
  Context (strtod : string → double).

Definition spelled (t : token) : Prop := ∃ w, written strtod t w.

Lemma char_spelled c : Overlap.occurs c Rules.punctuation → spelled (CHAR c).
Proof. intros H. exists (String c ""). by constructor. Qed.

(** One blank after each token. *)
Lemma spell ts : Forall spelled ts → ∃ l, Forall (piece_ok strtod) l ∧ tokens_of l = ts.
Proof.
  induction 1 as [|t ts [w Hw] _ (l & Hl & <-)]; [by exists []|].
  exists ((t, w, " ") :: l). split; [|done]. constructor; [|done]. by split_and!.
Qed.

End Spelling.
End Spelling.
Import Spelling.

Section Claims.
  Context {L : Type} `{!Locations L} (strtod : string → double) (stream_name : string).

(** C9: An expression whose tokens have texts has a text that the scanner and the parser read as
    an expression with the same node of the syntax tree. *)
Theorem expression_read_back t (loc : L) :
  Forall (spelled strtod) (yield t) → no_single t = true →
  ∃ text ts s t', scan strtod text loc = Ret (ts, s) ∧ errors s = 0%Z ∧
    parse ts = Ret (Some t') ∧ action stream_name t' = action stream_name t.
Proof.
  intros Ht Hs.
  assert (Hw : Forall (spelled strtod) (yield (wrap t))).
  { apply wrap_tokens; [apply char_spelled; vm_compute; tauto..|done]. }
  destruct (spell strtod _ Hw) as (l & Hl & El).
  destruct (scan_pieces strtod l loc Hl) as (s & Es & _ & Hs0).
  exists (text_of l), (tokens_of l), s, (wrap t). split_and!; [done|done| |apply wrap_action].
  rewrite El. by apply parse_complete; [|apply wrap_ok].
Qed.

End Claims.

(** ** The derived operators *)

Module Derived.

(** What [!=], [<=], [>=] and [>] say of two numbers. *)
Definition compare (b : binary) : option (Z → Z → bool) :=
  match b with
  | BNeq => Some (λ v w, negb (v =? w)%Z)
  | BLeq => Some Z.leb
  | BGeq => Some (λ v w, (w <=? v)%Z)
  | BGreater => Some (λ v w, (w <? v)%Z)
  | _ => None
  end.

Section Eval.
  Context (es : enums) (members : list (string * (Z * string))) (u : Z) (d : option Z).

(** A comparison in C++, with the conversion of both sides to their common type. *)
Definition eval_compare (f : Z → Z → bool) (x y : Cpp.cexpr) (m : mem) : outcome (Z * mem) :=
  ca ← typeof es members x; cb ← typeof es members y; c ← common ca cb;
  '(v, m) ← eval es members u d x m; '(w, m) ← eval es members u d y m;
  Ret (of_bool (f (cast c v) (cast c w)), m).

Lemma eval_compare_ext f g x y m :
  (∀ v w, f v w = g v w) → eval_compare f x y m = eval_compare g x y m.
Proof using.
  intros H. unfold eval_compare. destruct (typeof es members x) as [ca| | |]; try done.
  destruct (typeof es members y) as [cb| | |]; try done. cbn [mbind outcome_bind].
  destruct (common ca cb) as [c| | |]; try done. cbn [mbind outcome_bind].
  destruct (eval es members u d x m) as [[v m1]| | |]; try done. cbn [mbind outcome_bind].
  destruct (eval es members u d y m1) as [[w m2]| | |]; try done. cbn [mbind outcome_bind].
  by rewrite H.
Qed.

Lemma eval_bin o f x y m :
  (o, f) ∈ [(Cpp.BEqual, Z.eqb); (Cpp.BGreater, Z.gtb); (Cpp.BLess, Z.ltb)] →
  eval es members u d (Cpp.XBin o x y) m = eval_compare f x y m.
Proof using.
  intros H. unfold eval_compare. repeat (apply elem_of_cons in H as [[= -> ->]|H]); [..|by apply elem_of_nil in H].
  all: cbn [eval]; reflexivity.
Qed.

Lemma eval_not f x y m o :
  (o, f) ∈ [(Cpp.BEqual, Z.eqb); (Cpp.BGreater, Z.gtb); (Cpp.BLess, Z.ltb)] →
  eval es members u d (Cpp.XNot (Cpp.XBin o x y)) m = eval_compare (λ v w, negb (f v w)) x y m.
Proof using.
  intros H.
  assert (E : eval es members u d (Cpp.XNot (Cpp.XBin o x y)) m =
    ('(v, m) ← eval es members u d (Cpp.XBin o x y) m; b ← truth CBool v; Ret (of_bool (negb b), m))).
  { repeat (apply elem_of_cons in H as [[= -> ->]|H]); [..|by apply elem_of_nil in H]; reflexivity. }
  rewrite E, (eval_bin o f) by done. unfold eval_compare.
  destruct (typeof es members x) as [ca| | |]; try done. destruct (typeof es members y) as [cb| | |]; try done.
  cbn [mbind outcome_bind]. destruct (common ca cb) as [c| | |]; try done. cbn [mbind outcome_bind].
  destruct (eval es members u d x m) as [[v m1]| | |]; try done. cbn [mbind outcome_bind].
  destruct (eval es members u d y m1) as [[w m2]| | |]; try done. cbn [mbind outcome_bind truth].
  by destruct (f _ _).
Qed.

(** [a > b] is [!(a < b || a == b)], which evaluates the operands twice. *)
Lemma eval_greater x y m :
  pure x = true → pure y = true →
  eval es members u d
    (Cpp.XNot (Cpp.XBin Cpp.BOr (Cpp.XBin Cpp.BLess x y) (Cpp.XBin Cpp.BEqual x y))) m =
  eval_compare (λ v w, (w <? v)%Z) x y m.
Proof using.
  intros Hx Hy.
  assert (E : eval es members u d
      (Cpp.XNot (Cpp.XBin Cpp.BOr (Cpp.XBin Cpp.BLess x y) (Cpp.XBin Cpp.BEqual x y))) m =
    ('(v, m) ←
       ('(v, m) ← eval es members u d (Cpp.XBin Cpp.BLess x y) m; t ← truth CBool v;
        (if t : bool then Ret (1%Z, m)
         else '(w, m) ← eval es members u d (Cpp.XBin Cpp.BEqual x y) m;
              t ← truth CBool w; Ret (of_bool t, m)));
     b ← truth CBool v; Ret (of_bool (negb b), m))) by reflexivity.
  rewrite E, (eval_bin Cpp.BLess Z.ltb) by (right; right; left). unfold eval_compare at 1.
  unfold eval_compare.
  destruct (typeof es members x) as [ca| | |] eqn:Tx; try done.
  destruct (typeof es members y) as [cb| | |] eqn:Ty; try done. cbn [mbind outcome_bind].
  destruct (common ca cb) as [c| | |] eqn:Ec; try done. cbn [mbind outcome_bind].
  destruct (eval es members u d x m) as [[v m1]| | |] eqn:Ex; try done. cbn [mbind outcome_bind].
  pose proof (eval_pure _ _ _ _ _ _ _ _ Hx Ex) as ->.
  destruct (eval es members u d y m) as [[w m2]| | |] eqn:Ey; try done. cbn [mbind outcome_bind truth].
  pose proof (eval_pure _ _ _ _ _ _ _ _ Hy Ey) as ->.
  destruct (Z.ltb_spec (cast c v) (cast c w)) as [H|H];
    cbn [of_bool Z.eqb negb mbind outcome_bind].
  - destruct (Z.ltb_spec (cast c w) (cast c v)); [lia|done].
  - rewrite (eval_bin Cpp.BEqual Z.eqb) by left. unfold eval_compare.
    rewrite Tx, Ty. cbn [mbind outcome_bind]. rewrite Ec. cbn [mbind outcome_bind]. rewrite Ex.
    cbn [mbind outcome_bind]. rewrite Ey. cbn [mbind outcome_bind].
    destruct (Z.eqb_spec (cast c v) (cast c w)); destruct (Z.ltb_spec (cast c w) (cast c v)); try done; lia.
Qed.

End Eval.
End Derived.
Import Derived.

(** C23: The operators [!=], [<=], [>=] and [>], which the grammar writes with [==], [<] and [>] of
    the syntax tree, are translated to C++ that compares as they say, with the errors of the
    operands and their conversions, if the operands assign nothing. *)
Theorem derived_comparisons us stream_name b f l r el er x y :
  compare b = Some f → action stream_name l = Some el → action stream_name r = Some er →
  cpp us el = Some x → cpp us er = Some y → pure x = true → pure y = true →
  ∃ e z, action stream_name (TBin b l r) = Some e ∧ cpp us e = Some z ∧
    ∀ es members u d m, eval es members u d z m = eval_compare es members u d f x y m.
Proof.
  intros Hb Hl Hr Hx Hy Px Py. cbn [action]. rewrite Hl, Hr. cbn [mbind option_bind].
  destruct b; try done; injection Hb as <-; cbn [binary_expr]; eexists; eexists.
  all: split; [done|split; [unfold makeOp, new_expr; cbn; by rewrite Hx, Hy|]].
  all: intros es members u d m.
  - by rewrite (eval_not es members u d Z.eqb) by left.
  - rewrite (eval_not es members u d Z.gtb) by (right; left). apply eval_compare_ext. intros v w.
    rewrite Z.gtb_ltb. apply eq_sym, Z.leb_antisym.
  - rewrite (eval_not es members u d Z.ltb) by (right; right; left). apply eval_compare_ext.
    intros v w. apply eq_sym, Z.leb_antisym.
  - by apply eval_greater.
Qed.

(** ** Concrete inputs *)

Module Sample.

(** [a * b + c] as the product of [a] and a sum, and as a sum. *)
Definition var (s : string) : tree := TAtom (AIdent s).
Definition product : tree := TBin BMult (var "a") (TBin BPlus (var "b") (TAtom (AInteger 2))).
Definition sum : tree := TBin BPlus (TBin BMult (var "a") (var "b")) (TAtom (AInteger 2)).

(** The grammar has no precedence of [*] and of [!]: the parser takes the product, and the
    negation of a conjunction for [!a && b]. *)
Example product_or_sum :
  yield product = yield sum ∧ parse (yield sum) = Ret (Some product) ∧
  parse [CHAR "!"; IDENT "a"; AND; IDENT "b"] = Ret (Some (TPre PreNot (TBin BAnd (var "a") (var "b")))).
Proof. by split_and!. Qed.

Lemma sum_spelled : Forall (spelled Scanning.Sample.decimal) (yield sum).
Proof.
  assert (Hid : ∀ s, accepts Rules.id s = true → bool_decide (s ∈ Scanning.Written.reserved) = false →
    spelled Scanning.Sample.decimal (IDENT s)).
  { intros s H1 H2. exists s. apply W_ident; [by apply accepts_spec|].
    by apply bool_decide_eq_false in H2. }
  assert (Hch : ∀ c, Overlap.occurs c Rules.punctuation → spelled Scanning.Sample.decimal (CHAR c))
    by apply char_spelled.
  repeat constructor.
  - by apply Hid.
  - apply Hch. vm_compute. tauto.
  - by apply Hid.
  - apply Hch. vm_compute. tauto.
  - exists "2". apply (W_integer _ 2). lia.
Qed.

End Sample.

#[local] Existing Instance Scanning.Sample.counting.

Lemma expression_read_back_witness :
  ∃ text ts s t', scan Scanning.Sample.decimal text (1, 1)%Z = Ret (ts, s) ∧ errors s = 0%Z ∧
    parse ts = Ret (Some t') ∧ action "file" t' = action "file" Sample.sum.
Proof.
  exact (expression_read_back Scanning.Sample.decimal "file" Sample.sum (1, 1)%Z Sample.sum_spelled eq_refl).
Defined.

Lemma derived_comparisons_witness :
  ∃ e z, action "file" (TBin BGreater (TAtom (AInteger 3)) (TAtom (AInteger 2))) = Some e ∧
    cpp ∅ e = Some z ∧
    ∀ es members u d m, eval es members u d z m =
      eval_compare es members u d (λ v w, (w <? v)%Z) (Cpp.XLit 3) (Cpp.XLit 2) m.
Proof.
  exact (derived_comparisons ∅ "file" BGreater (λ v w, (w <? v)%Z) (TAtom (AInteger 3))
    (TAtom (AInteger 2)) _ _ (Cpp.XLit 3) (Cpp.XLit 2) eq_refl eq_refl eq_refl eq_refl eq_refl
    eq_refl eq_refl).
Defined.
