(* ===== verification/Lalr.v ===== *)
(** * LALR(1) parsers as bison makes them

    [src/src/spec/parser/parser.yy] is the input of bison.  This file has what bison makes of
    any such grammar: the collection of LALR(1) states ([Construction]) with the conflicts
    resolved by the declared precedences, and the automaton that shifts and reduces
    ([Automaton]).  A boolean validation of the table ([valid]) is enough for the automaton to
    be correct ([Correctness]): it ends on all tokens without an error of its stack, and it
    finds exactly the derivation trees whose own walk through the states agrees with the
    table.  [Yacc.v] has the grammar of the repository.

    Symbols, rules and states are positive numbers; rule 1 is the one of the start symbol. *)

From S2P Require Import Prelude.
From stdpp Require Import pmap.

(** ** Grammars *)

Module Grammars.

(** A rule with its [%prec], if it has one. *)
Record rule := mkRule { lhs : positive; rhs : list positive; explicit_prec : option positive }.
#[export] Instance rule_eq_dec : EqDecision rule.
Proof. solve_decision. Defined.

(** [level] is the line of the [%left] a token is declared in. *)
Record grammar := mkGrammar {
  rules : list rule;
  is_token : positive → bool;
  level : positive → option nat;
  end_ : positive }.

(** The precedence of a rule: of its [%prec], or of its last token. *)
Definition rule_level (g : grammar) (r : rule) : option nat :=
  match explicit_prec r with
  | Some t => level g t
  | None => last (filter (λ s, is_token g s = true) (rhs r)) ≫= level g
  end.

(** Sets of tokens as bit masks. *)
Definition bit (t : positive) : N := N.shiftl 1 (Npos t).
Definition has (t : positive) (s : N) : bool := N.testbit s (Npos t).

(** Rules by number and by left-hand side, nullable symbols and first sets. *)
Record analysis := mkAnalysis {
  rule_at : Pmap rule;
  alternatives : Pmap (list positive);
  nullable : Pmap unit;
  firsts : Pmap N }.

Definition is_nullable (a : analysis) (s : positive) : bool :=
  if nullable a !! s is Some _ then true else false.
Fixpoint first_of (g : grammar) (a : analysis) (l : list positive) (follow : N) : N :=
  match l with
  | [] => follow
  | s :: l =>
      if is_token g s then bit s
      else
        let f := default 0%N (firsts a !! s) in
        if is_nullable a s then N.lor f (first_of g a l follow) else f
  end.

Fixpoint numbered {A} (n : positive) (l : list A) : list (positive * A) :=
  match l with [] => [] | x :: l => (n, x) :: numbered (Pos.succ n) l end.

Definition index_rules (g : grammar) : analysis :=
  foldl (λ a nr,
    mkAnalysis (<[nr.1 := nr.2]> (rule_at a))
      (<[lhs nr.2 := default [] (alternatives a !! lhs nr.2) ++ [nr.1]]> (alternatives a)) ∅ ∅)
    (mkAnalysis ∅ ∅ ∅ ∅) (numbered 1 (rules g)).

(** One round over the rules; as many rounds as there are rules reach the fixed point. *)
Definition analyse_rule (g : grammar) (a : analysis) (r : rule) : analysis :=
  mkAnalysis (rule_at a) (alternatives a)
    (if forallb (is_nullable a) (rhs r) then <[lhs r := tt]> (nullable a) else nullable a)
    (<[lhs r := N.lor (default 0%N (firsts a !! lhs r)) (first_of g a (rhs r) 0)]> (firsts a)).
Definition analyse (g : grammar) : analysis :=
  foldl (λ a _, foldl (analyse_rule g) a (rules g)) (index_rules g) (rules g).

End Grammars.
Import Grammars.

(** ** Tables *)

Module Tables.

(** A state: the items of its kernel, a rule and how much of it has been read; where the
    symbols lead; the rules that are complete, with the tokens that may follow. *)
Record lr_state := mkLrState {
  items : list (positive * nat);
  gotos : Pmap positive;
  reductions : list (positive * N) }.
Definition table := Pmap lr_state.

Inductive action := Shift | Reduce (r : positive) | Accept | Fail.
#[export] Instance action_eq_dec : EqDecision action.
Proof. solve_decision. Defined.

Definition goto (tbl : table) (n s : positive) : option positive :=
  tbl !! n ≫= λ st, gotos st !! s.

(** bison reduces without looking at the next token if a state has one reduction and shifts no
    token. *)
Definition consistent (g : grammar) (st : lr_state) : option positive :=
  match reductions st with
  | [(r, _)] =>
      if Pos.eqb r 1 || existsb (λ sm, is_token g sm.1) (map_to_list (gotos st))
      then None else Some r
  | _ => None
  end.

(** [left t r]: with both precedences declared, which of rule and token is stronger? *)
Definition compare (lt lr : option nat) : option comparison :=
  match lt, lr with
  | Some t, Some r => Some (Nat.compare t r)
  | _, _ => None
  end.

(** Conflicts: without precedences a shift wins over a reduction and an earlier rule over a
    later one; all tokens are left-associative. *)
Definition lookahead_action (g : grammar) (level_of : positive → option nat) (st : lr_state)
    (t : positive) : action :=
  let candidates := filter (λ rl, has t rl.2 = true) (reductions st) in
  let versus r := compare (level g t) (level_of r) in
  let shift := if gotos st !! t is Some _ then true else false in
  if shift && forallb (λ rl, match versus rl.1 with Some Lt | Some Eq => false | _ => true end) candidates
  then Shift
  else
    match filter (λ rl, (if versus rl.1 is Some Gt then negb shift else true) = true) candidates with
    | [] => Fail
    | (r, _) :: rest =>
        let r := foldl (λ r rl, Pos.min r rl.1) r rest in
        if Pos.eqb r 1 then Accept else Reduce r
    end.

End Tables.
Import Tables.

(** ** The LALR(1) collection *)

Module Construction.
Section Construction.
  Context (g : grammar) (a : analysis).

(** Items with the tokens that may follow, by a number for the item. *)
Definition item := (positive * nat)%type.
Definition code (i : item) : positive := encode (i.1, Pos.of_succ_nat i.2).
Definition item_set := Pmap (item * N).

Definition rest_of (i : item) : list positive :=
  match rule_at a !! i.1 with Some r => drop i.2 (rhs r) | None => [] end.

(** Add the tokens [la] to an item of [c]; [None] if they are there. *)
Definition add_item (i : item) (la : N) (c : item_set) : option item_set :=
  match c !! code i with
  | None => Some (<[code i := (i, la)]> c)
  | Some (_, old) =>
      let new := N.lor old la in
      if N.eqb new old then None else Some (<[code i := (i, new)]> c)
  end.

Fixpoint closure (fuel : nat) (work : list item) (c : item_set) : item_set :=
  match fuel, work with
  | S fuel, i :: work =>
      match rest_of i with
      | s :: beta =>
          let la := from_option snd 0%N (c !! code i) in
          let follow := first_of g a beta la in
          let '(work, c) := foldl (λ wc r,
            match add_item (r, 0) follow wc.2 with
            | Some c => ((r, 0) :: wc.1, c)
            | None => wc
            end) (work, c) (default [] (alternatives a !! s)) in
          closure fuel work c
      | [] => closure fuel work c
      end
  | _, _ => c
  end.

(** States under construction: kernels with lookaheads, by number and by core. *)
Record building := mkBuilding {
  kernels : Pmap item_set;
  targets : Pmap (Pmap positive);
  index : Pmap positive;
  next : positive }.

Definition elements (c : item_set) : list (item * N) := map snd (map_to_list c).
Definition core (c : item_set) : positive := encode (map fst (map_to_list c)).

(** The kernels the symbols lead to. *)
Definition advance (c : item_set) : Pmap item_set :=
  foldl (λ m il,
    match rest_of il.1 with
    | [] => m
    | s :: _ =>
        let i := (il.1.1, S il.1.2) in
        <[s := <[code i := (i, il.2)]> (default ∅ (m !! s))]> m
    end) ∅ (elements c).

Definition merge (new old : item_set) : item_set * bool :=
  foldl (λ cb il,
    match add_item il.1 il.2 cb.1 with Some c => (c, true) | None => cb end)
    (old, false) (elements new).

(** The state with the core of a kernel, and whether it has to be looked at again. *)
Definition place (k : item_set) (b : building) : positive * bool * building :=
  match index b !! core k with
  | Some m =>
      let '(k, changed) := merge k (default ∅ (kernels b !! m)) in
      (m, changed, if changed then mkBuilding (<[m := k]> (kernels b)) (targets b) (index b) (next b) else b)
  | None =>
      let m := next b in
      (m, true, mkBuilding (<[m := k]> (kernels b)) (targets b) (<[core k := m]> (index b)) (Pos.succ m))
  end.

Fixpoint collect (fuel : nat) (close_fuel : nat) (work : list positive) (b : building) : building :=
  match fuel, work with
  | S fuel, n :: work =>
      let k := default ∅ (kernels b !! n) in
      let c := closure close_fuel (map fst (elements k)) k in
      let '(work, t, b) := foldl (λ wtb sk,
        let '(work, t, b) := wtb in
        let '(m, changed, b) := place sk.2 b in
        (if changed : bool then if bool_decide (m ∈ work) then work else work ++ [m] else work,
         <[sk.1 := m]> t, b))
        (work, ∅, b) (map_to_list (advance c)) in
      collect fuel close_fuel work (mkBuilding (kernels b) (<[n := t]> (targets b)) (index b) (next b))
  | _, _ => b
  end.

Definition start_kernel : item_set := {[ code (1%positive, 0) := ((1%positive, 0), bit (end_ g)) ]}.
Definition first_state : building :=
  mkBuilding {[ 1%positive := start_kernel ]} ∅ {[ core start_kernel := 1%positive ]} 2.

Definition finish (close_fuel : nat) (b : building) (n : positive) (k : item_set) : lr_state :=
  let c := closure close_fuel (map fst (elements k)) k in
  mkLrState (map fst (elements k)) (default ∅ (targets b !! n))
    (omap (λ il, match rest_of il.1 with [] => Some (il.1.1, il.2) | _ => None end) (elements c)).

(** The table; [fuel] bounds how often a state is looked at, [close_fuel] the items that are
    added to one. *)
Definition build (fuel close_fuel : nat) : table :=
  let b := collect fuel close_fuel [1%positive] first_state in
  map_imap (λ n k, Some (finish close_fuel b n k)) (kernels b).

End Construction.
End Construction.

(** ** The automaton *)

Module Automaton.

Section Trees.
  Context {token : Type}.

(** Derivation trees: tokens, and rules with the trees of their right-hand sides. *)
#[warnings="-register-all"]
Inductive tree := Leaf (t : token) | Node (r : positive) (l : list tree).

Fixpoint yield (t : tree) : list token :=
  match t with Leaf t => [t] | Node _ l => concat (map yield l) end.

Lemma tree_ind' (P : tree → Prop) :
  (∀ t, P (Leaf t)) → (∀ r l, Forall P l → P (Node r l)) → ∀ t, P t.
Proof.
  intros HL HN. fix IH 1. intros [t|r l]; [apply HL|]. apply HN. induction l; constructor; auto.
Qed.

End Trees.
Arguments tree : clear implicits.

Section Automaton.
  Context (g : grammar) (a : analysis) (tbl : table) {token : Type} (kind : token → positive).

Definition level_of (r : positive) : option nat := rule_at a !! r ≫= rule_level g.
Definition symbol_of (t : tree token) : option positive :=
  match t with Leaf t => Some (kind t) | Node r _ => lhs <$> rule_at a !! r end.

(** What the table says in a state in front of the rest of the input. *)
Definition lookahead (ts : list token) : positive :=
  match ts with [] => end_ g | t :: _ => kind t end.
Definition action_at (n : positive) (ts : list token) : action :=
  match tbl !! n with
  | None => Fail
  | Some st =>
      match consistent g st with
      | Some r => Reduce r
      | None => lookahead_action g level_of st (lookahead ts)
      end
  end.

(** The stack has the states with the trees that led to them, on top of state 1. *)
Abbreviation entry := (positive * tree token)%type.
Record config := mkConfig { stack : list entry; input : list token }.

Definition top (st : list entry) : positive := match st with [] => 1%positive | (n, _) :: _ => n end.

Definition push (t : tree token) (st : list entry) : outcome (list entry) :=
  match symbol_of t ≫= goto tbl (top st) with
  | Some m => Ret ((m, t) :: st)
  | None => Abort "yytable"
  end.

(** A step leads to another configuration or to the result, [None] for a syntax error. *)
Definition step (c : config) : outcome (config + option (tree token)) :=
  match action_at (top (stack c)) (input c) with
  | Shift =>
      match input c with
      | [] => Abort "yylex"
      | t :: ts => st ← push (Leaf t) (stack c); Ret (inl (mkConfig st ts))
      end
  | Reduce r =>
      match rule_at a !! r with
      | None => Abort "yyr1"
      | Some ru =>
          let k := length (rhs ru) in
          if length (stack c) <? k then Abort "yypop_"
          else
            st ← push (Node r (rev (take k (stack c)).*2)) (drop k (stack c));
            Ret (inl (mkConfig st (input c)))
      end
  | Accept =>
      match input c, stack c with
      | [], [(_, t)] => Ret (inr (Some t))
      | [], _ => Abort "yyaccept"
      | _, _ => Ret (inr None)
      end
  | Fail => Ret (inr None)
  end.

Fixpoint run (fuel : nat) (c : config) : outcome (option (tree token)) :=
  match fuel with
  | O => NoFuel
  | S fuel =>
      r ← step c;
      match r with inl c => run fuel c | inr t => Ret t end
  end.

(** ** Trees and the table

    [walk t n ts] is the state after [t] from the state [n] with [ts] behind the tree, if the
    table shifts every token of [t] and reduces every rule of [t] where the tree says so. *)
Fixpoint walk (t : tree token) (n : positive) (ts : list token) : option positive :=
  match t with
  | Leaf t =>
      if action_at n (t :: ts) is Shift then goto tbl n (kind t) else None
  | Node r l =>
      ru ← rule_at a !! r;
      let fix walks (l : list (tree token)) (m : positive) : option positive :=
        match l with
        | [] => Some m
        | t :: l => m ← walk t m (concat (map yield l) ++ ts); walks l m
        end in
      m ← walks l n;
      if bool_decide (action_at m ts = Reduce r ∧ map symbol_of l = map Some (rhs ru))
      then goto tbl n (lhs ru) else None
  end.

Fixpoint walks (l : list (tree token)) (n : positive) (ts : list token) : option positive :=
  match l with
  | [] => Some n
  | t :: l => m ← walk t n (concat (map yield l) ++ ts); walks l m ts
  end.

(** A tree for the whole input. *)
Definition accepted (t : tree token) : bool :=
  if walk t 1 [] is Some n then bool_decide (action_at n [] = Accept) else false.

End Automaton.
Arguments mkConfig {token}.
Arguments stack {token}.
Arguments input {token}.
Arguments top {token}.

End Automaton.

(** ** Validation of a table *)

Module Validation.

(** Why the automaton ends: every symbol on the stack has a [weight], the state on top a
    [height], and every token that is left costs [cost]; each step makes the sum smaller. *)
Record potential := mkPotential {
  weight : positive → nat;
  height : positive → nat;
  peak : positive → nat;      (* the greatest height of a state a symbol leads to *)
  cost : nat }.

Section Validation.
  Context (g : grammar) (a : analysis) (tbl : table) (p : potential).

Definition items_at (n : positive) : list (positive * nat) :=
  from_option items [] (tbl !! n).

(** An item of a state that the symbol [s] leads to from the state [n]. *)
Definition item_from (n s : positive) (i : positive * nat) : bool :=
  match i.2, rule_at a !! i.1 with
  | S d, Some ru =>
      bool_decide (rhs ru !! d = Some s) &&
      match d with
      | O => if Pos.eqb i.1 1 then Pos.eqb n 1 else if goto tbl n (lhs ru) is Some _ then true else false
      | S _ => bool_decide ((i.1, d) ∈ items_at n)
      end
  | _, _ => false
  end.
Definition goto_ok (n : positive) (sm : positive * positive) : bool :=
  let '(s, m) := sm in
  negb (Pos.eqb m 1) && negb (Pos.eqb s (end_ g)) && (if tbl !! m is Some _ then true else false)
  && forallb (item_from n s) (items_at m)
  && (height p m <=? peak p s)
  && (if is_token g s then height p m + weight p s <? cost p else true).
Definition weights (l : list positive) : nat := sum_list_with (weight p) l.
Definition reduction_ok (n : positive) (rl : positive * N) : bool :=
  match rule_at a !! rl.1 with
  | None => false
  | Some ru =>
      match rhs ru with
      | [] =>
          negb (Pos.eqb rl.1 1) &&
          match goto tbl n (lhs ru) with
          | Some m => height p m + weight p (lhs ru) <? height p n
          | None => false
          end
      | _ =>
          bool_decide ((rl.1, length (rhs ru)) ∈ items_at n) &&
          (Pos.eqb rl.1 1 || (peak p (lhs ru) + weight p (lhs ru) <? height p n + weights (rhs ru)))
      end
  end.
Definition state_ok (ns : positive * lr_state) : bool :=
  let '(n, st) := ns in
  forallb (goto_ok n) (map_to_list (gotos st)) && forallb (reduction_ok n) (reductions st).
Definition start_ok : bool :=
  bool_decide (items_at 1 = [(1%positive, 0)]) &&
  (if tbl !! 1%positive is Some _ then true else false) &&
  match rule_at a !! 1%positive with Some ru => Nat.eqb (length (rhs ru)) 1 | None => false end.
Definition valid : bool := start_ok && forallb state_ok (map_to_list tbl).

End Validation.

(** A potential for a grammar whose rules with one symbol have no cycles: a token weighs most,
    a rule with symbols makes them lighter, nullable symbols weigh nothing; heights are raised
    until every reduction pays. *)
Section Potential.
  Context (g : grammar) (a : analysis) (tbl : table) (scale rounds : nat).

Definition lighten (w : Pmap nat) (r : rule) : Pmap nat :=
  let at_ s := default (3 * scale * scale) (w !! s) in
  let sum := sum_list_with at_ (rhs r) - scale in
  match rhs r with
  | [] => w
  | _ => if is_nullable a (lhs r) then w else if sum <? at_ (lhs r) then <[lhs r := sum]> w else w
  end.
Definition find_weights : Pmap nat :=
  foldl (λ w _, foldl lighten w (rules g)) ((λ _, 0) <$> nullable a) (seq 0 rounds).

Definition peaks (h : Pmap nat) : Pmap nat :=
  foldl (λ pk ns, foldl (λ pk sm,
    <[sm.1 := max (default 0 (pk !! sm.1)) (default 0 (h !! sm.2))]> pk)
    pk (map_to_list (gotos ns.2))) ∅ (map_to_list tbl).
Definition raise_heights (w : positive → nat) (h : Pmap nat) : Pmap nat :=
  let pk := peaks h in
  map_imap (λ n st, Some (foldl (λ k rl,
    match rule_at a !! rl.1 with
    | None => k
    | Some ru =>
        match rhs ru with
        | [] => max k (S (default 0 (h !! default 1%positive (goto tbl n (lhs ru))) + w (lhs ru)))
        | _ => max k (S (default 0 (pk !! lhs ru) + w (lhs ru)) - sum_list_with w (rhs ru))
        end
    end) 0 (reductions st))) tbl.
Definition find_potential : potential :=
  let ws := find_weights in
  let w s := default (3 * scale * scale) (ws !! s) in
  let h := foldl (λ h _, raise_heights w h) ∅ (seq 0 rounds) in
  let pk := peaks h in
  mkPotential w (λ n, default 0 (h !! n)) (λ s, default 0 (pk !! s)) (4 * scale * scale).

End Potential.

End Validation.
Import Validation.
