(* ===== verification/LrCorrect.v ===== *)
(** * The automaton of a valid table

    [valid] is a check of a table against its grammar.  If it holds, the automaton of [Lalr.v]
    never fails, ends on all tokens ([parse_total]), and finds a tree exactly if the tree has
    the tokens and its own walk through the table is accepted ([parse_exactly]); such a tree is
    a derivation from the start symbol ([accepted_derives]). *)

From S2P Require Import Prelude Lalr.
From stdpp Require Import pmap.
Import Grammars Tables Automaton Validation.

Set Default Proof Using "All".

Module Correctness.

(** A tree that follows the rules, with the symbol at its root. *)
#[warnings="-register-all"]
Inductive derives {token} (a : analysis) (kind : token → positive) : tree token → positive → Prop :=
  | derives_token t : derives a kind (Leaf t) (kind t)
  | derives_rule r ru l : rule_at a !! r = Some ru →
      Forall2 (derives a kind) l (rhs ru) → derives a kind (Node r l) (lhs ru).

(** The automaton from the start: each token that is left and each step down pay for a step. *)
Definition fuel_for {token} (p : potential) (ts : list token) : nat :=
  S (height p 1 + cost p * length ts).
Definition parse {token} (g : grammar) (a : analysis) (tbl : table) (p : potential)
    (kind : token → positive) (ts : list token) : outcome (option (tree token)) :=
  run g a tbl kind (fuel_for p ts) (mkConfig [] ts).

Lemma forallb_lookup {A} (f : positive * A → bool) (m : Pmap A) i x :
  forallb f (map_to_list m) = true → m !! i = Some x → f (i, x) = true.
Proof.
  intros H Hm. rewrite forallb_forall in H. apply H, list_elem_of_In. by apply elem_of_map_to_list.
Qed.

Section Correctness.
  Context (g : grammar) (a : analysis) (tbl : table) (p : potential).
  Context {token : Type} (kind : token → positive).
  Context (Hvalid : valid g a tbl p = true) (Hkind : ∀ t, is_token g (kind t) = true).

Local Abbreviation walk := (walk g a tbl kind).
Local Abbreviation walks := (walks g a tbl kind).
Local Abbreviation action_at := (action_at g a tbl kind).
Local Abbreviation symbol_of := (symbol_of a kind).
Local Abbreviation goto := (goto tbl).
Local Abbreviation step := (step g a tbl kind).
Local Abbreviation entry := (positive * tree token)%type.

(** ** What the validation says *)

Lemma valid_state n st : tbl !! n = Some st → state_ok g a tbl p (n, st) = true.
Proof. intros H. pose proof Hvalid as [_ Hs]%andb_prop. by eapply (forallb_lookup (state_ok g a tbl p)). Qed.

Lemma start_items : items_at tbl 1 = [(1%positive, 0)].
Proof.
  pose proof Hvalid as [Hs _]%andb_prop. unfold start_ok in Hs. bool_to_prop. done.
Qed.
Lemma start_rule : ∃ ru s, rule_at a !! 1%positive = Some ru ∧ rhs ru = [s].
Proof.
  pose proof Hvalid as [Hs _]%andb_prop. unfold start_ok in Hs. bool_to_prop.
  destruct (rule_at a !! 1%positive) as [ru|]; [|done]. bool_to_prop.
  destruct (rhs ru) as [|s [|]] eqn:E; try done. by exists ru, s.
Qed.

Lemma goto_valid n s m : goto n s = Some m → goto_ok g a tbl p n (s, m) = true.
Proof.
  unfold goto. destruct (tbl !! n) as [st|] eqn:E; [|done]. cbn. intros H.
  apply valid_state in E. unfold state_ok in E. apply andb_prop in E as [E _].
  by eapply (forallb_lookup (goto_ok g a tbl p n)).
Qed.
Lemma goto_spec n s m : goto n s = Some m →
  m ≠ 1%positive ∧ s ≠ end_ g ∧ height p m ≤ peak p s ∧ (is_token g s = true → height p m + weight p s < cost p).
Proof.
  intros H. apply goto_valid in H. unfold goto_ok in H. bool_to_prop.
  split_and!; [by apply Pos.eqb_neq|by apply Pos.eqb_neq|by apply Nat.leb_le|]. intros Ht. rewrite Ht in *. by bool_to_prop.
Qed.
Lemma goto_item n s m r d : goto n s = Some m → (r, d) ∈ items_at tbl m → item_from a tbl n s (r, d) = true.
Proof.
  intros H Hi. apply goto_valid in H. unfold goto_ok in H. bool_to_prop.
  match goal with H : forallb _ _ = true |- _ => rewrite forallb_forall in H; apply H end.
  by apply list_elem_of_In.
Qed.

Lemma reduction_valid n st rl :
  tbl !! n = Some st → rl ∈ reductions st → reduction_ok a tbl p n rl = true.
Proof.
  intros H Hi. apply valid_state in H. unfold state_ok in H. apply andb_prop in H as [_ H].
  rewrite forallb_forall in H. apply H. by apply list_elem_of_In.
Qed.

(** ** Actions of the table *)

Lemma consistent_reduction st r :
  consistent g st = Some r → r ≠ 1%positive ∧ ∃ la, (r, la) ∈ reductions st.
Proof.
  unfold consistent. destruct (reductions st) as [|[r' la] [|]]; try done.
  destruct (Pos.eqb_spec r' 1); cbn [orb]; [done|]. destruct (existsb _ _); [done|].
  intros [= ->]. split; [done|]. exists la. by left.
Qed.

Lemma min_rule (l : list (positive * N)) r la :
  ∃ la', (foldl (λ r rl, Pos.min r rl.1) r l, la') ∈ (r, la) :: l.
Proof.
  revert r la. induction l as [|[r' la'] l IH]; intros r la; cbn [foldl fst]; [exists la; by left|].
  destruct (Pos.min_spec r r') as [[_ ->]|[_ ->]].
  - destruct (IH r la) as [la2 H]. exists la2. apply elem_of_cons in H as [H|H]; [rewrite H; by left|].
    by right; right.
  - destruct (IH r' la') as [la2 H]. exists la2. by right.
Qed.

Lemma lookahead_action_spec lv st t :
  match lookahead_action g lv st t with
  | Shift => is_Some (gotos st !! t)
  | Reduce r => r ≠ 1%positive ∧ ∃ la, (r, la) ∈ reductions st
  | Accept => ∃ la, (1%positive, la) ∈ reductions st
  | Fail => True
  end.
Proof.
  unfold lookahead_action. destruct (_ && _) eqn:E.
  { apply andb_prop in E as [E _]. destruct (gotos st !! t); [by eexists|done]. }
  destruct (filter _ (filter _ _)) as [|[r la] l] eqn:F; [done|].
  assert (Hin : ∀ x, x ∈ (r, la) :: l → x ∈ reductions st).
  { intros x Hx. rewrite <- F in Hx. by do 2 apply list_elem_of_filter in Hx as [_ Hx]. }
  destruct (min_rule l r la) as [la' H]. apply Hin in H.
  set (m := foldl _ r l) in *. destruct (Pos.eqb_spec m 1) as [E'|]; [rewrite E' in H|]; eauto.
Qed.

Lemma action_at_spec n ts :
  match action_at n ts with
  | Shift => is_Some (goto n (lookahead g kind ts))
  | Reduce r => r ≠ 1%positive ∧ ∃ st la, tbl !! n = Some st ∧ (r, la) ∈ reductions st
  | Accept => ∃ st la, tbl !! n = Some st ∧ (1%positive, la) ∈ reductions st
  | Fail => True
  end.
Proof.
  unfold action_at, goto. destruct (tbl !! n) as [st|] eqn:E; [|done]. cbn [mbind option_bind].
  destruct (consistent g st) as [r|] eqn:Ec.
  { apply consistent_reduction in Ec as (? & la & ?). split; [done|]. by exists st, la. }
  pose proof (lookahead_action_spec (level_of g a) st (lookahead g kind ts)) as H.
  destruct (lookahead_action _ _ _ _); [done| | |done].
  - destruct H as (? & la & ?). split; [done|]. by exists st, la.
  - destruct H as (la & ?). by exists st, la.
Qed.

(** ** The stack *)

(** Every tree on the stack walks from the state below it, in front of what follows. *)
Fixpoint path (st : list entry) (ts : list token) : Prop :=
  match st with
  | [] => True
  | (n, t) :: st => walk t (top st) ts = Some n ∧ path st (yield t ++ ts)
  end.

Lemma walk_goto t n ts m : walk t n ts = Some m → symbol_of t ≫= goto n = Some m.
Proof.
  destruct t as [t|r l]; cbn [Automaton.walk Automaton.symbol_of].
  - by destruct (action_at n (t :: ts)).
  - destruct (rule_at a !! r) as [ru|]; [|done]. cbn [mbind option_bind fmap option_fmap option_map].
    destruct (_ l n) as [k|]; [|done]. cbn [mbind option_bind]. by destruct (bool_decide _).
Qed.

Lemma walk_node r l n ts : walk (Node r l) n ts =
  (ru ← rule_at a !! r; m ← walks l n ts;
   if bool_decide (action_at m ts = Reduce r ∧ map symbol_of l = map Some (rhs ru))
   then goto n (lhs ru) else None).
Proof.
  cbn [Automaton.walk]. destruct (rule_at a !! r); [|done]. cbn [mbind option_bind].
  match goal with |- context [?f l n] => is_fix f; enough (∀ l n, f l n = walks l n ts) as -> by done end.
  clear. induction l as [|t l IH]; intros n; cbn; [done|]. destruct (walk t n _); [apply IH|done].
Qed.

Lemma walks_app l1 l2 n ts :
  walks (l1 ++ l2) n ts = walks l1 n (concat (map yield l2) ++ ts) ≫= λ m, walks l2 m ts.
Proof.
  revert n. induction l1 as [|t l1 IH]; intros n; cbn; [done|].
  rewrite map_app, concat_app, <- app_assoc. destruct (walk t n _); [|done]. cbn. apply IH.
Qed.

Lemma path_walks st ts k :
  path st ts → k ≤ length st →
  walks (rev (take k st).*2) (top (drop k st)) ts = Some (top st) ∧
  path (drop k st) (concat (map yield (rev (take k st).*2)) ++ ts).
Proof.
  revert k ts. induction st as [|[n t] st IH]; intros [|k] ts Hp Hk; cbn in Hk |- *; try lia; try done.
  destruct Hp as [Hw Hp]. destruct (IH k _ Hp) as [H1 H2]; [lia|].
  rewrite walks_app, map_app, concat_app. cbn. rewrite app_nil_r, H1. cbn. rewrite Hw.
  split; [done|]. by rewrite <- app_assoc.
Qed.

Lemma top_start st ts : path st ts → top st = 1%positive → st = [].
Proof.
  destruct st as [|[n t] st]; [done|]. cbn [path top]. intros [H _] ->.
  apply walk_goto in H. destruct (symbol_of t); [|done]. by apply goto_spec in H as [? _].
Qed.

(** The items of the state on top tell what is on the stack. *)
Lemma item_stack st ts r d :
  path st ts → (r, S d) ∈ items_at tbl (top st) →
  ∃ ru, rule_at a !! r = Some ru ∧ S d ≤ length st ∧ S d ≤ length (rhs ru) ∧
    map symbol_of (rev (take (S d) st).*2) = map Some (take (S d) (rhs ru)) ∧
    if Pos.eqb r 1 then drop (S d) st = [] else is_Some (goto (top (drop (S d) st)) (lhs ru)).
Proof.
  revert ts d. induction st as [|[m t] st IH]; intros ts d Hp Hi; cbn [top] in Hi.
  { rewrite start_items in Hi. by apply list_elem_of_singleton in Hi. }
  destruct Hp as [Hw Hp]. apply walk_goto in Hw. destruct (symbol_of t) as [s|] eqn:Es; [|done].
  cbn [mbind option_bind] in Hw. pose proof (goto_item _ _ _ _ _ Hw Hi) as Hf.
  unfold item_from in Hf. cbn [fst snd] in Hf. destruct (rule_at a !! r) as [ru|] eqn:Er; [|done].
  apply andb_prop in Hf as [Hs Hf]. apply bool_decide_eq_true in Hs.
  exists ru. split; [done|]. pose proof (lookup_lt_Some _ _ _ Hs).
  cbn [length take fmap list_fmap rev drop]. rewrite (take_S_r _ _ _ Hs), !map_app. cbn [map snd].
  rewrite Es. destruct d as [|d].
  - cbn [take fmap list_fmap rev drop map app]. split_and!; [lia|lia|done|].
    destruct (Pos.eqb r 1) eqn:E1; rewrite ?E1 in Hf.
    + apply Pos.eqb_eq in Hf. by eapply top_start.
    + rewrite drop_0. by destruct (goto (top st) (lhs ru)).
  - apply bool_decide_eq_true in Hf. destruct (IH _ _ Hp Hf) as (ru' & Er' & H1 & _ & H3 & H4).
    injection Er' as <-. split_and!; [lia|lia|by rewrite H3|done].
Qed.

(** ** Steps *)

Lemma push_ret t st m : symbol_of t ≫= goto (top st) = Some m →
  push a tbl kind t st = Ret ((m, t) :: st).
Proof. intros H. unfold push. by rewrite H. Qed.

(** A reduction finds the right-hand side of its rule on the stack. *)
Lemma reduce_spec st ts r :
  path st ts → action_at (top st) ts = Reduce r →
  ∃ ru m, rule_at a !! r = Some ru ∧ length (rhs ru) ≤ length st ∧
    map symbol_of (rev (take (length (rhs ru)) st).*2) = map Some (rhs ru) ∧
    goto (top (drop (length (rhs ru)) st)) (lhs ru) = Some m ∧
    height p m + weight p (lhs ru) < height p (top st) + weights p (rhs ru).
Proof.
  intros Hp Ha. pose proof (action_at_spec (top st) ts) as H. rewrite Ha in H.
  destruct H as (Hr & lr & la & Hn & Hi). pose proof (reduction_valid _ _ _ Hn Hi) as Hv.
  unfold reduction_ok in Hv. cbn [fst] in Hv. destruct (rule_at a !! r) as [ru|] eqn:Er; [|done].
  apply Pos.eqb_neq in Hr. rewrite Hr in Hv. cbn [negb andb orb] in Hv. exists ru.
  destruct (rhs ru) as [|s l] eqn:El.
  - destruct (goto (top st) (lhs ru)) as [m|] eqn:Eg; [|done]. bool_to_prop. exists m.
    cbn [length take drop fmap list_fmap rev map]. unfold weights. cbn [sum_list_with].
    split_and!; [done|lia|done|done|lia].
  - apply andb_prop in Hv as [Hi' Hw]. apply bool_decide_eq_true in Hi'. cbn [length] in Hi'.
    destruct (item_stack _ _ _ _ Hp Hi') as (ru' & Er' & H1 & _ & H3 & H4).
    rewrite Er in Er'. injection Er' as <-. rewrite Hr in H4. destruct H4 as [m Hm]. exists m.
    rewrite El in H3. cbn [length]. rewrite (firstn_all2 (s :: l)) in H3 by done.
    split_and!; [done|done|done|done|]. apply goto_spec in Hm as (_ & _ & Hh & _). bool_to_prop. lia.
Qed.

Lemma accept_spec st ts :
  path st ts → action_at (top st) ts = Accept →
  ∃ n t ru, st = [(n, t)] ∧ rule_at a !! 1%positive = Some ru ∧ map Some (rhs ru) = [symbol_of t].
Proof.
  intros Hp Ha. pose proof (action_at_spec (top st) ts) as H. rewrite Ha in H.
  destruct H as (lr & la & Hn & Hi). pose proof (reduction_valid _ _ _ Hn Hi) as Hv.
  unfold reduction_ok in Hv. cbn [fst] in Hv. destruct start_rule as (ru & s & Er & El).
  rewrite Er, El in Hv. apply andb_prop in Hv as [Hi' _]. apply bool_decide_eq_true in Hi'.
  destruct (item_stack _ _ _ _ Hp Hi') as (ru' & Er' & H1 & _ & H3 & H4).
  rewrite Er in Er'. injection Er' as <-. cbn [Pos.eqb] in H4.
  destruct st as [|[n t] st]; [cbn in H1; lia|]. cbn in H4. rewrite drop_0 in H4. subst st.
  exists n, t, ru. rewrite El in H3 |- *. cbn in H3. injection H3 as H3. by rewrite H3.
Qed.

(** What is left to do. *)
Definition measure (c : config) : nat :=
  height p (top (stack c)) + sum_list_with (λ e, from_option (weight p) 0 (symbol_of e.2)) (stack c)
  + cost p * length (input c).

Lemma weights_stack st l :
  map symbol_of (rev st.*2) = map Some l →
  sum_list_with (λ e : entry, from_option (weight p) 0 (symbol_of e.2)) st = weights p l.
Proof.
  unfold weights. intros H.
  assert (∀ st : list entry, sum_list_with (λ e : entry, from_option (weight p) 0 (symbol_of e.2)) st =
    sum_list_with (from_option (weight p) 0) (map symbol_of (rev st.*2))) as ->.
  { clear. induction st as [|e st IH]; [done|]. cbn. rewrite map_app, sum_list_with_app, IH. cbn. lia. }
  rewrite H. clear. induction l as [|s l IH]; [done|]. cbn. by rewrite IH.
Qed.

Lemma path_node st ts r ru m :
  path st ts → action_at (top st) ts = Reduce r → rule_at a !! r = Some ru →
  length (rhs ru) ≤ length st →
  map symbol_of (rev (take (length (rhs ru)) st).*2) = map Some (rhs ru) →
  goto (top (drop (length (rhs ru)) st)) (lhs ru) = Some m →
  path ((m, Node r (rev (take (length (rhs ru)) st).*2)) :: drop (length (rhs ru)) st) ts.
Proof.
  intros Hp Ha Er Hl Hs Hm. destruct (path_walks _ _ _ Hp Hl) as [Hw Hp']. cbn [path yield].
  split; [|done]. rewrite walk_node, Er. cbn [mbind option_bind]. rewrite Hw. cbn [mbind option_bind].
  by rewrite bool_decide_eq_true_2.
Qed.

(** The stack and the rest of the input stay the tokens [ts], and every step counts. *)
Definition keeps (ts : list token) (c : config) : Prop :=
  path (stack c) (input c) ∧ concat (map yield (rev (stack c).*2)) ++ input c = ts.

Lemma shift_keeps ts st t inp m :
  keeps ts (mkConfig st (t :: inp)) → action_at (top st) (t :: inp) = Shift →
  goto (top st) (kind t) = Some m →
  keeps ts (mkConfig ((m, Leaf t) :: st) inp) ∧
  measure (mkConfig ((m, Leaf t) :: st) inp) < measure (mkConfig st (t :: inp)).
Proof.
  intros [Hp Hy] Ha Hm. unfold keeps, measure. cbn [stack input] in *. split; [split|].
  - cbn [path Automaton.walk yield]. by rewrite Ha.
  - cbn. rewrite map_app, concat_app. cbn. by rewrite <- app_assoc.
  - pose proof (goto_spec _ _ _ Hm) as (_ & _ & _ & Hc). specialize (Hc (Hkind t)).
    cbn [top sum_list_with snd Automaton.symbol_of from_option length]. lia.
Qed.

Lemma reduce_keeps ts st inp r :
  keeps ts (mkConfig st inp) → action_at (top st) inp = Reduce r →
  ∃ c, step (mkConfig st inp) = Ret (inl c) ∧ keeps ts c ∧ measure c < measure (mkConfig st inp).
Proof.
  intros [Hp Hy] Ha. cbn [stack input] in *.
  destruct (reduce_spec _ _ _ Hp Ha) as (ru & m & Er & Hl & Hs & Hm & Hw).
  exists (mkConfig ((m, Node r (rev (take (length (rhs ru)) st).*2)) :: drop (length (rhs ru)) st) inp).
  set (k := length (rhs ru)) in *. split; [|split; [split|]].
  - unfold step. cbn [stack input]. rewrite Ha, Er. fold k.
    destruct (Nat.ltb_spec (length st) k); [lia|]. by erewrite push_ret by (cbn; rewrite Er; done).
  - by eapply path_node.
  - rewrite <- Hy. trans (concat (map yield (rev (take k st ++ drop k st).*2)) ++ inp);
      [|by rewrite take_drop].
    cbn [stack input]. rewrite fmap_cons, fmap_app, rev_app_distr. cbn [rev snd].
    rewrite !map_app, !concat_app. cbn [map concat yield]. by rewrite app_nil_r.
  - unfold measure. cbn [stack input top sum_list_with snd].
    pose proof (sum_list_with_app (λ e : entry, from_option (weight p) 0 (symbol_of e.2)) (take k st) (drop k st)) as Hsum.
    rewrite take_drop, (weights_stack _ _ Hs) in Hsum. rewrite Hsum.
    cbn [Automaton.symbol_of]. rewrite Er. cbn. lia.
Qed.

Lemma step_spec ts c : keeps ts c →
  match step c with
  | Ret (inl c') => keeps ts c' ∧ measure c' < measure c
  | Ret (inr (Some t)) => yield t = ts ∧ accepted g a tbl kind t = true
  | Ret (inr None) => True
  | _ => False
  end.
Proof.
  destruct c as [st inp]. intros Hk. pose proof Hk as [Hp Hy]. cbn [stack input] in Hp, Hy.
  destruct (action_at (top st) inp) as [|r| |] eqn:Ea.
  - pose proof (action_at_spec (top st) inp) as H. rewrite Ea in H. destruct H as [m Hm].
    destruct inp as [|t inp]; [by apply goto_spec in Hm as (_ & ? & _)|].
    unfold step. cbn [stack input]. rewrite Ea. rewrite (push_ret (Leaf t) st m) by done.
    by apply shift_keeps.
  - by destruct (reduce_keeps _ _ _ _ Hk Ea) as (c & -> & ? & ?).
  - unfold step. cbn [stack input]. rewrite Ea.
    destruct (accept_spec _ _ Hp Ea) as (n & t & ru & -> & _). destruct inp; [|done].
    cbn in Hy. rewrite !app_nil_r in Hy. split; [done|].
    destruct Hp as [Hw _]. cbn [top] in Hw, Ea. unfold accepted. rewrite Hw. by apply bool_decide_eq_true.
  - unfold step. cbn [stack input]. by rewrite Ea.
Qed.

(** ** Totality and soundness *)

Lemma run_total ts fuel c : keeps ts c → measure c < fuel →
  ∃ r, run g a tbl kind fuel c = Ret r ∧
    (∀ t, r = Some t → yield t = ts ∧ accepted g a tbl kind t = true).
Proof.
  revert c. induction fuel as [|fuel IH]; intros c Hk Hf; [lia|]. cbn [run].
  pose proof (step_spec _ _ Hk) as H.
  destruct (step c) as [[c'|[t|]]| | |]; try done; cbn [mbind outcome_bind].
  - destruct H as [Hk' Hm]. apply IH; [done|lia].
  - exists (Some t). split; [done|]. by intros ? [= <-].
  - by exists None.
Qed.

Lemma parse_total ts : ∃ r, parse g a tbl p kind ts = Ret r ∧
  (∀ t, r = Some t → yield t = ts ∧ accepted g a tbl kind t = true).
Proof.
  apply run_total; [by split|]. unfold measure, fuel_for. cbn. lia.
Qed.

(** ** Completeness *)

(** [c] leads to [c'] in some steps. *)
Inductive steps : config → config → Prop :=
  | steps_refl c : steps c c
  | steps_next c c1 c2 : step c = Ret (inl c1) → steps c1 c2 → steps c c2.

Lemma steps_trans c1 c2 c3 : steps c1 c2 → steps c2 c3 → steps c1 c3.
Proof. induction 1; [done|]. intros. eapply steps_next; eauto. Qed.

Lemma walks_steps l n ts m st :
  Forall (λ t, ∀ n ts m st, top st = n → walk t n ts = Some m →
    steps (mkConfig st (yield t ++ ts)) (mkConfig ((m, t) :: st) ts)) l →
  top st = n → walks l n ts = Some m →
  ∃ st', steps (mkConfig st (concat (map yield l) ++ ts)) (mkConfig (st' ++ st) ts) ∧
    rev st'.*2 = l ∧ top (st' ++ st) = m.
Proof.
  intros Hl. revert n st. induction Hl as [|t l Ht Hl IH]; intros n st Hn Hw; cbn in Hw |- *.
  { injection Hw as <-. exists []. by split; [constructor|]. }
  destruct (walk t n _) as [k|] eqn:Ek; [|done]. cbn in Hw.
  destruct (IH k ((k, t) :: st) eq_refl Hw) as (st' & H1 & H2 & H3).
  exists (st' ++ [(k, t)]). rewrite <- !app_assoc. split_and!; [|by rewrite fmap_app, rev_app_distr, H2|done].
  eapply steps_trans; [|done]. by eapply Ht.
Qed.

Lemma walk_steps t n ts m st : top st = n → walk t n ts = Some m →
  steps (mkConfig st (yield t ++ ts)) (mkConfig ((m, t) :: st) ts).
Proof.
  revert n ts m st. induction t as [t|r l IH] using tree_ind'; intros n ts m st Hn Hw.
  - cbn [Automaton.walk] in Hw. destruct (action_at n (t :: ts)) eqn:Ea; try done.
    eapply steps_next; [|constructor]. unfold step. cbn [stack input yield app]. rewrite Hn, Ea.
    erewrite push_ret; [done|]. by rewrite Hn.
  - pose proof (walk_goto _ _ _ _ Hw) as Hg. rewrite walk_node in Hw.
    destruct (rule_at a !! r) as [ru|] eqn:Er; [|done]. cbn [mbind option_bind] in Hw.
    destruct (walks l n ts) as [k|] eqn:Ek; [|done]. cbn [mbind option_bind] in Hw.
    destruct (bool_decide _) eqn:Eb; [|done]. apply bool_decide_eq_true in Eb as [Ha Hs].
    destruct (walks_steps _ _ _ _ _ IH Hn Ek) as (st' & H1 & H2 & H3).
    eapply steps_trans; [done|]. eapply steps_next; [|constructor].
    assert (length (rhs ru) = length st') as Hlen.
    { rewrite <- (length_map Some), <- Hs, length_map, <- H2, length_rev. by rewrite length_fmap. }
    unfold step. cbn [stack input]. rewrite H3, Ha, Er, Hlen, length_app.
    destruct (Nat.ltb_spec (length st' + length st) (length st')); [lia|].
    rewrite take_app_length, drop_app_length, H2. erewrite push_ret; [done|]. by rewrite Hn.
Qed.

Lemma steps_run c c' r : steps c c' → step c' = Ret (inr r) →
  ∀ fuel, measure c < fuel → ∀ ts, keeps ts c → run g a tbl kind fuel c = Ret r.
Proof.
  induction 1 as [c|c c1 c2 Hs _ IH]; intros Hr [|fuel] Hf ts Hk; try lia; cbn [run].
  - by rewrite Hr.
  - pose proof (step_spec _ _ Hk) as H. rewrite Hs in *. destruct H as [Hk' Hm].
    cbn [mbind outcome_bind]. eapply IH; [done|lia|done].
Qed.

Lemma parse_accepted t : accepted g a tbl kind t = true → parse g a tbl p kind (yield t) = Ret (Some t).
Proof.
  unfold accepted. destruct (walk t 1 []) as [n|] eqn:Ew; [|done]. intros Ha%bool_decide_eq_true.
  pose proof (walk_steps _ _ _ _ [] eq_refl Ew) as Hs. rewrite app_nil_r in Hs.
  eapply steps_run; [done| | |by split].
  - unfold step. cbn [stack input top]. by rewrite Ha.
  - unfold measure, fuel_for. cbn. lia.
Qed.

Lemma parse_exactly ts t :
  parse g a tbl p kind ts = Ret (Some t) ↔ yield t = ts ∧ accepted g a tbl kind t = true.
Proof.
  split.
  - intros H. destruct (parse_total ts) as (r & Hr & Ht). rewrite H in Hr. injection Hr as <-.
    by apply Ht.
  - intros [<- Ha]. by apply parse_accepted.
Qed.

(** ** Accepted trees are derivations *)

Lemma walk_derives t n ts m : walk t n ts = Some m → ∃ s, symbol_of t = Some s ∧ derives a kind t s.
Proof.
  revert n ts m. induction t as [t|r l IH] using tree_ind'; intros n ts m Hw.
  { exists (kind t). split; [done|constructor]. }
  rewrite walk_node in Hw. cbn [Automaton.symbol_of].
  destruct (rule_at a !! r) as [ru|] eqn:Er; [|done]. cbn [mbind option_bind] in Hw.
  destruct (walks l n ts) as [k|] eqn:Ek; [|done]. cbn [mbind option_bind] in Hw.
  destruct (bool_decide _) eqn:Eb; [|done]. apply bool_decide_eq_true in Eb as [_ Hs].
  exists (lhs ru). split; [done|]. econstructor; [done|]. clear Er Hw r.
  revert n Ek Hs. generalize (rhs ru). induction IH as [|t l Ht Hl IH']; intros [|s ss] n Ek Hs; try done.
  cbn in Ek, Hs. injection Hs as Hs1 Hs2. destruct (walk t n _) as [k'|] eqn:Et; [|done].
  constructor; [|by eapply IH']. destruct (Ht _ _ _ Et) as (s' & Es & Hd). by simplify_eq.
Qed.

Lemma accepted_derives t : accepted g a tbl kind t = true →
  ∃ ru s, rule_at a !! 1%positive = Some ru ∧ rhs ru = [s] ∧ derives a kind t s.
Proof.
  unfold accepted. destruct (walk t 1 []) as [n|] eqn:Ew; [|done]. intros Ha%bool_decide_eq_true.
  destruct (accept_spec [(n, t)] []) as (n' & t' & ru & [= -> ->] & Er & Hs); [done|done|].
  destruct (walk_derives _ _ _ _ Ew) as (s & Es & Hd). rewrite Es in Hs.
  exists ru, s. split_and!; [done| |done].
  destruct (rhs ru) as [|s' [|]]; try done. by injection Hs as ->.
Qed.

End Correctness.

End Correctness.
