(* ===== verification/Yacc.v ===== *)
(** * The grammar of specifications ([src/src/spec/parser/parser.yy])

    All rules of the grammar as data: their symbols, as in the file, with the precedences and,
    typed by the declarations [%type], their semantic actions.  [Lalr.v] makes the automaton
    from the symbols; [evaluate] runs the actions over a derivation tree in the order of the
    reductions. *)

From S2P Require Import Prelude Util Ident Ast Units Regex Scanner Grammar Lalr LrCorrect.
From stdpp Require Import pmap.
Import Ident.Id Units.Units Grammar.Syntax Grammars Automaton.

Module Symbols.

(** ** Symbols *)

(** The terminals; [Ch c] is the code of a character, [tEND] the end of the input and
    [tUndefined] what is no token; [tPREC_HIGH] only has a precedence. *)
Inductive term :=
  | tSCOPED_IDENT | tDOLLAR_IDENT | tPATH_IDENT | tIDENT | tATTRIBUTE | tPROPERTY | tCINTEGER
  | tCBOOL | tCSTRING | tCBYTES | tCREGEXP | tCDOUBLE | tCPPCODE | tANY | tAS | tBITFIELD
  | tBITSET | tBOOL | tBYTES | tCADDR | tCAST | tCONST | tDOUBLE | tELSE | tENUM | tEXPORT | tFOR
  | tFIND | tIF | tIMPORT | tIN | tINCLUDE | tINSTANTIATE | tINT | tINT8 | tINT16 | tINT32
  | tINT64 | tLIST | tMAP | tMOD | tMODULE | tSET | tSINK | tSTRING | tSWITCH | tTHEN | tTUPLE
  | tTYPE | tUINT | tUINT8 | tUINT16 | tUINT32 | tUINT64 | tUNIT | tVAR | tVECTOR | tVOID | tAND
  | tARROW | tBEGINCODE | tDARROW | tDOTDOT | tEQ | tENDCODE | tGEQ | tHASATTR | tLEQ
  | tMINUSASSIGN | tMINUSMINUS | tNEQ | tOR | tPLUSASSIGN | tPLUSPLUS | tPOW | tSHIFTLEFT
  | tSHIFTRIGHT | tNONE
  | tEND | tUndefined | tPREC_HIGH
  | Ch (c : ascii).

Inductive nonterm :=
  | n_start | n_module | n_local_id | n_scoped_id | n_path_id | n_property | n_opt_global_decls
  | n_global_decl | n_const_decl | n_opt_linkage | n_type_or_init | n_opt_init_expr | n_init_expr
  | n_import | n_include | n_type_decl | n_inst_decl | n_func_decl | n_params | n_opt_params
  | n_param | n_rtype | n_opt_param_const | n_cppblock | n_type | n_base_type | n_atomic_type
  | n_container_type | n_bitset | n_enum | n_types | n_id_with_ints | n_id_with_int | n_bitfield
  | n_bitfield_bits | n_bitfield_bits_spec | n_opt_unit_params | n_unit | n_unit_items
  | n_opt_unit_items | n_unit_item | n_unit_var | n_unit_prop | n_unit_field
  | n_unit_field_in_container | n_unit_fields | n_unit_switch | n_opt_unit_switch_expr
  | n_unit_switch_cases | n_unit_switch_case | n_opt_type_attrs | n_type_attr | n_opt_field_args
  | n_opt_unit_field_name | n_opt_unit_field_cond | n_opt_unit_field_sinks
  | n_opt_unit_vector_len | n_inst_items | n_opt_inst_items | n_inst_item | n_inst_field
  | n_inst_prop | n_constant | n_tuple | n_ctor | n_re_patterns | n_re_pattern_constant | n_expr
  | n_expr2 | n_member_expr | n_tuple_expr | n_exprs | n_opt_exprs.

(** [Mid k] is the mid-rule action number [k]. *)
Inductive symbol := T (t : term) | N (n : nonterm) | Mid (k : nat).
Coercion T : term >-> symbol.
Coercion N : nonterm >-> symbol.

(** Numbers for the symbols: characters, other tokens, nonterminals, mid-rule actions. *)
Definition term_number (t : term) : positive :=
  match t with
  | tSCOPED_IDENT => 257 | tDOLLAR_IDENT => 258 | tPATH_IDENT => 259 | tIDENT => 260
  | tATTRIBUTE => 261 | tPROPERTY => 262 | tCINTEGER => 263 | tCBOOL => 264 | tCSTRING => 265
  | tCBYTES => 266 | tCREGEXP => 267 | tCDOUBLE => 268 | tCPPCODE => 269 | tANY => 270
  | tAS => 271 | tBITFIELD => 272 | tBITSET => 273 | tBOOL => 274 | tBYTES => 275 | tCADDR => 276
  | tCAST => 277 | tCONST => 278 | tDOUBLE => 279 | tELSE => 280 | tENUM => 281 | tEXPORT => 282
  | tFOR => 283 | tFIND => 284 | tIF => 285 | tIMPORT => 286 | tIN => 287 | tINCLUDE => 288
  | tINSTANTIATE => 289 | tINT => 290 | tINT8 => 291 | tINT16 => 292 | tINT32 => 293
  | tINT64 => 294 | tLIST => 295 | tMAP => 296 | tMOD => 297 | tMODULE => 298 | tSET => 299
  | tSINK => 300 | tSTRING => 301 | tSWITCH => 302 | tTHEN => 303 | tTUPLE => 304 | tTYPE => 305
  | tUINT => 306 | tUINT8 => 307 | tUINT16 => 308 | tUINT32 => 309 | tUINT64 => 310
  | tUNIT => 311 | tVAR => 312 | tVECTOR => 313 | tVOID => 314 | tAND => 315 | tARROW => 316
  | tBEGINCODE => 317 | tDARROW => 318 | tDOTDOT => 319 | tEQ => 320 | tENDCODE => 321
  | tGEQ => 322 | tHASATTR => 323 | tLEQ => 324 | tMINUSASSIGN => 325 | tMINUSMINUS => 326
  | tNEQ => 327 | tOR => 328 | tPLUSASSIGN => 329 | tPLUSPLUS => 330 | tPOW => 331
  | tSHIFTLEFT => 332 | tSHIFTRIGHT => 333 | tNONE => 334 | tEND => 335 | tUndefined => 336
  | tPREC_HIGH => 337
  | Ch c => Pos.of_succ_nat (nat_of_ascii c)
  end.
Definition nonterm_number (t : nonterm) : positive :=
  match t with
  | n_start => 401 | n_module => 402 | n_local_id => 403 | n_scoped_id => 404 | n_path_id => 405
  | n_property => 406 | n_opt_global_decls => 407 | n_global_decl => 408 | n_const_decl => 409
  | n_opt_linkage => 410 | n_type_or_init => 411 | n_opt_init_expr => 412 | n_init_expr => 413
  | n_import => 414 | n_include => 415 | n_type_decl => 416 | n_inst_decl => 417
  | n_func_decl => 418 | n_params => 419 | n_opt_params => 420 | n_param => 421 | n_rtype => 422
  | n_opt_param_const => 423 | n_cppblock => 424 | n_type => 425 | n_base_type => 426
  | n_atomic_type => 427 | n_container_type => 428 | n_bitset => 429 | n_enum => 430
  | n_types => 431 | n_id_with_ints => 432 | n_id_with_int => 433 | n_bitfield => 434
  | n_bitfield_bits => 435 | n_bitfield_bits_spec => 436 | n_opt_unit_params => 437
  | n_unit => 438 | n_unit_items => 439 | n_opt_unit_items => 440 | n_unit_item => 441
  | n_unit_var => 442 | n_unit_prop => 443 | n_unit_field => 444
  | n_unit_field_in_container => 445 | n_unit_fields => 446 | n_unit_switch => 447
  | n_opt_unit_switch_expr => 448 | n_unit_switch_cases => 449 | n_unit_switch_case => 450
  | n_opt_type_attrs => 451 | n_type_attr => 452 | n_opt_field_args => 453
  | n_opt_unit_field_name => 454 | n_opt_unit_field_cond => 455 | n_opt_unit_field_sinks => 456
  | n_opt_unit_vector_len => 457 | n_inst_items => 458 | n_opt_inst_items => 459
  | n_inst_item => 460 | n_inst_field => 461 | n_inst_prop => 462 | n_constant => 463
  | n_tuple => 464 | n_ctor => 465 | n_re_patterns => 466 | n_re_pattern_constant => 467
  | n_expr => 468 | n_expr2 => 469 | n_member_expr => 470 | n_tuple_expr => 471 | n_exprs => 472
  | n_opt_exprs => 473
  end.
#[export] Instance term_eq_dec : EqDecision term.
Proof. solve_decision. Defined.
#[export] Instance nonterm_eq_dec : EqDecision nonterm.
Proof. solve_decision. Defined.

Definition number (s : symbol) : positive :=
  match s with
  | T t => term_number t
  | N n => nonterm_number n
  | Mid k => 500 + Pos.of_succ_nat k
  end.

#[export] Instance symbol_eq_dec : EqDecision symbol.
Proof. solve_decision. Defined.
Arguments Ch c%_char_scope.

(** ** Tokens *)

(** The member of the semantic value the scanner sets for a token. *)
Definition value (t : term) : Type :=
  match t with
  | tSCOPED_IDENT | tDOLLAR_IDENT | tPATH_IDENT | tIDENT | tATTRIBUTE | tPROPERTY
  | tCSTRING | tCBYTES | tCREGEXP | tCPPCODE => string
  | tCINTEGER => Z | tCBOOL => bool | tCDOUBLE => double
  | _ => unit
  end.

Definition scanned (t : token) : { k : term & value k } :=
  match t with
  | SCOPED_IDENT s => existT tSCOPED_IDENT s | DOLLAR_IDENT s => existT tDOLLAR_IDENT s
  | PATH_IDENT s => existT tPATH_IDENT s | IDENT s => existT tIDENT s
  | ATTRIBUTE s => existT tATTRIBUTE s | PROPERTY s => existT tPROPERTY s
  | CINTEGER z => existT tCINTEGER z | CBOOL b => existT tCBOOL b | CSTRING s => existT tCSTRING s
  | CBYTES s => existT tCBYTES s | CREGEXP s => existT tCREGEXP s | CDOUBLE d => existT tCDOUBLE d
  | CPPCODE s => existT tCPPCODE s
  | END => existT tUndefined tt
  | ANY => existT tANY tt | AS => existT tAS tt | BITFIELD => existT tBITFIELD tt
  | BITSET => existT tBITSET tt | BOOL => existT tBOOL tt | BYTES => existT tBYTES tt
  | CADDR => existT tCADDR tt | CAST => existT tCAST tt | CONST => existT tCONST tt
  | DOUBLE => existT tDOUBLE tt | ELSE => existT tELSE tt | ENUM => existT tENUM tt
  | EXPORT => existT tEXPORT tt | FOR => existT tFOR tt | FIND => existT tFIND tt
  | IF => existT tIF tt | IMPORT => existT tIMPORT tt | IN => existT tIN tt
  | INCLUDE => existT tINCLUDE tt | INSTANTIATE => existT tINSTANTIATE tt | INT => existT tINT tt
  | INT8 => existT tINT8 tt | INT16 => existT tINT16 tt | INT32 => existT tINT32 tt
  | INT64 => existT tINT64 tt | LIST => existT tLIST tt | MAP => existT tMAP tt
  | MOD => existT tMOD tt | MODULE => existT tMODULE tt | SET => existT tSET tt
  | SINK => existT tSINK tt | STRING => existT tSTRING tt | SWITCH => existT tSWITCH tt
  | THEN => existT tTHEN tt | TUPLE => existT tTUPLE tt | TYPE => existT tTYPE tt
  | UINT => existT tUINT tt | UINT8 => existT tUINT8 tt | UINT16 => existT tUINT16 tt
  | UINT32 => existT tUINT32 tt | UINT64 => existT tUINT64 tt | UNIT => existT tUNIT tt
  | VAR => existT tVAR tt | VECTOR => existT tVECTOR tt | VOID => existT tVOID tt
  | AND => existT tAND tt | ARROW => existT tARROW tt | BEGINCODE => existT tBEGINCODE tt
  | DARROW => existT tDARROW tt | DOTDOT => existT tDOTDOT tt | EQ => existT tEQ tt
  | ENDCODE => existT tENDCODE tt | GEQ => existT tGEQ tt | HASATTR => existT tHASATTR tt
  | LEQ => existT tLEQ tt | MINUSASSIGN => existT tMINUSASSIGN tt
  | MINUSMINUS => existT tMINUSMINUS tt | NEQ => existT tNEQ tt | OR => existT tOR tt
  | PLUSASSIGN => existT tPLUSASSIGN tt | PLUSPLUS => existT tPLUSPLUS tt | POW => existT tPOW tt
  | SHIFTLEFT => existT tSHIFTLEFT tt | SHIFTRIGHT => existT tSHIFTRIGHT tt
  | NONE => existT tNONE tt
  | CHAR c => existT (Ch c) tt
  end.
Definition kind (t : token) : positive := number (T (projT1 (scanned t))).

(** ** The syntax tree of a module *)

(** [Declaration::Linkage], [ast::Function], the items of an instantiation, the declarations
    and [ast::Module]. *)
Inductive Linkage := EXPORTED | PRIVATE | IMPORTED.
Record Function := mkFunction {
  function_id : ID;
  function_result : ty * bool;
  function_args : list param;
  function_body : string }.
Inductive inst_item :=
  | InstField (id : ID) (attributes : attr_map) (dependency : bool)
  | InstProperty (id : ID) (property : attr).
Inductive declaration :=
  | DeclConstant (id : ID) (linkage : Linkage) (value : expr)
  | DeclType (id : ID) (linkage : Linkage) (t : ty)
  | DeclInstantiation (id unit_id : ID) (items : list inst_item)
  | DeclFunction (function : Function) (linkage : Linkage).
Record Module_ := mkModule {
  module_id : ID;
  module_path : string;
  module_properties : attr_map;
  module_decls : list declaration }.

Definition addProperty (p : attr) (m : Module_) : Module_ :=
  mkModule (module_id m) (module_path m) (put_attr (module_properties m) p) (module_decls m).

(** ** The state of the actions

    The module of the driver and the files it includes, [_int_width], [Item::id_counter_] and
    the units made so far.  The result of an action is [None] when it has called [error]: the
    driver then drops the module, whatever the other actions still do to it. *)
Record pstate := mkState {
  st_module : option Module_;
  st_includes : list string;
  st_int_width : Z;
  st_counter : Z;
  st_units : units;
  st_next_unit : nat }.

Definition M (A : Type) : Type := pstate → outcome (option (A * pstate)).
Definition ret {A} (a : A) : M A := λ s, Ret (Some (a, s)).
Definition bind {A B} (m : M A) (f : A → M B) : M B := λ s,
  r ← m s; match r with Some (a, s) => f a s | None => Ret None end.
Definition error {A} : M A := λ _, Ret None.
Definition abort {A} (why : string) : M A := λ _, Abort why.
Definition lift {A} (o : outcome A) : M A := λ s, a ← o; Ret (Some (a, s)).
Definition lift_option {A} (o : option A) : M A := if o is Some a then ret a else error.

Definition set_module (m : Module_) : M () := λ s,
  Ret (Some (tt, mkState (Some m) (st_includes s) (st_int_width s) (st_counter s) (st_units s) (st_next_unit s))).
(** [driver->module()] asserts that there is one. *)
Definition the_module : M Module_ := λ s,
  match st_module s with Some m => Ret (Some (m, s)) | None => Abort "assert(module_)" end.
Definition include (file : string) : M () := λ s,
  Ret (Some (tt, mkState (st_module s) (st_includes s ++ [file]) (st_int_width s) (st_counter s)
                   (st_units s) (st_next_unit s))).
Definition set_int_width (w : Z) : M () := λ s,
  Ret (Some (tt, mkState (st_module s) (st_includes s) w (st_counter s) (st_units s) (st_next_unit s))).
Definition int_width : M Z := λ s, Ret (Some (st_int_width s, s)).
(** A constructor that may number an anonymous item. *)
Definition counted {A} (f : Z → outcome (A * Z)) : M A := λ s,
  '(a, ctr) ← f (st_counter s);
  Ret (Some (a, mkState (st_module s) (st_includes s) (st_int_width s) ctr (st_units s) (st_next_unit s))).
Definition set_units (us : units) : M () := λ s,
  Ret (Some (tt, mkState (st_module s) (st_includes s) (st_int_width s) (st_counter s) us (st_next_unit s))).
Definition get_units : M units := λ s, Ret (Some (st_units s, s)).

End Symbols.
Import Symbols.

Notation "x ⇐ m ; f" := (bind m (λ x, f)) (at level 20, m at level 100, f at level 200, right associativity).

Module Rules.

(** ** The declarations [%type] *)

Definition sem_nt (n : nonterm) : Type :=
  match n with
  | n_start | n_module | n_import | n_include => ()
  | n_bitfield_bits => list bits
  | n_bitfield_bits_spec => bits
  | n_constant | n_tuple => constant
  | n_ctor => ctor
  | n_global_decl => option declaration
  | n_type_decl | n_const_decl | n_func_decl | n_inst_decl => declaration
  | n_opt_global_decls => list declaration
  | n_expr | n_expr2 | n_init_expr | n_member_expr | n_tuple_expr => expr
  | n_opt_unit_field_cond | n_opt_init_expr | n_opt_unit_vector_len | n_opt_unit_switch_expr =>
      option expr
  | n_exprs | n_opt_exprs | n_opt_unit_field_sinks | n_opt_field_args => list expr
  | n_local_id | n_scoped_id | n_path_id => ID
  | n_opt_unit_field_name => option ID
  | n_base_type | n_type | n_enum | n_bitset | n_unit | n_atomic_type | n_container_type
  | n_bitfield => ty
  | n_type_or_init => (ty * expr)%type
  | n_id_with_int => label
  | n_id_with_ints => list label
  | n_opt_param_const => bool
  | n_param => param
  | n_rtype => (ty * bool)%type
  | n_params | n_opt_params | n_opt_unit_params => list param
  | n_unit_item | n_unit_prop | n_unit_var => item
  | n_unit_items | n_opt_unit_items => list item
  | n_unit_field | n_unit_field_in_container | n_unit_switch => field
  | n_unit_fields => list field
  | n_inst_item | n_inst_prop | n_inst_field => inst_item
  | n_inst_items | n_opt_inst_items => list inst_item
  | n_opt_linkage => Linkage
  | n_type_attr | n_property => attr
  | n_opt_type_attrs => list attr
  | n_unit_switch_case => case
  | n_unit_switch_cases => list case
  | n_re_patterns => list string
  | n_re_pattern_constant | n_cppblock => string
  | n_types => list ty
  end.
Definition sem (s : symbol) : Type :=
  match s with T t => value t | N n => sem_nt n | Mid _ => () end.

(** The actions of a rule: a function of the values of its symbols, which runs a mid-rule action
    where it stands. *)
Fixpoint act (rhs : list symbol) (R : Type) : Type :=
  match rhs with
  | [] => M R
  | Mid _ :: rhs => M (act rhs R)
  | s :: rhs => sem s → act rhs R
  end.
Record production := Production {
  p_lhs : nonterm;
  p_rhs : list symbol;
  p_prec : option term;
  p_act : act p_rhs (sem_nt p_lhs) }.
Definition rule (n : nonterm) (rhs : list symbol) (f : act rhs (sem_nt n)) : production :=
  Production n rhs None f.

Definition rule_prec (n : nonterm) (rhs : list symbol) (t : term) (f : act rhs (sem_nt n)) : production :=
  Production n rhs (Some t) f.

Section Actions.
  (** [*driver->stream_name()]. *)
  Context (stream_name : string).

(** [loc(@$)] where a constructor has a flag. *)
Local Abbreviation loc := (located stream_name).
Definition newAttribute (key : string) (value : option expr) : attr :=
  mkAttr (Attribute.strip_key key) value loc.
(** [int64_t] to [int]. *)
Definition to_int (z : Z) : Z := swrap 32 z.

(** *** Modules *)

(** [Module::addDeclarations]: a declared unit learns its module. *)
Definition addDeclaration (m : Module_) (d : declaration) (us : units) : units :=
  match d with
  | DeclType _ _ (mkTy _ (TUnit u)) =>
      match us !! u with
      | Some ut => <[u := mkUnit (unit_params ut) (unit_items ut) (unit_wildcard ut) (unit_id ut)
                           (Some (module_properties m))]> us
      | None => us
      end
  | _ => us
  end.
Definition addDeclarations (ds : list declaration) : M () :=
  m ⇐ the_module;
  us ⇐ get_units;
  let m := mkModule (module_id m) (module_path m) (module_properties m) (module_decls m ++ ds) in
  _ ⇐ set_units (foldl (λ us d, addDeclaration m d us) us ds);
  set_module m.

Definition module_rules : list production := [
  rule n_start [N n_module] (λ _, ret tt);
  rule n_module [T tMODULE; N n_local_id; T (Ch ";"); Mid 0; N n_opt_global_decls]
    (λ _ id _, _ ⇐ set_module (mkModule id stream_name [] []); ret (λ decls, addDeclarations decls))
  ].

Definition new_id (s : string) : M ID := ret (id_of_string s).
Definition id_rules : list production := [
  rule n_local_id [T tIDENT] (λ s, new_id s);
  rule n_scoped_id [T tIDENT] (λ s, new_id s);
  rule n_scoped_id [T tSCOPED_IDENT] (λ s, new_id s);
  rule n_path_id [T tIDENT] (λ s, new_id s);
  rule n_path_id [T tPATH_IDENT] (λ s, new_id s)
  ].

Definition property_rules : list production := [
  rule n_property [T tPROPERTY; T (Ch ";")] (λ k _, ret (newAttribute k None));
  rule n_property [T tPROPERTY; T (Ch "="); N n_expr; T (Ch ";")]
    (λ k _ e _, ret (newAttribute k (Some e)));
  rule n_property [T tPROPERTY; T (Ch "="); T tNONE; T (Ch ";")]
    (λ k _ _ _, ret (newAttribute k None));
  rule n_property [T tPROPERTY; T (Ch "="); N n_base_type; T (Ch ";")]
    (λ k _ t _, ret (newAttribute k (Some (new_expr (EType t)))))
  ].

(** *** Declarations *)

Definition decl_rules : list production := [
  rule n_opt_global_decls [N n_global_decl; N n_opt_global_decls]
    (λ d ds, ret (if d is Some d then d :: ds else ds));
  rule n_opt_global_decls [] (ret []);
  rule n_global_decl [N n_type_decl] (λ d, ret (Some d));
  rule n_global_decl [N n_inst_decl] (λ d, ret (Some d));
  rule n_global_decl [N n_const_decl] (λ d, ret (Some d));
  rule n_global_decl [N n_func_decl] (λ d, ret (Some d));
  rule n_global_decl [N n_property]
    (λ p, m ⇐ the_module; _ ⇐ set_module (addProperty p m); ret None);
  rule n_global_decl [N n_import] (λ _, ret None);
  rule n_global_decl [N n_include] (λ _, ret None)
  ].

Definition const_rules : list production := [
  rule n_const_decl [N n_opt_linkage; T tCONST; N n_local_id; N n_type_or_init; T (Ch ";")]
    (λ linkage _ id ti _,
      let '(t, init) := ti in
      if canCoerceTo init t then ret (DeclConstant id linkage init) else error);
  rule n_opt_linkage [T tEXPORT] (λ _, ret EXPORTED);
  rule_prec n_opt_linkage [] tPREC_HIGH (ret PRIVATE);
  rule n_type_or_init [T (Ch ":"); N n_base_type; N n_init_expr] (λ _ t e, ret (t, e));
  rule n_type_or_init [N n_init_expr] (λ e, ret (type_of e, e));
  rule n_opt_init_expr [N n_init_expr] (λ e, ret (Some e));
  rule n_opt_init_expr [] (ret None);
  rule n_init_expr [T (Ch "="); N n_expr] (λ _ e, ret e);
  (* Module::import does nothing *)
  rule n_import [T tIMPORT; N n_path_id; T (Ch ";")] (λ _ _ _, _ ⇐ the_module; ret tt);
  rule n_include [T tINCLUDE; T tCSTRING; T (Ch ";")] (λ _ s _, include s);
  (* Module::exportType does nothing *)
  rule n_type_decl [N n_opt_linkage; T tTYPE; N n_local_id; T (Ch "="); N n_type; T (Ch ";")]
    (λ linkage _ id _ t _,
      if linkage is EXPORTED then _ ⇐ the_module; ret (DeclType id linkage t)
      else ret (DeclType id linkage t));
  rule n_inst_decl [T tINSTANTIATE; T tUNIT; N n_scoped_id; T tAS; N n_local_id; T (Ch "{");
                    N n_opt_inst_items; T (Ch "}"); T (Ch ";")]
    (λ _ _ unit_id _ id _ items _ _, ret (DeclInstantiation id unit_id items))
  ].

Definition func_rules : list production := [
  rule n_func_decl [N n_opt_linkage; N n_rtype; N n_local_id; T (Ch "("); N n_opt_params; T (Ch ")");
                    N n_cppblock]
    (λ linkage r id _ ps _ body, _ ⇐ the_module; ret (DeclFunction (mkFunction id r ps body) linkage));
  (* the body of type std::string is made from nullptr *)
  rule n_func_decl [T tIMPORT; N n_rtype; N n_scoped_id; T (Ch "("); N n_opt_params; T (Ch ")");
                    T (Ch ";")]
    (λ _ _ _ _ _ _ _, _ ⇐ the_module; abort "std::string(nullptr)");
  rule n_params [N n_param; T (Ch ","); N n_params] (λ p _ ps, ret (p :: ps));
  rule n_params [N n_param] (λ p, ret [p]);
  rule n_opt_params [N n_params] (λ ps, ret ps);
  rule n_opt_params [] (ret []);
  rule n_param [N n_opt_param_const; N n_local_id; T (Ch ":"); N n_type]
    (λ c id _ t, ret (mkParam (Some id) t c None));
  rule n_rtype [N n_opt_param_const; N n_type] (λ c t, ret (t, c));
  rule n_opt_param_const [T tCONST] (λ _, ret true);
  rule n_opt_param_const [] (ret false);
  rule n_cppblock [T tBEGINCODE; T tCPPCODE; T tENDCODE] (λ _ s _, ret s)
  ].

(** *** Types *)

Definition new_type (k : ty_kind) : M ty := ret (mkTy plain k).

Definition atomic_rules : list production := [
  rule n_type [N n_base_type] (λ t, ret t);
  rule n_type [N n_scoped_id] (λ id, new_type (TUnknown (Some id)));
  rule n_base_type [N n_atomic_type] (λ t, ret t);
  rule n_base_type [N n_container_type] (λ t, ret t);
  rule n_atomic_type [T tANY] (λ _, new_type TAny);
  rule n_atomic_type [T tBOOL] (λ _, new_type TBool);
  rule n_atomic_type [T tBYTES] (λ _, new_type TBytes);
  rule n_atomic_type [T tCADDR] (λ _, new_type TCAddr);
  rule n_atomic_type [T tDOUBLE] (λ _, new_type TDouble);
  rule n_atomic_type [T tSINK] (λ _, new_type TSink);
  rule n_atomic_type [T tSTRING] (λ _, new_type TString);
  rule n_atomic_type [T tVOID] (λ _, new_type TVoid);
  rule n_atomic_type [T tINT; T (Ch "<"); T tCINTEGER; T (Ch ">")]
    (λ _ _ w _, new_type (TInteger (to_int w) true));
  rule n_atomic_type [T tINT8] (λ _, new_type (TInteger 8 true));
  rule n_atomic_type [T tINT16] (λ _, new_type (TInteger 16 true));
  rule n_atomic_type [T tINT32] (λ _, new_type (TInteger 32 true));
  rule n_atomic_type [T tINT64] (λ _, new_type (TInteger 64 true));
  rule n_atomic_type [T tUINT; T (Ch "<"); T tCINTEGER; T (Ch ">")]
    (λ _ _ w _, new_type (TInteger (to_int w) false));
  rule n_atomic_type [T tUINT8] (λ _, new_type (TInteger 8 false));
  rule n_atomic_type [T tUINT16] (λ _, new_type (TInteger 16 false));
  rule n_atomic_type [T tUINT32] (λ _, new_type (TInteger 32 false));
  rule n_atomic_type [T tUINT64] (λ _, new_type (TInteger 64 false));
  rule n_atomic_type [T tTUPLE; T (Ch "<"); N n_types; T (Ch ">")] (λ _ _ ts _, new_type (Ast.TTuple ts));
  (* Tuple(const Location&) is a wildcard *)
  rule n_atomic_type [T tTUPLE; T (Ch "<"); T (Ch "*"); T (Ch ">")]
    (λ _ _ _ _, ret (mkTy wild (Ast.TTuple [])));
  rule n_atomic_type [N n_bitfield] (λ t, ret t);
  rule n_atomic_type [N n_bitset] (λ t, ret t);
  rule n_atomic_type [N n_enum] (λ t, ret t);
  rule n_atomic_type [N n_unit] (λ t, ret t)
  ].

Definition type_rules : list production := [
  rule n_container_type [T tLIST; T (Ch "<"); N n_type; T (Ch ">")]
    (λ _ _ t _, new_type (TList (Some t)));
  rule n_container_type [T tMAP; T (Ch "<"); N n_type; T (Ch ","); N n_type; T (Ch ">")]
    (λ _ _ k _ v _, new_type (TMap (Some k) (Some v)));
  rule n_container_type [T tSET; T (Ch "<"); N n_type; T (Ch ">")]
    (λ _ _ t _, new_type (TSet (Some t)));
  rule n_container_type [T tVECTOR; T (Ch "<"); N n_type; T (Ch ">")]
    (λ _ _ t _, new_type (TVector (Some t)));
  rule n_bitset [T tBITSET; T (Ch "{"); N n_id_with_ints; T (Ch "}")]
    (λ _ _ ls _, new_type (Labels.newBitset ls));
  rule n_enum [T tENUM; T (Ch "{"); N n_id_with_ints; T (Ch "}")]
    (λ _ _ ls _, k ⇐ lift (Labels.newEnum ls); new_type k);
  rule n_types [N n_type; T (Ch ","); N n_types] (λ t _ ts, ret (t :: ts));
  rule n_types [N n_type] (λ t, ret [t]);
  rule n_id_with_ints [N n_id_with_ints; T (Ch ","); N n_id_with_int] (λ ls _ l, ret (ls ++ [l]));
  rule n_id_with_ints [N n_id_with_int] (λ l, ret [l]);
  rule n_id_with_int [N n_local_id] (λ id, ret (id, (-1)%Z));
  rule n_id_with_int [N n_local_id; T (Ch "="); T tCINTEGER] (λ id _ z, ret (id, to_int z));
  rule n_bitfield [T tBITFIELD; T (Ch "("); T tCINTEGER; T (Ch ")"); Mid 1; T (Ch "{"); N n_bitfield_bits; T (Ch "}")]
    (λ _ _ w _, _ ⇐ set_int_width (to_int w); ret (λ _ bs _, new_type (TBitfield (to_int w) bs)));
  rule n_bitfield_bits [N n_bitfield_bits_spec; N n_bitfield_bits] (λ b bs, ret (b :: bs));
  rule n_bitfield_bits [] (ret []);
  rule n_bitfield_bits_spec [N n_local_id; T (Ch ":"); T tCINTEGER; T tDOTDOT; T tCINTEGER; N n_opt_type_attrs; T (Ch ";")]
    (λ id _ lower _ upper attrs _,
      w ⇐ int_width; ret (mkBits id (to_int lower) (to_int upper) w attrs));
  rule n_bitfield_bits_spec [N n_local_id; T (Ch ":"); T tCINTEGER; N n_opt_type_attrs; T (Ch ";")]
    (λ id _ bit attrs _, w ⇐ int_width; ret (mkBits id (to_int bit) (to_int bit) w attrs))
  ].

(** *** Units *)

(** [Unit(params, items)] sets itself as the unit of the items. *)
Definition set_item_unit (u : nat) (i : item) : item :=
  match i with
  | IVariable b d => IVariable (set_unit_ptr u b) d
  | IProperty b p => IProperty (set_unit_ptr u b) p
  | IField f => IField (set_unit u f)
  end.
Definition newUnit (params : list param) (items : list item) : M ty := λ s,
  let u := st_next_unit s in
  Ret (Some (mkTy plain (TUnit u),
    mkState (st_module s) (st_includes s) (st_int_width s) (st_counter s)
      (<[u := mkUnit params (map (set_item_unit u) items) false None None]> (st_units s)) (S u))).

(** The constructors of items that are only used here. *)
Definition newField (id : option ID) (t : option ty) (cond : option expr) (attrs : list attr)
    (params sinks : list expr) (k : field_kind) : M field :=
  counted (λ ctr, let '(b, ctr) := newItem id t attrs ctr in
    Ret (mkField b (mkFieldBase cond params sinks) k, ctr)).
Definition makeVectorField (elem : field) (name : option ID) (length : expr) : M field :=
  newField name (Some (mkTy plain TBytes)) None [] [] [] (FVector elem length).
Definition vector_if (name : option ID) (length : option expr) (f : field) : M field :=
  if length is Some length then makeVectorField f name length else ret f.
Definition percent_id (p : attr) : ID := id_of_string ("%" +:+ attr_key p).

Definition unit_rules : list production := [
  rule n_opt_unit_params [T (Ch "("); N n_opt_params; T (Ch ")")] (λ _ ps _, ret ps);
  rule n_opt_unit_params [] (ret []);
  rule n_unit [T tUNIT; N n_opt_unit_params; T (Ch "{"); N n_opt_unit_items; T (Ch "}")]
    (λ _ ps _ items _, newUnit ps items);
  rule n_unit_items [N n_unit_item; N n_unit_items] (λ i l, ret (i :: l));
  rule n_unit_items [N n_unit_item] (λ i, ret [i]);
  rule n_opt_unit_items [N n_unit_items] (λ l, ret l);
  rule n_opt_unit_items [] (ret []);
  rule n_unit_item [N n_unit_var] (λ i, ret i);
  rule n_unit_item [N n_unit_field] (λ f, ret (IField f));
  rule n_unit_item [N n_unit_switch] (λ f, ret (IField f));
  rule n_unit_item [N n_unit_prop] (λ i, ret i);
  rule n_unit_var [T tVAR; N n_local_id; T (Ch ":"); N n_type; N n_opt_init_expr; N n_opt_type_attrs; T (Ch ";")]
    (λ _ id _ t init attrs _,
      counted (λ ctr, let '(b, ctr) := newItem (Some id) (Some t) attrs ctr in
        Ret (IVariable b init, ctr)));
  rule n_unit_prop [N n_property]
    (λ p, counted (λ ctr, let '(b, ctr) := newItem (Some (percent_id p)) None [] ctr in
       Ret (IProperty b p, ctr)))
  ].

Definition field_rules : list production := [
  rule n_unit_field [N n_opt_unit_field_name; N n_base_type; N n_opt_field_args; N n_opt_unit_vector_len;
                     N n_opt_type_attrs; N n_opt_unit_field_cond; N n_opt_unit_field_sinks; T (Ch ";")]
    (λ id t args len attrs cond sinks _,
      f ⇐ counted (createByType t id cond attrs args sinks); vector_if id len f);
  rule n_unit_field [N n_opt_unit_field_name; N n_constant; N n_opt_unit_vector_len; N n_opt_type_attrs;
                     N n_opt_unit_field_cond; N n_opt_unit_field_sinks; T (Ch ";")]
    (λ id c len attrs cond sinks _,
      f ⇐ newField id (Some (constant_type c)) cond attrs [] sinks (FConstant c); vector_if id len f);
  rule n_unit_field [N n_opt_unit_field_name; N n_ctor; N n_opt_unit_vector_len; N n_opt_type_attrs;
                     N n_opt_unit_field_cond; N n_opt_unit_field_sinks; T (Ch ";")]
    (λ id c len attrs cond sinks _,
      f ⇐ newField id (Some (mkTy plain TBytes)) cond attrs [] sinks (FCtor c); vector_if id len f);
  rule n_unit_field [N n_opt_unit_field_name; T tLIST; T (Ch "<"); N n_unit_field_in_container; T (Ch ">");
                     N n_opt_unit_vector_len; N n_opt_type_attrs; N n_opt_unit_field_cond;
                     N n_opt_unit_field_sinks; T (Ch ";")]
    (λ id _ _ elem _ len attrs cond sinks _,
      f ⇐ newField id (Some (mkTy plain TBytes)) cond attrs [] sinks (FList elem); vector_if id len f);
  rule n_unit_field [N n_opt_unit_field_name; N n_scoped_id; N n_opt_field_args; N n_opt_unit_vector_len;
                     N n_opt_type_attrs; N n_opt_unit_field_cond; N n_opt_unit_field_sinks; T (Ch ";")]
    (λ id ref args len attrs cond sinks _,
      f ⇐ newField id None cond attrs args sinks (FUnknown ref); vector_if id len f);
  rule n_unit_field_in_container [N n_local_id; N n_opt_field_args]
    (λ ref args, newField None None None [] args [] (FUnknown ref));
  rule n_unit_fields [N n_unit_field; N n_unit_fields] (λ f fs, ret (f :: fs));
  rule n_unit_fields [N n_unit_field] (λ f, ret [f])
  ].

Definition switch_rules : list production := [
  rule n_unit_switch [T tSWITCH; N n_opt_unit_switch_expr; T (Ch "{"); N n_unit_switch_cases; T (Ch "}");
                      N n_opt_unit_field_cond; T (Ch ";")]
    (λ _ e _ cases _ cond _, newField None None cond [] [] [] (FSwitch e cases));
  rule n_opt_unit_switch_expr [T (Ch "("); N n_expr; T (Ch ")")] (λ _ e _, ret (Some e));
  rule n_opt_unit_switch_expr [] (ret None);
  rule n_unit_switch_cases [N n_unit_switch_case; N n_unit_switch_cases] (λ c cs, ret (c :: cs));
  rule n_unit_switch_cases [N n_unit_switch_case] (λ c, ret [c]);
  rule n_unit_switch_case [N n_exprs; T tARROW; T (Ch "{"); N n_unit_fields; T (Ch "}")]
    (λ es _ _ fs _, ret (mkCase es fs false));
  rule n_unit_switch_case [T (Ch "*"); T tARROW; T (Ch "{"); N n_unit_fields; T (Ch "}")]
    (λ _ _ _ fs _, ret (mkCase [] fs true));
  rule n_unit_switch_case [N n_exprs; T tARROW; N n_unit_field] (λ es _ f, ret (mkCase es [f] false));
  rule n_unit_switch_case [T (Ch "*"); T tARROW; N n_unit_field] (λ _ _ f, ret (mkCase [] [f] true));
  rule n_unit_switch_case [N n_unit_field] (λ f, ret (mkCase [] [f] false))
  ].

Definition option_rules : list production := [
  rule n_opt_type_attrs [N n_type_attr; N n_opt_type_attrs] (λ x xs, ret (x :: xs));
  rule n_opt_type_attrs [] (ret []);
  rule n_type_attr [T tATTRIBUTE; T (Ch "("); N n_expr; T (Ch ")")]
    (λ k _ e _, ret (newAttribute k (Some e)));
  rule n_type_attr [T tATTRIBUTE; T (Ch "="); N n_expr] (λ k _ e, ret (newAttribute k (Some e)));
  rule n_type_attr [T tATTRIBUTE] (λ k, ret (newAttribute k None));
  rule n_opt_field_args [T (Ch "("); N n_opt_exprs; T (Ch ")")] (λ _ es _, ret es);
  rule n_opt_field_args [] (ret []);
  rule n_opt_unit_field_name [N n_local_id; T (Ch ":")] (λ id _, ret (Some id));
  rule n_opt_unit_field_name [T (Ch ":")] (λ _, ret None);
  rule n_opt_unit_field_cond [T tIF; T (Ch "("); N n_expr; T (Ch ")")] (λ _ _ e _, ret (Some e));
  rule n_opt_unit_field_cond [] (ret None);
  rule n_opt_unit_field_sinks [T tARROW; N n_exprs] (λ _ es, ret es);
  rule n_opt_unit_field_sinks [] (ret []);
  rule n_opt_unit_vector_len [T (Ch "["); N n_expr; T (Ch "]")] (λ _ e _, ret (Some e));
  rule n_opt_unit_vector_len [] (ret None)
  ].

Definition inst_rules : list production := [
  rule n_inst_items [N n_inst_item; N n_inst_items] (λ i l, ret (i :: l));
  rule n_inst_items [N n_inst_item] (λ i, ret [i]);
  rule n_opt_inst_items [N n_inst_items] (λ l, ret l);
  rule n_opt_inst_items [] (ret []);
  rule n_inst_item [N n_inst_field] (λ i, ret i);
  rule n_inst_item [N n_inst_prop] (λ i, ret i);
  rule n_inst_field [N n_local_id; N n_opt_type_attrs; T (Ch ";")]
    (λ id attrs _, ret (InstField id (mk_attrs attrs) false));
  rule n_inst_prop [N n_property] (λ p, ret (InstProperty (percent_id p) p))
  ].

(** *** Constants and constructors *)

Definition integer (z w : Z) (sign : bool) : M constant := ret (CInteger z w sign).
Definition constant_rules : list production := [
  rule n_constant [T tNONE] (λ _, ret CNone);
  rule n_constant [T tCINTEGER] (λ z, integer z 64 loc);
  rule n_constant [T tUINT; T (Ch "<"); T tCINTEGER; T (Ch ">"); T (Ch "("); T tCINTEGER; T (Ch ")")]
    (λ _ _ w _ _ z _, integer z (to_int w) false);
  rule n_constant [T tUINT8; T (Ch "("); T tCINTEGER; T (Ch ")")] (λ _ _ z _, integer z 8 false);
  rule n_constant [T tUINT16; T (Ch "("); T tCINTEGER; T (Ch ")")] (λ _ _ z _, integer z 16 false);
  rule n_constant [T tUINT32; T (Ch "("); T tCINTEGER; T (Ch ")")] (λ _ _ z _, integer z 32 false);
  rule n_constant [T tUINT64; T (Ch "("); T tCINTEGER; T (Ch ")")] (λ _ _ z _, integer z 64 false);
  rule n_constant [T tINT; T (Ch "<"); T tCINTEGER; T (Ch ">"); T (Ch "("); T tCINTEGER; T (Ch ")")]
    (λ _ _ w _ _ z _, integer z (to_int w) true);
  rule n_constant [T tINT8; T (Ch "("); T tCINTEGER; T (Ch ")")] (λ _ _ z _, integer z 8 true);
  rule n_constant [T tINT16; T (Ch "("); T tCINTEGER; T (Ch ")")] (λ _ _ z _, integer z 16 true);
  rule n_constant [T tINT32; T (Ch "("); T tCINTEGER; T (Ch ")")] (λ _ _ z _, integer z 32 true);
  rule n_constant [T tINT64; T (Ch "("); T tCINTEGER; T (Ch ")")] (λ _ _ z _, integer z 64 true);
  rule n_constant [T tCBOOL] (λ b, ret (CBool b));
  rule n_constant [T tCDOUBLE] (λ d, ret (CDouble d));
  rule n_constant [T tCSTRING] (λ s, ret (CString s));
  rule n_constant [N n_tuple] (λ c, ret c);
  rule n_tuple [T (Ch "("); N n_opt_exprs; T (Ch ")")] (λ _ es _, ret (CTuple es));
  rule n_ctor [T tCBYTES] (λ s, ret (CtorBytes s));
  rule n_ctor [N n_re_patterns] (λ ps, ret (CtorRegExp ps []));
  rule n_re_patterns [N n_re_patterns; T (Ch "|"); N n_re_pattern_constant] (λ ps _ p, ret (ps ++ [p]));
  rule n_re_patterns [N n_re_pattern_constant] (λ p, ret [p]);
  (* the mid-rule actions switch the mode of the scanner *)
  rule n_re_pattern_constant [T (Ch "/"); Mid 2; T tCREGEXP; Mid 3; T (Ch "/")]
    (λ _, ret (λ s, ret (λ _, ret s)))
  ].

(** *** Expressions *)

Definition op (k : op_kind) (es : list expr) : M expr := ret (makeOp k es).
Definition node (k : expr_kind) : M expr := ret (new_expr k).
Definition term_of (t : token) : term := projT1 (scanned t).
Definition binary_rule (b : binary) : production :=
  rule n_expr2 [N n_expr; T (term_of (binary_token b)); N n_expr]
    (λ l _ r, lift_option (binary_expr b l r)).
Definition prefix_rule (p : prefix) : production :=
  rule n_expr2 [T (term_of (prefix_token p)); N n_expr] (λ _ e, op (prefix_kind p) [e]).
Definition postfix_rule (p : postfix) : production :=
  rule n_expr2 [N n_expr; T (term_of (postfix_token p))] (λ e _, op (postfix_kind p) [e]).

(** [FIND] takes a list, two lambdas and an expression. *)
Definition find_of (e : expr) : M expr :=
  match ekind e with
  | EConstant (CTuple [l; c; f; n]) =>
      match ekind c, ekind f with
      | ELambda _ _, ELambda _ _ => node (EFind l c f (Some n))
      | _, _ => error
      end
  | EConstant (CTuple _) => error
  | _ => abort "checkedCast<expression::Constant>"
  end.

Definition expr_rules : list production := [
  rule n_expr [N n_expr2] (λ e, ret e);
  rule n_expr2 [N n_scoped_id] (λ id, node (EID id));
  rule n_expr2 [T (Ch "("); N n_expr; T (Ch ")")] (λ _ e _, ret e);
  rule n_expr2 [N n_ctor] (λ c, node (ECtor c));
  rule n_expr2 [N n_constant] (λ c, node (EConstant c));
  binary_rule BAssign;
  rule n_expr2 [N n_expr; T (Ch "?"); N n_expr] (λ c _ t, node (EConditional c t None));
  rule n_expr2 [N n_expr; T (Ch "?"); N n_expr; T (Ch ":"); N n_expr]
    (λ c _ t _ f, node (EConditional c t (Some f)));
  rule n_expr2 [T tIF; N n_expr; T tTHEN; N n_expr] (λ _ c _ t, node (EConditional c t None));
  rule n_expr2 [T tIF; N n_expr; T tTHEN; N n_expr; T tELSE; N n_expr]
    (λ _ c _ t _ f, node (EConditional c t (Some f)));
  rule n_expr2 [T (Ch "["); N n_expr; T tFOR; N n_local_id; T tIN; N n_expr; T (Ch "]")]
    (λ _ e _ id _ l _, node (EListComprehension e id l None));
  rule n_expr2 [T (Ch "["); N n_expr; T tFOR; N n_local_id; T tIN; N n_expr; T tIF; N n_expr; T (Ch "]")]
    (λ _ e _ id _ l _ p _, node (EListComprehension e id l (Some p)));
  binary_rule BLambda;
  rule n_expr2 [T tFIND; N n_tuple_expr] (λ _ e, find_of e)
  ].

Definition operator_rules : list production := [
  rule n_expr2 [N n_expr; N n_tuple_expr] (λ f t, op OpCall [f; t]);
  rule n_expr2 [N n_expr; T (Ch "["); N n_expr; T (Ch "]")] (λ a _ i _, op OpIndex [a; i]);
  binary_rule BAnd; binary_rule BOr; binary_rule BBitAnd; binary_rule BBitOr; binary_rule BBitXor;
  binary_rule BShiftLeft; binary_rule BShiftRight; binary_rule BPower;
  rule n_expr2 [N n_expr; T (Ch "."); N n_member_expr] (λ a _ m, op OpAttribute [a; m]);
  rule n_expr2 [N n_expr; T (Ch "."); N n_member_expr; T (Ch "="); N n_expr]
    (λ a _ m _ e, op OpAttributeAssign [a; m; e]);
  rule n_expr2 [N n_expr; T tHASATTR; N n_member_expr] (λ a _ m, op OpHasAttribute [a; m]);
  postfix_rule PostIncr; prefix_rule PreIncr; postfix_rule PostDecr; prefix_rule PreDecr;
  prefix_rule PreDeref; prefix_rule PreNot;
  rule n_expr2 [T (Ch "|"); N n_expr; T (Ch "|")] (λ _ e _, op OpSize [e]);
  binary_rule BPlus; binary_rule BMinus; binary_rule BMult; binary_rule BDiv; binary_rule BMod;
  binary_rule BEqual; binary_rule BIn; binary_rule BLess; binary_rule BPlusAssign;
  binary_rule BMinusAssign;
  rule n_expr2 [N n_expr; T (Ch "["); N n_expr; T (Ch "]"); T (Ch "="); N n_expr]
    (λ a _ i _ _ e, op OpIndexAssign [a; i; e]);
  rule n_expr2 [N n_expr; T (Ch "."); N n_member_expr; N n_tuple_expr]
    (λ a _ m t, op OpMethodCall [a; m; t]);
  rule n_expr2 [T tCAST; T (Ch "<"); N n_type; T (Ch ">"); T (Ch "("); N n_expr; T (Ch ")")]
    (λ _ _ t _ _ e _, op OpCast [e; new_expr (EType t)]);
  binary_rule BNeq; binary_rule BLeq; binary_rule BGeq; binary_rule BGreater;
  rule n_member_expr [N n_local_id] (λ id, node (EMemberAttribute id));
  rule n_tuple_expr [N n_tuple] (λ c, node (EConstant c));
  rule n_exprs [N n_expr; T (Ch ","); N n_exprs] (λ e _ es, ret (e :: es));
  rule n_exprs [N n_expr] (λ e, ret [e]);
  rule n_opt_exprs [N n_exprs] (λ es, ret es);
  rule n_opt_exprs [] (ret [])
  ].

Definition productions : list production :=
  module_rules ++ id_rules ++ property_rules ++ decl_rules ++ const_rules ++ func_rules
  ++ atomic_rules ++ type_rules ++ unit_rules ++ field_rules ++ switch_rules ++ option_rules
  ++ inst_rules ++ constant_rules ++ expr_rules ++ operator_rules.

End Actions.

(** ** The grammar for bison *)

(** The rules in the order of bison's numbers: a mid-rule action is an empty rule in front of
    the rule it is in. *)
Inductive numbered_rule := RuleMid (k : nat) | RuleProd (p : production).
Definition mid_rules (p : production) : list numbered_rule :=
  omap (λ s, match s with Mid k => Some (RuleMid k) | _ => None end) (p_rhs p).
Definition numbered_rules (stream_name : string) : list numbered_rule :=
  concat (map (λ p, mid_rules p ++ [RuleProd p]) (productions stream_name)).

Definition plain_rule (r : numbered_rule) : Grammars.rule :=
  match r with
  | RuleMid k => mkRule (number (Mid k)) [] None
  | RuleProd p => mkRule (number (N (p_lhs p))) (map number (p_rhs p)) (number ∘ T <$> p_prec p)
  end.

(** The declarations [%left], the weakest first. *)
Definition left_declarations : list (list term) := [
  [tDARROW]; [tOR; tAND]; [tEQ; tNEQ; tLEQ; tGEQ; Ch "<"; Ch ">"]; [Ch "+"; Ch "-"];
  [tINT; tINT8; tINT16; tINT32; tINT64]; [tUINT; tUINT8; tUINT16; tUINT32; tUINT64];
  [tPREC_HIGH] ].
Fixpoint level_in (n : nat) (ls : list (list term)) (t : positive) : option nat :=
  match ls with
  | [] => None
  | l :: ls => if existsb (λ x, Pos.eqb (number (T x)) t) l then Some n else level_in (S n) ls t
  end.

Definition spec_grammar : grammar :=
  mkGrammar (map plain_rule (numbered_rules "")) (λ s, Pos.ltb s 401)
    (level_in 1 left_declarations) (number (T tEND)).
Definition spec_analysis : analysis := Eval vm_compute in analyse spec_grammar.
Definition spec_table : Tables.table :=
  Eval vm_compute in Construction.build spec_grammar spec_analysis 3000 2000.
Definition spec_potential : Validation.potential :=
  Eval vm_compute in Validation.find_potential spec_grammar spec_analysis spec_table 4 10.

(** ** Running the actions *)

(** The values of the symbols of a rule, still to be computed. *)
Fixpoint args (rhs : list symbol) : Type :=
  match rhs with
  | [] => ()
  | Mid _ :: rhs => args rhs
  | s :: rhs => (M (sem s) * args rhs)%type
  end.
Definition value_of := { s : symbol & M (sem s) }.

Definition cast {s s' : symbol} (v : M (sem s)) : option (M (sem s')) :=
  match decide (s = s') with
  | left e => Some (eq_rect s (λ s, M (sem s)) v s' e)
  | right _ => None
  end.
Fixpoint gather (rhs : list symbol) (l : list value_of) : option (args rhs) :=
  match rhs, l with
  | [], [] => Some tt
  | Mid k :: rhs, existT (Mid k') _ :: l => if Nat.eqb k k' then gather rhs l else None
  | T t :: rhs, existT s v :: l => v ← cast (s' := T t) v; vs ← gather rhs l; Some (v, vs)
  | N n :: rhs, existT s v :: l => v ← cast (s' := N n) v; vs ← gather rhs l; Some (v, vs)
  | _, _ => None
  end.

(** The values are computed from the left to the right, as the rules are reduced. *)
Fixpoint run_action {R} (rhs : list symbol) : act rhs R → args rhs → M R :=
  match rhs with
  | [] => λ f _, f
  | Mid _ :: rhs => λ f vs, f ⇐ f; run_action rhs f vs
  | T t :: rhs => λ f vs, v ⇐ vs.1; run_action rhs (f v) vs.2
  | N n :: rhs => λ f vs, v ⇐ vs.1; run_action rhs (f v) vs.2
  end.

(** The action of a derivation tree; [None] if its values do not have the declared types. *)
Fixpoint denote (rs : list numbered_rule) (t : tree token) : option value_of :=
  match t with
  | Leaf t => Some (existT (T (projT1 (scanned t))) (ret (projT2 (scanned t))))
  | Node r l =>
      match rs !! pred (Pos.to_nat r) with
      | None => None
      | Some (RuleMid k) => Some (existT (Mid k) (ret tt))
      | Some (RuleProd p) =>
          vs ← mapM (denote rs) l;
          vs ← gather (p_rhs p) vs;
          Some (existT (N (p_lhs p)) (run_action (p_rhs p) (p_act p) vs))
      end
  end.

(** [parser_->parse()] on a list of tokens: the derivation tree, and the actions of the tree
    from the state [s].  The code runs them while it reads; whether tokens are a specification
    does not depend on them. *)
Definition parse_tokens (ts : list token) : outcome (option (tree token)) :=
  LrCorrect.Correctness.parse spec_grammar spec_analysis spec_table spec_potential kind ts.
Definition run_tree (stream_name : string) (t : tree token) (s : pstate) : outcome (option pstate) :=
  match denote (numbered_rules stream_name) t with
  | Some (existT _ m) => option_map snd <$> m s
  | None => Abort "yyvsp"
  end.
Definition new_state (counter : Z) (us : units) (next : nat) : pstate := mkState None [] 0 counter us next.
Definition parse_module (stream_name : string) (ts : list token) (s : pstate) : outcome (option pstate) :=
  t ← parse_tokens ts;
  match t with Some t => run_tree stream_name t s | None => Ret None end.

End Rules.
