(* ===== verification/Specs.v ===== *)
(** * Specifications as derivation trees, and their values

    The automaton of the grammar in [Yacc.v] is valid, so it ends on every list of tokens and
    finds exactly the derivation trees the table accepts ([specification_parsed]); the values of
    such a tree have the types the grammar declares ([specification_typed]). *)

From S2P Require Import Prelude Util Ident Ast Units Scanner Grammar Lalr LrCorrect Yacc.
From stdpp Require Import pmap.
Import Grammars Automaton Validation LrCorrect.Correctness Yacc.Symbols Yacc.Rules.

(** ** Symbols and their numbers *)

Module Numbers.

(** The symbol of a number, from the lists of all symbols. *)
Definition terms : list term := map (λ t, projT1 (scanned t))
  ([SCOPED_IDENT ""; DOLLAR_IDENT ""; PATH_IDENT ""; IDENT ""; ATTRIBUTE ""; PROPERTY ""; CINTEGER 0;
    CBOOL true; CSTRING ""; CBYTES ""; CREGEXP ""; CDOUBLE (mkDouble 0 0); CPPCODE "";
    ANY; AS; BITFIELD; BITSET; BOOL; BYTES; CADDR; CAST; CONST; DOUBLE; ELSE; ENUM;
    EXPORT; FOR; FIND; IF; IMPORT; IN; INCLUDE; INSTANTIATE;
    INT; INT8; INT16; INT32; INT64; LIST; MAP; MOD; MODULE; SET; SINK; STRING; SWITCH;
    THEN; TUPLE; TYPE; UINT; UINT8; UINT16; UINT32; UINT64; UNIT; VAR; VECTOR; VOID;
    AND; ARROW; BEGINCODE; DARROW; DOTDOT; EQ; ENDCODE; GEQ; HASATTR; LEQ;
    MINUSASSIGN; MINUSMINUS; NEQ; OR; PLUSASSIGN; PLUSPLUS; POW; SHIFTLEFT; SHIFTRIGHT; NONE]) ++ [tEND; tUndefined; tPREC_HIGH].
Definition nonterms : list nonterm := remove_dups (map p_lhs (productions "")).

Definition symbol_numbered (p : positive) : option symbol :=
  if Pos.ltb 500 p then Some (Mid (pred (Pos.to_nat (p - 500))))
  else if Pos.leb p 256 then Some (T (Ch (ascii_of_nat (pred (Pos.to_nat p)))))
  else List.find (λ s, Pos.eqb (number s) p) (map T terms ++ map N nonterms).

Lemma symbol_numbered_number s : symbol_numbered (number s) = Some s.
Proof.
  destruct s as [t|n|k]; [|by destruct n|].
  - destruct t; try done. unfold symbol_numbered. cbn [number term_number].
    pose proof (nat_ascii_bounded c). destruct (Pos.ltb_spec 500 (Pos.of_succ_nat (nat_of_ascii c))); [lia|].
    destruct (Pos.leb_spec (Pos.of_succ_nat (nat_of_ascii c)) 256); [|lia].
    rewrite SuccNat2Pos.id_succ. cbn [Init.Nat.pred]. by rewrite ascii_nat_embedding.
  - unfold symbol_numbered. cbn [number]. destruct (Pos.ltb_spec 500 (500 + Pos.of_succ_nat k)); [|lia].
    do 2 f_equal. lia.
Qed.
Lemma number_inj s s' : number s = number s' → s = s'.
Proof. intros H. pose proof (symbol_numbered_number s) as H1. rewrite H, symbol_numbered_number in H1. by simplify_eq. Qed.

Lemma kind_token t : is_token spec_grammar (kind t) = true.
Proof.
  destruct t; try done. unfold kind. cbn [scanned projT1 number term_number is_token spec_grammar].
  pose proof (nat_ascii_bounded c). apply Pos.ltb_lt. lia.
Qed.

Lemma spec_valid : valid spec_grammar spec_analysis spec_table spec_potential = true.
Proof. vm_compute. reflexivity. Qed.

End Numbers.
Import Numbers.

(** ** The rules behind the numbers *)

Module Lookup.

(** The names of files do not matter for the symbols of the rules. *)
Lemma plain_rules stream_name :
  map plain_rule (numbered_rules stream_name) = map plain_rule (numbered_rules "").
Proof. reflexivity. Qed.

Lemma rule_checked :
  forallb (λ nr, bool_decide (map plain_rule (numbered_rules "") !! pred (Pos.to_nat nr.1) = Some nr.2))
    (map_to_list (rule_at spec_analysis)) = true.
Proof. vm_compute. reflexivity. Qed.

Lemma rule_lookup stream_name r ru : rule_at spec_analysis !! r = Some ru →
  ∃ nr, numbered_rules stream_name !! pred (Pos.to_nat r) = Some nr ∧ plain_rule nr = ru.
Proof.
  intros H. pose proof (forallb_lookup _ _ _ _ rule_checked H) as Hc.
  apply bool_decide_eq_true in Hc. cbn [fst snd] in Hc. rewrite <- (plain_rules stream_name) in Hc.
  change (map plain_rule (numbered_rules stream_name)) with (plain_rule <$> numbered_rules stream_name) in Hc.
  rewrite list_lookup_fmap in Hc. destruct (numbered_rules stream_name !! _) as [nr|]; [|done].
  exists nr. split; [done|]. by injection Hc.
Qed.

End Lookup.
Import Lookup.

(** ** Typed values *)

Module Typed.

Lemma cast_same (s : symbol) (v : M (sem s)) : cast v = Some v.
Proof.
  unfold cast. destruct (decide (s = s)) as [e|]; [|done]. f_equal.
  by rewrite (Eqdep_dec.UIP_dec symbol_eq_dec e eq_refl).
Qed.

(** Trees with the symbols of a rule have values for its arguments. *)
Lemma gather_total (rhs : list symbol) (l : list value_of) :
  map (λ v, projT1 v) l = rhs → ∃ vs, gather rhs l = Some vs.
Proof.
  intros <-. induction l as [|[s v] l [vs IH]]; [by exists tt|].
  destruct s as [t|n|k]; cbn [map projT1 gather].
  - rewrite cast_same. cbn [mbind option_bind]. rewrite IH. by eexists.
  - rewrite cast_same. cbn [mbind option_bind]. rewrite IH. by eexists.
  - rewrite Nat.eqb_refl. rewrite IH. by eexists.
Qed.

Lemma derives_typed stream_name t p : derives spec_analysis kind t p →
  ∃ v, denote (numbered_rules stream_name) t = Some v ∧ number (projT1 v) = p.
Proof.
  revert p. induction t as [t|r l IH] using tree_ind'; intros p H; inversion H; subst; clear H.
  { eexists. split; [reflexivity|]. done. }
  match goal with H : rule_at _ !! _ = Some ?ru |- _ => rename H into Hr; rename ru into r' end.
  match goal with H : Forall2 _ _ _ |- _ => rename H into Hl end.
  destruct (rule_lookup stream_name _ _ Hr) as (nr & Hn & <-). cbn [denote]. rewrite Hn.
  destruct nr as [k|pr]; [by eexists|]. cbn [plain_rule rhs] in Hl.
  assert (∃ vs, mapM (denote (numbered_rules stream_name)) l = Some vs ∧ map (λ v, projT1 v) vs = p_rhs pr)
    as (vs & -> & Hvs).
  { clear Hn Hr. revert Hl. generalize (p_rhs pr). induction IH as [|t l Ht _ IH]; intros ss Hl.
    - destruct ss; [|by inversion Hl]. by exists [].
    - destruct ss as [|s ss]; inversion Hl; subst. destruct (IH ss) as (vs & Hv1 & Hv2); [done|].
      destruct (Ht (number s)) as (v & Hv & En); [done|]. exists (v :: vs). cbn [mapM mbind option_bind map]. rewrite Hv.
      cbn [mbind option_bind]. rewrite Hv1. split; [done|]. rewrite Hv2. f_equal. by apply number_inj. }
  cbn [mbind option_bind]. destruct (gather_total (p_rhs pr) vs Hvs) as [a ->]. by eexists.
Qed.

End Typed.
Import Typed.

(** What the parser finds is a derivation of [module], with values of the declared types. *)
Lemma specification_typed stream_name ts t :
  parse_tokens ts = Ret (Some t) →
  derives spec_analysis kind t (number (N n_module)) ∧
  ∃ m, denote (numbered_rules stream_name) t = Some (existT (N n_module) m).
Proof.
  intros [_ Ha]%(parse_exactly _ _ _ _ kind spec_valid kind_token).
  destruct (accepted_derives _ _ _ _ kind spec_valid kind_token _ Ha) as (ru & s & Hr & Hs & Hd).
  vm_compute in Hr. injection Hr as <-. injection Hs as <-. split; [done|].
  destruct (derives_typed stream_name _ _ Hd) as ([s m] & Hv & En).
  assert (s = N n_module) as -> by (by apply number_inj). by exists m.
Qed.


(** [module net; export type id = uint8;] is parsed. *)
Example small_specification :
  match parse_tokens [MODULE; IDENT "net"; CHAR ";"; EXPORT; TYPE; IDENT "id"; CHAR "="; UINT8; CHAR ";"] with
  | Ret (Some _) => True
  | _ => False
  end.
Proof. vm_compute. exact I. Qed.
