(* ===== verification/Embed.v ===== *)
(** * Expressions in a specification

    The automaton of [Grammar.v] for the rules of expressions and the one bison makes of the
    whole grammar agree: an expression the precedences allow ([prec_ok]) is read by the latter
    wherever an expression may stand ([walk_expr]). *)

From S2P Require Import Prelude Util Ident Ast Units Scanner Grammar Precedence Lalr LrCorrect Yacc Specs.
From stdpp Require Import pmap.
Import Grammars Tables Automaton LrCorrect.Correctness Yacc.Symbols Yacc.Rules Specs.Numbers.
Import Grammar.Syntax Grammar.Parser Precedence.Allowed Precedence.Conts.

(** ** Trees by their rules *)

Module Building.

Abbreviation dtree := (Automaton.tree token).
Local Abbreviation walk := (Automaton.walk spec_grammar spec_analysis spec_table kind).
Local Abbreviation action_at := (Automaton.action_at spec_grammar spec_analysis spec_table kind).
Local Abbreviation symbol_of := (Automaton.symbol_of spec_analysis kind).

(** The number of a rule, and its tree. *)
Definition is_rule (n : nonterm) (rhs : list symbol) (r : numbered_rule) : bool :=
  match r with
  | RuleProd p => bool_decide (p_lhs p = n) && bool_decide (p_rhs p = rhs)
  | RuleMid k => false
  end.
Definition rule_no (n : nonterm) (rhs : list symbol) : positive :=
  from_option (λ ir, Pos.of_succ_nat ir.1) 1000%positive
    (list_find (λ r, is_rule n rhs r = true) (numbered_rules "")).
Definition mid_no (k : nat) : positive :=
  from_option (λ ir, Pos.of_succ_nat ir.1) 1000%positive
    (list_find (λ r, (if r is RuleMid k' then Nat.eqb k k' else false) = true) (numbered_rules "")).
Definition nd (n : nonterm) (rhs : list symbol) (l : list dtree) : dtree := Node (rule_no n rhs) l.
Definition mid (k : nat) : dtree := Node (mid_no k) [].

(** What is reduced in a state in front of the tokens. *)
Definition goto (s : positive) (x : symbol) : option positive := Tables.goto spec_table s (number x).
(** The state a list of symbols leads to from the first one. *)
Definition state_after (l : list symbol) : positive :=
  default 1%positive (foldl (λ s x, s ≫= λ s, goto s x) (Some 1%positive) l).

Definition known (p : production) : bool :=
  bool_decide (rule_at spec_analysis !! rule_no (p_lhs p) (p_rhs p) =
    Some (mkRule (number (N (p_lhs p))) (map number (p_rhs p)) (number ∘ T <$> p_prec p))).
Lemma rules_known : forallb known (productions "") = true.
Proof. vm_compute. reflexivity. Qed.


(** What is read in front of tokens leads to a state. *)
Definition reads (x : dtree) (s : positive) (ts : list token) (m : positive) : Prop :=
  walk x s ts = Some m.

Lemma walks_cons x l s ts m k : reads x s (concat (map Automaton.yield l) ++ ts) k →
  walks spec_grammar spec_analysis spec_table kind l k ts = Some m →
  walks spec_grammar spec_analysis spec_table kind (x :: l) s ts = Some m.
Proof. intros H1 H2. cbn [walks]. unfold reads in H1. rewrite H1. exact H2. Qed.

Lemma reads_rule n rhs l s k m ts :
  rule_at spec_analysis !! rule_no n rhs = Some (mkRule (number (N n)) (map number rhs) None) →
  walks spec_grammar spec_analysis spec_table kind l s ts = Some k →
  action_at k ts = Reduce (rule_no n rhs) → map symbol_of l = map Some (map number rhs) →
  goto s (N n) = Some m → reads (nd n rhs l) s ts m.
Proof.
  intros Hr Hl Ha Hs Hg. unfold reads, nd. rewrite (walk_node _ _ _ spec_potential kind spec_valid kind_token), Hr. cbn [mbind option_bind]. rewrite Hl.
  cbn [mbind option_bind]. by rewrite bool_decide_eq_true_2.
Qed.

Lemma reads_token t s m ts :
  action_at s (t :: ts) = Shift → goto s (T (term_of t)) = Some m → reads (Leaf t) s ts m.
Proof. intros Ha Hg. unfold reads. cbn [Automaton.walk]. by rewrite Ha. Qed.

End Building.
Import Building.

(** ** The tree of an expression *)

Module Lift.

Definition leaf (t : token) : dtree := Leaf t.
Definition ch (c : ascii) : dtree := Leaf (CHAR c).
(** An [expr] of an [expr2]. *)
Definition ex (e : dtree) : dtree := nd n_expr [N n_expr2] [e].
Definition local_id (s : string) : dtree := nd n_local_id [T tIDENT] [leaf (IDENT s)].
Definition member (m : string) : dtree := nd n_member_expr [N n_local_id] [local_id m].

Fixpoint exprs (l : list dtree) : dtree :=
  match l with
  | [] => Leaf END
  | [x] => nd n_exprs [N n_expr] [x]
  | x :: l => nd n_exprs [N n_expr; T (Ch ","); N n_exprs] [x; ch ","; exprs l]
  end.
Definition opt_exprs (l : list dtree) : dtree :=
  match l with [] => nd n_opt_exprs [] [] | _ => nd n_opt_exprs [N n_exprs] [exprs l] end.
Definition tuple (l : list dtree) : dtree :=
  nd n_tuple [T (Ch "("); N n_opt_exprs; T (Ch ")")] [ch "("; opt_exprs l; ch ")"].
Definition tuple_ex (l : list dtree) : dtree := nd n_tuple_expr [N n_tuple] [tuple l].

Definition const2 (c : dtree) : dtree := nd n_expr2 [N n_constant] [c].
Definition lift_atom (a : atom) : dtree :=
  let t := [leaf (atom_token a)] in
  match a with
  | AIdent _ => nd n_expr2 [N n_scoped_id] [nd n_scoped_id [T tIDENT] t]
  | AScoped _ => nd n_expr2 [N n_scoped_id] [nd n_scoped_id [T tSCOPED_IDENT] t]
  | AInteger _ => const2 (nd n_constant [T tCINTEGER] t)
  | ABool _ => const2 (nd n_constant [T tCBOOL] t)
  | AString _ => const2 (nd n_constant [T tCSTRING] t)
  | ADouble _ => const2 (nd n_constant [T tCDOUBLE] t)
  | ANone => const2 (nd n_constant [T tNONE] t)
  | ABytes _ => nd n_expr2 [N n_ctor] [nd n_ctor [T tCBYTES] t]
  end.

Definition bin_rhs (b : binary) : list symbol := [N n_expr; T (term_of (binary_token b)); N n_expr].
Fixpoint lift (t : tree) : dtree :=
  match t with
  | TAtom a => lift_atom a
  | TSized n z =>
      const2 (nd n_constant [T (term_of (int_token n)); T (Ch "("); T tCINTEGER; T (Ch ")")]
        [leaf (int_token n); ch "("; leaf (CINTEGER z); ch ")"])
  | TWidth sg w z =>
      let t := if sg : bool then INT else UINT in
      const2 (nd n_constant [T (term_of t); T (Ch "<"); T tCINTEGER; T (Ch ">"); T (Ch "("); T tCINTEGER; T (Ch ")")]
        [leaf t; ch "<"; leaf (CINTEGER w); ch ">"; ch "("; leaf (CINTEGER z); ch ")"])
  | TParen e => nd n_expr2 [T (Ch "("); N n_expr; T (Ch ")")] [ch "("; ex (lift e); ch ")"]
  | TTuple l => const2 (nd n_constant [N n_tuple] [tuple (map (λ e, ex (lift e)) l)])
  | TBin b l r => nd n_expr2 (bin_rhs b) [ex (lift l); leaf (binary_token b); ex (lift r)]
  | TPre p e => nd n_expr2 [T (term_of (prefix_token p)); N n_expr] [leaf (prefix_token p); ex (lift e)]
  | TPost e p => nd n_expr2 [N n_expr; T (term_of (postfix_token p))] [ex (lift e); leaf (postfix_token p)]
  | TCond c a => nd n_expr2 [N n_expr; T (Ch "?"); N n_expr] [ex (lift c); ch "?"; ex (lift a)]
  | TCondElse c a b =>
      nd n_expr2 [N n_expr; T (Ch "?"); N n_expr; T (Ch ":"); N n_expr]
        [ex (lift c); ch "?"; ex (lift a); ch ":"; ex (lift b)]
  | TCall f l => nd n_expr2 [N n_expr; N n_tuple_expr] [ex (lift f); tuple_ex (map (λ e, ex (lift e)) l)]
  | TIndex a i =>
      nd n_expr2 [N n_expr; T (Ch "["); N n_expr; T (Ch "]")] [ex (lift a); ch "["; ex (lift i); ch "]"]
  | TIndexAssign a i e =>
      nd n_expr2 [N n_expr; T (Ch "["); N n_expr; T (Ch "]"); T (Ch "="); N n_expr]
        [ex (lift a); ch "["; ex (lift i); ch "]"; ch "="; ex (lift e)]
  | TAttr a m => nd n_expr2 [N n_expr; T (Ch "."); N n_member_expr] [ex (lift a); ch "."; member m]
  | THasAttr a m => nd n_expr2 [N n_expr; T tHASATTR; N n_member_expr] [ex (lift a); leaf HASATTR; member m]
  | TAttrAssign a m e =>
      nd n_expr2 [N n_expr; T (Ch "."); N n_member_expr; T (Ch "="); N n_expr]
        [ex (lift a); ch "."; member m; ch "="; ex (lift e)]
  | TMethod a m l =>
      nd n_expr2 [N n_expr; T (Ch "."); N n_member_expr; N n_tuple_expr]
        [ex (lift a); ch "."; member m; tuple_ex (map (λ e, ex (lift e)) l)]
  end.

(** The tree has the tokens of the expression. *)
Lemma yield_exprs l : l ≠ [] →
  Automaton.yield (exprs l) = separated (map Automaton.yield l).
Proof.
  induction l as [|x [|y l] IH]; intros Hl; [done|cbn; by rewrite !app_nil_r|].
  cbn [exprs nd Automaton.yield map concat separated ch] in *. rewrite IH by done.
  cbn [separated]. by rewrite app_nil_r.
Qed.
Lemma yield_tuple l : Automaton.yield (tuple l) = in_parens (map Automaton.yield l).
Proof.
  unfold tuple, in_parens. cbn [nd Automaton.yield map concat ch app]. f_equal.
  destruct l as [|x l]; [done|]. cbn [opt_exprs nd Automaton.yield map concat].
  rewrite yield_exprs by done. by rewrite app_nil_r.
Qed.
Lemma yield_ex x : Automaton.yield (ex x) = Automaton.yield x.
Proof. cbn. by rewrite app_nil_r. Qed.
Lemma yield_map l : Forall (λ e, Automaton.yield (lift e) = yield e) l →
  map Automaton.yield (map (λ e, ex (lift e)) l) = map yield l.
Proof. induction 1 as [|e l He _ IH]; [done|]. cbn [map]. by rewrite IH, yield_ex, He. Qed.

Lemma yield_lift e : Automaton.yield (lift e) = yield e.
Proof.
  induction e using tree_list_ind; cbn [lift yield]; unfold const2, tuple_ex, member, local_id, leaf, ch, nd;
    cbn [Automaton.yield map concat]; rewrite ?yield_ex, ?yield_tuple, ?yield_map by done;
    cbn [app]; rewrite ?app_nil_r; try congruence.
  by destruct a.
Qed.

End Lift.
Import Lift.

(** ** States where an expression may stand *)

Module Contexts.

Local Abbreviation action_at := (Automaton.action_at spec_grammar spec_analysis spec_table kind).

(** Behind [CONST id =]; behind a rule of an operator there; in units. *)
Definition header : list symbol := [T tMODULE; N n_local_id; T (Ch ";"); Mid 0].
Definition at_init : list symbol := header ++ [N n_opt_linkage; T tCONST; N n_local_id; T (Ch "=")].
Definition within (l : list symbol) : positive := state_after (at_init ++ l).
Definition at_unit : list symbol :=
  header ++ [N n_opt_linkage; T tTYPE; N n_local_id; T (Ch "="); T tUNIT; N n_opt_unit_params; T (Ch "{")].
Definition at_attributes : list symbol := at_unit ++ [T tVAR; N n_local_id; T (Ch ":"); N n_type; N n_opt_init_expr].
Definition at_args : list symbol := at_unit ++ [N n_opt_unit_field_name; N n_base_type].

Definition at_cond : list symbol := at_args ++ [N n_opt_field_args; N n_opt_unit_vector_len; N n_opt_type_attrs].

Definition cont_term (c : cont) : symbol := T (term_of (cont_token c)).
Definition next (c : cont) : positive := within [N n_expr; cont_term c].
Definition after (n : positive) : positive := default 1%positive (goto n (N n_expr)).

Definition s_expr2 : positive := within [N n_expr2].
Definition s_paren : positive := within [T (Ch "(")].
Definition s_comma : positive := within [T (Ch "("); N n_expr; T (Ch ",")].
Definition s_else : positive := within [N n_expr; T (Ch "?"); N n_expr; T (Ch ":")].
Definition s_index_assign : positive :=
  within [N n_expr; T (Ch "["); N n_expr; T (Ch "]"); T (Ch "=")].
Definition s_attr_assign : positive := within [N n_expr; T (Ch "."); N n_member_expr; T (Ch "=")].
Definition s_method : positive := within [N n_expr; T (Ch "."); N n_member_expr; T (Ch "(")].

Definition binaries : list binary :=
  [BAssign; BLambda; BAnd; BOr; BBitAnd; BBitOr; BBitXor; BShiftLeft; BShiftRight; BPower;
   BPlus; BMinus; BMult; BDiv; BMod; BEqual; BIn; BLess; BPlusAssign; BMinusAssign;
   BNeq; BLeq; BGeq; BGreater].
Definition prefixes : list prefix := [PreIncr; PreDecr; PreDeref; PreNot].
Definition conts : list cont :=
  map CBin binaries ++ [CPost PostIncr; CPost PostDecr; CCond; CCall; CIndex; CAttr; CHas].
Definition s_prefix (p : prefix) : positive := within [T (term_of (prefix_token p))].

(** In these states an expression goes on with every token that can follow its beginning. *)
Definition frees : list positive := Eval vm_compute in remove_dups (
  [within []; s_paren; s_comma; s_else; s_index_assign; s_attr_assign; next CCond; next CCall; next CIndex]
  ++ map s_prefix prefixes
  ++ map state_after [at_attributes ++ [T tATTRIBUTE; T (Ch "(")]; at_attributes ++ [T tATTRIBUTE; T (Ch "=")];
       at_args ++ [T (Ch "(")]; at_args ++ [N n_opt_field_args; T (Ch "[")];
       at_cond ++ [T tIF; T (Ch "(")]; at_cond ++ [N n_opt_unit_field_cond; T tARROW];
       at_unit ++ [T tSWITCH; T (Ch "(")]]).
Definition contexts : list positive :=
  Eval vm_compute in remove_dups (frees ++ map (λ b, next (CBin b)) binaries).

(** *** Facts of the table *)

Definition shifts_at (s : positive) (k : token) : bool := bool_decide (action_at s [k] = Shift).
Definition allow (n : positive) (k : token) : bool := shifts_at (after n) k.

Lemma action_head s t ts : action_at s (t :: ts) = action_at s [t].
Proof. reflexivity. Qed.

Definition context_ok (n : positive) : bool :=
  bool_decide (goto n (N n_expr2) = Some s_expr2) &&
  bool_decide (goto n (N n_expr) = Some (after n)) &&
  forallb (λ c, negb (allow n (cont_token c)) || bool_decide (goto (after n) (cont_term c) = Some (next c))) conts.

Lemma all_contexts : forallb context_ok contexts = true.
Proof. vm_compute. reflexivity. Qed.
Lemma all_free : forallb (λ n, bool_decide (n ∈ contexts) && forallb (λ c, allow n (cont_token c)) conts) frees = true.
Proof. vm_compute. reflexivity. Qed.
Lemma all_operators :
  forallb (λ b, bool_decide (next (CBin b) ∈ contexts) &&
    forallb (λ c, negb (shifts (KPrec (binary_prec b)) (cont_token c)) || allow (next (CBin b)) (cont_token c)) conts)
  binaries = true.
Proof. vm_compute. reflexivity. Qed.


Lemma in_forallb {A} (f : A → bool) l x : forallb f l = true → x ∈ l → f x = true.
Proof. intros H Hx. rewrite forallb_forall in H. by apply H, list_elem_of_In. Qed.

(** Membership in a list that is written out. *)
Ltac member := apply list_elem_of_In; vm_compute; tauto.

Lemma cont_in c : c ∈ conts.
Proof. destruct c as [[]|[]| | | | |]; member. Qed.
Lemma binary_in b : b ∈ binaries.
Proof. destruct b; member. Qed.

Lemma context_goto n : n ∈ contexts →
  goto n (N n_expr2) = Some s_expr2 ∧ goto n (N n_expr) = Some (after n) ∧
  ∀ c, allow n (cont_token c) = true → goto (after n) (cont_term c) = Some (next c).
Proof.
  intros Hn. pose proof (in_forallb _ _ _ all_contexts Hn) as H. unfold context_ok in H.
  apply andb_prop in H as [[H1 H2]%andb_prop H3]. apply bool_decide_eq_true in H1, H2.
  split_and!; [done|done|]. intros c Ha. pose proof (in_forallb _ _ _ H3 (cont_in c)) as Hc.
  cbn beta in Hc. rewrite Ha in Hc. by apply bool_decide_eq_true in Hc.
Qed.

Lemma free_context n : n ∈ frees → n ∈ contexts ∧ ∀ c, allow n (cont_token c) = true.
Proof.
  intros Hn. pose proof (in_forallb _ _ _ all_free Hn) as [H1 H2]%andb_prop.
  apply bool_decide_eq_true in H1. split; [done|]. intros c. by apply (in_forallb _ _ _ H2 (cont_in c)).
Qed.
Lemma operator_context b : next (CBin b) ∈ contexts ∧
  ∀ c, shifts (KPrec (binary_prec b)) (cont_token c) = true → allow (next (CBin b)) (cont_token c) = true.
Proof.
  pose proof (in_forallb _ _ _ all_operators (binary_in b)) as [H1 H2]%andb_prop.
  apply bool_decide_eq_true in H1. split; [done|]. intros c Hs.
  pose proof (in_forallb _ _ _ H2 (cont_in c)) as Hc. cbn beta in Hc. by rewrite Hs in Hc.
Qed.

Lemma spine_conts e : Forall (λ k, ∃ c, k = cont_token c) (lspine e).
Proof.
  induction e using tree_list_ind; cbn [lspine]; repeat constructor; try done.
  - by exists (CBin b).
  - by exists (CPost p).
  - by exists CCond.
  - by exists CCond.
  - by exists CCall.
  - by exists CIndex.
  - by exists CIndex.
  - by exists CAttr.
  - by exists CHas.
  - by exists CAttr.
  - by exists CAttr.
Qed.
Lemma free_spine n e : n ∈ frees → forallb (allow n) (lspine e) = true.
Proof.
  intros [_ Ha]%free_context. rewrite forallb_forall. intros k Hk%list_elem_of_In.
  pose proof (spine_conts e) as H. rewrite list.Forall_forall in H. by destruct (H k Hk) as [c ->].
Qed.
Lemma operator_spine b e :
  right_ok (KPrec (binary_prec b)) e = true → forallb (allow (next (CBin b))) (lspine e) = true.
Proof.
  unfold right_ok. rewrite !forallb_forall. intros H k Hk. specialize (H k Hk).
  pose proof (spine_conts e) as Hc. rewrite list.Forall_forall in Hc.
  destruct (Hc k) as [c ->]; [by apply list_elem_of_In|]. by apply operator_context.
Qed.

(** *** What may follow an expression *)

Definition follow_mask : BinNums.N :=
  from_option (λ st, from_option snd 0%N (head (reductions st))) 0%N (spec_table !! s_expr2).
Definition follows (t : token) : bool := has (kind t) follow_mask.
Definition follow_tokens : list token :=
  map cont_token conts ++ map CHAR [","; ")"; "]"; ":"; ";"; "|"]%char
  ++ [THEN; ELSE; FOR; IF; ARROW; ATTRIBUTE ""].

Lemma follows_in t : follows t = true →
  ∃ t', t' ∈ follow_tokens ∧ kind t' = kind t ∧ ∀ k, shifts k t' = shifts k t.
Proof.
  intros H. destruct t; try (by vm_compute in H); try (eexists; split; [|by split]; member).
  - exists (ATTRIBUTE ""). split; [member|]. split; [done|]. by intros [[]| | |].
  - exists (CHAR c). split; [|done].
    destruct c as [[] [] [] [] [] [] [] []]; vm_compute in H; first [discriminate|member].
Qed.

Lemma follow_conts c : follows (cont_token c) = true.
Proof. by destruct c as [[]|[]| | | | |]. Qed.

(** A complete rule is reduced in front of what does not continue it. *)
Definition ends_rule (k : open_rule) (r s : positive) : bool :=
  forallb (λ t, shifts k t || bool_decide (action_at s [t] = Reduce r)) follow_tokens.
Lemma ended k r s t ts : ends_rule k r s = true → follows t = true → shifts k t = false →
  action_at s (t :: ts) = Reduce r.
Proof.
  intros He Hf Hs. destruct (follows_in t Hf) as (t' & Hin & Hk & Hsh).
  pose proof (in_forallb _ _ _ He Hin) as H. cbn beta in H. rewrite Hsh, Hs in H. cbn [orb] in H.
  apply bool_decide_eq_true in H. rewrite <- H. unfold Automaton.action_at, lookahead. by rewrite Hk.
Qed.

End Contexts.
Import Contexts.

(** ** The full automaton reads the expressions *)

Module Reading.

Local Abbreviation action_at := (Automaton.action_at spec_grammar spec_analysis spec_table kind).
Local Abbreviation symbol_of := (Automaton.symbol_of spec_analysis kind).
Local Abbreviation walks := (Automaton.walks spec_grammar spec_analysis spec_table kind).

Definition good (e : tree) : Prop := prec_ok e = true → ∀ n t ts, n ∈ contexts →
  forallb (allow n) (lspine e) = true → follows t = true → left_ok e t = true →
  reads (lift e) n (t :: ts) s_expr2.

Lemma root_lift e : symbol_of (lift e) = Some (number (N n_expr2)).
Proof. destruct e as [[]|[]|[]| | |[]|[]|? []| | | | | | | | |]; vm_compute; reflexivity. Qed.
Lemma root_ex x : symbol_of (ex x) = Some (number (N n_expr)).
Proof. reflexivity. Qed.

Lemma root_exprs x l : symbol_of (exprs (x :: l)) = Some (number (N n_exprs)).
Proof. destruct l; reflexivity. Qed.
Lemma root_opt_exprs l : symbol_of (opt_exprs l) = Some (number (N n_opt_exprs)).
Proof. destruct l; reflexivity. Qed.

(** One tree after the other. *)
Ltac walk_on := cbn [map concat Automaton.yield app]; eapply walks_cons.
Ltac rule_of := eapply reads_rule;
  [vm_compute; reflexivity| | |cbn [map]; rewrite ?root_ex, ?root_lift, ?root_exprs, ?root_opt_exprs; vm_compute; reflexivity|].
Ltac closed := vm_compute; reflexivity.

Lemma reads_ex e n t ts : good e → prec_ok e = true → n ∈ contexts →
  forallb (allow n) (lspine e) = true → follows t = true → left_ok e t = true →
  reads (ex (lift e)) n (t :: ts) (after n).
Proof.
  intros He Hp Hn Ha Hf Hl. unfold ex. rule_of.
  - walk_on; [by apply He|reflexivity].
  - closed.
  - by apply context_goto.
Qed.

(** An expression in front of a token that goes on with it, and the token. *)
Lemma reads_first e c n ts : good e → prec_ok e = true → n ∈ contexts →
  left_ok e (cont_token c) = true → forallb (allow n) (cont_token c :: lspine e) = true →
  reads (ex (lift e)) n (cont_token c :: ts) (after n).
Proof.
  intros He Hp Hn Hl [Ha1 Ha2]%andb_prop. apply reads_ex; try done. apply follow_conts.
Qed.
Lemma reads_cont c n ts l : n ∈ contexts → forallb (allow n) (cont_token c :: l) = true →
  reads (leaf (cont_token c)) (after n) ts (next c).
Proof.
  intros Hn [Ha1 Ha2]%andb_prop. apply reads_token; [|by apply context_goto].
  rewrite action_head. by apply bool_decide_eq_true in Ha1.
Qed.

Lemma reads_member_expr m ts : reads (member m) (next CAttr) ts (within [N n_expr; T (Ch "."); N n_member_expr]).
Proof. closed. Qed.
Lemma reads_has m ts : reads (member m) (next CHas) ts (within [N n_expr; T tHASATTR; N n_member_expr]).
Proof. closed. Qed.

(** *** Tuples *)

Definition s_exprs : positive := within [T (Ch "("); N n_exprs].
Definition s_opts : positive := within [T (Ch "("); N n_opt_exprs].

Lemma list_state s : s ∈ [s_paren; s_comma; next CCall] → s ∈ frees.
Proof. intros H. repeat (apply elem_of_cons in H as [->|H]; [member|]). by apply not_elem_of_nil in H. Qed.

Lemma reads_element e s c ts : good e → prec_ok e = true → s ∈ [s_paren; s_comma; next CCall] →
  c = ","%char ∨ c = ")"%char → reads (ex (lift e)) s (CHAR c :: ts) (after s).
Proof.
  intros He Hp Hs%list_state Hc. apply reads_ex; try done; [by apply free_context|by apply free_spine|..].
  - by destruct Hc as [-> | ->].
  - destruct Hc as [-> | ->]; by apply Complete.left_ok_closed.
Qed.

Lemma list_last s ts : s ∈ [s_comma; next CCall] →
  action_at (after s) (CHAR ")" :: ts) = Reduce (rule_no n_exprs [N n_expr]).
Proof. intros H. repeat (apply elem_of_cons in H as [->|H]; [closed|]). by apply not_elem_of_nil in H. Qed.
Lemma list_comma s ts : s ∈ [s_paren; s_comma; next CCall] → reads (ch ",") (after s) ts s_comma.
Proof. intros H. repeat (apply elem_of_cons in H as [->|H]; [closed|]). by apply not_elem_of_nil in H. Qed.

Lemma reads_exprs l s ts : Forall good l → forallb prec_ok l = true → l ≠ [] →
  s ∈ [s_comma; next CCall] ∨ s = s_paren ∧ length l ≠ 1 →
  ∃ m, goto s (N n_exprs) = Some m ∧
    reads (exprs (map (λ e, ex (lift e)) l)) s (CHAR ")" :: ts) m.
Proof.
  intros Hl. revert s. induction Hl as [|e l He Hl IH]; intros s Hp Hne Hs; [done|].
  cbn [forallb] in Hp. apply andb_prop in Hp as [Hpe Hp].
  assert (Hs' : s ∈ [s_paren; s_comma; next CCall]).
  { destruct Hs as [H|[-> _]]; [by right|by left]. }
  assert (∃ m, goto s (N n_exprs) = Some m) as [m Hm].
  { clear -Hs'. repeat (apply elem_of_cons in Hs' as [->|Hs']; [eexists; closed|]). by apply not_elem_of_nil in Hs'. }
  exists m. split; [done|]. destruct l as [|e2 l].
  - destruct Hs as [Hs|[_ ?]]; [|done]. cbn [map exprs]. rule_of; [|by apply list_last|exact Hm].
    walk_on; [by apply reads_element; auto|reflexivity].
  - destruct (IH s_comma) as (m2 & Hm2 & Hr); [done|done|left; by left|].
    assert (Hm2' : m2 = within [T (Ch "("); N n_expr; T (Ch ","); N n_exprs]).
    { cut (Some m2 = Some (within [T (Ch "("); N n_expr; T (Ch ","); N n_exprs])); [by intros [= ->]|].
      rewrite <- Hm2. closed. }
    change (exprs (map (λ e, ex (lift e)) (e :: e2 :: l))) with
      (nd n_exprs [N n_expr; T (Ch ","); N n_exprs]
        [ex (lift e); ch ","; exprs (map (λ e, ex (lift e)) (e2 :: l))]).
    rule_of; [| |exact Hm].
    + walk_on; [by apply reads_element; auto|]. walk_on; [by apply list_comma|]. walk_on; [exact Hr|reflexivity].
    + rewrite Hm2'. closed.
Qed.

(** [s] is the state behind the opening parenthesis. *)
Lemma reads_opt_exprs l s ts : Forall good l → forallb prec_ok l = true →
  s = next CCall ∨ s = s_paren ∧ length l ≠ 1 →
  reads (opt_exprs (map (λ e, ex (lift e)) l)) s (CHAR ")" :: ts) s_opts.
Proof.
  intros Hl Hp Hs. assert (Hg : goto s (N n_opt_exprs) = Some s_opts) by (destruct Hs as [->|[-> _]]; closed).
  destruct l as [|e l].
  - cbn [map opt_exprs]. rule_of; [reflexivity| |exact Hg]. destruct Hs as [->|[-> _]]; closed.
  - destruct (reads_exprs (e :: l) s ts Hl Hp) as (m & Hm & Hr); [done|set_solver|].
    assert (Hm' : m = s_exprs).
    { cut (Some m = Some s_exprs); [by intros [= ->]|]. rewrite <- Hm. destruct Hs as [->|[-> _]]; closed. }
    change (opt_exprs (map (λ e, ex (lift e)) (e :: l))) with
      (nd n_opt_exprs [N n_exprs] [exprs (map (λ e, ex (lift e)) (e :: l))]).
    subst m. rule_of; [walk_on; [exact Hr|reflexivity]|closed|exact Hg].
Qed.

Lemma reads_tuple l n s m ts : Forall good l → forallb prec_ok l = true →
  s = next CCall ∨ s = s_paren ∧ length l ≠ 1 → (∀ ts, reads (ch "(") n ts s) →
  goto n (N n_tuple) = Some m → reads (tuple (map (λ e, ex (lift e)) l)) n ts m.
Proof.
  intros Hl Hp Hs Hn Hm. unfold tuple. rule_of; [| |exact Hm].
  - walk_on; [by apply Hn|]. walk_on; [by apply reads_opt_exprs|]. walk_on; [closed|reflexivity].
  - closed.
Qed.

(** [expr tuple_expr] and [expr '.' member_expr tuple_expr]. *)
Lemma reads_tuple_ex l n m ts : Forall good l → forallb prec_ok l = true →
  (∀ ts, reads (ch "(") n ts (next CCall)) → goto n (N n_tuple) = Some (within [N n_expr; N n_tuple]) →
  goto n (N n_tuple_expr) = Some m → reads (tuple_ex (map (λ e, ex (lift e)) l)) n ts m.
Proof.
  intros Hl Hp Hn Ht Hm. unfold tuple_ex. rule_of; [| |exact Hm].
  - walk_on; [|reflexivity]. eapply reads_tuple; [done|done|by left|done|exact Ht].
  - closed.
Qed.

(** *** Operands without expressions *)

Ltac each_context Hn :=
  unfold contexts in Hn;
  repeat (apply elem_of_cons in Hn as [->|Hn]; [closed|]); by apply not_elem_of_nil in Hn.

Lemma reads_atom a n ts : n ∈ contexts → reads (lift (TAtom a)) n ts s_expr2.
Proof. intros Hn. destruct a; each_context Hn. Qed.
Lemma reads_sized i z n ts : n ∈ contexts → reads (lift (TSized i z)) n ts s_expr2.
Proof. intros Hn. destruct i; each_context Hn. Qed.
Lemma reads_width sg w z n ts : n ∈ contexts → reads (lift (TWidth sg w z)) n ts s_expr2.
Proof. intros Hn. destruct sg; each_context Hn. Qed.

Lemma reads_open_paren n ts : n ∈ contexts → reads (ch "(") n ts s_paren.
Proof. intros Hn. each_context Hn. Qed.
Lemma reads_prefix p n ts : n ∈ contexts → reads (leaf (prefix_token p)) n ts (s_prefix p).
Proof. intros Hn. destruct p; each_context Hn. Qed.
Lemma context_tuple n : n ∈ contexts →
  goto n (N n_tuple) = Some (within [N n_tuple]) ∧ goto n (N n_constant) = Some (within [N n_constant]).
Proof. intros Hn. split; each_context Hn. Qed.
Lemma after_tuple n : n ∈ contexts →
  goto (after n) (N n_tuple) = Some (within [N n_expr; N n_tuple]) ∧
  goto (after n) (N n_tuple_expr) = Some (within [N n_expr; N n_tuple_expr]).
Proof. intros Hn. split; each_context Hn. Qed.

(** *** Expressions *)

#[local] Opaque reads.

(** The rules with a variable token. *)
Lemma binary_known b : rule_at spec_analysis !! rule_no n_expr2 (bin_rhs b) =
  Some (mkRule (number (N n_expr2)) (map number (bin_rhs b)) None).
Proof. destruct b; closed. Qed.
Lemma binary_ends b :
  ends_rule (KPrec (binary_prec b)) (rule_no n_expr2 (bin_rhs b)) (after (next (CBin b))) = true.
Proof. destruct b; closed. Qed.
Definition pre_rhs (p : prefix) : list symbol := [T (term_of (prefix_token p)); N n_expr].
Lemma prefix_known p : rule_at spec_analysis !! rule_no n_expr2 (pre_rhs p) =
  Some (mkRule (number (N n_expr2)) (map number (pre_rhs p)) None).
Proof. destruct p; closed. Qed.
Lemma prefix_ends p : ends_rule (KPrec None) (rule_no n_expr2 (pre_rhs p)) (after (s_prefix p)) = true.
Proof. destruct p; closed. Qed.
Lemma prefix_free p : s_prefix p ∈ frees.
Proof. destruct p; member. Qed.
Definition post_rhs (p : postfix) : list symbol := [N n_expr; T (term_of (postfix_token p))].
Lemma postfix_known p : rule_at spec_analysis !! rule_no n_expr2 (post_rhs p) =
  Some (mkRule (number (N n_expr2)) (map number (post_rhs p)) None).
Proof. destruct p; closed. Qed.
Lemma postfix_ends p ts : action_at (next (CPost p)) ts = Reduce (rule_no n_expr2 (post_rhs p)).
Proof. destruct p; closed. Qed.

(** The last operand of a rule, in a state where everything may follow. *)
Lemma last_part e n t ts : good e → prec_ok e = true → n ∈ frees → follows t = true → left_ok e t = true →
  reads (ex (lift e)) n (t :: ts) (after n).
Proof. intros He Hp Hn Hf Hl. apply reads_ex; try assumption; [by apply free_context|by apply free_spine]. Qed.

Lemma open_end k ks t : forallb (λ k, negb (shifts k t)) (k :: ks) = true →
  shifts k t = false ∧ forallb (λ k, negb (shifts k t)) ks = true.
Proof. cbn [forallb]. by intros [H%negb_true_iff ?]%andb_prop. Qed.

Ltac first_of c Hn := walk_on;
  [eapply (reads_first _ c); [eassumption|eassumption|exact Hn|eassumption|eassumption]|];
  walk_on; [eapply (reads_cont c); [exact Hn|eassumption]|].
Ltac last_of := walk_on; [eapply last_part; [eassumption|eassumption|member|eassumption|eassumption]|reflexivity].
Ltac ends_by E := eapply ended; [|eassumption|exact E]; closed.

Lemma reads_binary b l r : good l → good r → good (TBin b l r).
Proof.
  intros IHl IHr Hp n t ts Hn Ha Hf Hl. cbn [prec_ok] in Hp. split_ok Hp. cbn [lspine] in Ha.
  apply open_end in Hl as [Hk Hl]. cbn [lift].
  eapply reads_rule; [apply binary_known| | |reflexivity|by apply context_goto].
  - first_of (CBin b) Hn. walk_on; [|reflexivity].
    apply reads_ex; try assumption; [apply operator_context|by apply operator_spine].
  - eapply ended; [apply binary_ends|exact Hf|exact Hk].
Qed.

Lemma reads_cond_expr c a : good c → good a → good (TCond c a).
Proof.
  intros IHc IHa Hp n t ts Hn Ha Hf Hl. cbn [prec_ok] in Hp. split_ok Hp. cbn [lspine] in Ha.
  apply open_end in Hl as [Hk Hl]. cbn [lift]. rule_of; [| |by apply context_goto].
  - first_of CCond Hn. last_of.
  - ends_by Hk.
Qed.

Lemma reads_cond_else c a b : good c → good a → good b → good (TCondElse c a b).
Proof.
  intros IHc IHa IHb Hp n t ts Hn Ha Hf Hl. cbn [prec_ok] in Hp. split_ok Hp. cbn [lspine] in Ha.
  apply open_end in Hl as [Hk Hl]. cbn [lift]. rule_of; [| |by apply context_goto].
  - first_of CCond Hn. walk_on; [eapply last_part; [eassumption|eassumption|member|reflexivity|eassumption]|].
    walk_on; [instantiate (1 := s_else); closed|]. last_of.
  - ends_by Hk.
Qed.

(** The tokens of a tuple begin with a parenthesis. *)
Lemma tuple_tokens l : ∃ us, ∀ ts,
  concat (map Automaton.yield [tuple_ex l]) ++ ts = CHAR "(" :: us ++ ts.
Proof.
  eexists. intros ts. cbn [map concat]. unfold tuple_ex, tuple. cbn [nd Automaton.yield map concat ch app].
  reflexivity.
Qed.

Lemma reads_call f l : good f → Forall good l → good (TCall f l).
Proof.
  intros IHf IHl Hp n t ts Hn Ha Hf Hl. cbn [prec_ok] in Hp. split_ok Hp. cbn [lspine] in Ha.
  cbn [lift]. rule_of; [| |by apply context_goto].
  - destruct (tuple_tokens (map (λ e, ex (lift e)) l)) as [us Hy].
    eapply walks_cons; [rewrite Hy; by apply (reads_first f CCall)|]. walk_on; [|reflexivity].
    destruct (after_tuple n Hn). eapply reads_tuple_ex; try eassumption.
    intros vs. by eapply (reads_cont CCall).
  - closed.
Qed.

Lemma reads_bracket ts : reads (ch "]") (after (next CIndex)) ts (within [N n_expr; T (Ch "["); N n_expr; T (Ch "]")]).
Proof. closed. Qed.

Lemma reads_index a i : good a → good i → good (TIndex a i).
Proof.
  intros IHa IHi Hp n t ts Hn Ha Hf Hl. cbn [prec_ok] in Hp. split_ok Hp. cbn [lspine] in Ha.
  apply open_end in Hl as [Hk _]. cbn [lift]. rule_of; [| |by apply context_goto].
  - first_of CIndex Hn.
    walk_on; [eapply last_part; [eassumption|eassumption|member|reflexivity|by apply Complete.left_ok_closed]|].
    walk_on; [by apply reads_bracket|reflexivity].
  - ends_by Hk.
Qed.

Lemma reads_index_assign a i e : good a → good i → good e → good (TIndexAssign a i e).
Proof.
  intros IHa IHi IHe Hp n t ts Hn Ha Hf Hl. cbn [prec_ok] in Hp. split_ok Hp. cbn [lspine] in Ha.
  apply open_end in Hl as [Hk Hl]. cbn [lift]. rule_of; [| |by apply context_goto].
  - first_of CIndex Hn.
    walk_on; [eapply last_part; [eassumption|eassumption|member|reflexivity|by apply Complete.left_ok_closed]|].
    walk_on; [by apply reads_bracket|]. walk_on; [instantiate (1 := s_index_assign); closed|]. last_of.
  - ends_by Hk.
Qed.

Lemma reads_attr a m : good a → good (TAttr a m).
Proof.
  intros IHa Hp n t ts Hn Ha Hf Hl. cbn [prec_ok] in Hp. split_ok Hp. cbn [lspine] in Ha.
  apply open_end in Hl as [Hk _]. cbn [lift]. rule_of; [| |by apply context_goto].
  - first_of CAttr Hn. walk_on; [by apply reads_member_expr|reflexivity].
  - ends_by Hk.
Qed.
Lemma reads_has_attr a m : good a → good (THasAttr a m).
Proof.
  intros IHa Hp n t ts Hn Ha Hf Hl. cbn [prec_ok] in Hp. split_ok Hp. cbn [lspine] in Ha.
  cbn [lift]. rule_of; [| |by apply context_goto].
  - first_of CHas Hn. walk_on; [by apply reads_has|reflexivity].
  - closed.
Qed.
Lemma reads_attr_assign a m e : good a → good e → good (TAttrAssign a m e).
Proof.
  intros IHa IHe Hp n t ts Hn Ha Hf Hl. cbn [prec_ok] in Hp. split_ok Hp. cbn [lspine] in Ha.
  apply open_end in Hl as [Hk Hl]. cbn [lift]. rule_of; [| |by apply context_goto].
  - first_of CAttr Hn. walk_on; [by apply reads_member_expr|].
    walk_on; [instantiate (1 := s_attr_assign); closed|]. last_of.
  - ends_by Hk.
Qed.
Lemma reads_method a m l : good a → Forall good l → good (TMethod a m l).
Proof.
  intros IHa IHl Hp n t ts Hn Ha Hf Hl. cbn [prec_ok] in Hp. split_ok Hp. cbn [lspine] in Ha.
  cbn [lift]. rule_of; [| |by apply context_goto].
  - first_of CAttr Hn. walk_on; [by apply reads_member_expr|]. walk_on; [|reflexivity].
    eapply reads_tuple_ex; try eassumption; [|closed|closed]. intros us. closed.
  - closed.
Qed.

(** An expression the precedences allow is read wherever an expression may stand, in front of
    every token that may follow and does not go on with it. *)
Lemma reads_expr e : good e.
Proof.
  induction e as [a|i z|sg w z|e IH|l IH|b l r IHl IHr|p e IH|e p IH|c a IHc IHa|c a b IHc IHa IHb
    |f l IHf IHl|a i IHa IHi|a i e IHa IHi IHe|a m IHa|a m IHa|a m e IHa IHe|a m l IHa IHl]
    using tree_list_ind.
  - intros _ n t ts Hn _ _ _. by apply reads_atom.
  - intros _ n t ts Hn _ _ _. by apply reads_sized.
  - intros _ n t ts Hn _ _ _. by apply reads_width.
  - intros Hp n t ts Hn _ _ _. cbn [prec_ok] in Hp. cbn [lift]. rule_of; [| |by apply context_goto].
    + walk_on; [by apply reads_open_paren|].
      walk_on; [eapply last_part; [eassumption|eassumption|member|reflexivity|by apply Complete.left_ok_closed]|].
      walk_on; [|reflexivity]. instantiate (1 := within [T (Ch "("); N n_expr; T (Ch ")")]). closed.
    + closed.
  - intros Hp n t ts Hn _ _ _. cbn [prec_ok] in Hp. split_ok Hp. cbn [lift]. unfold const2.
    destruct (context_tuple n Hn) as [Ht Hc].
    assert (Hr : reads (tuple (map (λ e, ex (lift e)) l)) n (t :: ts) (within [N n_tuple])).
    { eapply reads_tuple; [eassumption|eassumption| |intros us; by apply reads_open_paren|exact Ht].
      right. split; [done|]. by apply negb_true_iff, Nat.eqb_neq in Hp. }
    assert (Hr2 : reads (nd n_constant [N n_tuple] [tuple (map (λ e, ex (lift e)) l)]) n (t :: ts)
                    (within [N n_constant])).
    { rule_of; [walk_on; [exact Hr|reflexivity]|closed|exact Hc]. }
    rule_of; [walk_on; [exact Hr2|reflexivity]|closed|by apply context_goto].
  - by apply reads_binary.
  - intros Hp n t ts Hn Ha Hf Hl. cbn [prec_ok] in Hp. split_ok Hp. apply open_end in Hl as [Hk Hl].
    cbn [lift]. eapply reads_rule; [apply prefix_known| | |reflexivity|by apply context_goto].
    + walk_on; [by apply reads_prefix|].
      walk_on; [eapply last_part; [eassumption|eassumption|apply prefix_free|eassumption|eassumption]|reflexivity].
    + eapply ended; [apply prefix_ends|exact Hf|exact Hk].
  - intros Hp n t ts Hn Ha Hf Hl. cbn [prec_ok] in Hp. split_ok Hp. cbn [lspine] in Ha.
    cbn [lift]. eapply reads_rule; [apply postfix_known| | |reflexivity|by apply context_goto].
    + first_of (CPost p) Hn. reflexivity.
    + apply postfix_ends.
  - by apply reads_cond_expr.
  - by apply reads_cond_else.
  - by apply reads_call.
  - by apply reads_index.
  - by apply reads_index_assign.
  - by apply reads_attr.
  - by apply reads_has_attr.
  - by apply reads_attr_assign.
  - by apply reads_method.
Qed.

End Reading.
