(* ===== verification/Values.v ===== *)
(** * The values of derivation trees

    [means] is the value of a derivation tree as an action of the parser.  The tree of an
    expression of [Grammar.v] has the value its semantic action there has ([means_lift]). *)

From S2P Require Import Prelude Util Ident Ast Units Scanner Grammar Precedence Lalr LrCorrect Yacc Specs Embed.
From stdpp Require Import pmap.
Import Grammars Automaton Yacc.Symbols Yacc.Rules Specs.Typed.
Import Grammar.Syntax Precedence.Allowed Embed.Building Embed.Lift.

Module Meaning.
Section Meaning.
  Context (sn : string).

Definition means (x : dtree) (s : symbol) (m : M (sem s)) : Prop :=
  ∃ m', denote (numbered_rules sn) x = Some (existT s m') ∧ ∀ st, m' st = m st.

Lemma means_ext x s m m' : means x s m → (∀ st, m st = m' st) → means x s m'.
Proof. intros (k & Hd & Hk) H. exists k. split; [done|]. intros st. by rewrite Hk. Qed.

(** The trees of the symbols of a rule. *)
Inductive all_mean : ∀ rhs : list symbol, list dtree → args rhs → Prop :=
  | all_nil : all_mean [] [] tt
  | all_mid k rhs x l vs m : denote (numbered_rules sn) x = Some (existT (Mid k) m) →
      all_mean rhs l vs → all_mean (Mid k :: rhs) (x :: l) vs
  | all_term t rhs x l m vs : means x (T t) m → all_mean rhs l vs →
      all_mean (T t :: rhs) (x :: l) (m, vs)
  | all_nonterm n rhs x l m vs : means x (N n) m → all_mean rhs l vs →
      all_mean (N n :: rhs) (x :: l) (m, vs).
(** Arguments that do the same. *)
Fixpoint same_args (rhs : list symbol) : args rhs → args rhs → Prop :=
  match rhs with
  | [] => λ _ _, True
  | Mid _ :: rhs => same_args rhs
  | T t :: rhs => λ vs ws, (∀ st, vs.1 st = ws.1 st) ∧ same_args rhs vs.2 ws.2
  | N n :: rhs => λ vs ws, (∀ st, vs.1 st = ws.1 st) ∧ same_args rhs vs.2 ws.2
  end.

Lemma bind_ext {A B} (m m' : M A) (f g : A → M B) st :
  m st = m' st → (∀ a st, f a st = g a st) → bind m f st = bind m' g st.
Proof.
  intros Hm Hf. unfold bind. rewrite Hm. destruct (m' st) as [[[a st']|]| | |]; try done. apply Hf.
Qed.

Lemma run_action_ext {R} (rhs : list symbol) : ∀ (f : act rhs R) vs ws, same_args rhs vs ws →
  ∀ st, run_action rhs f vs st = run_action rhs f ws st.
Proof.
  induction rhs as [|[t|n|k] rhs IH]; intros f vs ws H st; cbn [run_action] in *; [done|..].
  - destruct H as [H1 H2]. apply bind_ext; [done|]. intros a st'. by apply IH.
  - destruct H as [H1 H2]. apply bind_ext; [done|]. intros a st'. by apply IH.
  - apply bind_ext; [done|]. intros a st'. by apply IH.
Qed.

Lemma gather_all rhs l vs : all_mean rhs l vs →
  ∃ ds ws, mapM (denote (numbered_rules sn)) l = Some ds ∧ gather rhs ds = Some ws ∧ same_args rhs ws vs.
Proof.
  induction 1 as [|k rhs x l vs m Hd _ (ds & ws & E1 & E2 & E3)|t rhs x l m vs (m' & Hd & Hm) _ (ds & ws & E1 & E2 & E3)
    |n rhs x l m vs (m' & Hd & Hm) _ (ds & ws & E1 & E2 & E3)]; [by exists [], tt|..].
  - exists (existT (Mid k) m :: ds), ws. cbn [mapM mbind option_bind]. rewrite Hd. cbn [mbind option_bind].
    rewrite E1. cbn [mbind option_bind gather]. by rewrite Nat.eqb_refl.
  - exists (existT (T t) m' :: ds), (m', ws). cbn [mapM mbind option_bind]. rewrite Hd. cbn [mbind option_bind].
    rewrite E1. cbn [mbind option_bind gather]. rewrite cast_same. cbn [mbind option_bind]. by rewrite E2.
  - exists (existT (N n) m' :: ds), (m', ws). cbn [mapM mbind option_bind]. rewrite Hd. cbn [mbind option_bind].
    rewrite E1. cbn [mbind option_bind gather]. rewrite cast_same. cbn [mbind option_bind]. by rewrite E2.
Qed.

(** The value of a rule is its action on the values of its symbols. *)
Lemma means_rule r p l vs :
  numbered_rules sn !! pred (Pos.to_nat r) = Some (RuleProd p) → all_mean (p_rhs p) l vs →
  means (Node r l) (N (p_lhs p)) (run_action (p_rhs p) (p_act p) vs).
Proof.
  intros Hr Hl. destruct (gather_all _ _ _ Hl) as (ds & ws & E1 & E2 & E3).
  eexists. split; [cbn [denote]; rewrite Hr, E1; cbn [mbind option_bind]; rewrite E2; reflexivity|].
  by apply run_action_ext.
Qed.

Lemma means_leaf t : means (Leaf t) (T (term_of t)) (ret (projT2 (scanned t))).
Proof. eexists. by split. Qed.

End Meaning.
End Meaning.
Import Meaning.

(** The production behind a tree, its arguments, and what is left to show of its action. *)
Ltac means_rule_of :=
  match goal with
  | |- means ?sn (nd ?n ?rhs ?l) _ _ =>
      let k := eval vm_compute in (pred (Pos.to_nat (rule_no n rhs))) in
      let o := eval hnf in (numbered_rules sn !! k) in
      match o with
      | Some ?q =>
          let q := eval hnf in q in
          match q with
          | RuleProd ?p =>
              eapply means_ext;
              [eapply (means_rule sn (rule_no n rhs) p l);
               [replace (pred (Pos.to_nat (rule_no n rhs))) with k by (vm_compute; reflexivity); reflexivity|]
              |]
          end
      end
  end.
Ltac arg_of :=
  match goal with
  | |- all_mean ?sn [] [] _ => exact (all_nil sn)
  | |- all_mean ?sn (Mid ?k :: ?rhs) (?x :: ?l) _ => eapply (all_mid sn k rhs x l); [reflexivity|]
  | |- all_mean ?sn (T ?t :: ?rhs) (?x :: ?l) _ => eapply (all_term sn t rhs x l); [solve [apply means_leaf | eassumption]|]
  | |- all_mean ?sn (N ?n :: ?rhs) (?x :: ?l) _ => eapply (all_nonterm sn n rhs x l); [eassumption|]
  end.
Ltac args_of := cbn [p_rhs rule rule_prec binary_rule prefix_rule postfix_rule]; solve [repeat arg_of].

(** ** Expressions *)

Module Expressions.
Section Expressions.
  Context (sn : string).

(** A tree whose value is known, or an error, in every state. *)
Definition gives (x : dtree) (n : nonterm) (o : option (sem_nt n)) : Prop :=
  means sn x (N n) (lift_option o).

Ltac evaluate := intros ?st; repeat match goal with o : option _ |- _ => destruct o end; reflexivity.
Ltac gives_rule := unfold gives; means_rule_of; [args_of|].

Lemma gives_ex x o : gives x n_expr2 o → gives (ex x) n_expr o.
Proof. unfold gives, ex. intros H. gives_rule. evaluate. Qed.

Lemma gives_local_id s : gives (local_id s) n_local_id (Some (Units.id_of_string s)).
Proof. unfold local_id, leaf. gives_rule. evaluate. Qed.

Lemma gives_member m : gives (member m) n_member_expr (Some (member_expr m)).
Proof. unfold member. pose proof (gives_local_id m) as H. unfold gives in H. gives_rule. evaluate. Qed.

(** The values of a list of expressions. *)
Definition all_values (os : list (option expr)) : option (list expr) := mapM (λ o, o) os.
Definition all_give : list dtree → list (option expr) → Prop := Forall2 (λ x o, gives x n_expr o).

Lemma gives_exprs l (os : list (option expr)) : l ≠ [] → all_give l os →
  gives (exprs l) n_exprs (all_values os).
Proof.
  unfold all_give. intros Hl H. induction H as [|x o l os Hx H IH]; [done|]. destruct l as [|y l].
  - inversion H; subst. cbn [exprs]. unfold gives in Hx. gives_rule. evaluate.
  - specialize (IH ltac:(done)). unfold gives in Hx, IH.
    change (gives (nd n_exprs [N n_expr; T (Ch ","); N n_exprs] [x; ch ","; exprs (y :: l)]) n_exprs
      (o ← o; l ← all_values os; Some (o :: l))).
    unfold ch. revert IH. generalize (all_values os) (exprs (y :: l)). intros r z IH. gives_rule. evaluate.
Qed.

Lemma gives_opt_exprs l (os : list (option expr)) : all_give l os →
  gives (opt_exprs l) n_opt_exprs (all_values os).
Proof.
  intros H. destruct l as [|x l]; [inversion H; subst; unfold opt_exprs; gives_rule; evaluate|].
  assert (Hx : gives (exprs (x :: l)) n_exprs (all_values os)) by (by apply gives_exprs).
  unfold gives in Hx. revert Hx. unfold opt_exprs. generalize (exprs (x :: l)) (all_values os).
  intros y r Hx. gives_rule. evaluate.
Qed.

Lemma gives_tuple l (os : list (option expr)) : all_give l os →
  gives (tuple l) n_tuple (es ← all_values os; Some (CTuple es)).
Proof.
  intros H%gives_opt_exprs. unfold gives in H. unfold tuple, ch. revert H. generalize (all_values os).
  intros r H. gives_rule. evaluate.
Qed.
Lemma gives_tuple_ex l (os : list (option expr)) : all_give l os →
  gives (tuple_ex l) n_tuple_expr (es ← all_values os; Some (tuple_expr es)).
Proof.
  intros H%gives_tuple. unfold gives in H. unfold tuple_ex. revert H. generalize (all_values os).
  intros r H. gives_rule. evaluate.
Qed.

Lemma gives_const x o : gives x n_constant o →
  gives (const2 x) n_expr2 (c ← o; Some (new_expr (EConstant c))).
Proof. unfold gives, const2. intros H. gives_rule. evaluate. Qed.

Lemma gives_atom a : gives (lift_atom a) n_expr2 (Some (atom_expr sn a)).
Proof.
  destruct a as [s|s|z|b|s|d| |s]; cbn [lift_atom atom_token]; unfold leaf; try (apply (gives_const _ (Some _)); gives_rule; evaluate).
  - assert (H : means sn (nd n_scoped_id [T tIDENT] [Leaf (IDENT s)]) (N n_scoped_id) (ret (Units.id_of_string s)))
      by (means_rule_of; [args_of|evaluate]).
    gives_rule. evaluate.
  - assert (H : means sn (nd n_scoped_id [T tSCOPED_IDENT] [Leaf (SCOPED_IDENT s)]) (N n_scoped_id) (ret (Units.id_of_string s)))
      by (means_rule_of; [args_of|evaluate]).
    gives_rule. evaluate.
  - assert (H : means sn (nd n_ctor [T tCBYTES] [Leaf (CBYTES s)]) (N n_ctor) (ret (CtorBytes s)))
      by (means_rule_of; [args_of|evaluate]).
    gives_rule. evaluate.
Qed.

Lemma all_give_lift l : Forall (λ e, gives (lift e) n_expr2 (action sn e)) l →
  all_give (map (λ e, ex (lift e)) l) (map (action sn) l).
Proof. unfold all_give. induction 1 as [|e l He _ IH]; cbn [map]; constructor; [by apply gives_ex|done]. Qed.
Lemma all_values_action l : all_values (map (action sn) l) = mapM (action sn) l.
Proof. unfold all_values. induction l as [|e l IH]; [done|]. cbn [map mapM]. by rewrite IH. Qed.

(** The parts of an expression have values, whatever these are. *)
Ltac parts :=
  repeat match goal with
  | IH : gives (lift ?e) n_expr2 (action sn ?e) |- _ =>
      apply gives_ex in IH; unfold gives in IH; generalize dependent (action sn e); intros
  | IH : Forall _ ?l |- context [mapM (action sn) ?l] =>
      rewrite <- (all_values_action l); apply all_give_lift in IH;
      first [apply gives_tuple_ex in IH | apply gives_tuple in IH];
      unfold gives in IH; generalize dependent (all_values (map (action sn) l)); intros
  | IH : Forall _ _ |- _ => clear IH
  end;
  try match goal with |- context [member ?m] => pose proof (gives_member m) end;
  unfold ch, leaf; unfold gives in *.
Ltac by_parts := cbn [lift action]; parts; means_rule_of; [args_of|evaluate].

(** The value of the tree of an expression is what [Grammar.action] says. *)
Lemma gives_lift e : gives (lift e) n_expr2 (action sn e).
Proof.
  induction e as [a|i z|sg w z|e IH|l IH|b l r IHl IHr|p e IH|e p IH|c a IHc IHa|c a b IHc IHa IHb
    |f l IHf IHl|a i IHa IHi|a i e IHa IHi IHe|a m IHa|a m IHa|a m e IHa IHe|a m l IHa IHl]
    using tree_list_ind; [apply gives_atom|..].
  - destruct i; apply (gives_const _ (Some _)); cbn [lift]; unfold leaf, ch; gives_rule; evaluate.
  - destruct sg; apply (gives_const _ (Some _)); cbn [lift]; unfold leaf, ch; gives_rule; evaluate.
  - by_parts.
  - cbn [lift action]. rewrite <- all_values_action. apply all_give_lift, gives_tuple in IH. unfold gives in IH.
    assert (H : gives (nd n_constant [N n_tuple] [tuple (map (λ e, ex (lift e)) l)]) n_constant
      (es ← all_values (map (action sn) l); Some (CTuple es))).
    { generalize dependent (all_values (map (action sn) l)). intros o IH. gives_rule. evaluate. }
    apply gives_const in H. generalize dependent (all_values (map (action sn) l)). intros [o|] _ H; exact H.
  - destruct b; by_parts.
  - destruct p; by_parts.
  - destruct p; by_parts.
  - by_parts.
  - by_parts.
  - by_parts.
  - by_parts.
  - by_parts.
  - by_parts.
  - by_parts.
  - by_parts.
  - by_parts.
Qed.
End Expressions.
End Expressions.
