(* ===== verification/Source.v ===== *)
(** * Specifications as they are written

    The declarations of a module as a writer of specifications sees them, with their tokens
    and, without the grammar, what they declare. *)

From S2P Require Import Prelude Util Ident Ast Units Scanner Grammar Lalr Yacc.
Import Grammar.Syntax Yacc.Symbols Yacc.Rules.
Import Ident.Id Units.Units.

Module Syntax.

(** ** Data *)

Inductive sid := Plain (s : string) | Scoped (s : string).
Inductive simple :=
  | SAny | SBool | SBytes | SCAddr | SDouble | SSink | SString | SVoid
  | SInt (n : int_name) | SWidth (signed : bool) (w : Z).
Inductive stype :=
  | SSimple (b : simple) | SNamed (i : sid)
  | SList (t : stype) | SSet (t : stype) | SVector (t : stype) | SMap (k v : stype).
(** [&key], [&key = e] and [&key(e)]. *)
Inductive sattr := AttrOnly (k : string) | AttrIs (k : string) (e : tree) | AttrOf (k : string) (e : tree).
(** [%key;] and [%key = a;]. *)
Inductive sprop := PropOnly (k : string) | PropIs (k : string) (a : atom).
Record sparam := mkSparam { sp_const : bool; sp_name : string; sp_type : stype }.
(** The type of a field with the arguments of its unit, a constant or bytes. *)
Inductive content :=
  | CType (b : simple) (args : option (list tree)) | CNamed (i : sid) (args : option (list tree))
  | CConst (a : atom) | CBytes (s : string).
Record sfield := mkSfield {
  f_name : option string;
  f_content : content;
  f_length : option tree;
  f_attrs : list sattr;
  f_cond : option tree;
  f_sinks : list tree }.
Inductive sitem :=
  | ItemVar (id : string) (t : stype) (init : option tree) (attrs : list sattr)
  | ItemProp (p : sprop)
  | ItemField (f : sfield).
Inductive sinst := InstOf (id : string) (attrs : list sattr) | InstProp (p : sprop).
Inductive sdecl :=
  | SConst (exported : bool) (id : string) (t : option simple) (init : tree)
  | SType (exported : bool) (id : string) (t : stype)
  | SUnit (exported : bool) (id : string) (params : option (list sparam)) (items : list sitem)
  | SInstantiate (unit_id : sid) (id : string) (items : list sinst)
  | SFunction (exported : bool) (result : simple) (id : string) (params : list sparam) (code : string)
  | SProperty (p : sprop)
  | SInclude (file : string)
  | SImport (name : string).
Record smodule := mkSmodule { s_name : string; s_decls : list sdecl }.

(** ** Tokens *)

Definition optional {A} (f : A → list token) (o : option A) : list token := from_option f [] o.
Definition sid_token (i : sid) : token := match i with Plain s => IDENT s | Scoped s => SCOPED_IDENT s end.
Definition simple_tokens (b : simple) : list token :=
  match b with
  | SAny => [ANY] | SBool => [BOOL] | SBytes => [BYTES] | SCAddr => [CADDR] | SDouble => [DOUBLE]
  | SSink => [SINK] | SString => [STRING] | SVoid => [VOID]
  | SInt n => [int_token n]
  | SWidth sg w => [if sg then INT else UINT; CHAR "<"; CINTEGER w; CHAR ">"]
  end.
Fixpoint type_tokens (t : stype) : list token :=
  match t with
  | SSimple b => simple_tokens b
  | SNamed i => [sid_token i]
  | SList t => LIST :: CHAR "<" :: type_tokens t ++ [CHAR ">"]
  | SSet t => SET :: CHAR "<" :: type_tokens t ++ [CHAR ">"]
  | SVector t => VECTOR :: CHAR "<" :: type_tokens t ++ [CHAR ">"]
  | SMap k v => MAP :: CHAR "<" :: type_tokens k ++ CHAR "," :: type_tokens v ++ [CHAR ">"]
  end.
Definition attr_tokens (a : sattr) : list token :=
  match a with
  | AttrOnly k => [ATTRIBUTE k]
  | AttrIs k e => ATTRIBUTE k :: CHAR "=" :: yield e
  | AttrOf k e => ATTRIBUTE k :: CHAR "(" :: yield e ++ [CHAR ")"]
  end.
Definition attrs_tokens (l : list sattr) : list token := concat (map attr_tokens l).
Definition prop_tokens (p : sprop) : list token :=
  match p with
  | PropOnly k => [PROPERTY k; CHAR ";"]
  | PropIs k a => [PROPERTY k; CHAR "="; atom_token a; CHAR ";"]
  end.
Definition param_tokens (p : sparam) : list token :=
  (if sp_const p then [CONST] else []) ++ IDENT (sp_name p) :: CHAR ":" :: type_tokens (sp_type p).
Definition params_tokens (l : list sparam) : list token := in_parens (map param_tokens l).
Definition args_tokens (l : list tree) : list token := in_parens (map yield l).
Definition content_tokens (c : content) : list token :=
  match c with
  | CType b args => simple_tokens b ++ optional args_tokens args
  | CNamed i args => sid_token i :: optional args_tokens args
  | CConst a => [atom_token a]
  | CBytes s => [CBYTES s]
  end.
Definition init_tokens (e : tree) : list token := CHAR "=" :: yield e.
Definition length_tokens (e : tree) : list token := CHAR "[" :: yield e ++ [CHAR "]"].
Definition cond_tokens (e : tree) : list token := IF :: CHAR "(" :: yield e ++ [CHAR ")"].
Definition sinks_tokens (l : list tree) : list token :=
  match l with [] => [] | _ => ARROW :: separated (map yield l) end.
Definition field_tokens (f : sfield) : list token :=
  optional (λ s, [IDENT s]) (f_name f) ++ CHAR ":" :: content_tokens (f_content f)
  ++ optional length_tokens (f_length f) ++ attrs_tokens (f_attrs f)
  ++ optional cond_tokens (f_cond f) ++ sinks_tokens (f_sinks f) ++ [CHAR ";"].
Definition item_tokens (i : sitem) : list token :=
  match i with
  | ItemVar id t init attrs =>
      VAR :: IDENT id :: CHAR ":" :: type_tokens t ++ optional init_tokens init ++ attrs_tokens attrs ++ [CHAR ";"]
  | ItemProp p => prop_tokens p
  | ItemField f => field_tokens f
  end.
Definition inst_tokens (i : sinst) : list token :=
  match i with
  | InstOf id attrs => IDENT id :: attrs_tokens attrs ++ [CHAR ";"]
  | InstProp p => prop_tokens p
  end.
Definition linkage_tokens (exported : bool) : list token := if exported then [EXPORT] else [].
Definition decl_tokens (d : sdecl) : list token :=
  match d with
  | SConst x id t init =>
      linkage_tokens x ++ CONST :: IDENT id :: optional (λ b, CHAR ":" :: simple_tokens b) t
      ++ init_tokens init ++ [CHAR ";"]
  | SType x id t => linkage_tokens x ++ TYPE :: IDENT id :: CHAR "=" :: type_tokens t ++ [CHAR ";"]
  | SUnit x id params items =>
      linkage_tokens x ++ TYPE :: IDENT id :: CHAR "=" :: UNIT :: optional params_tokens params
      ++ CHAR "{" :: concat (map item_tokens items) ++ [CHAR "}"; CHAR ";"]
  | SInstantiate u id items =>
      INSTANTIATE :: UNIT :: sid_token u :: AS :: IDENT id :: CHAR "{"
      :: concat (map inst_tokens items) ++ [CHAR "}"; CHAR ";"]
  | SFunction x b id params code =>
      linkage_tokens x ++ simple_tokens b ++ IDENT id :: params_tokens params ++ [BEGINCODE; CPPCODE code; ENDCODE]
  | SProperty p => prop_tokens p
  | SInclude file => [INCLUDE; CSTRING file; CHAR ";"]
  | SImport name => [IMPORT; IDENT name; CHAR ";"]
  end.
Definition module_tokens (m : smodule) : list token :=
  MODULE :: IDENT (s_name m) :: CHAR ";" :: concat (map decl_tokens (s_decls m)).

End Syntax.
Import Syntax.

(** ** What is declared *)

Module Declared.
Section Declared.
  Context (stream_name : string).

Fixpoint all {A B} (f : A → M B) (l : list A) : M (list B) :=
  match l with
  | [] => ret []
  | a :: l => b ⇐ f a; bs ⇐ all f l; ret (b :: bs)
  end.
Definition optional_value {A B} (f : A → M B) (o : option A) : M (option B) :=
  match o with None => ret None | Some a => b ⇐ f a; ret (Some b) end.

Definition expr_value (e : tree) : M expr := lift_option (action stream_name e).
Definition sid_value (i : sid) : ID := match i with Plain s | Scoped s => id_of_string s end.
Definition simple_value (b : simple) : ty :=
  mkTy plain match b with
  | SAny => TAny | SBool => TBool | SBytes => TBytes | SCAddr => TCAddr | SDouble => TDouble
  | SSink => TSink | SString => TString | SVoid => TVoid
  | SInt n => let '(w, sg) := int_type n in TInteger w sg
  | SWidth sg w => TInteger (to_int w) sg
  end.
Fixpoint type_value (t : stype) : ty :=
  match t with
  | SSimple b => simple_value b
  | SNamed i => mkTy plain (TUnknown (Some (sid_value i)))
  | SList t => mkTy plain (TList (Some (type_value t)))
  | SSet t => mkTy plain (TSet (Some (type_value t)))
  | SVector t => mkTy plain (TVector (Some (type_value t)))
  | SMap k v => mkTy plain (TMap (Some (type_value k)) (Some (type_value v)))
  end.
Definition attr_value (a : sattr) : M attr :=
  match a with
  | AttrOnly k => ret (newAttribute stream_name k None)
  | AttrIs k e | AttrOf k e => e ⇐ expr_value e; ret (newAttribute stream_name k (Some e))
  end.
Definition prop_value (p : sprop) : attr :=
  match p with
  | PropOnly k => newAttribute stream_name k None
  | PropIs k a => newAttribute stream_name k (Some (atom_expr stream_name a))
  end.
Definition param_value (p : sparam) : param :=
  mkParam (Some (id_of_string (sp_name p))) (type_value (sp_type p)) (sp_const p) None.

(** A field, around which a vector is put if it has a length. *)
Definition args_value (args : option (list tree)) : M (list expr) := all expr_value (default [] args).
Definition atom_constant (a : atom) : option constant :=
  match ekind (atom_expr stream_name a) with EConstant c => Some c | _ => None end.
Definition field_value (f : sfield) : M field :=
  let id := id_of_string <$> f_name f in
  args ⇐ (match f_content f with CType _ args | CNamed _ args => args_value args | _ => ret [] end);
  len ⇐ optional_value expr_value (f_length f);
  attrs ⇐ all attr_value (f_attrs f);
  cond ⇐ optional_value expr_value (f_cond f);
  sinks ⇐ all expr_value (f_sinks f);
  g ⇐ (match f_content f with
       | CType b _ => counted (createByType (simple_value b) id cond attrs args sinks)
       | CNamed i _ => newField id None cond attrs args sinks (FUnknown (sid_value i))
       | CConst a =>
           c ⇐ lift_option (atom_constant a);
           newField id (Some (constant_type c)) cond attrs [] sinks (FConstant c)
       | CBytes s => newField id (Some (mkTy plain TBytes)) cond attrs [] sinks (FCtor (CtorBytes s))
       end);
  vector_if id len g.

Definition item_value (i : sitem) : M item :=
  match i with
  | ItemVar id t init attrs =>
      init ⇐ optional_value expr_value init;
      attrs ⇐ all attr_value attrs;
      counted (λ ctr, let '(b, ctr) := newItem (Some (id_of_string id)) (Some (type_value t)) attrs ctr in
        Ret (IVariable b init, ctr))
  | ItemProp p =>
      counted (λ ctr, let '(b, ctr) := newItem (Some (percent_id (prop_value p))) None [] ctr in
        Ret (IProperty b (prop_value p), ctr))
  | ItemField f => f ⇐ field_value f; ret (IField f)
  end.
Definition inst_value (i : sinst) : M inst_item :=
  match i with
  | InstOf id attrs => attrs ⇐ all attr_value attrs; ret (InstField (id_of_string id) (mk_attrs attrs) false)
  | InstProp p => ret (InstProperty (percent_id (prop_value p)) (prop_value p))
  end.

Definition linkage (exported : bool) : Linkage := if exported then EXPORTED else PRIVATE.
(** [exportType] is called on the module. *)
Definition export (exported : bool) : M () := if exported then _ ⇐ the_module; ret tt else ret tt.
(** A declaration, or a change of the module or the driver; some need the module, which is there. *)
Definition decl_value (d : sdecl) : M (option declaration) :=
  match d with
  | SConst x id t init =>
      init ⇐ expr_value init;
      let t := from_option simple_value (type_of init) t in
      if canCoerceTo init t then ret (Some (DeclConstant (id_of_string id) (linkage x) init)) else error
  | SType x id t => _ ⇐ export x; ret (Some (DeclType (id_of_string id) (linkage x) (type_value t)))
  | SUnit x id params items =>
      items ⇐ all item_value items;
      u ⇐ newUnit (map param_value (default [] params)) items;
      _ ⇐ export x;
      ret (Some (DeclType (id_of_string id) (linkage x) u))
  | SInstantiate u id items =>
      items ⇐ all inst_value items; ret (Some (DeclInstantiation (id_of_string id) (sid_value u) items))
  | SFunction x b id params code =>
      _ ⇐ the_module;
      ret (Some (DeclFunction (mkFunction (id_of_string id) (simple_value b, false) (map param_value params) code)
                   (linkage x)))
  | SProperty p => m ⇐ the_module; _ ⇐ set_module (addProperty (prop_value p) m); ret None
  | SInclude file => _ ⇐ include file; ret None
  | SImport name => _ ⇐ the_module; ret None
  end.
Definition module_value (m : smodule) : M () :=
  _ ⇐ set_module (mkModule (id_of_string (s_name m)) stream_name [] []);
  ds ⇐ all decl_value (s_decls m);
  addDeclarations (omap (λ d, d) ds).

End Declared.
End Declared.
