(* ===== verification/SpecRead.v ===== *)
(** * Written specifications are read

    The derivation tree of a written specification, and the state the automaton reaches over
    each of its parts. *)

From S2P Require Import Prelude Util Ident Ast Units Scanner Grammar Precedence Lalr LrCorrect Yacc Specs Embed Source.
From stdpp Require Import pmap.
Import Grammars Tables Automaton LrCorrect.Correctness Yacc.Symbols Yacc.Rules Specs.Numbers.
Import Grammar.Syntax Grammar.Parser Precedence.Allowed Precedence.Conts.
Import Embed.Building Embed.Lift Embed.Contexts Embed.Reading Source.Syntax.

(** ** Trees *)

Module Trees.

Definition expr_tree (e : tree) : dtree := ex (lift e).
Definition exprs_tree (l : list tree) : dtree := exprs (map expr_tree l).
Definition scoped_id (i : sid) : dtree :=
  nd n_scoped_id [T (term_of (sid_token i))] [leaf (sid_token i)].
Definition simple_tree (b : simple) : dtree :=
  nd n_atomic_type (map (λ t, T (term_of t)) (simple_tokens b)) (map leaf (simple_tokens b)).
Definition base_tree (b : simple) : dtree := nd n_base_type [N n_atomic_type] [simple_tree b].
Definition of_base (x : dtree) : dtree := nd n_type [N n_base_type] [x].
Definition of_container (x : dtree) : dtree := of_base (nd n_base_type [N n_container_type] [x]).
Definition container (t : token) (x : dtree) : dtree :=
  of_container (nd n_container_type [T (term_of t); T (Ch "<"); N n_type; T (Ch ">")] [leaf t; ch "<"; x; ch ">"]).
Fixpoint type_tree (t : stype) : dtree :=
  match t with
  | SSimple b => of_base (base_tree b)
  | SNamed i => nd n_type [N n_scoped_id] [scoped_id i]
  | SList t => container LIST (type_tree t)
  | SSet t => container SET (type_tree t)
  | SVector t => container VECTOR (type_tree t)
  | SMap k v =>
      of_container (nd n_container_type [T tMAP; T (Ch "<"); N n_type; T (Ch ","); N n_type; T (Ch ">")]
        [leaf MAP; ch "<"; type_tree k; ch ","; type_tree v; ch ">"])
  end.
Definition attr_tree (a : sattr) : dtree :=
  match a with
  | AttrOnly k => nd n_type_attr [T tATTRIBUTE] [leaf (ATTRIBUTE k)]
  | AttrIs k e => nd n_type_attr [T tATTRIBUTE; T (Ch "="); N n_expr] [leaf (ATTRIBUTE k); ch "="; expr_tree e]
  | AttrOf k e => nd n_type_attr [T tATTRIBUTE; T (Ch "("); N n_expr; T (Ch ")")]
      [leaf (ATTRIBUTE k); ch "("; expr_tree e; ch ")"]
  end.
(** A list by the rules [l: x l] and [l:] or [l: x]. *)
Fixpoint list0 (n x : nonterm) (l : list dtree) : dtree :=
  match l with [] => nd n [] [] | a :: l => nd n [N x; N n] [a; list0 n x l] end.
Fixpoint list1 (n x : nonterm) (a : dtree) (l : list dtree) : dtree :=
  match l with [] => nd n [N x] [a] | b :: l => nd n [N x; N n] [a; list1 n x b l] end.
Definition opt_list (o n x : nonterm) (l : list dtree) : dtree :=
  match l with [] => nd o [] [] | a :: l => nd o [N n] [list1 n x a l] end.
Definition attrs_tree (l : list sattr) : dtree := list0 n_opt_type_attrs n_type_attr (map attr_tree l).
Definition prop_tree (p : sprop) : dtree :=
  match p with
  | PropOnly k => nd n_property [T tPROPERTY; T (Ch ";")] [leaf (PROPERTY k); ch ";"]
  | PropIs k a => nd n_property [T tPROPERTY; T (Ch "="); N n_expr; T (Ch ";")]
      [leaf (PROPERTY k); ch "="; expr_tree (TAtom a); ch ";"]
  end.
Definition param_tree (p : sparam) : dtree :=
  nd n_param [N n_opt_param_const; N n_local_id; T (Ch ":"); N n_type]
    [if sp_const p then nd n_opt_param_const [T tCONST] [leaf CONST] else nd n_opt_param_const [] [];
     local_id (sp_name p); ch ":"; type_tree (sp_type p)].
Fixpoint params1 (p : sparam) (l : list sparam) : dtree :=
  match l with
  | [] => nd n_params [N n_param] [param_tree p]
  | q :: l => nd n_params [N n_param; T (Ch ","); N n_params] [param_tree p; ch ","; params1 q l]
  end.
Definition opt_params (l : list sparam) : dtree :=
  match l with [] => nd n_opt_params [] [] | p :: l => nd n_opt_params [N n_params] [params1 p l] end.
(** A rule with an argument in brackets, and the empty rule. *)
Definition opt_tree {A} (n : nonterm) (f : A → dtree) (o : option A) : dtree :=
  match o with None => nd n [] [] | Some a => f a end.
Definition args_tree : option (list tree) → dtree :=
  opt_tree n_opt_field_args (λ l,
    nd n_opt_field_args [T (Ch "("); N n_opt_exprs; T (Ch ")")] [ch "("; opt_exprs (map expr_tree l); ch ")"]).
Definition init_tree (e : tree) : dtree := nd n_init_expr [T (Ch "="); N n_expr] [ch "="; expr_tree e].
Definition opt_init_tree : option tree → dtree :=
  opt_tree n_opt_init_expr (λ e, nd n_opt_init_expr [N n_init_expr] [init_tree e]).
Definition length_tree : option tree → dtree :=
  opt_tree n_opt_unit_vector_len (λ e,
    nd n_opt_unit_vector_len [T (Ch "["); N n_expr; T (Ch "]")] [ch "["; expr_tree e; ch "]"]).
Definition cond_tree : option tree → dtree :=
  opt_tree n_opt_unit_field_cond (λ e,
    nd n_opt_unit_field_cond [T tIF; T (Ch "("); N n_expr; T (Ch ")")] [leaf IF; ch "("; expr_tree e; ch ")"]).
Definition sinks_tree (l : list tree) : dtree :=
  match l with
  | [] => nd n_opt_unit_field_sinks [] []
  | _ => nd n_opt_unit_field_sinks [T tARROW; N n_exprs] [leaf ARROW; exprs_tree l]
  end.
Definition name_tree (o : option string) : dtree :=
  match o with
  | None => nd n_opt_unit_field_name [T (Ch ":")] [ch ":"]
  | Some s => nd n_opt_unit_field_name [N n_local_id; T (Ch ":")] [local_id s; ch ":"]
  end.
(** The constant of an atom. *)
Definition constant_tree (a : atom) : dtree :=
  nd n_constant [T (term_of (atom_token a))] [leaf (atom_token a)].
Definition content_symbols (c : content) : list symbol :=
  match c with
  | CType _ _ => [N n_base_type; N n_opt_field_args]
  | CNamed _ _ => [N n_scoped_id; N n_opt_field_args]
  | CConst _ => [N n_constant]
  | CBytes _ => [N n_ctor]
  end.
Definition content_trees (c : content) : list dtree :=
  match c with
  | CType b args => [base_tree b; args_tree args]
  | CNamed i args => [scoped_id i; args_tree args]
  | CConst a => [constant_tree a]
  | CBytes s => [nd n_ctor [T tCBYTES] [leaf (CBYTES s)]]
  end.
Definition tail_symbols : list symbol :=
  [N n_opt_unit_vector_len; N n_opt_type_attrs; N n_opt_unit_field_cond; N n_opt_unit_field_sinks; T (Ch ";")].
Definition field_tree (f : sfield) : dtree :=
  nd n_unit_field (N n_opt_unit_field_name :: content_symbols (f_content f) ++ tail_symbols)
    (name_tree (f_name f) :: content_trees (f_content f)
     ++ [length_tree (f_length f); attrs_tree (f_attrs f); cond_tree (f_cond f); sinks_tree (f_sinks f); ch ";"]).
Definition item_tree (i : sitem) : dtree :=
  match i with
  | ItemVar id t init attrs =>
      nd n_unit_item [N n_unit_var]
        [nd n_unit_var [T tVAR; N n_local_id; T (Ch ":"); N n_type; N n_opt_init_expr; N n_opt_type_attrs; T (Ch ";")]
           [leaf VAR; local_id id; ch ":"; type_tree t; opt_init_tree init; attrs_tree attrs; ch ";"]]
  | ItemProp p => nd n_unit_item [N n_unit_prop] [nd n_unit_prop [N n_property] [prop_tree p]]
  | ItemField f => nd n_unit_item [N n_unit_field] [field_tree f]
  end.
Definition items_tree (l : list sitem) : dtree :=
  opt_list n_opt_unit_items n_unit_items n_unit_item (map item_tree l).
Definition inst_tree (i : sinst) : dtree :=
  match i with
  | InstOf id attrs =>
      nd n_inst_item [N n_inst_field]
        [nd n_inst_field [N n_local_id; N n_opt_type_attrs; T (Ch ";")] [local_id id; attrs_tree attrs; ch ";"]]
  | InstProp p => nd n_inst_item [N n_inst_prop] [nd n_inst_prop [N n_property] [prop_tree p]]
  end.
Definition insts_tree (l : list sinst) : dtree :=
  opt_list n_opt_inst_items n_inst_items n_inst_item (map inst_tree l).
Definition linkage_tree (exported : bool) : dtree :=
  if exported then nd n_opt_linkage [T tEXPORT] [leaf EXPORT] else nd n_opt_linkage [] [].
Definition type_or_init (t : option simple) (e : tree) : dtree :=
  match t with
  | None => nd n_type_or_init [N n_init_expr] [init_tree e]
  | Some b => nd n_type_or_init [T (Ch ":"); N n_base_type; N n_init_expr] [ch ":"; base_tree b; init_tree e]
  end.
Definition unit_params : option (list sparam) → dtree :=
  opt_tree n_opt_unit_params (λ l,
    nd n_opt_unit_params [T (Ch "("); N n_opt_params; T (Ch ")")] [ch "("; opt_params l; ch ")"]).
Definition unit_tree (params : option (list sparam)) (items : list sitem) : dtree :=
  of_base (nd n_base_type [N n_atomic_type] [nd n_atomic_type [N n_unit] [
    nd n_unit [T tUNIT; N n_opt_unit_params; T (Ch "{"); N n_opt_unit_items; T (Ch "}")]
      [leaf UNIT; unit_params params; ch "{"; items_tree items; ch "}"]]]).
Definition type_decl (exported : bool) (id : string) (t : dtree) : dtree :=
  nd n_global_decl [N n_type_decl]
    [nd n_type_decl [N n_opt_linkage; T tTYPE; N n_local_id; T (Ch "="); N n_type; T (Ch ";")]
      [linkage_tree exported; leaf TYPE; local_id id; ch "="; t; ch ";"]].
Definition code_tree (s : string) : dtree :=
  nd n_cppblock [T tBEGINCODE; T tCPPCODE; T tENDCODE] [leaf BEGINCODE; leaf (CPPCODE s); leaf ENDCODE].
Definition decl_tree (d : sdecl) : dtree :=
  match d with
  | SConst x id t init =>
      nd n_global_decl [N n_const_decl]
        [nd n_const_decl [N n_opt_linkage; T tCONST; N n_local_id; N n_type_or_init; T (Ch ";")]
          [linkage_tree x; leaf CONST; local_id id; type_or_init t init; ch ";"]]
  | SType x id t => type_decl x id (type_tree t)
  | SUnit x id params items => type_decl x id (unit_tree params items)
  | SInstantiate u id items =>
      nd n_global_decl [N n_inst_decl]
        [nd n_inst_decl [T tINSTANTIATE; T tUNIT; N n_scoped_id; T tAS; N n_local_id; T (Ch "{");
                         N n_opt_inst_items; T (Ch "}"); T (Ch ";")]
          [leaf INSTANTIATE; leaf UNIT; scoped_id u; leaf AS; local_id id; ch "{"; insts_tree items; ch "}"; ch ";"]]
  | SFunction x b id params code =>
      nd n_global_decl [N n_func_decl]
        [nd n_func_decl [N n_opt_linkage; N n_rtype; N n_local_id; T (Ch "("); N n_opt_params; T (Ch ")"); N n_cppblock]
          [linkage_tree x;
           nd n_rtype [N n_opt_param_const; N n_type] [nd n_opt_param_const [] []; of_base (base_tree b)];
           local_id id; ch "("; opt_params params; ch ")"; code_tree code]]
  | SProperty p => nd n_global_decl [N n_property] [prop_tree p]
  | SInclude file =>
      nd n_global_decl [N n_include] [nd n_include [T tINCLUDE; T tCSTRING; T (Ch ";")] [leaf INCLUDE; leaf (CSTRING file); ch ";"]]
  | SImport name =>
      nd n_global_decl [N n_import] [nd n_import [T tIMPORT; N n_path_id; T (Ch ";")]
        [leaf IMPORT; nd n_path_id [T tIDENT] [leaf (IDENT name)]; ch ";"]]
  end.
Definition module_tree (m : smodule) : dtree :=
  nd n_module [T tMODULE; N n_local_id; T (Ch ";"); Mid 0; N n_opt_global_decls]
    [leaf MODULE; local_id (s_name m); ch ";"; mid 0;
     list0 n_opt_global_decls n_global_decl (map decl_tree (s_decls m))].

End Trees.
Import Trees.

(** ** Parts of a rule

    What a tree promises to the rule it is in: its symbol, the states it is read in, the tokens
    it is read in front of, the tokens it may begin with and whether it may have none. *)

Module Parts.

Local Abbreviation action_at := (Automaton.action_at spec_grammar spec_analysis spec_table kind).
Local Abbreviation symbol_of := (Automaton.symbol_of spec_analysis kind).
Local Abbreviation walks := (Automaton.walks spec_grammar spec_analysis spec_table kind).
Local Abbreviation lookahead := (Automaton.lookahead spec_grammar kind).

Inductive part :=
  | Tok (t : term)
  | Part (x : symbol) (from : list positive) (before : list positive) (first : list positive) (null : bool).

Definition mem (l : list positive) (x : positive) : bool := existsb (Pos.eqb x) l.
Lemma mem_spec l x : mem l x = true ↔ x ∈ l.
Proof.
  unfold mem. rewrite existsb_exists. split.
  - intros (y & Hy & ->%Pos.eqb_eq). by apply list_elem_of_In.
  - intros H. exists x. split; [by apply list_elem_of_In|apply Pos.eqb_refl].
Qed.

(** The action on a kind of token. *)
Definition action_on (s : positive) (k : positive) : Tables.action :=
  match spec_table !! s with
  | None => Tables.Fail
  | Some st =>
      match consistent spec_grammar st with
      | Some r => Reduce r
      | None => lookahead_action spec_grammar (level_of spec_grammar spec_analysis) st k
      end
  end.

Definition part_symbol (p : part) : symbol := match p with Tok t => T t | Part x _ _ _ _ => x end.
Definition part_from (p : part) (s : positive) : bool :=
  match p with
  | Tok t => bool_decide (action_on s (number (T t)) = Shift)
  | Part _ from _ _ _ => mem from s
  end.
Definition part_before (p : part) (k : positive) : bool :=
  match p with Tok _ => true | Part _ _ before _ _ => mem before k end.
Definition part_first (p : part) : list positive :=
  match p with Tok t => [number (T t)] | Part _ _ _ first _ => first end.
Definition part_null (p : part) : bool := match p with Tok _ => false | Part _ _ _ _ null => null end.

Record fits (x : dtree) (p : part) : Prop := {
  fits_symbol : symbol_of x = Some (number (part_symbol p));
  fits_reads s ts : part_from p s = true → part_before p (lookahead ts) = true →
    ∀ m, goto s (part_symbol p) = Some m → reads x s ts m;
  fits_first ks ts : lookahead ts ∈ ks →
    lookahead (Automaton.yield x ++ ts) ∈ part_first p ++ (if part_null p then ks else []) }.

(** The states a list of parts leads through, in front of the kinds [ks]. *)
Fixpoint firsts (ps : list part) (ks : list positive) : list positive :=
  match ps with [] => ks | p :: ps => part_first p ++ (if part_null p then firsts ps ks else []) end.
Fixpoint path (ps : list part) (ks : list positive) (s : positive) : option positive :=
  match ps with
  | [] => Some s
  | p :: ps =>
      if part_from p s && forallb (part_before p) (firsts ps ks)
      then s ← goto s (part_symbol p); path ps ks s else None
  end.
Definition known_rule (x : symbol) (r : positive) (ps : list part) : bool :=
  bool_decide (lhs <$> rule_at spec_analysis !! r = Some (number x)) &&
  bool_decide (rhs <$> rule_at spec_analysis !! r = Some (map number (map part_symbol ps))).
(** The rule [r] makes the part [p] of its parts. *)
Definition composes (r : positive) (ps : list part) (p : part) : bool :=
  match p with
  | Tok _ => false
  | Part x from before first null =>
      known_rule x r ps &&
      forallb (mem first) (firsts ps []) && implb (forallb part_null ps) null &&
      forallb (λ s, match path ps before s with
        | Some m => forallb (λ k, bool_decide (action_on m k = Reduce r)) before
        | None => false
        end) from
  end.

Lemma action_at_on s ts : action_at s ts = action_on s (lookahead ts).
Proof. reflexivity. Qed.

Lemma firsts_yield ps l ks ts : Forall2 fits l ps → lookahead ts ∈ ks →
  lookahead (concat (map Automaton.yield l) ++ ts) ∈ firsts ps ks.
Proof.
  intros H. revert ts. induction H as [|x p l ps Hx _ IH]; intros ts Hk; [done|].
  cbn [map concat firsts]. rewrite <- app_assoc. pose proof (fits_first x p Hx _ _ (IH ts Hk)) as Hf.
  apply elem_of_app in Hf as [Hf|Hf]; apply elem_of_app; [by left|right]. by destruct (part_null p).
Qed.

Lemma sentence_path_walks ps l ks s m ts :
  Forall2 fits l ps → lookahead ts ∈ ks → path ps ks s = Some m → walks l s ts = Some m.
Proof.
  intros H Hk. revert s. induction H as [|x p l ps Hx Hl IH]; intros s Hp; cbn [path] in Hp; [done|].
  destruct (part_from p s && _) eqn:E; [|done]. apply andb_prop in E as [E1 E2].
  destruct (goto s (part_symbol p)) as [k|] eqn:Eg; [|done]. eapply walks_cons; [|by apply IH].
  eapply fits_reads; [done|done| |done].
  eapply in_forallb; [exact E2|]. by apply firsts_yield.
Qed.

Lemma symbols_fit l ps : Forall2 fits l ps → map symbol_of l = map Some (map number (map part_symbol ps)).
Proof. induction 1 as [|x p l ps Hx _ IH]; [done|]. cbn [map]. by rewrite IH, (fits_symbol x p Hx). Qed.

Lemma firsts_null ps ks k : k ∈ firsts ps ks → k ∈ firsts ps [] ∨ forallb part_null ps = true ∧ k ∈ ks.
Proof.
  induction ps as [|p ps IH]; cbn [firsts forallb]; [tauto|]. rewrite !elem_of_app.
  destruct (part_null p); cbn [andb]; [|tauto]. tauto.
Qed.

Lemma fits_node r ps l p : Forall2 fits l ps → composes r ps p = true → fits (Node r l) p.
Proof.
  intros Hl Hc. destruct p as [t|x from before first null]; [done|]. cbn [composes] in Hc.
  apply andb_prop in Hc as [[[[Hr1 Hr2]%andb_prop Hf]%andb_prop Hn]%andb_prop Hs].
  apply bool_decide_eq_true in Hr1, Hr2.
  destruct (rule_at spec_analysis !! r) as [ru|] eqn:Er; [|done]. injection Hr1 as Hr1. injection Hr2 as Hr2.
  split; cbn [part_symbol part_from part_before part_first part_null].
  - cbn [Automaton.symbol_of]. rewrite Er. cbn. by rewrite Hr1.
  - intros s ts Hfrom Hk m Hg. apply mem_spec in Hfrom, Hk. pose proof (in_forallb _ _ _ Hs Hfrom) as H. cbn beta in H.
    destruct (path ps before s) as [k|] eqn:Ep; [|done].
    pose proof (sentence_path_walks _ _ _ _ _ _ Hl Hk Ep) as Hw.
    pose proof (in_forallb _ _ _ H Hk) as Ha. apply bool_decide_eq_true in Ha.
    unfold reads. rewrite (walk_node _ _ _ spec_potential kind spec_valid kind_token), Er. cbn [mbind option_bind].
    rewrite Hw. cbn [mbind option_bind]. rewrite bool_decide_eq_true_2; [by rewrite Hr1|].
    split; [done|]. rewrite Hr2. by apply symbols_fit.
  - intros ks ts Hk. cbn [Automaton.yield]. destruct (firsts_null _ _ _ (firsts_yield _ _ _ _ Hl Hk)) as [H|[H1 H2]].
    + apply elem_of_app. left. apply mem_spec. by apply (in_forallb _ _ _ Hf).
    + apply elem_of_app. right. rewrite H1 in Hn. by destruct null.
Qed.

(** A part can be used where less is needed. *)
Definition weaker (p q : part) : bool :=
  match p, q with
  | Part x from before first null, Part x' from' before' first' null' =>
      bool_decide (x = x') && forallb (mem from) from' && forallb (mem before) before'
      && forallb (mem first') first && implb null null'
  | _, _ => false
  end.
Lemma fits_weaker x p q : weaker p q = true → fits x p → fits x q.
Proof.
  destruct p as [|y from before first null], q as [|y' from' before' first' null']; try done. cbn [weaker].
  intros [[[[<-%bool_decide_eq_true H1]%andb_prop H2]%andb_prop H3]%andb_prop H4]%andb_prop [Hs Hr Hf].
  split; cbn [part_symbol part_from part_before part_first part_null] in *; [done|..].
  - intros s ts Hm%mem_spec Hb%mem_spec. apply Hr; by eapply in_forallb.
  - intros ks ts Hk. specialize (Hf ks ts Hk). apply elem_of_app in Hf as [Hf|Hf]; apply elem_of_app.
    + left. apply mem_spec. by eapply in_forallb.
    + right. destruct null; [by destruct null'|by apply not_elem_of_nil in Hf].
Qed.

Lemma fits_tok t : fits (Leaf t) (Tok (term_of t)).
Proof.
  split; cbn [part_symbol part_from part_before part_first part_null]; [done|..].
  - intros s ts Hs _ m Hg. apply bool_decide_eq_true in Hs. by apply reads_token.
  - intros ks ts _. by left.
Qed.

End Parts.
Import Parts.

(** ** The parts of a specification *)

Module Reads.

Definition kinds (l : list term) : list positive := map (λ t, number (T t)) l.
(** The states with a transition by a symbol. *)
Definition able (x : symbol) : list positive :=
  List.filter (λ s, if goto s x is Some _ then true else false) (map fst (map_to_list spec_table)).

(** A tree by a rule: its parts, and the check of the rule. *)
Ltac fits_parts := repeat first [apply list.Forall2_nil_2 | apply list.Forall2_cons_2; [eauto using fits_tok|]].
Ltac by_rule ps := eapply (fits_node _ ps); [fits_parts|vm_compute; reflexivity].

(** Each element of a list that is written out. *)
Ltac one_of H :=
  repeat (apply elem_of_cons in H as [->|H]); try (by apply not_elem_of_nil in H).

(** *** Expressions *)

Definition expr_ends : list positive :=
  kinds [Ch ","; Ch ")"; Ch "]"; Ch ";"; tATTRIBUTE; tIF; tARROW].
Definition expr_begins : list positive :=
  kinds [tIDENT; tSCOPED_IDENT; tCINTEGER; tCBOOL; tCSTRING; tCDOUBLE; tNONE; tCBYTES;
         tINT; tINT8; tINT16; tINT32; tINT64; tUINT; tUINT8; tUINT16; tUINT32; tUINT64;
         Ch "("; Ch "*"; Ch "!"; tPLUSPLUS; tMINUSMINUS].
Definition Expr : part := Part (N n_expr) frees expr_ends expr_begins false.

Lemma head_begins e ts : lookahead spec_grammar kind (yield e ++ ts) ∈ expr_begins.
Proof.
  revert ts. induction e using tree_list_ind; intros ts; cbn [yield]; rewrite <- ?app_assoc; try done;
    try (apply mem_spec; vm_compute; reflexivity).
  - destruct a; apply mem_spec; vm_compute; reflexivity.
  - destruct n; apply mem_spec; vm_compute; reflexivity.
  - destruct s; apply mem_spec; vm_compute; reflexivity.
  - destruct p; apply mem_spec; vm_compute; reflexivity.
Qed.

Lemma ends_token t : mem expr_ends (kind t) = true →
  follows t = true ∧ cont_of t = None ∧ is_char ":" t = false.
Proof.
  intros H. destruct t; try (by vm_compute in H); try (by split_and!).
  destruct c as [[] [] [] [] [] [] [] []]; vm_compute in H; first [discriminate|by split_and!].
Qed.

Lemma fits_expr e : prec_ok e = true → fits (expr_tree e) Expr.
Proof.
  intros Hp. split; cbn [Expr part_symbol part_from part_before part_first part_null]; [apply root_ex|..].
  - intros s ts Hs%mem_spec Hk m Hg. destruct (free_context s Hs) as [Hc _].
    assert (m = after s) as ->.
    { destruct (context_goto s Hc) as (_ & Hg' & _). rewrite Hg in Hg'. by injection Hg'. }
    destruct ts as [|t ts]; [by vm_compute in Hk|]. destruct (ends_token t Hk) as (Hf & Hc1 & Hc2).
    apply reads_ex; [apply reads_expr|done|done|by apply free_spine|done|by apply Complete.left_ok_closed].
  - intros ks ts _. apply elem_of_app. left. unfold expr_tree. rewrite yield_ex, yield_lift. apply head_begins.
Qed.

(** *** Types *)

(** Where only types can stand, and in fields, where there are constants, too. *)
Record place := mkPlace { at_ : list positive; ends : list positive }.
Definition field_state : positive := state_after (at_unit ++ [N n_opt_unit_field_name]).
Definition list_state : positive := state_after (at_unit ++ [N n_opt_unit_field_name; T tLIST; T (Ch "<")]).
Definition prop_state : positive := state_after (header ++ [T tPROPERTY; T (Ch "=")]).
Definition in_types : place :=
  mkPlace (List.filter (λ s, negb (mem [field_state; list_state; prop_state] s)) (able (N n_atomic_type)))
    (kinds [Ch ">"; Ch ","; Ch ";"; Ch ")"; Ch "="; tATTRIBUTE; tIDENT]).
Definition type_states : list positive :=
  List.filter (λ s, negb (s =? list_state)%positive) (able (N n_type)).
Definition in_fields : place := mkPlace [field_state] (kinds [Ch ";"; Ch "["; tATTRIBUTE; tIF; tARROW]).

Definition simple_begins : list positive :=
  kinds [tANY; tBOOL; tBYTES; tCADDR; tDOUBLE; tSINK; tSTRING; tVOID;
         tINT; tINT8; tINT16; tINT32; tINT64; tUINT; tUINT8; tUINT16; tUINT32; tUINT64].
Definition id_begins : list positive := kinds [tIDENT; tSCOPED_IDENT].
Definition type_begins : list positive := simple_begins ++ id_begins ++ kinds [tLIST; tSET; tVECTOR; tMAP].
Definition Atomic (p : place) : part := Part (N n_atomic_type) (at_ p) (ends p) simple_begins false.
Definition Base (p : place) : part := Part (N n_base_type) (at_ p) (ends p) simple_begins false.
Definition Scoped_id (from before : list positive) : part := Part (N n_scoped_id) from before id_begins false.
Definition Type_ : part := Part (N n_type) type_states (ends in_types) type_begins false.

Lemma fits_tokens ts : Forall2 fits (map leaf ts) (map (λ t, Tok (term_of t)) ts).
Proof. induction ts as [|t ts IH]; constructor; [apply fits_tok|done]. Qed.

Lemma fits_simple b p : p ∈ [in_types; in_fields] → fits (simple_tree b) (Atomic p).
Proof.
  intros Hp. unfold simple_tree, nd. eapply fits_node; [apply fits_tokens|].
  one_of Hp; destruct b as [| | | | | | | |[]|[] w]; vm_compute; reflexivity.
Qed.
Lemma fits_base b p : p ∈ [in_types; in_fields] → fits (base_tree b) (Base p).
Proof.
  intros Hp. pose proof (fits_simple b p Hp). one_of Hp; [by_rule [Atomic in_types]|by_rule [Atomic in_fields]].
Qed.

Lemma fits_scoped_type i : fits (scoped_id i) (Scoped_id type_states (ends in_types)).
Proof. destruct i; [by_rule [Tok tIDENT]|by_rule [Tok tSCOPED_IDENT]]. Qed.

(** The types [list], [set], [vector] and [map]. *)
Definition Container (t : term) : part :=
  Part (N n_container_type) (at_ in_types) (ends in_types) (kinds [t]) false.
Lemma fits_container t x : t ∈ [tLIST; tSET; tVECTOR; tMAP] → fits x (Container t) → fits (of_container x) Type_.
Proof.
  intros Ht Hx. set (B := Part (N n_base_type) (at_ in_types) (ends in_types) (kinds [t]) false).
  assert (fits (nd n_base_type [N n_container_type] [x]) B).
  { eapply (fits_node _ [Container t]); [fits_parts|].
    one_of Ht; vm_compute; reflexivity. }
  eapply (fits_node _ [B]); [fits_parts|].
  one_of Ht; vm_compute; reflexivity.
Qed.
Ltac by_container t IH :=
  apply (fits_container t); [apply list_elem_of_In; cbn; tauto|];
  by_rule [Tok t; Tok (Ch "<"); Type_; Tok (Ch ">")].

Lemma fits_type t : fits (type_tree t) Type_.
Proof.
  induction t as [b|i|t IH|t IH|t IH|k IHk v IHv]; cbn [type_tree].
  - assert (fits (base_tree b) (Base in_types)) by (apply fits_base; left). by_rule [Base in_types].
  - pose proof (fits_scoped_type i). by_rule [Scoped_id type_states (ends in_types)].
  - by_container tLIST IH.
  - by_container tSET IH.
  - by_container tVECTOR IH.
  - assert (fits (nd n_container_type [T tMAP; T (Ch "<"); N n_type; T (Ch ","); N n_type; T (Ch ">")]
      [leaf MAP; ch "<"; type_tree k; ch ","; type_tree v; ch ">"]) (Container tMAP))
      by (by_rule [Tok tMAP; Tok (Ch "<"); Type_; Tok (Ch ","); Type_; Tok (Ch ">")]).
    by apply (fits_container tMAP); [do 3 right; left|].
Qed.
(** *** Lists *)

Lemma fits_list0 n x X L l : Forall (λ a, fits a X) l →
  composes (rule_no n []) [] L = true → composes (rule_no n [N x; N n]) [X; L] L = true →
  fits (list0 n x l) L.
Proof.
  intros H H0 H1. induction H as [|a l Ha _ IH]; cbn [list0].
  - eapply (fits_node _ []); [constructor|exact H0].
  - eapply (fits_node _ [X; L]); [fits_parts|exact H1].
Qed.
Lemma fits_list1 n x X L a l : Forall (λ a, fits a X) (a :: l) →
  composes (rule_no n [N x]) [X] L = true → composes (rule_no n [N x; N n]) [X; L] L = true →
  fits (list1 n x a l) L.
Proof.
  intros H H0 H1. revert a H. induction l as [|b l IH]; intros a H; cbn [list1];
    apply list.Forall_cons in H as [Ha H].
  - eapply (fits_node _ [X]); [fits_parts|exact H0].
  - eapply (fits_node _ [X; L]); [fits_parts|exact H1].
Qed.
Lemma fits_opt_list o n x X L O l : Forall (λ a, fits a X) l →
  composes (rule_no n [N x]) [X] L = true → composes (rule_no n [N x; N n]) [X; L] L = true →
  composes (rule_no o []) [] O = true → composes (rule_no o [N n]) [L] O = true →
  fits (opt_list o n x l) O.
Proof.
  intros H H0 H1 H2 H3. destruct l as [|a l]; cbn [opt_list].
  - eapply (fits_node _ []); [constructor|exact H2].
  - eapply (fits_node _ [L]); [|exact H3]. fits_parts. by apply fits_list1 with X.
Qed.
Lemma Forall_fits {A} (f : A → dtree) (ok : A → bool) X l :
  (∀ a, ok a = true → fits (f a) X) → forallb ok l = true → Forall (λ a, fits a X) (map f l).
Proof.
  intros H Hl. induction l as [|a l IH]; [constructor|]. cbn in Hl. apply andb_prop in Hl as [??].
  constructor; auto.
Qed.

(** *** Attributes and properties *)

Definition attr_ends : list positive := kinds [tATTRIBUTE; Ch ";"; tIF; tARROW].
Definition Attr : part := Part (N n_type_attr) (able (N n_type_attr)) attr_ends (kinds [tATTRIBUTE]) false.
Definition attr_ok (a : sattr) : bool :=
  match a with AttrOnly _ => true | AttrIs _ e | AttrOf _ e => prec_ok e end.
Lemma fits_attr a : attr_ok a = true → fits (attr_tree a) Attr.
Proof.
  destruct a as [k|k e|k e]; cbn [attr_ok attr_tree]; intros H%fits_expr || intros _.
  - by_rule [Tok tATTRIBUTE].
  - by_rule [Tok tATTRIBUTE; Tok (Ch "="); Expr].
  - by_rule [Tok tATTRIBUTE; Tok (Ch "("); Expr; Tok (Ch ")")].
Qed.
(** In fields a condition or sinks may follow. *)
Definition attrs_of_field : place :=
  mkPlace (List.filter (λ s, bool_decide (action_on s (number (T tIF)) = Reduce (rule_no n_opt_type_attrs [])))
    (able (N n_opt_type_attrs))) (kinds [Ch ";"; tIF; tARROW]).
Definition attrs_alone : place := mkPlace (able (N n_opt_type_attrs)) (kinds [Ch ";"]).
Definition Attrs (p : place) : part := Part (N n_opt_type_attrs) (at_ p) (ends p) (kinds [tATTRIBUTE]) true.
Lemma fits_attrs l p : p ∈ [attrs_of_field; attrs_alone] → forallb attr_ok l = true → fits (attrs_tree l) (Attrs p).
Proof.
  intros Hp H%(Forall_fits _ _ _ _ fits_attr).
  apply (fits_list0 _ _ Attr); [done|one_of Hp; vm_compute; reflexivity..].
Qed.

(** What begins a declaration or an item, or ends them. *)
Definition decl_begins : list positive :=
  kinds [tCONST; tEXPORT; tTYPE; tINSTANTIATE; tPROPERTY; tINCLUDE; tIMPORT] ++ simple_begins.
Definition item_begins : list positive := kinds [tVAR; tPROPERTY; tIDENT; Ch ":"].
(** [%key = none;] sets no value, and so does [%key;]. *)
Definition prop_ok (p : sprop) : bool := match p with PropIs _ ANone => false | _ => true end.
Definition Atom2 : part := Part (N n_expr2) [prop_state] (kinds [Ch ";"]) expr_begins false.
Definition Atom_of (n : nonterm) : part := Part (N n) [prop_state] (kinds [Ch ";"]) expr_begins false.
Lemma fits_const c : fits c (Atom_of n_constant) → fits (const2 c) Atom2.
Proof. intros H. by_rule [Atom_of n_constant]. Qed.
Lemma fits_atom a : a ≠ ANone → fits (lift_atom a) Atom2.
Proof.
  intros Ha. destruct a as [s|s|z|b|s|d| |s]; try done; cbn [lift_atom atom_token].
  - assert (fits (nd n_scoped_id [T tIDENT] [leaf (IDENT s)]) (Atom_of n_scoped_id)) by by_rule [Tok tIDENT].
    by_rule [Atom_of n_scoped_id].
  - assert (fits (nd n_scoped_id [T tSCOPED_IDENT] [leaf (SCOPED_IDENT s)]) (Atom_of n_scoped_id))
      by by_rule [Tok tSCOPED_IDENT].
    by_rule [Atom_of n_scoped_id].
  - apply fits_const. by_rule [Tok tCINTEGER].
  - apply fits_const. by_rule [Tok tCBOOL].
  - apply fits_const. by_rule [Tok tCSTRING].
  - apply fits_const. by_rule [Tok tCDOUBLE].
  - assert (fits (nd n_ctor [T tCBYTES] [leaf (CBYTES s)]) (Atom_of n_ctor)) by by_rule [Tok tCBYTES].
    by_rule [Atom_of n_ctor].
Qed.

(** Where a declaration or an item ends. *)
Definition next_begins : list positive := decl_begins ++ item_begins ++ kinds [Ch "}"; tEND].
Definition Property : part := Part (N n_property) (able (N n_property)) next_begins (kinds [tPROPERTY]) false.
Lemma fits_prop p : prop_ok p = true → fits (prop_tree p) Property.
Proof.
  destruct p as [k|k a]; cbn [prop_ok prop_tree]; intros Ha.
  - by_rule [Tok tPROPERTY; Tok (Ch ";")].
  - set (E := Part (N n_expr) [prop_state] (kinds [Ch ";"]) expr_begins false).
    assert (fits (expr_tree (TAtom a)) E).
    { assert (fits (lift_atom a) Atom2) by (apply fits_atom; by destruct a).
      unfold expr_tree, ex. cbn [lift]. by_rule [Atom2]. }
    by_rule [Tok tPROPERTY; Tok (Ch "="); E; Tok (Ch ";")].
Qed.

(** *** Parameters *)

Definition Local_id (from before : list positive) : part := Part (N n_local_id) from before (kinds [tIDENT]) false.
Definition Param_const : part :=
  Part (N n_opt_param_const) (able (N n_param)) (kinds [tIDENT]) (kinds [tCONST]) true.
Definition Param : part :=
  Part (N n_param) (able (N n_param)) (kinds [Ch ","; Ch ")"]) (kinds [tCONST; tIDENT]) false.
Definition Id_name : part := Local_id (able (N n_local_id)) (kinds [Ch ":"]).
Lemma fits_local_id s : fits (local_id s) Id_name.
Proof. by_rule [Tok tIDENT]. Qed.
Lemma fits_param p : fits (param_tree p) Param.
Proof.
  pose proof (fits_type (sp_type p)). pose proof (fits_local_id (sp_name p)).
  assert (fits (if sp_const p then nd n_opt_param_const [T tCONST] [leaf CONST] else nd n_opt_param_const [] []) Param_const).
  { destruct (sp_const p); [by_rule [Tok tCONST]|by_rule (@nil part)]. }
  by_rule [Param_const; Id_name; Tok (Ch ":"); Type_].
Qed.
Definition Params : part :=
  Part (N n_params) (able (N n_params)) (kinds [Ch ")"]) (kinds [tCONST; tIDENT]) false.
Definition Opt_params : part :=
  Part (N n_opt_params) (able (N n_opt_params)) (kinds [Ch ")"]) (kinds [tCONST; tIDENT]) true.
Lemma fits_params p l : fits (params1 p l) Params.
Proof.
  revert p. induction l as [|q l IH]; intros p; pose proof (fits_param p); cbn [params1]; [by_rule [Param]|].
  specialize (IH q). by_rule [Param; Tok (Ch ","); Params].
Qed.
Lemma fits_opt_params l : fits (opt_params l) Opt_params.
Proof.
  destruct l as [|p l]; cbn [opt_params]; [by_rule (@nil part)|]. pose proof (fits_params p l). by_rule [Params].
Qed.

(** *** Fields *)

Definition exprs_from : list positive :=
  [state_after (at_args ++ [T (Ch "(")]); state_after (at_cond ++ [N n_opt_unit_field_cond; T tARROW]); s_comma].
Definition Exprs : part := Part (N n_exprs) exprs_from (kinds [Ch ")"; Ch ";"]) expr_begins false.
Lemma fits_exprs e l : forallb prec_ok (e :: l) = true → fits (exprs_tree (e :: l)) Exprs.
Proof.
  revert e. induction l as [|e2 l IH]; intros e [He%fits_expr Hl]%andb_prop.
  - change (fits (nd n_exprs [N n_expr] [expr_tree e]) Exprs). by_rule [Expr].
  - specialize (IH e2 Hl).
    change (fits (nd n_exprs [N n_expr; T (Ch ","); N n_exprs] [expr_tree e; ch ","; exprs_tree (e2 :: l)]) Exprs).
    by_rule [Expr; Tok (Ch ","); Exprs].
Qed.

Definition args_from : list positive := map state_after [at_args; at_unit ++ [N n_opt_unit_field_name; N n_scoped_id]].
Definition field_ends : list positive := kinds [Ch "["; tATTRIBUTE; tIF; tARROW; Ch ";"].
Definition Args : part := Part (N n_opt_field_args) args_from field_ends (kinds [Ch "("]) true.
Definition No_args : part := Part (N n_opt_field_args) args_from field_ends [] true.
Definition Opt_exprs : part :=
  Part (N n_opt_exprs) [state_after (at_args ++ [T (Ch "(")])] (kinds [Ch ")"]) expr_begins true.
Definition all_ok (o : option (list tree)) : bool := from_option (forallb prec_ok) true o.
Lemma fits_args o : all_ok o = true → fits (args_tree o) Args.
Proof.
  destruct o as [l|]; cbn [args_tree opt_tree all_ok from_option]; intros H; [|by_rule (@nil part)].
  assert (fits (opt_exprs (map expr_tree l)) Opt_exprs).
  { destruct l as [|e l]; [by_rule (@nil part)|]. pose proof (fits_exprs e l H).
    change (fits (nd n_opt_exprs [N n_exprs] [exprs_tree (e :: l)]) Opt_exprs). by_rule [Exprs]. }
  by_rule [Tok (Ch "("); Opt_exprs; Tok (Ch ")")].
Qed.

Definition opt_ok (o : option tree) : bool := from_option prec_ok true o.
Definition Length : part :=
  Part (N n_opt_unit_vector_len) (able (N n_opt_unit_vector_len)) (kinds [tATTRIBUTE; tIF; tARROW; Ch ";"])
    (kinds [Ch "["]) true.
Lemma fits_length o : opt_ok o = true → fits (length_tree o) Length.
Proof.
  destruct o as [e|]; cbn [length_tree opt_tree opt_ok from_option]; intros H; [|by_rule (@nil part)].
  apply fits_expr in H. by_rule [Tok (Ch "["); Expr; Tok (Ch "]")].
Qed.
Definition Cond : part :=
  Part (N n_opt_unit_field_cond)
    (List.filter (λ s, bool_decide (action_on s (number (T tARROW)) = Reduce (rule_no n_opt_unit_field_cond [])))
      (able (N n_opt_unit_field_cond))) (kinds [tARROW; Ch ";"]) (kinds [tIF]) true.
Lemma fits_cond o : opt_ok o = true → fits (cond_tree o) Cond.
Proof.
  destruct o as [e|]; cbn [cond_tree opt_tree opt_ok from_option]; intros H; [|by_rule (@nil part)].
  apply fits_expr in H. by_rule [Tok tIF; Tok (Ch "("); Expr; Tok (Ch ")")].
Qed.
Definition Sinks : part :=
  Part (N n_opt_unit_field_sinks) (able (N n_opt_unit_field_sinks)) (kinds [Ch ";"]) (kinds [tARROW]) true.
Lemma fits_sinks l : forallb prec_ok l = true → fits (sinks_tree l) Sinks.
Proof.
  destruct l as [|e l]; intros H; [by_rule (@nil part)|]. pose proof (fits_exprs e l H).
  change (fits (nd n_opt_unit_field_sinks [T tARROW; N n_exprs] [leaf ARROW; exprs_tree (e :: l)]) Sinks).
  by_rule [Tok tARROW; Exprs].
Qed.

Definition content_begins : list positive :=
  simple_begins ++ id_begins ++ kinds [tCINTEGER; tCBOOL; tCSTRING; tCDOUBLE; tNONE; tCBYTES].
Definition Name : part :=
  Part (N n_opt_unit_field_name) (able (N n_unit_item)) content_begins (kinds [tIDENT; Ch ":"]) false.
Lemma fits_name o : fits (name_tree o) Name.
Proof.
  destruct o as [s|]; cbn [name_tree]; [|by_rule [Tok (Ch ":")]].
  pose proof (fits_local_id s). by_rule [Id_name; Tok (Ch ":")].
Qed.
(** The type of a field may be followed by arguments, the others not: a parenthesis behind the
    name of an integer type begins a constant. *)
Definition is_integer (b : simple) : bool := match b with SInt _ | SWidth _ _ => true | _ => false end.
Definition atom_is_constant (a : atom) : bool :=
  match a with AIdent _ | AScoped _ | ABytes _ => false | _ => true end.
Definition content_ok (c : content) : bool :=
  match c with
  | CType b args => (negb (is_integer b) || if args is Some _ then false else true) && all_ok args
  | CNamed _ args => all_ok args
  | CConst a => atom_is_constant a
  | CBytes _ => true
  end.
Definition base_in_field : place := mkPlace [field_state] (kinds [Ch "("] ++ ends in_fields).
Lemma fits_field_type b : is_integer b = false → fits (base_tree b) (Base base_in_field).
Proof.
  intros Hb. assert (fits (simple_tree b) (Atomic base_in_field)).
  { unfold simple_tree, nd. eapply fits_node; [apply fits_tokens|]. destruct b; try done; vm_compute; reflexivity. }
  by_rule [Atomic base_in_field].
Qed.
Definition Field_id : part := Scoped_id [field_state] (kinds [Ch "("] ++ ends in_fields).
Lemma fits_field_id i : fits (scoped_id i) Field_id.
Proof. destruct i; [by_rule [Tok tIDENT]|by_rule [Tok tSCOPED_IDENT]]. Qed.
Definition In_field (n : nonterm) : part := Part (N n) [field_state] field_ends content_begins false.
Lemma fits_constant a : atom_is_constant a = true → fits (constant_tree a) (In_field n_constant).
Proof.
  intros Ha. unfold constant_tree, nd. eapply (fits_node _ [Tok (term_of (atom_token a))]); [fits_parts|].
  destruct a; try done; vm_compute; reflexivity.
Qed.

Definition field_ok (f : sfield) : bool :=
  content_ok (f_content f) && opt_ok (f_length f) && forallb attr_ok (f_attrs f)
  && opt_ok (f_cond f) && forallb prec_ok (f_sinks f).
Definition Field : part :=
  Part (N n_unit_field) (able (N n_unit_item)) next_begins (kinds [tIDENT; Ch ":"]) false.
Definition tail : list part := [Length; Attrs attrs_of_field; Cond; Sinks; Tok (Ch ";")].
Lemma fits_field f : field_ok f = true → fits (field_tree f) Field.
Proof.
  destruct f as [name c len attrs cond sinks]. unfold field_ok. cbn [f_content f_length f_attrs f_cond f_sinks].
  intros [[[[Hc Hl%fits_length]%andb_prop Ha%(fits_attrs _ attrs_of_field ltac:(left))]%andb_prop
    Hcond%fits_cond]%andb_prop Hs%fits_sinks]%andb_prop.
  pose proof (fits_name name) as Hn. unfold field_tree. cbn [f_name f_content f_length f_attrs f_cond f_sinks].
  destruct c as [b args|i args|a|s]; cbn [content_ok content_symbols content_trees app] in *.
  - apply andb_prop in Hc as [Hb Hargs%fits_args]. destruct (is_integer b) eqn:E.
    + destruct args; [done|].
      assert (fits (base_tree b) (Base in_fields)) by (apply fits_base; right; left).
      assert (fits (args_tree None) No_args) by by_rule (@nil part).
      by_rule (Name :: Base in_fields :: No_args :: tail).
    + apply fits_field_type in E. by_rule (Name :: Base base_in_field :: Args :: tail).
  - apply fits_args in Hc. pose proof (fits_field_id i). by_rule (Name :: Field_id :: Args :: tail).
  - apply fits_constant in Hc. by_rule (Name :: In_field n_constant :: tail).
  - assert (fits (nd n_ctor [T tCBYTES] [leaf (CBYTES s)]) (In_field n_ctor)) by by_rule [Tok tCBYTES].
    by_rule (Name :: In_field n_ctor :: tail).
Qed.

(** *** Items *)

Definition Init : part := Part (N n_init_expr) (able (N n_init_expr)) (kinds [tATTRIBUTE; Ch ";"]) (kinds [Ch "="]) false.
Lemma fits_init e : prec_ok e = true → fits (init_tree e) Init.
Proof. intros H%fits_expr. by_rule [Tok (Ch "="); Expr]. Qed.
Definition Opt_init : part :=
  Part (N n_opt_init_expr) (able (N n_opt_init_expr)) (kinds [tATTRIBUTE; Ch ";"]) (kinds [Ch "="]) true.
Lemma fits_opt_init o : opt_ok o = true → fits (opt_init_tree o) Opt_init.
Proof.
  destruct o as [e|]; cbn [opt_init_tree opt_tree opt_ok from_option]; intros H; [|by_rule (@nil part)].
  apply fits_init in H. by_rule [Init].
Qed.

Definition item_ok (i : sitem) : bool :=
  match i with
  | ItemVar _ _ init attrs => opt_ok init && forallb attr_ok attrs
  | ItemProp p => prop_ok p
  | ItemField f => field_ok f
  end.
Definition item_ends : list positive := item_begins ++ kinds [Ch "}"].
Definition Item : part := Part (N n_unit_item) (able (N n_unit_item)) item_ends item_begins false.
Definition Item_of (n : nonterm) : part := Part (N n) (able (N n_unit_item)) item_ends item_begins false.
Lemma fits_item i : item_ok i = true → fits (item_tree i) Item.
Proof.
  destruct i as [id t init attrs|p|f]; cbn [item_ok item_tree].
  - intros [Hi%fits_opt_init Ha%(fits_attrs _ attrs_alone ltac:(right; left))]%andb_prop.
    pose proof (fits_local_id id). pose proof (fits_type t).
    assert (fits (nd n_unit_var [T tVAR; N n_local_id; T (Ch ":"); N n_type; N n_opt_init_expr; N n_opt_type_attrs; T (Ch ";")]
      [leaf VAR; local_id id; ch ":"; type_tree t; opt_init_tree init; attrs_tree attrs; ch ";"]) (Item_of n_unit_var))
      by by_rule [Tok tVAR; Id_name; Tok (Ch ":"); Type_; Opt_init; Attrs attrs_alone; Tok (Ch ";")].
    by_rule [Item_of n_unit_var].
  - intros H%fits_prop.
    assert (fits (nd n_unit_prop [N n_property] [prop_tree p]) (Item_of n_unit_prop)) by by_rule [Property].
    by_rule [Item_of n_unit_prop].
  - intros H%fits_field. by_rule [Field].
Qed.
Definition Items : part := Part (N n_unit_items) (able (N n_unit_items)) (kinds [Ch "}"]) item_begins false.
Definition Opt_items : part := Part (N n_opt_unit_items) (able (N n_opt_unit_items)) (kinds [Ch "}"]) item_begins true.
Lemma fits_items l : forallb item_ok l = true → fits (items_tree l) Opt_items.
Proof.
  intros H%(Forall_fits _ _ _ _ fits_item).
  by apply (fits_opt_list _ _ _ Item Items); [|vm_compute; reflexivity..].
Qed.

Definition inst_ok (i : sinst) : bool :=
  match i with InstOf _ attrs => forallb attr_ok attrs | InstProp p => prop_ok p end.
Definition inst_begins : list positive := kinds [tIDENT; tPROPERTY].
Definition inst_ends : list positive := inst_begins ++ kinds [Ch "}"].
Definition Inst_of (n : nonterm) : part := Part (N n) (able (N n_inst_item)) inst_ends inst_begins false.
Definition Inst_id : part := Local_id (able (N n_inst_item)) (kinds [tATTRIBUTE; Ch ";"]).
Lemma fits_inst i : inst_ok i = true → fits (inst_tree i) (Inst_of n_inst_item).
Proof.
  destruct i as [id attrs|p]; cbn [inst_ok inst_tree].
  - intros Ha%(fits_attrs _ attrs_alone ltac:(right; left)).
    assert (fits (local_id id) Inst_id) by by_rule [Tok tIDENT].
    assert (fits (nd n_inst_field [N n_local_id; N n_opt_type_attrs; T (Ch ";")] [local_id id; attrs_tree attrs; ch ";"])
      (Inst_of n_inst_field)) by by_rule [Inst_id; Attrs attrs_alone; Tok (Ch ";")].
    by_rule [Inst_of n_inst_field].
  - intros H%fits_prop.
    assert (fits (nd n_inst_prop [N n_property] [prop_tree p]) (Inst_of n_inst_prop)) by by_rule [Property].
    by_rule [Inst_of n_inst_prop].
Qed.
Definition Insts : part := Part (N n_inst_items) (able (N n_inst_items)) (kinds [Ch "}"]) inst_begins false.
Definition Opt_insts : part := Part (N n_opt_inst_items) (able (N n_opt_inst_items)) (kinds [Ch "}"]) inst_begins true.
Lemma fits_insts l : forallb inst_ok l = true → fits (insts_tree l) Opt_insts.
Proof.
  intros H%(Forall_fits _ _ _ _ fits_inst).
  by apply (fits_opt_list _ _ _ (Inst_of n_inst_item) Insts); [|vm_compute; reflexivity..].
Qed.

(** *** Declarations *)

Definition decl_from : list positive := able (N n_global_decl).
Definition decl_ends : list positive := decl_begins ++ kinds [tEND].
Definition Decl_of (n : nonterm) : part := Part (N n) decl_from decl_ends decl_begins false.
Definition Linkage : part :=
  Part (N n_opt_linkage) decl_from (kinds [tCONST; tTYPE] ++ simple_begins) (kinds [tEXPORT]) true.
Lemma fits_linkage x : fits (linkage_tree x) Linkage.
Proof. destruct x; cbn [linkage_tree]; [by_rule [Tok tEXPORT]|by_rule (@nil part)]. Qed.

Definition Const_id : part := Local_id [state_after (header ++ [N n_opt_linkage; T tCONST])] (kinds [Ch ":"; Ch "="]).
Definition Type_id : part := Local_id [state_after (header ++ [N n_opt_linkage; T tTYPE])] (kinds [Ch "="]).
Definition Type_or_init : part :=
  Part (N n_type_or_init) (able (N n_type_or_init)) (kinds [Ch ";"]) (kinds [Ch ":"; Ch "="]) false.
Lemma fits_type_or_init o e : prec_ok e = true → fits (type_or_init o e) Type_or_init.
Proof.
  intros H%fits_init. destruct o as [b|]; cbn [type_or_init]; [|by_rule [Init]].
  assert (fits (base_tree b) (Base in_types)) by (apply fits_base; left).
  by_rule [Tok (Ch ":"); Base in_types; Init].
Qed.

(** The type of a declaration. *)
Definition type_state : positive := state_after (header ++ [N n_opt_linkage; T tTYPE; N n_local_id; T (Ch "=")]).
Definition Decl_type : part :=
  Part (N n_type) [type_state] (kinds [Ch ";"]) (kinds [tUNIT] ++ type_begins) false.
Lemma fits_decl_type t : fits (type_tree t) Decl_type.
Proof. by eapply fits_weaker; [|apply fits_type]. Qed.
Definition Unit_params : part :=
  Part (N n_opt_unit_params) (able (N n_opt_unit_params)) (kinds [Ch "{"]) (kinds [Ch "("]) true.
Lemma fits_unit_params o : fits (unit_params o) Unit_params.
Proof.
  destruct o as [l|]; cbn [unit_params opt_tree]; [|by_rule (@nil part)].
  pose proof (fits_opt_params l). by_rule [Tok (Ch "("); Opt_params; Tok (Ch ")")].
Qed.
Definition Unit_of (n : nonterm) : part := Part (N n) [type_state] (kinds [Ch ";"]) (kinds [tUNIT]) false.
Lemma fits_unit ps l : forallb item_ok l = true → fits (unit_tree ps l) Decl_type.
Proof.
  intros H%fits_items. pose proof (fits_unit_params ps). unfold unit_tree, of_base.
  set (u := nd n_unit _ _). set (a := nd n_atomic_type _ _). set (b := nd n_base_type _ _).
  assert (fits u (Unit_of n_unit)) by by_rule [Tok tUNIT; Unit_params; Tok (Ch "{"); Opt_items; Tok (Ch "}")].
  assert (fits a (Unit_of n_atomic_type)) by by_rule [Unit_of n_unit].
  assert (fits b (Unit_of n_base_type)) by by_rule [Unit_of n_atomic_type].
  by_rule [Unit_of n_base_type].
Qed.
Lemma fits_type_decl x id t : fits t Decl_type → fits (type_decl x id t) (Decl_of n_global_decl).
Proof.
  intros H. pose proof (fits_linkage x). unfold type_decl. set (d := nd n_type_decl _ _).
  assert (fits (local_id id) Type_id) by by_rule [Tok tIDENT].
  assert (fits d (Decl_of n_type_decl))
    by by_rule [Linkage; Tok tTYPE; Type_id; Tok (Ch "="); Decl_type; Tok (Ch ";")].
  by_rule [Decl_of n_type_decl].
Qed.

Definition decl_ok (d : sdecl) : bool :=
  match d with
  | SConst _ _ _ init => prec_ok init
  | SUnit _ _ _ items => forallb item_ok items
  | SInstantiate _ _ items => forallb inst_ok items
  | SProperty p => prop_ok p
  | SType _ _ _ | SFunction _ _ _ _ _ | SInclude _ | SImport _ => true
  end.

Lemma fits_const_decl x id o e : prec_ok e = true → fits (decl_tree (SConst x id o e)) (Decl_of n_global_decl).
Proof.
  intros H%(fits_type_or_init o). pose proof (fits_linkage x). cbn [decl_tree]. set (d := nd n_const_decl _ _).
  assert (fits (local_id id) Const_id) by by_rule [Tok tIDENT].
  assert (fits d (Decl_of n_const_decl)) by by_rule [Linkage; Tok tCONST; Const_id; Type_or_init; Tok (Ch ";")].
  by_rule [Decl_of n_const_decl].
Qed.
Definition Inst_unit : part := Scoped_id [state_after (header ++ [T tINSTANTIATE; T tUNIT])] (kinds [tAS]).
Definition Inst_name : part := Local_id [state_after (header ++ [T tINSTANTIATE; T tUNIT; N n_scoped_id; T tAS])] (kinds [Ch "{"]).
Lemma fits_instantiate u id l : forallb inst_ok l = true → fits (decl_tree (SInstantiate u id l)) (Decl_of n_global_decl).
Proof.
  intros H%fits_insts. cbn [decl_tree]. set (d := nd n_inst_decl _ _).
  assert (fits (scoped_id u) Inst_unit) by (destruct u; [by_rule [Tok tIDENT]|by_rule [Tok tSCOPED_IDENT]]).
  assert (fits (local_id id) Inst_name) by by_rule [Tok tIDENT].
  assert (fits d (Decl_of n_inst_decl)) by by_rule [Tok tINSTANTIATE; Tok tUNIT; Inst_unit; Tok tAS; Inst_name;
    Tok (Ch "{"); Opt_insts; Tok (Ch "}"); Tok (Ch ";")].
  by_rule [Decl_of n_inst_decl].
Qed.

Definition Result : part := Part (N n_rtype) [state_after (header ++ [N n_opt_linkage])] (kinds [tIDENT]) simple_begins false.
Definition No_const : part := Part (N n_opt_param_const) [state_after (header ++ [N n_opt_linkage])] simple_begins [] true.
Definition Result_type : part := Part (N n_type) [state_after (header ++ [N n_opt_linkage; N n_opt_param_const])] (kinds [tIDENT]) simple_begins false.
Definition Function_id : part := Local_id [state_after (header ++ [N n_opt_linkage; N n_rtype])] (kinds [Ch "("]).
Definition Code : part := Part (N n_cppblock) (able (N n_cppblock)) decl_ends (kinds [tBEGINCODE]) false.
Lemma fits_function x b id ps s : fits (decl_tree (SFunction x b id ps s)) (Decl_of n_global_decl).
Proof.
  pose proof (fits_linkage x). pose proof (fits_opt_params ps). cbn [decl_tree].
  set (d := nd n_func_decl _ _). set (r := nd n_rtype _ _) in d.
  assert (fits (base_tree b) (Base in_types)) by (apply fits_base; left).
  assert (fits (of_base (base_tree b)) Result_type) by by_rule [Base in_types].
  assert (fits (nd n_opt_param_const [] []) No_const) by by_rule (@nil part).
  assert (fits r Result) by by_rule [No_const; Result_type].
  assert (fits (local_id id) Function_id) by by_rule [Tok tIDENT].
  assert (fits (code_tree s) Code) by by_rule [Tok tBEGINCODE; Tok tCPPCODE; Tok tENDCODE].
  assert (fits d (Decl_of n_func_decl)) by by_rule [Linkage; Result; Function_id; Tok (Ch "("); Opt_params; Tok (Ch ")"); Code].
  by_rule [Decl_of n_func_decl].
Qed.

Definition Path_id : part := Part (N n_path_id) [state_after (header ++ [T tIMPORT])] (kinds [Ch ";"]) (kinds [tIDENT]) false.
Lemma fits_decl d : decl_ok d = true → fits (decl_tree d) (Decl_of n_global_decl).
Proof.
  destruct d as [x id o e|x id t|x id ps l|u id l|x b id ps s|p|file|name]; cbn [decl_ok]; intros H.
  - by apply fits_const_decl.
  - by apply fits_type_decl, fits_decl_type.
  - by apply fits_type_decl, fits_unit.
  - by apply fits_instantiate.
  - apply fits_function.
  - apply fits_prop in H. by_rule [Property].
  - cbn [decl_tree]. set (i := nd n_include _ _).
    assert (fits i (Decl_of n_include)) by by_rule [Tok tINCLUDE; Tok tCSTRING; Tok (Ch ";")].
    by_rule [Decl_of n_include].
  - cbn [decl_tree]. set (i := nd n_import _ _).
    assert (fits (nd n_path_id [T tIDENT] [leaf (IDENT name)]) Path_id) by by_rule [Tok tIDENT].
    assert (fits i (Decl_of n_import)) by by_rule [Tok tIMPORT; Path_id; Tok (Ch ";")].
    by_rule [Decl_of n_import].
Qed.

(** *** Modules *)

Definition Decls : part :=
  Part (N n_opt_global_decls) (able (N n_opt_global_decls)) (kinds [tEND]) decl_begins true.
Definition Module_id : part := Local_id [state_after [T tMODULE]] (kinds [Ch ";"]).
Definition Header : part :=
  Part (Mid 0) [state_after [T tMODULE; N n_local_id; T (Ch ";")]] decl_ends [] true.
Definition Module_part : part := Part (N n_module) [1%positive] (kinds [tEND]) (kinds [tMODULE]) false.
Lemma fits_module m : forallb decl_ok (s_decls m) = true → fits (module_tree m) Module_part.
Proof.
  intros H%(Forall_fits _ _ _ _ fits_decl). destruct m as [name decls]. cbn [s_decls] in H.
  unfold module_tree. cbn [s_name s_decls].
  assert (fits (list0 n_opt_global_decls n_global_decl (map decl_tree decls)) Decls)
    by (apply (fits_list0 _ _ (Decl_of n_global_decl)); [done|vm_compute; reflexivity..]).
  assert (fits (mid 0) Header) by by_rule (@nil part).
  assert (fits (local_id name) Module_id) by by_rule [Tok tIDENT].
  by_rule [Tok tMODULE; Module_id; Tok (Ch ";"); Header; Decls].
Qed.
End Reads.
Import Reads.

(** ** The tokens of the trees *)

Module Yields.

Local Abbreviation tokens := Automaton.yield.
(** A rule has the tokens of its parts. *)
Ltac tokens_of := cbn [nd leaf ch local_id Automaton.yield map concat app]; rewrite ?app_nil_r.

Lemma tokens_expr e : tokens (expr_tree e) = yield e.
Proof. unfold expr_tree. by rewrite yield_ex, yield_lift. Qed.
Lemma tokens_exprs l : l ≠ [] → tokens (exprs_tree l) = separated (map yield l).
Proof.
  intros Hl. unfold exprs_tree. rewrite yield_exprs by (by destruct l). rewrite map_map. f_equal.
  apply map_ext, tokens_expr.
Qed.
Lemma tokens_opt_exprs l : tokens (opt_exprs (map expr_tree l)) = separated (map yield l).
Proof.
  destruct l as [|e l]; [done|]. change (tokens (nd n_opt_exprs [N n_exprs] [exprs_tree (e :: l)]) = separated (map yield (e :: l))).
  tokens_of. by apply tokens_exprs.
Qed.
Lemma tokens_leaves l : concat (map tokens (map leaf l)) = l.
Proof. induction l as [|t l IH]; [done|]. cbn. by rewrite IH. Qed.
Lemma tokens_base b : tokens (base_tree b) = simple_tokens b.
Proof. unfold base_tree, simple_tree. tokens_of. apply tokens_leaves. Qed.
Lemma tokens_type t : tokens (type_tree t) = type_tokens t.
Proof.
  induction t as [b|i|t IH|t IH|t IH|k IHk v IHv]; cbn [type_tree type_tokens];
    unfold container, of_container, of_base, scoped_id; tokens_of; [apply tokens_base|done|congruence..].
Qed.
Lemma tokens_attr a : tokens (attr_tree a) = attr_tokens a.
Proof. destruct a as [k|k e|k e]; cbn [attr_tree attr_tokens]; tokens_of; rewrite ?tokens_expr; done. Qed.
Lemma tokens_list0 n x l : tokens (list0 n x l) = concat (map tokens l).
Proof. induction l as [|a l IH]; [done|]. cbn [list0]. tokens_of. by rewrite IH. Qed.
Lemma tokens_opt_list o n x l : tokens (opt_list o n x l) = concat (map tokens l).
Proof.
  destruct l as [|a l]; [done|]. cbn [opt_list]. tokens_of. revert a.
  induction l as [|b l IH]; intros a; cbn [list1]; tokens_of; [done|]. by rewrite IH.
Qed.
Lemma tokens_map {A} (f : A → dtree) g l : (∀ a, tokens (f a) = g a) → map tokens (map f l) = map g l.
Proof. intros H. rewrite map_map. by apply map_ext. Qed.
Lemma tokens_attrs l : tokens (attrs_tree l) = attrs_tokens l.
Proof. unfold attrs_tree, attrs_tokens. by rewrite tokens_list0, (tokens_map _ _ _ tokens_attr). Qed.
Lemma tokens_prop p : tokens (prop_tree p) = prop_tokens p.
Proof. destruct p; cbn [prop_tree prop_tokens]; tokens_of; [done|]. by rewrite tokens_expr. Qed.
Lemma tokens_params l : tokens (opt_params l) = separated (map param_tokens l).
Proof.
  assert (Hp : ∀ p, tokens (param_tree p) = param_tokens p).
  { intros [c s t]. unfold param_tree, param_tokens. tokens_of. cbn [sp_const sp_name sp_type]. rewrite tokens_type.
    by destruct c. }
  destruct l as [|p l]; [done|]. cbn [opt_params]. tokens_of. revert p.
  induction l as [|q l IH]; intros p; cbn [params1]; tokens_of; rewrite Hp; [cbn; by rewrite app_nil_r|].
  rewrite IH. cbn [map separated concat]. done.
Qed.
Lemma tokens_args o : tokens (args_tree o) = optional args_tokens o.
Proof.
  destruct o as [l|]; [|done]. cbn [args_tree opt_tree optional from_option]. tokens_of.
  rewrite tokens_opt_exprs. done.
Qed.
Lemma tokens_name o : tokens (name_tree o) = optional (λ s, [IDENT s]) o ++ [CHAR ":"].
Proof. by destruct o. Qed.
Lemma tokens_init e : tokens (init_tree e) = init_tokens e.
Proof. unfold init_tree, init_tokens. tokens_of. by rewrite tokens_expr. Qed.
Lemma tokens_opt_init o : tokens (opt_init_tree o) = optional init_tokens o.
Proof. destruct o; [|done]. cbn [opt_init_tree opt_tree optional from_option]. tokens_of. by rewrite tokens_init. Qed.
Lemma tokens_length o : tokens (length_tree o) = optional length_tokens o.
Proof. destruct o; [|done]. cbn [length_tree opt_tree optional from_option]. tokens_of. by rewrite tokens_expr. Qed.
Lemma tokens_cond o : tokens (cond_tree o) = optional cond_tokens o.
Proof. destruct o; [|done]. cbn [cond_tree opt_tree optional from_option]. tokens_of. by rewrite tokens_expr. Qed.
Lemma tokens_sinks l : tokens (sinks_tree l) = sinks_tokens l.
Proof.
  destruct l as [|e l]; [done|]. cbn [sinks_tree sinks_tokens]. tokens_of. by rewrite tokens_exprs.
Qed.
Lemma tokens_content c : concat (map tokens (content_trees c)) = content_tokens c.
Proof.
  destruct c; cbn [content_trees content_tokens]; unfold scoped_id, constant_tree; tokens_of;
    rewrite ?tokens_base, ?tokens_args; done.
Qed.
Lemma tokens_field f : tokens (field_tree f) = field_tokens f.
Proof.
  destruct f as [name c len attrs cond sinks]. unfold field_tree, field_tokens. tokens_of.
  cbn [f_name f_content f_length f_attrs f_cond f_sinks].
  rewrite map_app, concat_app, tokens_content, tokens_name. cbn [map concat].
  rewrite tokens_length, tokens_attrs, tokens_cond, tokens_sinks, <- app_assoc. done.
Qed.
Lemma tokens_item i : tokens (item_tree i) = item_tokens i.
Proof.
  destruct i; cbn [item_tree item_tokens]; tokens_of; rewrite ?tokens_type, ?tokens_opt_init, ?tokens_attrs;
    auto using tokens_prop, tokens_field.
Qed.
Lemma tokens_items l : tokens (items_tree l) = concat (map item_tokens l).
Proof. unfold items_tree. by rewrite tokens_opt_list, (tokens_map _ _ _ tokens_item). Qed.
Lemma tokens_inst i : tokens (inst_tree i) = inst_tokens i.
Proof. destruct i; cbn [inst_tree inst_tokens]; tokens_of; rewrite ?tokens_attrs; auto using tokens_prop. Qed.
Lemma tokens_linkage x : tokens (linkage_tree x) = linkage_tokens x.
Proof. by destruct x. Qed.
Lemma tokens_decl d : tokens (decl_tree d) = decl_tokens d.
Proof.
  destruct d as [x id o e|x id t|x id ps l|u id l|x b id ps s|p|file|name];
    cbn [decl_tree decl_tokens]; unfold type_decl, unit_tree, of_base, code_tree; tokens_of;
    rewrite ?tokens_linkage, ?tokens_type, ?tokens_base, ?tokens_params, ?tokens_items; auto using tokens_prop.
  - destruct o as [b|]; cbn [type_or_init optional from_option]; tokens_of; rewrite ?tokens_init, ?tokens_base; [|done].
    by rewrite <- !app_assoc.
  - replace (tokens (unit_params ps)) with (optional params_tokens ps); [|destruct ps as [ps|]; [|done]].
    + cbn [app]. rewrite <- !app_assoc. cbn [app]. by rewrite <- !app_assoc.
    + cbn [unit_params opt_tree optional from_option]. tokens_of. by rewrite tokens_params.
  - unfold insts_tree. rewrite tokens_opt_list, (tokens_map _ _ _ tokens_inst). by destruct u.
  - unfold params_tokens, in_parens. cbn [app]. by rewrite <- !app_assoc.
Qed.
Lemma tokens_module m : tokens (module_tree m) = module_tokens m.
Proof.
  unfold module_tree, module_tokens. tokens_of. rewrite tokens_list0, (tokens_map _ _ _ tokens_decl). done.
Qed.

End Yields.
