(* ===== verification/OnDemand.v ===== *)
(** * The parser drives the scanner ([src/src/spec/parser/driver.cpp], [parser.yy])

    [parse()] calls [yylex] for the next token only where the state needs it, and two semantic
    actions switch the start condition of the scanner in between.  It ends on every text and
    decides as [parse_tokens] does on the tokens it has read ([parse_on_demand]). *)

From S2P Require Import Prelude Util Ident Ast Units Regex Scanner Scanning Grammar Lalr LrCorrect Yacc Specs Embed.
From stdpp Require Import pmap.
Import Grammars Tables Automaton LrCorrect.Correctness Yacc.Symbols Yacc.Rules Specs.Numbers Embed.Building.
Import Scanner.Lexer Scanning.Progress.

Module Demand.

Local Abbreviation entry := (positive * dtree)%type.
Local Abbreviation action_at := (Automaton.action_at spec_grammar spec_analysis spec_table kind).
Local Abbreviation lr_step := (Automaton.step spec_grammar spec_analysis spec_table kind).

Section Demand.
  Context {L : Type} `{!Locations L} (strtod : string → double).

(** The stack of the parser, the token behind it once it is read ([Some []] for the end), the
    scanner, and the tokens it has returned. *)
Record machine := mkMachine {
  m_stack : list entry;
  m_look : option (list token);
  m_scanner : scanner L;
  m_read : list token }.

Definition needs_token (n : positive) : bool :=
  if spec_table !! n ≫= consistent spec_grammar is Some _ then false else true.
Definition fetch (m : machine) : outcome machine :=
  match m_look m with
  | Some _ => Ret m
  | None =>
      '(t, s) ← lex strtod (S (String.length (Lexer.input (m_scanner m)))) (m_scanner m);
      Ret (if is_end t then mkMachine (m_stack m) (Some []) s (m_read m)
           else mkMachine (m_stack m) (Some [t]) s (m_read m ++ [t]))
  end.

(** The mid-rule actions of [re_pattern_constant]. *)
Definition mid_action (r : positive) (s : scanner L) : outcome (scanner L) :=
  if (r =? mid_no 2)%positive then Ret (enablePatternMode s)
  else if (r =? mid_no 3)%positive then disablePatternMode s
  else Ret s.

Definition step (m : machine) : outcome (machine + (option dtree * machine)) :=
  m ← (if needs_token (top (m_stack m)) then fetch m else Ret m);
  let ts := default [] (m_look m) in
  r ← lr_step (mkConfig (m_stack m) ts);
  match r with
  | inr t => Ret (inr (t, m))
  | inl c =>
      match action_at (top (m_stack m)) ts with
      | Reduce r =>
          s ← mid_action r (m_scanner m);
          Ret (inl (mkMachine (Automaton.stack c) (m_look m) s (m_read m)))
      | _ => Ret (inl (mkMachine (Automaton.stack c) None (m_scanner m) (m_read m)))
      end
  end.
Fixpoint run (fuel : nat) (m : machine) : outcome (option dtree * machine) :=
  match fuel with
  | O => NoFuel
  | S fuel => r ← step m; match r with inl m => run fuel m | inr r => Ret r end
  end.

(** [parser_->parse()] with a scanner on a text. *)
Definition demand_fuel (text : string) : nat :=
  S (Validation.height spec_potential 1 + Validation.cost spec_potential * (2 * String.length text)).
Definition parse_text (text : string) (l : L) : outcome (option dtree * machine) :=
  run (demand_fuel text) (mkMachine [] None (new_scanner text l) []).

(** [Driver::parse]: the module is kept if neither the scanner nor the parser nor a semantic
    action has called [error]. *)
Definition driver_parse (stream_name text : string) (l : L) (st : pstate) : outcome (option pstate) :=
  '(r, m) ← parse_text text l;
  match r with
  | Some t => if (0 <? Lexer.errors (m_scanner m))%Z then Ret None else run_tree stream_name t st
  | None => Ret None
  end.

End Demand.
Arguments machine : clear implicits.

End Demand.
Import Demand.

(** ** The start conditions between two tokens *)

Module Modes.
Section Modes.
  Context {L : Type} `{!Locations L} (strtod : string → double).

(** In a pattern the start condition stays; a code block is open only behind [BEGINCODE]. *)
Definition keeps_mode (s : scanner L) (o : option token) (s' : scanner L) : Prop :=
  (Lexer.start s = RE → Lexer.start s' = RE ∧ Lexer.stack s' = Lexer.stack s) ∧
  (Lexer.start s' = EC → o = Some BEGINCODE ∨ o = None).

Lemma match_one_mode s o s' : wf s → Lexer.input s ≠ "" →
  match_one strtod s = Ret (o, s') → keeps_mode s o s'.
Proof.
  intros (W1 & W2 & W3) Hi. unfold match_one.
  destruct (next_progress strtod (Lexer.start s) (Lexer.input s) Hi) as (n & a & En & Hn). rewrite En. cbv zeta.
  apply next_Some in En as (w & rest & r & i & Es & -> & Hr & _).
  pose proof (proj1 (list.Forall_forall _ _) (action_ok strtod (Lexer.start s)) _
    (list_elem_of_lookup_2 _ _ _ Hr)) as Ha. cbn [fst snd] in Ha.
  unfold keeps_mode. destruct a; cbn -[String.append Nat.mul]; cbn [action_of] in Ha; intros E.
  all: try (injection E as <- <-; cbn; split; [done|by right]).
  - destruct (f _) as [t| | |]; cbn in E; try done. injection E as <- <-. cbn. split; [done|]. by intros ?%Ha.
  - injection E as <- <-. cbn. rewrite Ha. split; [done|by left].
  - destruct Ha as [Hc _]. rewrite Hc. unfold yy_pop_state in E. cbn -[String.append] in E.
    destruct (Lexer.stack s) as [|c st] eqn:Est; [done|]. cbn -[String.append] in E. injection E as <- <-. cbn.
    split; [done|]. intros ->. destruct W1. by left.
Qed.

Lemma lex_mode s t s' : wf s → lex strtod (S (String.length (Lexer.input s))) s = Ret (t, s') →
  (Lexer.start s = RE → Lexer.start s' = RE ∧ Lexer.stack s' = Lexer.stack s) ∧
  (Lexer.start s' = EC → t = BEGINCODE ∨ t = END).
Proof.
  unfold lex. change (Lexer.input s) with (Lexer.input (set_loc Lexer.step s)) at 1.
  intros Hw. assert (Hw' : wf (set_loc Lexer.step s)) by done.
  change (Lexer.start s) with (Lexer.start (set_loc Lexer.step s)).
  change (Lexer.stack s) with (Lexer.stack (set_loc Lexer.step s)).
  revert Hw'. generalize (set_loc Lexer.step s) (S (String.length (Lexer.input (set_loc Lexer.step s)))).
  clear Hw s. intros s fuel. revert s. induction fuel as [|fuel IH]; intros s Hw E; [done|]. cbn [lex_loop] in E.
  destruct (String.eqb_spec (Lexer.input s) "") as [Hi|Hi]; [injection E as <- <-; split; [done|by right]|].
  destruct (match_one strtod s) as [[o s1]| | |] eqn:Em; try done. cbn [mbind outcome_bind] in E.
  pose proof (match_one_mode s o s1 Hw Hi Em) as [M1 M2]. pose proof (match_one_ends strtod s Hw Hi) as Hm.
  rewrite Em in Hm. destruct Hm as (Hw1 & _). cbn [snd] in Hw1. destruct o as [t1|].
  - injection E as <- <-. split; [done|]. intros [[= ->]|?]%M2; [by left|done].
  - destruct (IH s1 Hw1 E) as [I1 I2]. split; [|done]. intros [H1 H2]%M1. destruct (I1 H1) as [H3 H4].
    split; [done|congruence].
Qed.

End Modes.
End Modes.
Import Modes.

(** ** The states of a pattern *)

Module Pattern.

Local Abbreviation action_at := (Automaton.action_at spec_grammar spec_analysis spec_table kind).

Definition slash_state : positive := Eval vm_compute in state_after (Contexts.at_init ++ [T (Ch "/")]).
Definition mid_state : positive := Eval vm_compute in state_after (Contexts.at_init ++ [T (Ch "/"); Mid 2]).
Definition regexp_state : positive :=
  Eval vm_compute in state_after (Contexts.at_init ++ [T (Ch "/"); Mid 2; T tCREGEXP]).
Definition code_state : positive :=
  Eval vm_compute in state_after (Contexts.header ++
    [N n_opt_linkage; N n_rtype; N n_local_id; T (Ch "("); N n_opt_params; T (Ch ")"); T tBEGINCODE]).

(** Which symbols lead to these states, and where the two actions are. *)
Definition leads (n x m : positive) : bool :=
  implb (m =? slash_state)%positive (x =? number (T (Ch "/")))%positive &&
  implb (m =? mid_state)%positive (x =? number (Mid 2))%positive &&
  implb (m =? regexp_state)%positive ((x =? number (T tCREGEXP)) && (n =? mid_state))%positive &&
  implb (x =? number (T tBEGINCODE))%positive (m =? code_state)%positive.
Definition reduces (n r : positive) : bool :=
  implb (r =? mid_no 2)%positive (n =? slash_state)%positive &&
  implb (r =? mid_no 3)%positive (n =? regexp_state)%positive.
Lemma table_checked :
  forallb (λ ns, forallb (λ xm, leads ns.1 xm.1 xm.2) (map_to_list (gotos ns.2)) &&
                 forallb (λ rl, reduces ns.1 rl.1) (reductions ns.2)) (map_to_list spec_table) = true.
Proof. vm_compute. reflexivity. Qed.
Lemma rules_checked :
  forallb (λ rr, implb (lhs rr.2 =? number (Mid 2))%positive (rr.1 =? mid_no 2)%positive &&
                 negb (is_token spec_grammar (lhs rr.2))) (map_to_list (rule_at spec_analysis)) = true.
Proof. vm_compute. reflexivity. Qed.
Lemma mid_rule_2 : rhs <$> rule_at spec_analysis !! mid_no 2 = Some [] ∧ goto slash_state (Mid 2) = Some mid_state.
Proof. by split. Qed.
Lemma waits_not : needs_token slash_state = false ∧ needs_token regexp_state = false ∧
  needs_token code_state = true.
Proof. by split_and!. Qed.

Lemma implb_eqb (p q : positive) b : implb (p =? q)%positive b = true → p = q → b = true.
Proof. intros H ->. by rewrite Pos.eqb_refl in H. Qed.

Lemma goto_leads n x m : Tables.goto spec_table n x = Some m →
  (m = slash_state → x = number (T (Ch "/"))) ∧ (m = mid_state → x = number (Mid 2)) ∧
  (m = regexp_state → x = number (T tCREGEXP) ∧ n = mid_state) ∧ (x = number (T tBEGINCODE) → m = code_state).
Proof.
  unfold Tables.goto. destruct (spec_table !! n) as [st|] eqn:E; [|done]. cbn. intros H.
  pose proof (forallb_lookup _ _ _ _ table_checked E) as [H1 _]%andb_prop.
  apply (forallb_lookup (λ xm, leads n xm.1 xm.2) (gotos st) x m) in H1; [|done]. unfold leads in H1. cbn [fst snd] in H1.
  apply andb_prop in H1 as [[[L1 L2]%andb_prop L3]%andb_prop L4].
  split_and!; intros Em.
  - by apply Pos.eqb_eq, (implb_eqb _ _ _ L1).
  - by apply Pos.eqb_eq, (implb_eqb _ _ _ L2).
  - apply (implb_eqb _ _ _ L3), andb_prop in Em as [??]. split; by apply Pos.eqb_eq.
  - by apply Pos.eqb_eq, (implb_eqb _ _ _ L4).
Qed.
Lemma action_reduces n ts r : action_at n ts = Reduce r →
  (r = mid_no 2 → n = slash_state) ∧ (r = mid_no 3 → n = regexp_state).
Proof.
  intros H. pose proof (action_at_spec _ _ _ _ kind spec_valid kind_token n ts) as Hs. rewrite H in Hs.
  destruct Hs as (_ & st & la & E & Hin). pose proof (forallb_lookup _ _ _ _ table_checked E) as [_ H1]%andb_prop.
  cbn [fst snd] in H1. rewrite forallb_forall in H1. apply list_elem_of_In in Hin. specialize (H1 (r, la) Hin).
  apply andb_prop in H1 as [R1 R2]. cbn [fst] in R1, R2.
  split; intros Er; apply Pos.eqb_eq; [by apply (implb_eqb _ _ _ R1)|by apply (implb_eqb _ _ _ R2)].
Qed.
Lemma rule_leads r ru : rule_at spec_analysis !! r = Some ru →
  (lhs ru = number (Mid 2) → r = mid_no 2) ∧ is_token spec_grammar (lhs ru) = false.
Proof.
  intros H. pose proof (forallb_lookup _ _ _ _ rules_checked H) as [H1 H2]%andb_prop. cbn [fst snd] in *.
  split; [|by apply negb_true_iff]. intros Er. by apply Pos.eqb_eq, (implb_eqb _ _ _ H1).
Qed.

(** What is known of the scanner. *)
Definition modes {L} (n : positive) (look : option (list token)) (s : scanner L) : Prop :=
  wf s ∧ (n = slash_state → look = None) ∧
  (n = mid_state ∨ n = regexp_state → Lexer.start s = RE ∧ Lexer.stack s ≠ []) ∧
  (Lexer.start s = EC →
    match look with None => n = code_state | Some [t] => t = BEGINCODE | Some _ => True end).

Section Modes.
  Context {L : Type} `{!Locations L} (strtod : string → double).

Lemma fetch_modes n (s s' : scanner L) t :
  needs_token n = true → modes n None s →
  lex strtod (S (String.length (Lexer.input s))) s = Ret (t, s') →
  modes n (Some (if is_end t then [] else [t])) s'.
Proof.
  intros Hn (Hw & _ & Hp & _) E. destruct (lex_mode strtod s t s' Hw E) as [L1 L2].
  pose proof (lex_ends strtod s Hw) as He. rewrite E in He. destruct He as [Hw' _]. cbn [snd] in Hw'.
  pose proof waits_not as (S1 & _). split_and!; [done| | |].
  - intros ->. by rewrite S1 in Hn.
  - intros [H1 H2]%Hp. destruct (L1 H1) as [? ->]. done.
  - intros [->| ->]%L2; done.
Qed.

(** A token is shifted. *)
Lemma shift_modes n m t (s : scanner L) :
  modes n (Some [t]) s → Tables.goto spec_table n (kind t) = Some m → modes m None s.
Proof.
  intros (Hw & _ & Hp & Hc) (G1 & G2 & G3 & G4)%goto_leads.
  assert (m ≠ mid_state).
  { intros Hm%G2. apply (number_inj (T _) (Mid 2)) in Hm. done. }
  split_and!; [done|done| |].
  - intros [?|[_ Hn]%G3]; [done|]. apply Hp. by left.
  - intros Ht%Hc. apply G4. by subst t.
Qed.

(** A rule is reduced: the two actions find the scanner as they need it. *)
Lemma reduced_state r ru n m : rule_at spec_analysis !! r = Some ru →
  Tables.goto spec_table n (lhs ru) = Some m → m ≠ slash_state ∧ m ≠ regexp_state ∧ (m = mid_state → r = mid_no 2).
Proof.
  intros [R1 R2]%rule_leads (G1 & G2 & G3 & _)%goto_leads. split_and!; [| |by intros ?%G2%R1].
  - intros Hm%G1. by rewrite Hm in R2.
  - intros [Hm _]%G3. by rewrite Hm in R2.
Qed.

Lemma enable_modes m (s : scanner L) : modes slash_state None s → m = mid_state →
  modes m None (enablePatternMode s) ∧ Progress.measure (enablePatternMode s) = Progress.measure s.
Proof.
  intros ((W1 & W2 & W3) & _ & _ & Hc) ->.
  assert (Hs : Lexer.start s ≠ EC) by (by intros ?%Hc).
  unfold enablePatternMode, yy_push_state, Progress.measure, modes, wf. cbn.
  split_and!; try done; [by rewrite not_elem_of_cons|auto|by destruct (Lexer.start s)].
Qed.
Lemma disable_modes m look (s : scanner L) : modes regexp_state look s →
  m ≠ slash_state ∧ m ≠ regexp_state ∧ m ≠ mid_state →
  ∃ s', disablePatternMode s = Ret s' ∧ modes m look s' ∧ Progress.measure s' = Progress.measure s.
Proof.
  intros ((W1 & W2 & W3) & _ & Hp & _) (H1 & H2 & H3). destruct Hp as [Hs Hst]; [by right|].
  unfold disablePatternMode, yy_pop_state. destruct (Lexer.stack s) as [|c st]; [done|]. eexists. split; [done|].
  apply not_elem_of_cons in W1 as [Hc W1]. unfold modes, wf, Progress.measure. cbn. rewrite Hs.
  split_and!; try done; [intros _; apply W3; by rewrite Hs|by intros [?|?]|by destruct c].
Qed.

Lemma mid_goto ru n m : rule_at spec_analysis !! mid_no 2 = Some ru → (rhs ru = [] → n = slash_state) →
  Tables.goto spec_table n (lhs ru) = Some m → m = mid_state.
Proof.
  intros Hr Hn Hg.
  assert (E : rhs <$> Some ru = Some [] ∧ lhs <$> Some ru = Some (number (Mid 2))) by (rewrite <- Hr; by split).
  destruct E as [[= E1] [= E2]]. rewrite (Hn E1), E2 in Hg. vm_compute in Hg. by injection Hg as <-.
Qed.

Lemma reduce_modes n n' m ts r ru look (s : scanner L) :
  modes n look s → (look = None → needs_token n = false) →
  action_at n ts = Reduce r → rule_at spec_analysis !! r = Some ru →
  (rhs ru = [] → n' = n) → Tables.goto spec_table n' (lhs ru) = Some m →
  ∃ s', mid_action r s = Ret s' ∧ modes m look s' ∧ Progress.measure s' = Progress.measure s.
Proof.
  intros Hm Hl [A2 A3]%action_reduces Hr Hn Hg. destruct (reduced_state r ru n' m Hr Hg) as (N1 & N2 & N3).
  unfold mid_action. destruct (Pos.eqb_spec r (mid_no 2)) as [->|Hr2].
  - specialize (A2 eq_refl). subst n. pose proof Hm as (_ & Hlook & _). specialize (Hlook eq_refl). subst look.
    eexists. split; [done|]. apply enable_modes; [done|]. by eapply mid_goto.
  - destruct (Pos.eqb_spec r (mid_no 3)) as [->|Hr3].
    + rewrite (A3 eq_refl) in Hm. apply disable_modes; [done|]. split_and!; try done. by intros ?%N3.
    + exists s. split; [done|]. split; [|done]. destruct Hm as (Hw & _ & _ & Hc). split_and!; try done.
      * by intros [?%N3|?].
      * intros Hs. specialize (Hc Hs). destruct look as [l|]; [done|]. specialize (Hl eq_refl). subst n.
        by pose proof waits_not as (_ & _ & ?).
Qed.

End Modes.
End Pattern.
Import Pattern.

(** ** Reading on demand and reading a list of tokens *)

Module Simulation.

Local Abbreviation action_at := (Automaton.action_at spec_grammar spec_analysis spec_table kind).
Local Abbreviation lr_step := (Automaton.step spec_grammar spec_analysis spec_table kind).
Local Abbreviation steps := (LrCorrect.Correctness.steps spec_grammar spec_analysis spec_table kind).
Local Abbreviation keeps := (LrCorrect.Correctness.keeps spec_grammar spec_analysis spec_table kind).
Local Abbreviation measure := (LrCorrect.Correctness.measure spec_analysis spec_potential kind).
Local Abbreviation push := (Automaton.push spec_analysis spec_table kind).

(** A step does not see more than the next token. *)
Lemma step_more st ts more :
  action_at (top st) (ts ++ more) = action_at (top st) ts →
  (action_at (top st) ts = Shift → ts ≠ []) → (action_at (top st) ts = Accept → ts ≠ [] ∨ more = []) →
  lr_step (mkConfig st (ts ++ more)) =
    match lr_step (mkConfig st ts) with
    | Ret (inl c) => Ret (inl (mkConfig (Automaton.stack c) (Automaton.input c ++ more)))
    | o => o
    end.
Proof.
  intros Ha Hs Hacc. unfold Automaton.step. cbn [Automaton.stack Automaton.input]. rewrite Ha.
  destruct (action_at (top st) ts) as [|r| |]; [..|done].
  - destruct ts as [|t ts]; [by destruct Hs|]. cbn [app]. by destruct (push (Leaf t) st).
  - destruct (rule_at spec_analysis !! r) as [ru|]; [|done]. destruct (_ <? _); [done|].
    by destruct (push _ _).
  - destruct Hacc as [Ht| ->]; [done| |by rewrite app_nil_r; destruct ts, st as [|[] []]].
    by destruct ts.
Qed.

Lemma steps_keep ts c c' : steps c c' → keeps ts c → keeps ts c'.
Proof.
  induction 1 as [|c c1 c2 Hs _ IH]; [done|]. intros Hk. apply IH.
  pose proof (step_spec _ _ _ _ kind spec_valid kind_token ts c Hk) as H. rewrite Hs in H. apply H.
Qed.
Lemma steps_end ts c r : steps (mkConfig [] ts) c → lr_step c = Ret (inr r) → parse_tokens ts = Ret r.
Proof.
  intros Hs Hr. eapply (steps_run _ _ _ _ kind spec_valid kind_token); [exact Hs|exact Hr| |by split].
  unfold LrCorrect.Correctness.measure, fuel_for. cbn. lia.
Qed.

Section Simulation.
  Context {L : Type} `{!Locations L} (strtod : string → double).

Definition pending (m : machine L) : list token := default [] (m_look m).
Record inv (m : machine L) : Prop := {
  inv_modes : modes (top (m_stack m)) (m_look m) (m_scanner m);
  inv_look : length (pending m) ≤ 1;
  inv_runs more : (m_look m = Some [] → more = []) →
    steps (mkConfig [] (m_read m ++ more)) (mkConfig (m_stack m) (pending m ++ more)) }.

(** What is left to do; nothing is read behind the end. *)
Definition to_read (m : machine L) : nat :=
  match m_look m with Some [] => 0 | _ => Progress.measure (m_scanner m) end.
Definition left_over (m : machine L) : nat :=
  measure (mkConfig (m_stack m) (pending m)) + Validation.cost spec_potential * to_read m.

Lemma inv_keeps m more : inv m → (m_look m = Some [] → more = []) →
  keeps (m_read m ++ more) (mkConfig (m_stack m) (pending m ++ more)).
Proof. intros Hi Hm. eapply steps_keep; [by apply inv_runs|by split]. Qed.

Lemma fetch_inv m : inv m → needs_token (top (m_stack m)) = true →
  ends (λ m', inv m' ∧ m_look m' ≠ None ∧ m_stack m' = m_stack m ∧ left_over m' ≤ left_over m) (fetch strtod m).
Proof.
  intros Hi Hn. unfold fetch. destruct (m_look m) as [l|] eqn:El; [split_and!; [done|by rewrite El|done|done]|].
  pose proof (inv_modes m Hi) as Hm. rewrite El in Hm.
  pose proof (lex_ends strtod (m_scanner m) (proj1 Hm)) as He.
  destruct (lex strtod _ (m_scanner m)) as [[t s]| | |] eqn:E; try done. cbn [ends mbind outcome_bind fst snd] in He |- *.
  pose proof (fetch_modes strtod _ _ _ _ Hn Hm E) as Hm'.
  assert (Hold : ∀ more, steps (mkConfig [] (m_read m ++ more)) (mkConfig (m_stack m) more)).
  { intros more. pose proof (inv_runs m Hi more) as H. unfold pending in H. rewrite El in H. by apply H. }
  assert (Hl : left_over m = measure (mkConfig (m_stack m) []) + Validation.cost spec_potential * Progress.measure (m_scanner m)).
  { unfold left_over, to_read, pending. by rewrite El. }
  rewrite Hl. destruct (is_end t) eqn:Et.
  - split; [split; [done|cbn; lia|]|split; [done|split; [done|]]].
    + intros more H. rewrite (H eq_refl). apply Hold.
    + unfold left_over, pending, to_read. cbn [m_look m_stack default from_option Datatypes.id]. lia.
  - split; [split; [done|cbn; lia|]|split; [done|split; [done|]]].
    + intros more _. cbn [m_look m_read m_stack]. rewrite <- app_assoc. apply Hold.
    + destruct He as [_ [[-> _]|[_ Hlt]]]; [done|]. unfold left_over, pending, to_read, LrCorrect.Correctness.measure.
      cbn [m_look m_stack m_scanner default from_option Datatypes.id Automaton.stack Automaton.input length]. nia.
Qed.

(** After the end or an error. *)
Definition verdict (r : option dtree * machine L) : Prop :=
  if m_look r.2 is Some [] then parse_tokens (m_read r.2) = Ret r.1
  else r.1 = None ∧ ∀ more, parse_tokens (m_read r.2 ++ more) = Ret None.

(** A step of the parser with what it has read; the state has asked for a token if it needs one. *)
Definition parser_step (m : machine L) : outcome (machine L + (option dtree * machine L)) :=
  let ts := pending m in
  r ← lr_step (mkConfig (m_stack m) ts);
  match r with
  | inr t => Ret (inr (t, m))
  | inl c =>
      match action_at (top (m_stack m)) ts with
      | Reduce r =>
          s ← mid_action r (m_scanner m);
          Ret (inl (mkMachine (Automaton.stack c) (m_look m) s (m_read m)))
      | _ => Ret (inl (mkMachine (Automaton.stack c) None (m_scanner m) (m_read m)))
      end
  end.

Lemma action_more m more : (m_look m = None → needs_token (top (m_stack m)) = false) →
  (m_look m = Some [] → more = []) →
  action_at (top (m_stack m)) (pending m ++ more) = action_at (top (m_stack m)) (pending m).
Proof.
  intros Hn Hm. unfold pending. destruct (m_look m) as [[|t l]|]; cbn [default from_option Datatypes.id].
  - by rewrite Hm.
  - done.
  - specialize (Hn eq_refl). unfold needs_token in Hn. unfold Automaton.action_at.
    destruct (spec_table !! _) as [st|]; [|done]. cbn in Hn. by destruct (consistent spec_grammar st).
Qed.
Lemma action_ends m : (m_look m = None → needs_token (top (m_stack m)) = false) →
  inv m → (action_at (top (m_stack m)) (pending m) = Shift → ∃ t, m_look m = Some [t]) ∧
  (action_at (top (m_stack m)) (pending m) = Accept → m_look m ≠ None).
Proof.
  intros Hn Hi.
  assert (Hc : m_look m = None → ∃ r, action_at (top (m_stack m)) (pending m) = Reduce r).
  { intros El. specialize (Hn El). unfold needs_token in Hn. unfold Automaton.action_at.
    destruct (spec_table !! _) as [st|]; [|done]. cbn in Hn. destruct (consistent spec_grammar st) as [r|]; [|done].
    by exists r. }
  pose proof (inv_look m Hi) as Hl. unfold pending in *. destruct (m_look m) as [[|t [|]]|]; cbn [default from_option Datatypes.id length] in *.
  - split; [|done]. intros Ha. pose proof (action_at_spec _ _ _ _ kind spec_valid kind_token (top (m_stack m)) []) as H.
    rewrite Ha in H. destruct H as [k Hk]. by apply (goto_spec _ _ _ spec_potential kind spec_valid kind_token) in Hk as (_ & ? & _).
  - split; [by exists t|done].
  - lia.
  - destruct (Hc eq_refl) as [r Hr]. rewrite Hr. split; done.
Qed.

(** What the parser does with more tokens behind those it has read. *)
Lemma machine_more m more : inv m → (m_look m = None → needs_token (top (m_stack m)) = false) →
  (m_look m = Some [] → more = []) →
  lr_step (mkConfig (m_stack m) (pending m ++ more)) =
    match lr_step (mkConfig (m_stack m) (pending m)) with
    | Ret (inl c) => Ret (inl (mkConfig (Automaton.stack c) (Automaton.input c ++ more)))
    | o => o
    end.
Proof.
  intros Hi Hn Hm. destruct (action_ends m Hn Hi) as [H1 H2]. apply step_more; [by apply action_more|..].
  - intros [t Ht]%H1. unfold pending. by rewrite Ht.
  - intros Ha%H2. unfold pending. destruct (m_look m) as [[|]|]; [right; by apply Hm|by left|done].
Qed.

Lemma steps_inv m m' : inv m → (m_look m = None → needs_token (top (m_stack m)) = false) →
  m_read m' = m_read m → (m_look m' = Some [] → m_look m = Some []) →
  lr_step (mkConfig (m_stack m) (pending m)) = Ret (inl (mkConfig (m_stack m') (pending m'))) →
  (m_look m = Some [] → m_look m' = Some []) →
  ∀ more, (m_look m' = Some [] → more = []) →
  steps (mkConfig [] (m_read m' ++ more)) (mkConfig (m_stack m') (pending m' ++ more)).
Proof.
  intros Hi Hn -> Hl Hs Hl' more Hm. assert (Hm' : m_look m = Some [] → more = []) by auto.
  eapply (steps_trans _ _ _ spec_potential kind spec_valid kind_token); [by apply (inv_runs m Hi)|].
  eapply steps_next; [|apply steps_refl]. rewrite (machine_more m more Hi Hn Hm'), Hs. done.
Qed.

Lemma shift_inv m t c : inv m → m_look m = Some [t] → action_at (top (m_stack m)) [t] = Shift →
  lr_step (mkConfig (m_stack m) [t]) = Ret (inl c) →
  inv (mkMachine (Automaton.stack c) None (m_scanner m) (m_read m)).
Proof.
  intros Hi Hl Ha Hs. pose proof (inv_modes m Hi) as Hm. rewrite Hl in Hm.
  unfold Automaton.step in Hs. cbn [Automaton.stack Automaton.input] in Hs. rewrite Ha in Hs.
  unfold Automaton.push in Hs. cbn [Automaton.symbol_of mbind option_bind] in Hs.
  destruct (Tables.goto spec_table (top (m_stack m)) (kind t)) as [k|] eqn:Eg; [|done].
  cbn [mbind outcome_bind] in Hs. injection Hs as <-. split; cbn [m_stack m_look m_scanner].
  - by eapply shift_modes.
  - cbn. lia.
  - apply (steps_inv m (mkMachine ((k, Leaf t) :: m_stack m) None (m_scanner m) (m_read m))); try done; [by rewrite Hl| |by rewrite Hl].
    unfold pending. rewrite Hl. cbn [default from_option Datatypes.id]. unfold Automaton.step.
    cbn [Automaton.stack Automaton.input]. rewrite Ha. unfold Automaton.push.
    cbn [Automaton.symbol_of mbind option_bind]. by rewrite Eg.
Qed.


Lemma reduce_inv m r c : inv m → (m_look m = None → needs_token (top (m_stack m)) = false) →
  action_at (top (m_stack m)) (pending m) = Reduce r → lr_step (mkConfig (m_stack m) (pending m)) = Ret (inl c) →
  ∃ s, mid_action r (m_scanner m) = Ret s ∧ Progress.measure s = Progress.measure (m_scanner m) ∧
    Automaton.input c = pending m ∧ inv (mkMachine (Automaton.stack c) (m_look m) s (m_read m)).
Proof.
  intros Hi Hn Ha Hs. pose proof Hs as Hs'. unfold Automaton.step in Hs. cbn [Automaton.stack Automaton.input] in Hs.
  rewrite Ha in Hs. destruct (rule_at spec_analysis !! r) as [ru|] eqn:Er; [|done]. destruct (_ <? _) eqn:El; [done|].
  unfold Automaton.push in Hs. cbn [Automaton.symbol_of] in Hs. rewrite Er in Hs.
  cbn [mbind option_bind fmap option_fmap option_map] in Hs.
  destruct (Tables.goto spec_table (top (drop (length (rhs ru)) (m_stack m))) (lhs ru)) as [k|] eqn:Eg; [|done].
  cbn [mbind outcome_bind] in Hs. injection Hs as <-.
  destruct (reduce_modes _ (top (drop (length (rhs ru)) (m_stack m))) k _ r ru _ _ (inv_modes m Hi) Hn Ha Er) as (s & Es & Hm & Hc);
    [by intros ->|done|].
  exists s. split_and!; try done. set (st := _ :: _) in *. split; [done|apply (inv_look m Hi)|].
  intros more Hmore. by apply (steps_inv m (mkMachine st (m_look m) s (m_read m))).
Qed.

Definition returns {A} (P : A → Prop) (o : outcome A) : Prop := if o is Ret a then P a else False.

(** Each step is a step of the parser on the tokens, and there is less to do after it. *)
Lemma parser_step_inv m : inv m → (m_look m = None → needs_token (top (m_stack m)) = false) →
  returns (λ r, match r with inl m' => inv m' ∧ left_over m' < left_over m | inr r => verdict r end) (parser_step m).
Proof.
  intros Hi Hn. pose proof (action_ends m Hn Hi) as [A1 A2].
  pose proof (inv_keeps m [] Hi ltac:(done)) as Hk. rewrite !app_nil_r in Hk.
  pose proof (step_spec _ _ _ _ kind spec_valid kind_token _ _ Hk) as H. unfold parser_step.
  destruct (lr_step (mkConfig (m_stack m) (pending m))) as [[c|t]| | |] eqn:Es; try done;
    cbn [mbind outcome_bind]; [destruct H as [_ H]|clear H].
  - destruct (action_at (top (m_stack m)) (pending m)) as [|r| |] eqn:Ea; try (
      unfold Automaton.step in Es; cbn [Automaton.stack Automaton.input] in Es; rewrite Ea in Es;
      by repeat case_match).
    + destruct (A1 eq_refl) as [t Ht]. assert (Hp : pending m = [t]) by (unfold pending; by rewrite Ht).
      rewrite Hp in *. split; [by eapply shift_inv|].
      assert (Automaton.input c = []).
      { unfold Automaton.step in Es. cbn [Automaton.stack Automaton.input] in Es. rewrite Ea in Es.
        destruct (push (Leaf t) (m_stack m)); try done. by injection Es as <-. }
      destruct c as [st inp]. cbn [Automaton.stack Automaton.input] in *. subst inp.
      unfold left_over, to_read. rewrite Ht, Hp. cbn [m_stack m_look m_scanner].
      change (pending (mkMachine st None (m_scanner m) (m_read m))) with (@nil token). lia.
    + destruct (reduce_inv m r c Hi Hn Ea Es) as (s & -> & Hc & Hin & Hi'). cbn [returns mbind outcome_bind]. split; [done|].
      destruct c as [st inp]. cbn [Automaton.stack Automaton.input] in *. subst inp.
      unfold left_over, to_read. cbn [m_stack m_look m_scanner]. rewrite Hc.
      change (pending (mkMachine st (m_look m) s (m_read m))) with (pending m). lia.
  - assert (Hmore : ∀ more, (m_look m = Some [] → more = []) → parse_tokens (m_read m ++ more) = Ret t).
    { intros more Hm. eapply steps_end; [by apply (inv_runs m Hi)|]. by rewrite (machine_more m more Hi Hn Hm), Es. }
    unfold verdict. cbn [returns fst snd]. destruct (m_look m) as [[|u l]|] eqn:El.
    + specialize (Hmore [] ltac:(done)). by rewrite app_nil_r in Hmore.
    + assert (t = None) as ->; [|split; [done|intros more; by apply Hmore]].
      unfold Automaton.step, pending in Es. rewrite El in Es.
      cbn [Automaton.stack Automaton.input default from_option Datatypes.id] in Es.
      destruct (action_at (top (m_stack m)) (u :: l)) as [|r| |]; [by destruct (push (Leaf u) (m_stack m))| |by injection Es as <-..].
      destruct (rule_at spec_analysis !! r) as [ru|]; [|done]. destruct (_ <? _); [done|]. by destruct (push _ _).
    + exfalso. destruct (action_at (top (m_stack m)) (pending m)) as [|r| |] eqn:Ea.
      * by destruct (A1 eq_refl).
      * unfold Automaton.step in Es. cbn [Automaton.stack Automaton.input] in Es. rewrite Ea in Es.
        destruct (rule_at spec_analysis !! r) as [ru|]; [|done]. destruct (_ <? _); [done|]. by destruct (push _ _).
      * by apply A2.
      * unfold pending in Ea. rewrite El in Ea. cbn in Ea. specialize (Hn eq_refl). unfold needs_token in Hn.
        unfold Automaton.action_at in Ea. destruct (spec_table !! _) as [st|]; [|done]. cbn in Hn.
        by destruct (consistent spec_grammar st).
Qed.

Lemma step_inv m : inv m →
  ends (λ r, match r with inl m' => inv m' ∧ left_over m' < left_over m | inr r => verdict r end) (step strtod m).
Proof.
  intros Hi. change (step strtod m) with
    (m ← (if needs_token (top (m_stack m)) then fetch strtod m else Ret m); parser_step m).
  destruct (needs_token (top (m_stack m))) eqn:En.
  2: { pose proof (parser_step_inv m Hi ltac:(done)) as H. cbn [mbind outcome_bind]. by destruct (parser_step m). }
  pose proof (fetch_inv m Hi En) as Hf. destruct (fetch strtod m) as [m1| | |]; try done.
  cbn [ends mbind outcome_bind] in *. destruct Hf as (Hi1 & Hl1 & Est & Hle).
  pose proof (parser_step_inv m1 Hi1 ltac:(done)) as Hs. destruct (parser_step m1) as [[m2|r]| | |]; try done.
  cbn [ends] in *. destruct Hs. split; [done|lia].
Qed.
Lemma run_inv fuel m : inv m → left_over m < fuel → ends verdict (run strtod fuel m).
Proof.
  revert m. induction fuel as [|fuel IH]; intros m Hi Hf; [lia|]. cbn [run]. pose proof (step_inv m Hi) as Hs.
  destruct (step strtod m) as [[m'|r]| | |]; try done. cbn [ends mbind outcome_bind] in *. destruct Hs.
  apply IH; [done|lia].
Qed.

Lemma new_inv text l : inv (mkMachine [] None (new_scanner text l) []).
Proof.
  split; [|cbn; lia|intros more _; apply steps_refl].
  split; [split_and!; [apply not_elem_of_nil|done|done]|]. split_and!; try done. by intros [?|?].
Qed.
Lemma new_left_over text l : left_over (mkMachine [] None (new_scanner text l) []) < demand_fuel text.
Proof.
  unfold left_over, demand_fuel, to_read, LrCorrect.Correctness.measure, Progress.measure. cbn -[Nat.mul]. lia.
Qed.

(** *** Texts without patterns

    The scanner then returns the tokens it returns without the parser. *)

Definition is_regexp (t : token) : bool := match t with CREGEXP _ => true | _ => false end.
Definition outside (n : positive) : Prop := n ≠ mid_state ∧ n ≠ regexp_state.

Lemma mid_state_fails ts : match ts with t :: _ => is_regexp t = false | [] => True end →
  action_at mid_state ts = Tables.Fail.
Proof.
  intros H. destruct ts as [|t ts]; [by vm_compute|]. destruct t; try done; try (by vm_compute).
  destruct c as [[] [] [] [] [] [] [] []]; by vm_compute.
Qed.

Definition follows_scan (ts : list token) (s_end : scanner L) (m : machine L) : Prop :=
  outside (top (m_stack m)) ∧
  ∃ rest, ts = m_read m ++ rest ∧
    match m_look m with
    | Some [] => rest = [] ∧ m_scanner m = s_end
    | _ => ∃ f, tokens strtod f (m_scanner m) = Ret (rest, s_end)
    end.

Lemma fetch_scan ts s_end m : follows_scan ts s_end m →
  ∃ m', fetch strtod m = Ret m' ∧ follows_scan ts s_end m'.
Proof.
  intros (Ho & rest & Et & Hr). unfold fetch. destruct (m_look m) as [l|] eqn:El.
  { exists m. split; [done|]. split; [done|]. exists rest. by rewrite El. }
  destruct Hr as [[|f] Hf]; [done|]. cbn [tokens] in Hf.
  destruct (lex strtod _ (m_scanner m)) as [[t s]| | |]; try done. cbn [mbind outcome_bind] in *. destruct (is_end t) eqn:E.
  - injection Hf as <- <-. eexists. split; [done|]. split; [done|]. by exists [].
  - destruct (tokens strtod f s) as [[ts' s']| | |] eqn:Ef; try done. cbn [mbind outcome_bind] in Hf.
    injection Hf as <- <-. eexists. split; [done|]. split; [done|]. exists ts'. cbn [m_read m_look m_scanner].
    rewrite <- app_assoc. split; [done|]. by exists f.
Qed.

(** In front of a pattern the parser would fail without its token. *)
Lemma mid_state_stuck ts m more : inv m → top (m_stack m) = mid_state → ts = m_read m ++ more →
  (m_look m = Some [] → more = []) → forallb (negb ∘ is_regexp) ts = true → parse_tokens ts = Ret None.
Proof.
  intros Hi Ht -> Hm Hr. pose proof (inv_keeps m more Hi Hm) as [_ Hy]. cbn [Automaton.stack Automaton.input] in Hy.
  rewrite <- Hy, forallb_app in Hr. apply andb_prop in Hr as [_ Hr].
  eapply steps_end; [by apply (inv_runs m Hi)|]. unfold Automaton.step. cbn [Automaton.stack Automaton.input].
  rewrite Ht, mid_state_fails; [done|]. destruct (pending m ++ more); [done|]. cbn in Hr.
  apply andb_prop in Hr as [Hr _]. by apply negb_true_iff in Hr.
Qed.

Lemma parser_step_scan ts s_end m t m' : inv m → (m_look m = None → needs_token (top (m_stack m)) = false) →
  follows_scan ts s_end m → parse_tokens ts = Ret (Some t) → forallb (negb ∘ is_regexp) ts = true →
  parser_step m = Ret (inl m') → inv m' → follows_scan ts s_end m'.
Proof.
  intros Hi Hn (Ho & rest & Et & Hr) Hp Hre Hs Hi'. unfold parser_step in Hs.
  pose proof (action_ends m Hn Hi) as [A1 _].
  destruct (lr_step (mkConfig (m_stack m) (pending m))) as [[c|]| | |] eqn:Es; try done. cbn [mbind outcome_bind] in Hs.
  destruct (action_at (top (m_stack m)) (pending m)) as [|r| |] eqn:Ea; try (
    unfold Automaton.step in Es; cbn [Automaton.stack Automaton.input] in Es; rewrite Ea in Es;
    by repeat case_match).
  - injection Hs as <-. destruct (A1 eq_refl) as [u Hu]. rewrite Hu in Hr.
    split; [|by exists rest]. cbn [m_stack]. destruct Ho as [Ho1 Ho2].
    assert (Hp' : pending m = [u]) by (unfold pending; by rewrite Hu). rewrite Hp' in *.
    unfold Automaton.step in Es. cbn [Automaton.stack Automaton.input] in Es. rewrite Ea in Es.
    unfold Automaton.push in Es. cbn [Automaton.symbol_of mbind option_bind] in Es.
    destruct (Tables.goto spec_table _ (kind u)) as [k|] eqn:Eg; [|done]. cbn [mbind outcome_bind] in Es.
    injection Es as <-. cbn [Automaton.stack top]. destruct (goto_leads _ _ _ Eg) as (_ & G2 & G3 & _). split.
    + intros Hk%G2. by apply (number_inj (T _) (Mid 2)) in Hk.
    + by intros [_ ?]%G3.
  - destruct (reduce_inv m r c Hi Hn Ea Es) as (s & Hs' & _ & Hin & _). rewrite Hs' in Hs.
    cbn [mbind outcome_bind] in Hs. injection Hs as <-.
    assert (Hlook : m_look m = Some [] → rest = []) by (intros E; rewrite E in Hr; apply Hr).
    assert (Htop : outside (top (Automaton.stack c)) ∧ mid_action r (m_scanner m) = Ret (m_scanner m)); [|].
    { destruct (action_reduces _ _ _ Ea) as [A2 A3].
      unfold Automaton.step in Es. cbn [Automaton.stack Automaton.input] in Es. rewrite Ea in Es.
      destruct (rule_at spec_analysis !! r) as [ru|] eqn:Er; [|done]. destruct (_ <? _) eqn:El; [done|].
      unfold Automaton.push in Es. cbn [Automaton.symbol_of] in Es. rewrite Er in Es.
      cbn [mbind option_bind fmap option_fmap option_map] in Es.
      destruct (Tables.goto spec_table (top (drop (length (rhs ru)) (m_stack m))) (lhs ru)) as [k|] eqn:Eg; [|done].
      cbn [mbind outcome_bind] in Es. injection Es as <-. cbn [Automaton.stack top] in *.
      destruct (reduced_state r ru _ k Er Eg) as (_ & N2 & N3).
      assert (Hr2 : r ≠ mid_no 2).
      { intros ->. assert (k = mid_state) as ->.
        { eapply mid_goto; [exact Er| |exact Eg]. intros ->. by rewrite <- A2. }
        assert (E : parse_tokens ts = Ret None); [|by rewrite E in Hp].
        by apply (mid_state_stuck ts _ rest Hi'). }
      split; [split; [by intros ?%N3|done]|]. unfold mid_action.
      destruct (Pos.eqb_spec r (mid_no 2)); [done|]. destruct (Pos.eqb_spec r (mid_no 3)) as [->|]; [|done].
      destruct Ho as [_ Ho]. by destruct (Ho (A3 eq_refl)). }
    destruct Htop as [Htop Hsame]. rewrite Hsame in Hs'. injection Hs' as <-. split; [done|]. by exists rest.
Qed.

Lemma run_scan fuel ts s_end m t : inv m → left_over m < fuel → follows_scan ts s_end m →
  parse_tokens ts = Ret (Some t) → forallb (negb ∘ is_regexp) ts = true →
  ∃ m', run strtod fuel m = Ret (Some t, m') ∧ m_scanner m' = s_end ∧ m_read m' = ts.
Proof.
  revert m. induction fuel as [|fuel IH]; intros m Hi Hf Hs Hp Hre; [lia|]. cbn [run].
  pose proof (step_inv m Hi) as Hstep. change (step strtod m) with
    (m ← (if needs_token (top (m_stack m)) then fetch strtod m else Ret m); parser_step m) in *.
  assert (∃ m1, (if needs_token (top (m_stack m)) then fetch strtod m else Ret m) = Ret m1 ∧ inv m1 ∧
    (m_look m1 = None → needs_token (top (m_stack m1)) = false) ∧ follows_scan ts s_end m1)
    as (m1 & E1 & Hi1 & Hn1 & Hs1).
  { destruct (needs_token (top (m_stack m))) eqn:En; [|by exists m].
    destruct (fetch_scan ts s_end m Hs) as (m1 & E1 & Hs1). pose proof (fetch_inv m Hi En) as H. rewrite E1 in H.
    destruct H as (? & ? & ? & _). by exists m1. }
  rewrite E1 in *. cbn [mbind outcome_bind] in *.
  pose proof (parser_step_inv m1 Hi1 Hn1) as H1.
  destruct (parser_step m1) as [[m2|[r m2]]| | |] eqn:E2; try done; cbn [ends returns mbind outcome_bind] in *.
  - destruct Hstep as [Hi2 Hl2]. apply IH; try done; [lia|]. by eapply parser_step_scan.
  - assert (m2 = m1) as ->.
    { unfold parser_step in E2. destruct (lr_step _) as [[c|]| | |]; try done; cbn [mbind outcome_bind] in E2; [|by injection E2].
      destruct (action_at _ _) as [|r'| |]; try done. by destruct (mid_action r' (m_scanner m1)). }
    unfold verdict in H1. cbn [fst snd] in H1. destruct Hs1 as (_ & rest & Et & Hr1).
    destruct (m_look m1) as [[|]|].
    + destruct Hr1 as [-> Hsc]. rewrite app_nil_r in Et. exists m1. rewrite <- Et, Hp in H1. by injection H1 as <-.
    + destruct H1 as [_ H1]. rewrite Et, H1 in Hp. done.
    + destruct H1 as [_ H1]. rewrite Et, H1 in Hp. done.
Qed.

End Simulation.
End Simulation.
Import Simulation.

(** A text whose tokens are a specification without patterns. *)
Lemma parse_text_scan {L : Type} `{!Locations L} (strtod : string → double) text (l : L) ts s t :
  scan strtod text l = Ret (ts, s) → parse_tokens ts = Ret (Some t) → forallb (negb ∘ is_regexp) ts = true →
  ∃ m, parse_text strtod text l = Ret (Some t, m) ∧ m_scanner m = s.
Proof.
  intros Hs Hp Hre. destruct (run_scan strtod (demand_fuel text) ts s (mkMachine [] None (new_scanner text l) []) t)
    as (m & Hr & Hm & _); try done.
  - apply new_inv.
  - apply new_left_over.
  - split; [by split|]. exists ts. split; [done|]. by eexists.
  - by exists m.
Qed.

(** C8: The parser that drives the scanner ends on every text: the stack of start conditions is
    never empty when a pattern ends, and the text is used up or an error is found.  If it reads
    the text to its end, it finds what [parse_tokens] finds in the tokens; if it stops before,
    no tokens behind those it has read would make them a specification.  An escape sequence
    of a string may throw. *)
Theorem parse_on_demand {L : Type} `{!Locations L} (strtod : string → double) text (l : L) :
  match parse_text strtod text l with
  | Ret (r, m) =>
      match m_look m with
      | Some [] => parse_tokens (m_read m) = Ret r
      | _ => r = None ∧ ∀ more, parse_tokens (m_read m ++ more) = Ret None
      end
  | Throw _ => True
  | Abort _ | NoFuel => False
  end.
Proof.
  pose proof (run_inv strtod (demand_fuel text) _ (new_inv text l)) as H. unfold parse_text, ends, verdict in *.
  destruct (run strtod _ _) as [[r m]| | |]; apply H, new_left_over.
Qed.
