(* ===== verification/SpecMeans.v ===== *)
(** * What written specifications mean

    The values of the derivation trees of [SpecRead.v] are what [Source.v] declares; with the
    scanner, a written specification is read as what it declares ([specification_read_back]). *)

From S2P Require Import Prelude Util Ident Ast Units Scanner Grammar Precedence Lalr LrCorrect Yacc Specs Embed Values Source SpecRead.
From S2P Require Import Regex Scanning ReadBack OnDemand.
From stdpp Require Import pmap.
Import Grammars Automaton Yacc.Symbols Yacc.Rules Values.Meaning Values.Expressions.
Import Grammar.Syntax Precedence.Allowed Embed.Building Embed.Lift Source.Syntax Source.Declared.
Import SpecRead.Trees Scanner.Lexer Scanning.Texts ReadBack.Spelling OnDemand.Demand OnDemand.Simulation.

Module Means.
Section Means.
  Context (sn : string).

Lemma bind_ret_r {A} (m : M A) st : bind m ret st = m st.
Proof. unfold bind. destruct (m st) as [[[a s]|]| | |]; reflexivity. Qed.
Lemma bind_assoc {A B C} (m : M A) (f : A → M B) (g : B → M C) st :
  bind (bind m f) g st = bind m (λ a, bind (f a) g) st.
Proof. unfold bind. destruct (m st) as [[[a s]|]| | |]; reflexivity. Qed.
Lemma bind_ret_l {A B} (a : A) (f : A → M B) st : bind (ret a) f st = f a st.
Proof. reflexivity. Qed.

(** The value of a rule: both sides do the same, one argument after the other. *)
Ltac same_effects :=
  intros ?st; cbn [run_action p_act p_rhs rule rule_prec fst snd];
  repeat first [reflexivity
    | rewrite !bind_assoc | rewrite !bind_ret_l
    | apply bind_ext; [reflexivity|]; intros ? ?
    | etrans; [|apply bind_ret_r]; apply bind_ext; [reflexivity|]; intros ? ? ].
Ltac by_means := unfold leaf, ch in *; means_rule_of; [args_of|solve [same_effects]].

Lemma means_expr e : means sn (expr_tree e) (N n_expr) (expr_value sn e).
Proof. apply gives_ex, gives_lift. Qed.

Lemma lift_values l st : lift_option (all_values (map (action sn) l)) st = all (expr_value sn) l st.
Proof.
  induction l as [|e l IH]; [done|]. cbn [map all]. unfold expr_value at 1.
  unfold all_values in *. cbn [mapM]. destruct (action sn e) as [x|]; [|done].
  cbn [lift_option mbind option_bind]. rewrite bind_ret_l. unfold bind. rewrite <- IH.
  by destruct (mapM (λ o, o) (map (action sn) l)).
Qed.
Lemma all_expr_trees l : all_give sn (map expr_tree l) (map (action sn) l).
Proof. apply all_give_lift, list.Forall_true. intros e. apply gives_lift. Qed.
Lemma means_exprs l : l ≠ [] → means sn (exprs_tree l) (N n_exprs) (all (expr_value sn) l).
Proof.
  intros Hl. eapply means_ext; [|apply lift_values]. apply gives_exprs; [by destruct l|]. apply all_expr_trees.
Qed.
Lemma means_opt_exprs l : means sn (opt_exprs (map expr_tree l)) (N n_opt_exprs) (all (expr_value sn) l).
Proof. eapply means_ext; [|apply lift_values]. apply gives_opt_exprs, all_expr_trees. Qed.

Lemma means_base b : means sn (base_tree b) (N n_base_type) (ret (simple_value b)).
Proof.
  assert (means sn (simple_tree b) (N n_atomic_type) (ret (simple_value b))).
  { unfold simple_tree. destruct b as [| | | | | | | |[]|[] w]; cbn [simple_tokens map]; by_means. }
  unfold base_tree. by_means.
Qed.

Lemma means_scoped i : means sn (scoped_id i) (N n_scoped_id) (ret (sid_value i)).
Proof. unfold scoped_id. destruct i; cbn [sid_token]; by_means. Qed.
Lemma means_local_id s : means sn (local_id s) (N n_local_id) (ret (Units.id_of_string s)).
Proof. apply gives_local_id. Qed.

Lemma means_container x t : means sn x (N n_container_type) (ret t) → means sn (of_container x) (N n_type) (ret t).
Proof.
  intros H. unfold of_container, of_base.
  assert (means sn (nd n_base_type [N n_container_type] [x]) (N n_base_type) (ret t)) by by_means.
  by_means.
Qed.
Lemma means_type t : means sn (type_tree t) (N n_type) (ret (type_value t)).
Proof.
  induction t as [b|i|t IH|t IH|t IH|k IHk v IHv]; cbn [type_tree type_value].
  - pose proof (means_base b). unfold of_base. by_means.
  - pose proof (means_scoped i). by_means.
  - apply means_container. by_means.
  - apply means_container. by_means.
  - apply means_container. by_means.
  - apply means_container. by_means.
Qed.

Lemma means_attr a : means sn (attr_tree a) (N n_type_attr) (attr_value sn a).
Proof.
  destruct a as [k|k e|k e]; cbn [attr_tree]; [by_means|pose proof (means_expr e); by_means..].
Qed.
Lemma means_attrs l : means sn (attrs_tree l) (N n_opt_type_attrs) (all (attr_value sn) l).
Proof.
  unfold attrs_tree. induction l as [|a l IH]; cbn [map list0]; [by_means|]. pose proof (means_attr a). by_means.
Qed.
Lemma means_prop p : means sn (prop_tree p) (N n_property) (ret (prop_value sn p)).
Proof.
  destruct p as [k|k a]; cbn [prop_tree]; [by_means|]. pose proof (means_expr (TAtom a)). by_means.
Qed.
Lemma means_param p : means sn (param_tree p) (N n_param) (ret (param_value p)).
Proof.
  destruct p as [c s t]. unfold param_tree. cbn [sp_const sp_name sp_type].
  pose proof (means_local_id s). pose proof (means_type t).
  assert (means sn (if c then nd n_opt_param_const [T tCONST] [leaf CONST] else nd n_opt_param_const [] [])
    (N n_opt_param_const) (ret c)) by (destruct c; by_means).
  by_means.
Qed.
Lemma means_params p l : means sn (params1 p l) (N n_params) (ret (map param_value (p :: l))).
Proof.
  revert p. induction l as [|q l IH]; intros p; pose proof (means_param p); cbn [params1]; [by_means|].
  specialize (IH q). by_means.
Qed.
Lemma means_opt_params l : means sn (opt_params l) (N n_opt_params) (ret (map param_value l)).
Proof. destruct l as [|p l]; cbn [opt_params]; [by_means|]. pose proof (means_params p l). by_means. Qed.
Lemma means_args o : means sn (args_tree o) (N n_opt_field_args) (args_value sn o).
Proof.
  destruct o as [l|]; cbn [args_tree opt_tree]; [|by_means]. pose proof (means_opt_exprs l).
  unfold args_value. cbn [default from_option]. by_means.
Qed.
Lemma means_init e : means sn (init_tree e) (N n_init_expr) (expr_value sn e).
Proof. pose proof (means_expr e). unfold init_tree. by_means. Qed.
Lemma means_opt_init o : means sn (opt_init_tree o) (N n_opt_init_expr) (optional_value (expr_value sn) o).
Proof.
  destruct o as [e|]; cbn [opt_init_tree opt_tree optional_value]; [|by_means]. pose proof (means_init e). by_means.
Qed.
Lemma means_length o : means sn (length_tree o) (N n_opt_unit_vector_len) (optional_value (expr_value sn) o).
Proof.
  destruct o as [e|]; cbn [length_tree opt_tree optional_value]; [|by_means]. pose proof (means_expr e). by_means.
Qed.
Lemma means_cond o : means sn (cond_tree o) (N n_opt_unit_field_cond) (optional_value (expr_value sn) o).
Proof.
  destruct o as [e|]; cbn [cond_tree opt_tree optional_value]; [|by_means]. pose proof (means_expr e). by_means.
Qed.
Lemma means_sinks l : means sn (sinks_tree l) (N n_opt_unit_field_sinks) (all (expr_value sn) l).
Proof.
  destruct l as [|e l]; cbn [sinks_tree]; [by_means|]. pose proof (means_exprs (e :: l) ltac:(done)). by_means.
Qed.
Lemma means_name o : means sn (name_tree o) (N n_opt_unit_field_name) (ret (Units.id_of_string <$> o)).
Proof. destruct o as [s|]; cbn [name_tree]; [pose proof (means_local_id s)|]; by_means. Qed.
Lemma means_constant a : Reads.atom_is_constant a = true →
  means sn (constant_tree a) (N n_constant) (lift_option (atom_constant sn a)).
Proof. unfold constant_tree. destruct a; try done; intros _; cbn [atom_token]; by_means. Qed.

Lemma means_field f : Reads.content_ok (f_content f) = true → means sn (field_tree f) (N n_unit_field) (field_value sn f).
Proof.
  destruct f as [name c len attrs cond sinks]. unfold field_tree, field_value.
  cbn [f_name f_content f_length f_attrs f_cond f_sinks]. intros Hc.
  pose proof (means_name name). pose proof (means_length len). pose proof (means_attrs attrs).
  pose proof (means_cond cond). pose proof (means_sinks sinks).
  destruct c as [b args|i args|a|s]; cbn [Reads.content_ok content_symbols content_trees app tail_symbols] in *.
  - pose proof (means_base b). pose proof (means_args args). by_means.
  - pose proof (means_scoped i). pose proof (means_args args). by_means.
  - pose proof (means_constant a Hc) as H4.
    assert (∃ c, atom_constant sn a = Some c) as [c Ec] by (destruct a; try done; by eexists).
    rewrite Ec in *. cbn [lift_option] in *. by_means.
  - assert (means sn (nd n_ctor [T tCBYTES] [leaf (CBYTES s)]) (N n_ctor) (ret (CtorBytes s))) by by_means. by_means.
Qed.
Lemma means_item i : Reads.item_ok i = true → means sn (item_tree i) (N n_unit_item) (item_value sn i).
Proof.
  destruct i as [id t init attrs|p|f]; cbn [Reads.item_ok item_tree item_value]; intros Hok.
  - pose proof (means_local_id id). pose proof (means_type t). pose proof (means_opt_init init). pose proof (means_attrs attrs).
    set (v := nd n_unit_var _ _).
    assert (means sn v (N n_unit_var) (item_value sn (ItemVar id t init attrs))) by (subst v; cbn [item_value]; by_means).
    cbn [item_value] in *. by_means.
  - pose proof (means_prop p). set (v := nd n_unit_prop _ _).
    assert (means sn v (N n_unit_prop) (item_value sn (ItemProp p))) by (subst v; cbn [item_value]; by_means).
    cbn [item_value] in *. by_means.
  - assert (means sn (field_tree f) (N n_unit_field) (field_value sn f)).
    { apply means_field. unfold Reads.field_ok in Hok. by repeat apply andb_prop in Hok as [Hok _]. }
    by_means.
Qed.
Lemma means_items l : forallb Reads.item_ok l = true →
  means sn (items_tree l) (N n_opt_unit_items) (all (item_value sn) l).
Proof.
  unfold items_tree. destruct l as [|i l]; intros Hl; cbn [map opt_list]; [by_means|].
  assert (means sn (list1 n_unit_items n_unit_item (item_tree i) (map item_tree l)) (N n_unit_items)
    (all (item_value sn) (i :: l))); [|by_means].
  revert i Hl. induction l as [|j l IH]; intros i [Hi%means_item Hl]%andb_prop; cbn [map list1]; [by_means|].
  specialize (IH j Hl). by_means.
Qed.

Lemma means_inst i : means sn (inst_tree i) (N n_inst_item) (inst_value sn i).
Proof.
  destruct i as [id attrs|p]; cbn [inst_tree].
  - pose proof (means_local_id id). pose proof (means_attrs attrs). set (v := nd n_inst_field _ _).
    assert (means sn v (N n_inst_field) (inst_value sn (InstOf id attrs))) by (subst v; cbn [inst_value]; by_means).
    by_means.
  - pose proof (means_prop p). set (v := nd n_inst_prop _ _).
    assert (means sn v (N n_inst_prop) (inst_value sn (InstProp p))) by (subst v; cbn [inst_value]; by_means).
    by_means.
Qed.
Lemma means_insts l : means sn (insts_tree l) (N n_opt_inst_items) (all (inst_value sn) l).
Proof.
  unfold insts_tree. destruct l as [|i l]; cbn [map opt_list]; [by_means|].
  assert (means sn (list1 n_inst_items n_inst_item (inst_tree i) (map inst_tree l)) (N n_inst_items)
    (all (inst_value sn) (i :: l))); [|by_means].
  revert i. induction l as [|j l IH]; intros i; pose proof (means_inst i); cbn [map list1]; [by_means|].
  specialize (IH j). by_means.
Qed.

(** *** Declarations *)

Lemma means_linkage x : means sn (linkage_tree x) (N n_opt_linkage) (ret (linkage x)).
Proof. destruct x; cbn [linkage_tree]; by_means. Qed.
Lemma means_type_decl x id t m : means sn t (N n_type) m →
  means sn (type_decl x id t) (N n_global_decl)
    (t ⇐ m; _ ⇐ export x;
     ret (Some (DeclType (Units.id_of_string id) (linkage x) t))).
Proof.
  intros Ht. unfold type_decl. pose proof (means_linkage x). pose proof (means_local_id id).
  set (d := nd n_type_decl _ _).
  assert (means sn d (N n_type_decl)
    (t ⇐ m; _ ⇐ export x;
     ret (DeclType (Units.id_of_string id) (linkage x) t))) by (subst d; unfold export; destruct x; by_means).
  by_means.
Qed.
Lemma means_const_decl x id o e :
  means sn (decl_tree (SConst x id o e)) (N n_global_decl) (decl_value sn (SConst x id o e)).
Proof.
  pose proof (means_linkage x). pose proof (means_local_id id). pose proof (means_init e).
  assert (means sn (type_or_init o e) (N n_type_or_init)
    (e ⇐ expr_value sn e; ret (from_option simple_value (type_of e) o, e))).
  { destruct o as [b|]; cbn [type_or_init from_option]; [pose proof (means_base b)|]; by_means. }
  cbn [decl_tree decl_value]. set (d := nd n_const_decl _ _).
  assert (means sn d (N n_const_decl) (e ⇐ expr_value sn e;
    if canCoerceTo e (from_option simple_value (type_of e) o)
    then ret (DeclConstant (Units.id_of_string id) (linkage x) e) else error)).
  { subst d. unfold leaf, ch. means_rule_of; [args_of|]. same_effects. }
  means_rule_of; [args_of|]. same_effects. by destruct (canCoerceTo _ _).
Qed.
Lemma means_function x b id ps s :
  means sn (decl_tree (SFunction x b id ps s)) (N n_global_decl) (decl_value sn (SFunction x b id ps s)).
Proof.
  pose proof (means_linkage x). pose proof (means_local_id id). pose proof (means_opt_params ps).
  pose proof (means_base b). cbn [decl_tree decl_value]. set (d := nd n_func_decl _ _). set (r := nd n_rtype _ _) in d.
  assert (means sn (nd n_opt_param_const [] []) (N n_opt_param_const) (ret false)) by by_means.
  assert (means sn (of_base (base_tree b)) (N n_type) (ret (simple_value b))) by (unfold of_base; by_means).
  assert (means sn r (N n_rtype) (ret (simple_value b, false))) by (subst r; by_means).
  assert (means sn (code_tree s) (N n_cppblock) (ret s)) by (unfold code_tree; by_means).
  assert (means sn d (N n_func_decl) (_ ⇐ the_module;
    ret (DeclFunction (mkFunction (Units.id_of_string id) (simple_value b, false) (map param_value ps) s) (linkage x))))
    by (subst d; by_means).
  by_means.
Qed.
Lemma means_unit ps l : forallb Reads.item_ok l = true →
  means sn (unit_tree ps l) (N n_type)
    (items ⇐ all (item_value sn) l; newUnit (map param_value (default [] ps)) items).
Proof.
  intros H%means_items. unfold unit_tree, of_base. set (u := nd n_unit _ _). set (a := nd n_atomic_type _ _).
  set (b := nd n_base_type _ _). set (v := items ⇐ _; _).
  assert (means sn (unit_params ps) (N n_opt_unit_params) (ret (map param_value (default [] ps)))).
  { destruct ps as [ps|]; cbn [unit_params opt_tree]; [pose proof (means_opt_params ps)|]; by_means. }
  assert (means sn u (N n_unit) v) by (subst u v; by_means).
  assert (means sn a (N n_atomic_type) v) by (subst a; by_means).
  assert (means sn b (N n_base_type) v) by (subst b; by_means).
  by_means.
Qed.

Lemma means_decl d : Reads.decl_ok d = true → means sn (decl_tree d) (N n_global_decl) (decl_value sn d).
Proof.
  destruct d as [x id o e|x id t|x id ps l|u id l|x b id ps s|p|file|name]; cbn [Reads.decl_ok]; intros Hok.
  - apply means_const_decl.
  - eapply means_ext; [apply means_type_decl, means_type|]. done.
  - eapply means_ext; [apply means_type_decl, means_unit, Hok|]. cbn [decl_value]. intros st. by rewrite bind_assoc.
  - pose proof (means_scoped u). pose proof (means_local_id id). pose proof (means_insts l).
    cbn [decl_tree decl_value]. set (d := nd n_inst_decl _ _).
    assert (means sn d (N n_inst_decl) (items ⇐ all (inst_value sn) l;
      ret (DeclInstantiation (Units.id_of_string id) (sid_value u) items))) by (subst d; by_means).
    by_means.
  - apply means_function.
  - pose proof (means_prop p). cbn [decl_tree decl_value]. by_means.
  - cbn [decl_tree decl_value]. set (i := nd n_include _ _).
    assert (means sn i (N n_include) (include file)) by (subst i; by_means). by_means.
  - cbn [decl_tree decl_value]. set (i := nd n_import _ _).
    assert (means sn (nd n_path_id [T tIDENT] [leaf (IDENT name)]) (N n_path_id) (ret (Units.id_of_string name))) by by_means.
    assert (means sn i (N n_import) (_ ⇐ the_module; ret tt)) by (subst i; by_means). by_means.
Qed.

(** A property, an [include] or an [import] is no declaration. *)
Lemma means_decls l : forallb Reads.decl_ok l = true →
  means sn (list0 n_opt_global_decls n_global_decl (map decl_tree l)) (N n_opt_global_decls)
    (ds ⇐ all (decl_value sn) l; ret (omap (λ d, d) ds)).
Proof.
  induction l as [|d l IH]; cbn [map list0 forallb]; intros Hl; [by_means|]. apply andb_prop in Hl as [Hd%means_decl Hl].
  specialize (IH Hl). cbn [all]. unfold leaf, ch in *. means_rule_of; [args_of|]. same_effects.
Qed.
Lemma means_module m : forallb Reads.decl_ok (s_decls m) = true →
  means sn (module_tree m) (N n_module) (module_value sn m).
Proof.
  destruct m as [name decls]. cbn [s_decls]. intros H%means_decls. pose proof (means_local_id name).
  unfold module_tree, module_value. cbn [s_name s_decls]. by_means.
Qed.
End Means.
End Means.
Import Means.

(** ** Specifications are read back *)

(** A module is written as far as the grammar can read it: its expressions have the parentheses
    the precedences need ([prec_ok]), a property is not set to [none], and a field of an integer
    type has no arguments. *)
Definition written_ok (m : smodule) : bool := forallb Reads.decl_ok (s_decls m).

Lemma module_accepted m : written_ok m = true →
  accepted spec_grammar spec_analysis spec_table kind (module_tree m) = true.
Proof.
  intros H%Reads.fits_module. unfold accepted.
  assert (Hr : reads (module_tree m) 1 [] (default 1%positive (goto 1 (N n_module)))).
  { by apply (Parts.fits_reads _ _ H 1 []). }
  unfold reads in Hr. rewrite Hr. vm_compute. reflexivity.
Qed.
Lemma module_parsed m : written_ok m = true → parse_tokens (module_tokens m) = Ret (Some (module_tree m)).
Proof.
  intros H. apply (LrCorrect.Correctness.parse_exactly _ _ _ _ kind Specs.Numbers.spec_valid Specs.Numbers.kind_token).
  split; [apply Yields.tokens_module|by apply module_accepted].
Qed.

Lemma module_runs stream_name m st : written_ok m = true →
  run_tree stream_name (module_tree m) st = option_map snd <$> module_value stream_name m st.
Proof. intros (v & Hd & Hv)%(means_module stream_name). unfold run_tree. by rewrite Hd, Hv. Qed.

(** Tokens with texts outside of patterns. *)
Lemma spelled_no_regexp strtod ts : Forall (spelled strtod) ts → forallb (negb ∘ is_regexp) ts = true.
Proof.
  induction 1 as [|t ts [w Hw] _ IH]; [done|]. cbn [forallb]. rewrite IH, andb_true_r.
  destruct Hw as [w t Hin| | | | | | | | | | |]; try done.
  assert (Hf : forallb (negb ∘ is_regexp ∘ snd) Scanning.Written.fixed_tokens = true) by (vm_compute; reflexivity).
  rewrite forallb_forall in Hf. apply list_elem_of_In in Hin. exact (Hf _ Hin).
Qed.

(** C7: The tokens of a written module are parsed, and what the semantic actions do to the state of
    the driver is what the module declares, errors included.  If its tokens have texts, the
    module has a text of which the driver, with the scanner and the parser, makes the same.  A
    written module ([Source.v]) has constants, types, units with parameters, variables, properties
    and fields, functions, instantiations, properties, imports and includes; it has no switches,
    enumerations, bit sets, bit fields, tuple types or regular expressions. *)
Theorem specification_read_back {L : Type} `{!Locations L} (strtod : string → double) stream_name m st (loc : L) :
  written_ok m = true →
  parse_module stream_name (module_tokens m) st = option_map snd <$> module_value stream_name m st ∧
  (Forall (spelled strtod) (module_tokens m) →
   ∃ text, driver_parse strtod stream_name text loc st = option_map snd <$> module_value stream_name m st).
Proof.
  intros H. pose proof (module_parsed m H) as Hp. split.
  - unfold parse_module. rewrite Hp. by apply module_runs.
  - intros Hsp. destruct (spell strtod _ Hsp) as (l & Hl & El).
    destruct (scan_pieces strtod l loc Hl) as (s & Es & _ & Hs). rewrite El in Es. exists (text_of l).
    destruct (parse_text_scan strtod _ _ _ _ _ Es Hp (spelled_no_regexp strtod _ Hsp)) as (k & Hk & Hks).
    unfold driver_parse. rewrite Hk. cbn [mbind outcome_bind]. rewrite Hks, Hs. by apply module_runs.
Qed.

(** ** Concrete inputs *)

Module Sample.

(** A module with a constant, a unit with a parameter, a vector, bytes whose length is an
    expression, a variable and a field with a condition, and an instantiation. *)
Definition var (s : string) : tree := TAtom (AIdent s).
Definition packet : smodule := mkSmodule "net" [
  SProperty (PropIs "%byteorder" (AIdent "big"));
  SConst false "header" (Some (SInt U16)) (TSized U16 8);
  SUnit true "packet" (Some [mkSparam false "flags" (SSimple (SInt U8))]) [
    ItemField (mkSfield (Some "size") (CType (SInt U16) None) None [] None []);
    ItemField (mkSfield (Some "ids") (CType (SInt U8) None) (Some (TAtom (AInteger 4))) [] None []);
    ItemField (mkSfield (Some "body") (CType SBytes None) None
      [AttrIs "&length" (TBin BMinus (var "size") (var "header"))] None []);
    ItemField (mkSfield (Some "rest") (CNamed (Plain "tail") (Some [var "size"; var "flags"])) None []
      (Some (TBin BLess (var "size") (TAtom (AInteger 100)))) []);
    ItemVar "seen" (SSimple SBool) (Some (TAtom (ABool false))) []];
  SInstantiate (Plain "packet") "Packet" [InstOf "size" []; InstOf "body" [AttrOnly "&needed"]]].

(** What the parser makes of it: its properties, its declarations and the items of its units. *)
Definition summary (r : outcome (option pstate)) : option (nat * nat * list nat) :=
  match r with
  | Ret (Some s) =>
      match st_module s with
      | Some m => Some (length (module_properties m), length (module_decls m),
          map (λ u, length (Units.unit_items u.2)) (map_to_list (st_units s)))
      | None => None
      end
  | _ => None
  end.

(** The tokens of the module have texts. *)
Ltac spell_token :=
  match goal with
  | |- spelled _ (IDENT ?s) => exists s; apply Scanning.Written.W_ident;
      [by apply Regex.RegexLemmas.accepts_spec|by apply (bool_decide_unpack (s ∉ Scanning.Written.reserved))]
  | |- spelled _ (ATTRIBUTE ?s) => exists s; apply Scanning.Written.W_attribute; by apply Regex.RegexLemmas.accepts_spec
  | |- spelled _ (PROPERTY ?s) => exists s; apply Scanning.Written.W_property; by apply Regex.RegexLemmas.accepts_spec
  | |- spelled _ (CINTEGER ?z) => eexists; apply Scanning.Written.W_integer; lia
  | |- spelled _ (CHAR _) => apply char_spelled; vm_compute; tauto
  | |- _ => eexists; apply Scanning.Written.W_fixed, list_elem_of_In; vm_compute; tauto
  end.
Lemma packet_spelled : Forall (spelled Scanning.Sample.decimal) (module_tokens packet).
Proof.
  let l := eval vm_compute in (module_tokens packet) in change (Forall (spelled Scanning.Sample.decimal) l).
  repeat (apply list.Forall_cons; split; [spell_token|]). by apply list.Forall_nil.
Qed.

End Sample.
Import Sample.

#[local] Existing Instance Scanning.Sample.counting.

Lemma specification_read_back_witness :
  (∃ text, driver_parse Scanning.Sample.decimal "net.dgo" text (1, 1)%Z (new_state 0 ∅ 0)
     = option_map snd <$> module_value "net.dgo" packet (new_state 0 ∅ 0)) ∧
  summary (parse_module "net.dgo" (module_tokens packet) (new_state 0 ∅ 0)) = Some (1, 3, [5]).
Proof.
  split.
  - exact (proj2 (specification_read_back Scanning.Sample.decimal "net.dgo" packet (new_state 0 ∅ 0) (1, 1)%Z eq_refl)
      Sample.packet_spelled).
  - vm_compute. reflexivity.
Defined.
